(* ===== verification/_CoqProject ===== *)
-Q . S2P
Prelude.v
Text.v
FileSystem.v
Bech32.v
LevelDB.v
Serialization.v
Crypto.v
Transaction.v
Validation.v
Wallet.v
CacheSet.v
UhsSpec.v
LockingShard.v
DistributedTx.v
Coordinator.v
Failover.v
Sentinel.v
Atomizer.v
AtomizerShard.v
Watchtower.v
Messages.v
Archiver.v
LogStore.v
Config.v
Seeding.v
Client.v
BlockingQueue.v
Network.v
Rpc.v
RemoteShard.v
Snapshot.v
RaftNode.v
AtomizerController.v
CoordinatorNode.v
ClientCli.v
TwoPhase.v
Services.v
