(* ===== verification/Prelude.v ===== *)
(** * A verification of the OpenCBDC transaction processor

    The program (C++, under src/src/) moves money as unspent hashes: a
    transaction consumes hashes of inputs and creates hashes of outputs, and
    the unspent hash set (UHS) is split over shards by the first byte of a
    hash.  Clients keep wallets, which build and sign transactions, sentinels
    validate and attest them, and one of two back ends settles them:
    coordinators that run a two-phase commit over locking shards, or an
    atomizer that orders the notifications of its shards into blocks.  In the
    second one an archiver keeps all blocks and a watchtower answers clients
    from the recent ones.  Replicated nodes keep their log in a database, and
    all nodes read one configuration file.

    ** Files

    Foundations.
    - Prelude: outcomes of code that may fail an assertion or read out of
      range ([outcome], [Ret], [Fatal], the [let!] notation), bytes, 64-bit
      arithmetic with its wrap-around, tactics and hint databases, lemmas on
      lists and maps.
    - Text: numbers, hexadecimal and log levels as text (src/util/common:
      hash.cpp, buffer.cpp, logging.cpp, and the C++ library functions used).
    - FileSystem: files and directories as the C++ code sees them, for the
      components that keep state on disk.
    - Bech32: 3rdparty/bech32, the encoding of addresses.
    - LevelDB: the database as a class with its laws, and the finite map that
      satisfies them.
    - Serialization: src/util/serialization and src/util/raft.  An encoder is
      the list of writes it issues; a [Serializer] is the interface of a
      buffer, a size counter, a stream or a NuRaft buffer; decoders are
      functions on any of them.
    - Crypto: SHA-256 and libsecp256k1 as classes with their documented laws,
      and toy instances for the examples.

    Transactions.
    - Transaction: src/uhs/transaction/transaction.cpp and messages.cpp; data,
      wire format, transaction ids, UHS ids, attestations.
    - Validation: validation.cpp; every check of [check_tx] and
      [check_attestations].
    - Wallet: wallet.cpp; keys, coin selection, payments, signing,
      confirmation.
    - Client: src/uhs/client; Module [client] has the bookkeeping of sent and
      received transactions and the client file, [twophase_client] and
      [atomizer_client] the synchronisation with a back end, [wallet_file]
      the file of the wallet.
    - ClientCli: src/uhs/client/client-cli.cpp; addresses and the commands of
      the command line over the client.
    - Sentinel: src/uhs/twophase/sentinel_2pc and src/uhs/atomizer/sentinel.

    Two-phase commit.
    - CacheSet: src/util/common/cache_set.hpp.
    - UhsSpec: the abstract specification of settlement, [uhs_run]: a list of
      transactions, each of which consumes only unspent hashes and creates
      only new ones.
    - LockingShard: src/uhs/twophase/locking_shard; Module [locking_shard] has
      one definition per method, Module [shard_state_machine] the replicated
      wrapper.
    - DistributedTx: src/uhs/twophase/coordinator/distributed_tx.cpp, against
      the class [ShardInterface] (locking_shard/interface.hpp) with its laws
      [ShardLaws], which the locking shard satisfies.
    - Coordinator: state_machine.cpp (Module [coordinator_sm]) and
      controller.cpp (Modules [controller] and [start_stop]).  Raft decides
      at every command whether it is replicated, refused, or committed without
      an answer.
    - Failover: what a coordinator that loses leadership in the middle of a
      batch leaves in the log and in the shards, and that recovery resumes it.
    - CoordinatorNode: the threads of controller.cpp as step relations; Module
      [batch_sync] has the handler, the executor and their condition
      variables and the wait for a free thread, [exec_pool] the threads that
      run batches, [coordinator_life] the connections.
    - RemoteShard: locking_shard/client.cpp with its retries, the replicated
      shard behind it, and status_client.hpp.  A remote shard is an instance
      of [ShardLaws].
    - TwoPhase: clients, sentinels, coordinators that lose leadership and
      recover, and shards put together.

    Atomizer.
    - Atomizer: src/uhs/atomizer/atomizer; Modules [atomizer], [atomizer_sm]
      and [atomizer_raft].
    - Snapshot: the snapshots of state_machine.cpp as files, and replicas that
      crash, restart and receive snapshots.
    - AtomizerController: atomizer/controller.cpp; its threads, callbacks and
      clients as a step relation.
    - AtomizerShard: src/uhs/atomizer/shard; the last section runs shards and
      atomizer together.
    - Watchtower: src/uhs/atomizer/watchtower; Modules [block_cache],
      [error_cache], [watchtower] and [wt_controller].
    - Archiver: src/uhs/atomizer/archiver/controller.cpp; the last section
      lets a shard catch up from an archiver.

    Around them.
    - Messages: the wire formats of the messages between the nodes, with the
      variants, whose readers may abort.
    - LogStore: src/util/raft/log_store.cpp and index_comparator.cpp.
    - RaftNode: node.cpp and state_manager.cpp of src/util/raft.
    - BlockingQueue: src/util/common/blocking_queue.hpp with any number of
      threads.
    - Network: src/util/network; sockets and their framing, listeners, the
      selector, peers, and the connection manager.
    - Rpc: src/util/rpc and src/util/raft/rpc_server.hpp; a client and the
      servers over any class of payloads.
    - Services: sentinels, watchtowers and archivers as their clients see
      them: the stubs and servers of src/uhs/sentinel, sentinel_2pc,
      atomizer/sentinel, watchtower/client.cpp and archiver/client.cpp, and
      the node of a locking shard.
    - Config: src/util/common/config.cpp and config.hpp.
    - Seeding: tools/shard-seeder for both architectures, the reader of its
      files in the locking shard, and the seeded wallets of tools/bench/twophase_gen.cpp.

    ** What is shown

    - Settlement.  Both back ends refine [UhsSpec].  [shard_refines_uhs]
      accounts for every change of the unspent set of a locking shard over any
      history of requests, and together with [shard_no_double_spend] shows the
      refinement for the histories in which nothing competes;
      [execute_refines_uhs] shows that a batch over shards that
      cover the hash space is atomic, and [verdict_meaning] says which
      transactions it accepts; [architecture_refines_uhs] covers shards,
      network and atomizer in any interleaving, with restarts, reordering and
      repetition.  The statements that a batch is atomic assume that its
      transactions compete for an input neither with each other nor with a
      batch that is still prepared ([admissible]): without that the code does
      create money, which [aborted_tx_releases_foreign_lock] shows for one
      batch and [concurrent_batches_double_spend] for two.  Outputs
      are assumed to be new, as [uhs_id_binding] and [tx_id_binding] justify
      up to collisions of SHA-256, and ids of batches, which are random, too.
    - Payments.  [payments_settle] follows a transaction from a client through
      sentinel, coordinator and shards and back: what clients are told to be
      confirmed is what changed the unspent set, and all of it was valid and
      attested, across losses of leadership at any command and recoveries that
      fail or succeed.  Batches are executed one after the other there, compete
      for nothing, and a node serves only after it has recovered;
      [unrecovered_leader_serves] shows that the code does not ensure the last.
      It is proved for every [ShardLaws], and its example uses
      shards behind a network that loses and repeats calls;
      [remote_batch_atomic] is the statement on batches over such shards.
    - Failure.  [recover_prepare_same_outcome] and [recover_commit_completes]
      show that a batch another coordinator takes over ends as it would have
      ended; [execute_write_ahead], [coordinator_life_cycle] and
      [recovery_drains_log] do so for the replicated log, whatever Raft does
      with the commands and however the threads of a recovery interleave, and
      [log_store_refines_list] for its storage.  [raft_files_survive] and
      [replicas_survive] do so for the files of a node: a replica that
      crashes at any point, in the middle of installing a snapshot included,
      can start again, and is in the state of the log.
    - Nodes.  [batch_handover_live], [exec_pool_complete] and
      [serving_is_connected] cover the threads of a coordinator,
      [controller_reports_chain] those of the atomizer, and
      [shard_serves_iff_leader] the node of a shard.
    - Transport.  [packets_framed] and [packets_delivered_in_turn] show that
      packets arrive whole, in order and fairly however the system splits
      them; [queue_fifo_no_lost_wakeup] does so between threads.
      [rpc_answers_own_call] shows that a call gets its own answer once over a
      network that delays, repeats and loses packets;
      [remote_sentinel_2pc_answers], [watchtower_client_in_step],
      [archiver_client_get_block] and [status_client_unspent] say what that
      means for the callers of each service.
    - Blocks.  [archiver_stores_chain] shows that the archive is the
      contiguous prefix of what arrived, in whatever order;
      [atomizer_handler_catches_up], [shard_catches_up_from_archive] and
      [watchtower_catches_up] that nodes that missed blocks follow the chain;
      [status_request_meaning] and [settled_tx_reported] what a watchtower
      tells a client.
    - Entry.  [check_tx_iff_valid] and [check_tx_error_sound] characterise
      validation; [sentinel_forwards_only_valid] and [sentinel_gathers] what
      passes a sentinel; [send_to_accepted], [send_to_pays] and the other
      theorems of Wallet what a wallet builds.  [payment_reaches_payee] and
      [abandoned_payment_restored] follow a payment through both clients, and
      [client_restart_restores] shows that a client survives a restart.
      [address_roundtrip] and [cli_payment_handed_over] do the same for the
      command line.
    - Encodings.  The wire formats round-trip ([message_wire_roundtrips] and
      the theorems of Transaction), the ids bind what they identify, and the
      id of a created output is the hash of the input that spends it.
    - Set-up.  [settings_read_back] is the round trip of the configuration
      file, [loaded_options_valid] that options that load have the nodes the
      settings count and name, and
      [setting_names_distinct] that no two settings share a name;
      [preseeded_coins_spendable] puts the configuration, the seeder, the
      shards and the wallets together for shards with equal ranges, and
      [misplaced_coin_refused] shows what happens with other ranges.
    - Deviations.  Some theorems show where the code does not do what its
      documentation says; each says so in its comment.

    ** Modelling

    A method is a function on an explicit state; the state it leaves is part
    of its result.  An assertion that fails, a call of the logger's [fatal],
    an exception that nobody catches and an access out of range are [Fatal].
    Most methods hold their mutex throughout and are atomic; where threads
    meet (BlockingQueue, CoordinatorNode, AtomizerController) their critical
    sections, waits and notifications are the steps of a relation.  The
    batches of TwoPhase run one after the other, as with one executor
    thread; the threads of a recovery run one after the other in
    [recovery_func] and in any order of their commands in [recovery_thread].  Random numbers, the environment and the answers of remote
    parties are arguments, and so is what a system call transfers and whether
    it fails; a file is its list of bytes.  Calls the code makes
    in parallel to different shards are made one after the other; the shards
    share no state.

    Loops are structural wherever the code bounds them; the loop over
    pre-seeded coins runs over the number of coins left, so its bound is
    exact.  Fuel or a bound is used where the code reads until something
    happens.  [get_unordered_map], [get_unordered_set] and the readers of
    files are bounded by a number of entries, and their round trips are
    proved for every bound that admits the encoded value.  The
    [atomizer_handler] of a shard is bounded by its rounds, of which two are
    proved to be enough when it ends at all; the one of the watchtower by its
    requests, of which the missing blocks and the refusals before the
    archiver has them are enough; the recursion of the archiver's
    [digest_block] by one more than the number of deferred blocks, which
    [archiver_stores_chain] proves to be enough; the lines of a configuration
    file by its length.  Writing to and reading from a socket is bounded by
    the bytes that are left, of which every call that succeeds transfers at
    least one; receiving packets by a number of packets, for which the bytes
    that arrived are enough; the repeated calls of a shard client by the list
    of what happens to them; [ConvertBits] by the bits it holds.  Gathering
    attestations ends with the list of draws, and rounds of polling with the
    list of their answers.

    ** What is not modelled

    The operating system and NuRaft themselves: the models have their calls
    and what they may answer.  Time: sleeping and the length of timeouts
    (that a call may time out is modelled).  Data that the system has not yet
    written when the power fails.  The output of the logger, the random
    source, and floating-point numbers.  Of the nodes' [main] functions and
    [init] methods only what decides whether a node starts; the parameters
    given to NuRaft are not modelled.  The sending loops of the benchmarks,
    which drive the system and print timings. *)

From Stdlib Require Import ZArith Lia.
From Stdlib.Strings Require Import Byte.
From stdpp Require Import base tactics numbers gmap sets list strings.

(** * Notations and databases *)

Declare Scope cbdc_scope.
Delimit Scope cbdc_scope with cbdc.

(** [cbdc_len] holds the length equations of encoders and list operations;
    [cbdc_u64] the equations of machine arithmetic; [cbdc] the resolution
    hints of the components. *)
Create HintDb cbdc.
Create Rewrite HintDb cbdc_len.
Create Rewrite HintDb cbdc_u64.

#[export] Hint Rewrite length_app @length_cons @length_nil @length_take
  @length_drop @length_replicate @length_fmap : cbdc_len.

(** * Tactics of the development *)

(** Decide the boolean or decidable test in the goal or in a hypothesis. *)
Ltac case_test :=
  match goal with
  | |- context [decide ?P] => destruct (decide P)
  | |- context [bool_decide ?P] => destruct (bool_decide_reflect P)
  | H : context [decide ?P] |- _ => destruct (decide P)
  | H : context [bool_decide ?P] |- _ => destruct (bool_decide_reflect P)
  end.

(** Split a [match] or [if] whose scrutinee is opaque, remembering it. *)
Ltac case_scrut :=
  match goal with
  | |- context [match ?x with _ => _ end] => destruct x eqn:?
  | H : context [match ?x with _ => _ end] |- _ => destruct x eqn:?
  end.

Ltac len := autorewrite with cbdc_len in *; simpl in *; try lia.

(** Decide a closed statement by evaluation. *)
Ltac compute_decide := apply (bool_decide_unpack _); vm_compute; exact I.

(** Turn boolean connectives and comparisons in the context into
    propositions. *)
Ltac bools :=
  repeat match goal with
  | H : _ && _ = true |- _ => apply andb_true_iff in H as [? ?]
  | H : _ || _ = false |- _ => apply orb_false_iff in H as [? ?]
  | H : negb _ = true |- _ => apply negb_true_iff in H
  | H : negb _ = false |- _ => apply negb_false_iff in H
  | H : bool_decide _ = true |- _ => apply bool_decide_eq_true_1 in H
  | H : bool_decide _ = false |- _ => apply bool_decide_eq_false_1 in H
  | H : (_ =? _)%Z = true |- _ => apply Z.eqb_eq in H
  | H : (_ =? _)%Z = false |- _ => apply Z.eqb_neq in H
  | H : (_ <? _)%Z = true |- _ => apply Z.ltb_lt in H
  | H : (_ <? _)%Z = false |- _ => apply Z.ltb_ge in H
  | H : (_ <=? _)%Z = true |- _ => apply Z.leb_le in H
  | H : (_ <=? _)%Z = false |- _ => apply Z.leb_gt in H
  end.

(** * Bytes *)

#[export] Instance byte_eq_dec : EqDecision byte := Byte.byte_eq_dec.

Definition Z_of_byte (b : byte) : Z := Z.of_N (Byte.to_N b).

Definition byte_of_Z (z : Z) : byte :=
  default x00 (Byte.of_N (Z.to_N (z `mod` 256))).

Lemma byte_of_Z_of_byte b : byte_of_Z (Z_of_byte b) = b.
Proof. by destruct b. Qed.

Lemma Z_of_byte_range b : (0 ≤ Z_of_byte b < 256)%Z.
Proof. by destruct b. Qed.

Lemma Z_of_byte_of_Z z : Z_of_byte (byte_of_Z z) = (z `mod` 256)%Z.
Proof.
  unfold byte_of_Z, Z_of_byte.
  pose proof (Z.mod_pos_bound z 256 ltac:(lia)) as Hb.
  destruct (Byte.of_N (Z.to_N (z `mod` 256))) as [b|] eqn:E; simpl.
  - rewrite (Byte.to_of_N _ E). lia.
  - apply Byte.of_N_None_iff in E. lia.
Qed.

#[export] Instance Z_of_byte_inj : Inj (=) (=) Z_of_byte.
Proof.
  intros a b H. by rewrite <- (byte_of_Z_of_byte a), H, byte_of_Z_of_byte.
Qed.

Lemma byte_of_to_N b : Byte.of_N (Byte.to_N b) = Some b.
Proof. by destruct b. Qed.

#[export] Instance byte_countable : Countable byte :=
  inj_countable Byte.to_N Byte.of_N byte_of_to_N.

(** [hash_t], [pubkey_t], [privkey_t] and [signature_t] are fixed-size byte
    arrays in the source; here byte lists, with the length as a
    well-formedness condition where a statement needs it. *)
Abbreviation hash_t := (list byte) (only parsing).
Abbreviation pubkey_t := (list byte) (only parsing).
Abbreviation privkey_t := (list byte) (only parsing).
Abbreviation signature_t := (list byte) (only parsing).

Definition hash_size : nat := 32.
Definition pubkey_len : nat := 32.
Definition sig_len : nat := 64.

(** A value-initialised array. *)
Definition zeros (n : nat) : list byte := replicate n x00.
Arguments zeros : simpl never.

(** * Machine integers *)

Definition max_u64 : Z := 2 ^ 64.

Definition u64 (z : Z) : Z := z `mod` 2 ^ 64.
Definition u32 (z : Z) : Z := z `mod` 2 ^ 32.
Definition u8 (z : Z) : Z := z `mod` 2 ^ 8.

Definition is_u64 (z : Z) : Prop := (0 ≤ z < 2 ^ 64)%Z.
Definition is_u32 (z : Z) : Prop := (0 ≤ z < 2 ^ 32)%Z.

#[export] Instance is_u64_dec z : Decision (is_u64 z).
Proof. unfold is_u64. apply _. Defined.

Definition add64 (a b : Z) : Z := u64 (a + b).
Definition sub64 (a b : Z) : Z := u64 (a - b).
Definition mul64 (a b : Z) : Z := u64 (a * b).

Lemma u64_range z : is_u64 (u64 z).
Proof. apply Z.mod_pos_bound. lia. Qed.

Lemma u64_small z : is_u64 z → u64 z = z.
Proof. intros H. by apply Z.mod_small. Qed.

Lemma add64_range a b : is_u64 (add64 a b).
Proof. apply u64_range. Qed.

Lemma sub64_range a b : is_u64 (sub64 a b).
Proof. apply u64_range. Qed.

#[export] Hint Resolve u64_range add64_range sub64_range : cbdc.

(** The overflow test of the source, [a + b <= a], detects exactly the
    wrap-around of a positive addend. *)
Lemma add64_overflow_test a b :
  is_u64 a → is_u64 b → (b > 0)%Z →
  (add64 a b ≤ a)%Z ↔ (2 ^ 64 ≤ a + b)%Z.
Proof.
  unfold is_u64, add64, u64. intros Ha Hb Hpos. split; intros H.
  - destruct (decide (a + b < 2 ^ 64)%Z) as [Hlt|]; [|lia].
    rewrite Z.mod_small in H; lia.
  - replace (a + b)%Z with ((a + b - 2 ^ 64) + 1 * 2 ^ 64)%Z by lia.
    rewrite Z.mod_add by lia. rewrite Z.mod_small; lia.
Qed.

Lemma add64_exact a b : is_u64 (a + b) → add64 a b = (a + b)%Z.
Proof. intros. by apply u64_small. Qed.

Lemma sub64_exact a b : is_u64 (a - b) → sub64 a b = (a - b)%Z.
Proof. intros. by apply u64_small. Qed.

Lemma add64_sub64 a b : is_u64 a → sub64 (add64 a b) b = a.
Proof.
  intros Ha. unfold sub64, add64, u64.
  rewrite Zminus_mod_idemp_l. replace (a + b - b)%Z with a by lia.
  by apply u64_small.
Qed.

Lemma add64_comm_assoc a b c : add64 (add64 a b) c = add64 (add64 a c) b.
Proof.
  unfold add64, u64. rewrite !Zplus_mod_idemp_l. f_equal. lia.
Qed.

(** * Little-endian encoding of machine words *)

Fixpoint le_bytes (n : nat) (z : Z) : list byte :=
  match n with
  | O => []
  | S n => byte_of_Z z :: le_bytes n (z `div` 256)
  end.

Fixpoint le_val (bs : list byte) : Z :=
  match bs with
  | [] => 0
  | b :: bs => Z_of_byte b + 256 * le_val bs
  end.

Lemma length_le_bytes n z : length (le_bytes n z) = n.
Proof. revert z; induction n; intros; simpl; auto. Qed.

#[export] Hint Rewrite length_le_bytes : cbdc_len.

Lemma le_val_bytes n z : le_val (le_bytes n z) = (z `mod` 2 ^ (8 * Z.of_nat n))%Z.
Proof.
  revert z; induction n as [|n IH]; intros z; simpl le_bytes; simpl le_val.
  { by rewrite Z.mod_1_r. }
  rewrite Z_of_byte_of_Z, IH.
  replace (8 * Z.of_nat (S n))%Z with (8 + 8 * Z.of_nat n)%Z by lia.
  rewrite Z.pow_add_r by lia. change (2 ^ 8)%Z with 256%Z.
  rewrite Z.rem_mul_r; lia.
Qed.

Lemma le_bytes_val bs : le_bytes (length bs) (le_val bs) = bs.
Proof.
  induction bs as [|b bs IH]; simpl; [done|].
  pose proof (Z_of_byte_range b).
  replace ((Z_of_byte b + 256 * le_val bs) `div` 256)%Z with (le_val bs).
  2:{ rewrite Z.add_comm, Z.mul_comm, Z.div_add_l by lia.
      rewrite Z.div_small by lia. lia. }
  rewrite IH. f_equal. apply (inj Z_of_byte).
  rewrite Z_of_byte_of_Z, Z.mul_comm, Z.mod_add by lia.
  by apply Z.mod_small.
Qed.

Lemma le_val_bytes_u64 z : is_u64 z → le_val (le_bytes 8 z) = z.
Proof. intros H. rewrite le_val_bytes. by apply Z.mod_small. Qed.

Lemma le_bytes_inj n a b :
  (0 ≤ a < 2 ^ (8 * Z.of_nat n))%Z → (0 ≤ b < 2 ^ (8 * Z.of_nat n))%Z →
  le_bytes n a = le_bytes n b → a = b.
Proof.
  intros Ha Hb E. apply (f_equal le_val) in E.
  rewrite !le_val_bytes, !Z.mod_small in E; auto.
Qed.

Arguments le_bytes : simpl never.
Arguments le_val : simpl never.
Arguments Z_of_byte : simpl never.
Arguments byte_of_Z : simpl never.

(** * Runs that may terminate the process *)

(** [logger->fatal] and a failed [assert] end the process: [Fatal]. *)
Inductive outcome (A : Type) : Type :=
| Ret (a : A)
| Fatal.
Arguments Ret {A} a.
Arguments Fatal {A}.

Definition obind {A B} (m : outcome A) (f : A → outcome B) : outcome B :=
  match m with Ret a => f a | Fatal => Fatal end.

Notation "'let!' x := m 'in' k" := (obind m (λ x, k))
  (at level 10, x name, m at level 100, k at level 200) : cbdc_scope.
Notation "'let!' ' p := m 'in' k" := (obind m (λ p, k))
  (at level 10, p strict pattern, m at level 100, k at level 200) : cbdc_scope.

(** An index beyond the vector is undefined behaviour: [Fatal]. *)
Definition at_index {A} (l : list A) (idx : nat) : outcome A :=
  match l !! idx with Some x => Ret x | None => Fatal end.

Lemma at_index_some {A} (l : list A) i x : l !! i = Some x → at_index l i = Ret x.
Proof. unfold at_index. by intros ->. Qed.
#[export] Hint Resolve at_index_some : cbdc.

(** A vector of [n] elements of [size] bytes; more than [max_size] throws. *)
Definition alloc (size n : Z) : outcome () :=
  if ((2 ^ 63 - 1) `div` size <? n)%Z then Fatal else Ret ().

Lemma alloc_ok size n : (0 < size ≤ 24)%Z → (n ≤ 2 ^ 58)%Z → alloc size n = Ret ().
Proof.
  intros Hs Hn. unfold alloc.
  assert (2 ^ 58 ≤ (2 ^ 63 - 1) `div` size)%Z.
  { apply Z.div_le_lower_bound; [lia|]. nia. }
  by rewrite (proj2 (Z.ltb_ge _ _)) by lia.
Qed.

Definition is_ret {A} (m : outcome A) : Prop := ∃ a, m = Ret a.

(** * Lists *)

Lemma app_eq_length {A} (a b c d : list A) :
  length a = length b → a ++ c = b ++ d → a = b ∧ c = d.
Proof. apply app_inj_1. Qed.

(** Index of the first element satisfying a boolean test. *)
Fixpoint find_index {A} (p : A → bool) (l : list A) : option nat :=
  match l with
  | [] => None
  | x :: l => if p x then Some 0 else S <$> find_index p l
  end.

Lemma last_elem {A} (x d : A) l : List.last (x :: l) d ∈ x :: l.
Proof.
  revert x. induction l as [|y l IH]; intros x; [set_solver|].
  apply elem_of_cons. right. apply IH.
Qed.

Definition sum_list_Z (l : list Z) : Z := foldr Z.add 0%Z l.

Lemma sum_list_Z_app a b :
  sum_list_Z (a ++ b) = (sum_list_Z a + sum_list_Z b)%Z.
Proof. unfold sum_list_Z. induction a; simpl; lia. Qed.

Lemma sum_list_Z_nonneg l : Forall (λ z, 0 ≤ z)%Z l → (0 ≤ sum_list_Z l)%Z.
Proof. induction 1; simpl; unfold sum_list_Z in *; simpl; lia. Qed.

#[export] Instance sum_list_Z_perm : Proper ((≡ₚ) ==> (=)) sum_list_Z.
Proof. induction 1; unfold sum_list_Z in *; simpl; lia. Qed.

Lemma elem_of_list_to_set_C `{Countable A} (x : A) (l : list A) :
  x ∈ (list_to_set l : gset A) ↔ x ∈ l.
Proof. apply elem_of_list_to_set. Qed.

(** * Maps *)

(** [insert] of the standard maps keeps an existing entry. *)
Definition insert_new `{Countable K} {A} (k : K) (v : A) (m : gmap K A)
    : gmap K A :=
  match m !! k with Some _ => m | None => <[ k := v ]> m end.

Lemma insert_new_lookup `{Countable K} {A} (k k' : K) (v x : A) m :
  insert_new k v m !! k' = Some x →
  m !! k' = Some x ∨ (k' = k ∧ x = v ∧ m !! k = None).
Proof.
  unfold insert_new. destruct (m !! k) eqn:E; [by left|].
  intros [[<- <-]|[_ ?]]%lookup_insert_Some; auto.
Qed.

Lemma insert_new_keeps `{Countable K} {A} (k k' : K) (v x : A) m :
  m !! k' = Some x → insert_new k v m !! k' = Some x.
Proof.
  intros Hx. unfold insert_new. destruct (m !! k) eqn:E; [done|].
  rewrite lookup_insert_ne; [done|]. congruence.
Qed.

Lemma insert_new_is_Some `{Countable K} {A} (k : K) (v : A) m :
  is_Some (insert_new k v m !! k).
Proof.
  unfold insert_new. destruct (m !! k) eqn:E; [by eexists|].
  rewrite lookup_insert_eq. eauto.
Qed.

Lemma insert_new_size `{Countable K} {A} (k : K) (v : A) m :
  size (insert_new k v m) ≤ S (size m).
Proof.
  unfold insert_new. destruct (m !! k) eqn:E; [lia|].
  rewrite map_size_insert_None by done. lia.
Qed.
