(* ===== verification/Text.v ===== *)
(** * Strings

    The conversions between numbers, bytes and text that the program uses:
    [std::to_string], [std::stoull], [std::getline] and stream extraction in
    hexadecimal from the C++ library, and on top of them the hexadecimal
    conversions of [src/util/common/hash.cpp] and [buffer.cpp] and the names
    of the log levels of [logging.cpp].  A [std::string] is a list of
    bytes. *)

From Stdlib Require Import ZArith Lia.
From Stdlib.Strings Require Import Byte String.
From stdpp Require Import base tactics numbers gmap sets list.
From S2P Require Import Prelude.
Open Scope cbdc_scope.

(** A string literal. *)
Abbreviation lit := String.list_byte_of_string.

(** ** The C++ library *)

(** Characters are compared by their codes. *)
Definition code (b : byte) : Z := Z_of_byte b.

Definition isdigit (b : byte) : bool := (48 <=? code b)%Z && (code b <=? 57)%Z.

Definition isspace (b : byte) : bool :=
  (code b =? 32)%Z || ((9 <=? code b)%Z && (code b <=? 13)%Z).

Fixpoint skip_spaces (s : list byte) : list byte :=
  match s with
  | c :: s' => if isspace c then skip_spaces s' else s
  | [] => []
  end.

(** The digits of [z], most significant first, in front of [acc]. *)
Fixpoint digits (fuel : nat) (z : Z) (acc : list byte) : list byte :=
  match fuel with
  | O => acc
  | S fuel =>
      let acc' := byte_of_Z (48 + z `mod` 10) :: acc in
      if (z `div` 10 =? 0)%Z then acc' else digits fuel (z `div` 10) acc'
  end.

(** [std::to_string] of a 64-bit number, which has at most 20 digits. *)
Definition to_string (z : Z) : list byte := digits 20 z [].

(** The value of the longest prefix of digits, after [acc]; the flag says
    whether there was one. *)
Fixpoint read_digits (acc : Z) (seen : bool) (s : list byte) : Z * bool :=
  match s with
  | c :: s' =>
      if isdigit c then read_digits (acc * 10 + (code c - 48)) true s'
      else (acc, seen)
  | [] => (acc, seen)
  end.

(** An optional sign: [true] for a minus. *)
Definition read_sign (s : list byte) : bool * list byte :=
  match s with
  | x2d :: s' => (true, s')
  | x2b :: s' => (false, s')
  | _ => (false, s)
  end.

(** [std::stoull]: leading white space, a sign and digits; the rest is
    ignored.  It throws without digits ([invalid_argument]) and when the
    number does not fit ([out_of_range]); a minus negates modulo [2^64]. *)
Definition stoull (s : list byte) : outcome Z :=
  let (neg, s') := read_sign (skip_spaces s) in
  let (v, seen) := read_digits 0 false s' in
  if negb seen then Fatal
  else if (2 ^ 64 <=? v)%Z then Fatal
  else Ret (if (neg : bool) then u64 (- v) else v).

(** [std::getline] with a delimiter: [None] when the stream is at its end,
    otherwise the line and the rest of the stream. *)
Fixpoint split_at (delim : byte) (s : list byte) : list byte * list byte :=
  match s with
  | [] => ([], [])
  | c :: s' =>
      if decide (c = delim) then ([], s')
      else let (l, rest) := split_at delim s' in (c :: l, rest)
  end.

Definition getline (delim : byte) (s : list byte)
    : option (list byte * list byte) :=
  match s with
  | [] => None
  | _ => Some (split_at delim s)
  end.

(** [std::toupper] in the C locale. *)
Definition toupper (c : byte) : byte :=
  if ((97 <=? code c)%Z && (code c <=? 122)%Z)%bool
  then byte_of_Z (code c - 32) else c.

(** ** Hexadecimal *)

(** One digit as [std::hex] prints it. *)
Definition hex_char (v : Z) : byte :=
  byte_of_Z (if (v <? 10)%Z then 48 + v else 87 + v).

Definition hex_val (c : byte) : option Z :=
  let z := code c in
  if ((48 <=? z)%Z && (z <=? 57)%Z)%bool then Some (z - 48)%Z
  else if ((97 <=? z)%Z && (z <=? 102)%Z)%bool then Some (z - 87)%Z
  else if ((65 <=? z)%Z && (z <=? 70)%Z)%bool then Some (z - 55)%Z
  else None.

(** The value of a prefix of hexadecimal digits, [None] if there is none. *)
Fixpoint read_hex (acc : option Z) (s : list byte) : option Z :=
  match s with
  | c :: s' =>
      match hex_val c with
      | Some d => read_hex (Some (default 0%Z acc * 16 + d)%Z) s'
      | None => acc
      end
  | [] => acc
  end.

(** [s >> v] for an [unsigned int] after [std::hex], on at most two
    characters, so that the value cannot overflow: white space, a sign and
    the prefix [0x] are accepted, and a prefix alone is not a number.
    [None] is a failed extraction, which stores zero. *)
Definition extract_hex (s : list byte) : option Z :=
  let (neg, s') := read_sign (skip_spaces s) in
  let digits :=
    match s' with
    | x30 :: x78 :: s'' | x30 :: x58 :: s'' => s''
    | _ => s'
    end in
  match read_hex None digits with
  | Some v => Some (if (neg : bool) then u32 (- v) else v)
  | None => None
  end.

(** [to_string] of a hash and [buffer::to_hex]. *)
Definition to_hex (bs : list byte) : list byte :=
  bs ≫= λ b, [hex_char (Z_of_byte b `div` 16); hex_char (Z_of_byte b `mod` 16)].

(** The loop over the pairs of characters, with [f] for each. *)
Fixpoint by_pairs {A} (f : list byte → A) (s : list byte) : list A :=
  match s with
  | [] => []
  | [c] => [f [c]]
  | c1 :: c2 :: s' => f [c1; c2] :: by_pairs f s'
  end.

(** [hash_from_hex]: the array is not initialised, [uninit] is what it
    happens to hold; more than 64 characters are written past its end. *)
Definition hash_from_hex (uninit : list byte) (val : list byte)
    : outcome (list byte) :=
  let bs := by_pairs (λ s, byte_of_Z (default 0%Z (extract_hex s))) val in
  if decide (hash_size < length bs) then Fatal
  else Ret (bs ++ drop (length bs) uninit).

(** [buffer::from_hex] *)
Definition from_hex (hex : list byte) : option (list byte) :=
  if bool_decide (hex = []) || negb (Z.of_nat (length hex) `mod` 2 =? 0)%Z ||
     (102400 <? Z.of_nat (length hex))%Z then None
  else mapM (λ v, byte_of_Z <$> v) (by_pairs extract_hex hex).

(** ** Log levels *)

Inductive log_level := trace | debug | info | warn | error | fatal.

#[export] Instance log_level_eq_dec : EqDecision log_level.
Proof. solve_decision. Defined.

Definition parse_loglevel (level : list byte) : option log_level :=
  if decide (level = lit "TRACE") then Some trace
  else if decide (level = lit "DEBUG") then Some debug
  else if decide (level = lit "INFO") then Some info
  else if decide (level = lit "WARN") then Some warn
  else if decide (level = lit "ERROR") then Some error
  else if decide (level = lit "FATAL") then Some fatal
  else None.

(** ** Decimal round trip *)

Lemma code_digit d : (0 ≤ d < 10)%Z → code (byte_of_Z (48 + d)) = (48 + d)%Z.
Proof. intros Hd. unfold code. rewrite Z_of_byte_of_Z. apply Z.mod_small. lia. Qed.

Lemma isdigit_digit d : (0 ≤ d < 10)%Z → isdigit (byte_of_Z (48 + d)) = true.
Proof.
  intros Hd. unfold isdigit. rewrite code_digit by done.
  apply andb_true_iff. rewrite !Z.leb_le. lia.
Qed.

(** Reading the digits of [z] after [a] shifts [a] by their number. *)
Lemma read_digits_of fuel : ∀ z rest,
  (0 ≤ z < 10 ^ Z.of_nat fuel)%Z →
  ∃ n : nat, ∀ a seen,
    read_digits a seen (digits fuel z rest) =
      read_digits (a * 10 ^ Z.of_nat n + z) (bool_decide (fuel ≠ 0) || seen) rest.
Proof.
  induction fuel as [|fuel IH]; intros z rest Hz.
  { exists 0. intros a seen. simpl in *. f_equal. lia. }
  pose proof (Z.mod_pos_bound z 10 ltac:(lia)) as Hm.
  pose proof (Z.div_mod z 10 ltac:(lia)) as Hdm. cbn [digits].
  rewrite (bool_decide_true (S fuel ≠ 0)) by lia.
  destruct (Z.eqb_spec (z `div` 10) 0) as [E|E].
  - exists 1. intros a seen. cbn [read_digits].
    rewrite isdigit_digit, code_digit by done. f_equal; lia.
  - rewrite Nat2Z.inj_succ, Z.pow_succ_r in Hz by lia.
    destruct (IH (z `div` 10)%Z (byte_of_Z (48 + z `mod` 10) :: rest)) as [n Hn].
    { split; [apply Z.div_pos; lia|apply Z.div_lt_upper_bound; lia]. }
    exists (S n). intros a seen. rewrite Hn. cbn [read_digits].
    rewrite isdigit_digit, code_digit by done. f_equal.
    rewrite Nat2Z.inj_succ, Z.pow_succ_r by lia. lia.
Qed.

(** The first character is a digit, neither white space nor a sign. *)
Lemma digits_head fuel : ∀ z rest,
  fuel ≠ 0 → (0 ≤ z)%Z →
  ∃ d s, (0 ≤ d < 10)%Z ∧ digits fuel z rest = byte_of_Z (48 + d) :: s.
Proof.
  induction fuel as [|fuel IH]; intros z rest Hf Hz; [done|].
  pose proof (Z.mod_pos_bound z 10 ltac:(lia)). cbn [digits].
  destruct (Z.eqb_spec (z `div` 10) 0) as [E|E]; [eauto|].
  destruct fuel as [|fuel]; [simpl; eauto|].
  apply IH; [done|]. apply Z.div_pos; lia.
Qed.

Lemma head_digit_plain d s :
  (0 ≤ d < 10)%Z →
  read_sign (skip_spaces (byte_of_Z (48 + d) :: s)) = (false, byte_of_Z (48 + d) :: s).
Proof.
  intros Hd. cbn [skip_spaces]. unfold isspace. rewrite code_digit by done.
  rewrite (proj2 (Z.eqb_neq _ _)), (proj2 (Z.leb_gt (48 + d) 13)) by lia.
  rewrite andb_false_r. simpl.
  pose proof (code_digit d Hd) as Hc.
  destruct (byte_of_Z (48 + d)); try reflexivity;
    exfalso; unfold code, Z_of_byte in Hc; cbn [Byte.to_N Z.of_N] in Hc; lia.
Qed.

Lemma read_digits_nonneg s : ∀ acc seen, (0 ≤ acc)%Z → (0 ≤ (read_digits acc seen s).1)%Z.
Proof.
  induction s as [|c s IH]; intros acc seen Hacc; cbn [read_digits]; [done|].
  destruct (isdigit c) eqn:E; [|done]. apply IH. unfold isdigit in E. bools. lia.
Qed.

(** A number that was read is unsigned, also with a minus sign. *)
Lemma stoull_nonneg s z : stoull s = Ret z → (0 ≤ z)%Z.
Proof.
  unfold stoull. destruct (read_sign _) as [neg s'].
  pose proof (read_digits_nonneg s' 0 false) as Hd.
  destruct (read_digits 0 false s') as [v seen]. cbn in *.
  destruct (negb seen); [done|]. destruct (_ <=? v)%Z; [done|]. intros [= <-].
  destruct neg; [|lia]. apply Z.mod_pos_bound. lia.
Qed.

Lemma stoull_to_string z : is_u64 z → stoull (to_string z) = Ret z.
Proof.
  intros Hz. unfold stoull, to_string, is_u64 in *.
  destruct (digits_head 20 z []) as (d & s & Hd & E); [done|lia|].
  rewrite E, head_digit_plain, <- E by done.
  destruct (read_digits_of 20 z []) as [n Hn].
  { change (10 ^ Z.of_nat 20)%Z with 100000000000000000000%Z. lia. }
  rewrite Hn, (bool_decide_true (20 ≠ 0)) by done. simpl.
  rewrite (proj2 (Z.leb_gt _ _)); [f_equal; lia|lia].
Qed.

Lemma to_string_inj a b : is_u64 a → is_u64 b → to_string a = to_string b → a = b.
Proof.
  intros Ha Hb E. apply (f_equal stoull) in E. rewrite !stoull_to_string in E by done.
  by injection E.
Qed.

(** A number is not a word. *)
Lemma to_string_not_word z c s :
  (0 ≤ z)%Z → isdigit c = false → to_string z ≠ c :: s.
Proof.
  intros Hz Hc E. unfold to_string in E.
  destruct (digits_head 20 z []) as (d & s' & Hd & E'); [done|done|].
  rewrite E' in E. injection E as <- _. by rewrite isdigit_digit in Hc.
Qed.

Lemma digits_all fuel : ∀ z rest,
  Forall (λ c, isdigit c = true) rest →
  Forall (λ c, isdigit c = true) (digits fuel z rest).
Proof.
  induction fuel as [|fuel IH]; intros z rest Hr; [done|].
  pose proof (Z.mod_pos_bound z 10 ltac:(lia)). cbn [digits].
  case_match; [|apply IH]; by constructor; [apply isdigit_digit|].
Qed.

Lemma to_string_digits z : Forall (λ c, isdigit c = true) (to_string z).
Proof. apply digits_all. constructor. Qed.

(** Other characters do not occur in a number. *)
Lemma to_string_not_elem z c : isdigit c = false → c ∉ to_string z.
Proof.
  intros Hc Hin. pose proof (proj1 (Forall_forall _ _) (to_string_digits z) c Hin).
  congruence.
Qed.

Lemma to_string_nonempty z : (0 ≤ z)%Z → to_string z ≠ [].
Proof.
  intros Hz E. destruct (digits_head 20 z []) as (d & s & _ & E'); [done..|].
  unfold to_string in E. congruence.
Qed.

(** ** Reading up to a delimiter *)

Lemma split_at_app delim l rest :
  delim ∉ l → split_at delim (l ++ delim :: rest) = (l, rest).
Proof.
  induction l as [|c l IH]; intros Hl; cbn [split_at app].
  - by rewrite decide_True.
  - apply not_elem_of_cons in Hl as [Hc Hl]. by rewrite decide_False, IH.
Qed.

Lemma split_at_end delim l : delim ∉ l → split_at delim l = (l, []).
Proof.
  induction l as [|c l IH]; intros Hl; cbn [split_at]; [done|].
  apply not_elem_of_cons in Hl as [Hc Hl]. by rewrite decide_False, IH.
Qed.

Lemma getline_app delim l rest :
  delim ∉ l → getline delim (l ++ delim :: rest) = Some (l, rest).
Proof.
  intros Hl. unfold getline. rewrite split_at_app by done. by destruct l.
Qed.

Lemma getline_end delim l : delim ∉ l → l ≠ [] → getline delim l = Some (l, []).
Proof. intros Hl Hne. unfold getline. rewrite split_at_end by done. by destruct l. Qed.

(** A text is split in one way before the first character of a class. *)
Lemma split_class_inj {A} (p : A → bool) l1 x1 r1 l2 x2 r2 :
  Forall (λ c, p c = false) l1 → Forall (λ c, p c = false) l2 →
  p x1 = true → p x2 = true →
  l1 ++ x1 :: r1 = l2 ++ x2 :: r2 → l1 = l2 ∧ x1 :: r1 = x2 :: r2.
Proof.
  intros Hl1. revert l2. induction Hl1 as [|c l1 Hc _ IH]; intros l2 Hl2 Hx1 Hx2 E.
  - destruct Hl2; simplify_eq/=; [done|]. congruence.
  - destruct Hl2 as [|c2 l2 Hc2 Hl2]; simplify_eq/=; [congruence|].
    destruct (IH l2) as [-> ?]; auto.
Qed.

(** ** Hexadecimal round trips *)

Lemma hex_pair b :
  extract_hex [hex_char (Z_of_byte b `div` 16); hex_char (Z_of_byte b `mod` 16)] =
    Some (Z_of_byte b).
Proof. by destruct b. Qed.

Lemma by_pairs_to_hex {A} (f : list byte → A) bs :
  by_pairs f (to_hex bs) =
    (λ b, f [hex_char (Z_of_byte b `div` 16); hex_char (Z_of_byte b `mod` 16)]) <$> bs.
Proof.
  induction bs as [|b bs IH]; [done|]. csimpl. f_equal. exact IH.
Qed.

Lemma length_to_hex bs : length (to_hex bs) = 2 * length bs.
Proof. induction bs as [|b bs IH]; [done|]. unfold to_hex in *. csimpl. rewrite IH. lia. Qed.

(** The printed form of a hash reads back, whatever was in the array. *)
Theorem hash_hex_roundtrip uninit h :
  length h = hash_size → length uninit = hash_size →
  hash_from_hex uninit (to_hex h) = Ret h.
Proof.
  intros Hh Hu. unfold hash_from_hex. rewrite by_pairs_to_hex.
  assert ((λ b, byte_of_Z (default 0%Z (extract_hex
     [hex_char (Z_of_byte b `div` 16); hex_char (Z_of_byte b `mod` 16)]))) <$> h = h)
    as ->.
  { rewrite <- (list_fmap_id h) at 2. apply list_fmap_ext. intros i b _.
    rewrite hex_pair. apply byte_of_Z_of_byte. }
  rewrite decide_False by lia. f_equal.
  by rewrite Hh, <- Hu, drop_all, app_nil_r.
Qed.

(** So does that of a buffer, up to the accepted size. *)
Theorem buffer_hex_roundtrip bs :
  bs ≠ [] → (Z.of_nat (length bs) ≤ 51200)%Z → from_hex (to_hex bs) = Some bs.
Proof.
  intros Hne Hlen. unfold from_hex. rewrite length_to_hex.
  rewrite bool_decide_false; [|by destruct bs].
  replace (Z.of_nat (2 * length bs) `mod` 2)%Z with 0%Z
    by (rewrite Nat2Z.inj_mul, Z.mul_comm; symmetry; apply Z.mod_mul; lia).
  rewrite (proj2 (Z.ltb_ge _ _)) by lia. simpl. rewrite by_pairs_to_hex.
  apply mapM_Some_2, Forall2_fmap_l, Forall_Forall2_diag, Forall_true.
  intros b. unfold compose. rewrite hex_pair. simpl. by rewrite byte_of_Z_of_byte.
Qed.
