(* ===== verification/FileSystem.v ===== *)
(** * Files

    The operations of [std::fstream] and [std::filesystem] that the snapshots
    ([src/uhs/atomizer/atomizer/state_machine.cpp]) and the Raft state
    ([src/util/raft/state_manager.cpp]) are kept with.  The files of a
    directory are a map from names.  A file is written a byte at a time, so
    that a process stopped while writing leaves any part of it; renaming and
    removing are atomic.  Only a stop of the process is modelled, not one of
    the machine, after which a file may be shorter than what was written. *)

From Stdlib Require Import ZArith Lia.
From Stdlib.Strings Require Import Byte.
From stdpp Require Import base tactics numbers gmap sets list.
From S2P Require Import Prelude.
Open Scope cbdc_scope.

Abbreviation directory := (gmap (list byte) (list byte)).

Inductive fs_op :=
| fs_create (name : list byte)
| fs_append (name : list byte) (data : list byte)
| fs_rename (old_p new_p : list byte)
| fs_remove (name : list byte).

Definition run_op (d : directory) (op : fs_op) : directory :=
  match op with
  | fs_create name => <[ name := [] ]> d
  | fs_append name data => <[ name := default [] (d !! name) ++ data ]> d
  | fs_rename old_p new_p =>
      match d !! old_p with
      | Some content => <[ new_p := content ]> (delete old_p d)
      | None => d
      end
  | fs_remove name => delete name d
  end.

Definition run_ops (ops : list fs_op) (d : directory) : directory := foldl run_op d ops.

(** A stream opened with [trunc], its writes, and its end. *)
Definition write_file (name content : list byte) : list fs_op :=
  fs_create name :: ((λ b, fs_append name [b]) <$> content).

Lemma run_ops_app ops1 ops2 d : run_ops (ops1 ++ ops2) d = run_ops ops2 (run_ops ops1 d).
Proof. apply foldl_app. Qed.

Lemma run_appends name content bs d :
  run_ops ((λ b, fs_append name [b]) <$> bs) (<[ name := content ]> d) =
    <[ name := content ++ bs ]> d.
Proof.
  revert content. induction bs as [|b bs IH]; intros content; [by rewrite app_nil_r|].
  rewrite fmap_cons. change (run_ops (?op :: ?ops) ?d) with (run_ops ops (run_op d op)).
  cbn [run_op]. rewrite lookup_insert_eq, insert_insert_eq. cbn [from_option id].
  rewrite IH. by rewrite <- (assoc_L (++)).
Qed.

Lemma run_write_file name content d :
  run_ops (write_file name content) d = <[ name := content ]> d.
Proof. apply (run_appends name []). Qed.

(** A property of the directory after every prefix of some operations. *)
Definition always (P : directory → Prop) (ops : list fs_op) (d : directory) : Prop :=
  ∀ k, P (run_ops (take k ops) d).

Lemma always_app P ops1 ops2 d :
  always P ops1 d → always P ops2 (run_ops ops1 d) → always P (ops1 ++ ops2) d.
Proof.
  intros H1 H2 k. rewrite take_app. destruct (decide (k ≤ length ops1)).
  - replace (k - length ops1) with 0 by lia. cbn. rewrite app_nil_r. apply H1.
  - rewrite take_ge by lia. rewrite run_ops_app. apply H2.
Qed.

Lemma always_nil P d : P d → always P [] d.
Proof. intros Hd k. by rewrite take_nil. Qed.

Lemma always_cons P op ops d : P d → always P ops (run_op d op) → always P (op :: ops) d.
Proof. intros Hd H [|k]; [done|]. apply H. Qed.

Lemma always_all P ops d : always P ops d → P (run_ops ops d).
Proof. intros H. rewrite <- (firstn_all ops). apply H. Qed.

Lemma always_write P name content d :
  P d → (∀ c, P (<[ name := c ]> d)) → always P (write_file name content) d.
Proof.
  intros Hd Hc [|k]; [done|]. unfold write_file. cbn [take].
  rewrite <- fmap_take. change (fs_create name :: ?l) with ([fs_create name] ++ l).
  rewrite run_ops_app. change (run_ops [_] d) with (<[ name := [] ]> d). rewrite run_appends. apply Hc.
Qed.
