(* ===== verification/Bech32.v ===== *)
(** * Addresses

    Model of the Bech32 code that writes and reads addresses:
    [3rdparty/bech32/bech32.cpp] (the checksum, [Encode] and [Decode]) and
    [ConvertBits] of [3rdparty/bech32/util/strencodings.h].  The theorem is the
    round trip of a string; the checksum is shown to verify because its
    computation is linear over exclusive or. *)

From Stdlib Require Import ZArith Lia Btauto.
From Stdlib.Strings Require Import Byte String.
From stdpp Require Import base tactics numbers gmap sets list.
From S2P Require Import Prelude Text.
Open Scope cbdc_scope.

(** ** Converting between widths *)

Module convert_bits.

(** [pad], [frombits] and [tobits] are the template parameters; [acc] and
    [bits] the variables of the loop.  The inner loop gives out [tobits] bits
    as long as there are as many; [fuel] is the number of bits. *)
Section Convert.
Variables (frombits tobits : nat).

Definition maxv : Z := Z.shiftl 1 (Z.of_nat tobits) - 1.
Definition max_acc : Z := Z.shiftl 1 (Z.of_nat (frombits + tobits - 1)) - 1.

Fixpoint emit (fuel : nat) (acc : Z) (bits : nat) : list Z * nat :=
  match fuel with
  | O => ([], bits)
  | S fuel =>
      if decide (tobits ≤ bits) then
        let bits := bits - tobits in
        let (out, rest) := emit fuel acc bits in
        (Z.land (Z.shiftr acc (Z.of_nat bits)) maxv :: out, rest)
      else ([], bits)
  end.

Fixpoint convert_loop (acc : Z) (bits : nat) (l : list Z) : list Z * Z * nat :=
  match l with
  | [] => ([], acc, bits)
  | v :: l =>
      let acc := Z.land (Z.lor (Z.shiftl acc (Z.of_nat frombits)) v) max_acc in
      let (out, rest) := emit (bits + frombits) acc (bits + frombits) in
      let '(outs, acc', bits') := convert_loop acc rest l in
      (out ++ outs, acc', bits')
  end.

Definition ConvertBits (pad : bool) (l : list Z) : list Z * bool :=
  let '(outs, acc, bits) := convert_loop 0 0 l in
  let rest := Z.land (Z.shiftl acc (Z.of_nat (tobits - bits))) maxv in
  if pad then (outs ++ (if decide (bits = 0) then [] else [rest]), true)
  else (outs, negb (bool_decide (frombits ≤ bits) || negb (rest =? 0)%Z)).

End Convert.
End convert_bits.

(** ** Bech32 *)

Module bech32.

Definition CHARSET : list byte := lit "qpzry9x8gf2tvdw0s3jn54khce6mua7l".

(** The upper half of the table of the source, from character 48 on; there is
    nothing below. *)
Definition CHARSET_REV_48 : list Z :=
  [15; -1; 10; 17; 21; 20; 26; 30;  7;  5; -1; -1; -1; -1; -1; -1;
   -1; 29; -1; 24; 13; 25;  9;  8; 23; -1; 18; 22; 31; 27; 19; -1;
    1;  0;  3; 16; 11; 28; 12; 14;  6;  4;  2; -1; -1; -1; -1; -1;
   -1; 29; -1; 24; 13; 25;  9;  8; 23; -1; 18; 22; 31; 27; 19; -1;
    1;  0;  3; 16; 11; 28; 12; 14;  6;  4;  2; -1; -1; -1; -1; -1]%Z.
Definition CHARSET_REV : list Z := replicate 48 (-1)%Z ++ CHARSET_REV_48.

(** One round of [PolyMod]. *)
Definition conditionally (c0 bit k c : Z) : Z :=
  if (Z.land c0 bit =? 0)%Z then c else Z.lxor c k.

Definition polymod_step (c v_i : Z) : Z :=
  let c0 := Z.land (Z.shiftr c 25) 255 in
  let c := Z.lxor (Z.shiftl (Z.land c 0x1ffffff) 5) v_i in
  let c := conditionally c0 1 0x3b6a57b2 c in
  let c := conditionally c0 2 0x26508e6d c in
  let c := conditionally c0 4 0x1ea119fa c in
  let c := conditionally c0 8 0x3d4233dd c in
  conditionally c0 16 0x2a1462b3 c.

Definition PolyMod (v : list Z) : Z := foldl polymod_step 1%Z v.

Definition LowerCase (c : byte) : byte :=
  if (65 <=? code c)%Z && (code c <=? 90)%Z then byte_of_Z (code c - 65 + 97) else c.

Definition ExpandHRP (hrp : list byte) : list Z :=
  ((λ c, Z.shiftr (code c) 5) <$> hrp) ++ [0%Z] ++ ((λ c, Z.land (code c) 0x1f) <$> hrp).

Definition VerifyChecksum (hrp : list byte) (values : list Z) : bool :=
  (PolyMod (ExpandHRP hrp ++ values) =? 1)%Z.

Definition CreateChecksum (hrp : list byte) (values : list Z) : list Z :=
  let enc := ExpandHRP hrp ++ values ++ replicate 6 0%Z in
  let md := Z.lxor (PolyMod enc) 1 in
  (λ i, Z.land (Z.shiftr md (5 * (5 - Z.of_nat i))) 31) <$> seq 0 6.

(** The letters of [hrp] must not be in upper case; a value without a
    character is read past the end of [CHARSET]. *)
Definition Encode (hrp : list byte) (values : list Z) : outcome (list byte) :=
  if negb (forallb (λ c, (code c <? 65)%Z || (90 <? code c)%Z) hrp) then Fatal else
  let combined := values ++ CreateChecksum hrp values in
  if forallb (λ c, (0 <=? c)%Z && (c <? 32)%Z) combined
  then Ret (hrp ++ [x31] ++ ((λ c, default x00 (CHARSET !! Z.to_nat c)) <$> combined))
  else Fatal.

(** The loop over the characters: whether there are lower and upper case
    letters, or nothing when one is out of range. *)
Fixpoint scan_case (lower upper : bool) (str : list byte) : option (bool * bool) :=
  match str with
  | [] => Some (lower, upper)
  | c :: str =>
      if (97 <=? code c)%Z && (code c <=? 122)%Z then scan_case true upper str
      else if (65 <=? code c)%Z && (code c <=? 90)%Z then scan_case lower true str
      else if (code c <? 33)%Z || (126 <? code c)%Z then None
      else scan_case lower upper str
  end.

(** [rfind]: the position of the last occurrence. *)
Fixpoint rfind (c : byte) (str : list byte) : option nat :=
  match str with
  | [] => None
  | c' :: str =>
      match rfind c str with
      | Some pos => Some (S pos)
      | None => if decide (c' = c) then Some 0 else None
      end
  end.

Fixpoint reverse_values (str : list byte) : option (list Z) :=
  match str with
  | [] => Some []
  | c :: str =>
      let rev := default (-1)%Z (CHARSET_REV !! Z.to_nat (code c)) in
      if (rev =? -1)%Z then None
      else values ← reverse_values str; Some (rev :: values)
  end.

(** [Decode]; the empty pair stands for a failure. *)
Definition Decode (str : list byte) : list byte * list Z :=
  match scan_case false false str with
  | None => ([], [])
  | Some (lower, upper) =>
      if lower && upper then ([], []) else
      match rfind x31 str with
      | None => ([], [])
      | Some pos =>
          if bool_decide (90 < length str) || bool_decide (pos = 0) ||
             bool_decide (length str < pos + 7) then ([], []) else
          match reverse_values (drop (S pos) str) with
          | None => ([], [])
          | Some values =>
              let hrp := LowerCase <$> take pos str in
              if VerifyChecksum hrp values then (hrp, take (length values - 6) values)
              else ([], [])
          end
      end
  end.

End bech32.

(** ** Widths: the bits stay the same *)

Module convert_lemmas.
Import convert_bits.

(** The low [n] bits of a number, the most significant one first. *)
Fixpoint to_bits (n : nat) (z : Z) : list bool :=
  match n with
  | O => []
  | S n => Z.testbit z (Z.of_nat n) :: to_bits n z
  end.

Definition all_bits (w : nat) (l : list Z) : list bool := l ≫= to_bits w.

Lemma length_to_bits n z : length (to_bits n z) = n.
Proof. induction n as [|n IH]; cbn; [done|by rewrite IH]. Qed.

Lemma length_all_bits w l : length (all_bits w l) = w * length l.
Proof.
  unfold all_bits. induction l as [|v l IH]; cbn; [lia|].
  rewrite length_app, length_to_bits, IH. lia.
Qed.

Lemma to_bits_ext n z z' :
  (∀ i, (0 ≤ i < Z.of_nat n)%Z → Z.testbit z i = Z.testbit z' i) → to_bits n z = to_bits n z'.
Proof.
  induction n as [|n IH]; intros Hb; [done|]. cbn. f_equal; [apply Hb; lia|].
  apply IH. intros i Hi. apply Hb. lia.
Qed.

Lemma to_bits_split a b z : to_bits (a + b) z = to_bits a (Z.shiftr z (Z.of_nat b)) ++ to_bits b z.
Proof.
  induction a as [|a IH]; cbn; [done|]. f_equal; [|done].
  rewrite Z.shiftr_spec by lia. f_equal. lia.
Qed.

Lemma to_bits_zero n : to_bits n 0 = replicate n false.
Proof. induction n as [|n IH]; cbn; [done|]. by rewrite Z.testbit_0_l, IH. Qed.

Lemma mask_ones n : (Z.shiftl 1 (Z.of_nat n) - 1)%Z = Z.ones (Z.of_nat n).
Proof. unfold Z.ones. lia. Qed.

Lemma testbit_mask z n i :
  (0 ≤ i < Z.of_nat n)%Z →
  Z.testbit (Z.land z (Z.shiftl 1 (Z.of_nat n) - 1)) i = Z.testbit z i.
Proof.
  intros Hi. rewrite mask_ones, Z.land_spec, Z.ones_spec_low by lia. apply andb_true_r.
Qed.

Lemma testbit_high z n i : (0 ≤ z < 2 ^ n)%Z → (n ≤ i)%Z → Z.testbit z i = false.
Proof.
  intros Hz Hi. destruct (decide (z = 0)%Z) as [->|Hne]; [apply Z.testbit_0_l|].
  apply Z.bits_above_log2; [lia|]. apply Z.lt_le_trans with n; [|done]. apply Z.log2_lt_pow2; lia.
Qed.

Section Widths.
Variables (frombits tobits : nat).
Hypothesis tobits_pos : 0 < tobits.

Definition fits (w : nat) (v : Z) : Prop := (0 ≤ v < 2 ^ Z.of_nat w)%Z.

Lemma masked_fits z : fits tobits (Z.land z (maxv tobits)).
Proof. unfold maxv, fits. rewrite mask_ones, Z.land_ones by lia. apply Z.mod_pos_bound. lia. Qed.

Lemma emit_spec fuel : ∀ acc bits out rest,
  bits ≤ fuel → emit tobits fuel acc bits = (out, rest) →
  rest < tobits ∧ to_bits bits acc = all_bits tobits out ++ to_bits rest acc ∧
  Forall (fits tobits) out.
Proof.
  induction fuel as [|fuel IH]; intros acc bits out rest Hf E; cbn in E.
  { injection E as <- <-. split; [lia|]. split; [done|constructor]. }
  case_decide as Hle; [|injection E as <- <-; split; [lia|]; split; [done|constructor]].
  destruct (emit tobits fuel acc (bits - tobits)) as [out' rest'] eqn:E'. injection E as <- <-.
  destruct (IH acc (bits - tobits) out' rest' ltac:(lia) E') as (Hr & Hb & Ho). split; [done|].
  split; [|constructor; [apply masked_fits|done]].
  replace bits with (tobits + (bits - tobits)) at 1 by lia.
  rewrite to_bits_split, Hb. unfold all_bits. cbn. rewrite <- (assoc_L (++)). f_equal.
  apply to_bits_ext. intros i Hi. unfold maxv. by rewrite testbit_mask.
Qed.

Lemma push_bits bits acc v :
  bits < tobits → fits frombits v →
  to_bits (bits + frombits) (Z.land (Z.lor (Z.shiftl acc (Z.of_nat frombits)) v) (max_acc frombits tobits)) =
    to_bits bits acc ++ to_bits frombits v.
Proof.
  intros Hb Hv. rewrite to_bits_split. unfold max_acc. f_equal; apply to_bits_ext; intros i Hi.
  - rewrite Z.shiftr_spec, testbit_mask, Z.lor_spec, Z.shiftl_spec by lia.
    rewrite (testbit_high v (Z.of_nat frombits)) by (done || lia). rewrite orb_false_r. f_equal. lia.
  - rewrite testbit_mask, Z.lor_spec, Z.shiftl_spec_low by lia. done.
Qed.

Lemma convert_loop_spec l : ∀ acc bits outs acc' bits',
  bits < tobits → Forall (fits frombits) l →
  convert_loop frombits tobits acc bits l = (outs, acc', bits') →
  bits' < tobits ∧ Forall (fits tobits) outs ∧
  to_bits bits acc ++ all_bits frombits l = all_bits tobits outs ++ to_bits bits' acc'.
Proof.
  induction l as [|v l IH]; intros acc bits outs acc' bits' Hb Hl E; cbn in E.
  { injection E as <- <- <-. split; [done|]. split; [constructor|]. by rewrite app_nil_r. }
  inversion_clear Hl as [|?? Hv Hl'].
  destruct (emit tobits _ _ _) as [out rest] eqn:Ee.
  destruct (emit_spec _ _ _ _ _ (le_n _) Ee) as (Hr & Hbits & Ho). rewrite push_bits in Hbits by done.
  destruct (convert_loop _ _ _ rest l) as [[outs' acc1] bits1] eqn:El. injection E as <- <- <-.
  destruct (IH _ _ _ _ _ Hr Hl' El) as (Hb' & Ho' & Hrest). split; [done|].
  split; [by apply Forall_app|]. unfold all_bits in *. cbn.
  rewrite (assoc_L (++)), Hbits, bind_app, <- !(assoc_L (++)), Hrest. done.
Qed.

(** With padding the bits are those of the input and less than [tobits] zeros. *)
Lemma convert_padded l :
  Forall (fits frombits) l →
  ∃ k, k < tobits ∧
    all_bits tobits (ConvertBits frombits tobits true l).1 = all_bits frombits l ++ replicate k false ∧
    Forall (fits tobits) (ConvertBits frombits tobits true l).1.
Proof.
  intros Hl. unfold ConvertBits.
  destruct (convert_loop frombits tobits 0 0 l) as [[outs acc] bits] eqn:E.
  destruct (convert_loop_spec l 0 0 outs acc bits ltac:(lia) Hl E) as (Hb & Ho & Hbits). cbn in Hbits.
  case_decide as Hz; cbn.
  { exists 0. subst bits. rewrite Hbits. cbn. by rewrite !app_nil_r. }
  exists (tobits - bits). split; [lia|]. split; [|apply Forall_app; split; [done|];
    constructor; [apply masked_fits|constructor]].
  rewrite Hbits. unfold all_bits. rewrite bind_app. cbn. rewrite app_nil_r, <- (assoc_L (++)). f_equal.
  replace tobits with (bits + (tobits - bits)) at 1 by lia. rewrite to_bits_split. f_equal.
  - apply to_bits_ext. intros i Hi. unfold maxv.
    rewrite Z.shiftr_spec, testbit_mask, Z.shiftl_spec by lia. f_equal. lia.
  - rewrite <- to_bits_zero. apply to_bits_ext. intros i Hi. unfold maxv.
    rewrite testbit_mask, Z.shiftl_spec_low, Z.testbit_0_l by lia. done.
Qed.

(** Without padding they are a prefix of the input that misses less than
    [tobits] bits. *)
Lemma convert_unpadded l :
  Forall (fits frombits) l →
  ∃ rest, length rest < tobits ∧
    all_bits frombits l = all_bits tobits (ConvertBits frombits tobits false l).1 ++ rest ∧
    Forall (fits tobits) (ConvertBits frombits tobits false l).1.
Proof.
  intros Hl. unfold ConvertBits.
  destruct (convert_loop frombits tobits 0 0 l) as [[outs acc] bits] eqn:E.
  destruct (convert_loop_spec l 0 0 outs acc bits ltac:(lia) Hl E) as (Hb & Ho & Hbits).
  exists (to_bits bits acc). rewrite length_to_bits. done.
Qed.

End Widths.

Lemma to_bits_inj w v v' : fits w v → fits w v' → to_bits w v = to_bits w v' → v = v'.
Proof.
  intros Hv Hv' E. apply Z.bits_inj'. intros i Hi.
  destruct (decide (i < Z.of_nat w)%Z); [|unfold fits in *; by rewrite !(testbit_high _ (Z.of_nat w)) by lia].
  assert (∀ n, to_bits n v = to_bits n v' → (i < Z.of_nat n)%Z → Z.testbit v i = Z.testbit v' i) as H.
  { clear -Hi. induction n as [|n IH]; [lia|]. cbn. intros [= En E] Hlt.
    destruct (decide (i = Z.of_nat n)) as [->|]; [done|]. apply IH; [done|lia]. }
  by apply (H w).
Qed.

Lemma all_bits_inj w l l' :
  0 < w → length l = length l' → Forall (fits w) l → Forall (fits w) l' →
  all_bits w l = all_bits w l' → l = l'.
Proof.
  intros Hw Hlen Hl. revert l' Hlen. induction Hl as [|v l Hv Hl IH]; intros [|v' l'] Hlen Hl' E; try done.
  inversion_clear Hl'. unfold all_bits in E. cbn in E.
  apply app_inj_1 in E as [E1 E2]; [|by rewrite !length_to_bits].
  f_equal; [by apply (to_bits_inj w)|]. apply IH; [by injection Hlen|done|exact E2].
Qed.

(** Bytes in narrower groups and back. *)
Lemma convert_roundtrip w l :
  0 < w ≤ 8 → Forall (fits 8) l →
  (ConvertBits w 8 false (ConvertBits 8 w true l).1).1 = l ∧
  Forall (fits w) (ConvertBits 8 w true l).1.
Proof.
  intros Hw Hl. destruct (convert_padded 8 w ltac:(lia) l Hl) as (k & Hk & Hbits & Hf). split; [|done].
  destruct (convert_unpadded w 8 ltac:(lia) _ Hf) as (rest & Hr & Hbits' & Hf').
  rewrite Hbits in Hbits'. set (r := (ConvertBits w 8 false _).1) in *.
  assert (length r = length l) as Hlen.
  { apply (f_equal length) in Hbits'. rewrite !length_app, !length_all_bits, length_replicate in Hbits'. lia. }
  symmetry. apply (all_bits_inj 8); [lia|done|done|done|].
  apply app_inj_1 in Hbits' as [E _]; [done|]. rewrite !length_all_bits. lia.
Qed.

End convert_lemmas.

(** ** The checksum verifies *)

Module bech32_lemmas.
Import bech32.

(** An equation between truth values of bits, whatever the bits are. *)
Ltac solve_bits :=
  repeat match goal with
  | |- context [Z.testbit ?a ?b] => generalize (Z.testbit a b); intros ?
  end; btauto.

(** The part of a round that depends on the top bits. *)
Definition sel (b : bool) (k : Z) : Z := if b then k else 0%Z.

Definition top (c : Z) : Z :=
  Z.lxor (Z.lxor (Z.lxor (Z.lxor (sel (Z.testbit c 25) 0x3b6a57b2) (sel (Z.testbit c 26) 0x26508e6d))
    (sel (Z.testbit c 27) 0x1ea119fa)) (sel (Z.testbit c 28) 0x3d4233dd)) (sel (Z.testbit c 29) 0x2a1462b3).

Lemma conditionally_spec c n k x :
  (0 ≤ n < 8)%Z →
  conditionally (Z.land (Z.shiftr c 25) 255) (2 ^ n) k x = Z.lxor x (sel (Z.testbit c (n + 25)) k).
Proof.
  intros Hn. unfold conditionally.
  assert (Z.testbit (Z.land (Z.shiftr c 25) 255) n = Z.testbit c (n + 25)) as Hb.
  { change 255%Z with (Z.ones 8). rewrite Z.land_spec, Z.ones_spec_low, andb_true_r, Z.shiftr_spec by lia. done. }
  rewrite <- Hb. destruct (Z.eqb_spec (Z.land (Z.land (Z.shiftr c 25) 255) (2 ^ n)) 0) as [E|E].
  - assert (Z.testbit (Z.land (Z.shiftr c 25) 255) n = false) as ->; [|cbn; by rewrite Z.lxor_0_r].
    apply (f_equal (λ z, Z.testbit z n)) in E. rewrite Z.land_spec, Z.testbit_0_l in E.
    rewrite Z.pow2_bits_true, andb_true_r in E by lia. done.
  - destruct (Z.testbit _ n) eqn:Et; [done|]. destruct E. apply Z.bits_inj'. intros i Hi.
    rewrite Z.land_spec, Z.testbit_0_l. destruct (decide (i = n)) as [->|]; [by rewrite Et|].
    rewrite Z.pow2_bits_false by lia. apply andb_false_r.
Qed.

Lemma polymod_step_spec c v :
  polymod_step c v = Z.lxor (Z.lxor (Z.shiftl (Z.land c 0x1ffffff) 5) (top c)) v.
Proof.
  unfold polymod_step.
  change (conditionally ?a 1 ?k ?x) with (conditionally a (2 ^ 0) k x).
  change (conditionally ?a 2 ?k ?x) with (conditionally a (2 ^ 1) k x).
  change (conditionally ?a 4 ?k ?x) with (conditionally a (2 ^ 2) k x).
  change (conditionally ?a 8 ?k ?x) with (conditionally a (2 ^ 3) k x).
  change (conditionally ?a 16 ?k ?x) with (conditionally a (2 ^ 4) k x).
  rewrite !conditionally_spec by lia. unfold top.
  change (0 + 25)%Z with 25%Z. change (1 + 25)%Z with 26%Z. change (2 + 25)%Z with 27%Z.
  change (3 + 25)%Z with 28%Z. change (4 + 25)%Z with 29%Z.
  apply Z.bits_inj'. intros i Hi. rewrite !Z.lxor_spec. solve_bits.
Qed.

Lemma sel_xor p q k : sel (xorb p q) k = Z.lxor (sel p k) (sel q k).
Proof. destruct p, q; cbn; by rewrite ?Z.lxor_nilpotent, ?Z.lxor_0_r. Qed.

Lemma step_linear a b v :
  polymod_step (Z.lxor a b) v = Z.lxor (polymod_step a 0) (polymod_step b v).
Proof.
  rewrite !polymod_step_spec, Z.lxor_0_r. unfold top. rewrite !Z.lxor_spec, !sel_xor.
  apply Z.bits_inj'. intros i Hi. rewrite !Z.lxor_spec.
  destruct (decide (i < 5)%Z).
  - rewrite !Z.shiftl_spec_low by lia. solve_bits.
  - rewrite !Z.shiftl_spec, !Z.land_spec, Z.lxor_spec by lia. solve_bits.
Qed.

Lemma fold_linear vs : ∀ a b,
  foldl polymod_step (Z.lxor a b) vs =
    Z.lxor (foldl polymod_step a (replicate (length vs) 0%Z)) (foldl polymod_step b vs).
Proof.
  induction vs as [|v vs IH]; intros a b; [done|]. cbn. rewrite step_linear. apply IH.
Qed.

(** Numbers of 30 bits. *)
Definition u30 (z : Z) : Prop := Z.land z (Z.ones 30) = z.

Lemma u30_xor a b : u30 a → u30 b → u30 (Z.lxor a b).
Proof.
  unfold u30. intros Ha Hb. rewrite <- Ha at 2. rewrite <- Hb at 2.
  apply Z.bits_inj'. intros i Hi. rewrite ?Z.lxor_spec, ?Z.land_spec, ?Z.lxor_spec. solve_bits.
Qed.

Lemma u30_range z : u30 z → (0 ≤ z < 2 ^ 30)%Z.
Proof. intros <-. rewrite Z.land_ones by lia. apply Z.mod_pos_bound. lia. Qed.

Lemma step_u30 c : u30 (polymod_step c 0).
Proof.
  rewrite polymod_step_spec. repeat apply u30_xor; try (unfold sel; by case_match); [|done].
  unfold u30. apply Z.bits_inj'. intros i Hi. rewrite Z.land_spec.
  destruct (decide (i < 30)%Z); [rewrite Z.ones_spec_low by lia; apply andb_true_r|].
  rewrite Z.ones_spec_high, andb_false_r by lia. rewrite Z.shiftl_spec by lia.
  change 0x1ffffff%Z with (Z.ones 25). rewrite Z.land_spec, Z.ones_spec_high by lia. symmetry. apply andb_false_r.
Qed.

(** Feeding the lowest group of five bits to the rest gives the number. *)
Lemma step_digit x :
  u30 x → polymod_step (Z.shiftr x 5) (Z.land x 31) = x.
Proof.
  intros Hx. rewrite polymod_step_spec.
  assert (∀ i, (30 ≤ i)%Z → Z.testbit x i = false) as Hhigh.
  { intros i Hi. rewrite <- Hx, Z.land_spec, Z.ones_spec_high by lia. apply andb_false_r. }
  assert (top (Z.shiftr x 5) = 0%Z) as ->.
  { unfold top. rewrite !Z.shiftr_spec, !Hhigh by lia. done. }
  apply Z.bits_inj'. intros i Hi. rewrite Z.lxor_spec, Z.lxor_0_r.
  change 31%Z with (Z.ones 5). change 0x1ffffff%Z with (Z.ones 25). destruct (decide (i < 5)%Z).
  - rewrite Z.shiftl_spec_low, Z.land_spec, Z.ones_spec_low by lia. cbn. apply andb_true_r.
  - rewrite Z.land_spec, (Z.ones_spec_high 5), andb_false_r, xorb_false_r by lia.
    rewrite Z.shiftl_spec, Z.land_spec, Z.shiftr_spec by lia. replace (i - 5 + 5)%Z with i by lia.
    destruct (decide (i < 30)%Z); [rewrite Z.ones_spec_low by lia; apply andb_true_r|].
    by rewrite Hhigh by lia.
Qed.

Lemma u30_shiftr x n : (0 ≤ n)%Z → u30 x → u30 (Z.shiftr x n).
Proof.
  intros Hn Hx. unfold u30. apply Z.bits_inj'. intros i Hi.
  rewrite Z.land_spec, Z.shiftr_spec by lia.
  destruct (decide (i < 30)%Z); [rewrite Z.ones_spec_low by lia; apply andb_true_r|].
  rewrite <- Hx, Z.land_spec, (Z.ones_spec_high _ (i + n)) by lia. by rewrite !andb_false_r.
Qed.

Lemma fold_digits x :
  u30 x →
  foldl polymod_step 0%Z ((λ i, Z.land (Z.shiftr x (5 * (5 - Z.of_nat i))) 31) <$> seq 0 6) = x.
Proof.
  intros Hx.
  assert (∀ n m, (0 ≤ n)%Z → m = (n + 5)%Z →
    polymod_step (Z.shiftr x m) (Z.land (Z.shiftr x n) 31) = Z.shiftr x n) as Hd.
  { intros n m Hn ->. rewrite <- Z.shiftr_shiftr by lia. apply step_digit, u30_shiftr; done. }
  assert (Z.shiftr x 30 = 0%Z) as H0.
  { rewrite Z.shiftr_div_pow2 by lia. apply Z.div_small. by apply u30_range in Hx. }
  cbn -[polymod_step Z.shiftr Z.land]. rewrite <- H0.
  rewrite (Hd 25%Z), (Hd 20%Z), (Hd 15%Z), (Hd 10%Z), (Hd 5%Z), (Hd 0%Z) by lia. apply Z.shiftr_0_r.
Qed.

Lemma checksum_verifies hrp values :
  VerifyChecksum hrp (values ++ CreateChecksum hrp values) = true.
Proof.
  unfold VerifyChecksum, CreateChecksum. apply Z.eqb_eq.
  set (enc := PolyMod (ExpandHRP hrp ++ values ++ replicate 6 0%Z)).
  assert (u30 enc) as He.
  { unfold enc, PolyMod. rewrite !foldl_app. cbn -[polymod_step]. apply step_u30. }
  unfold PolyMod. rewrite (assoc_L (++)), foldl_app.
  rewrite <- (Z.lxor_0_r (foldl polymod_step 1%Z (ExpandHRP hrp ++ values))), fold_linear.
  rewrite length_fmap, length_seq, <- foldl_app, <- (assoc_L (++)).
  fold (PolyMod (ExpandHRP hrp ++ values ++ replicate 6 0%Z)). fold enc.
  rewrite fold_digits by (by apply u30_xor). by rewrite <- Z.lxor_assoc, Z.lxor_nilpotent, Z.lxor_0_l.
Qed.

(** *** Characters *)

(** A character that [Decode] accepts and that is not an upper case letter. *)
Definition plain (c : byte) : bool :=
  (33 <=? code c)%Z && (code c <=? 126)%Z && negb ((65 <=? code c)%Z && (code c <=? 90)%Z).

Definition char (v : Z) : byte := default x00 (CHARSET !! Z.to_nat v).

Lemma charset_ok v :
  (0 ≤ v < 32)%Z →
  plain (char v) = true ∧ char v ≠ x31 ∧
  default (-1)%Z (CHARSET_REV !! Z.to_nat (code (char v))) = v.
Proof.
  intros Hv. assert (Forall (λ n, plain (char (Z.of_nat n)) = true ∧ char (Z.of_nat n) ≠ x31 ∧
    default (-1)%Z (CHARSET_REV !! Z.to_nat (code (char (Z.of_nat n)))) = Z.of_nat n) (seq 0 32)) as Hall.
  { repeat (constructor; [split; [reflexivity|split; [discriminate|reflexivity]]|]). constructor. }
  rewrite Forall_seq in Hall. specialize (Hall (Z.to_nat v) ltac:(lia)). by rewrite Z2Nat.id in Hall by lia.
Qed.

Lemma scan_plain str : ∀ lower,
  forallb plain str = true → ∃ lower', scan_case lower false str = Some (lower', false).
Proof.
  induction str as [|c str IH]; intros lower; cbn [forallb scan_case]; [by eexists|].
  intros [Hc Hs]%andb_true_iff. unfold plain in Hc.
  apply andb_true_iff in Hc as [[H1 H2]%andb_true_iff Hu]. rewrite negb_true_iff in Hu.
  destruct ((97 <=? code c)%Z && (code c <=? 122)%Z); [by apply IH|]. rewrite Hu.
  rewrite Z.leb_le in H1, H2. replace ((code c <? 33)%Z || (126 <? code c)%Z) with false; [by apply IH|].
  symmetry. apply orb_false_iff. split; apply Z.ltb_ge; lia.
Qed.

Lemma lower_plain str : forallb plain str = true → LowerCase <$> str = str.
Proof.
  induction str as [|c str IH]; [done|]. cbn [forallb]. intros [Hc Hs]%andb_true_iff.
  rewrite fmap_cons, IH by done. f_equal. unfold LowerCase, plain in *.
  apply andb_true_iff in Hc as [_ Hu]. rewrite negb_true_iff in Hu. by rewrite Hu.
Qed.

Lemma rfind_none c str : c ∉ str → rfind c str = None.
Proof.
  induction str as [|c' str IH]; [done|]. intros [Hne Hn]%not_elem_of_cons. cbn. rewrite IH by done.
  by rewrite decide_False by congruence.
Qed.

Lemma rfind_last c s1 s2 : c ∉ s2 → rfind c (s1 ++ c :: s2) = Some (length s1).
Proof.
  intros Hn. induction s1 as [|c' s1 IH]; cbn; [|by rewrite IH]. by rewrite rfind_none, decide_True.
Qed.

Lemma reverse_chars vs :
  Forall (λ v, 0 ≤ v < 32)%Z vs → reverse_values (char <$> vs) = Some vs.
Proof.
  induction 1 as [|v vs Hv Hvs IH]; [done|]. cbn [fmap list_fmap reverse_values].
  destruct (charset_ok v Hv) as (_ & _ & ->). destruct (Z.eqb_spec v (-1)); [lia|].
  change (list_fmap _ _ char vs) with (char <$> vs). by rewrite IH.
Qed.

Lemma chars_plain vs :
  Forall (λ v, 0 ≤ v < 32)%Z vs → forallb plain (char <$> vs) = true ∧ x31 ∉ (char <$> vs).
Proof.
  induction 1 as [|v vs Hv Hvs [IH1 IH2]]; [by split; [|apply not_elem_of_nil]|].
  destruct (charset_ok v Hv) as (H1 & H2 & _). rewrite fmap_cons. cbn [forallb]. rewrite H1. split; [done|].
  apply not_elem_of_cons. split; congruence.
Qed.

Lemma checksum_values hrp values : Forall (λ v, 0 ≤ v < 32)%Z (CreateChecksum hrp values).
Proof.
  unfold CreateChecksum. apply Forall_fmap, Forall_forall. intros i _. cbn.
  change 31%Z with (Z.ones 5). rewrite Z.land_ones by lia. apply Z.mod_pos_bound. lia.
Qed.

Lemma length_checksum hrp values : length (CreateChecksum hrp values) = 6.
Proof. unfold CreateChecksum. by rewrite length_fmap, length_seq. Qed.

(** Encoding never fails on values of five bits, and decoding gives them
    back. *)
Lemma decode_encode hrp values :
  hrp ≠ [] → forallb plain hrp = true → Forall (λ v, 0 ≤ v < 32)%Z values →
  length hrp + length values ≤ 83 →
  ∃ str, Encode hrp values = Ret str ∧ Decode str = (hrp, values).
Proof.
  intros Hne Hp Hv Hlen. set (all := values ++ CreateChecksum hrp values).
  assert (Forall (λ v, 0 ≤ v < 32)%Z all) as Hall by (apply Forall_app; split; [done|apply checksum_values]).
  assert (length all = length values + 6) as Hl by (unfold all; by rewrite length_app, length_checksum).
  exists (hrp ++ x31 :: (char <$> all)). split.
  - unfold Encode. replace (negb _) with false.
    2:{ symmetry. apply negb_false_iff, forallb_forall. intros c Hc.
        apply (proj1 (forallb_forall _ _) Hp) in Hc. unfold plain in Hc.
        apply andb_true_iff in Hc as [_ Hc]. rewrite negb_true_iff, andb_false_iff, !Z.leb_gt in Hc.
        rewrite orb_true_iff, !Z.ltb_lt. lia. }
    fold all. replace (forallb _ all) with true; [done|].
    symmetry. apply forallb_forall. intros v Hin. rewrite Forall_forall in Hall.
    apply list_elem_of_In, Hall in Hin. rewrite andb_true_iff, Z.leb_le, Z.ltb_lt. lia.
  - destruct (chars_plain all Hall) as [Hcp Hc1]. unfold Decode.
    destruct (scan_plain (hrp ++ x31 :: (char <$> all)) false) as [lo ->].
    { rewrite forallb_app, Hp. cbn [forallb]. by rewrite Hcp. }
    rewrite andb_false_r, rfind_last by done. rewrite length_app, length_cons, length_fmap.
    rewrite !bool_decide_false by (rewrite ?Hl; destruct hrp; cbn in *; done || lia). cbn [orb].
    rewrite drop_app_ge by lia. replace (S (length hrp) - length hrp) with 1 by lia. cbn [drop].
    rewrite drop_0, reverse_chars by done. rewrite take_app_length, lower_plain by done.
    unfold all at 1. rewrite checksum_verifies. rewrite Hl. unfold all.
    by rewrite Nat.add_sub, take_app_length.
Qed.

End bech32_lemmas.
