(* ===== verification/LevelDB.v ===== *)
(** * LevelDB

    The database library the shards, the archiver and the Raft log store use.
    It is outside the repository: here it is a type with the operations the
    program calls and the documented effect of a batch of updates and of an
    iterator.  A finite map satisfies the laws. *)

From Stdlib Require Import ZArith Lia Sorted.
From Stdlib.Strings Require Import Byte.
From stdpp Require Import base tactics numbers gmap sets list sorting.
From S2P Require Import Prelude.

(** ** Reading and writing *)

(** The updates of a [leveldb::WriteBatch]. *)
Inductive batch_op := Put (k v : list byte) | Delete (k : list byte).

(** [Get] ([None] when not found) and the atomic [Write] of a batch.  A
    snapshot is the database value it was taken from. *)
Class LevelDB (db : Type) := {
  db_get : db → list byte → option (list byte);
  db_write : db → list batch_op → db
}.

(** The effect of one update on one key. *)
Definition op_effect (k : list byte) (v : option (list byte)) (op : batch_op)
    : option (list byte) :=
  match op with
  | Put k' v' => if decide (k' = k) then Some v' else v
  | Delete k' => if decide (k' = k) then None else v
  end.

(** The updates of a batch are applied in the order they were added. *)
Class LevelDBLaws (db : Type) `{LevelDB db} := {
  db_get_write d ops k :
    db_get (db_write d ops) k = foldl (op_effect k) (db_get d k) ops
}.

(** ** Iterating

    An iterator visits the entries in the order of the comparator the database
    was opened with ([less]: its [Compare] is negative).  The only database of
    the program that is iterated over has keys of eight bytes. *)

Class LevelDBIter (db : Type) := {
  db_iter : db → list (list byte * list byte)
}.

Class LevelDBIterLaws (db : Type) `{LevelDB db} `{LevelDBIter db}
    (less : list byte → list byte → bool) := {
  iter_get d k v : (k, v) ∈ db_iter d ↔ db_get d k = Some v;
  iter_sorted d :
    (∀ k v, db_get d k = Some v → length k = 8) →
    StronglySorted (λ a b, less a.1 b.1 = true) (db_iter d)
}.

(** ** An in-memory database *)

Module in_memory.

(** A finite map satisfies the database laws. *)
Definition apply_op (m : gmap (list byte) (list byte)) (op : batch_op)
    : gmap (list byte) (list byte) :=
  match op with
  | Put k v => <[ k := v ]> m
  | Delete k => delete k m
  end.

#[export] Instance gmap_leveldb : LevelDB (gmap (list byte) (list byte)) := {|
  db_get m k := m !! k;
  db_write m ops := foldl apply_op m ops
|}.

#[export] Instance gmap_leveldb_laws : LevelDBLaws (gmap (list byte) (list byte)).
Proof.
  constructor. intros d ops k. cbn. revert d.
  induction ops as [|op ops IH]; intros d; simpl; [done|].
  rewrite IH. f_equal. destruct op as [k' v|k']; simpl; case_decide as Hk.
  - subst. by rewrite lookup_insert_eq.
  - by rewrite lookup_insert_ne.
  - subst. by rewrite lookup_delete_eq.
  - by rewrite lookup_delete_ne.
Qed.

(** Entries ordered by the number in the key. *)
Definition key_le (a b : list byte * list byte) : Prop := (le_val a.1 ≤ le_val b.1)%Z.

#[export] Instance key_le_dec a b : Decision (key_le a b).
Proof. unfold key_le. apply _. Defined.

#[export] Instance gmap_iter : LevelDBIter (gmap (list byte) (list byte)) := {|
  db_iter m := merge_sort key_le (map_to_list m)
|}.

(** It iterates in the order of any comparator that compares keys of eight
    bytes as little-endian numbers. *)
Lemma gmap_iter_laws (less : list byte → list byte → bool) :
  (∀ a b, length a = 8 → length b = 8 → less a b = (le_val a <? le_val b)%Z) →
  LevelDBIterLaws (gmap (list byte) (list byte)) less.
Proof.
  intros Hless.
  assert (Total key_le) by (intros a b; unfold key_le; lia).
  assert (Transitive key_le) by (intros a b c; unfold key_le; lia).
  constructor.
  - intros d k v. cbn. rewrite merge_sort_Permutation. apply elem_of_map_to_list.
  - intros d Hk. cbn. pose proof (StronglySorted_merge_sort key_le (map_to_list d)) as Hs.
    assert (NoDup (merge_sort key_le (map_to_list d)).*1) as Hn.
    { rewrite merge_sort_Permutation. apply NoDup_fst_map_to_list. }
    assert (Forall (λ p, length p.1 = 8) (merge_sort key_le (map_to_list d))) as Hl.
    { apply Forall_forall. intros [k v] Hin. rewrite merge_sort_Permutation in Hin.
      apply elem_of_map_to_list in Hin. by eapply Hk. }
    revert Hs Hn Hl. generalize (merge_sort key_le (map_to_list d)).
    induction l as [|[k v] l IH]; intros Hs Hn Hl; [constructor|].
    apply StronglySorted_inv in Hs as [Hs Hle]. apply NoDup_cons in Hn as [Hni Hn].
    apply Forall_cons in Hl as [Hlk Hl]. constructor; [by apply IH|].
    apply Forall_forall. intros [k' v'] Hin. cbn.
    pose proof (proj1 (Forall_forall _ _) Hle _ Hin) as Hle'. unfold key_le in Hle'.
    pose proof (proj1 (Forall_forall _ _) Hl _ Hin) as Hlk'. cbn in *.
    rewrite Hless by done. apply Z.ltb_lt.
    destruct (decide (le_val k = le_val k')) as [E|]; [|lia]. exfalso. apply Hni.
    replace k with k'; [by apply (list_elem_of_fmap_2 fst) in Hin|].
    rewrite <- (le_bytes_val k), <- (le_bytes_val k'). by rewrite E, Hlk, Hlk'.
Qed.

End in_memory.
