(* ===== verification/Serialization.v ===== *)
(** * Serialization

    Model of [src/util/serialization]: the [serializer] interface, its
    implementations ([buffer_serializer], [size_serializer],
    [nuraft_serializer], [istream_serializer], [ostream_serializer]) and the [operator<<]/[operator>>] pairs of
    [format.hpp].

    An [operator<<] never inspects the serializer it writes to, so it is the
    list of the raw writes it performs ([writes]); running the list on a
    serializer is [run_writes].  An [operator>>] takes the serializer and the
    destination's previous value and returns both; a failed read leaves the
    destination as it was.  Sizes are [nat]: every length in the source is
    [sizeof] of a type or the size of an allocated object, so the sums
    [m_cursor + len] stay far below 2^64. *)

From S2P Require Import Prelude.
From Stdlib Require Import ZArith Lia.
From Stdlib.Strings Require Import Byte.
From stdpp Require Import base tactics numbers gmap sets list.

(** ** The interface *)

Class Serializer (St : Type) := {
  operator_bool : St → bool;
  advance_cursor : St → nat → St;
  reset : St → St;
  end_of_buffer : St → bool;
  write : St → list byte → St * bool;
  read : St → nat → St * option (list byte)
}.

(** What deserialization needs of an implementation: the bytes still to be
    read, and that [read] consumes them from the front or invalidates. *)
Class ReaderLaws (St : Type) `{Serializer St} := {
  reader_wf : St → Prop;
  remaining : St → list byte;
  read_ok s n :
    reader_wf s → n ≤ length (remaining s) →
    ∃ s', read s n = (s', Some (take n (remaining s))) ∧
      reader_wf s' ∧ remaining s' = drop n (remaining s) ∧
      operator_bool s' = operator_bool s;
  read_short s n :
    reader_wf s → length (remaining s) < n →
    ∃ s', read s n = (s', None) ∧ operator_bool s' = false
}.

(** ** [buffer_serializer] *)

Module buffer_serializer.

Record t := mk { m_pkt : list byte; m_cursor : nat; m_valid : bool }.

Definition init (pkt : list byte) : t := mk pkt 0 true.

(** [buffer::extend] zero-fills the new tail. *)
Definition extend (pkt : list byte) (len : nat) : list byte :=
  pkt ++ replicate len x00.

Definition write (s : t) (data : list byte) : t * bool :=
  let pkt :=
    if decide (length (m_pkt s) < m_cursor s + length data)
    then extend (m_pkt s) (m_cursor s + length data - length (m_pkt s))
    else m_pkt s in
  (mk (take (m_cursor s) pkt ++ data ++ drop (m_cursor s + length data) pkt)
      (m_cursor s + length data) (m_valid s), true).

Definition read (s : t) (len : nat) : t * option (list byte) :=
  if decide (length (m_pkt s) < m_cursor s + len)
  then (mk (m_pkt s) (m_cursor s) false, None)
  else (mk (m_pkt s) (m_cursor s + len) (m_valid s),
        Some (take len (drop (m_cursor s) (m_pkt s)))).

#[global] Instance serializer : Serializer t := {|
  operator_bool := m_valid;
  advance_cursor s len := mk (m_pkt s) (m_cursor s + len) (m_valid s);
  reset s := mk (m_pkt s) 0 true;
  end_of_buffer s := bool_decide (length (m_pkt s) ≤ m_cursor s);
  Serialization.write := write;
  Serialization.read := read
|}.

#[global] Program Instance reader : ReaderLaws t := {|
  reader_wf s := m_cursor s ≤ length (m_pkt s);
  remaining s := drop (m_cursor s) (m_pkt s)
|}.
Next Obligation.
  intros [pkt c v] n Hwf Hn; simpl in *. rewrite length_drop in Hn.
  unfold read; simpl. case_decide; [lia|]. eexists; split_and!; [done|..];
    simpl; [lia|by rewrite drop_drop|done].
Qed.
Next Obligation.
  intros [pkt c v] n Hwf Hn; simpl in *. rewrite length_drop in Hn.
  unfold read; simpl. case_decide; [|lia]. by eexists.
Qed.

End buffer_serializer.

(** ** [size_serializer] *)

Module size_serializer.

Record t := mk { m_cursor : nat }.

#[global] Instance serializer : Serializer t := {|
  operator_bool _ := true;
  advance_cursor s len := mk (m_cursor s + len);
  reset _ := mk 0;
  end_of_buffer _ := false;
  write s data := (mk (m_cursor s + length data), true);
  read s _ := (s, None)
|}.

Definition size (s : t) : nat := m_cursor s.

End size_serializer.

(** ** [nuraft_serializer]: a fixed-size buffer with a position *)

Module nuraft_serializer.

Record t := mk { m_buf : list byte; pos : nat; m_valid : bool }.

Definition init (buf : list byte) : t := mk buf 0 true.

Definition write (s : t) (data : list byte) : t * bool :=
  if decide (length (m_buf s) < pos s + length data)
  then (mk (m_buf s) (pos s) false, false)
  else (mk (take (pos s) (m_buf s) ++ data ++
            drop (pos s + length data) (m_buf s))
           (pos s + length data) (m_valid s), true).

Definition read (s : t) (len : nat) : t * option (list byte) :=
  if decide (length (m_buf s) < pos s + len)
  then (mk (m_buf s) (pos s) false, None)
  else (mk (m_buf s) (pos s + len) (m_valid s),
        Some (take len (drop (pos s) (m_buf s)))).

#[global] Instance serializer : Serializer t := {|
  operator_bool := m_valid;
  advance_cursor s len := mk (m_buf s) (pos s + len) (m_valid s);
  reset s := mk (m_buf s) 0 true;
  end_of_buffer s := bool_decide (length (m_buf s) ≤ pos s);
  Serialization.write := write;
  Serialization.read := read
|}.

#[global] Program Instance reader : ReaderLaws t := {|
  reader_wf s := pos s ≤ length (m_buf s);
  remaining s := drop (pos s) (m_buf s)
|}.
Next Obligation.
  intros [pkt c v] n Hwf Hn; simpl in *. rewrite length_drop in Hn.
  unfold read; simpl. case_decide; [lia|]. eexists; split_and!; [done|..];
    simpl; [lia|by rewrite drop_drop|done].
Qed.
Next Obligation.
  intros [pkt c v] n Hwf Hn; simpl in *. rewrite length_drop in Hn.
  unfold read; simpl. case_decide; [|lia]. by eexists.
Qed.

End nuraft_serializer.

(** ** Streams

    The state of a [std::fstream] opened in binary mode: the bytes of the
    file, the position and whether [failbit] is set.  Every operation on a
    failed stream has no effect. *)

Module stream_serializer.

Record t := mk { m_content : list byte; m_pos : nat; m_fail : bool }.

Definition init (content : list byte) : t := mk content 0 false.

Definition operator_bool (s : t) : bool := negb (m_fail s).

Definition advance_cursor (s : t) (len : nat) : t :=
  if m_fail s then s else mk (m_content s) (m_pos s + len) false.

(** [clear] and a seek to the beginning. *)
Definition reset (s : t) : t := mk (m_content s) 0 false.

(** The positions of a failed stream are both -1. *)
Definition end_of_buffer (s : t) : bool :=
  m_fail s || bool_decide (m_pos s = length (m_content s)).

End stream_serializer.

Module istream_serializer.
Import stream_serializer.

(** A wrapper, since input and output streams have different operations. *)
Record t := mk { m_str : stream_serializer.t }.

Definition init (content : list byte) : t := mk (stream_serializer.init content).

Definition write (s : t) (data : list byte) : t * bool :=
  (mk (stream_serializer.mk (m_content (m_str s)) (m_pos (m_str s)) true), false).

Definition read (s : t) (len : nat) : t * option (list byte) :=
  let f := m_str s in
  if m_fail f || bool_decide (length (m_content f) < m_pos f + len)
  then (mk (stream_serializer.mk (m_content f) (m_pos f) true), None)
  else (mk (stream_serializer.mk (m_content f) (m_pos f + len) false),
        Some (take len (drop (m_pos f) (m_content f)))).

#[global] Instance serializer : Serializer t := {|
  Serialization.operator_bool s := operator_bool (m_str s);
  Serialization.advance_cursor s len := mk (advance_cursor (m_str s) len);
  Serialization.reset s := mk (reset (m_str s));
  Serialization.end_of_buffer s := end_of_buffer (m_str s);
  Serialization.write := write;
  Serialization.read := read
|}.

#[global] Program Instance reader : ReaderLaws t := {|
  reader_wf s := m_fail (m_str s) = false ∧ m_pos (m_str s) ≤ length (m_content (m_str s));
  remaining s := drop (m_pos (m_str s)) (m_content (m_str s))
|}.
Next Obligation.
  intros [[c p f]] n [Hf Hwf] Hn; simpl in *. rewrite length_drop in Hn. subst f.
  unfold read; simpl. rewrite bool_decide_false by lia. eexists; split_and!; [done|..];
    simpl; [done|lia|by rewrite drop_drop|done].
Qed.
Next Obligation.
  intros [[c p f]] n [Hf Hwf] Hn; simpl in *. rewrite length_drop in Hn. subst f.
  unfold read; simpl. rewrite bool_decide_true by lia. by eexists.
Qed.

End istream_serializer.

Module ostream_serializer.
Import stream_serializer.

Record t := mk { m_str : stream_serializer.t }.

Definition init (content : list byte) : t := mk (stream_serializer.init content).

(** Writing past the end of the file fills the gap with zeros. *)
Definition write (s : t) (data : list byte) : t * bool :=
  let f := m_str s in
  if m_fail f then (s, false)
  else
    let content := m_content f ++ replicate (m_pos f - length (m_content f)) x00 in
    (mk (stream_serializer.mk
           (take (m_pos f) content ++ data ++ drop (m_pos f + length data) content)
           (m_pos f + length data) false), true).

Definition read (s : t) (len : nat) : t * option (list byte) :=
  (mk (stream_serializer.mk (m_content (m_str s)) (m_pos (m_str s)) true), None).

#[global] Instance serializer : Serializer t := {|
  Serialization.operator_bool s := operator_bool (m_str s);
  Serialization.advance_cursor s len := mk (advance_cursor (m_str s) len);
  Serialization.reset s := mk (reset (m_str s));
  Serialization.end_of_buffer s := end_of_buffer (m_str s);
  Serialization.write := write;
  Serialization.read := read
|}.

End ostream_serializer.

(** ** Writers *)

Abbreviation writes := (list (list byte)) (only parsing).

Definition run_writes `{Serializer St} (s : St) (ws : writes) : St :=
  foldl (λ s w, (write s w).1) s ws.

Definition bytes_of (ws : writes) : list byte := concat ws.

Definition put_u8 (z : Z) : writes := [le_bytes 1 z].
Definition put_u32 (z : Z) : writes := [le_bytes 4 z].
Definition put_u64 (z : Z) : writes := [le_bytes 8 z].
Definition put_bool (b : bool) : writes := [[if b then x01 else x00]].
Definition put_byte (b : byte) : writes := put_u8 (Z_of_byte b).
Definition put_array (arr : list byte) : writes := [arr].
Definition put_buffer (b : list byte) : writes :=
  put_u64 (Z.of_nat (length b)) ++ [b].

Definition put_optional {T} (put : T → writes) (val : option T) : writes :=
  match val with
  | Some v => put_bool true ++ put v
  | None => put_bool false
  end.

Definition put_pair {A B} (putA : A → writes) (putB : B → writes)
    (p : A * B) : writes :=
  putA p.1 ++ putB p.2.

Definition put_vector {T} (put : T → writes) (vec : list T) : writes :=
  put_u64 (Z.of_nat (length vec)) ++ concat (put <$> vec).

(** The enumeration order of a hash map or hash set is unspecified: the
    writer takes the order in which the container happens to be iterated. *)
Definition put_unordered_map_in {K V} (putK : K → writes) (putV : V → writes)
    (order : list (K * V)) : writes :=
  put_u64 (Z.of_nat (length order)) ++
  concat ((λ it, putK it.1 ++ putV it.2) <$> order).

Definition put_unordered_map `{Countable K} {V} (putK : K → writes)
    (putV : V → writes) (m : gmap K V) : writes :=
  put_unordered_map_in putK putV (map_to_list m).

Definition put_unordered_set_in {K} (put : K → writes) (order : list K)
    : writes :=
  put_u64 (Z.of_nat (length order)) ++ concat (put <$> order).

(** [serialized_size], [make_buffer] of [serialization/util.hpp] and the
    [nuraft] variant of [raft/util.hpp]. *)
Definition serialized_size (ws : writes) : nat :=
  size_serializer.size (run_writes (size_serializer.mk 0) ws).

Definition make_buffer (ws : writes) : list byte :=
  buffer_serializer.m_pkt
    (run_writes
       (buffer_serializer.init
          (buffer_serializer.extend [] (serialized_size ws))) ws).

Definition make_nuraft_buffer (ws : writes) : nuraft_serializer.t :=
  run_writes
    (nuraft_serializer.init (replicate (serialized_size ws) x00)) ws.

(** ** Readers

    The destination's default value is what the source constructs before
    reading ([T()], [T val{}]). *)

Section Readers.
Context {St : Type} `{Serializer St}.

Definition getter (T : Type) : Type := St → T → St * T.

Definition get_int (size : nat) : getter Z := λ s t,
  match read s size with
  | (s', Some bs) => (s', le_val bs)
  | (s', None) => (s', t)
  end.

Definition get_u8 : getter Z := get_int 1.
Definition get_u32 : getter Z := get_int 4.
Definition get_u64 : getter Z := get_int 8.

Definition get_bool : getter bool := λ s t,
  match read s 1 with
  | (s', Some bs) => (s', negb (le_val bs =? 0)%Z)
  | (s', None) => (s', t)
  end.

Definition get_byte : getter byte := λ s b,
  let (s', val) := get_u8 s 0%Z in
  if operator_bool s' then (s', byte_of_Z val) else (s', b).

Definition get_array (len : nat) : getter (list byte) := λ s arr,
  match read s len with
  | (s', Some bs) => (s', bs)
  | (s', None) => (s', arr)
  end.

(** [b.extend(sz)] grows the destination, then [read] fills it from its
    start: the previous contents beyond [sz] bytes stay. *)
Definition get_buffer : getter (list byte) := λ s b,
  let (s1, sz) := get_u64 s 0%Z in
  let b1 := buffer_serializer.extend b (Z.to_nat sz) in
  match read s1 (Z.to_nat sz) with
  | (s2, Some bs) => (s2, bs ++ drop (Z.to_nat sz) b1)
  | (s2, None) => (s2, b1)
  end.

Definition get_optional {T} (d : T) (get : getter T) : getter (option T) :=
  λ s val,
  let (s1, has_value) := get_bool s false in
  if negb (operator_bool s1) then (s1, val) else
  if has_value then
    let (s2, opt_val) := get s1 d in
    if negb (operator_bool s2) then (s2, val) else (s2, Some opt_val)
  else (s1, None).

Definition get_pair {A B} (dA : A) (dB : B) (getA : getter A)
    (getB : getter B) : getter (A * B) := λ s p,
  let (s1, a) := getA s dA in
  if negb (operator_bool s1) then (s1, p) else
  let (s2, b) := getB s1 dB in
  if negb (operator_bool s2) then (s2, p) else (s2, (a, b)).

Definition maximum_reservation : Z := 1024 * 1024.

(** The inner loop of [operator>>(vector&)]: read until the vector holds
    [allocated] elements; [false] when a read failed. *)
Fixpoint read_until {T} (d : T) (get : getter T) (fuel : nat) (allocated : Z)
    (s : St) (vec : list T) : St * list T * bool :=
  if (Z.of_nat (length vec) <? allocated)%Z then
    match fuel with
    | O => (s, vec, false)
    | S fuel =>
        let (s', val) := get s d in
        if negb (operator_bool s') then (s', vec, false)
        else read_until d get fuel allocated s' (vec ++ [val])
    end
  else (s, vec, true).

(** The outer loop: reserve at most [step] further elements at a time. *)
Fixpoint reserve_loop {T} (d : T) (get : getter T) (step : Z) (fuel : nat)
    (allocated len : Z) (s : St) (vec : list T) : St * list T :=
  if (allocated <? len)%Z then
    match fuel with
    | O => (s, vec)
    | S fuel =>
        let allocated' := Z.min len (add64 allocated step) in
        match read_until d get
                (Z.to_nat (allocated' - Z.of_nat (length vec))) allocated'
                s vec with
        | (s', vec', true) =>
            reserve_loop d get step fuel allocated' len s' vec'
        | (s', vec', false) => (s', vec')
        end
    end
  else (s, vec).

(** [sizeof_T] is the element size the source divides the reservation by. *)
Definition get_vector {T} (sizeof_T : Z) (d : T) (get : getter T)
    : getter (list T) := λ s vec,
  let (s1, len) := get_u64 s 0%Z in
  if negb (operator_bool s1) then (s1, vec) else
  reserve_loop d get (maximum_reservation `div` sizeof_T) (Z.to_nat len)
    0 len s1 vec.

(** [operator>>(unordered_map&)]: [emplace] keeps the first entry of a key,
    and the loop runs until the map has the announced size.  Keys may compare
    by a part of them only: the model's map is indexed by that part, [key],
    and [entry] says what it keeps. *)
Section MapReaders.
Context {I K V W : Type} `{Countable I}.
Variables (key : K → I) (entry : K → V → W).
Variables (dK : K) (dV : V) (getK : getter K) (getV : getter V).

Definition emplace (m : gmap I W) (k : K) (v : V) : gmap I W :=
  match m !! key k with Some _ => m | None => <[key k := entry k v]> m end.

Fixpoint read_map_until (fuel : nat) (allocated : Z) (s : St) (m : gmap I W)
    : St * gmap I W * bool :=
  if (Z.of_nat (size m) <? allocated)%Z then
    match fuel with
    | O => (s, m, false)
    | S fuel =>
        let (s1, k) := getK s dK in
        if negb (operator_bool s1) then (s1, m, false) else
        let (s2, v) := getV s1 dV in
        if negb (operator_bool s2) then (s2, m, false) else
        read_map_until fuel allocated s2 (emplace m k v)
    end
  else (s, m, true).

Fixpoint reserve_map_loop (step : Z) (fuel reads : nat) (allocated len : Z) (s : St)
    (m : gmap I W) : St * gmap I W :=
  if (allocated <? len)%Z then
    match fuel with
    | O => (s, m)
    | S fuel =>
        let allocated' := Z.min len (add64 allocated step) in
        match read_map_until reads allocated' s m with
        | (s', m', true) => reserve_map_loop step fuel reads allocated' len s' m'
        | (s', m', false) => (s', m')
        end
    end
  else (s, m).

(** [reads] bounds the reads of one reservation; with distinct keys on the
    wire [len] reads are enough. *)
Definition get_keyed_map (sizeof_KV : Z) (reads : nat) : getter (gmap I W) := λ s m,
  let (s1, len) := get_u64 s 0%Z in
  if negb (operator_bool s1) then (s1, m) else
  reserve_map_loop (maximum_reservation `div` sizeof_KV)
    (Z.to_nat len) reads 0 len s1 m.

End MapReaders.

(** The usual case: keys compare by equality. *)
Definition get_unordered_map `{Countable K} {V} (sizeof_KV : Z) (dK : K)
    (dV : V) (getK : getter K) (getV : getter V) (reads : nat)
    : getter (gmap K V) :=
  get_keyed_map id (λ _ v, v) dK dV getK getV sizeof_KV reads.

(** [from_buffer]: deserialize into a default value and check the
    serializer. *)
Definition from_serializer {T} (d : T) (get : getter T) (s : St) : option T :=
  let (s', ret) := get s d in
  if operator_bool s' then Some ret else None.

End Readers.

Arguments getter St T : clear implicits.

Definition from_buffer {T} (d : T) (get : getter buffer_serializer.t T)
    (buf : list byte) : option T :=
  from_serializer d get (buffer_serializer.init buf).

(** ** Writing: the buffer holds exactly the bytes of the object *)

Lemma bytes_of_app a b : bytes_of (a ++ b) = bytes_of a ++ bytes_of b.
Proof. apply concat_app. Qed.

Lemma bytes_of_cons w ws : bytes_of (w :: ws) = w ++ bytes_of ws.
Proof. done. Qed.

Lemma bytes_of_concat (wss : list writes) :
  bytes_of (concat wss) = concat (bytes_of <$> wss).
Proof.
  induction wss as [|w wss IH]; simpl; [done|].
  by rewrite bytes_of_app, IH.
Qed.

#[export] Hint Rewrite bytes_of_app : cbdc_len.

Lemma run_size_writes ws n :
  run_writes (size_serializer.mk n) ws =
    size_serializer.mk (n + length (bytes_of ws)).
Proof.
  unfold run_writes. revert n. induction ws as [|w ws IH]; intros n; simpl.
  { f_equal. lia. }
  rewrite IH. f_equal. simpl. rewrite length_app. lia.
Qed.

Lemma serialized_size_spec ws : serialized_size ws = length (bytes_of ws).
Proof. unfold serialized_size. by rewrite run_size_writes. Qed.

(** Overwriting in place, the common step of the two buffers. *)
Lemma overwrite_step (pkt w rest : list byte) c :
  c + length w + length rest ≤ length pkt →
  take (c + length w) (take c pkt ++ w ++ drop (c + length w) pkt) ++ rest ++
  drop (c + length w + length rest)
    (take c pkt ++ w ++ drop (c + length w) pkt) =
  take c pkt ++ (w ++ rest) ++ drop (c + length (w ++ rest)) pkt.
Proof.
  intros Hlen. rewrite length_app.
  assert (length (take c pkt) = c) as Hc by (rewrite length_take; lia).
  rewrite (assoc_L (++) (take c pkt) w).
  rewrite take_app_length' by (rewrite length_app; lia).
  replace (c + length w + length rest) with
    (length (take c pkt ++ w) + length rest) by (rewrite length_app; lia).
  rewrite drop_app_add. rewrite drop_drop, !(assoc_L (++)).
  do 2 f_equal. lia.
Qed.

Lemma run_buffer_writes ws pkt c v :
  c + length (bytes_of ws) ≤ length pkt →
  run_writes (buffer_serializer.mk pkt c v) ws =
    buffer_serializer.mk
      (take c pkt ++ bytes_of ws ++ drop (c + length (bytes_of ws)) pkt)
      (c + length (bytes_of ws)) v.
Proof.
  unfold run_writes. revert pkt c. induction ws as [|w ws IH];
    intros pkt c Hlen; simpl.
  { by rewrite Nat.add_0_r, take_drop. }
  rewrite bytes_of_cons, length_app in Hlen.
  unfold buffer_serializer.write; simpl. case_decide; [lia|].
  rewrite IH by (rewrite !length_app, length_take, length_drop; lia).
  rewrite overwrite_step by lia.
  rewrite length_app, Nat.add_assoc. done.
Qed.

Lemma run_nuraft_writes ws pkt c v :
  c + length (bytes_of ws) ≤ length pkt →
  run_writes (nuraft_serializer.mk pkt c v) ws =
    nuraft_serializer.mk
      (take c pkt ++ bytes_of ws ++ drop (c + length (bytes_of ws)) pkt)
      (c + length (bytes_of ws)) v.
Proof.
  unfold run_writes. revert pkt c. induction ws as [|w ws IH];
    intros pkt c Hlen; simpl.
  { by rewrite Nat.add_0_r, take_drop. }
  rewrite bytes_of_cons, length_app in Hlen.
  unfold nuraft_serializer.write; simpl. case_decide; [lia|]. simpl.
  rewrite IH by (rewrite !length_app, length_take, length_drop; lia).
  rewrite overwrite_step by lia.
  rewrite length_app, Nat.add_assoc. done.
Qed.

Lemma make_buffer_spec ws : make_buffer ws = bytes_of ws.
Proof.
  unfold make_buffer, buffer_serializer.init, buffer_serializer.extend.
  rewrite serialized_size_spec, run_buffer_writes
    by (simpl; rewrite length_replicate; lia). simpl.
  by rewrite drop_ge, app_nil_r by (rewrite length_replicate; lia).
Qed.

Lemma make_nuraft_buffer_spec ws :
  make_nuraft_buffer ws =
    nuraft_serializer.mk (bytes_of ws) (length (bytes_of ws)) true.
Proof.
  unfold make_nuraft_buffer, nuraft_serializer.init.
  rewrite serialized_size_spec, run_nuraft_writes
    by (simpl; rewrite length_replicate; lia). simpl.
  by rewrite drop_ge, app_nil_r by (rewrite length_replicate; lia).
Qed.

(** Writing at the end of a growing buffer appends. *)
Lemma run_buffer_append ws pkt v :
  run_writes (buffer_serializer.mk pkt (length pkt) v) ws =
    buffer_serializer.mk (pkt ++ bytes_of ws) (length (pkt ++ bytes_of ws)) v.
Proof.
  unfold run_writes. revert pkt. induction ws as [|w ws IH]; intros pkt; simpl.
  { by rewrite app_nil_r. }
  unfold buffer_serializer.write; simpl.
  assert (∀ l : list byte,
    take (length pkt) (pkt ++ l) ++ w ++
    drop (length pkt + length w) (pkt ++ l) =
    pkt ++ w ++ drop (length w) l) as Happ.
  { intros l. rewrite take_app_length, drop_app_add. done. }
  case_decide as Hlt.
  - unfold buffer_serializer.extend. rewrite Happ, drop_ge, app_nil_r
      by (rewrite length_replicate; lia).
    rewrite <- length_app, IH, <- (assoc_L (++)). done.
  - assert (w = []) as -> by (destruct w; simpl in *; [done|lia]).
    rewrite Nat.add_0_r, firstn_all, drop_ge by lia. simpl.
    rewrite app_nil_r, IH. done.
Qed.

(** So does writing at the end of a file. *)
Lemma run_ostream_append ws content :
  run_writes (ostream_serializer.mk
      (stream_serializer.mk content (length content) false)) ws =
    ostream_serializer.mk (stream_serializer.mk (content ++ bytes_of ws)
      (length (content ++ bytes_of ws)) false).
Proof.
  unfold run_writes. revert content. induction ws as [|w ws IH]; intros content; simpl.
  { by rewrite app_nil_r. }
  unfold ostream_serializer.write; simpl.
  rewrite Nat.sub_diag, app_nil_r, firstn_all, drop_ge, app_nil_r by lia.
  rewrite <- length_app, IH, <- (assoc_L (++)). done.
Qed.

(** A new buffer and a new file hold what was written. *)
Lemma new_buffer ws :
  buffer_serializer.m_pkt (run_writes (buffer_serializer.init []) ws) = bytes_of ws.
Proof. unfold buffer_serializer.init. by rewrite (run_buffer_append ws []). Qed.

Lemma new_file ws :
  run_writes (ostream_serializer.init []) ws =
    ostream_serializer.mk (stream_serializer.mk (bytes_of ws) (length (bytes_of ws)) false).
Proof. apply (run_ostream_append ws []). Qed.

(** ** Round trips *)

Section Reading.
Context {St : Type} `{ReaderLaws St}.

(** The reader is healthy and about to read [bs]. *)
Definition at_bytes (s : St) (bs : list byte) : Prop :=
  reader_wf s ∧ operator_bool s = true ∧ remaining s = bs.

(** Reading what [put] wrote into a default value gives the value back and
    leaves the reader after it. *)
Definition roundtrips {T} (wf : T → Prop) (put : T → writes) (d : T)
    (get : getter St T) : Prop :=
  ∀ x s rest, wf x → at_bytes s (bytes_of (put x) ++ rest) →
    ∃ s', get s d = (s', x) ∧ at_bytes s' rest.

Lemma at_bytes_read s bs rest n :
  at_bytes s (bs ++ rest) → length bs = n →
  ∃ s', read s n = (s', Some bs) ∧ at_bytes s' rest.
Proof.
  intros (Hwf & Hv & Hrem) <-.
  destruct (read_ok s (length bs)) as (s' & E & Hwf' & Hrem' & Hv').
  { done. } { rewrite Hrem, length_app. lia. }
  exists s'. rewrite E, Hrem, take_app_length. split; [done|].
  split_and!; [done|congruence|]. by rewrite Hrem', Hrem, drop_app_length.
Qed.

Lemma at_bytes_valid s bs : at_bytes s bs → operator_bool s = true.
Proof. by intros (? & ? & ?). Qed.

End Reading.

(** Run one getter whose round trip is known. *)
Ltac step Hrt :=
  match goal with
  | H : @at_bytes _ _ _ ?s _ |- _ =>
      let s' := fresh "s" in let E := fresh "E" in let Hs := fresh "Hs" in
      edestruct Hrt as (s' & E & Hs);
      [ | first [exact H | by rewrite <- ?(assoc_L (++)) in H; exact H] | ];
      [ | clear H; simpl; rewrite E; simpl;
          rewrite ?(at_bytes_valid _ _ Hs); simpl ]
  end.

Section Roundtrip.
Context {St : Type} `{ReaderLaws St}.

Lemma get_int_roundtrip n d :
  roundtrips (λ z, 0 ≤ z < 2 ^ (8 * Z.of_nat n))%Z (λ z, [le_bytes n z]) d
    (get_int n).
Proof.
  intros z s rest Hz Hs. unfold bytes_of in Hs; simpl in Hs.
  rewrite app_nil_r in Hs.
  destruct (at_bytes_read _ _ _ n Hs) as (s' & E & Hs'); [len|].
  unfold get_int. rewrite E. eexists; split; [|done].
  rewrite le_val_bytes, Z.mod_small; done.
Qed.

Lemma get_u64_roundtrip d : roundtrips is_u64 put_u64 d get_u64.
Proof. exact (get_int_roundtrip 8 d). Qed.

Lemma get_u32_roundtrip d : roundtrips is_u32 put_u32 d get_u32.
Proof. exact (get_int_roundtrip 4 d). Qed.

Lemma get_bool_roundtrip d : roundtrips (λ _, True) put_bool d get_bool.
Proof.
  intros b s rest _ Hs. unfold bytes_of in Hs; simpl in Hs.
  destruct (at_bytes_read s [if b then x01 else x00] rest 1 Hs)
    as (s' & E & Hs'); [done|].
  unfold get_bool. rewrite E. eexists; split; [|done]. by destruct b.
Qed.

Lemma get_byte_roundtrip d : roundtrips (λ _, True) put_byte d get_byte.
Proof.
  intros b s rest _ Hs. unfold put_byte in Hs.
  pose proof (Z_of_byte_range b).
  destruct (get_int_roundtrip 1 0%Z (Z_of_byte b) s rest) as (s' & E & Hs');
    [simpl; lia|done|].
  unfold get_byte, get_u8. rewrite E, (at_bytes_valid _ _ Hs').
  eexists; split; [|done]. by rewrite byte_of_Z_of_byte.
Qed.

Lemma get_array_roundtrip n d :
  roundtrips (λ l, length l = n) put_array d (get_array n).
Proof.
  intros l s rest Hl Hs. unfold put_array, bytes_of in Hs; simpl in Hs.
  rewrite app_nil_r in Hs.
  destruct (at_bytes_read _ _ _ n Hs) as (s' & E & Hs'); [done|].
  unfold get_array. rewrite E. eauto.
Qed.

Lemma get_optional_roundtrip {T} wf (put : T → writes) d get dopt :
  roundtrips wf put d get →
  roundtrips (λ o, ∀ x, o = Some x → wf x) (put_optional put) dopt
    (get_optional d get).
Proof.
  intros Hrt [x|] s rest Hwf Hs; unfold get_optional, put_optional in *.
  - rewrite bytes_of_app, <- (assoc_L (++)) in Hs.
    step (get_bool_roundtrip false true); [done|].
    step (Hrt x); [by apply Hwf|]. eauto.
  - step (get_bool_roundtrip false false); [done|]. eauto.
Qed.

Lemma get_pair_roundtrip {A B} wfA wfB (putA : A → writes)
    (putB : B → writes) dA dB getA getB d :
  roundtrips wfA putA dA getA → roundtrips wfB putB dB getB →
  roundtrips (λ p, wfA p.1 ∧ wfB p.2) (put_pair putA putB) d
    (get_pair dA dB getA getB).
Proof.
  intros HA HB [a b] s rest [Ha Hb] Hs; simpl in *. unfold get_pair.
  unfold put_pair in Hs; simpl in Hs.
  rewrite bytes_of_app, <- (assoc_L (++)) in Hs.
  step (HA a); [done|]. step (HB b); [done|]. eauto.
Qed.

(** The inner loop reads exactly the elements on the wire. *)
Lemma read_until_spec {T} wf (put : T → writes) d get l vec fuel s rest :
  roundtrips wf put d get → Forall wf l → length l ≤ fuel →
  at_bytes s (concat ((λ x, bytes_of (put x)) <$> l) ++ rest) →
  ∃ s', read_until d get fuel (Z.of_nat (length vec + length l)) s vec =
          (s', vec ++ l, true) ∧ at_bytes s' rest.
Proof.
  intros Hrt. revert vec fuel s.
  induction l as [|x l IH]; intros vec fuel s Hwf Hfuel Hs; simpl.
  { exists s. rewrite app_nil_r, Nat.add_0_r.
    destruct fuel; simpl; rewrite Z.ltb_irrefl; done. }
  inversion_clear Hwf as [|?? Hx Hl].
  destruct fuel as [|fuel]; simpl in Hfuel; [lia|]. simpl in Hs.
  rewrite <- (assoc_L (++)) in Hs. simpl.
  replace (Z.of_nat (length vec) <? Z.of_nat (length vec + S (length l)))%Z
    with true by (symmetry; apply Z.ltb_lt; lia).
  step (Hrt x); [done|].
  destruct (IH (vec ++ [x]) fuel s0 Hl ltac:(lia) Hs0) as (s1 & E1 & Hs1).
  exists s1. split; [|done].
  replace (length vec + S (length l)) with (length (vec ++ [x]) + length l)
    by (rewrite length_app; simpl; lia).
  rewrite E1, <- (assoc_L (++)). done.
Qed.

Lemma reserve_loop_spec {T} wf (put : T → writes) d get step fuel vec l s rest :
  roundtrips wf put d get → Forall wf l → (0 < step ≤ 2 ^ 20)%Z →
  (Z.of_nat (length vec + length l) < 2 ^ 63)%Z → length l ≤ fuel →
  at_bytes s (concat ((λ x, bytes_of (put x)) <$> l) ++ rest) →
  ∃ s', reserve_loop d get step fuel (Z.of_nat (length vec))
          (Z.of_nat (length vec + length l)) s vec = (s', vec ++ l) ∧
        at_bytes s' rest.
Proof.
  intros Hrt Hwf Hstep. revert vec l s Hwf.
  induction fuel as [|fuel IH]; intros vec l s Hwf Hbound Hfuel Hs.
  - destruct l; [|simpl in *; lia]. simpl.
    rewrite Nat.add_0_r, Z.ltb_irrefl, app_nil_r. eauto.
  - simpl. destruct (Z.ltb_spec (Z.of_nat (length vec))
      (Z.of_nat (length vec + length l))) as [Hlt|Hge].
    2:{ destruct l; [|simpl in *; lia]. rewrite app_nil_r. eauto. }
    set (n := Z.to_nat (Z.min step (Z.of_nat (length l)))).
    assert (Z.min (Z.of_nat (length vec + length l))
      (add64 (Z.of_nat (length vec)) step) =
      Z.of_nat (length vec + length (take n l))) as ->.
    { rewrite add64_exact by (unfold is_u64; lia). rewrite length_take. lia. }
    rewrite <- (take_drop n l) in Hs, Hwf. rewrite fmap_app, concat_app in Hs.
    rewrite <- (assoc_L (++)) in Hs. apply Forall_app in Hwf as [Hw1 Hw2].
    edestruct (read_until_spec wf put d get (take n l) vec) as (s1 & E1 & Hs1);
      [done|done| |exact Hs|].
    2:{ rewrite E1.
        destruct (IH (vec ++ take n l) (drop n l) s1) as (s2 & E2 & Hs2);
          [done| | |exact Hs1|].
        - rewrite length_app, length_take, length_drop. lia.
        - rewrite length_drop. lia.
        - exists s2. split; [|done].
          replace (length vec + length (take n l)) with
            (length (vec ++ take n l)) by (by rewrite length_app).
          replace (length vec + length l) with
            (length (vec ++ take n l) + length (drop n l)).
          2:{ rewrite length_app, length_take, length_drop. lia. }
          by rewrite E2, <- (assoc_L (++)), take_drop. }
    rewrite length_take. lia.
Qed.

Lemma bytes_of_vector {T} (put : T → writes) l :
  bytes_of (put_vector put l) =
    le_bytes 8 (Z.of_nat (length l)) ++
    concat ((λ x, bytes_of (put x)) <$> l).
Proof.
  unfold put_vector. rewrite bytes_of_app, bytes_of_concat.
  rewrite <- list_fmap_compose. unfold put_u64, bytes_of at 1, compose.
  done.
Qed.

Lemma get_vector_roundtrip {T} wf (put : T → writes) d get sizeof :
  (0 < sizeof ≤ 2 ^ 20)%Z → roundtrips wf put d get →
  roundtrips (λ l, Forall wf l ∧ (Z.of_nat (length l) < 2 ^ 63)%Z)
    (put_vector put) [] (get_vector sizeof d get).
Proof.
  intros Hsz Hrt l s rest [Hwf Hlen] Hs. unfold get_vector.
  rewrite bytes_of_vector, <- (assoc_L (++)) in Hs.
  destruct (get_u64_roundtrip 0%Z (Z.of_nat (length l)) s
    (concat ((λ x, bytes_of (put x)) <$> l) ++ rest)) as (s1 & E & Hs1).
  { unfold is_u64. lia. }
  { exact Hs. }
  rewrite E, (at_bytes_valid _ _ Hs1). simpl.
  apply (reserve_loop_spec wf put d get _ _ []); auto; [|lia].
  unfold maximum_reservation. split.
  - apply Z.div_str_pos. lia.
  - apply Z.div_le_upper_bound; lia.
Qed.

(** The map reader on a wire with distinct, fresh keys. *)
Definition wire_map {K V} (putK : K → writes) (putV : V → writes)
    (l : list (K * V)) : list byte :=
  concat ((λ it, bytes_of (putK it.1) ++ bytes_of (putV it.2)) <$> l).

Lemma size_insert_fresh `{Countable K} {V} (m : gmap K V) k v :
  m !! k = None → size (<[k := v]> m) = S (size m).
Proof. apply map_size_insert_None. Qed.

(** Entries with fresh keys, and a list of entries read in two parts. *)
Lemma list_to_map_fresh `{Countable K} {V} (l : list (K * V)) (m : gmap K V) :
  (∀ k, k ∈ l.*1 → m !! k = None) → list_to_map l ##ₘ m.
Proof.
  intros Hf. apply map_disjoint_spec. intros k v1 v2 Hl Hm.
  apply elem_of_list_to_map_2, (list_elem_of_fmap_2 fst) in Hl. simpl in Hl.
  by rewrite Hf in Hm.
Qed.

Lemma size_list_to_map_union `{Countable K} {V} (l : list (K * V)) (m : gmap K V) :
  NoDup l.*1 → (∀ k, k ∈ l.*1 → m !! k = None) →
  size (list_to_map l ∪ m : gmap K V) = size m + length l.
Proof.
  intros Hnd Hf. rewrite map_size_disj_union by by apply list_to_map_fresh.
  rewrite map_size_list_to_map by done. lia.
Qed.

Lemma list_to_map_parts `{Countable K} {V} (l1 l2 : list (K * V)) :
  (∀ k, k ∈ l1.*1 → k ∉ l2.*1) →
  (list_to_map l2 ∪ list_to_map l1 : gmap K V) = list_to_map (l1 ++ l2).
Proof.
  intros Hd. rewrite list_to_map_app. symmetry.
  apply map_union_comm, list_to_map_fresh. intros k Hk.
  by apply not_elem_of_list_to_map_1, Hd.
Qed.

Section MapReaderSpecs.
Context {I K V W : Type} `{Countable I}.
Variables (key : K → I) (entry : K → V → W).
Variables (wfK : K → Prop) (wfV : V → Prop) (putK : K → writes) (putV : V → writes).
Variables (dK : K) (dV : V) (getK : getter St K) (getV : getter St V).
Hypothesis HK : roundtrips wfK putK dK getK.
Hypothesis HV : roundtrips wfV putV dV getV.

(** What the entries of the wire become in the map. *)
Definition entries (l : list (K * V)) : list (I * W) :=
  (λ it, (key it.1, entry it.1 it.2)) <$> l.

Lemma length_entries l : length (entries l) = length l.
Proof. apply length_fmap. Qed.

Lemma entries_app l1 l2 : entries (l1 ++ l2) = entries l1 ++ entries l2.
Proof. apply fmap_app. Qed.

Lemma read_map_until_spec l m fuel s rest :
  Forall (λ it, wfK it.1 ∧ wfV it.2) l → NoDup (entries l).*1 →
  (∀ k, k ∈ (entries l).*1 → m !! k = None) → length l ≤ fuel →
  at_bytes s (wire_map putK putV l ++ rest) →
  ∃ s', read_map_until key entry dK dV getK getV fuel (Z.of_nat (size m + length l)) s m =
          (s', list_to_map (entries l) ∪ m, true) ∧ at_bytes s' rest.
Proof.
  revert m fuel s.
  induction l as [|[k v] l IH]; intros m fuel s Hwf Hnd Hfresh Hfuel Hs; simpl.
  { exists s. rewrite Nat.add_0_r, (left_id_L ∅ (∪)).
    destruct fuel; simpl; rewrite Z.ltb_irrefl; done. }
  inversion_clear Hwf as [|?? [Hk Hv] Hl]. simpl in Hnd.
  apply NoDup_cons in Hnd as [Hnin Hnd].
  destruct fuel as [|fuel]; simpl in Hfuel; [lia|].
  unfold wire_map in Hs; simpl in Hs. rewrite <- !(assoc_L (++)) in Hs.
  simpl. replace (Z.of_nat (size m) <? Z.of_nat (size m + S (length l)))%Z
    with true by (symmetry; apply Z.ltb_lt; lia).
  step (HK k); [done|]. step (HV v); [done|].
  assert (m !! key k = None) as Hmk by (apply Hfresh; simpl; left).
  unfold emplace. rewrite Hmk.
  destruct (IH (<[key k := entry k v]> m) fuel s1 Hl Hnd) as (s2 & E2 & Hs2);
    [|lia|exact Hs|].
  { intros k' Hk'. rewrite lookup_insert_ne by (intros <-; done).
    apply Hfresh; simpl. by right. }
  exists s2. split; [|done].
  rewrite size_insert_fresh in E2 by done.
  replace (size m + S (length l)) with (S (size m) + length l) by lia.
  rewrite E2. f_equal. f_equal.
  rewrite <- insert_union_r by (by apply not_elem_of_list_to_map_1).
  by rewrite insert_union_l.
Qed.

Lemma reserve_map_loop_spec step fuel reads l m s rest :
  Forall (λ it, wfK it.1 ∧ wfV it.2) l → NoDup (entries l).*1 →
  (∀ k, k ∈ (entries l).*1 → m !! k = None) → (0 < step ≤ 2 ^ 20)%Z →
  (Z.of_nat (size m + length l) < 2 ^ 63)%Z →
  length l ≤ fuel → length l ≤ reads →
  at_bytes s (wire_map putK putV l ++ rest) →
  ∃ s', reserve_map_loop key entry dK dV getK getV step fuel reads
          (Z.of_nat (size m)) (Z.of_nat (size m + length l)) s m =
          (s', list_to_map (entries l) ∪ m) ∧ at_bytes s' rest.
Proof.
  intros Hwf Hnd Hfresh Hstep. revert l m s Hwf Hnd Hfresh.
  induction fuel as [|fuel IH]; intros l m s Hwf Hnd Hfresh Hbound Hf Hr Hs.
  - destruct l; [|simpl in *; lia]. simpl.
    rewrite Nat.add_0_r, Z.ltb_irrefl, (left_id_L ∅ (∪)). eauto.
  - simpl. destruct (Z.ltb_spec (Z.of_nat (size m))
      (Z.of_nat (size m + length l))) as [Hlt|Hge].
    2:{ destruct l; [|simpl in *; lia]. exists s. simpl. by rewrite (left_id_L ∅ (∪)). }
    set (n := Z.to_nat (Z.min step (Z.of_nat (length l)))).
    assert (Z.min (Z.of_nat (size m + length l))
      (add64 (Z.of_nat (size m)) step) =
      Z.of_nat (size m + length (take n l))) as ->.
    { rewrite add64_exact by (unfold is_u64; lia). rewrite length_take. lia. }
    rewrite <- (take_drop n l) in Hs, Hwf, Hnd, Hfresh.
    unfold wire_map in Hs. rewrite fmap_app, concat_app in Hs.
    rewrite <- (assoc_L (++)) in Hs. apply Forall_app in Hwf as [Hw1 Hw2].
    rewrite entries_app, fmap_app in Hnd, Hfresh. apply NoDup_app in Hnd as (Hn1 & Hd & Hn2).
    edestruct (read_map_until_spec (take n l) m reads s) as (s1 & E1 & Hs1);
      [done|done| | |exact Hs|].
    { intros k Hk. apply Hfresh, elem_of_app. by left. }
    { rewrite length_take. lia. }
    rewrite E1.
    assert (size (list_to_map (entries (take n l)) ∪ m : gmap I W) =
            size m + length (take n l)) as Hsize.
    { rewrite size_list_to_map_union, length_entries; [done|done|].
      intros k Hk. apply Hfresh, elem_of_app. by left. }
    destruct (IH (drop n l) (list_to_map (entries (take n l)) ∪ m) s1)
      as (s2 & E2 & Hs2); [done|done| | | | |exact Hs1|].
    { intros k Hk. apply lookup_union_None. split.
      - apply not_elem_of_list_to_map_1. intros Hin. by apply (Hd k).
      - apply Hfresh, elem_of_app. by right. }
    { rewrite Hsize, length_take, length_drop. lia. }
    { rewrite length_drop. lia. }
    { rewrite length_drop. lia. }
    exists s2. split; [|done]. rewrite Hsize in E2.
    replace (size m + length l) with
      (size m + length (take n l) + length (drop n l)).
    2:{ rewrite length_take, length_drop. lia. }
    rewrite E2, (assoc_L (∪)), list_to_map_parts by done.
    by rewrite <- entries_app, take_drop.
Qed.

(** A map reads back from any order of its entries. *)
Lemma get_keyed_map_in sizeof reads (l : list (K * V)) s rest :
  (0 < sizeof ≤ 2 ^ 20)%Z →
  Forall (λ kv, wfK kv.1 ∧ wfV kv.2) l → NoDup (entries l).*1 →
  (Z.of_nat (length l) < 2 ^ 63)%Z → length l ≤ reads →
  at_bytes s (bytes_of (put_unordered_map_in putK putV l) ++ rest) →
  ∃ s', get_keyed_map key entry dK dV getK getV sizeof reads s ∅ =
      (s', list_to_map (entries l)) ∧ at_bytes s' rest.
Proof.
  intros Hsz Hwf Hnd Hlen Hreads Hs.
  unfold get_keyed_map, put_unordered_map_in in *.
  rewrite bytes_of_app, <- (assoc_L (++)), bytes_of_concat in Hs.
  rewrite <- list_fmap_compose in Hs.
  destruct (get_u64_roundtrip 0%Z (Z.of_nat (length l)) s
    (wire_map putK putV l ++ rest)) as (s1 & E & Hs1).
  { unfold is_u64. lia. }
  { unfold at_bytes in *. destruct Hs as (? & ? & ->).
    split_and!; [done|done|]. do 2 f_equal. unfold wire_map. f_equal.
    apply list_fmap_ext. intros ? [] _. simpl. by rewrite bytes_of_app. }
  rewrite E, (at_bytes_valid _ _ Hs1). simpl.
  destruct (reserve_map_loop_spec (maximum_reservation `div` sizeof) (length l) reads l ∅ s1 rest)
    as (s2 & E2 & Hs2); auto.
  - unfold maximum_reservation. split.
    + apply Z.div_str_pos. lia.
    + apply Z.div_le_upper_bound; lia.
  - rewrite map_size_empty in E2. simpl in E2.
    rewrite Nat2Z.id. change 0%Z with (Z.of_nat 0). rewrite E2.
    exists s2. split; [|done]. by rewrite (right_id_L ∅ (∪)).
Qed.

End MapReaderSpecs.

Lemma get_unordered_map_in `{Countable K} {V} wfK wfV
    (putK : K → writes) (putV : V → writes) dK dV getK getV sizeof reads
    (l : list (K * V)) s rest :
  (0 < sizeof ≤ 2 ^ 20)%Z →
  roundtrips wfK putK dK getK → roundtrips wfV putV dV getV →
  Forall (λ kv, wfK kv.1 ∧ wfV kv.2) l → NoDup l.*1 →
  (Z.of_nat (length l) < 2 ^ 63)%Z → length l ≤ reads →
  at_bytes s (bytes_of (put_unordered_map_in putK putV l) ++ rest) →
  ∃ s', get_unordered_map sizeof dK dV getK getV reads s ∅ = (s', list_to_map l) ∧
    at_bytes s' rest.
Proof.
  intros Hsz HK HV Hwf Hnd Hlen Hreads Hs.
  assert (entries (@id K) (λ (_ : K) (v : V), v) l = l) as El.
  { clear. unfold entries. induction l as [|[k v] l IH]; [done|]. cbn. f_equal. exact IH. }
  pose proof (get_keyed_map_in id (λ (_ : K) (v : V), v) wfK wfV putK putV dK dV getK getV HK HV
    sizeof reads l s rest Hsz Hwf) as HH. rewrite El in HH. by apply HH.
Qed.

Lemma get_unordered_map_roundtrip `{Countable K} {V} wfK wfV
    (putK : K → writes) (putV : V → writes) dK dV getK getV sizeof reads :
  (0 < sizeof ≤ 2 ^ 20)%Z →
  roundtrips wfK putK dK getK → roundtrips wfV putV dV getV →
  roundtrips (λ m : gmap K V, map_Forall (λ k v, wfK k ∧ wfV v) m ∧
                (Z.of_nat (size m) < 2 ^ 63)%Z ∧ size m ≤ reads)
    (put_unordered_map putK putV) ∅
    (get_unordered_map sizeof dK dV getK getV reads).
Proof.
  intros Hsz HK HV m s rest (Hwf & Hlen & Hreads) Hs.
  enough (∃ s', get_unordered_map sizeof dK dV getK getV reads s ∅ =
    (s', list_to_map (map_to_list m)) ∧ at_bytes s' rest) as HH
    by by rewrite list_to_map_to_list in HH.
  eapply (get_unordered_map_in wfK wfV putK putV); try done.
  - apply Forall_forall. intros [k v] Hin%elem_of_map_to_list. by apply Hwf.
  - apply NoDup_fst_map_to_list.
  - by rewrite length_map_to_list.
  - by rewrite length_map_to_list.
Qed.

End Roundtrip.

#[export] Hint Resolve get_u64_roundtrip get_u32_roundtrip get_bool_roundtrip
  get_byte_roundtrip get_array_roundtrip get_optional_roundtrip
  get_pair_roundtrip get_vector_roundtrip get_unordered_map_roundtrip : cbdc.

(** [from_buffer] after [make_buffer], for a buffer serializer. *)
Lemma from_make_buffer {T} wf (put : T → writes) d get x :
  roundtrips wf put d get → wf x →
  from_buffer d get (make_buffer (put x)) = Some x.
Proof.
  intros Hrt Hwf. unfold from_buffer, from_serializer.
  destruct (Hrt x (buffer_serializer.init (make_buffer (put x))) [] Hwf)
    as (s' & E & Hs').
  { split_and!; simpl; [lia|done|].
    by rewrite drop_0, make_buffer_spec, app_nil_r. }
  by rewrite E, (at_bytes_valid _ _ Hs').
Qed.

(** A format that round trips is prefix-free: the bytes determine the value
    and where it ends. *)
Lemma roundtrips_prefix_free {T} wf (put : T → writes) d
    (get : getter buffer_serializer.t T) x y r1 r2 :
  roundtrips wf put d get → wf x → wf y →
  bytes_of (put x) ++ r1 = bytes_of (put y) ++ r2 → x = y ∧ r1 = r2.
Proof.
  intros Hrt Hx Hy E.
  destruct (Hrt x (buffer_serializer.init (bytes_of (put x) ++ r1)) r1 Hx)
    as (s1 & E1 & _ & _ & Hr1).
  { split_and!; simpl; [lia|done|by rewrite drop_0]. }
  destruct (Hrt y (buffer_serializer.init (bytes_of (put x) ++ r1)) r2 Hy)
    as (s2 & E2 & _ & _ & Hr2).
  { split_and!; simpl; [lia|done|by rewrite drop_0]. }
  rewrite E1 in E2. simplify_eq. done.
Qed.
