(* ===== verification/Crypto.v ===== *)
(** * Cryptographic interfaces

    SHA-256 and secp256k1 as the rest of the system uses them.  [libsecp256k1]
    is not part of the repository: its operations are the fields of a class,
    and the documented behaviour the system relies on is a second class of
    laws.  [pubkey_from_privkey] and [hash_data] are the repository's own
    wrappers (src/util/common/keys.cpp, hash.cpp). *)

From S2P Require Import Prelude.
From Stdlib Require Import ZArith Lia.
From Stdlib.Strings Require Import Byte.
From stdpp Require Import base tactics numbers list.

(** The digest of the concatenation of everything written to a [CSHA256]. *)
Class Hasher := {
  sha256 : list byte → hash_t;
  length_sha256 m : length (sha256 m) = hash_size
}.

#[export] Hint Rewrite @length_sha256 : cbdc_len.

(** The operations of libsecp256k1 used by the system; a return value other
    than 1 is [None] or [false]. *)
Class Secp256k1 := {
  keypair : Type;
  xonly_pubkey : Type;
  keypair_create : privkey_t → option keypair;
  keypair_xonly_pub : keypair → xonly_pubkey;
  xonly_pubkey_serialize : xonly_pubkey → pubkey_t;
  xonly_pubkey_parse : pubkey_t → option xonly_pubkey;
  schnorrsig_sign : hash_t → keypair → signature_t;
  schnorrsig_verify : signature_t → hash_t → xonly_pubkey → bool
}.

(** Documented behaviour: sizes, parsing what was serialized, and the
    correctness of signatures. *)
Class Secp256k1Laws `{Secp256k1} := {
  length_xonly_serialize pk :
    length (xonly_pubkey_serialize pk) = pubkey_len;
  length_schnorrsig msg kp :
    length (schnorrsig_sign msg kp) = sig_len;
  xonly_parse_serialize pk :
    xonly_pubkey_parse (xonly_pubkey_serialize pk) = Some pk;
  schnorrsig_correct msg kp :
    schnorrsig_verify (schnorrsig_sign msg kp) msg (keypair_xonly_pub kp) =
      true
}.

Section Keys.
Context `{Secp256k1} `{Hasher}.

(** [hash_data(data, len)]: the digest of the first [len] bytes. *)
Definition hash_data (data : list byte) (len : nat) : hash_t :=
  sha256 (take len data).

(** [pubkey_from_privkey]; an invalid private key fails the assertion. *)
Definition pubkey_from_privkey (privkey : privkey_t) : outcome pubkey_t :=
  match keypair_create privkey with
  | Some kp => Ret (xonly_pubkey_serialize (keypair_xonly_pub kp))
  | None => Fatal
  end.

End Keys.

(** ** Toy instances

    Small executable instances that satisfy every law; they show that the
    classes are inhabited and let statements be run on concrete inputs.  They
    are instances only where [Toy] is imported. *)

Module Toy.

Definition digest (m : list byte) : hash_t :=
  le_bytes 32 (foldl (λ acc b, ((acc * 257 + Z_of_byte b + 1)
                                  `mod` 2 ^ 256)%Z) 7%Z m).

#[export] Instance hasher : Hasher := {|
  sha256 := digest;
  length_sha256 m := length_le_bytes 32 _
|}.

(** Keys are padded to 32 bytes; a signature is the key and the message. *)
Definition pad (n : nat) (l : list byte) : list byte :=
  take n (l ++ replicate n x00).

Lemma length_pad n l : length (pad n l) = n.
Proof. unfold pad. rewrite length_take, length_app, length_replicate. lia. Qed.

Lemma pad_id n l : length l = n → pad n l = l.
Proof. intros <-. apply take_app_length. Qed.

Definition key : Type := { l : list byte | bool_decide (length l = 32) }.

Definition mk_key (l : list byte) : key :=
  pad 32 l ↾ bool_decide_pack _ (length_pad 32 l).

Lemma mk_key_val (k : key) : mk_key (`k) = k.
Proof.
  destruct k as [l Hl]. apply (sig_eq_pi _). simpl.
  apply pad_id. by apply bool_decide_unpack in Hl.
Qed.

#[export] Instance secp : Secp256k1 := {|
  keypair := key;
  xonly_pubkey := key;
  keypair_create l := if decide (length l = 32) then Some (mk_key l) else None;
  keypair_xonly_pub k := k;
  xonly_pubkey_serialize k := `k;
  xonly_pubkey_parse l :=
    if decide (length l = 32) then Some (mk_key l) else None;
  schnorrsig_sign msg k := `k ++ pad 32 msg;
  schnorrsig_verify sig msg k := bool_decide (sig = `k ++ pad 32 msg)
|}.

Lemma length_key (k : key) : length (`k) = 32.
Proof. destruct k as [l Hl]; simpl. by apply bool_decide_unpack in Hl. Qed.

#[export] Program Instance secp_laws : Secp256k1Laws.
Next Obligation. intros k. apply length_key. Qed.
Next Obligation.
  intros msg k. cbn. by rewrite length_app, length_pad, length_key.
Qed.
Next Obligation.
  intros k. cbn. rewrite decide_True by apply length_key. by rewrite mk_key_val.
Qed.
Next Obligation. intros msg k. cbn. by apply bool_decide_eq_true_2. Qed.

End Toy.
