(* ===== verification/Transaction.v ===== *)
(** * Transactions

    Model of [src/uhs/transaction/transaction.{hpp,cpp}] and
    [messages.cpp]: outpoints, outputs, inputs, full and compact
    transactions, their identifiers and their wire format. *)

From S2P Require Import Prelude Serialization Crypto.
From Stdlib Require Import ZArith Lia.
From Stdlib.Strings Require Import Byte.
From stdpp Require Import base tactics numbers gmap sets list.

(** ** Data *)

Module out_point.
Record t := mk { m_tx_id : hash_t; m_index : Z }.
#[global] Instance eq_dec : EqDecision t.
Proof. solve_decision. Defined.
#[global] Instance countable : Countable t :=
  inj_countable' (λ p, (m_tx_id p, m_index p)) (λ p, mk p.1 p.2)
    ltac:(by intros []).
Definition dflt : t := mk (zeros hash_size) 0.
Definition wf (p : t) : Prop :=
  length (m_tx_id p) = hash_size ∧ is_u64 (m_index p).
End out_point.

Module output.
Record t := mk { m_witness_program_commitment : hash_t; m_value : Z }.
#[global] Instance eq_dec : EqDecision t.
Proof. solve_decision. Defined.
Definition dflt : t := mk (zeros hash_size) 0.
Definition wf (o : t) : Prop :=
  length (m_witness_program_commitment o) = hash_size ∧ is_u64 (m_value o).
End output.

Module input.
Record t := mk { m_prevout : out_point.t; m_prevout_data : output.t }.
#[global] Instance eq_dec : EqDecision t.
Proof. solve_decision. Defined.
Definition dflt : t := mk out_point.dflt output.dflt.
Definition wf (i : t) : Prop :=
  out_point.wf (m_prevout i) ∧ output.wf (m_prevout_data i).
End input.

Module full_tx.
Record t := mk {
  m_inputs : list input.t;
  m_outputs : list output.t;
  m_witness : list (list byte)
}.
#[global] Instance eq_dec : EqDecision t.
Proof. solve_decision. Defined.
Definition dflt : t := mk [] [] [].
Definition small {A} (l : list A) : Prop := (Z.of_nat (length l) < 2 ^ 63)%Z.
Definition wf (tx : t) : Prop :=
  (Forall input.wf (m_inputs tx) ∧ small (m_inputs tx)) ∧
  (Forall output.wf (m_outputs tx) ∧ small (m_outputs tx)) ∧
  (Forall (λ w, Forall (λ _, True) w ∧ small w) (m_witness tx) ∧
   small (m_witness tx)).
End full_tx.

Module compact_tx.
Record t := mk {
  m_id : hash_t;
  m_inputs : list hash_t;
  m_uhs_outputs : list hash_t;
  m_attestations : gmap pubkey_t signature_t
}.
#[global] Instance eq_dec : EqDecision t.
Proof. solve_decision. Defined.
Definition dflt : t := mk (zeros hash_size) [] [] ∅.

(** [reads] bounds the number of attestations. *)
Definition wf (reads : nat) (tx : t) : Prop :=
  length (m_id tx) = hash_size ∧
  (Forall (λ h, length h = hash_size) (m_inputs tx) ∧
   full_tx.small (m_inputs tx)) ∧
  (Forall (λ h, length h = hash_size) (m_uhs_outputs tx) ∧
   full_tx.small (m_uhs_outputs tx)) ∧
  (map_Forall (λ k v, length k = pubkey_len ∧ length v = sig_len)
     (m_attestations tx) ∧
   (Z.of_nat (size (m_attestations tx)) < 2 ^ 63)%Z ∧
   size (m_attestations tx) ≤ reads).

(** [operator==] compares only the identifiers. *)
Definition eqb (a b : t) : bool := bool_decide (m_id a = m_id b).

Definition with_attestations (tx : t) (a : gmap pubkey_t signature_t) : t :=
  mk (m_id tx) (m_inputs tx) (m_uhs_outputs tx) a.

(** [m_attestations.insert(attestation)] keeps an existing entry. *)
Definition add_attestation (tx : t) (att : pubkey_t * signature_t) : t :=
  with_attestations tx
    (match m_attestations tx !! att.1 with
     | Some _ => m_attestations tx
     | None => <[att.1 := att.2]> (m_attestations tx)
     end).
End compact_tx.

(** [out_point::operator<]: lexicographic on the hash bytes, then the
    index. *)
Fixpoint bytes_ltb (a b : list byte) : bool :=
  match a, b with
  | x :: a, y :: b =>
      (Z_of_byte x <? Z_of_byte y)%Z ||
      ((Z_of_byte x =? Z_of_byte y)%Z && bytes_ltb a b)
  | [], _ :: _ => true
  | _, [] => false
  end.

Definition out_point_ltb (a b : out_point.t) : bool :=
  bytes_ltb (out_point.m_tx_id a) (out_point.m_tx_id b) ||
  (bool_decide (out_point.m_tx_id a = out_point.m_tx_id b) &&
   (out_point.m_index a <? out_point.m_index b)%Z).

(** ** Wire format (messages.cpp) *)

Definition put_out_point (op : out_point.t) : writes :=
  put_array (out_point.m_tx_id op) ++ put_u64 (out_point.m_index op).

Definition put_output (out : output.t) : writes :=
  put_array (output.m_witness_program_commitment out) ++
  put_u64 (output.m_value out).

Definition put_input (inp : input.t) : writes :=
  put_out_point (input.m_prevout inp) ++ put_output (input.m_prevout_data inp).

Definition put_full_tx (tx : full_tx.t) : writes :=
  put_vector put_input (full_tx.m_inputs tx) ++
  put_vector put_output (full_tx.m_outputs tx) ++
  put_vector (put_vector put_byte) (full_tx.m_witness tx).

Definition put_compact_tx (tx : compact_tx.t) : writes :=
  put_array (compact_tx.m_id tx) ++
  put_vector put_array (compact_tx.m_inputs tx) ++
  put_vector put_array (compact_tx.m_uhs_outputs tx) ++
  put_unordered_map put_array put_array (compact_tx.m_attestations tx).

Section Getters.
Context {St : Type} `{Serializer St}.

Definition get_out_point : getter St out_point.t := λ s op,
  let (s1, id) := get_array hash_size s (out_point.m_tx_id op) in
  let (s2, idx) := get_u64 s1 (out_point.m_index op) in
  (s2, out_point.mk id idx).

Definition get_output : getter St output.t := λ s out,
  let (s1, c) :=
    get_array hash_size s (output.m_witness_program_commitment out) in
  let (s2, v) := get_u64 s1 (output.m_value out) in
  (s2, output.mk c v).

Definition get_input : getter St input.t := λ s inp,
  let (s1, p) := get_out_point s (input.m_prevout inp) in
  let (s2, d) := get_output s1 (input.m_prevout_data inp) in
  (s2, input.mk p d).

(** [sizeof(input)] is 80, [sizeof(output)] 40, [sizeof(std::byte)] 1 and
    [sizeof(std::vector)] 24 on the supported 64-bit platforms. *)
Definition get_full_tx : getter St full_tx.t := λ s tx,
  let (s1, i) :=
    get_vector 80 input.dflt get_input s (full_tx.m_inputs tx) in
  let (s2, o) :=
    get_vector 40 output.dflt get_output s1 (full_tx.m_outputs tx) in
  let (s3, w) :=
    get_vector 24 [] (get_vector 1 x00 get_byte) s2 (full_tx.m_witness tx) in
  (s3, full_tx.mk i o w).

(** [reads] bounds the entries read for the attestation map (see
    [get_unordered_map]). *)
Definition get_compact_tx (reads : nat) : getter St compact_tx.t := λ s tx,
  let (s1, id) := get_array hash_size s (compact_tx.m_id tx) in
  let (s2, i) :=
    get_vector 32 (zeros hash_size) (get_array hash_size) s1
      (compact_tx.m_inputs tx) in
  let (s3, o) :=
    get_vector 32 (zeros hash_size) (get_array hash_size) s2
      (compact_tx.m_uhs_outputs tx) in
  let (s4, a) :=
    get_unordered_map 96 (zeros pubkey_len) (zeros sig_len)
      (get_array pubkey_len) (get_array sig_len) reads s3
      (compact_tx.m_attestations tx) in
  (s4, compact_tx.mk id i o a).

End Getters.

(** ** Identifiers *)

Section Ids.
Context `{Hasher} `{Secp256k1}.

(** [input::hash] *)
Definition input_hash (inp : input.t) : hash_t :=
  sha256 (make_buffer (put_input inp)).

(** [tx_id]: the inputs and outputs, not the witnesses. *)
Definition tx_id (tx : full_tx.t) : hash_t :=
  sha256 (make_buffer (put_vector put_input (full_tx.m_inputs tx)) ++
          make_buffer (put_vector put_output (full_tx.m_outputs tx))).

Definition input_from_output_with (tx : full_tx.t) (i : nat) (txid : hash_t)
    : option input.t :=
  match full_tx.m_outputs tx !! i with
  | Some out => Some (input.mk (out_point.mk txid (Z.of_nat i)) out)
  | None => None
  end.

Definition input_from_output (tx : full_tx.t) (i : nat) : option input.t :=
  input_from_output_with tx i (tx_id tx).

Definition uhs_id_from_output (entropy : hash_t) (i : Z) (out : output.t)
    : hash_t :=
  sha256 (entropy ++ le_bytes 8 i ++ make_buffer (put_output out)).

(** [compact_tx::compact_tx(full_tx)] *)
Definition compact (tx : full_tx.t) : compact_tx.t :=
  let id := tx_id tx in
  compact_tx.mk id
    (input_hash <$> full_tx.m_inputs tx)
    (imap (λ i out, uhs_id_from_output id (Z.of_nat i) out)
       (full_tx.m_outputs tx))
    ∅.

(** [compact_tx::hash]: the attestations are not part of the message. *)
Definition compact_hash (tx : compact_tx.t) : hash_t :=
  sha256 (make_buffer (put_compact_tx (compact_tx.with_attestations tx ∅))).

(** [compact_tx::sign]: public key and signature. *)
Definition compact_sign (tx : compact_tx.t) (key : privkey_t)
    : outcome (pubkey_t * signature_t) :=
  match keypair_create key with
  | Some kp => Ret (xonly_pubkey_serialize (keypair_xonly_pub kp),
                    schnorrsig_sign (compact_hash tx) kp)
  | None => Fatal
  end.

(** [compact_tx::verify] *)
Definition compact_verify (tx : compact_tx.t) (att : pubkey_t * signature_t)
    : bool :=
  match xonly_pubkey_parse att.1 with
  | Some pk => schnorrsig_verify att.2 (compact_hash tx) pk
  | None => false
  end.

End Ids.

(** ** Wire round trips *)

Section WireRoundtrip.
Context {St : Type} `{ReaderLaws St}.

Lemma get_out_point_roundtrip :
  roundtrips out_point.wf put_out_point out_point.dflt get_out_point.
Proof.
  intros [id idx] s rest [Hid Hidx] Hs. unfold put_out_point in Hs.
  rewrite bytes_of_app, <- (assoc_L (++)) in Hs. unfold get_out_point.
  step (get_array_roundtrip hash_size (zeros hash_size)); [done|].
  step (get_u64_roundtrip 0%Z); [done|]. eauto.
Qed.

Lemma get_output_roundtrip :
  roundtrips output.wf put_output output.dflt get_output.
Proof.
  intros [c v] s rest [Hc Hv] Hs. unfold put_output in Hs.
  rewrite bytes_of_app, <- (assoc_L (++)) in Hs. unfold get_output.
  step (get_array_roundtrip hash_size (zeros hash_size)); [done|].
  step (get_u64_roundtrip 0%Z); [done|]. eauto.
Qed.

Lemma get_input_roundtrip :
  roundtrips input.wf put_input input.dflt get_input.
Proof.
  intros [p o] s rest [Hp Ho] Hs. unfold put_input in Hs.
  rewrite bytes_of_app, <- (assoc_L (++)) in Hs. unfold get_input.
  step get_out_point_roundtrip; [done|]. step get_output_roundtrip; [done|].
  eauto.
Qed.

Lemma get_full_tx_roundtrip :
  roundtrips full_tx.wf put_full_tx full_tx.dflt get_full_tx.
Proof.
  intros [i o w] s rest (Hi & Ho & Hw) Hs. unfold put_full_tx in Hs.
  rewrite 2!bytes_of_app, <- 2!(assoc_L (++)) in Hs. unfold get_full_tx.
  step (get_vector_roundtrip _ _ input.dflt _ 80 ltac:(lia)
          get_input_roundtrip); [done|].
  step (get_vector_roundtrip _ _ output.dflt _ 40 ltac:(lia)
          get_output_roundtrip); [done|].
  step (get_vector_roundtrip _ _ [] _ 24 ltac:(lia)
          (get_vector_roundtrip _ _ x00 _ 1 ltac:(lia)
             (get_byte_roundtrip x00))); [done|].
  eauto.
Qed.

Lemma get_compact_tx_roundtrip reads :
  roundtrips (compact_tx.wf reads) put_compact_tx compact_tx.dflt
    (get_compact_tx reads).
Proof.
  intros [id i o a] s rest (Hid & Hi & Ho & Ha) Hs.
  unfold put_compact_tx in Hs.
  rewrite 3!bytes_of_app, <- 3!(assoc_L (++)) in Hs. unfold get_compact_tx.
  step (get_array_roundtrip hash_size (zeros hash_size)); [done|].
  do 2 (step (get_vector_roundtrip _ _ _ _ 32 ltac:(lia)
    (get_array_roundtrip hash_size (zeros hash_size))); [done|]).
  step (get_unordered_map_roundtrip _ _ _ _ _ _ _ _ 96 reads ltac:(lia)
    (get_array_roundtrip pubkey_len (zeros pubkey_len))
    (get_array_roundtrip sig_len (zeros sig_len))); [done|].
  eauto.
Qed.

End WireRoundtrip.

#[export] Hint Resolve get_out_point_roundtrip get_output_roundtrip
  get_input_roundtrip get_full_tx_roundtrip get_compact_tx_roundtrip : cbdc.

(** ** Identifiers: binding and consistency *)

Section IdLemmas.
Context `{Hasher}.

(** Two distinct messages with one digest. *)
Definition collision (m1 m2 : list byte) : Prop :=
  m1 ≠ m2 ∧ sha256 m1 = sha256 m2.

(** The bytes [tx_id] digests. *)
Definition tx_preimage (tx : full_tx.t) : list byte :=
  bytes_of (put_vector put_input (full_tx.m_inputs tx)) ++
  bytes_of (put_vector put_output (full_tx.m_outputs tx)).

Lemma tx_id_preimage tx : tx_id tx = sha256 (tx_preimage tx).
Proof. unfold tx_id. by rewrite !make_buffer_spec. Qed.

Lemma input_hash_preimage inp : input_hash inp = sha256 (bytes_of (put_input inp)).
Proof. unfold input_hash. by rewrite make_buffer_spec. Qed.

Lemma uhs_id_is_input_hash txid i out :
  uhs_id_from_output txid i out =
    input_hash (input.mk (out_point.mk txid i) out).
Proof.
  rewrite input_hash_preimage. unfold uhs_id_from_output.
  rewrite make_buffer_spec. unfold put_input, put_out_point.
  rewrite !bytes_of_app. unfold put_array, put_u64, bytes_of at 2 3.
  simpl concat. by rewrite !app_nil_r, <- (assoc_L (++)).
Qed.

Lemma tx_preimage_inj a b :
  full_tx.wf a → full_tx.wf b → tx_preimage a = tx_preimage b →
  full_tx.m_inputs a = full_tx.m_inputs b ∧
  full_tx.m_outputs a = full_tx.m_outputs b.
Proof.
  intros (Hia & Hoa & _) (Hib & Hob & _) E. unfold tx_preimage in E.
  eapply (roundtrips_prefix_free _ (put_vector put_input)) in E as [-> E];
    [|exact (get_vector_roundtrip _ _ _ _ 80 ltac:(lia) get_input_roundtrip)
     |done|done].
  rewrite <- (app_nil_r (bytes_of (put_vector put_output (full_tx.m_outputs a)))),
    <- (app_nil_r (bytes_of (put_vector put_output (full_tx.m_outputs b)))) in E.
  by eapply (roundtrips_prefix_free _ (put_vector put_output)) in E as [-> _];
    [|exact (get_vector_roundtrip _ _ _ _ 40 ltac:(lia) get_output_roundtrip)
     |done|done].
Qed.

Lemma put_input_inj a b :
  input.wf a → input.wf b →
  bytes_of (put_input a) = bytes_of (put_input b) → a = b.
Proof.
  intros Ha Hb E.
  rewrite <- (app_nil_r (bytes_of (put_input a))),
    <- (app_nil_r (bytes_of (put_input b))) in E.
  by eapply (roundtrips_prefix_free _ put_input) in E as [-> _];
    [|exact get_input_roundtrip|done|done].
Qed.

Lemma lookup_compact_output tx i :
  compact_tx.m_uhs_outputs (compact tx) !! i =
    uhs_id_from_output (tx_id tx) (Z.of_nat i) <$> full_tx.m_outputs tx !! i.
Proof. unfold compact; simpl. by rewrite list_lookup_imap. Qed.

Lemma compact_hash_attestations tx a :
  compact_hash (compact_tx.with_attestations tx a) = compact_hash tx.
Proof. done. Qed.

End IdLemmas.

(** The wire format of a full transaction loses nothing: parsing the
    serialized bytes gives the transaction back, inputs, outputs and
    witnesses. *)
Theorem full_tx_wire_roundtrip tx :
  full_tx.wf tx →
  from_buffer full_tx.dflt get_full_tx (make_buffer (put_full_tx tx)) = Some tx.
Proof. apply from_make_buffer, get_full_tx_roundtrip. Qed.

(** A small transaction spending one output into two. *)
Definition sample_tx : full_tx.t :=
  full_tx.mk
    [input.mk (out_point.mk (zeros hash_size) 3)
       (output.mk (zeros hash_size) 10)]
    [output.mk (zeros hash_size) 4; output.mk (zeros hash_size) 6]
    [[x00; x01]].

Lemma sample_tx_wf : full_tx.wf sample_tx.
Proof.
  unfold full_tx.wf, full_tx.small, input.wf, out_point.wf, output.wf, is_u64.
  simpl. repeat constructor; simpl; lia.
Qed.

Lemma full_tx_wire_roundtrip_witness :
  from_buffer full_tx.dflt get_full_tx (make_buffer (put_full_tx sample_tx)) =
    Some sample_tx.
Proof. apply full_tx_wire_roundtrip, sample_tx_wf. Defined.

(** The wire format of a compact transaction, its attestation map
    included, loses nothing; [reads] only has to cover the attestations. *)
Theorem compact_tx_wire_roundtrip reads tx :
  compact_tx.wf reads tx →
  from_buffer compact_tx.dflt (get_compact_tx reads)
    (make_buffer (put_compact_tx tx)) = Some tx.
Proof. apply from_make_buffer, get_compact_tx_roundtrip. Qed.

Definition sample_ctx : compact_tx.t :=
  compact_tx.mk (zeros hash_size) [zeros hash_size] [replicate hash_size x01]
    {[ zeros pubkey_len := zeros sig_len ]}.

Lemma compact_tx_wire_roundtrip_witness :
  from_buffer compact_tx.dflt (get_compact_tx 1)
    (make_buffer (put_compact_tx sample_ctx)) = Some sample_ctx.
Proof.
  apply compact_tx_wire_roundtrip.
  unfold compact_tx.wf, full_tx.small, sample_ctx; simpl.
  rewrite map_size_singleton. split_and!; try done; try lia.
  - by repeat constructor.
  - by repeat constructor.
  - by apply map_Forall_singleton.
Defined.

Section IdTheorems.
Context `{Hasher} `{Secp256k1} `{!Secp256k1Laws}.

(** The UHS ID a transaction creates for its output [i] is the hash of
    the input that later spends that output, so what one transaction adds to
    the set is what the next one removes. *)
Theorem output_uhs_id_is_spending_input tx i inp :
  input_from_output tx i = Some inp →
  compact_tx.m_uhs_outputs (compact tx) !! i = Some (input_hash inp).
Proof.
  unfold input_from_output, input_from_output_with.
  rewrite lookup_compact_output. intros E. case_scrut; simplify_eq; simpl.
  by rewrite uhs_id_is_input_hash.
Qed.

(** A transaction id commits to the inputs and outputs: two well-formed
    transactions with one id agree on both, or their serializations are an
    explicit SHA-256 collision. *)
Theorem tx_id_binding a b :
  full_tx.wf a → full_tx.wf b → tx_id a = tx_id b →
  (full_tx.m_inputs a = full_tx.m_inputs b ∧
   full_tx.m_outputs a = full_tx.m_outputs b) ∨
  collision (tx_preimage a) (tx_preimage b).
Proof.
  intros Ha Hb E. rewrite !tx_id_preimage in E.
  destruct (decide (tx_preimage a = tx_preimage b)) as [Heq|Hne].
  - left. by apply tx_preimage_inj.
  - by right.
Qed.

(** A UHS ID commits to the outpoint, the value and the witness
    commitment of the output it stands for, up to an explicit collision. *)
Theorem uhs_id_binding txid1 i1 out1 txid2 i2 out2 :
  input.wf (input.mk (out_point.mk txid1 i1) out1) →
  input.wf (input.mk (out_point.mk txid2 i2) out2) →
  uhs_id_from_output txid1 i1 out1 = uhs_id_from_output txid2 i2 out2 →
  (txid1 = txid2 ∧ i1 = i2 ∧ out1 = out2) ∨
  collision
    (bytes_of (put_input (input.mk (out_point.mk txid1 i1) out1)))
    (bytes_of (put_input (input.mk (out_point.mk txid2 i2) out2))).
Proof.
  intros Ha Hb E. rewrite !uhs_id_is_input_hash, !input_hash_preimage in E.
  destruct (decide (bytes_of (put_input (input.mk (out_point.mk txid1 i1) out1))
    = bytes_of (put_input (input.mk (out_point.mk txid2 i2) out2)))) as [Heq|];
    [|by right].
  left. apply put_input_inj in Heq; [|done|done]. by simplify_eq.
Qed.

(** An attestation made by [compact_sign] is accepted by
    [compact_verify] whatever other attestations the transaction carries. *)
Theorem sign_verify tx key att atts :
  compact_sign tx key = Ret att →
  compact_verify (compact_tx.with_attestations tx atts) att = true.
Proof.
  unfold compact_sign, compact_verify. intros E.
  destruct (keypair_create key); simplify_eq; simpl.
  rewrite xonly_parse_serialize, compact_hash_attestations.
  apply schnorrsig_correct.
Qed.

End IdTheorems.

Section IdWitnesses.
Import Toy.

Lemma output_uhs_id_is_spending_input_witness :
  compact_tx.m_uhs_outputs (compact sample_tx) !! 1 =
    Some (input_hash
      (input.mk (out_point.mk (tx_id sample_tx) 1)
         (output.mk (zeros hash_size) 6))).
Proof. by apply output_uhs_id_is_spending_input. Defined.

Lemma tx_id_binding_witness :
  (full_tx.m_inputs sample_tx = full_tx.m_inputs sample_tx ∧
   full_tx.m_outputs sample_tx = full_tx.m_outputs sample_tx) ∨
  collision (tx_preimage sample_tx) (tx_preimage sample_tx).
Proof. apply tx_id_binding; [apply sample_tx_wf..|done]. Defined.

Definition sample_input : input.t :=
  input.mk (out_point.mk (zeros hash_size) 3) (output.mk (zeros hash_size) 10).

Lemma sample_input_wf : input.wf sample_input.
Proof. by repeat split. Qed.

Lemma uhs_id_binding_witness :
  (zeros hash_size = zeros hash_size ∧ 3%Z = 3%Z ∧
   output.mk (zeros hash_size) 10 = output.mk (zeros hash_size) 10) ∨
  collision (bytes_of (put_input sample_input))
    (bytes_of (put_input sample_input)).
Proof. apply uhs_id_binding; [apply sample_input_wf..|done]. Defined.

Lemma sign_verify_witness :
  ∃ att, compact_sign sample_ctx (zeros 32) = Ret att ∧
    compact_verify (compact_tx.with_attestations sample_ctx ∅) att = true.
Proof.
  eexists. split; [|eapply (sign_verify sample_ctx (zeros 32))]; reflexivity.
Defined.

End IdWitnesses.
