(* ===== verification/Validation.v ===== *)
(** * Transaction validation

    Model of [src/uhs/transaction/validation.{hpp,cpp}]: the static checks a
    sentinel runs on a full transaction and the attestation check the
    coordinators, shards and atomizer rely on. *)

From S2P Require Import Prelude Serialization Crypto Transaction.
From Stdlib Require Import ZArith Lia.
From Stdlib.Strings Require Import Byte.
From stdpp Require Import base tactics numbers gmap sets list.
Open Scope cbdc_scope.

(** ** Error values *)

Inductive input_error_code := duplicate | data_error.
Inductive output_error_code := zero_value.
Inductive witness_error_code :=
| missing_witness_program_type
| unknown_witness_program_type
| malformed
| program_mismatch
| invalid_public_key
| invalid_signature.
Inductive tx_error_code :=
| no_inputs
| no_outputs
| missing_witness
| asymmetric_values
| value_overflow.

(** The variant [tx_error] of the structs [input_error], [output_error],
    [witness_error] and the plain [tx_error_code]. *)
Inductive tx_error :=
| input_error (m_code : input_error_code)
    (m_data_err : option output_error_code) (m_idx : nat)
| output_error (m_code : output_error_code) (m_idx : nat)
| witness_error (m_code : witness_error_code) (m_idx : nat)
| tx_err (e : tx_error_code).

#[export] Instance input_error_code_eq_dec : EqDecision input_error_code.
Proof. solve_decision. Defined.
#[export] Instance output_error_code_eq_dec : EqDecision output_error_code.
Proof. solve_decision. Defined.
#[export] Instance witness_error_code_eq_dec : EqDecision witness_error_code.
Proof. solve_decision. Defined.
#[export] Instance tx_error_code_eq_dec : EqDecision tx_error_code.
Proof. solve_decision. Defined.
#[export] Instance tx_error_eq_dec : EqDecision tx_error.
Proof. solve_decision. Defined.

(** [witness_program_type::p2pk] *)
Definition p2pk : byte := x00.
Definition p2pk_witness_prog_len : nat := 1 + pubkey_len.
Definition p2pk_witness_len : nat := p2pk_witness_prog_len + sig_len.

(** ** Structural checks *)

Definition check_input_count (tx : full_tx.t) : option tx_error :=
  match full_tx.m_inputs tx with
  | [] => Some (tx_err no_inputs)
  | _ => None
  end.

Definition check_output_count (tx : full_tx.t) : option tx_error :=
  match full_tx.m_outputs tx with
  | [] => Some (tx_err no_outputs)
  | _ => None
  end.

Definition check_witness_count (tx : full_tx.t) : option tx_error :=
  if decide (length (full_tx.m_inputs tx) ≠ length (full_tx.m_witness tx))
  then Some (tx_err missing_witness) else None.

(** The loop of [check_input_set] from index [idx] with the outpoints seen
    so far. *)
Fixpoint check_input_set_from (inps : gset out_point.t) (idx : nat)
    (inputs : list input.t) : option tx_error :=
  match inputs with
  | [] => None
  | inp :: inputs =>
      if decide (input.m_prevout inp ∈ inps)
      then Some (input_error duplicate None idx)
      else check_input_set_from ({[ input.m_prevout inp ]} ∪ inps) (S idx) inputs
  end.

Definition check_input_set (tx : full_tx.t) : option tx_error :=
  check_input_set_from ∅ 0 (full_tx.m_inputs tx).

(** [check_tx_structure]: the first error of the four checks. *)
Definition check_tx_structure (tx : full_tx.t) : option tx_error :=
  match check_input_count tx with
  | Some e => Some e
  | None =>
  match check_output_count tx with
  | Some e => Some e
  | None =>
  match check_witness_count tx with
  | Some e => Some e
  | None => check_input_set tx
  end end end.

Definition check_output_value (out : output.t) : option output_error_code :=
  if (output.m_value out <? 1)%Z then Some zero_value else None.

Definition check_input_structure (inp : input.t)
    : option (input_error_code * option output_error_code) :=
  match check_output_value (input.m_prevout_data inp) with
  | Some e => Some (data_error, Some e)
  | None => None
  end.

(** A running 64-bit total; [None] when the wrap-around test fires. *)
Fixpoint add_values (total : Z) (values : list Z) : option Z :=
  match values with
  | [] => Some total
  | v :: values =>
      if (add64 total v <=? total)%Z then None
      else add_values (add64 total v) values
  end.

Definition input_values (tx : full_tx.t) : list Z :=
  (λ inp, output.m_value (input.m_prevout_data inp)) <$> full_tx.m_inputs tx.

Definition output_values (tx : full_tx.t) : list Z :=
  output.m_value <$> full_tx.m_outputs tx.

Definition check_in_out_set (tx : full_tx.t) : option tx_error :=
  match add_values 0 (input_values tx) with
  | None => Some (tx_err value_overflow)
  | Some input_total =>
      match add_values 0 (output_values tx) with
      | None => Some (tx_err value_overflow)
      | Some output_total =>
          if (input_total =? output_total)%Z then None
          else Some (tx_err asymmetric_values)
      end
  end.

(** ** Witness checks *)

Section Checks.
Context `{Hasher} `{Secp256k1}.

Definition check_p2pk_witness_len (tx : full_tx.t) (idx : nat)
    : outcome (option witness_error_code) :=
  let! wit := at_index (full_tx.m_witness tx) idx in
  Ret (if decide (length wit ≠ p2pk_witness_len) then Some malformed else None).

Definition check_p2pk_witness_commitment (tx : full_tx.t) (idx : nat)
    : outcome (option witness_error_code) :=
  let! wit := at_index (full_tx.m_witness tx) idx in
  let witness_program_hash := hash_data wit p2pk_witness_prog_len in
  let! inp := at_index (full_tx.m_inputs tx) idx in
  Ret (if decide (witness_program_hash ≠
         output.m_witness_program_commitment (input.m_prevout_data inp))
       then Some program_mismatch else None).

Definition check_p2pk_witness_signature (tx : full_tx.t) (idx : nat)
    : outcome (option witness_error_code) :=
  let! wit := at_index (full_tx.m_witness tx) idx in
  let pubkey_arr := take pubkey_len (drop 1 wit) in
  Ret (match xonly_pubkey_parse pubkey_arr with
       | None => Some invalid_public_key
       | Some pubkey =>
           let sighash := tx_id tx in
           let sig_arr := take sig_len (drop p2pk_witness_prog_len wit) in
           if schnorrsig_verify sig_arr sighash pubkey then None
           else Some invalid_signature
       end).

Definition check_p2pk_witness (tx : full_tx.t) (idx : nat)
    : outcome (option witness_error_code) :=
  let! witness_len_err := check_p2pk_witness_len tx idx in
  match witness_len_err with
  | Some e => Ret (Some e)
  | None =>
      let! witness_commitment_err := check_p2pk_witness_commitment tx idx in
      match witness_commitment_err with
      | Some e => Ret (Some e)
      | None => check_p2pk_witness_signature tx idx
      end
  end.

Definition check_witness (tx : full_tx.t) (idx : nat)
    : outcome (option witness_error_code) :=
  let! witness_program := at_index (full_tx.m_witness tx) idx in
  match witness_program with
  | [] => Ret (Some missing_witness_program_type)
  | witness_program_type :: _ =>
      if decide (witness_program_type = p2pk)
      then check_p2pk_witness tx idx
      else Ret (Some unknown_witness_program_type)
  end.

(** The witness loop of [check_tx] over the indices [idx .. idx + n - 1]. *)
Fixpoint check_witnesses_from (tx : full_tx.t) (idx n : nat)
    : outcome (option tx_error) :=
  match n with
  | O => Ret None
  | S n =>
      let! witness_err := check_witness tx idx in
      match witness_err with
      | Some e => Ret (Some (witness_error e idx))
      | None => check_witnesses_from tx (S idx) n
      end
  end.

Fixpoint check_inputs_from (idx : nat) (inputs : list input.t)
    : option tx_error :=
  match inputs with
  | [] => None
  | inp :: inputs =>
      match check_input_structure inp with
      | Some (code, data) => Some (input_error code data idx)
      | None => check_inputs_from (S idx) inputs
      end
  end.

Fixpoint check_outputs_from (idx : nat) (outputs : list output.t)
    : option tx_error :=
  match outputs with
  | [] => None
  | out :: outputs =>
      match check_output_value out with
      | Some e => Some (output_error e idx)
      | None => check_outputs_from (S idx) outputs
      end
  end.

Definition check_tx (tx : full_tx.t) : outcome (option tx_error) :=
  match check_tx_structure tx with
  | Some e => Ret (Some e)
  | None =>
  match check_inputs_from 0 (full_tx.m_inputs tx) with
  | Some e => Ret (Some e)
  | None =>
  match check_outputs_from 0 (full_tx.m_outputs tx) with
  | Some e => Ret (Some e)
  | None =>
  match check_in_out_set tx with
  | Some e => Ret (Some e)
  | None => check_witnesses_from tx 0 (length (full_tx.m_witness tx))
  end end end end.

Definition get_p2pk_witness_commitment (payee : pubkey_t) : hash_t :=
  let witness_program := p2pk :: payee in
  hash_data witness_program (length witness_program).

(** [check_attestations]: enough attestations, every one of them from an
    accepted key and valid. *)
Definition check_attestations (tx : compact_tx.t) (pubkeys : gset pubkey_t)
    (threshold : nat) : bool :=
  if decide (size (compact_tx.m_attestations tx) < threshold) then false
  else forallb (λ att, bool_decide (att.1 ∈ pubkeys) && compact_verify tx att)
         (map_to_list (compact_tx.m_attestations tx)).

End Checks.

(** ** What a valid transaction is *)

Section Spec.
Context `{Hasher} `{Secp256k1}.

(** A pay-to-public-key witness that opens the commitment and signs the
    transaction id. *)
Definition witness_ok (sighash : hash_t) (inp : input.t) (wit : list byte)
    : Prop :=
  length wit = p2pk_witness_len ∧ head wit = Some p2pk ∧
  sha256 (take p2pk_witness_prog_len wit) =
    output.m_witness_program_commitment (input.m_prevout_data inp) ∧
  ∃ pubkey, xonly_pubkey_parse (take pubkey_len (drop 1 wit)) = Some pubkey ∧
    schnorrsig_verify (take sig_len (drop p2pk_witness_prog_len wit)) sighash
      pubkey = true.

Definition prevouts (tx : full_tx.t) : list out_point.t :=
  input.m_prevout <$> full_tx.m_inputs tx.

Record valid_tx (tx : full_tx.t) : Prop := {
  valid_inputs : full_tx.m_inputs tx ≠ [];
  valid_outputs : full_tx.m_outputs tx ≠ [];
  valid_prevouts : NoDup (prevouts tx);
  valid_input_values : Forall (λ v, 1 ≤ v)%Z (input_values tx);
  valid_output_values : Forall (λ v, 1 ≤ v)%Z (output_values tx);
  valid_total : (sum_list_Z (input_values tx) < 2 ^ 64)%Z;
  valid_balance :
    sum_list_Z (input_values tx) = sum_list_Z (output_values tx);
  valid_witnesses :
    Forall2 (witness_ok (tx_id tx)) (full_tx.m_inputs tx) (full_tx.m_witness tx)
}.

(** What each witness error says about the witness of an input: the errors are
    in the order of the checks, and the earlier checks have passed. *)
Definition witness_fails (sighash : hash_t) (c : witness_error_code) (inp : input.t)
    (wit : list byte) : Prop :=
  let committed := sha256 (take p2pk_witness_prog_len wit) =
    output.m_witness_program_commitment (input.m_prevout_data inp) in
  let pubkey := xonly_pubkey_parse (take pubkey_len (drop 1 wit)) in
  match c with
  | missing_witness_program_type => wit = []
  | unknown_witness_program_type => ∃ b, head wit = Some b ∧ b ≠ p2pk
  | malformed => head wit = Some p2pk ∧ length wit ≠ p2pk_witness_len
  | program_mismatch =>
      head wit = Some p2pk ∧ length wit = p2pk_witness_len ∧ ¬ committed
  | invalid_public_key =>
      head wit = Some p2pk ∧ length wit = p2pk_witness_len ∧ committed ∧ pubkey = None
  | invalid_signature =>
      head wit = Some p2pk ∧ length wit = p2pk_witness_len ∧ committed ∧
      ∃ pk, pubkey = Some pk ∧
        schnorrsig_verify (take sig_len (drop p2pk_witness_prog_len wit)) sighash pk = false
  end.

(** What each reported error says about the transaction: the index is the
    first one that has it. *)
Definition error_holds (tx : full_tx.t) (e : tx_error) : Prop :=
  match e with
  | tx_err no_inputs => full_tx.m_inputs tx = []
  | tx_err no_outputs => full_tx.m_outputs tx = []
  | tx_err missing_witness =>
      length (full_tx.m_inputs tx) ≠ length (full_tx.m_witness tx)
  | tx_err value_overflow =>
      (2 ^ 64 ≤ sum_list_Z (input_values tx) ∨
       2 ^ 64 ≤ sum_list_Z (output_values tx))%Z
  | tx_err asymmetric_values =>
      sum_list_Z (input_values tx) ≠ sum_list_Z (output_values tx)
  | input_error duplicate d i =>
      d = None ∧
      ∃ p, prevouts tx !! i = Some p ∧ p ∈ take i (prevouts tx) ∧
           NoDup (take i (prevouts tx))
  | input_error data_error d i =>
      d = Some zero_value ∧ input_values tx !! i = Some 0%Z ∧
      Forall (λ v, 1 ≤ v)%Z (take i (input_values tx))
  | output_error zero_value i =>
      output_values tx !! i = Some 0%Z ∧
      Forall (λ v, 1 ≤ v)%Z (take i (output_values tx))
  | witness_error c i =>
      (∃ inp wit, full_tx.m_inputs tx !! i = Some inp ∧
         full_tx.m_witness tx !! i = Some wit ∧ witness_fails (tx_id tx) c inp wit) ∧
      Forall2 (witness_ok (tx_id tx)) (take i (full_tx.m_inputs tx))
        (take i (full_tx.m_witness tx))
  end.

Definition u64_values (tx : full_tx.t) : Prop :=
  Forall is_u64 (input_values tx) ∧ Forall is_u64 (output_values tx).

(** *** The value totals *)

Lemma add_values_spec vs total :
  is_u64 total → Forall is_u64 vs → Forall (λ v, 1 ≤ v)%Z vs →
  add_values total vs =
    (if decide (total + sum_list_Z vs < 2 ^ 64)%Z
     then Some (total + sum_list_Z vs)%Z else None).
Proof.
  intros Ht Hu Hpos. revert total Ht.
  induction vs as [|v vs IH]; intros total Ht; simpl.
  { unfold sum_list_Z; simpl. unfold is_u64 in Ht.
    rewrite Z.add_0_r, decide_True; [done|lia]. }
  inversion_clear Hu as [|?? Hv Hu']. inversion_clear Hpos as [|?? Hv1 Hpos'].
  assert (0 ≤ sum_list_Z vs)%Z as Hs.
  { apply sum_list_Z_nonneg. eapply Forall_impl; [exact Hpos'|]. simpl; lia. }
  pose proof (add64_overflow_test total v Ht Hv ltac:(lia)) as Hov.
  unfold sum_list_Z in *; simpl; fold (sum_list_Z vs) in *.
  destruct (Z.leb_spec (add64 total v) total) as [Hle|Hgt].
  - rewrite decide_False; [done|]. apply Hov in Hle. unfold sum_list_Z in *. lia.
  - assert (is_u64 (total + v)) as Hex.
    { unfold is_u64 in *. destruct (decide (2 ^ 64 ≤ total + v)%Z) as [Hx|];
        [apply Hov in Hx; lia|lia]. }
    rewrite add64_exact by done. rewrite IH by done.
    unfold sum_list_Z. rewrite !(Z.add_assoc total v). done.
Qed.

Lemma check_in_out_set_spec tx :
  u64_values tx → Forall (λ v, 1 ≤ v)%Z (input_values tx) →
  Forall (λ v, 1 ≤ v)%Z (output_values tx) →
  match check_in_out_set tx with
  | None => (sum_list_Z (input_values tx) < 2 ^ 64)%Z ∧
            sum_list_Z (input_values tx) = sum_list_Z (output_values tx)
  | Some e => error_holds tx e ∧
      (e = tx_err value_overflow ∨ e = tx_err asymmetric_values)
  end.
Proof.
  intros [Hi Ho] Hi1 Ho1. unfold check_in_out_set.
  rewrite !add_values_spec by (done || by unfold is_u64).
  rewrite !Z.add_0_l. case_decide as Hin; simpl; [|split; [left; lia|by left]].
  case_decide as Hout; simpl; [|split; [right; lia|by left]].
  destruct (Z.eqb_spec (sum_list_Z (input_values tx))
    (sum_list_Z (output_values tx))); simpl; auto.
Qed.

(** *** The duplicate scan *)

Lemma check_input_set_from_spec inps idx inputs :
  match check_input_set_from inps idx inputs with
  | None => NoDup (input.m_prevout <$> inputs) ∧
      ∀ p, p ∈ input.m_prevout <$> inputs → p ∉ inps
  | Some e => ∃ i p, e = input_error duplicate None (idx + i) ∧
      (input.m_prevout <$> inputs) !! i = Some p ∧
      (p ∈ inps ∨ p ∈ take i (input.m_prevout <$> inputs)) ∧
      NoDup (take i (input.m_prevout <$> inputs)) ∧
      (∀ q, q ∈ take i (input.m_prevout <$> inputs) → q ∉ inps)
  end.
Proof.
  revert inps idx. induction inputs as [|inp inputs IH]; intros inps idx; simpl.
  { split; [constructor|]. intros p Hp. by apply elem_of_nil in Hp. }
  case_decide as Hin.
  { exists 0, (input.m_prevout inp). rewrite Nat.add_0_r. simpl.
    split_and!; try done; [by left|constructor|]. by intros q ?%elem_of_nil. }
  specialize (IH ({[ input.m_prevout inp ]} ∪ inps) (S idx)).
  case_scrut.
  - destruct IH as (i & p & -> & Hl & Hmem & Hnd & Hfresh).
    exists (S i), p. split_and!; simpl; [f_equal; lia|done| | |].
    + rewrite elem_of_cons. set_solver.
    + apply NoDup_cons. split; [|done]. intros Hq. apply Hfresh in Hq. set_solver.
    + intros q [->|Hq]%elem_of_cons; [done|]. apply Hfresh in Hq. set_solver.
  - destruct IH as [Hnd Hfresh]. split.
    + apply NoDup_cons. split; [|done]. intros Hq. apply Hfresh in Hq. set_solver.
    + intros q [->|Hq]%elem_of_cons; [done|]. apply Hfresh in Hq. set_solver.
Qed.

Lemma check_input_set_spec tx :
  match check_input_set tx with
  | None => NoDup (prevouts tx)
  | Some e => ∃ i, e = input_error duplicate None i ∧ error_holds tx e
  end.
Proof.
  unfold check_input_set.
  pose proof (check_input_set_from_spec ∅ 0 (full_tx.m_inputs tx)) as Hs.
  case_scrut; [|by destruct Hs].
  destruct Hs as (i & p & -> & Hl & Hmem & Hnd & _).
  exists i. split; [done|]. split; [done|]. exists p. set_solver.
Qed.

(** *** The value loops *)

Lemma check_inputs_from_spec idx inputs :
  Forall is_u64 ((λ inp, output.m_value (input.m_prevout_data inp)) <$> inputs) →
  let vs := (λ inp, output.m_value (input.m_prevout_data inp)) <$> inputs in
  match check_inputs_from idx inputs with
  | None => Forall (λ v, 1 ≤ v)%Z vs
  | Some e => ∃ i, e = input_error data_error (Some zero_value) (idx + i) ∧
      vs !! i = Some 0%Z ∧ Forall (λ v, 1 ≤ v)%Z (take i vs)
  end.
Proof.
  revert idx. induction inputs as [|inp inputs IH]; intros idx Hu; simpl.
  { constructor. }
  inversion_clear Hu as [|?? Hv Hu']. unfold check_input_structure, check_output_value.
  destruct (Z.ltb_spec (output.m_value (input.m_prevout_data inp)) 1) as [Hlt|Hge].
  - exists 0. rewrite Nat.add_0_r. unfold is_u64 in Hv. simpl.
    split_and!; [done|f_equal; lia|constructor].
  - specialize (IH (S idx) Hu'). simpl in IH. case_scrut.
    + destruct IH as (i & -> & Hl & Hf). exists (S i). simpl.
      split_and!; [f_equal; lia|done|by constructor].
    + by constructor.
Qed.

Lemma check_outputs_from_spec idx outputs :
  Forall is_u64 (output.m_value <$> outputs) →
  match check_outputs_from idx outputs with
  | None => Forall (λ v, 1 ≤ v)%Z (output.m_value <$> outputs)
  | Some e => ∃ i, e = output_error zero_value (idx + i) ∧
      (output.m_value <$> outputs) !! i = Some 0%Z ∧
      Forall (λ v, 1 ≤ v)%Z (take i (output.m_value <$> outputs))
  end.
Proof.
  revert idx. induction outputs as [|out outputs IH]; intros idx Hu; simpl.
  { constructor. }
  inversion_clear Hu as [|?? Hv Hu']. unfold check_output_value.
  destruct (Z.ltb_spec (output.m_value out) 1) as [Hlt|Hge].
  - exists 0. rewrite Nat.add_0_r. unfold is_u64 in Hv. simpl.
    split_and!; [done|f_equal; lia|constructor].
  - specialize (IH (S idx) Hu'). simpl in IH. case_scrut.
    + destruct IH as (i & -> & Hl & Hf). exists (S i). simpl.
      split_and!; [f_equal; lia|done|by constructor].
    + by constructor.
Qed.

(** *** Witnesses *)

(** A witness error and a correct witness exclude each other. *)
Lemma witness_fails_not_ok sighash c inp wit :
  witness_fails sighash c inp wit → ¬ witness_ok sighash inp wit.
Proof.
  intros Hf (Hl & Hh & Hc & pk & Hp & Hv). destruct c; unfold witness_fails in Hf.
  - by subst wit.
  - destruct Hf as (b & Hb & Hne). congruence.
  - by destruct Hf.
  - by destruct Hf as (_ & _ & ?).
  - destruct Hf as (_ & _ & _ & Hn). congruence.
  - destruct Hf as (_ & _ & _ & pk' & Hp' & Hv'). congruence.
Qed.

Lemma check_p2pk_witness_spec tx idx inp wit :
  full_tx.m_inputs tx !! idx = Some inp →
  full_tx.m_witness tx !! idx = Some wit → head wit = Some p2pk →
  ∃ r, check_p2pk_witness tx idx = Ret r ∧
    match r with
    | None => witness_ok (tx_id tx) inp wit
    | Some c => witness_fails (tx_id tx) c inp wit
    end.
Proof.
  intros Hi Hw Hh. unfold check_p2pk_witness, check_p2pk_witness_len,
    check_p2pk_witness_commitment, check_p2pk_witness_signature, hash_data.
  rewrite !(at_index_some _ _ _ Hi), !(at_index_some _ _ _ Hw). simpl.
  case_decide as Hlen; [eexists; split; [done|]; by split|].
  case_decide as Hc; [eexists; split; [done|]; by split_and!|].
  eexists; split; [done|].
  destruct (xonly_pubkey_parse _) as [pk|] eqn:Hpk; [|by split_and!].
  destruct (schnorrsig_verify _ _ _) eqn:Hv; split_and!; eauto.
Qed.

Lemma check_witness_spec tx idx inp wit :
  full_tx.m_inputs tx !! idx = Some inp →
  full_tx.m_witness tx !! idx = Some wit →
  ∃ r, check_witness tx idx = Ret r ∧
    match r with
    | None => witness_ok (tx_id tx) inp wit
    | Some c => witness_fails (tx_id tx) c inp wit
    end.
Proof.
  intros Hi Hw. unfold check_witness. rewrite (at_index_some _ _ _ Hw). simpl.
  destruct wit as [|b wit']; [by eexists|].
  case_decide as Hb.
  - subst b. by apply (check_p2pk_witness_spec _ _ inp (p2pk :: wit')).
  - eexists; split; [done|]. by exists b.
Qed.

Lemma check_witnesses_from_spec tx idx n :
  idx + n = length (full_tx.m_inputs tx) →
  length (full_tx.m_inputs tx) = length (full_tx.m_witness tx) →
  Forall2 (witness_ok (tx_id tx)) (take idx (full_tx.m_inputs tx))
    (take idx (full_tx.m_witness tx)) →
  ∃ r, check_witnesses_from tx idx n = Ret r ∧
  match r with
  | None => Forall2 (witness_ok (tx_id tx)) (full_tx.m_inputs tx) (full_tx.m_witness tx)
  | Some e => ∃ c i, e = witness_error c i ∧ error_holds tx e
  end.
Proof.
  revert idx. induction n as [|n IH]; intros idx Hn Hlen Hok; simpl.
  { eexists; split; [done|]. by rewrite !take_ge in Hok by lia. }
  destruct (lookup_lt_is_Some_2 (full_tx.m_inputs tx) idx) as [inp Hi]; [lia|].
  destruct (lookup_lt_is_Some_2 (full_tx.m_witness tx) idx) as [wit Hw]; [lia|].
  destruct (check_witness_spec _ _ _ _ Hi Hw) as (r & -> & Hr). simpl.
  destruct r as [c|].
  { eexists; split; [done|]. exists c, idx. split; [done|]. split; [|done].
    by exists inp, wit. }
  apply IH; [lia|done|]. rewrite (take_S_r _ _ _ Hi), (take_S_r _ _ _ Hw).
  apply Forall2_app; [done|]. constructor; [done|constructor].
Qed.

(** *** The whole check *)

Lemma check_tx_structure_spec tx :
  match check_tx_structure tx with
  | None => full_tx.m_inputs tx ≠ [] ∧ full_tx.m_outputs tx ≠ [] ∧
      length (full_tx.m_inputs tx) = length (full_tx.m_witness tx) ∧
      NoDup (prevouts tx)
  | Some e => error_holds tx e
  end.
Proof.
  unfold check_tx_structure, check_input_count, check_output_count.
  destruct (full_tx.m_inputs tx) eqn:Ei; [done|].
  destruct (full_tx.m_outputs tx) eqn:Eo; [done|].
  unfold check_witness_count. case_decide as Hw; [done|].
  pose proof (check_input_set_spec tx) as Hs.
  destruct (check_input_set tx); [by destruct Hs as (? & -> & ?)|].
  rewrite Ei in Hw. split_and!; [done|done|lia|done].
Qed.

Lemma check_tx_spec tx :
  u64_values tx →
  ∃ r, check_tx tx = Ret r ∧
  match r with
  | None => valid_tx tx
  | Some e => error_holds tx e
  end.
Proof.
  intros [Hui Huo]. unfold check_tx.
  pose proof (check_tx_structure_spec tx) as Hs.
  destruct (check_tx_structure tx); [by eauto|].
  destruct Hs as (Hi & Ho & Hw & Hnd).
  pose proof (check_inputs_from_spec 0 _ Hui) as Hin. simpl in Hin.
  destruct (check_inputs_from _ _);
    [destruct Hin as (? & -> & ? & ?); eexists; split; [done|by split_and!]|].
  pose proof (check_outputs_from_spec 0 _ Huo) as Hout.
  destruct (check_outputs_from _ _);
    [destruct Hout as (? & -> & ? & ?); eexists; split; [done|by split]|].
  pose proof (check_in_out_set_spec tx (conj Hui Huo) Hin Hout) as Hset.
  destruct (check_in_out_set tx); [eexists; split; [done|apply Hset]|].
  destruct (check_witnesses_from_spec tx 0 (length (full_tx.m_witness tx)))
    as (r & E & Hr); [lia|done|by rewrite !take_0; constructor|].
  exists r. split; [done|]. destruct r; [by destruct Hr as (? & ? & -> & ?)|].
  by destruct Hset; constructor.
Qed.

(** The reported errors exclude validity. *)
Lemma error_holds_not_valid tx e : error_holds tx e → ¬ valid_tx tx.
Proof.
  intros He [Hi Ho Hnd Hiv Hov Ht Hb Hw].
  destruct e as [[] d i|[] i|c i|[]]; simpl in He; try done; try lia.
  - destruct He as (_ & p & Hl & Hin & _).
    rewrite <- (take_drop_middle _ _ _ Hl) in Hnd.
    apply NoDup_app in Hnd as (_ & Hd & _). apply (Hd p Hin). left.
  - destruct He as (_ & Hl & _). apply (Forall_lookup_1 _ _ _ _ Hiv) in Hl. lia.
  - destruct He as [Hl _]. apply (Forall_lookup_1 _ _ _ _ Hov) in Hl. lia.
  - destruct He as [(inp & wit & Hl1 & Hl2 & Hn) _].
    apply (witness_fails_not_ok _ _ _ _ Hn). by eapply Forall2_lookup_lr.
  - apply Forall2_length in Hw. lia.
Qed.

(** *** Attestations *)

Lemma check_attestations_true tx pubkeys threshold :
  check_attestations tx pubkeys threshold = true ↔
  threshold ≤ size (compact_tx.m_attestations tx) ∧
  map_Forall (λ pk sig, pk ∈ pubkeys ∧ compact_verify tx (pk, sig) = true)
    (compact_tx.m_attestations tx).
Proof.
  unfold check_attestations. case_decide as Hsz.
  { split; [done|]. intros [? _]. lia. }
  rewrite forallb_forall. split.
  - intros Hall. split; [lia|]. intros pk sig Hl.
    apply elem_of_map_to_list, list_elem_of_In, Hall in Hl. simpl in Hl.
    bools. done.
  - intros [_ Hall] [pk sig] Hin%list_elem_of_In%elem_of_map_to_list.
    apply Hall in Hin as [? ?]. simpl. by rewrite bool_decide_true.
Qed.

(** Adding attestations does not change the signed message. *)
Lemma add_attestations_with tx atts :
  ∃ m, foldl compact_tx.add_attestation tx atts =
         compact_tx.with_attestations tx m.
Proof.
  revert tx. induction atts as [|att atts IH]; intros tx; simpl.
  { exists (compact_tx.m_attestations tx). by destruct tx. }
  destruct (IH (compact_tx.add_attestation tx att)) as [m ->].
  by exists m.
Qed.

Lemma compact_verify_with tx m att :
  compact_verify (compact_tx.with_attestations tx m) att = compact_verify tx att.
Proof. done. Qed.

Lemma add_attestations_Forall P tx atts :
  map_Forall P (compact_tx.m_attestations tx) →
  Forall (λ att, P att.1 att.2) atts →
  map_Forall P
    (compact_tx.m_attestations (foldl compact_tx.add_attestation tx atts)).
Proof.
  intros Htx Hatts. revert tx Htx. induction Hatts as [|att atts Ha _ IH];
    intros tx Htx; simpl; [done|].
  apply IH. unfold compact_tx.add_attestation; simpl.
  case_scrut; [done|]. by apply map_Forall_insert_2.
Qed.

Lemma add_attestations_dom tx atts :
  dom (compact_tx.m_attestations (foldl compact_tx.add_attestation tx atts)) =
    dom (compact_tx.m_attestations tx) ∪ list_to_set atts.*1.
Proof.
  revert tx. induction atts as [|att atts IH]; intros tx; simpl.
  { by rewrite (right_id_L ∅ (∪)). }
  rewrite IH. unfold compact_tx.add_attestation; simpl. case_scrut.
  - apply elem_of_dom_2 in Heqo. set_solver.
  - rewrite dom_insert_L. set_solver.
Qed.

End Spec.


Section ValidationTheorems.
Context `{Hasher} `{Secp256k1} `{!Secp256k1Laws}.

(** C6: [check_tx] accepts exactly the valid transactions: inputs and
    outputs present, no outpoint twice, positive values, no 64-bit overflow,
    inputs equal to outputs in value, and every witness opens its commitment
    and signs the transaction id. *)
Theorem check_tx_iff_valid tx :
  u64_values tx → check_tx tx = Ret None ↔ valid_tx tx.
Proof.
  intros Hu. destruct (check_tx_spec tx Hu) as (r & -> & Hr).
  destruct r as [e|]; [|by split].
  split; [done|]. intros Hv. by destruct (error_holds_not_valid _ _ Hr).
Qed.


(** An accepted attestation set contains valid attestations of at least
    [threshold] distinct accepted keys. *)
Theorem check_attestations_quorum tx pubkeys threshold :
  check_attestations tx pubkeys threshold = true →
  ∃ signers : gset pubkey_t, signers ⊆ pubkeys ∧ threshold ≤ size signers ∧
    ∀ pk, pk ∈ signers → ∃ sig, compact_verify tx (pk, sig) = true.
Proof.
  intros [Hsz Hall]%check_attestations_true.
  exists (dom (compact_tx.m_attestations tx)). split_and!.
  - intros pk [sig Hl]%elem_of_dom. by apply Hall in Hl as [? _].
  - by rewrite size_dom.
  - intros pk [sig Hl]%elem_of_dom. apply Hall in Hl as [_ ?]. eauto.
Qed.

(** Attestations signed by [threshold] distinct accepted sentinels and
    collected one by one satisfy [check_attestations]. *)
Theorem collected_attestations_accepted tx keys atts pubkeys threshold :
  compact_tx.m_attestations tx = ∅ →
  Forall2 (λ key att, compact_sign tx key = Ret att) keys atts →
  Forall (λ att, att.1 ∈ pubkeys) atts → NoDup atts.*1 →
  threshold ≤ length keys →
  check_attestations (foldl compact_tx.add_attestation tx atts) pubkeys
    threshold = true.
Proof.
  intros Hempty Hsign Hin Hnd Hth. apply check_attestations_true. split.
  - rewrite <- size_dom, add_attestations_dom, Hempty, dom_empty_L,
      (left_id_L ∅ (∪)), size_list_to_set by done.
    rewrite length_fmap. by rewrite <- (Forall2_length _ _ _ Hsign).
  - destruct (add_attestations_with tx atts) as [m Hm].
    eapply map_Forall_impl;
      [apply (add_attestations_Forall (λ pk sig, pk ∈ pubkeys ∧
         compact_verify tx (pk, sig) = true) tx atts)|].
    + rewrite Hempty. apply map_Forall_empty.
    + apply Forall_lookup. intros i [pk sig] Hl. simpl.
      split; [by apply (Forall_lookup_1 _ _ _ _ Hin) in Hl|].
      destruct (Forall2_lookup_r _ _ _ _ _ Hsign Hl) as (key & _ & Hs).
      unfold compact_sign in Hs. destruct (keypair_create key); simplify_eq.
      unfold compact_verify; simpl. rewrite xonly_parse_serialize.
      apply schnorrsig_correct.
    + intros pk sig [? Hv]. split; [done|]. by rewrite Hm, compact_verify_with.
Qed.

End ValidationTheorems.

Section ValidationWitnesses.
Import Toy.

(** One output of 10 split into 4 and 6, signed with the all-zero key. *)
Definition unsigned_tx : full_tx.t :=
  full_tx.mk
    [input.mk (out_point.mk (zeros hash_size) 3)
       (output.mk (get_p2pk_witness_commitment (zeros 32)) 10)]
    [output.mk (zeros hash_size) 4; output.mk (zeros hash_size) 6]
    [].

Definition signed_tx : full_tx.t :=
  full_tx.mk (full_tx.m_inputs unsigned_tx) (full_tx.m_outputs unsigned_tx)
    [p2pk :: zeros 32 ++ zeros 32 ++ tx_id unsigned_tx].

Lemma signed_tx_u64 : u64_values signed_tx.
Proof. by split; repeat constructor. Qed.

Lemma check_tx_iff_valid_witness : check_tx signed_tx = Ret None ∧ valid_tx signed_tx.
Proof.
  assert (check_tx signed_tx = Ret None) as E by (vm_compute; reflexivity).
  split; [exact E|]. by apply (check_tx_iff_valid signed_tx signed_tx_u64).
Defined.

Lemma unsigned_tx_invalid : ¬ valid_tx unsigned_tx.
Proof. intros [_ _ _ _ _ _ _ Hw]. by apply Forall2_length in Hw. Qed.


Definition toy_atts : list (pubkey_t * signature_t) :=
  [(zeros 32, zeros 32 ++ compact_hash (compact signed_tx));
   (replicate 32 x01, replicate 32 x01 ++ compact_hash (compact signed_tx))].

Definition toy_keys : gset pubkey_t := {[ zeros 32; replicate 32 x01 ]}.

Lemma collected_attestations_accepted_witness :
  check_attestations (foldl compact_tx.add_attestation (compact signed_tx)
    toy_atts) toy_keys 2 = true.
Proof.
  apply (collected_attestations_accepted _ [zeros 32; replicate 32 x01]).
  - reflexivity.
  - repeat constructor; vm_compute; reflexivity.
  - unfold toy_atts, toy_keys. repeat constructor; simpl; set_solver.
  - unfold toy_atts. simpl. repeat constructor; set_solver.
  - simpl; lia.
Defined.

Lemma check_attestations_quorum_witness :
  ∃ signers : gset pubkey_t, signers ⊆ toy_keys ∧ 2 ≤ size signers ∧
    ∀ pk, pk ∈ signers → ∃ sig,
      compact_verify (foldl compact_tx.add_attestation (compact signed_tx)
        toy_atts) (pk, sig) = true.
Proof. apply check_attestations_quorum. vm_compute. reflexivity. Defined.

End ValidationWitnesses.
