(* ===== verification/Wallet.v ===== *)
(** * Wallet

    Model of [src/uhs/transaction/wallet.{hpp,cpp}]: the keys and coins of a
    user, building and signing payments, and crediting what was confirmed.
    Random choices are arguments: the secret key a call to [generate_key]
    draws and the index it shuffles to. *)

From Stdlib Require Import ZArith Lia.
From Stdlib.Strings Require Import Byte.
From stdpp Require Import base tactics numbers gmap sets list.
From S2P Require Import Prelude Serialization Crypto Transaction Validation.
Open Scope cbdc_scope.

Record randomness := { rnd_seckey : privkey_t; rnd_index : nat }.

Definition max_keys : nat := 10000.

Module wallet.

(** [m_utxos_set] compares inputs by their outpoint. *)
Record t := mk {
  m_balance : Z;
  m_utxos_set : gmap out_point.t input.t;
  m_spend_queue : list input.t;
  m_seed_from : Z;
  m_seed_to : Z;
  m_seed_value : Z;
  m_seed_witness_commitment : hash_t;
  m_keys : gmap pubkey_t privkey_t;
  m_pubkeys : list pubkey_t;
  m_witness_programs : gmap hash_t pubkey_t
}.

Definition init : t := mk 0 ∅ [] 0 0 0 (zeros hash_size) ∅ [] ∅.

Definition set_coins (w : t) (balance : Z) (utxos : gmap out_point.t input.t)
    (queue : list input.t) : t :=
  mk balance utxos queue (m_seed_from w) (m_seed_to w) (m_seed_value w)
    (m_seed_witness_commitment w) (m_keys w) (m_pubkeys w) (m_witness_programs w).

Definition set_seed_from (w : t) (from : Z) : t :=
  mk (m_balance w) (m_utxos_set w) (m_spend_queue w) from (m_seed_to w)
    (m_seed_value w) (m_seed_witness_commitment w) (m_keys w) (m_pubkeys w)
    (m_witness_programs w).

Definition value (i : input.t) : Z := output.m_value (input.m_prevout_data i).

Definition commitment (i : input.t) : hash_t :=
  output.m_witness_program_commitment (input.m_prevout_data i).

Section Ops.
Context `{Hasher} `{Secp256k1}.

(** ** Keys *)

Definition add_key (w : t) (pubkey : pubkey_t) (seckey : privkey_t) : t :=
  mk (m_balance w) (m_utxos_set w) (m_spend_queue w) (m_seed_from w)
    (m_seed_to w) (m_seed_value w) (m_seed_witness_commitment w)
    (insert_new pubkey seckey (m_keys w)) (m_pubkeys w ++ [pubkey])
    (insert_new (get_p2pk_witness_commitment pubkey) pubkey
       (m_witness_programs w)).

Definition generate_key (w : t) (rnd : randomness) : outcome (t * pubkey_t) :=
  if decide (max_keys < size (m_keys w)) then
    let! pubkey := at_index (m_pubkeys w) (rnd_index rnd mod size (m_keys w)) in
    Ret (w, pubkey)
  else
    let! ret := pubkey_from_privkey (rnd_seckey rnd) in
    Ret (add_key w ret (rnd_seckey rnd), ret).

(** [mint_new_coins]: one output per random choice. *)
Fixpoint mint_outputs (w : t) (rnds : list randomness) (output_val : Z)
    : outcome (t * list output.t) :=
  match rnds with
  | [] => Ret (w, [])
  | rnd :: rnds =>
      let! '(w1, pubkey) := generate_key w rnd in
      let! '(w2, outs) := mint_outputs w1 rnds output_val in
      Ret (w2, output.mk (get_p2pk_witness_commitment pubkey) output_val :: outs)
  end.

Definition mint_new_coins (w : t) (rnds : list randomness) (output_val : Z)
    : outcome (t * full_tx.t) :=
  let! '(w', outs) := mint_outputs w rnds output_val in
  Ret (w', full_tx.mk [] outs []).

(** ** Signing *)

(** The witness of one input; an input that is not ours keeps what is
    there. *)
Definition sign_input (w : t) (sighash : hash_t) (i : input.t) (wit : list byte)
    : outcome (list byte) :=
  match m_witness_programs w !! commitment i with
  | None => Ret wit
  | Some pubkey =>
      match m_keys w !! pubkey with
      | None => Fatal
      | Some seckey =>
          match keypair_create seckey with
          | None => Fatal
          | Some kp => Ret (p2pk :: pubkey ++ schnorrsig_sign sighash kp)
          end
      end
  end.

Fixpoint sign_inputs (w : t) (sighash : hash_t) (inputs : list input.t)
    (wits : list (list byte)) : outcome (list (list byte)) :=
  match inputs, wits with
  | i :: inputs, wit :: wits =>
      let! wit' := sign_input w sighash i wit in
      let! wits' := sign_inputs w sighash inputs wits in
      Ret (wit' :: wits')
  | _, _ => Ret []
  end.

Definition sign (w : t) (tx : full_tx.t) : outcome full_tx.t :=
  let sighash := tx_id tx in
  let! wits :=
    sign_inputs w sighash (full_tx.m_inputs tx)
      (resize (length (full_tx.m_inputs tx)) [] (full_tx.m_witness tx)) in
  Ret (full_tx.mk (full_tx.m_inputs tx) (full_tx.m_outputs tx) wits).

Definition maybe_sign (w : t) (sign_tx : bool) (tx : full_tx.t)
    : outcome full_tx.t :=
  if sign_tx then sign w tx else Ret tx.

Definition is_spendable (w : t) (i : input.t) : bool :=
  bool_decide (is_Some (m_witness_programs w !! commitment i)).

(** ** Pre-seeded coins *)

Definition create_seeded_transaction (w : t) (seed_idx : Z) : option full_tx.t :=
  if (m_seed_from w =? m_seed_to w)%Z then None else
  Some (full_tx.mk
    [input.mk (out_point.mk (zeros hash_size) seed_idx)
       (output.mk (zeros hash_size) (m_seed_value w))]
    [output.mk (m_seed_witness_commitment w) (m_seed_value w)] []).

Definition create_seeded_input (w : t) (seed_idx : Z) : option input.t :=
  match create_seeded_transaction w seed_idx with
  | Some tx => input_from_output_with tx 0 (tx_id tx)
  | None => None
  end.

Definition seed_readonly (w : t) (witness_commitment : hash_t) (val : Z)
    (begin_seed end_seed : Z) : t :=
  mk (m_balance w) (m_utxos_set w) (m_spend_queue w) begin_seed end_seed val
    witness_commitment (m_keys w) (m_pubkeys w) (m_witness_programs w).

Definition seed (w : t) (privkey : privkey_t) (val begin_seed end_seed : Z)
    : outcome (t * bool) :=
  if (end_seed <=? begin_seed)%Z then Ret (w, false) else
  let! pubkey := pubkey_from_privkey privkey in
  if negb (bool_decide (m_keys w = ∅)) then Ret (w, false) else
  Ret (seed_readonly (add_key w pubkey privkey)
         (get_p2pk_witness_commitment pubkey) val begin_seed end_seed, true).

(** ** Selecting coins *)

(** The loop over pre-seeded coins; [n] is how many are left, [more] the
    second half of the loop condition, on the number of inputs and the total
    so far. *)
Fixpoint take_seeds (more : nat → Z → bool) (w : t) (n taken : nat) (total : Z)
    : t * list input.t * Z :=
  match n with
  | O => (w, [], total)
  | S n =>
      if more taken total then
        match create_seeded_input w (m_seed_from w) with
        | None => (w, [], total)
        | Some seed_utxo =>
            let '(w', l, total') :=
              take_seeds more (set_seed_from w (add64 (m_seed_from w) 1)) n
                (S taken) (add64 total (m_seed_value w)) in
            (w', seed_utxo :: l, total')
        end
      else (w, [], total)
  end.

Definition seeds_left (w : t) : nat :=
  Z.to_nat (sub64 (m_seed_to w) (m_seed_from w)).

(** The loop over the spend queue. *)
Fixpoint take_queue (more : nat → Z → bool) (queue : list input.t) (taken : nat)
    (total : Z) : list input.t * Z :=
  match queue with
  | [] => ([], total)
  | utxo :: queue =>
      if more taken total then
        let (l, total') :=
          take_queue more queue (S taken) (add64 total (value utxo)) in
        (utxo :: l, total')
      else ([], total)
  end.

(** Removing the first [n] coins of the queue; the front of an empty queue is
    undefined. *)
Fixpoint remove_front (w : t) (n : nat) : outcome t :=
  match n with
  | O => Ret w
  | S n =>
      match m_spend_queue w with
      | [] => Fatal
      | u :: queue =>
          remove_front
            (set_coins w (sub64 (m_balance w) (value u))
               (delete (input.m_prevout u) (m_utxos_set w)) queue) n
      end
  end.

Definition accumulate_inputs (w : t) (amount : Z)
    : outcome (t * option (full_tx.t * Z)) :=
  let more (_ : nat) (total : Z) := (total <? amount)%Z in
  let '(w1, seeds, total1) := take_seeds more w (seeds_left w) 0 0 in
  let (coins, total) :=
    take_queue more (m_spend_queue w1) (length seeds) total1 in
  if (total <? amount)%Z then
    Ret (set_seed_from w1
           (sub64 (m_seed_from w1) (Z.of_nat (length seeds))), None)
  else
    let! w2 := remove_front w1 (length coins) in
    Ret (w2, Some (full_tx.mk (seeds ++ coins) []
           (replicate (length (seeds ++ coins)) (zeros sig_len)), total)).

(** ** Payments *)

Definition add_outputs (tx : full_tx.t) (outs : list output.t) : full_tx.t :=
  full_tx.mk (full_tx.m_inputs tx) (full_tx.m_outputs tx ++ outs)
    (full_tx.m_witness tx).

(** The change output, to a new key, when there is any. *)
Definition change (w : t) (total amount : Z) (rnd : randomness)
    : outcome (t * list output.t) :=
  if (amount <? total)%Z then
    let! '(w', pubkey) := generate_key w rnd in
    Ret (w', [output.mk (get_p2pk_witness_commitment pubkey) (sub64 total amount)])
  else Ret (w, []).

Definition send_to (w : t) (amount : Z) (payee : pubkey_t) (sign_tx : bool)
    (rnd : randomness) : outcome (t * option full_tx.t) :=
  let! '(w1, maybe_tx) := accumulate_inputs w amount in
  match maybe_tx with
  | None => Ret (w1, None)
  | Some (ret, total_amount) =>
      let destination_out := output.mk (get_p2pk_witness_commitment payee) amount in
      let! '(w2, change_out) := change w1 total_amount amount rnd in
      let! tx := maybe_sign w2 sign_tx (add_outputs ret (destination_out :: change_out)) in
      Ret (w2, Some tx)
  end.

(** [fan]: [output_count] outputs of [value] each; the change comes first. *)
Definition fan (w : t) (output_count : nat) (val : Z) (payee : pubkey_t)
    (sign_tx : bool) (rnd : randomness) : outcome (t * option full_tx.t) :=
  let amount := mul64 (Z.of_nat output_count) val in
  let! '(w1, maybe_tx) := accumulate_inputs w amount in
  match maybe_tx with
  | None => Ret (w1, None)
  | Some (ret, total_amount) =>
      let! '(w2, change_out) := change w1 total_amount amount rnd in
      let destination_out := output.mk (get_p2pk_witness_commitment payee) val in
      let! tx := maybe_sign w2 sign_tx
        (add_outputs ret (change_out ++ replicate output_count destination_out)) in
      Ret (w2, Some tx)
  end.

(** The outputs of the counting [send_to]: equal shares, the last one takes
    what is left; the second component is what remains at the end. *)
Fixpoint split_outputs (wit_comm : hash_t) (output_val : Z) (n : nat) (total : Z)
    : list output.t * Z :=
  match n with
  | O => ([], total)
  | S n =>
      let v := match n with O => total | _ => output_val end in
      let (l, rest) := split_outputs wit_comm output_val n (sub64 total v) in
      (output.mk wit_comm v :: l, rest)
  end.

(** [send_to(input_count, output_count, ...)]. *)
Definition send_to_count (w : t) (input_count output_count : nat)
    (payee : pubkey_t) (sign_tx : bool) : outcome (t * option full_tx.t) :=
  if decide (input_count = 0 ∨ output_count = 0) then Fatal else
  if (sub64 (add64 (Z.of_nat (size (m_utxos_set w))) (m_seed_to w)) (m_seed_from w)
        <? Z.of_nat input_count)%Z then Ret (w, None) else
  let more (taken : nat) (_ : Z) := bool_decide (taken < input_count) in
  let '(w1, seeds, total1) := take_seeds more w (seeds_left w) 0 0 in
  let (coins, total) :=
    take_queue more (m_spend_queue w1) (length seeds) total1 in
  let output_val := (total / Z.of_nat output_count)%Z in
  if (output_val =? 0)%Z && bool_decide (1 < output_count) then
    Ret (set_seed_from w1
           (sub64 (m_seed_from w1) (Z.of_nat (length seeds))), None)
  else
    let! w2 := remove_front w1 (length coins) in
    let (outs, rest) :=
      split_outputs (get_p2pk_witness_commitment payee) output_val output_count
        total in
    if (rest =? 0)%Z then
      let! tx := maybe_sign w2 sign_tx
        (full_tx.mk (seeds ++ coins) outs
           (replicate (length seeds) (zeros sig_len))) in
      Ret (w2, Some tx)
    else Fatal.

(** [export_send_inputs]: the inputs the payee can spend. *)
Definition export_send_inputs (send_tx : full_tx.t) (payee : pubkey_t)
    : list input.t :=
  let wit_comm := get_p2pk_witness_commitment payee in
  omap (λ p, if decide (output.m_witness_program_commitment p.2 = wit_comm)
             then input_from_output send_tx p.1 else None)
    (imap pair (full_tx.m_outputs send_tx)).

(** ** Confirmation *)

Definition credit (w : t) (inp : input.t) : t :=
  match m_utxos_set w !! input.m_prevout inp with
  | Some _ => w
  | None =>
      set_coins w (add64 (m_balance w) (value inp))
        (<[ input.m_prevout inp := inp ]> (m_utxos_set w))
        (m_spend_queue w ++ [inp])
  end.

(** The coin goes from the set; the spend queue is left as it is. *)
Definition debit (w : t) (inp : input.t) : t :=
  match m_utxos_set w !! input.m_prevout inp with
  | None => w
  | Some _ =>
      set_coins w (sub64 (m_balance w) (value inp))
        (delete (input.m_prevout inp) (m_utxos_set w)) (m_spend_queue w)
  end.

Definition update_balance (w : t) (credits debits : list input.t) : outcome t :=
  let w' := foldl debit (foldl credit w credits) debits in
  if decide (length (m_spend_queue w') = size (m_utxos_set w'))
  then Ret w' else Fatal.

(** The outputs of [tx] to one of our keys, as spendable inputs. *)
Definition new_utxos (w : t) (tx : full_tx.t) : list input.t :=
  omap (λ p, match m_witness_programs w !! output.m_witness_program_commitment p.2
             with
             | Some _ => input_from_output_with tx p.1 (tx_id tx)
             | None => None
             end) (imap pair (full_tx.m_outputs tx)).

Definition confirm_transaction (w : t) (tx : full_tx.t) : outcome t :=
  update_balance w (new_utxos w tx) (full_tx.m_inputs tx).

Definition confirm_inputs (w : t) (credits : list input.t) : outcome t :=
  update_balance w credits [].

(** ** Queries *)

Definition balance (w : t) : Z :=
  if (m_seed_from w =? m_seed_to w)%Z then m_balance w
  else add64 (m_balance w)
         (mul64 (sub64 (m_seed_to w) (m_seed_from w)) (m_seed_value w)).

Definition count (w : t) : Z :=
  if (m_seed_from w =? m_seed_to w)%Z then Z.of_nat (size (m_utxos_set w))
  else add64 (Z.of_nat (size (m_utxos_set w)))
         (sub64 (m_seed_to w) (m_seed_from w)).

End Ops.
End wallet.

(** ** The wallet invariant *)

Module wallet_lemmas.
Import wallet.

Ltac wallet_cbn :=
  cbn [m_balance m_utxos_set m_spend_queue m_seed_from m_seed_to m_seed_value
    m_seed_witness_commitment m_keys m_pubkeys m_witness_programs set_coins
    set_seed_from add_key seed_readonly].
Tactic Notation "wallet_cbn" "in" "*" :=
  cbn [m_balance m_utxos_set m_spend_queue m_seed_from m_seed_to m_seed_value
    m_seed_witness_commitment m_keys m_pubkeys m_witness_programs set_coins
    set_seed_from add_key seed_readonly] in *.

Definition coin_map (queue : list input.t) : gmap out_point.t input.t :=
  list_to_map ((λ i, (input.m_prevout i, i)) <$> queue).

(** The coin set, the spend queue and the balance agree. *)
Record coins_ok (w : t) : Prop := {
  co_nodup : NoDup (input.m_prevout <$> m_spend_queue w);
  co_set : m_utxos_set w = coin_map (m_spend_queue w);
  co_balance : m_balance w = u64 (sum_list_Z (value <$> m_spend_queue w))
}.

Lemma coin_map_keys (queue : list input.t) :
  ((λ i, (input.m_prevout i, i)) <$> queue).*1 = input.m_prevout <$> queue.
Proof. rewrite <- list_fmap_compose. by apply list_fmap_ext. Qed.

Lemma coin_map_lookup_None queue p :
  coin_map queue !! p = None ↔ p ∉ input.m_prevout <$> queue.
Proof.
  unfold coin_map. rewrite <- (coin_map_keys queue). split.
  - apply not_elem_of_list_to_map_2.
  - apply not_elem_of_list_to_map_1.
Qed.

Lemma coin_map_size queue :
  NoDup (input.m_prevout <$> queue) → size (coin_map queue) = length queue.
Proof.
  intros Hnd. unfold coin_map. rewrite map_size_list_to_map.
  - by rewrite length_fmap.
  - by rewrite coin_map_keys.
Qed.

Lemma coin_map_snoc queue i :
  input.m_prevout i ∉ input.m_prevout <$> queue →
  coin_map (queue ++ [i]) = <[ input.m_prevout i := i ]> (coin_map queue).
Proof.
  intros Hn. unfold coin_map. rewrite fmap_app. csimpl.
  apply list_to_map_snoc. by rewrite coin_map_keys.
Qed.

Lemma sum_list_Z_snoc l v : sum_list_Z (l ++ [v]) = (sum_list_Z l + v)%Z.
Proof. rewrite sum_list_Z_app. simpl. lia. Qed.

Lemma u64_add_l a b : add64 (u64 a) b = u64 (a + b).
Proof. unfold add64, u64. apply Z.add_mod_idemp_l. lia. Qed.

Lemma u64_sub_l a b : sub64 (u64 a) b = u64 (a - b).
Proof. unfold sub64, u64. apply Zminus_mod_idemp_l. Qed.

(** *** Crediting and debiting *)

Lemma credit_ok w i : coins_ok w → coins_ok (credit w i).
Proof.
  intros [Hn Hs Hb]. unfold credit.
  destruct (m_utxos_set w !! input.m_prevout i) eqn:E; [done|].
  rewrite Hs in E. apply coin_map_lookup_None in E.
  constructor; wallet_cbn.
  - rewrite fmap_app. apply NoDup_app. csimpl. split_and!; [done| |].
    + intros p Hp ->%list_elem_of_singleton. done.
    + apply NoDup_singleton.
  - by rewrite coin_map_snoc, Hs.
  - rewrite Hb, fmap_app. csimpl. by rewrite sum_list_Z_snoc, u64_add_l.
Qed.

Lemma credits_ok w l : coins_ok w → coins_ok (foldl credit w l).
Proof. revert w. induction l; simpl; eauto using credit_ok. Qed.

Lemma debit_size w i :
  size (m_utxos_set (debit w i)) ≤ size (m_utxos_set w) ∧
  m_spend_queue (debit w i) = m_spend_queue w ∧
  (size (m_utxos_set (debit w i)) = size (m_utxos_set w) → debit w i = w).
Proof.
  unfold debit. destruct (m_utxos_set w !! input.m_prevout i) eqn:E; wallet_cbn; [|done].
  rewrite map_size_delete_Some by eauto.
  assert (size (m_utxos_set w) ≠ 0).
  { intros Hz. apply map_size_empty_iff in Hz. by rewrite Hz, lookup_empty in E. }
  split_and!; [lia|done|lia].
Qed.

(** Debits either find nothing or make the set smaller than the queue. *)
Lemma debits_size l : ∀ w,
  size (m_utxos_set (foldl debit w l)) ≤ size (m_utxos_set w) ∧
  m_spend_queue (foldl debit w l) = m_spend_queue w ∧
  (size (m_utxos_set (foldl debit w l)) = size (m_utxos_set w) →
   foldl debit w l = w).
Proof.
  induction l as [|i l IH]; intros w; simpl; [done|].
  destruct (debit_size w i) as (H1 & H2 & H3). destruct (IH (debit w i)) as (H4 & H5 & H6).
  split_and!; [lia|congruence|]. intros E.
  rewrite H6 by lia. apply H3. lia.
Qed.

Lemma coins_ok_size w : coins_ok w → length (m_spend_queue w) = size (m_utxos_set w).
Proof. intros [Hn -> _]. by rewrite coin_map_size. Qed.

(** [update_balance] never lets a held coin be debited. *)
Lemma update_balance_ok w credits debits w' :
  coins_ok w → update_balance w credits debits = Ret w' →
  w' = foldl credit w credits ∧ coins_ok w'.
Proof.
  intros Hw. unfold update_balance. case_decide as Hsz; [|done]. intros [= <-].
  pose proof (credits_ok w credits Hw) as Hc.
  destruct (debits_size debits (foldl credit w credits)) as (_ & Hq & Hd).
  rewrite Hq, (coins_ok_size _ Hc) in Hsz. rewrite Hd by done. done.
Qed.

(** Debits of coins that are not held change nothing. *)
Lemma debits_not_held l : ∀ w,
  Forall (λ i, m_utxos_set w !! input.m_prevout i = None) l → foldl debit w l = w.
Proof.
  induction l as [|i l IH]; intros w Hl; [done|]. inversion_clear Hl as [|?? Hi Hl'].
  simpl. unfold debit at 2. rewrite Hi. by apply IH.
Qed.

Lemma debits_remove l : ∀ w i,
  i ∈ l → m_utxos_set (foldl debit w l) !! input.m_prevout i = None.
Proof.
  assert (∀ l w p, m_utxos_set w !! p = None →
    m_utxos_set (foldl debit w l) !! p = None) as Hkeep.
  { clear. induction l as [|j l IH]; intros w p Hp; [done|]. simpl. apply IH.
    unfold debit. case_match; [|done]. wallet_cbn. apply lookup_delete_None. auto. }
  induction l as [|j l IH]; intros w i Hi; [by apply elem_of_nil in Hi|].
  simpl. apply elem_of_cons in Hi as [->|Hi]; [|by apply IH].
  apply Hkeep. unfold debit. case_match; [|done]. wallet_cbn.
  apply lookup_delete_eq.
Qed.

(** *** Taking coins from the queue *)

Lemma take_queue_spec more queue : ∀ taken total coins total',
  Forall (λ i, is_u64 (value i)) queue →
  (0 ≤ total)%Z → (total + sum_list_Z (value <$> queue) < 2 ^ 64)%Z →
  take_queue more queue taken total = (coins, total') →
  ∃ rest, queue = coins ++ rest ∧
    total' = (total + sum_list_Z (value <$> coins))%Z ∧
    (rest = [] ∨ more (taken + length coins) total' = false).
Proof.
  induction queue as [|u queue IH]; intros taken total coins total' Hu H0 Hlt E;
    simpl in E.
  { simplify_eq. exists []. split_and!; [done|simpl; lia|by left]. }
  inversion_clear Hu as [|?? Hv Hq]. csimpl in Hlt. unfold is_u64 in Hv.
  assert (0 ≤ sum_list_Z (value <$> queue))%Z.
  { apply sum_list_Z_nonneg, Forall_fmap. eapply Forall_impl; [exact Hq|].
    simpl. unfold is_u64. lia. }
  destruct (more taken total) eqn:Em.
  2:{ simplify_eq. exists (u :: queue). rewrite Nat.add_0_r. simpl.
      split_and!; [done|lia|by right]. }
  destruct (take_queue more queue (S taken) _) as [l t'] eqn:Eq. simplify_eq.
  rewrite add64_exact in Eq by (unfold is_u64; lia).
  apply IH in Eq as (rest & -> & -> & Hr); [|done|lia|lia].
  exists rest. split_and!; [done|csimpl; lia|].
  destruct Hr as [?|Hr]; [by left|right]. csimpl. rewrite Nat.add_succ_r. done.
Qed.

Lemma remove_front_spec coins : ∀ w rest,
  coins_ok w → m_spend_queue w = coins ++ rest →
  ∃ w', remove_front w (length coins) = Ret w' ∧ coins_ok w' ∧
    w' = set_coins w (m_balance w') (coin_map rest) rest.
Proof.
  induction coins as [|u coins IH]; intros w rest [Hn Hs Hb] Hq; simpl in *.
  { exists w. rewrite <- Hq. split_and!; [done|done|]. rewrite <- Hs.
    by destruct w. }
  rewrite Hq in *. csimpl in Hn. apply NoDup_cons in Hn as [Hu Hn].
  destruct (IH (set_coins w (sub64 (m_balance w) (value u))
    (delete (input.m_prevout u) (m_utxos_set w)) (coins ++ rest)) rest)
    as (w' & E & Hok & Hw'); [|done|].
  { constructor; wallet_cbn; [done| |].
    - rewrite Hs. unfold coin_map. csimpl. apply delete_insert_id.
      by apply coin_map_lookup_None.
    - rewrite Hb. csimpl. rewrite u64_sub_l. f_equal. lia. }
  exists w'. split_and!; [done|done|]. by rewrite Hw'.
Qed.

(** *** Pre-seeded coins *)

Section Seeds.
Context `{Hasher} `{Secp256k1}.

Record seeds_ok (w : t) : Prop := {
  so_from : is_u64 (m_seed_from w);
  so_to : is_u64 (m_seed_to w);
  so_value : is_u32 (m_seed_value w)
}.

Lemma seeds_left_S w n :
  seeds_left w = S n →
  m_seed_from w ≠ m_seed_to w ∧
  seeds_left (set_seed_from w (add64 (m_seed_from w) 1)) = n.
Proof.
  unfold seeds_left. wallet_cbn. intros E. split.
  - intros Heq. rewrite Heq in E. unfold sub64 in E. by rewrite Z.sub_diag in E.
  - unfold sub64, add64, u64 in *. rewrite Zminus_mod_idemp_r.
    set (d := (m_seed_to w - m_seed_from w)%Z) in *.
    replace (m_seed_to w - (m_seed_from w + 1))%Z with (d - 1)%Z by lia.
    pose proof (Z.mod_pos_bound d (2 ^ 64) ltac:(lia)).
    replace ((d - 1) `mod` 2 ^ 64)%Z with (Z.of_nat n); [lia|].
    apply Z.mod_unique with (d / 2 ^ 64)%Z; [left; lia|].
    pose proof (Z.div_mod d (2 ^ 64) ltac:(lia)). lia.
Qed.

Lemma create_seeded_input_Some w idx :
  m_seed_from w ≠ m_seed_to w →
  ∃ i, create_seeded_input w idx = Some i ∧ value i = m_seed_value w ∧
    commitment i = m_seed_witness_commitment w.
Proof.
  intros Hne. unfold create_seeded_input, create_seeded_transaction.
  rewrite (proj2 (Z.eqb_neq _ _) Hne). eexists. split; [reflexivity|]. done.
Qed.

Lemma take_seeds_spec more n : ∀ w taken total w' l total',
  seeds_ok w → seeds_left w = n → (0 ≤ total)%Z →
  (total + Z.of_nat n * m_seed_value w < 2 ^ 64)%Z →
  take_seeds more w n taken total = (w', l, total') →
  w' = set_seed_from w (add64 (m_seed_from w) (Z.of_nat (length l))) ∧
  total' = (total + Z.of_nat (length l) * m_seed_value w)%Z ∧ length l ≤ n ∧
  Forall (λ i, value i = m_seed_value w ∧
    commitment i = m_seed_witness_commitment w) l ∧
  (length l = n ∨ more (taken + length l) total' = false).
Proof.
  induction n as [|n IH]; intros w taken total w' l total' [Hf Ht Hv] Hn Hz Hlt E;
    simpl in E.
  { simplify_eq. simpl. split_and!; [|lia|lia|constructor|by left].
    rewrite add64_exact by (by rewrite Z.add_0_r). rewrite Z.add_0_r. by destruct w'. }
  unfold is_u32 in Hv. destruct (more taken total) eqn:Em.
  2:{ simplify_eq. simpl. rewrite Nat.add_0_r.
      split_and!; [|lia|lia|constructor|by right].
      rewrite add64_exact by (by rewrite Z.add_0_r). rewrite Z.add_0_r.
      by destruct w'. }
  destruct (seeds_left_S w n Hn) as [Hne Hn'].
  destruct (create_seeded_input_Some w (m_seed_from w) Hne) as (i & Ei & Hi).
  rewrite Ei in E.
  destruct (take_seeds more _ n (S taken) _) as [[w1 l1] t1] eqn:E1. injection E as <- <- <-.
  assert (0 ≤ Z.of_nat n * m_seed_value w)%Z by lia.
  rewrite Nat2Z.inj_succ, Z.mul_succ_l in Hlt.
  rewrite (add64_exact total) in E1 by (unfold is_u64; lia).
  apply IH in E1 as (-> & -> & Hle & Hall & Hstop);
    [|constructor; wallet_cbn; [apply add64_range|done|done]|done|lia
     |wallet_cbn; lia].
  wallet_cbn in *. simpl length. split_and!.
  - change (add64 (m_seed_from w) 1) with (u64 (m_seed_from w + 1)).
    rewrite u64_add_l. unfold add64, set_seed_from. wallet_cbn. do 2 f_equal. lia.
  - lia.
  - lia.
  - constructor; [done|exact Hall].
  - destruct Hstop as [?|Hs]; [left; lia|right]. by rewrite Nat.add_succ_r.
Qed.

End Seeds.

(** *** Keys and signatures *)

Section Keys.
Context `{Hasher} `{Secp256k1} `{!Secp256k1Laws}.

(** Every witness program is the commitment to a public key whose secret key
    is held. *)
Record keys_ok (w : t) : Prop := {
  ko_programs c pk : m_witness_programs w !! c = Some pk →
    c = get_p2pk_witness_commitment pk ∧
    ∃ sk kp, m_keys w !! pk = Some sk ∧ keypair_create sk = Some kp ∧
      pk = xonly_pubkey_serialize (keypair_xonly_pub kp);
  ko_valid pk sk : m_keys w !! pk = Some sk →
    ∃ kp, keypair_create sk = Some kp ∧
      pk = xonly_pubkey_serialize (keypair_xonly_pub kp);
  ko_pubkeys : size (m_keys w) ≤ length (m_pubkeys w)
}.

(** The operation only added keys. *)
Record keys_grow (w w' : t) : Prop := {
  kg_from : m_seed_from w' = m_seed_from w;
  kg_to : m_seed_to w' = m_seed_to w;
  kg_value : m_seed_value w' = m_seed_value w;
  kg_balance : m_balance w' = m_balance w;
  kg_set : m_utxos_set w' = m_utxos_set w;
  kg_queue : m_spend_queue w' = m_spend_queue w;
  kg_programs c pk : m_witness_programs w !! c = Some pk →
    m_witness_programs w' !! c = Some pk
}.

Lemma keys_grow_refl w : keys_grow w w.
Proof. by constructor. Qed.

Lemma add_key_ok w sk kp :
  keys_ok w → keypair_create sk = Some kp →
  let pk := xonly_pubkey_serialize (keypair_xonly_pub kp) in
  keys_ok (add_key w pk sk) ∧ keys_grow w (add_key w pk sk).
Proof.
  intros [Hp Hv Hs] Hkp pk. split; [constructor|constructor]; wallet_cbn; try done.
  - intros c pk' [Hc|(-> & -> & _)]%insert_new_lookup.
    + destruct (Hp _ _ Hc) as (-> & sk' & kp' & Hsk & ? & ?). split; [done|].
      exists sk', kp'. split_and!; [by apply insert_new_keeps|done|done].
    + split; [done|]. destruct (insert_new_is_Some pk sk (m_keys w)) as [sk' Hsk'].
      exists sk'. apply insert_new_lookup in Hsk' as Hl.
      destruct Hl as [Hl|(_ & -> & _)]; [|by exists kp].
      destruct (Hv _ _ Hl) as (kp' & ? & ?). by exists kp'.
  - intros pk' sk' [Hl|(-> & -> & _)]%insert_new_lookup; [by apply Hv|by exists kp].
  - rewrite length_app. simpl. pose proof (insert_new_size pk sk (m_keys w)). lia.
  - intros c pk' Hc. by apply insert_new_keeps.
Qed.

Lemma generate_key_spec w rnd :
  keys_ok w → is_Some (keypair_create (rnd_seckey rnd)) →
  ∃ w' pk, generate_key w rnd = Ret (w', pk) ∧ keys_ok w' ∧ keys_grow w w'.
Proof.
  intros Hk [kp Hkp]. unfold generate_key. case_decide as Hsz.
  - destruct (lookup_lt_is_Some_2 (m_pubkeys w) (rnd_index rnd mod size (m_keys w)))
      as [pk Hpk].
    { eapply Nat.lt_le_trans; [apply Nat.mod_upper_bound|apply Hk]. lia. }
    rewrite (at_index_some _ _ _ Hpk). simpl. exists w, pk.
    split_and!; [done|done|apply keys_grow_refl].
  - unfold pubkey_from_privkey. rewrite Hkp. simpl. eexists _, _.
    split; [reflexivity|]. by apply add_key_ok.
Qed.

Lemma change_spec w total amount rnd :
  keys_ok w → is_Some (keypair_create (rnd_seckey rnd)) →
  ∃ w' outs, change w total amount rnd = Ret (w', outs) ∧ keys_ok w' ∧
    keys_grow w w' ∧
    output.m_value <$> outs =
      (if (amount <? total)%Z then [sub64 total amount] else []).
Proof.
  intros Hk Hr. unfold change. destruct (amount <? total)%Z.
  - destruct (generate_key_spec w rnd Hk Hr) as (w' & pk & -> & ? & ?). simpl.
    eexists _, _. split_and!; [reflexivity|done|done|done].
  - exists w, []. split_and!; [done|done|apply keys_grow_refl|done].
Qed.

(** What we sign, the validator accepts. *)
Lemma sign_input_ok w sighash i wit :
  keys_ok w →
  ∃ wit', sign_input w sighash i wit = Ret wit' ∧
    (is_spendable w i = true → witness_ok sighash i wit').
Proof.
  intros [Hp _ _]. unfold sign_input, is_spendable.
  destruct (m_witness_programs w !! commitment i) as [pk|] eqn:E.
  2:{ eexists. split; [done|]. intros Hs. bools. by destruct Hs. }
  destruct (Hp _ _ E) as (Hc & sk & kp & -> & -> & ->).
  eexists. split; [done|]. intros _.
  set (pk := xonly_pubkey_serialize (keypair_xonly_pub kp)) in *.
  assert (length pk = pubkey_len) as Hl by apply length_xonly_serialize.
  assert (∀ l, take pubkey_len (pk ++ l) = pk) as Htake.
  { intros l. rewrite <- Hl. apply take_app_length. }
  unfold witness_ok. split_and!.
  - simpl. rewrite length_app, Hl, length_schnorrsig. done.
  - done.
  - change (take p2pk_witness_prog_len (p2pk :: pk ++ schnorrsig_sign sighash kp))
      with (p2pk :: take pubkey_len (pk ++ schnorrsig_sign sighash kp)).
    rewrite Htake. unfold commitment in Hc. rewrite Hc.
    unfold get_p2pk_witness_commitment, hash_data. by rewrite take_ge.
  - exists (keypair_xonly_pub kp).
    change (drop 1 (p2pk :: pk ++ schnorrsig_sign sighash kp))
      with (pk ++ schnorrsig_sign sighash kp). rewrite Htake.
    split; [apply xonly_parse_serialize|].
    change (drop p2pk_witness_prog_len (p2pk :: pk ++ schnorrsig_sign sighash kp))
      with (drop pubkey_len (pk ++ schnorrsig_sign sighash kp)).
    rewrite <- Hl, drop_app_length, take_ge by (by rewrite length_schnorrsig).
    apply schnorrsig_correct.
Qed.

Lemma sign_inputs_ok w sighash inputs : ∀ wits,
  keys_ok w → length wits = length inputs →
  ∃ wits', sign_inputs w sighash inputs wits = Ret wits' ∧
    Forall2 (λ i wit, is_spendable w i = true → witness_ok sighash i wit)
      inputs wits'.
Proof.
  induction inputs as [|i inputs IH]; intros [|wit wits] Hk Hl; try done; simpl.
  { eexists. split; [done|]. constructor. }
  destruct (sign_input_ok w sighash i wit Hk) as (wit' & -> & Hw). simpl.
  destruct (IH wits Hk) as (wits' & -> & Hws); [by injection Hl|]. simpl.
  eexists. split; [done|]. by constructor.
Qed.

Lemma maybe_sign_ok w b tx :
  keys_ok w →
  ∃ tx', maybe_sign w b tx = Ret tx' ∧
    full_tx.m_inputs tx' = full_tx.m_inputs tx ∧
    full_tx.m_outputs tx' = full_tx.m_outputs tx ∧
    (b = true → Forall2 (λ i wit, is_spendable w i = true →
       witness_ok (tx_id tx') i wit) (full_tx.m_inputs tx')
       (full_tx.m_witness tx')).
Proof.
  intros Hk. unfold maybe_sign. destruct b; [|by eexists].
  unfold sign.
  destruct (sign_inputs_ok w (tx_id tx) (full_tx.m_inputs tx)
    (resize (length (full_tx.m_inputs tx)) [] (full_tx.m_witness tx)) Hk)
    as (wits & -> & Hw); [apply length_resize|].
  simpl. eexists. split_and!; [done|done|done|]. intros _. exact Hw.
Qed.

End Keys.

(** *** Selecting and spending *)

Section Spend.
Context `{Hasher} `{Secp256k1} `{!Secp256k1Laws}.

Record wallet_inv (w : t) : Prop := {
  wi_coins : coins_ok w;
  wi_seeds : seeds_ok w;
  wi_keys : keys_ok w;
  wi_values : Forall (λ i, is_u64 (value i)) (m_spend_queue w)
}.

(** What the wallet owns, without wrap-around. *)
Definition wealth (w : t) : Z :=
  (Z.of_nat (seeds_left w) * m_seed_value w +
   sum_list_Z (value <$> m_spend_queue w))%Z.

Lemma seeds_left_add w k :
  k ≤ seeds_left w →
  seeds_left (set_seed_from w (add64 (m_seed_from w) (Z.of_nat k))) =
    seeds_left w - k.
Proof.
  unfold seeds_left. wallet_cbn. unfold sub64, add64, u64.
  rewrite Zminus_mod_idemp_r. intros Hk.
  set (d := (m_seed_to w - m_seed_from w)%Z) in *.
  replace (m_seed_to w - (m_seed_from w + Z.of_nat k))%Z
    with (d - Z.of_nat k)%Z by lia.
  pose proof (Z.mod_pos_bound d (2 ^ 64) ltac:(lia)).
  replace ((d - Z.of_nat k) `mod` 2 ^ 64)%Z with (d `mod` 2 ^ 64 - Z.of_nat k)%Z;
    [lia|].
  apply Z.mod_unique with (d / 2 ^ 64)%Z; [left; lia|].
  pose proof (Z.div_mod d (2 ^ 64) ltac:(lia)). lia.
Qed.

Lemma sum_const (l : list input.t) v :
  Forall (λ i, value i = v) l →
  sum_list_Z (value <$> l) = (Z.of_nat (length l) * v)%Z.
Proof.
  induction 1 as [|i l Hi _ IH]; csimpl; [lia|]. rewrite Hi, IH. lia.
Qed.

Lemma queue_sum_nonneg w : wallet_inv w → (0 ≤ sum_list_Z (value <$> m_spend_queue w))%Z.
Proof.
  intros [_ _ _ Hv]. apply sum_list_Z_nonneg, Forall_fmap.
  eapply Forall_impl; [exact Hv|]. simpl. unfold is_u64. lia.
Qed.

Lemma wealth_nonneg w : wallet_inv w → (0 ≤ wealth w)%Z.
Proof.
  intros Hinv. pose proof (queue_sum_nonneg w Hinv). unfold wealth.
  destruct Hinv as [_ [_ _ Hsv] _ _]. unfold is_u32 in Hsv. lia.
Qed.

(** Both selection loops, for any loop condition. *)
Lemma select_spec more w w1 seeds total1 coins total :
  wallet_inv w → (wealth w < 2 ^ 64)%Z →
  take_seeds more w (seeds_left w) 0 0 = (w1, seeds, total1) →
  take_queue more (m_spend_queue w1) (length seeds) total1 = (coins, total) →
  w1 = set_seed_from w (add64 (m_seed_from w) (Z.of_nat (length seeds))) ∧
  length seeds ≤ seeds_left w ∧
  Forall (λ i, value i = m_seed_value w ∧
    commitment i = m_seed_witness_commitment w) seeds ∧
  total = sum_list_Z (value <$> seeds ++ coins) ∧
  ∃ rest, m_spend_queue w = coins ++ rest ∧
    (more (length (seeds ++ coins)) total = false ∨
     (length seeds = seeds_left w ∧ rest = [])).
Proof.
  intros Hinv Hw E1 E2. pose proof (queue_sum_nonneg w Hinv).
  destruct Hinv as [Hc Hs Hk Hv]. unfold wealth in Hw.
  apply take_seeds_spec in E1 as (-> & -> & Hle & Hall & Hstop);
    [|done|done|lia|lia]. wallet_cbn in *.
  destruct Hs as [_ _ Hsv]. unfold is_u32 in Hsv.
  assert (Z.of_nat (length seeds) * m_seed_value w ≤
    Z.of_nat (seeds_left w) * m_seed_value w)%Z by (apply Z.mul_le_mono_nonneg_r; lia).
  assert (more (length seeds) (0 + Z.of_nat (length seeds) * m_seed_value w)%Z = false →
    coins = []) as Hnil.
  { intros Hm. destruct (m_spend_queue w); simpl in E2; [by simplify_eq|].
    rewrite Hm in E2. by simplify_eq. }
  apply take_queue_spec in E2 as (rest & Hq & -> & Hrest); [|done|lia|lia].
  assert (sum_list_Z (value <$> seeds) =
    Z.of_nat (length seeds) * m_seed_value w)%Z as Hsum.
  { apply sum_const. eapply Forall_impl; [exact Hall|]. by intros i []. }
  split_and!; [done|done|done|rewrite fmap_app, sum_list_Z_app; lia|].
  exists rest. split; [done|].
  destruct Hrest as [->|Hm]; [|left; by rewrite length_app].
  destruct Hstop as [Hn|Hm]; [by right|left].
  rewrite Hnil, !app_nil_r by done. csimpl. rewrite Z.add_0_r. exact Hm.
Qed.

Lemma set_seed_from_inv w f : is_u64 f → wallet_inv w → wallet_inv (set_seed_from w f).
Proof.
  intros Hf [[Hn Hs Hb] [_ Ht Hv] [Hp Hvk Hpk] Hu].
  constructor; [by constructor|by constructor|by constructor|done].
Qed.

Lemma restore_seed_from w k :
  is_u64 (m_seed_from w) →
  set_seed_from (set_seed_from w (add64 (m_seed_from w) k))
    (sub64 (add64 (m_seed_from w) k) k) = w.
Proof. intros Hf. rewrite add64_sub64 by done. by destruct w. Qed.

(** Taking the selected coins out of the wallet. *)
Lemma spend_spec w seeds coins rest :
  wallet_inv w → length seeds ≤ seeds_left w →
  Forall (λ i, value i = m_seed_value w ∧
    commitment i = m_seed_witness_commitment w) seeds →
  m_spend_queue w = coins ++ rest →
  ∃ w', remove_front (set_seed_from w
          (add64 (m_seed_from w) (Z.of_nat (length seeds)))) (length coins) =
        Ret w' ∧
    wallet_inv w' ∧ m_spend_queue w' = rest ∧
    wealth w' = (wealth w - sum_list_Z (value <$> seeds ++ coins))%Z ∧
    m_witness_programs w' = m_witness_programs w.
Proof.
  intros Hinv Hle Hall Hq.
  pose proof (set_seed_from_inv w (add64 (m_seed_from w) (Z.of_nat (length seeds)))
    (add64_range _ _) Hinv) as [Hc Hs Hk Hv].
  destruct (remove_front_spec coins _ rest Hc Hq) as (w' & E & Hok & Hw').
  exists w'. split; [exact E|].
  assert (m_spend_queue w' = rest) as Hq' by (by rewrite Hw').
  assert (seeds_left w' = seeds_left w - length seeds) as Hleft.
  { rewrite Hw'. by rewrite <- (seeds_left_add w (length seeds)). }
  assert (m_seed_value w' = m_seed_value w) as Hval by (by rewrite Hw').
  split_and!.
  - destruct Hs as [Hf Ht Hsv], Hk as [Hp Hvk Hpk]. constructor; [done| | |].
    + rewrite Hw'. by constructor.
    + rewrite Hw'. by constructor.
    + rewrite Hq'. wallet_cbn in *. rewrite Hq in Hv.
      by apply Forall_app in Hv as [_ ?].
  - done.
  - unfold wealth. rewrite Hleft, Hval, Hq', Hq, !fmap_app, !sum_list_Z_app.
    rewrite (sum_const seeds (m_seed_value w)); [rewrite Nat2Z.inj_sub by done; lia|].
    eapply Forall_impl; [exact Hall|]. by intros i [].
  - by rewrite Hw'.
Qed.

(** [accumulate_inputs] succeeds exactly when the wallet can pay. *)
Lemma accumulate_spec w amount :
  wallet_inv w → (0 ≤ amount)%Z → (wealth w < 2 ^ 64)%Z →
  ((wealth w < amount)%Z → accumulate_inputs w amount = Ret (w, None)) ∧
  ((amount ≤ wealth w)%Z → ∃ w' seeds coins total,
     accumulate_inputs w amount =
       Ret (w', Some (full_tx.mk (seeds ++ coins) []
         (replicate (length (seeds ++ coins)) (zeros sig_len)), total)) ∧
     wallet_inv w' ∧ m_spend_queue w = coins ++ m_spend_queue w' ∧
     length seeds ≤ seeds_left w ∧
     Forall (λ i, value i = m_seed_value w ∧
       commitment i = m_seed_witness_commitment w) seeds ∧
     total = sum_list_Z (value <$> seeds ++ coins) ∧ (amount ≤ total)%Z ∧
     wealth w' = (wealth w - total)%Z ∧
     m_witness_programs w' = m_witness_programs w).
Proof.
  intros Hinv Ha Hw. unfold accumulate_inputs.
  destruct (take_seeds _ w (seeds_left w) 0 0) as [[w1 seeds] total1] eqn:E1.
  destruct (take_queue _ (m_spend_queue w1) (length seeds) total1)
    as [coins total] eqn:E2.
  destruct (select_spec _ w w1 seeds total1 coins total Hinv Hw E1 E2)
    as (-> & Hle & Hall & Ht & rest & Hq & Hstop). clear E1 E2.
  destruct (spend_spec w seeds coins rest Hinv Hle Hall Hq)
    as (w' & E & Hinv' & Hq' & Hw' & Hp').
  rewrite <- Ht in Hw'. pose proof (wealth_nonneg w' Hinv').
  destruct (total <? amount)%Z eqn:Elt; bools.
  - destruct Hstop as [Hm|[Hn ->]]; [bools; lia|].
    rewrite app_nil_r in Hq. assert (total = wealth w) as Htw.
    { rewrite Ht, fmap_app, sum_list_Z_app. unfold wealth. rewrite Hq, <- Hn.
      rewrite (sum_const seeds (m_seed_value w)); [lia|].
      eapply Forall_impl; [exact Hall|]. by intros i []. }
    split; [|lia]. intros _. wallet_cbn. rewrite restore_seed_from; [done|].
    by destruct Hinv as [_ [] _ _].
  - split; [lia|]. intros _. rewrite E. simpl. exists w', seeds, coins, total.
    rewrite Hq'. split_and!; done.
Qed.

Lemma keys_grow_inv w w' :
  wallet_inv w → keys_ok w' → keys_grow w w' →
  wallet_inv w' ∧ wealth w' = wealth w ∧ m_spend_queue w' = m_spend_queue w.
Proof.
  intros [[Hn Hs Hb] [Hf Ht Hv] _ Hu] Hk [Ef Et Ev Eb Es Eq _].
  unfold wealth, seeds_left. rewrite Ef, Et, Ev, Eq. split; [|done].
  constructor; [constructor|constructor| |]; rewrite ?Ef, ?Et, ?Ev, ?Eb, ?Es, ?Eq; done.
Qed.

(** The body of [send_to] for a wallet that can pay. *)
Lemma send_to_core w amount payee sign_tx rnd :
  wallet_inv w → (0 ≤ amount ≤ wealth w)%Z → (wealth w < 2 ^ 64)%Z →
  is_Some (keypair_create (rnd_seckey rnd)) →
  ∃ w' tx seeds coins,
    send_to w amount payee sign_tx rnd = Ret (w', Some tx) ∧ wallet_inv w' ∧
    full_tx.m_inputs tx = seeds ++ coins ∧
    length seeds ≤ seeds_left w ∧ m_spend_queue w = coins ++ m_spend_queue w' ∧
    (∃ outs, full_tx.m_outputs tx =
       output.mk (get_p2pk_witness_commitment payee) amount :: outs ∧
       Forall (λ v, 1 ≤ v < 2 ^ 64)%Z (output.m_value <$> outs)) ∧
    (amount ≤ sum_list_Z (input_values tx) ≤ wealth w)%Z ∧
    sum_list_Z (input_values tx) = sum_list_Z (output_values tx) ∧
    wealth w' = (wealth w - sum_list_Z (input_values tx))%Z ∧
    (sign_tx = true → Forall2 (λ i wit, is_spendable w i = true →
       witness_ok (tx_id tx) i wit) (full_tx.m_inputs tx) (full_tx.m_witness tx)).
Proof.
  intros Hinv Ha Hw Hr.
  destruct (accumulate_spec w amount Hinv) as [_ Hacc]; [lia|done|].
  destruct Hacc as (w1 & seeds & coins & total & E & Hinv1 & Hq & Hle & Hall & Ht &
    Hat & Hw1 & Hp); [lia|].
  destruct (change_spec w1 total amount rnd) as (w2 & outs & Ec & Hk2 & Hg & Hov);
    [apply Hinv1|done|].
  destruct (keys_grow_inv w1 w2 Hinv1 Hk2 Hg) as (Hinv2 & Hw2 & Hq2).
  set (tx0 := add_outputs (full_tx.mk (seeds ++ coins) []
    (replicate (length (seeds ++ coins)) (zeros sig_len)))
    (output.mk (get_p2pk_witness_commitment payee) amount :: outs)).
  destruct (maybe_sign_ok w2 sign_tx tx0 Hk2) as (tx & Es & Hi & Ho & Hs).
  pose proof (wealth_nonneg w1 Hinv1).
  assert (input_values tx = value <$> seeds ++ coins) as Hiv.
  { unfold input_values. by rewrite Hi. }
  assert (Forall (λ v, 1 ≤ v < 2 ^ 64)%Z (output.m_value <$> outs) ∧
    sum_list_Z (output.m_value <$> outs) = (total - amount)%Z) as [Hpos Hsum].
  { rewrite Hov. destruct (amount <? total)%Z eqn:Elt; bools.
    - rewrite sub64_exact by (unfold is_u64; lia). simpl. split; [|lia].
      constructor; [lia|constructor].
    - split; [constructor|]. simpl. lia. }
  exists w2, tx, seeds, coins. rewrite Hiv, Hi, <- Ht, Hw2, Hq2.
  split_and!; [| |done|done|done| |done|lia| |lia|].
  - unfold send_to. rewrite E. simpl. rewrite Ec. simpl. fold tx0. rewrite Es. done.
  - done.
  - exists outs. split; [by rewrite Ho|done].
  - unfold output_values. rewrite Ho. csimpl. lia.
  - intros ->. rewrite <- Hi. eapply Forall2_impl; [by apply Hs|].
    intros i wit Hok Hsp. apply Hok. unfold is_spendable in *. bools.
    apply bool_decide_eq_true_2. destruct Hsp as [pk Hpk]. exists pk.
    apply (kg_programs _ _ Hg). by rewrite Hp.
Qed.

End Spend.

(** *** Confirming *)

Section Confirm.
Context `{Hasher} `{Secp256k1} `{!Secp256k1Laws}.

Definition ours (w : t) (out : output.t) : bool :=
  bool_decide (is_Some (m_witness_programs w !!
    output.m_witness_program_commitment out)).

(** The new coins from index [n] of the outputs on. *)
Definition utxos_from (w : t) (id : hash_t) (n : nat) (outs : list output.t)
    : list input.t :=
  omap (λ p, if ours w p.2
             then Some (input.mk (out_point.mk id (Z.of_nat p.1)) p.2) else None)
    (imap (λ i out, (n + i, out)) outs).

Lemma new_utxos_eq w tx :
  new_utxos w tx = utxos_from w (tx_id tx) 0 (full_tx.m_outputs tx).
Proof.
  unfold new_utxos, utxos_from. apply list_omap_ext.
  apply Forall2_same_length_lookup. split; [by rewrite !length_imap|].
  intros i x y. rewrite !list_lookup_imap. intros Hx Hy.
  destruct (full_tx.m_outputs tx !! i) as [out|] eqn:E; [|done].
  simpl in Hx, Hy. simplify_eq/=. unfold ours, input_from_output_with.
  rewrite E. destruct (m_witness_programs w !! _) eqn:Ep.
  - by rewrite bool_decide_eq_true_2 by eauto.
  - rewrite bool_decide_eq_false_2; [done|]. by intros [].
Qed.

Lemma utxos_from_cons w id n out outs :
  utxos_from w id n (out :: outs) =
    (if ours w out then [input.mk (out_point.mk id (Z.of_nat n)) out] else []) ++
    utxos_from w id (S n) outs.
Proof.
  unfold utxos_from. rewrite imap_cons. csimpl. rewrite Nat.add_0_r.
  assert (imap ((λ i o, (n + i, o)) ∘ S) outs = imap (λ i o, (S n + i, o)) outs) as ->.
  { apply imap_ext. intros i x _. simpl. f_equal. lia. }
  by destruct (ours w out).
Qed.

Lemma utxos_from_spec w id outs : ∀ n,
  NoDup (input.m_prevout <$> utxos_from w id n outs) ∧
  (∀ i, i ∈ utxos_from w id n outs → ours w (input.m_prevout_data i) = true ∧
     input.m_prevout_data i ∈ outs ∧
     ∃ k, n ≤ k ∧ input.m_prevout i = out_point.mk id (Z.of_nat k)) ∧
  value <$> utxos_from w id n outs =
    output.m_value <$> filter (λ out, ours w out = true) outs.
Proof.
  induction outs as [|out outs IH]; intros n.
  { split_and!; [constructor|by intros i ?%elem_of_nil|done]. }
  destruct (IH (S n)) as (IH1 & IH2 & IH3). rewrite utxos_from_cons, filter_cons.
  destruct (ours w out) eqn:Eo; simpl app.
  - rewrite decide_True by done. split_and!.
    + csimpl. constructor; [|done].
      intros (i & Hp & Hi)%list_elem_of_fmap.
      destruct (IH2 i Hi) as (_ & _ & k & Hk & Hk'). rewrite Hk' in Hp.
      simplify_eq. lia.
    + intros i [->|Hi]%elem_of_cons; simpl.
      * split_and!; [done|left|]. by exists n.
      * destruct (IH2 i Hi) as (? & ? & k & ? & ?). split_and!; [done|by right|].
        exists k. split; [lia|done].
    + csimpl. by rewrite IH3.
  - rewrite decide_False by done. split_and!; [done| |done].
    intros i Hi. destruct (IH2 i Hi) as (? & ? & k & ? & ?).
    split_and!; [done|by right|]. exists k. split; [lia|done].
Qed.

(** Crediting new coins appends them; crediting held ones does nothing. *)
Lemma credits_fresh l : ∀ w,
  coins_ok w → NoDup (input.m_prevout <$> l) →
  (∀ i, i ∈ l → input.m_prevout i ∉ input.m_prevout <$> m_spend_queue w) →
  m_spend_queue (foldl credit w l) = m_spend_queue w ++ l ∧
  ∃ b m q, foldl credit w l = set_coins w b m q.
Proof.
  induction l as [|i l IH]; intros w Hw Hnd Hf; simpl.
  { rewrite app_nil_r. split; [done|]. exists (m_balance w), (m_utxos_set w),
      (m_spend_queue w). by destruct w. }
  csimpl in Hnd. apply NoDup_cons in Hnd as [Hi Hnd].
  assert (credit w i = set_coins w (add64 (m_balance w) (value i))
    (<[ input.m_prevout i := i ]> (m_utxos_set w)) (m_spend_queue w ++ [i])) as Hc.
  { unfold credit. rewrite (co_set w Hw).
    rewrite (proj2 (coin_map_lookup_None _ _)); [done|]. apply Hf. left. }
  destruct (IH (credit w i)) as (Hq & b & m & q & Heq).
  - by apply credit_ok.
  - done.
  - intros j Hj. rewrite Hc. wallet_cbn. rewrite fmap_app, not_elem_of_app.
    split; [apply Hf; by right|]. csimpl. intros Hin%list_elem_of_singleton.
    apply Hi. rewrite <- Hin. by apply list_elem_of_fmap_2.
  - split; [rewrite Hq, Hc; wallet_cbn; by rewrite <- (assoc_L (++))|].
    rewrite Heq, Hc. by eexists _, _, _.
Qed.

Lemma credits_held l w :
  (∀ i, i ∈ l → is_Some (m_utxos_set w !! input.m_prevout i)) →
  foldl credit w l = w.
Proof.
  induction l as [|i l IH]; intros Hl; [done|]. simpl.
  destruct (Hl i) as [x Hx]; [left|]. unfold credit at 2. rewrite Hx.
  apply IH. intros j Hj. apply Hl. by right.
Qed.

(** The credits of a transaction whose id the wallet does not know. *)
Lemma credit_outputs_spec w tx :
  wallet_inv w → Forall is_u64 (output_values tx) →
  (∀ i, i ∈ m_spend_queue w →
     out_point.m_tx_id (input.m_prevout i) ≠ tx_id tx) →
  let w' := foldl credit w (new_utxos w tx) in
  wallet_inv w' ∧ m_spend_queue w' = m_spend_queue w ++ new_utxos w tx ∧
  (∃ b m q, w' = set_coins w b m q) ∧
  wealth w' = (wealth w + sum_list_Z (output.m_value <$>
    filter (λ out, ours w out = true) (full_tx.m_outputs tx)))%Z ∧
  (∀ i, i ∈ new_utxos w tx → out_point.m_tx_id (input.m_prevout i) = tx_id tx).
Proof.
  intros Hinv Hv Hfresh w'. pose proof (new_utxos_eq w tx) as Hn.
  destruct (utxos_from_spec w (tx_id tx) (full_tx.m_outputs tx) 0)
    as (Hnd & Hspec & Hvals). rewrite <- Hn in Hnd, Hspec, Hvals.
  assert (∀ i, i ∈ new_utxos w tx → out_point.m_tx_id (input.m_prevout i) = tx_id tx)
    as Hid.
  { intros i Hi. by destruct (Hspec i Hi) as (_ & _ & k & _ & ->). }
  destruct (credits_fresh (new_utxos w tx) w) as (Hq & b & m & q & Heq);
    [apply Hinv|done| |].
  { intros i Hi (j & Hj & Hjq)%list_elem_of_fmap. apply (Hfresh j Hjq).
    rewrite <- Hj. by apply Hid. }
  fold w' in Hq, Heq. split_and!; [|done|by exists b, m, q| |done].
  - assert (coins_ok w') by (apply credits_ok, Hinv).
    destruct Hinv as [_ [] [] Hu]. constructor; [done| | |].
    + rewrite Heq. by constructor.
    + rewrite Heq. by constructor.
    + rewrite Hq. apply Forall_app. split; [done|].
      change (Forall (is_u64 ∘ value) (new_utxos w tx)).
      apply Forall_fmap. rewrite Hvals. unfold output_values in Hv.
      apply Forall_fmap, Forall_forall.
      intros o [_ Ho]%list_elem_of_filter.
      apply (proj1 (Forall_forall _ _) Hv). by apply list_elem_of_fmap_2.
  - unfold wealth at 1. rewrite Hq, fmap_app, sum_list_Z_app, Hvals, Heq. unfold wealth.
    change (seeds_left (set_coins w b m q)) with (seeds_left w). wallet_cbn. lia.
Qed.

End Confirm.

(** *** Equal shares *)

Section Split.
Context `{Hasher} `{Secp256k1} `{!Secp256k1Laws}.

Lemma take_seeds_count ic n : ∀ w taken total w' l total',
  taken ≤ ic →
  take_seeds (λ k _, bool_decide (k < ic)) w n taken total = (w', l, total') →
  taken + length l ≤ ic.
Proof.
  induction n as [|n IH]; intros w taken total w' l total' Hle E; simpl in E.
  { simplify_eq. simpl. lia. }
  case_bool_decide; [|simplify_eq; simpl; lia].
  destruct (create_seeded_input _ _); [|simplify_eq; simpl; lia].
  destruct (take_seeds _ _ n _ _) as [[w1 l1] t1] eqn:E1.
  apply IH in E1; [|lia]. simplify_eq. simpl. lia.
Qed.

Lemma take_queue_count ic queue : ∀ taken total l total',
  taken ≤ ic →
  take_queue (λ k _, bool_decide (k < ic)) queue taken total = (l, total') →
  taken + length l ≤ ic.
Proof.
  induction queue as [|u queue IH]; intros taken total l total' Hle E; simpl in E.
  { simplify_eq. simpl. lia. }
  case_bool_decide; [|simplify_eq; simpl; lia].
  destruct (take_queue _ queue _ _) as [l1 t1] eqn:E1.
  apply IH in E1; [|lia]. simplify_eq. simpl. lia.
Qed.

(** Selecting by number. *)
Lemma select_count_spec w ic w1 seeds total1 coins total :
  wallet_inv w → (wealth w < 2 ^ 64)%Z →
  ic ≤ length (m_spend_queue w) + seeds_left w →
  take_seeds (λ k _, bool_decide (k < ic)) w (seeds_left w) 0 0 =
    (w1, seeds, total1) →
  take_queue (λ k _, bool_decide (k < ic)) (m_spend_queue w1) (length seeds) total1 =
    (coins, total) →
  w1 = set_seed_from w (add64 (m_seed_from w) (Z.of_nat (length seeds))) ∧
  length (seeds ++ coins) = ic ∧ total = sum_list_Z (value <$> seeds ++ coins) ∧
  (0 ≤ total)%Z ∧ coins `prefix_of` m_spend_queue w ∧
  ∃ w', remove_front w1 (length coins) = Ret w' ∧ wallet_inv w' ∧
    wealth w' = (wealth w - total)%Z.
Proof.
  intros Hinv Hw Hic E1 E2.
  pose proof (take_seeds_count _ _ _ _ _ _ _ _ (Nat.le_0_l _) E1) as Hb1.
  pose proof (take_queue_count _ _ _ _ _ _ Hb1 E2) as Hb2. simpl in Hb2.
  destruct (select_spec _ w w1 seeds total1 coins total Hinv Hw E1 E2)
    as (-> & Hle & Hall & Ht & rest & Hq & Hstop). clear E1 E2.
  destruct (spend_spec w seeds coins rest Hinv Hle Hall Hq)
    as (w' & E & Hinv' & _ & Hw' & _).
  split_and!; [done| |done| |by exists rest|].
  - rewrite length_app in *. destruct Hstop as [Hm|[Hn ->]]; [bools; lia|].
    rewrite app_nil_r in Hq. rewrite Hq in Hic. lia.
  - rewrite Ht. apply sum_list_Z_nonneg, Forall_fmap, Forall_app.
    destruct Hinv as [_ [_ _ Hsv] _ Hv]. unfold is_u32 in Hsv. split.
    + eapply Forall_impl; [exact Hall|]. intros i [Hi _]. simpl. lia.
    + rewrite Hq in Hv. apply Forall_app in Hv as [Hv _].
      eapply Forall_impl; [exact Hv|]. simpl. unfold is_u64. lia.
  - exists w'. by rewrite Ht.
Qed.

Lemma split_outputs_spec c v n : ∀ total,
  (0 ≤ v)%Z → (Z.of_nat n * v ≤ total < 2 ^ 64)%Z →
  ∃ outs, split_outputs c v (S n) total = (outs, 0%Z) ∧
    output.m_value <$> outs = replicate n v ++ [(total - Z.of_nat n * v)%Z] ∧
    Forall (λ out, output.m_witness_program_commitment out = c) outs.
Proof.
  induction n as [|n IH]; intros total Hv Ht.
  { cbn [split_outputs]. unfold sub64. rewrite Z.sub_diag.
    eexists. split; [reflexivity|]. split; [|by constructor].
    csimpl. by rewrite Z.sub_0_r. }
  rewrite Nat2Z.inj_succ, Z.mul_succ_l in *.
  destruct (IH (total - v)%Z) as (outs & E & Hvals & Hc); [done|lia|].
  remember (S n) as m. cbn [split_outputs].
  assert ((match m with 0 => total | _ => v end) = v) as -> by (by subst m).
  rewrite sub64_exact by (unfold is_u64; lia).
  rewrite E. subst m. eexists. split; [reflexivity|]. split; [|by constructor].
  csimpl. rewrite Hvals. do 3 f_equal. lia.
Qed.

Lemma sum_replicate n v : sum_list_Z (replicate n v) = (Z.of_nat n * v)%Z.
Proof. induction n as [|n IH]; simpl; [done|]. rewrite IH. lia. Qed.

Lemma coin_count_exact w :
  (Z.of_nat (size (m_utxos_set w) + seeds_left w) < 2 ^ 64)%Z →
  sub64 (add64 (Z.of_nat (size (m_utxos_set w))) (m_seed_to w)) (m_seed_from w) =
    Z.of_nat (size (m_utxos_set w) + seeds_left w).
Proof.
  intros Hlt. unfold seeds_left in *. pose proof (sub64_range (m_seed_to w) (m_seed_from w)).
  unfold is_u64 in *. rewrite Nat2Z.inj_add, Z2Nat.id in * by lia.
  unfold sub64, add64, u64 in *. rewrite Zminus_mod_idemp_l.
  replace (Z.of_nat (size (m_utxos_set w)) + m_seed_to w - m_seed_from w)%Z with
    (Z.of_nat (size (m_utxos_set w)) + (m_seed_to w - m_seed_from w))%Z by lia.
  rewrite <- Zplus_mod_idemp_r. apply Z.mod_small. lia.
Qed.

End Split.

End wallet_lemmas.

(** ** Theorems *)

Section WalletTheorems.
Context `{Hasher} `{Secp256k1} `{!Secp256k1Laws}.
Import wallet wallet_lemmas.

(** C18: a payment succeeds exactly when the wallet owns the amount.  It then
    spends the oldest coins, its outputs are the payment and the change and
    add up to its inputs, and the wallet's wealth drops by what was spent; a
    payment that fails leaves the wallet untouched. *)
Theorem send_to_pays w amount payee sign_tx rnd :
  wallet_inv w → is_u32 amount → (wealth w < 2 ^ 64)%Z →
  is_Some (keypair_create (rnd_seckey rnd)) →
  ∃ w' r, send_to w amount payee sign_tx rnd = Ret (w', r) ∧ wallet_inv w' ∧
  match r with
  | None => (wealth w < amount)%Z ∧ w' = w
  | Some tx =>
      (amount ≤ wealth w)%Z ∧
      head (full_tx.m_outputs tx) =
        Some (output.mk (get_p2pk_witness_commitment payee) amount) ∧
      sum_list_Z (input_values tx) = sum_list_Z (output_values tx) ∧
      wealth w' = (wealth w - sum_list_Z (input_values tx))%Z ∧
      ∃ seeds coins, full_tx.m_inputs tx = seeds ++ coins ∧
        m_spend_queue w = coins ++ m_spend_queue w'
  end.
Proof.
  intros Hinv Ha Hw Hr. unfold is_u32 in Ha.
  destruct (decide (amount ≤ wealth w)%Z) as [Hle|Hgt].
  - destruct (send_to_core w amount payee sign_tx rnd)
      as (w' & tx & seeds & coins & E & Hinv' & Hi & _ & Hq & (outs & Ho & _) &
        _ & Hb & Hww & _); [done|lia|done|done|].
    exists w', (Some tx). split_and!; [done|done|done|by rewrite Ho|done|done|].
    by exists seeds, coins.
  - destruct (accumulate_spec w amount Hinv) as [Hacc _]; [lia|done|].
    exists w, None. unfold send_to. rewrite Hacc by lia. simpl.
    split_and!; [done|done|lia|done].
Qed.

(** C17: a signed payment from coins to the wallet's own keys passes
    validation: the transaction [send_to] builds is accepted by
    [check_tx]. *)
Theorem send_to_accepted w amount payee rnd :
  wallet_inv w → m_seed_from w = m_seed_to w →
  Forall (λ i, is_spendable w i = true ∧ 1 ≤ value i)%Z (m_spend_queue w) →
  (1 ≤ amount ≤ wealth w)%Z → (wealth w < 2 ^ 64)%Z →
  is_Some (keypair_create (rnd_seckey rnd)) →
  ∃ w' tx, send_to w amount payee true rnd = Ret (w', Some tx) ∧
    check_tx tx = Ret None.
Proof.
  intros Hinv Hseed Hq Ha Hw Hr.
  destruct (send_to_core w amount payee true rnd)
    as (w' & tx & seeds & coins & E & _ & Hi & Hls & Hcoins & (outs & Ho & Hov) &
      Hle & Hb & _ & Hs); [done|lia|done|done|].
  exists w', tx. split; [done|].
  assert (seeds = []) as ->.
  { apply nil_length_inv. unfold seeds_left, sub64 in Hls.
    rewrite Hseed, Z.sub_diag in Hls. change (Z.to_nat (u64 0)) with 0 in Hls. lia. }
  simpl in Hi. rewrite Hcoins in Hq. apply Forall_app in Hq as [Hq _].
  destruct Hinv as [[Hnd _ _] _ _ Hv]. rewrite Hcoins in Hnd, Hv.
  apply Forall_app in Hv as [Hv _]. rewrite fmap_app in Hnd.
  apply NoDup_app in Hnd as (Hnd & _ & _).
  assert (input_values tx = value <$> coins) as Hiv
    by (unfold input_values; by rewrite Hi).
  destruct (check_tx_spec tx) as (r & -> & Hr').
  { split; [rewrite Hiv; by apply Forall_fmap|]. unfold output_values.
    rewrite Ho. csimpl. constructor; [unfold is_u64; lia|].
    eapply Forall_impl; [exact Hov|]. simpl. unfold is_u64. lia. }
  destruct r as [e|]; [|done]. exfalso. apply (error_holds_not_valid _ _ Hr').
  constructor.
  - intros Hnil. rewrite Hnil in Hi. rewrite Hiv, <- Hi in Hle. simpl in Hle. lia.
  - by rewrite Ho.
  - unfold prevouts. by rewrite Hi.
  - rewrite Hiv. apply Forall_fmap. eapply Forall_impl; [exact Hq|]. by intros i [].
  - unfold output_values. rewrite Ho. csimpl. constructor; [lia|].
    eapply Forall_impl; [exact Hov|]. simpl. lia.
  - lia.
  - done.
  - specialize (Hs eq_refl). rewrite Hi in *.
    clear -Hs Hq. induction Hs as [|i wit l l' Hok _ IH]; [constructor|].
    inversion_clear Hq as [|?? [] ?]. constructor; auto.
Qed.

(** Splitting coins into equal shares.  The counting [send_to] returns
    for every wallet and all positive counts; a transaction it builds has
    exactly the requested inputs and outputs, all outputs go to the payee,
    all but the last are the same share, and they add up to the inputs; a
    refusal leaves the wallet untouched and happens only for lack of coins
    or of value. *)
Theorem send_to_count_splits w input_count output_count payee sign_tx :
  wallet_inv w → 0 < input_count → (wealth w < 2 ^ 64)%Z →
  (Z.of_nat (length (m_spend_queue w) + seeds_left w) < 2 ^ 64)%Z →
  ∃ w' r, send_to_count w input_count (S output_count) payee sign_tx =
      Ret (w', r) ∧ wallet_inv w' ∧
  match r with
  | None => w' = w ∧
      (length (m_spend_queue w) + seeds_left w < input_count ∨
       (0 < output_count ∧ ∃ seeds coins, length (seeds ++ coins) = input_count ∧
          coins `prefix_of` m_spend_queue w ∧
          (sum_list_Z (value <$> seeds ++ coins) < Z.of_nat (S output_count))%Z))
  | Some tx =>
      length (full_tx.m_inputs tx) = input_count ∧
      (let total := sum_list_Z (input_values tx) in
       let share := (total / Z.of_nat (S output_count))%Z in
       output_values tx = replicate output_count share ++
         [(total - Z.of_nat output_count * share)%Z] ∧
       sum_list_Z (output_values tx) = total ∧
       wealth w' = (wealth w - total)%Z) ∧
      Forall (λ out, output.m_witness_program_commitment out =
        get_p2pk_witness_commitment payee) (full_tx.m_outputs tx)
  end.
Proof.
  intros Hinv Hic Hw Hcount.
  assert (length (m_spend_queue w) = size (m_utxos_set w)) as Hsz
    by (apply coins_ok_size, Hinv).
  unfold send_to_count. rewrite decide_False by lia. rewrite coin_count_exact by lia.
  rewrite <- Hsz. destruct (_ <? _)%Z eqn:Ec; bools.
  { exists w, None. split_and!; [done|done|done|left; lia]. }
  destruct (take_seeds _ w (seeds_left w) 0 0) as [[w1 seeds] total1] eqn:E1.
  destruct (take_queue _ (m_spend_queue w1) (length seeds) total1)
    as [coins total] eqn:E2.
  destruct (select_count_spec w input_count w1 seeds total1 coins total)
    as (-> & Hlen & Ht & Ht0 & Hpre & w' & E & Hinv' & Hw'); [done|done|lia|done|done|].
  pose proof (wealth_nonneg w' Hinv'). clear E1 E2.
  set (share := (total / Z.of_nat (S output_count))%Z).
  assert (Z.of_nat (S output_count) * share ≤ total)%Z as Hsh
    by (apply Z.mul_div_le; lia).
  assert (0 ≤ share)%Z as Hsh0 by (apply Z.div_pos; lia).
  destruct ((share =? 0)%Z && bool_decide (1 < S output_count)) eqn:Es.
  { apply andb_true_iff in Es as [Hz Hone]. bools.
    exists w, None. wallet_cbn. rewrite restore_seed_from by (apply Hinv).
    split_and!; [done|done|done|right]. split; [lia|]. exists seeds, coins.
    split_and!; [done|done|]. rewrite <- Ht.
    apply Z.div_small_iff in Hz; lia. }
  clear Es. rewrite E. cbn [obind].
  destruct (split_outputs_spec (get_p2pk_witness_commitment payee) share
    output_count total) as (outs & Eo & Hvals & Hcomm); [done|lia|].
  rewrite Eo. rewrite Z.eqb_refl.
  destruct (maybe_sign_ok w' sign_tx (full_tx.mk (seeds ++ coins) outs
    (replicate (length seeds) (zeros sig_len)))) as (tx & -> & Hi & Ho & _);
    [apply Hinv'|].
  cbn [obind]. exists w', (Some tx). simpl in Hi, Ho.
  assert (input_values tx = value <$> seeds ++ coins) as Hiv
    by (unfold input_values; by rewrite Hi).
  unfold output_values. rewrite Hiv, Hi, Ho, <- Ht. fold share.
  split_and!; [done|done|done|done| |lia|done].
  rewrite Hvals, sum_list_Z_snoc, sum_replicate. lia.
Qed.

(** Confirming a transaction credits the wallet, once.  When the wallet
    holds neither its inputs nor coins of its id, the outputs to the
    wallet's keys are appended to the spend queue, the wealth grows by their
    value, and confirming the same transaction again changes nothing. *)
Theorem confirm_credits_received w tx :
  wallet_inv w → Forall is_u64 (output_values tx) →
  (∀ i, i ∈ m_spend_queue w →
     out_point.m_tx_id (input.m_prevout i) ≠ tx_id tx) →
  (∀ i, i ∈ full_tx.m_inputs tx →
     out_point.m_tx_id (input.m_prevout i) ≠ tx_id tx ∧
     m_utxos_set w !! input.m_prevout i = None) →
  ∃ w', confirm_transaction w tx = Ret w' ∧ wallet_inv w' ∧
    m_spend_queue w' = m_spend_queue w ++ new_utxos w tx ∧
    wealth w' = (wealth w + sum_list_Z (output.m_value <$>
      filter (λ out, ours w out = true) (full_tx.m_outputs tx)))%Z ∧
    confirm_transaction w' tx = Ret w'.
Proof.
  intros Hinv Hv Hfresh Hins.
  destruct (credit_outputs_spec w tx Hinv Hv Hfresh)
    as (Hinv' & Hq & (b & m & q & Heq) & Hw' & Hid).
  set (w' := foldl credit w (new_utxos w tx)) in *.
  assert (coins_ok w') as Hc' by (apply Hinv').
  assert (foldl debit w' (full_tx.m_inputs tx) = w') as Hdeb.
  { apply debits_not_held, Forall_forall. intros i Hi.
    destruct (Hins i Hi) as [Hne Hnone].
    rewrite (co_set w' Hc'), coin_map_lookup_None, Hq, fmap_app, not_elem_of_app.
    split.
    - rewrite <- coin_map_lookup_None, <- (co_set w); [done|apply Hinv].
    - intros (j & Hj & Hjn)%list_elem_of_fmap. apply Hne. rewrite Hj. by apply Hid. }
  exists w'. split_and!; [|done|done|done|]; unfold confirm_transaction, update_balance.
  - fold w'. rewrite Hdeb. by rewrite decide_True by (by apply coins_ok_size).
  - assert (new_utxos w' tx = new_utxos w tx) as -> by (rewrite Heq; done).
    rewrite credits_held, Hdeb.
    + by rewrite decide_True by (by apply coins_ok_size).
    + intros i Hi. apply not_eq_None_Some. rewrite (co_set w' Hc').
      rewrite coin_map_lookup_None, Hq. intros Hni'. apply Hni'.
      apply list_elem_of_fmap_2, elem_of_app. by right.
Qed.

(** Confirming a transaction that spends a coin the wallet still holds
    fails the assertion of [update_balance]: the coin leaves the set but not
    the spend queue. *)
Theorem debit_of_held_coin_asserts w tx i :
  wallet_inv w → i ∈ full_tx.m_inputs tx →
  is_Some (m_utxos_set w !! input.m_prevout i) →
  confirm_transaction w tx = Fatal.
Proof.
  intros Hinv Hi [x Hx]. unfold confirm_transaction.
  destruct (update_balance w (new_utxos w tx) (full_tx.m_inputs tx)) as [w'|] eqn:E;
    [|done]. exfalso.
  assert (coins_ok (foldl credit w (new_utxos w tx))) as Hc
    by (apply credits_ok, Hinv).
  unfold update_balance in E. case_decide as Hsz; [|done]. injection E as <-.
  destruct (debits_size (full_tx.m_inputs tx) (foldl credit w (new_utxos w tx)))
    as (_ & Hq & Hd).
  rewrite Hq, (coins_ok_size _ Hc) in Hsz. symmetry in Hsz. apply Hd in Hsz.
  assert (is_Some (m_utxos_set (foldl credit w (new_utxos w tx)) !! input.m_prevout i))
    as Hheld.
  { revert Hx. generalize (new_utxos w tx). clear. intros l. revert w.
    induction l as [|j l IH]; intros w Hx; simpl; [by eexists|].
    apply (IH (credit w j)). unfold credit. case_match eqn:Ej; [done|]. wallet_cbn.
    rewrite lookup_insert_ne; [done|]. congruence. }
  rewrite <- Hsz, (debits_remove _ _ i Hi) in Hheld. by destruct Hheld.
Qed.

End WalletTheorems.

(** ** An example wallet *)

Section WalletExamples.
Import Toy wallet wallet_lemmas.

Definition my_key : list byte := zeros 32.
Definition my_coin (n : Z) : input.t :=
  input.mk (out_point.mk (replicate 32 x07) n)
    (output.mk (get_p2pk_witness_commitment my_key) 10).

(** One key and two coins of ten. *)
Definition my_wallet : t :=
  foldl credit (add_key init my_key my_key) [my_coin 0; my_coin 1].

Definition my_rnd : randomness := {| rnd_seckey := replicate 32 x01; rnd_index := 0 |}.

Lemma my_wallet_queue : m_spend_queue my_wallet = [my_coin 0; my_coin 1].
Proof. vm_compute. reflexivity. Qed.

Lemma my_wallet_inv : wallet_inv my_wallet.
Proof.
  assert (keys_ok init) as Hk.
  { constructor; cbn; [|  |done].
    - intros c pk Hc. by apply lookup_empty_Some in Hc.
    - intros pk sk Hc. by apply lookup_empty_Some in Hc. }
  destruct (add_key_ok init my_key (mk_key my_key : @keypair secp) Hk eq_refl) as [[Hp Hv Hs] _].
  constructor.
  - apply credits_ok. constructor; cbn; [constructor|done|done].
  - constructor; (split; [vm_compute; discriminate|vm_compute; reflexivity]).
  - constructor; [exact Hp|exact Hv|exact Hs].
  - rewrite my_wallet_queue. repeat constructor; cbn; lia.
Qed.

Lemma my_wallet_wealth : wealth my_wallet = 20%Z.
Proof. vm_compute. reflexivity. Qed.

Lemma my_rnd_valid : is_Some (keypair_create (rnd_seckey my_rnd)).
Proof. by eexists. Qed.

Lemma send_to_pays_witness :
  ∃ w' r, send_to my_wallet 12 my_key true my_rnd = Ret (w', r) ∧ wallet_inv w' ∧
  match r with
  | None => (wealth my_wallet < 12)%Z ∧ w' = my_wallet
  | Some tx =>
      (12 ≤ wealth my_wallet)%Z ∧
      head (full_tx.m_outputs tx) =
        Some (output.mk (get_p2pk_witness_commitment my_key) 12) ∧
      sum_list_Z (input_values tx) = sum_list_Z (output_values tx) ∧
      wealth w' = (wealth my_wallet - sum_list_Z (input_values tx))%Z ∧
      ∃ seeds coins, full_tx.m_inputs tx = seeds ++ coins ∧
        m_spend_queue my_wallet = coins ++ m_spend_queue w'
  end.
Proof.
  apply send_to_pays; [apply my_wallet_inv|unfold is_u32; lia
    |rewrite my_wallet_wealth; lia|apply my_rnd_valid].
Defined.

Lemma send_to_accepted_witness :
  ∃ w' tx, send_to my_wallet 12 my_key true my_rnd = Ret (w', Some tx) ∧
    check_tx tx = Ret None.
Proof.
  apply send_to_accepted;
    [apply my_wallet_inv|reflexivity| |rewrite my_wallet_wealth; lia
    |rewrite my_wallet_wealth; lia|apply my_rnd_valid].
  rewrite my_wallet_queue.
  constructor; [|constructor; [|constructor]]; (split; [vm_compute; reflexivity|cbn; lia]).
Defined.

Lemma send_to_count_splits_witness :
  ∃ w' r, send_to_count my_wallet 1 3 my_key false = Ret (w', r) ∧ wallet_inv w'.
Proof.
  destruct (send_to_count_splits my_wallet 1 2 my_key false)
    as (w' & r & E & Hinv & _);
    [apply my_wallet_inv|lia|rewrite my_wallet_wealth; lia|rewrite my_wallet_queue; vm_compute; reflexivity|].
  exists w', r. split; [exact E|exact Hinv].
Defined.

(** Somebody else's payment of seven to [my_key]. *)
Definition incoming : full_tx.t :=
  full_tx.mk [] [output.mk (get_p2pk_witness_commitment my_key) 7] [].

Lemma confirm_credits_received_witness :
  ∃ w', confirm_transaction my_wallet incoming = Ret w' ∧ wallet_inv w' ∧
    wealth w' = 27%Z ∧ confirm_transaction w' incoming = Ret w'.
Proof.
  destruct (confirm_credits_received my_wallet incoming)
    as (w' & E & Hinv & _ & Hw & Hagain);
    [apply my_wallet_inv|compute_decide| | |].
  - rewrite my_wallet_queue. intros i [->|[->|Hi%elem_of_nil]%elem_of_cons]%elem_of_cons;
      [vm_compute; discriminate|vm_compute; discriminate|done].
  - by intros i Hi%elem_of_nil.
  - exists w'. split; [exact E|]. split; [exact Hinv|].
    split; [|exact Hagain]. rewrite Hw. vm_compute. reflexivity.
Defined.

Lemma debit_of_held_coin_asserts_witness :
  confirm_transaction my_wallet (full_tx.mk [my_coin 1] [] []) = Fatal.
Proof.
  apply (debit_of_held_coin_asserts _ _ (my_coin 1));
    [apply my_wallet_inv|left|]. vm_compute. by eexists.
Defined.

End WalletExamples.
