(* ===== verification/CacheSet.v ===== *)
(** * Bounded set with first-in first-out eviction

    Model of [src/util/common/cache_set.hpp], the cache of recently
    completed transaction ids and of recently seen blocks. *)

From S2P Require Import Prelude.
From Stdlib Require Import ZArith Lia.
From stdpp Require Import base tactics gmap sets list.

Open Scope cbdc_scope.

Module cache_set.
Section CacheSet.
Context {K : Type} `{Countable K}.

(** [m_eviction_queue] holds references to the elements of [m_vals], oldest
    first. *)
Record t := mk {
  m_vals : gset K;
  m_eviction_queue : list K;
  m_max_size : nat
}.

Definition init (max_size : nat) : t := mk ∅ [] max_size.

(** The trailing assertion ends the process when it fails. *)
Definition add (s : t) (val : K) : outcome (t * bool) :=
  if decide (val ∈ m_vals s) then
    (if decide (length (m_eviction_queue s) ≤ m_max_size s)
     then Ret (s, false) else Fatal)
  else
    let vals := {[ val ]} ∪ m_vals s in
    let queue := m_eviction_queue s ++ [val] in
    let s' :=
      if decide (m_max_size s ≤ length queue) then
        match queue with
        | v :: queue' => mk (vals ∖ {[ v ]}) queue' (m_max_size s)
        | [] => mk vals queue (m_max_size s)
        end
      else mk vals queue (m_max_size s) in
    if decide (length (m_eviction_queue s') ≤ m_max_size s')
    then Ret (s', true) else Fatal.

Definition contains (s : t) (val : K) : bool := bool_decide (val ∈ m_vals s).

(** Adding a sequence of values. *)
Fixpoint add_all (s : t) (vals : list K) : outcome t :=
  match vals with
  | [] => Ret s
  | v :: vals => let! r := add s v in add_all r.1 vals
  end.

(** The queue lists the set without repetition and holds fewer than
    [m_max_size] elements. *)
Record wf (s : t) : Prop := {
  wf_vals : m_vals s = list_to_set (m_eviction_queue s);
  wf_nodup : NoDup (m_eviction_queue s);
  wf_len : length (m_eviction_queue s) ≤ pred (m_max_size s)
}.

Lemma init_wf n : wf (init n).
Proof. split; simpl; [done|constructor|lia]. Qed.

(** What [add] of a new value does to the queue. *)
Definition push (n : nat) (q : list K) (v : K) : list K :=
  if decide (n ≤ S (length q)) then tail (q ++ [v]) else q ++ [v].

Lemma add_spec s v :
  wf s →
  ∃ s', add s v = Ret (s', bool_decide (v ∉ m_vals s)) ∧ wf s' ∧
    m_max_size s' = m_max_size s ∧
    m_eviction_queue s' =
      (if decide (v ∈ m_vals s) then m_eviction_queue s
       else push (m_max_size s) (m_eviction_queue s) v).
Proof.
  intros [Hv Hnd Hlen]. unfold add, push. case_decide as Hin.
  { exists s. rewrite decide_True by lia. rewrite bool_decide_false by set_solver.
    split_and!; [done|by constructor|done|done]. }
  assert (v ∉ m_eviction_queue s) as Hq by set_solver.
  assert (NoDup (m_eviction_queue s ++ [v])) as Hnd'.
  { apply NoDup_app. split_and!; [done|set_solver|apply NoDup_singleton]. }
  rewrite length_app; simpl. rewrite (bool_decide_true _ Hin).
  replace (length (m_eviction_queue s) + 1) with
    (S (length (m_eviction_queue s))) by lia.
  destruct (decide (m_max_size s ≤ S (length (m_eviction_queue s)))) as [Hfull|Hfull].
  - destruct (m_eviction_queue s ++ [v]) as [|x q] eqn:E.
    { by apply (f_equal length) in E; rewrite length_app in E; simpl in E; lia. }
    apply (f_equal length) in E as El. rewrite length_app in El; simpl in El.
    simpl. rewrite decide_True by lia.
    eexists; split_and!; [done| |done|done].
    apply NoDup_cons in Hnd' as [Hx Hnd']. constructor; simpl; [|done|lia].
    apply (f_equal (list_to_set (C:=gset K))) in E.
    rewrite list_to_set_app_L in E. simpl in E.
    rewrite (right_id_L ∅ (∪)), (comm_L (∪)), <- Hv in E. rewrite E.
    rewrite difference_union_distr_l_L, difference_diag_L, (left_id_L ∅ (∪)).
    apply difference_disjoint_L. clear -Hx. set_solver.
  - simpl. rewrite length_app; simpl. rewrite decide_True by lia.
    eexists; split_and!; [done| |done|done].
    constructor; simpl; [|done|rewrite length_app; simpl; lia].
    rewrite list_to_set_app_L. simpl. set_solver.
Qed.

Lemma add_all_spec s vals :
  wf s → ∃ s', add_all s vals = Ret s' ∧ wf s' ∧ m_max_size s' = m_max_size s.
Proof.
  revert s. induction vals as [|v vals IH]; intros s Hwf; simpl; [by eauto|].
  destruct (add_spec s v Hwf) as (s' & -> & Hwf' & Hm & _). simpl.
  destruct (IH s' Hwf') as (s'' & ? & ? & ?). exists s''. split_and!; congruence.
Qed.

(** The last [k] elements of a list. *)
Definition window (k : nat) (l : list K) : list K := drop (length l - k) l.

(** The values that enter the set when [vals] are added one after the other,
    after those of [seen]: a value that is among the last [k] that entered is
    still there and does not enter again. *)
Fixpoint inserted (k : nat) (seen vals : list K) : list K :=
  match vals with
  | [] => seen
  | v :: vals =>
      if decide (v ∈ window k seen) then inserted k seen vals
      else inserted k (seen ++ [v]) vals
  end.

(** A value pushed on a queue that is a suffix window keeps it one. *)
Lemma push_window n (seen : list K) v :
  push n (window (pred n) seen) v = window (pred n) (seen ++ [v]).
Proof.
  unfold push, window. rewrite length_app, length_drop. simpl. case_decide.
  - rewrite <- drop_app_le by lia.
    assert (∀ l : list K, tail l = drop 1 l) as -> by (by intros []).
    rewrite drop_drop. f_equal. lia.
  - rewrite <- drop_app_le by lia. f_equal. lia.
Qed.

Lemma add_all_window s seen vals :
  wf s → m_eviction_queue s = window (pred (m_max_size s)) seen →
  ∃ s', add_all s vals = Ret s' ∧ wf s' ∧ m_max_size s' = m_max_size s ∧
    m_eviction_queue s' =
      window (pred (m_max_size s)) (inserted (pred (m_max_size s)) seen vals).
Proof.
  revert s seen. induction vals as [|v vals IH]; intros s seen Hwf Hq; [by exists s|].
  cbn [add_all inserted].
  destruct (add_spec s v Hwf) as (s1 & -> & Hwf1 & Hm & Hq1). cbn [obind fst].
  assert (v ∈ m_vals s ↔ v ∈ window (pred (m_max_size s)) seen) as Hv.
  { by rewrite (wf_vals s Hwf), elem_of_list_to_set, Hq. }
  rewrite <- Hm in *. case_decide as Hin; case_decide as Hin'; try naive_solver.
  - apply IH; [done|]. congruence.
  - apply IH; [done|]. by rewrite Hq1, Hq, push_window.
Qed.

Lemma inserted_distinct k vals : ∀ seen,
  NoDup (seen ++ vals) → inserted k seen vals = seen ++ vals.
Proof.
  induction vals as [|v vals IH]; intros seen Hnd; cbn [inserted]; [by rewrite app_nil_r|].
  rewrite decide_False.
  - rewrite IH; rewrite <- (assoc_L (++)); done.
  - intros (i & Hi)%list_elem_of_lookup. unfold window in Hi. rewrite lookup_drop in Hi.
    apply NoDup_app in Hnd as (_ & Hd & _). apply (Hd v); [|left].
    by eapply list_elem_of_lookup_2.
Qed.

End CacheSet.
Arguments t K {_ _}.
End cache_set.

#[export] Hint Resolve cache_set.init_wf : cbdc.

(** C37: what a cache set remembers.  Whatever values are added, repeated or
    not, to a cache created with [max_size], no assertion fails, and the set
    holds exactly the last [max_size - 1] of the values that entered it, where
    a value enters unless it is there already; a repeated value therefore does
    not become younger.  It never holds [max_size] elements, one element fewer
    than the documentation of the constructor announces.  For distinct values
    these are the last [max_size - 1] of them.  [add] reports whether the value
    was missing. *)
Theorem cache_set_window `{Countable K} (max_size : nat) (vals : list K) :
  ∃ s, cache_set.add_all (cache_set.init max_size) vals = Ret s ∧
    (∀ v, cache_set.contains s v =
       bool_decide (v ∈ cache_set.window (max_size - 1)
                          (cache_set.inserted (max_size - 1) [] vals))) ∧
    size (cache_set.m_vals s) ≤ max_size - 1 ∧
    (∀ v, ∃ s', cache_set.add s v = Ret (s', negb (cache_set.contains s v))) ∧
    (NoDup vals → cache_set.inserted (max_size - 1) [] vals = vals).
Proof.
  destruct (cache_set.add_all_window (cache_set.init max_size) [] vals)
    as (s & Hs & Hwf & Hm & Hq); [apply cache_set.init_wf|done|].
  cbn [cache_set.m_max_size cache_set.init] in *.
  exists s. rewrite Nat.sub_1_r. split_and!; [done|..].
  - intros v. apply bool_decide_ext.
    by rewrite (cache_set.wf_vals s Hwf), Hq, elem_of_list_to_set.
  - rewrite (cache_set.wf_vals s Hwf), size_list_to_set by apply Hwf.
    rewrite <- Hm. apply Hwf.
  - intros v. destruct (cache_set.add_spec s v Hwf) as (s' & E & _). exists s'.
    rewrite E. unfold cache_set.contains. by rewrite bool_decide_not.
  - apply (cache_set.inserted_distinct _ vals []).
Qed.

(** Adding 1, 2, 1, 3 to a cache of size 3 leaves 2 and 3. *)
Example cache_set_repeated :
  cache_set.window 2 (cache_set.inserted 2 [] [1; 2; 1; 3]) = [2; 3].
Proof. reflexivity. Qed.
