(* ===== verification/UhsSpec.v ===== *)
(** * The abstract unspent hash set

    What every transaction processor of the system promises: a set of unspent
    hashes from which a transaction removes its inputs, all of which must be
    there, and to which it adds its outputs, none of which may be there.  The
    two-phase-commit and the atomizer architectures are both related to this
    specification; [own] selects the hashes a shard is responsible for. *)

From S2P Require Import Prelude Serialization Crypto Transaction.
From Stdlib Require Import ZArith Lia.
From Stdlib.Strings Require Import Byte.
From stdpp Require Import base tactics numbers gmap sets list.

(** The hashes of [l] for which [own] holds. *)
Definition owned (own : hash_t → bool) (l : list hash_t) : gset hash_t :=
  list_to_set (filter (λ h, own h = true) l).

Lemma elem_of_owned own l h : h ∈ owned own l ↔ own h = true ∧ h ∈ l.
Proof. unfold owned. by rewrite elem_of_list_to_set, list_elem_of_filter. Qed.

Definition ins (own : hash_t → bool) (tx : compact_tx.t) : gset hash_t :=
  owned own (compact_tx.m_inputs tx).

Definition outs (own : hash_t → bool) (tx : compact_tx.t) : gset hash_t :=
  owned own (compact_tx.m_uhs_outputs tx).

(** The whole hash space: [ins] and [outs] without a range. *)
Definition everything (h : hash_t) : bool := true.

(** The abstract effect of one transaction. *)
Definition uhs_apply (own : hash_t → bool) (U : gset hash_t) (tx : compact_tx.t)
    : gset hash_t :=
  (U ∖ ins own tx) ∪ outs own tx.

(** A history of transactions, each spending unspent inputs only and
    creating fresh outputs only. *)
Inductive uhs_run (own : hash_t → bool)
    : gset hash_t → list compact_tx.t → gset hash_t → Prop :=
| uhs_run_nil U : uhs_run own U [] U
| uhs_run_cons U tx txs U' :
    ins own tx ⊆ U → outs own tx ## U →
    uhs_run own (uhs_apply own U tx) txs U' →
    uhs_run own U (tx :: txs) U'.

#[export] Hint Constructors uhs_run : cbdc.

Lemma uhs_run_app own U1 txs1 U2 txs2 U3 :
  uhs_run own U1 txs1 U2 → uhs_run own U2 txs2 U3 →
  uhs_run own U1 (txs1 ++ txs2) U3.
Proof. induction 1; simpl; eauto with cbdc. Qed.

Lemma uhs_run_foldl own U txs U' :
  uhs_run own U txs U' → U' = foldl (uhs_apply own) U txs.
Proof. induction 1; done. Qed.

(** A run stays within the owned hashes. *)
Lemma uhs_run_owned own U txs U' :
  uhs_run own U txs U' → (∀ h, h ∈ U → own h = true) →
  ∀ h, h ∈ U' → own h = true.
Proof.
  induction 1 as [|U tx txs U' Hin Hout Hrun IH]; intros HU; [done|].
  apply IH. unfold uhs_apply. intros h [[? _]%elem_of_difference|Hh]%elem_of_union; [auto|].
  by apply elem_of_owned in Hh as [? _].
Qed.

(** Every hash created by the transactions of a history. *)
Definition created (own : hash_t → bool) (txs : list compact_tx.t)
    : gset hash_t :=
  ⋃ (outs own <$> txs).

(** Identifiers are never created twice: neither by two transactions nor
    when the initial set has them. *)
Fixpoint fresh_history (own : hash_t → bool) (known : gset hash_t)
    (txs : list compact_tx.t) : Prop :=
  match txs with
  | [] => True
  | tx :: txs =>
      outs own tx ## known ∧ fresh_history own (known ∪ outs own tx) txs
  end.

#[export] Instance fresh_history_dec own known txs :
  Decision (fresh_history own known txs).
Proof. revert known. induction txs; intros known; simpl; apply _. Defined.

(** Once a known hash has left the set it never comes back. *)
Lemma spent_stays_spent own U known txs U' h :
  uhs_run own U txs U' → fresh_history own known txs → h ∈ known → h ∉ U →
  ∀ tx, tx ∈ txs → h ∉ ins own tx.
Proof.
  intros Hrun. revert known. induction Hrun as [|U tx txs U' Hin Hout Hrun IH];
    intros known Hf Hk Hu tx0 Htx; [by apply elem_of_nil in Htx|].
  destruct Hf as [Hd Hf]. apply elem_of_cons in Htx as [->|Htx]; [set_solver|].
  apply (IH (known ∪ outs own tx)); [done|set_solver| |done].
  unfold uhs_apply. set_solver.
Qed.

(** No hash is consumed by two transactions of a history. *)
Lemma no_double_spend_run own U txs U' :
  uhs_run own U txs U' → fresh_history own U txs →
  ∀ i j tx1 tx2, i < j → txs !! i = Some tx1 → txs !! j = Some tx2 →
    ins own tx1 ## ins own tx2.
Proof.
  intros Hrun Hf. assert (U ⊆ U) as Hsub by done. revert Hf Hsub.
  generalize U at 1 3 as known. intros known Hf Hsub. revert known Hf Hsub.
  induction Hrun as [|U tx txs U' Hin Hout Hrun IH];
    intros known Hf Hsub i j tx1 tx2 Hij H1 H2; [done|].
  destruct Hf as [Hd Hf]. destruct i as [|i], j as [|j]; try lia; simpl in *.
  - simplify_eq. intros h Hh1 Hh2.
    eapply (spent_stays_spent own _ (known ∪ outs own tx1) txs U' h);
      [exact Hrun|done|set_solver| |by eapply list_elem_of_lookup_2|exact Hh2].
    unfold uhs_apply. set_solver.
  - eapply (IH (known ∪ outs own tx)); [done| |by apply Nat.succ_lt_mono|done|done].
    unfold uhs_apply. set_solver.
Qed.
