(* ===== verification/LockingShard.v ===== *)
(** * Locking shard

    Model of [src/uhs/twophase/locking_shard/locking_shard.{hpp,cpp}],
    [interface.{hpp,cpp}], [status_server.cpp] and [state_machine.cpp]: the
    in-memory UHS partition with two-phase locking and the replicated state
    machine that serialises requests to it. *)

From S2P Require Import Prelude Serialization Crypto Transaction Validation.
From S2P Require Import CacheSet UhsSpec.
From Stdlib Require Import ZArith Lia.
From Stdlib.Strings Require Import Byte.
From stdpp Require Import base tactics numbers gmap sets list.
Open Scope cbdc_scope.

(** [config::hash_in_shard_range]: the first byte of the hash lies in the
    inclusive range.  A [hash_t] always has 32 bytes; the empty list, which
    is no hash, reads as a leading zero. *)
Definition hash_in_shard_range (range : Z * Z) (h : hash_t) : bool :=
  let b := Z_of_byte (default x00 (head h)) in
  (range.1 <=? b)%Z && (b <=? range.2)%Z.

(** ** State *)

Record prepared_dtx := {
  m_txs : list compact_tx.t;
  m_results : list bool
}.

Module locking_shard.

Record t := mk {
  m_output_range : Z * Z;
  m_running : bool;
  m_uhs : gset hash_t;
  m_locked : gset hash_t;
  m_prepared_dtxs : gmap hash_t prepared_dtx;
  m_applied_dtxs : gset hash_t;
  m_completed_txs : cache_set.t hash_t;
  (** [m_opts] *)
  m_sentinel_public_keys : gset pubkey_t;
  m_attestation_threshold : nat
}.

(** A shard with a preseeded UHS. *)
Definition init (range : Z * Z) (completed_txs_cache_size : nat)
    (uhs : gset hash_t) (keys : gset pubkey_t) (threshold : nat) : t :=
  mk range true uhs ∅ ∅ ∅ (cache_set.init completed_txs_cache_size) keys
    threshold.

Definition set_sets (s : t) (uhs locked : gset hash_t) : t :=
  mk (m_output_range s) (m_running s) uhs locked (m_prepared_dtxs s)
    (m_applied_dtxs s) (m_completed_txs s) (m_sentinel_public_keys s)
    (m_attestation_threshold s).

Definition set_completed (s : t) (c : cache_set.t hash_t) : t :=
  mk (m_output_range s) (m_running s) (m_uhs s) (m_locked s)
    (m_prepared_dtxs s) (m_applied_dtxs s) c (m_sentinel_public_keys s)
    (m_attestation_threshold s).

Definition set_dtxs (s : t) (prepared : gmap hash_t prepared_dtx)
    (applied : gset hash_t) : t :=
  mk (m_output_range s) (m_running s) (m_uhs s) (m_locked s) prepared applied
    (m_completed_txs s) (m_sentinel_public_keys s) (m_attestation_threshold s).

Definition stop (s : t) : t :=
  mk (m_output_range s) false (m_uhs s) (m_locked s) (m_prepared_dtxs s)
    (m_applied_dtxs s) (m_completed_txs s) (m_sentinel_public_keys s)
    (m_attestation_threshold s).

Definition in_range (s : t) (h : hash_t) : bool :=
  hash_in_shard_range (m_output_range s) h.

(** ** Operations *)

Section Ops.
Context `{Hasher} `{Secp256k1}.

(** First loop of [check_and_lock_tx]: every in-range input is present. *)
Definition inputs_present (s : t) (inputs : list hash_t) : bool :=
  forallb (λ uhs_id, negb (in_range s uhs_id && bool_decide (uhs_id ∉ m_uhs s)))
    inputs.

(** Second loop: move the in-range inputs to the locked set; extracting an
    absent element fails the assertion. *)
Fixpoint lock_inputs (s : t) (inputs : list hash_t) : outcome t :=
  match inputs with
  | [] => Ret s
  | uhs_id :: inputs =>
      if in_range s uhs_id then
        if decide (uhs_id ∈ m_uhs s) then
          lock_inputs (set_sets s (m_uhs s ∖ {[ uhs_id ]})
                         ({[ uhs_id ]} ∪ m_locked s)) inputs
        else Fatal
      else lock_inputs s inputs
  end.

Definition check_and_lock_tx (s : t) (tx : compact_tx.t) : outcome (t * bool) :=
  if check_attestations tx (m_sentinel_public_keys s)
       (m_attestation_threshold s) &&
     inputs_present s (compact_tx.m_inputs tx)
  then let! s' := lock_inputs s (compact_tx.m_inputs tx) in Ret (s', true)
  else Ret (s, false).

Fixpoint lock_txs (s : t) (txs : list compact_tx.t) : outcome (t * list bool) :=
  match txs with
  | [] => Ret (s, [])
  | tx :: txs =>
      let! '(s1, success) := check_and_lock_tx s tx in
      let! '(s2, ret) := lock_txs s1 txs in
      Ret (s2, success :: ret)
  end.

Definition lock_outputs (s : t) (txs : list compact_tx.t) (dtx_id : hash_t)
    : outcome (t * option (list bool)) :=
  if negb (m_running s) then Ret (s, None) else
  match m_prepared_dtxs s !! dtx_id with
  | Some p => Ret (s, Some (m_results p))
  | None =>
      let! '(s', ret) := lock_txs s txs in
      Ret (set_dtxs s'
             (<[ dtx_id := {| m_txs := txs; m_results := ret |} ]>
                (m_prepared_dtxs s'))
             (m_applied_dtxs s'), Some ret)
  end.

End Ops.

(** [m_completed_txs.add] for an in-range transaction id. *)
Definition add_completed (s : t) (tx_id : hash_t) : outcome t :=
  if in_range s tx_id then
    let! r := cache_set.add (m_completed_txs s) tx_id in
    Ret (set_completed s r.1)
  else Ret s.

Definition add_outputs (s : t) (complete : bool) (outputs : list hash_t) : t :=
  foldl (λ s uhs_id,
    if in_range s uhs_id && complete
    then set_sets s ({[ uhs_id ]} ∪ m_uhs s) (m_locked s) else s) s outputs.

Definition unlock_inputs (s : t) (complete : bool) (inputs : list hash_t) : t :=
  foldl (λ s uhs_id,
    if in_range s uhs_id then
      let was_locked := bool_decide (uhs_id ∈ m_locked s) in
      let locked := m_locked s ∖ {[ uhs_id ]} in
      if negb complete && was_locked
      then set_sets s ({[ uhs_id ]} ∪ m_uhs s) locked
      else set_sets s (m_uhs s) locked
    else s) s inputs.

Definition apply_tx (s : t) (tx : compact_tx.t) (complete : bool) : outcome t :=
  let! s1 := add_completed s (compact_tx.m_id tx) in
  Ret (unlock_inputs
         (add_outputs s1 complete (compact_tx.m_uhs_outputs tx))
         complete (compact_tx.m_inputs tx)).

Fixpoint apply_txs (s : t) (txs : list compact_tx.t) (complete : list bool)
    : outcome t :=
  match txs, complete with
  | tx :: txs, c :: complete =>
      let! s' := apply_tx s tx c in apply_txs s' txs complete
  | _, _ => Ret s
  end.

(** [logger->fatal] ends the process. *)
Definition apply_outputs (s : t) (complete_txs : list bool) (dtx_id : hash_t)
    : outcome (t * bool) :=
  if negb (m_running s) then Ret (s, false) else
  match m_prepared_dtxs s !! dtx_id with
  | None =>
      if decide (dtx_id ∈ m_applied_dtxs s) then Ret (s, true) else Fatal
  | Some p =>
      if decide (length complete_txs ≠ length (m_txs p)) then Fatal else
      let! s' := apply_txs s (m_txs p) complete_txs in
      Ret (set_dtxs s' (delete dtx_id (m_prepared_dtxs s'))
             ({[ dtx_id ]} ∪ m_applied_dtxs s'), true)
  end.

Definition discard_dtx (s : t) (dtx_id : hash_t) : t * bool :=
  if m_running s then
    (set_dtxs s (m_prepared_dtxs s) (m_applied_dtxs s ∖ {[ dtx_id ]}), true)
  else (s, false).

Definition check_unspent (s : t) (uhs_id : hash_t) : option bool :=
  Some (bool_decide (uhs_id ∈ m_uhs s) || bool_decide (uhs_id ∈ m_locked s)).

Definition check_tx_id (s : t) (tx_id : hash_t) : option bool :=
  Some (cache_set.contains (m_completed_txs s) tx_id).

End locking_shard.

(** ** Status requests and the replicated state machine *)

Inductive status_request :=
| uhs_status_request (m_uhs_id : hash_t)
| tx_status_request (m_tx_id : hash_t).

Definition status_request_handler (s : locking_shard.t) (req : status_request)
    : option bool :=
  match req with
  | uhs_status_request uhs_id => locking_shard.check_unspent s uhs_id
  | tx_status_request tx_id => locking_shard.check_tx_id s tx_id
  end.

Inductive shard_params :=
| lock_params (txs : list compact_tx.t)
| apply_params (complete_txs : list bool)
| discard_params.

Inductive shard_response :=
| lock_response (results : list bool)
| apply_response
| discard_response.

Module shard_state_machine.
Record t := mk { m_shard : locking_shard.t; m_last_committed_idx : Z }.

Section Ops.
Context `{Hasher} `{Secp256k1}.

Definition process_request (s : locking_shard.t) (dtx_id : hash_t)
    (params : shard_params) : outcome (locking_shard.t * shard_response) :=
  match params with
  | lock_params txs =>
      let! '(s', res) := locking_shard.lock_outputs s txs dtx_id in
      match res with Some r => Ret (s', lock_response r) | None => Fatal end
  | apply_params complete =>
      let! '(s', res) := locking_shard.apply_outputs s complete dtx_id in
      if (res : bool) then Ret (s', apply_response) else Fatal
  | discard_params =>
      let (s', res) := locking_shard.discard_dtx s dtx_id in
      if (res : bool) then Ret (s', discard_response) else Fatal
  end.

(** [commit]: [req] is the deserialized log entry, [None] when it does not
    parse. *)
Definition commit (s : t) (log_idx : Z) (req : option (hash_t * shard_params))
    : outcome (t * option shard_response) :=
  if (log_idx =? add64 (m_last_committed_idx s) 1)%Z then
    match req with
    | None => Ret (mk (m_shard s) log_idx, None)
    | Some (dtx_id, params) =>
        let! '(shard', resp) := process_request (m_shard s) dtx_id params in
        Ret (mk shard' log_idx, Some resp)
    end
  else Fatal.

Definition commit_config (s : t) (log_idx : Z) : outcome t :=
  if (log_idx =? add64 (m_last_committed_idx s) 1)%Z
  then Ret (mk (m_shard s) log_idx) else Fatal.

End Ops.
End shard_state_machine.

(** ** Set-level behaviour of the loops *)

Module shard_lemmas.
Import locking_shard.

Abbreviation range_of s := (hash_in_shard_range (m_output_range s)) (only parsing).

(** Project a shard state without unfolding the set operations. *)
Ltac shard_cbn :=
  cbn [m_output_range m_running m_uhs m_locked m_prepared_dtxs m_applied_dtxs
       m_completed_txs m_sentinel_public_keys m_attestation_threshold set_sets
       set_completed set_dtxs obind m_txs m_results] in *.

(** What [check_unspent] reports. *)
Definition unspent (s : t) : gset hash_t := m_uhs s ∪ m_locked s.

Lemma set_sets_id s : set_sets s (m_uhs s) (m_locked s) = s.
Proof. by destruct s. Qed.

Lemma owned_cons own h l :
  owned own (h :: l) = (if own h then {[ h ]} else ∅) ∪ owned own l.
Proof.
  apply set_eq. intros x. rewrite elem_of_union, !elem_of_owned, elem_of_cons.
  split.
  - intros [Ho [->|Hl]]; [left; by rewrite Ho, elem_of_singleton|by right].
  - intros [Hx|[? ?]]; [|by auto]. destruct (own h) eqn:E; [|set_solver].
    apply elem_of_singleton in Hx as ->. auto.
Qed.

Lemma inputs_present_spec s l :
  inputs_present s l = bool_decide (owned (range_of s) l ⊆ m_uhs s).
Proof.
  apply eq_bool_prop_intro. rewrite bool_decide_spec.
  unfold inputs_present. rewrite Is_true_true, forallb_forall. unfold in_range.
  split.
  - intros Hall h [Ho Hin]%elem_of_owned.
    apply list_elem_of_In, Hall in Hin. rewrite Ho in Hin. simpl in Hin.
    bools. by apply dec_stable in Hin.
  - intros Hsub h Hin%list_elem_of_In. apply negb_true_iff.
    destruct (hash_in_shard_range _ h) eqn:E; [|done]. simpl.
    apply bool_decide_eq_false_2. intros Hn. apply Hn, Hsub, elem_of_owned. done.
Qed.

Lemma lock_inputs_spec s l :
  NoDup (filter (λ h, range_of s h = true) l) →
  owned (range_of s) l ⊆ m_uhs s →
  lock_inputs s l =
    Ret (set_sets s (m_uhs s ∖ owned (range_of s) l)
           (owned (range_of s) l ∪ m_locked s)).
Proof.
  revert s. induction l as [|h l IH]; intros s Hnd Hsub; simpl.
  { unfold owned. rewrite filter_nil; simpl.
    by rewrite difference_empty_L, (left_id_L ∅ (∪)), set_sets_id. }
  unfold in_range. rewrite owned_cons in *. rewrite filter_cons in Hnd.
  destruct (hash_in_shard_range (m_output_range s) h) eqn:E.
  - rewrite decide_True in Hnd by done. apply NoDup_cons in Hnd as [Hnin Hnd].
    assert (h ∉ owned (range_of s) l) as Hh.
    { intros [? ?]%elem_of_owned. apply Hnin. by apply list_elem_of_filter. }
    rewrite decide_True by set_solver.
    rewrite IH; simpl; [|done|set_solver]. f_equal. unfold set_sets; simpl.
    f_equal; set_solver.
  - rewrite decide_False in Hnd by done.
    rewrite IH; [|done|set_solver]. f_equal. f_equal; set_solver.
Qed.

Lemma add_outputs_spec s c l :
  add_outputs s c l =
    set_sets s (m_uhs s ∪ (if c then owned (range_of s) l else ∅)) (m_locked s).
Proof.
  unfold add_outputs. revert s. induction l as [|h l IH]; intros s; simpl.
  { unfold owned. rewrite filter_nil; simpl. destruct c;
    by rewrite (right_id_L ∅ (∪)), set_sets_id. }
  rewrite IH, owned_cons. unfold in_range.
  destruct (hash_in_shard_range (m_output_range s) h) eqn:E; simpl;
    destruct c; unfold set_sets; simpl; f_equal; set_solver.
Qed.

Lemma unlock_inputs_spec s c l :
  unlock_inputs s c l =
    set_sets s
      (m_uhs s ∪ (if c then ∅ else owned (range_of s) l ∩ m_locked s))
      (m_locked s ∖ owned (range_of s) l).
Proof.
  unfold unlock_inputs. revert s. induction l as [|h l IH]; intros s; simpl.
  { unfold owned. rewrite filter_nil; simpl. destruct c;
    by rewrite ?(left_absorb_L ∅ (∩)), (right_id_L ∅ (∪)),
      difference_empty_L, set_sets_id. }
  rewrite IH, owned_cons. unfold in_range.
  destruct (hash_in_shard_range (m_output_range s) h) eqn:E; simpl.
  - case_test; destruct c; unfold set_sets; simpl; f_equal;
      apply set_eq; intros x; destruct (decide (x = h)); set_solver.
  - destruct c; unfold set_sets; simpl; f_equal; set_solver.
Qed.

(** ** Contention-free batches *)

(** The owned inputs of different transactions of a batch are disjoint. *)
Fixpoint disjoint_txs (own : hash_t → bool) (txs : list compact_tx.t) : Prop :=
  match txs with
  | [] => True
  | tx :: txs =>
      (∀ tx', tx' ∈ txs → ins own tx ## ins own tx') ∧ disjoint_txs own txs
  end.

#[global] Instance disjoint_txs_dec own txs : Decision (disjoint_txs own txs).
Proof.
  induction txs as [|tx txs IH]; simpl; [apply _|].
  apply and_dec; [|exact IH].
  refine (cast_if (decide (Forall (λ tx', ins own tx ## ins own tx') txs)));
    by rewrite <- Forall_forall.
Defined.

Definition all_ins (own : hash_t → bool) (txs : list compact_tx.t)
    : gset hash_t := ⋃ (ins own <$> txs).

Lemma elem_of_all_ins own txs h :
  h ∈ all_ins own txs ↔ ∃ tx, tx ∈ txs ∧ h ∈ ins own tx.
Proof.
  unfold all_ins. rewrite elem_of_union_list. setoid_rewrite list_elem_of_fmap.
  naive_solver.
Qed.

Lemma all_ins_cons own tx txs :
  all_ins own (tx :: txs) = ins own tx ∪ all_ins own txs.
Proof. done. Qed.

(** The transactions a completion vector selects. *)
Fixpoint committed (txs : list compact_tx.t) (complete : list bool)
    : list compact_tx.t :=
  match txs, complete with
  | tx :: txs, c :: complete =>
      (if c then [tx] else []) ++ committed txs complete
  | _, _ => []
  end.

Lemma committed_sub txs complete tx : tx ∈ committed txs complete → tx ∈ txs.
Proof.
  revert complete. induction txs as [|tx0 txs IH]; intros [|c complete]; simpl;
    try by intros ?%elem_of_nil.
  intros [Hc|Hc]%elem_of_app; [|right; eauto].
  destruct c; [|by apply elem_of_nil in Hc].
  apply list_elem_of_singleton in Hc as ->. left.
Qed.

Section Specs.
Context `{Hasher} `{Secp256k1}.

(** The answer of a shard for one transaction. *)
Definition lock_result (s : t) (tx : compact_tx.t) : bool :=
  check_attestations tx (m_sentinel_public_keys s) (m_attestation_threshold s)
  && bool_decide (ins (range_of s) tx ⊆ m_uhs s).

Definition lock_set (s : t) (txs : list compact_tx.t) : gset hash_t :=
  all_ins (range_of s) (filter (λ tx, lock_result s tx = true) txs).

Definition nodup_ins (s : t) (tx : compact_tx.t) : Prop :=
  NoDup (filter (λ h, range_of s h = true) (compact_tx.m_inputs tx)).

#[global] Instance nodup_ins_dec s tx : Decision (nodup_ins s tx).
Proof. unfold nodup_ins. apply _. Defined.

Lemma check_and_lock_tx_spec s tx :
  nodup_ins s tx →
  check_and_lock_tx s tx =
    Ret (if lock_result s tx
         then set_sets s (m_uhs s ∖ ins (range_of s) tx)
                (ins (range_of s) tx ∪ m_locked s)
         else s, lock_result s tx).
Proof.
  intros Hnd. unfold check_and_lock_tx, lock_result. rewrite inputs_present_spec.
  destruct (check_attestations _ _ _); simpl; [|done].
  unfold ins. case_bool_decide as Hsub; [|done].
  by rewrite (lock_inputs_spec s _ Hnd Hsub).
Qed.

Lemma lock_result_ext s u l tx :
  (∀ h, h ∈ ins (range_of s) tx → h ∈ u ↔ h ∈ m_uhs s) →
  lock_result (set_sets s u l) tx = lock_result s tx.
Proof.
  intros Hu. unfold lock_result; simpl. f_equal. apply bool_decide_ext.
  set_solver.
Qed.

Lemma lock_set_ext s u l txs :
  (∀ tx h, tx ∈ txs → h ∈ ins (range_of s) tx → h ∈ u ↔ h ∈ m_uhs s) →
  lock_set (set_sets s u l) txs = lock_set s txs.
Proof.
  intros Hu. unfold lock_set; simpl. apply set_eq. intros h.
  rewrite !elem_of_all_ins. setoid_rewrite list_elem_of_filter.
  split; intros (tx & [Hr Htx] & Hh); exists tx;
    (rewrite lock_result_ext in * by eauto); done.
Qed.

Lemma lock_set_cons s tx txs :
  lock_set s (tx :: txs) =
    (if lock_result s tx then ins (range_of s) tx else ∅) ∪ lock_set s txs.
Proof.
  unfold lock_set. rewrite filter_cons.
  destruct (lock_result s tx) eqn:E; case_decide as Hd; try congruence.
  - apply all_ins_cons.
  - by rewrite (left_id_L ∅ (∪)).
Qed.

Lemma lock_set_sub s txs : lock_set s txs ⊆ m_uhs s ∩ all_ins (range_of s) txs.
Proof.
  intros h (tx & Htx & Hh)%elem_of_all_ins.
  apply list_elem_of_filter in Htx as [Hr Htx].
  unfold lock_result in Hr. bools. apply elem_of_intersection. split; [set_solver|].
  apply elem_of_all_ins. eauto.
Qed.

(** Locking a contention-free batch: every answer is determined by the state
    before the batch, and exactly the inputs of the accepted transactions
    move from the unspent to the locked set. *)
Lemma lock_txs_spec s txs :
  Forall (nodup_ins s) txs → disjoint_txs (range_of s) txs →
  lock_txs s txs =
    Ret (set_sets s (m_uhs s ∖ lock_set s txs) (lock_set s txs ∪ m_locked s),
         lock_result s <$> txs).
Proof.
  revert s. induction txs as [|tx txs IH]; intros s Hnd Hdis; simpl.
  { unfold lock_set. rewrite filter_nil. unfold all_ins; simpl.
    by rewrite difference_empty_L, (left_id_L ∅ (∪)), set_sets_id. }
  inversion_clear Hnd as [|?? Hn Hnd']. destruct Hdis as [Hd Hdis].
  rewrite check_and_lock_tx_spec by done. simpl. rewrite lock_set_cons.
  destruct (lock_result s tx) eqn:E.
  - assert (∀ tx' h, tx' ∈ txs → h ∈ ins (range_of s) tx' →
      h ∈ m_uhs s ∖ ins (range_of s) tx ↔ h ∈ m_uhs s) as Hext.
    { intros tx' h Htx' Hh. specialize (Hd tx' Htx'). set_solver. }
    rewrite IH by done. simpl. rewrite lock_set_ext by done.
    f_equal. f_equal.
    + unfold set_sets; simpl. f_equal; set_solver.
    + f_equal. apply list_fmap_ext. intros i tx' Hl.
      apply lock_result_ext. eauto using list_elem_of_lookup_2.
  - rewrite IH by done. simpl. by rewrite (left_id_L ∅ (∪)).
Qed.

End Specs.

(** ** Applying a batch *)

Lemma fresh_history_mono own K1 K2 txs :
  K1 ⊆ K2 → fresh_history own K2 txs → fresh_history own K1 txs.
Proof.
  revert K1 K2. induction txs as [|tx txs IH]; intros K1 K2 Hsub; simpl; [done|].
  intros [? ?]. split; [set_solver|]. eapply IH; [|done]. set_solver.
Qed.

(** What applying one transaction does to the sets, whatever they hold. *)
Lemma apply_tx_sets s tx c :
  cache_set.wf (m_completed_txs s) →
  ∃ cache, cache_set.wf cache ∧
    apply_tx s tx c =
      Ret (set_completed (set_sets s
        (m_uhs s ∪ (if c then outs (range_of s) tx else ∅)
           ∪ (if c then ∅ else ins (range_of s) tx ∩ m_locked s))
        (m_locked s ∖ ins (range_of s) tx)) cache).
Proof.
  intros Hwf. unfold apply_tx, add_completed.
  assert (∃ cache, cache_set.wf cache ∧
    (if in_range s (compact_tx.m_id tx)
     then let! r := cache_set.add (m_completed_txs s) (compact_tx.m_id tx) in
          Ret (set_completed s r.1) else Ret s) = Ret (set_completed s cache))
    as (cache & Hcw & ->).
  { destruct (in_range s _).
    - destruct (cache_set.add_spec (m_completed_txs s) (compact_tx.m_id tx) Hwf)
        as (c' & -> & Hw & _). by exists c'.
    - exists (m_completed_txs s). split; [done|]. by destruct s. }
  cbn [obind]. rewrite add_outputs_spec, unlock_inputs_spec. shard_cbn.
  fold (ins (range_of s) tx) (outs (range_of s) tx).
  by exists cache.
Qed.

(** One transaction: a completed one is the abstract step on the unspent
    set, an aborted one leaves the unspent set alone; either way its inputs
    are no longer locked. *)
Lemma apply_tx_spec s tx c :
  cache_set.wf (m_completed_txs s) → m_uhs s ## m_locked s →
  (c = true → ins (range_of s) tx ⊆ m_locked s ∧
              outs (range_of s) tx ## unspent s) →
  ∃ u cache, cache_set.wf cache ∧
    apply_tx s tx c =
      Ret (set_completed (set_sets s u (m_locked s ∖ ins (range_of s) tx))
             cache) ∧
    u ## m_locked s ∖ ins (range_of s) tx ∧
    u ∪ (m_locked s ∖ ins (range_of s) tx) =
      (if c then uhs_apply (range_of s) (unspent s) tx else unspent s).
Proof.
  intros Hwf Hdis Hc. destruct (apply_tx_sets s tx c Hwf) as (cache & Hcw & ->).
  exists (m_uhs s ∪ (if c then outs (range_of s) tx else ∅)
            ∪ (if c then ∅ else ins (range_of s) tx ∩ m_locked s)), cache.
  split; [done|]. split; [reflexivity|].
  unfold unspent, uhs_apply in *. destruct c.
  - destruct (Hc eq_refl) as [Hi Ho]. split; [set_solver|].
    apply set_eq. intros h. destruct (decide (h ∈ ins (range_of s) tx));
      set_solver.
  - split; [set_solver|]. apply set_eq. intros h.
    destruct (decide (h ∈ ins (range_of s) tx)); set_solver.
Qed.

Lemma set_completed_completed s u l c u' l' c' :
  set_completed (set_sets (set_completed (set_sets s u l) c) u' l') c' =
    set_completed (set_sets s u' l') c'.
Proof. done. Qed.

Lemma apply_txs_spec s txs complete :
  cache_set.wf (m_completed_txs s) → m_uhs s ## m_locked s →
  disjoint_txs (range_of s) txs → length complete = length txs →
  (∀ tx, tx ∈ committed txs complete → ins (range_of s) tx ⊆ m_locked s) →
  fresh_history (range_of s) (unspent s) (committed txs complete) →
  ∃ u cache, cache_set.wf cache ∧
    apply_txs s txs complete =
      Ret (set_completed
             (set_sets s u (m_locked s ∖ all_ins (range_of s) txs)) cache) ∧
    u ## m_locked s ∖ all_ins (range_of s) txs ∧
    uhs_run (range_of s) (unspent s) (committed txs complete)
      (u ∪ (m_locked s ∖ all_ins (range_of s) txs)).
Proof.
  revert s complete. induction txs as [|tx txs IH];
    intros s [|c complete] Hwf Hdis Hpair Hlen Hlock Hfresh; try done.
  { exists (m_uhs s), (m_completed_txs s). unfold all_ins; simpl.
    rewrite difference_empty_L. split_and!; [done| |done|].
    - destruct s; done.
    - constructor. }
  simpl in Hlen, Hpair, Hlock, Hfresh. destruct Hpair as [Hd Hpair].
  destruct (apply_tx_spec s tx c Hwf Hdis) as (u & cache & Hcw & E & Hdis1 & Hu).
  { intros ->. simpl in *. destruct Hfresh as [Ho _]. split; [|done].
    apply Hlock. left. }
  set (s1 := set_completed
    (set_sets s u (m_locked s ∖ ins (range_of s) tx)) cache) in *.
  assert (unspent s1 = if c then uhs_apply (range_of s) (unspent s) tx
                       else unspent s) as Hun by exact Hu.
  destruct (IH s1 complete) as (u2 & cache2 & Hcw2 & E2 & Hdis2 & Hrun2);
    [done|done|done|lia| | |].
  { intros tx' Htx'. simpl.
    assert (tx' ∈ txs) as Hin by eauto using committed_sub.
    specialize (Hd tx' Hin). specialize (Hlock tx').
    rewrite elem_of_app in Hlock. specialize (Hlock (or_intror Htx')).
    set_solver. }
  { rewrite Hun. change (range_of s1) with (range_of s).
    destruct c; simpl in Hfresh; [|done]. destruct Hfresh as [_ Hf].
    eapply fresh_history_mono; [|exact Hf]. unfold uhs_apply. set_solver. }
  exists u2, cache2. simpl in *. rewrite all_ins_cons, <- difference_difference_l_L.
  split_and!; [done| |done|].
  - rewrite E. simpl. rewrite E2. done.
  - rewrite Hun in Hrun2. destruct c; simpl in *; [|done].
    constructor; [|by destruct Hfresh|done].
    assert (ins (range_of s) tx ⊆ m_locked s) by (apply Hlock; left).
    unfold unspent. set_solver.
Qed.

(** ** The shard invariant *)

Record shard_inv (s : t) : Prop := {
  inv_disjoint : m_uhs s ## m_locked s;
  inv_results d p :
    m_prepared_dtxs s !! d = Some p → length (m_results p) = length (m_txs p);
  inv_locked d p tx :
    m_prepared_dtxs s !! d = Some p → tx ∈ committed (m_txs p) (m_results p) →
    ins (range_of s) tx ⊆ m_locked s;
  inv_batch d p :
    m_prepared_dtxs s !! d = Some p → disjoint_txs (range_of s) (m_txs p);
  inv_cross d1 d2 p1 p2 :
    d1 ≠ d2 → m_prepared_dtxs s !! d1 = Some p1 →
    m_prepared_dtxs s !! d2 = Some p2 →
    all_ins (range_of s) (m_txs p1) ## all_ins (range_of s) (m_txs p2);
  inv_cache : cache_set.wf (m_completed_txs s);
  inv_owned h : h ∈ unspent s → range_of s h = true
}.

(** A batch that competes for no input with itself or with a batch that is
    still prepared. *)
Record admissible (s : t) (txs : list compact_tx.t) : Prop := {
  adm_nodup : Forall (nodup_ins s) txs;
  adm_batch : disjoint_txs (range_of s) txs;
  adm_cross d p :
    m_prepared_dtxs s !! d = Some p →
    all_ins (range_of s) txs ## all_ins (range_of s) (m_txs p)
}.

(** The coordinator only completes what this shard locked. *)
Definition complete_ok (p : prepared_dtx) (complete : list bool) : Prop :=
  Forall2 (λ c r, c = true → r = true) complete (m_results p).

Lemma committed_mono txs complete results :
  Forall2 (λ c r, c = true → r = true) complete results →
  ∀ tx, tx ∈ committed txs complete → tx ∈ committed txs results.
Proof.
  intros Hf. revert txs. induction Hf as [|c r complete results Hcr _ IH];
    intros [|tx0 txs] tx; simpl; try done.
  rewrite !elem_of_app. intros [Hc|Hc]; [|right; eauto].
  destruct c; [|by apply elem_of_nil in Hc]. rewrite Hcr by done. by left.
Qed.

Lemma committed_fmap (f : compact_tx.t → bool) txs :
  committed txs (f <$> txs) = filter (λ tx, f tx = true) txs.
Proof.
  induction txs as [|tx txs IH]; simpl; [done|].
  rewrite filter_cons. fold (f <$> txs). rewrite IH.
  by destruct (f tx) eqn:E; case_decide.
Qed.

Lemma all_ins_committed own txs complete tx :
  tx ∈ committed txs complete → ins own tx ⊆ all_ins own txs.
Proof.
  intros Htx%committed_sub h Hh. apply elem_of_all_ins. eauto.
Qed.

Section MainSpecs.
Context `{Hasher} `{Secp256k1}.

Lemma lock_outputs_fresh s txs dtx_id :
  shard_inv s → m_running s = true → m_prepared_dtxs s !! dtx_id = None →
  admissible s txs →
  ∃ s', lock_outputs s txs dtx_id = Ret (s', Some (lock_result s <$> txs)) ∧
    shard_inv s' ∧ m_running s' = true ∧
    m_output_range s' = m_output_range s ∧ unspent s' = unspent s ∧
    m_uhs s' = m_uhs s ∖ lock_set s txs ∧
    m_prepared_dtxs s' =
      <[ dtx_id := {| m_txs := txs; m_results := lock_result s <$> txs |} ]>
        (m_prepared_dtxs s).
Proof.
  intros [Hd Hr Hl Hb Hx Hc Ho] Hrun Hnone [An Ab Ax]. unfold lock_outputs.
  rewrite Hrun, Hnone. simpl negb. cbv iota.
  rewrite lock_txs_spec by done. shard_cbn.
  pose proof (lock_set_sub s txs) as Hsub.
  eexists. split; [reflexivity|]. unfold unspent. shard_cbn.
  split; [|split_and!; try done; apply set_eq; intros h;
           destruct (decide (h ∈ lock_set s txs)); set_solver].
  constructor; shard_cbn; [set_solver| | | | |done|].
  - intros d p [[<- <-]|[_ ?]]%lookup_insert_Some; [shard_cbn; by rewrite length_fmap|eauto].
  - intros d p tx [[<- <-]|[_ Hp]]%lookup_insert_Some Htx; shard_cbn.
    + rewrite committed_fmap in Htx. intros h Hh. apply elem_of_union_l.
      apply elem_of_all_ins. eauto.
    + specialize (Hl d p tx Hp Htx). set_solver.
  - intros d p [[<- <-]|[_ ?]]%lookup_insert_Some; [done|eauto].
  - intros d1 d2 p1 p2 Hne [[<- <-]|[_ Hp1]]%lookup_insert_Some
      [[<- <-]|[_ Hp2]]%lookup_insert_Some; shard_cbn; [done|..]; eauto.
    symmetry. eauto.
  - intros h Hh. apply Ho. unfold unspent in *. shard_cbn. set_solver.
Qed.

(** A repeated lock, as a retrying coordinator sends it, gets the recorded
    answer and changes nothing. *)
Lemma lock_outputs_prepared s txs dtx_id p :
  m_running s = true → m_prepared_dtxs s !! dtx_id = Some p →
  lock_outputs s txs dtx_id = Ret (s, Some (m_results p)).
Proof. intros Hrun Hp. unfold lock_outputs. by rewrite Hrun, Hp. Qed.

Lemma apply_outputs_prepared s complete dtx_id p :
  shard_inv s → m_running s = true →
  m_prepared_dtxs s !! dtx_id = Some p → complete_ok p complete →
  fresh_history (range_of s) (unspent s) (committed (m_txs p) complete) →
  ∃ s', apply_outputs s complete dtx_id = Ret (s', true) ∧
    shard_inv s' ∧ m_running s' = true ∧
    m_output_range s' = m_output_range s ∧
    uhs_run (range_of s) (unspent s) (committed (m_txs p) complete)
      (unspent s') ∧
    m_prepared_dtxs s' = delete dtx_id (m_prepared_dtxs s) ∧
    dtx_id ∈ m_applied_dtxs s'.
Proof.
  intros [Hd Hr Hl Hb Hx Hc Ho] Hrun Hp Hok Hfresh. unfold apply_outputs.
  rewrite Hrun, Hp. simpl negb. cbv iota.
  assert (length complete = length (m_txs p)) as Hlen.
  { rewrite <- (Hr _ _ Hp). by eapply Forall2_length. }
  rewrite decide_False by (intros Hn; by apply Hn).
  destruct (apply_txs_spec s (m_txs p) complete)
    as (u & cache & Hcw & E & Hdis & Hruns); try done.
  { by eapply Hb. }
  { intros tx Htx. eapply Hl; [exact Hp|]. by eapply committed_mono. }
  rewrite E. shard_cbn. eexists. split; [reflexivity|]. unfold unspent.
  shard_cbn.
  split; [|split_and!; try done; set_solver].
  constructor; shard_cbn; [done| | | | |done|].
  - intros d q [_ Hq]%lookup_delete_Some. eauto.
  - intros d q tx [Hne Hq]%lookup_delete_Some Htx.
    pose proof (Hl _ _ _ Hq Htx). pose proof (Hx _ _ _ _ Hne Hp Hq).
    pose proof (all_ins_committed (range_of s) _ _ _ Htx). set_solver.
  - intros d q [_ Hq]%lookup_delete_Some. eauto.
  - intros d1 d2 q1 q2 Hne [_ H1]%lookup_delete_Some [_ H2]%lookup_delete_Some.
    eauto.
  - exact (uhs_run_owned _ _ _ _ Hruns Ho).
Qed.

(** A repeated apply after the batch is applied, as a retrying coordinator
    sends it, succeeds and changes nothing. *)
Lemma apply_outputs_applied s complete dtx_id :
  m_running s = true → m_prepared_dtxs s !! dtx_id = None →
  dtx_id ∈ m_applied_dtxs s →
  apply_outputs s complete dtx_id = Ret (s, true).
Proof.
  intros Hrun Hp Ha. unfold apply_outputs. rewrite Hrun, Hp. simpl.
  by rewrite decide_True.
Qed.

Lemma discard_dtx_spec s dtx_id :
  shard_inv s → m_running s = true →
  ∃ s', discard_dtx s dtx_id = (s', true) ∧ shard_inv s' ∧
    m_running s' = true ∧ m_output_range s' = m_output_range s ∧
    unspent s' = unspent s ∧ m_prepared_dtxs s' = m_prepared_dtxs s.
Proof.
  intros [] Hrun. unfold discard_dtx. rewrite Hrun. eexists.
  split; [done|]. shard_cbn. rewrite Hrun. split_and!; try done.
Qed.

End MainSpecs.

Lemma init_inv range n uhs keys threshold :
  (∀ h, h ∈ uhs → hash_in_shard_range range h = true) →
  shard_inv (init range n uhs keys threshold).
Proof.
  intros Ho. constructor; simpl; try (intros *; by rewrite ?lookup_empty);
    [apply cache_set.init_wf|].
  intros h. unfold unspent; simpl. rewrite (right_id_L ∅ (∪)). apply Ho.
Qed.

End shard_lemmas.

(** ** Histories of a shard *)

Section History.
Context `{Hasher} `{Secp256k1}.
Import locking_shard shard_lemmas.

Abbreviation own s := (hash_in_shard_range (m_output_range s)) (only parsing).

(** A history is any list of requests; the shard processes them in order. *)
Fixpoint serve (s : t) (reqs : list (hash_t * shard_params))
    : outcome (t * list shard_response) :=
  match reqs with
  | [] => Ret (s, [])
  | (dtx_id, params) :: reqs =>
      let! '(s1, resp) := shard_state_machine.process_request s dtx_id params in
      let! '(s2, resps) := serve s1 reqs in
      Ret (s2, resp :: resps)
  end.

(** The transactions a request completes. *)
Definition completes (s : t) (dtx_id : hash_t) (params : shard_params) : list compact_tx.t :=
  match params, m_prepared_dtxs s !! dtx_id with
  | apply_params complete, Some p => committed (m_txs p) complete
  | _, _ => []
  end.

Fixpoint completed_by (s : t) (reqs : list (hash_t * shard_params)) : list compact_tx.t :=
  match reqs with
  | [] => []
  | (dtx_id, params) :: reqs =>
      completes s dtx_id params ++
      match shard_state_machine.process_request s dtx_id params with
      | Ret (s', _) => completed_by s' reqs
      | Fatal => []
      end
  end.

(** A request that does not compete: a new batch is [admissible], completion
    flags select among what the shard has locked and create only new hashes,
    and a batch that is not prepared is only applied again. *)
Definition uncontended_request (s : t) (dtx_id : hash_t) (params : shard_params) : Prop :=
  match params with
  | lock_params txs => m_prepared_dtxs s !! dtx_id = None → admissible s txs
  | apply_params complete =>
      match m_prepared_dtxs s !! dtx_id with
      | Some p => complete_ok p complete ∧
          fresh_history (own s) (unspent s) (committed (m_txs p) complete)
      | None => dtx_id ∈ m_applied_dtxs s
      end
  | discard_params => True
  end.

Fixpoint uncontended (s : t) (reqs : list (hash_t * shard_params)) : Prop :=
  match reqs with
  | [] => True
  | (dtx_id, params) :: reqs =>
      uncontended_request s dtx_id params ∧
      ∀ s' resp, shard_state_machine.process_request s dtx_id params = Ret (s', resp) →
        uncontended s' reqs
  end.

(** *** Any history *)

(** What was unspent before or was created, and what was not consumed. *)
Definition accounted (f : hash_t → bool) (U : gset hash_t) (txs : list compact_tx.t)
    (U' : gset hash_t) : Prop :=
  U' ⊆ U ∪ ⋃ (outs f <$> txs) ∧ U ⊆ U' ∪ ⋃ (ins f <$> txs).

Lemma accounted_app f U1 U2 U3 l1 l2 :
  accounted f U1 l1 U2 → accounted f U2 l2 U3 → accounted f U1 (l1 ++ l2) U3.
Proof.
  unfold accounted. rewrite !fmap_app, !union_list_app_L. intros [? ?] [? ?]. set_solver.
Qed.

Lemma accounted_same f U txs : accounted f U txs U.
Proof. unfold accounted. set_solver. Qed.

(** Locking keeps the unspent set. *)
Lemma lock_txs_any txs : ∀ s s' r,
  lock_txs s txs = Ret (s', r) →
  unspent s' = unspent s ∧ m_output_range s' = m_output_range s.
Proof.
  assert (∀ l s s', lock_inputs s l = Ret s' →
    unspent s' = unspent s ∧ m_output_range s' = m_output_range s) as Hl.
  { induction l as [|h l IH]; intros s s' E; simpl in E; [by simplify_eq|].
    destruct (in_range s h); [|by apply IH]. case_decide as Hin; [|done].
    apply IH in E as [-> ->]. split; [|done]. unfold unspent. cbn. apply set_eq. intros x.
    destruct (decide (x = h)); set_solver. }
  induction txs as [|tx txs IH]; intros s s' r E; simpl in E; [by simplify_eq|].
  destruct (check_and_lock_tx s tx) as [[s1 ok]|] eqn:E1; [|done]. simpl in E.
  destruct (lock_txs s1 txs) as [[s2 ret]|] eqn:E2; [|done]. simplify_eq/=.
  apply IH in E2 as [-> ->]. unfold check_and_lock_tx in E1.
  destruct (_ && _); [|by simplify_eq].
  destruct (lock_inputs s _) as [s3|] eqn:E3; [|done]. simplify_eq/=. by apply (Hl _ _ _ E3).
Qed.

(** Applying changes it by the completed transactions at most, whatever the
    flags say. *)
Lemma apply_tx_any s tx c s' :
  apply_tx s tx c = Ret s' →
  accounted (own s) (unspent s) (if c then [tx] else []) (unspent s') ∧
  m_output_range s' = m_output_range s.
Proof.
  unfold apply_tx, add_completed. intros E.
  assert (∃ cache, s' = unlock_inputs (add_outputs (set_completed s cache) c
    (compact_tx.m_uhs_outputs tx)) c (compact_tx.m_inputs tx)) as [cache ->].
  { destruct (in_range s _); [|exists (m_completed_txs s); destruct s; cbn in E; by simplify_eq].
    destruct (cache_set.add _ _) as [[cache r]|]; [|done]. exists cache. by simplify_eq/=. }
  clear E. rewrite add_outputs_spec, unlock_inputs_spec. shard_cbn. split; [|done].
  fold (ins (own s) tx) (outs (own s) tx). unfold accounted, unspent. shard_cbn.
  destruct c; csimpl.
  - rewrite !(right_id_L ∅ (∪)). split; [set_solver|]. intros h Hh.
    destruct (decide (h ∈ ins (own s) tx)); set_solver.
  - rewrite !(right_id_L ∅ (∪)). split; [set_solver|]. intros h Hh.
    destruct (decide (h ∈ ins (own s) tx)); set_solver.
Qed.

Lemma apply_txs_any txs : ∀ s complete s',
  apply_txs s txs complete = Ret s' →
  accounted (own s) (unspent s) (committed txs complete) (unspent s') ∧
  m_output_range s' = m_output_range s.
Proof.
  induction txs as [|tx txs IH]; intros s complete s' E; simpl in E.
  { simplify_eq. split; [apply accounted_same|done]. }
  destruct complete as [|c complete]; [simplify_eq; split; [apply accounted_same|done]|].
  destruct (apply_tx s tx c) as [s1|] eqn:E1; [|done]. simpl in E.
  apply apply_tx_any in E1 as [H1 R1]. apply IH in E as [H2 R2]. rewrite R1 in H2.
  split; [by eapply accounted_app|congruence].
Qed.

Lemma process_request_any s d params s' resp :
  shard_state_machine.process_request s d params = Ret (s', resp) →
  accounted (own s) (unspent s) (completes s d params) (unspent s') ∧
  m_output_range s' = m_output_range s.
Proof.
  unfold shard_state_machine.process_request, completes. destruct params as [txs|complete|].
  - unfold lock_outputs. destruct (m_running s); [cbn [negb]|done].
    destruct (m_prepared_dtxs s !! d) as [p|].
    { intros E. simplify_eq/=. split; [apply accounted_same|done]. }
    destruct (lock_txs s txs) as [[s1 r]|] eqn:E1; [|done]. intros E. simplify_eq/=.
    apply lock_txs_any in E1 as [Hu Hr]. unfold unspent in *. shard_cbn. rewrite Hu.
    split; [apply accounted_same|done].
  - unfold apply_outputs. destruct (m_running s); [cbn [negb]|done].
    destruct (m_prepared_dtxs s !! d) as [p|].
    + case_decide; [done|]. destruct (apply_txs s _ complete) as [s1|] eqn:E1; [|done].
      intros E. simplify_eq/=. by apply apply_txs_any in E1.
    + case_decide; [|done]. intros E. simplify_eq/=. split; [apply accounted_same|done].
  - unfold discard_dtx. destruct (m_running s); [|done]. intros E. simplify_eq/=.
    split; [apply accounted_same|done].
Qed.

Lemma serve_any reqs : ∀ s s' resps,
  serve s reqs = Ret (s', resps) →
  accounted (own s) (unspent s) (completed_by s reqs) (unspent s').
Proof.
  induction reqs as [|[d params] reqs IH]; intros s s' resps E; cbn [serve completed_by] in *.
  { simplify_eq. apply accounted_same. }
  destruct (shard_state_machine.process_request s d params) as [[s1 resp]|] eqn:E1; [|done].
  cbn in E. destruct (serve s1 reqs) as [[s2 rs]|] eqn:E2; [|done]. simplify_eq/=.
  apply process_request_any in E1 as [H1 R1]. apply IH in E2. rewrite R1 in E2.
  by eapply accounted_app.
Qed.

(** *** Histories without competition *)

Lemma process_request_uncontended s d params :
  shard_inv s → m_running s = true → uncontended_request s d params →
  ∃ s' resp, shard_state_machine.process_request s d params = Ret (s', resp) ∧
    shard_inv s' ∧ m_running s' = true ∧ m_output_range s' = m_output_range s ∧
    uhs_run (own s) (unspent s) (completes s d params) (unspent s').
Proof.
  intros Hinv Hrun Hu. unfold shard_state_machine.process_request, completes.
  destruct params as [txs|complete|]; cbn [uncontended_request] in Hu.
  - destruct (m_prepared_dtxs s !! d) as [p|] eqn:Hp.
    + rewrite (lock_outputs_prepared _ _ _ p) by done. cbn. do 2 eexists. auto 6 with cbdc.
    + destruct (lock_outputs_fresh s txs d) as (s1 & -> & ? & ? & ? & Hun & _); auto.
      cbn. do 2 eexists. rewrite Hun. auto 6 with cbdc.
  - destruct (m_prepared_dtxs s !! d) as [p|] eqn:Hp.
    + destruct Hu as [Hok Hf].
      destruct (apply_outputs_prepared s complete d p) as (s1 & -> & ? & ? & ? & Hun & _); auto.
      cbn. do 2 eexists. auto 6.
    + rewrite apply_outputs_applied by done. cbn. do 2 eexists. auto 6 with cbdc.
  - destruct (discard_dtx_spec s d) as (s1 & -> & ? & ? & ? & Hun & _); auto.
    cbn. do 2 eexists. rewrite Hun. destruct (m_prepared_dtxs s !! d); auto 6 with cbdc.
Qed.

Lemma serve_uncontended reqs : ∀ s,
  shard_inv s → m_running s = true → uncontended s reqs →
  ∃ s' resps, serve s reqs = Ret (s', resps) ∧ shard_inv s' ∧
    uhs_run (own s) (unspent s) (completed_by s reqs) (unspent s').
Proof.
  induction reqs as [|[d params] reqs IH]; intros s Hinv Hrun Hu; cbn [serve completed_by].
  { do 2 eexists. auto with cbdc. }
  destruct Hu as [H1 Hu].
  destruct (process_request_uncontended s d params Hinv Hrun H1)
    as (s1 & resp & E1 & Hi1 & Hr1 & Hm1 & Hrun1). rewrite E1. cbn [obind].
  destruct (IH s1 Hi1 Hr1 (Hu _ _ E1)) as (s2 & rs & -> & Hi2 & Hrun2). cbn [obind].
  do 2 eexists. split; [done|]. split; [done|]. rewrite Hm1 in Hrun2. by eapply uhs_run_app.
Qed.

(** C7: the life of a batch that competes for nothing: no input in range is
    named twice by the batch or by a batch still prepared ([admissible]), the
    id is new, and the hashes it creates are new.  Locking it on a running
    shard answers, per transaction, whether it is attested and all its
    inputs in range are unspent and unlocked; completing the transactions
    the coordinator selects among the locked ones then changes what
    [check_unspent] reports by exactly their inputs and outputs. *)
Theorem lock_apply_is_uhs_update s txs dtx_id complete :
  shard_inv s → m_running s = true → m_prepared_dtxs s !! dtx_id = None →
  admissible s txs →
  Forall2 (λ c r, c = true → r = true) complete (lock_result s <$> txs) →
  fresh_history (hash_in_shard_range (m_output_range s)) (unspent s)
    (committed txs complete) →
  ∃ s1 s2,
    lock_outputs s txs dtx_id = Ret (s1, Some (lock_result s <$> txs)) ∧
    (∀ h, check_unspent s1 h = check_unspent s h) ∧
    apply_outputs s1 complete dtx_id = Ret (s2, true) ∧
    (∀ h, check_unspent s2 h = Some (bool_decide (h ∈
       foldl (uhs_apply (hash_in_shard_range (m_output_range s))) (unspent s)
         (committed txs complete)))) ∧
    m_prepared_dtxs s2 = m_prepared_dtxs s.
Proof.
  intros Hinv Hrun Hp Ha Hc Hf.
  assert (∀ s h, check_unspent s h = Some (bool_decide (h ∈ unspent s))) as Hcu.
  { intros s0 h. unfold check_unspent, unspent. f_equal.
    rewrite <- bool_decide_or. apply bool_decide_ext. by rewrite elem_of_union. }
  destruct (lock_outputs_fresh s txs dtx_id)
    as (s1 & E1 & Hi1 & Hr1 & Hm1 & Hu1 & _ & Hp1); try done.
  destruct (apply_outputs_prepared s1 complete dtx_id
    {| m_txs := txs; m_results := lock_result s <$> txs |})
    as (s2 & E2 & _ & _ & _ & Hu2 & Hp2 & _); try done.
  { rewrite Hp1. apply lookup_insert_eq. }
  { by rewrite Hm1, Hu1. }
  exists s1, s2. split_and!; [done| |done| |].
  - intros h. by rewrite !Hcu, Hu1.
  - intros h. rewrite Hcu. rewrite Hm1, Hu1 in Hu2.
    by rewrite (uhs_run_foldl _ _ _ _ Hu2).
  - rewrite Hp2, Hp1. by apply delete_insert_id.
Qed.


(** No input is consumed by two completed transactions of a history without
    competition when identifiers are created at most once. *)
Theorem shard_no_double_spend s reqs i j tx1 tx2 :
  shard_inv s → m_running s = true → uncontended s reqs →
  fresh_history (own s) (unspent s) (completed_by s reqs) →
  i < j → completed_by s reqs !! i = Some tx1 → completed_by s reqs !! j = Some tx2 →
  ins (own s) tx1 ## ins (own s) tx2.
Proof.
  intros Hinv Hrun Hu Hf.
  destruct (serve_uncontended reqs s Hinv Hrun Hu) as (s' & rs & _ & _ & Hr).
  by eapply no_double_spend_run.
Qed.

(** Retries are idempotent.  Repeating a lock returns the recorded
    answer and repeating an apply succeeds, both without changing the
    shard. *)
Theorem shard_retries_idempotent s txs txs' dtx_id complete complete' :
  shard_inv s → m_running s = true → m_prepared_dtxs s !! dtx_id = None →
  admissible s txs →
  Forall2 (λ c r, c = true → r = true) complete (lock_result s <$> txs) →
  fresh_history (hash_in_shard_range (m_output_range s)) (unspent s)
    (committed txs complete) →
  ∃ s1 s2 r, lock_outputs s txs dtx_id = Ret (s1, Some r) ∧
    lock_outputs s1 txs' dtx_id = Ret (s1, Some r) ∧
    apply_outputs s1 complete dtx_id = Ret (s2, true) ∧
    apply_outputs s2 complete' dtx_id = Ret (s2, true).
Proof.
  intros Hinv Hrun Hp Ha Hc Hf.
  destruct (lock_outputs_fresh s txs dtx_id)
    as (s1 & E1 & Hi1 & Hr1 & Hm1 & Hu1 & _ & Hp1); try done.
  set (p := {| m_txs := txs; m_results := lock_result s <$> txs |}) in *.
  assert (m_prepared_dtxs s1 !! dtx_id = Some p) as Hp1'.
  { rewrite Hp1. apply lookup_insert_eq. }
  destruct (apply_outputs_prepared s1 complete dtx_id p)
    as (s2 & E2 & _ & Hr2 & _ & _ & Hp2 & Ha2); try done.
  { by rewrite Hm1, Hu1. }
  exists s1, s2, (lock_result s <$> txs). split_and!; [done| |done|].
  - by rewrite (lock_outputs_prepared _ _ _ p).
  - apply apply_outputs_applied; [done| |done].
    rewrite Hp2. apply lookup_delete_eq.
Qed.

End History.

(** ** Concrete shards *)

Module shard_example.
Import locking_shard.

(** Identifiers are cut to their first byte, the one that routes them. *)
Definition hid (b : byte) : hash_t := [b].

Definition shard0 : t :=
  init (0, 255)%Z 4 {[ hid x01; hid x02 ]} ∅ 0.

(** Spends [x01] into [x03]. *)
Definition tx_a : compact_tx.t :=
  compact_tx.mk (hid xa0) [hid x01] [hid x03] ∅.
(** Spends [x02] into [x04]. *)
Definition tx_b : compact_tx.t :=
  compact_tx.mk (hid xb0) [hid x02] [hid x04] ∅.
(** Spends [x01] and the non-existent [x09]. *)
Definition tx_bad : compact_tx.t :=
  compact_tx.mk (hid xc0) [hid x01; hid x09] [hid x05] ∅.

Definition dtx : hash_t := hid xff.

End shard_example.

Section ShardFindings.
Context `{Hasher} `{Secp256k1}.
Import locking_shard shard_lemmas shard_example.


(** The shard records the id of every transaction of an applied batch,
    aborted ones included, and reports it as confirmed. *)
Theorem aborted_tx_reported_confirmed :
  (let! '(s1, locked) := lock_outputs shard0 [tx_bad] dtx in
   let! '(s2, applied) := apply_outputs s1 [false] dtx in
   Ret (locked, applied, check_tx_id s2 (compact_tx.m_id tx_bad))) =
  Ret (Some [false], true, Some true).
Proof. vm_compute. reflexivity. Qed.

End ShardFindings.

Section ShardWitnesses.
Import Toy locking_shard shard_lemmas shard_example.

Lemma shard0_inv : shard_inv shard0.
Proof.
  apply init_inv. intros h. rewrite elem_of_union, !elem_of_singleton.
  by intros [->| ->].
Qed.

Lemma sample_admissible : admissible shard0 [tx_a; tx_b].
Proof.
  constructor; [compute_decide..|].
  intros d p Hp. cbn in Hp. by apply lookup_empty_Some in Hp.
Qed.

Lemma sample_fresh :
  fresh_history (hash_in_shard_range (m_output_range shard0)) (unspent shard0)
    (committed [tx_a; tx_b] [true; false]).
Proof. compute_decide. Qed.

Lemma sample_complete :
  Forall2 (λ c r, c = true → r = true) [true; false]
    (lock_result shard0 <$> [tx_a; tx_b]).
Proof. repeat constructor; vm_compute; done. Qed.

Lemma lock_apply_is_uhs_update_witness :
  ∃ s1 s2,
    lock_outputs shard0 [tx_a; tx_b] dtx =
      Ret (s1, Some (lock_result shard0 <$> [tx_a; tx_b])) ∧
    (∀ h, check_unspent s1 h = check_unspent shard0 h) ∧
    apply_outputs s1 [true; false] dtx = Ret (s2, true) ∧
    (∀ h, check_unspent s2 h = Some (bool_decide (h ∈
       foldl (uhs_apply (hash_in_shard_range (m_output_range shard0)))
         (unspent shard0) (committed [tx_a; tx_b] [true; false])))) ∧
    m_prepared_dtxs s2 = m_prepared_dtxs shard0.
Proof.
  apply lock_apply_is_uhs_update; [apply shard0_inv|reflexivity|reflexivity
    |apply sample_admissible|apply sample_complete|apply sample_fresh].
Defined.

Lemma shard_retries_idempotent_witness :
  ∃ s1 s2 r, lock_outputs shard0 [tx_a; tx_b] dtx = Ret (s1, Some r) ∧
    lock_outputs s1 [] dtx = Ret (s1, Some r) ∧
    apply_outputs s1 [true; false] dtx = Ret (s2, true) ∧
    apply_outputs s2 [] dtx = Ret (s2, true).
Proof.
  apply shard_retries_idempotent; [apply shard0_inv|reflexivity|reflexivity
    |apply sample_admissible|apply sample_complete|apply sample_fresh].
Defined.

(** A batch locked and applied, as a history. *)
Definition sample_requests (complete : list bool) : list (hash_t * shard_params) :=
  [(dtx, lock_params [tx_a; tx_b]); (dtx, apply_params complete)].

Lemma sample_uncontended complete :
  Forall2 (λ c r, c = true → r = true) complete (lock_result shard0 <$> [tx_a; tx_b]) →
  fresh_history (hash_in_shard_range (m_output_range shard0)) (unspent shard0)
    (committed [tx_a; tx_b] complete) →
  uncontended shard0 (sample_requests complete).
Proof.
  intros Hok Hf. split; [intros _; apply sample_admissible|]. intros s1 resp E.
  destruct (lock_outputs_fresh shard0 [tx_a; tx_b] dtx)
    as (s1' & E1 & _ & _ & Hm1 & Hu1 & _ & Hp1);
    [apply shard0_inv|reflexivity|reflexivity|apply sample_admissible|].
  unfold shard_state_machine.process_request in E. rewrite E1 in E. simplify_eq/=.
  split; [|done]. rewrite Hp1, lookup_insert_eq. split; [done|]. by rewrite Hm1, Hu1.
Qed.

Lemma sample_completed complete :
  length complete = 2 →
  completed_by shard0 (sample_requests complete) = committed [tx_a; tx_b] complete.
Proof.
  destruct complete as [|b1 [|b2 [|]]]; [done..| |done]. intros _.
  destruct b1, b2; vm_compute; reflexivity.
Qed.


Lemma shard_no_double_spend_witness :
  ins (hash_in_shard_range (m_output_range shard0)) tx_a ##
  ins (hash_in_shard_range (m_output_range shard0)) tx_b.
Proof.
  assert (fresh_history (hash_in_shard_range (m_output_range shard0)) (unspent shard0)
    [tx_a; tx_b]) as Hf by compute_decide.
  apply (shard_no_double_spend shard0 (sample_requests [true; true]) 0 1);
    [apply shard0_inv|done| | |lia| |]; rewrite ?sample_completed by done; try done.
  apply sample_uncontended; [repeat constructor; vm_compute; done|exact Hf].
Defined.


End ShardWitnesses.
