(* ===== verification/DistributedTx.v ===== *)
(** * Distributed transactions

    Model of [src/uhs/twophase/coordinator/distributed_tx.{hpp,cpp}]: the
    coordinator of one batch.  It talks to the shards through
    [locking_shard::interface], here the class [ShardInterface], whose
    contract is the class [ShardLaws]; the locking shard of [LockingShard]
    is an instance of both.  The shards run concurrently and share no state:
    their calls are modelled in shard order. *)

From S2P Require Import Prelude Serialization Crypto Transaction Validation.
From S2P Require Import CacheSet UhsSpec LockingShard.
From Stdlib Require Import ZArith Lia.
From Stdlib.Strings Require Import Byte.
From stdpp Require Import base tactics numbers gmap sets list.
Open Scope cbdc_scope.

(** ** The shard interface *)

Class ShardInterface (Sh : Type) := {
  lock_outputs : Sh → list compact_tx.t → hash_t → outcome (Sh * option (list bool));
  apply_outputs : Sh → list bool → hash_t → outcome (Sh * bool);
  discard_dtx : Sh → hash_t → outcome (Sh * bool);
  in_shard_range : Sh → hash_t → bool
}.

(** ** State *)

Inductive dtx_state := start | prepare | commit | discard | done | failed.
#[export] Instance dtx_state_eq_dec : EqDecision dtx_state.
Proof. solve_decision. Defined.

(** The callbacks act on an environment [W], the coordinator's replicated
    log; an absent callback is [None]. *)
Record callbacks (W : Type) := {
  m_prepare_cb : option (W → hash_t → list compact_tx.t → W * bool);
  m_commit_cb : option (W → hash_t → list bool → list (list nat) → W * bool);
  m_discard_cb : option (W → hash_t → W * bool);
  m_done_cb : option (W → hash_t → W * bool)
}.
Arguments m_prepare_cb {W}.
Arguments m_commit_cb {W}.
Arguments m_discard_cb {W}.
Arguments m_done_cb {W}.

Definition no_callbacks (W : Type) : callbacks W :=
  {| m_prepare_cb := None; m_commit_cb := None; m_discard_cb := None;
     m_done_cb := None |}.

Module distributed_tx.

Record t (Sh : Type) := mk {
  m_dtx_id : hash_t;
  m_shards : list Sh;
  m_txs : list (list compact_tx.t);
  m_full_txs : list compact_tx.t;
  m_tx_idxs : list (list nat);
  m_state : dtx_state;
  m_complete_txs : list bool
}.
Arguments mk {Sh}.
Arguments m_dtx_id {Sh}.
Arguments m_shards {Sh}.
Arguments m_txs {Sh}.
Arguments m_full_txs {Sh}.
Arguments m_tx_idxs {Sh}.
Arguments m_state {Sh}.
Arguments m_complete_txs {Sh}.

Section Ops.
Context {Sh W : Type} `{ShardInterface Sh}.

Implicit Types d : t Sh.

Definition set_state d (st : dtx_state) : t Sh :=
  mk (m_dtx_id d) (m_shards d) (m_txs d) (m_full_txs d) (m_tx_idxs d) st
    (m_complete_txs d).

Definition set_shards d (shards : list Sh) : t Sh :=
  mk (m_dtx_id d) shards (m_txs d) (m_full_txs d) (m_tx_idxs d) (m_state d)
    (m_complete_txs d).

(** The constructor asserts that there are shards. *)
Definition create (dtx_id : hash_t) (shards : list Sh) : outcome (t Sh) :=
  match shards with
  | [] => Fatal
  | _ => Ret (mk dtx_id shards (replicate (length shards) []) []
                (replicate (length shards) []) start [])
  end.

(** ** Adding transactions *)

(** A shard takes part when it is responsible for the transaction id, an
    input or an output. *)
Definition active (sh : Sh) (tx : compact_tx.t) : bool :=
  in_shard_range sh (compact_tx.m_id tx) ||
  existsb (in_shard_range sh) (compact_tx.m_inputs tx) ||
  existsb (in_shard_range sh) (compact_tx.m_uhs_outputs tx).

Fixpoint add_to_shards (shards : list Sh) (tx : compact_tx.t) (idx : nat)
    (txs : list (list compact_tx.t)) (idxs : list (list nat))
    : list (list compact_tx.t) * list (list nat) :=
  match shards, txs, idxs with
  | sh :: shards, t :: txs, ix :: idxs =>
      let (txs', idxs') := add_to_shards shards tx idx txs idxs in
      if active sh tx then ((t ++ [tx]) :: txs', (ix ++ [idx]) :: idxs')
      else (t :: txs', ix :: idxs')
  | _, _, _ => (txs, idxs)
  end.

Definition add_tx d (tx : compact_tx.t) : t Sh * nat :=
  let (txs, idxs) :=
    add_to_shards (m_shards d) tx (length (m_full_txs d)) (m_txs d)
      (m_tx_idxs d) in
  (mk (m_dtx_id d) (m_shards d) txs (m_full_txs d ++ [tx]) idxs (m_state d)
     (m_complete_txs d), length (m_full_txs d)).

Definition add_txs d (txs : list compact_tx.t) : t Sh :=
  foldl (λ d tx, (add_tx d tx).1) d txs.

(** ** Prepare *)

(** The calls of the first loop, with the answer and the batch indices of
    every shard that takes part. *)
Fixpoint lock_shards (dtx_id : hash_t) (shards : list Sh)
    (txs : list (list compact_tx.t)) (idxs : list (list nat))
    : outcome (list Sh * list (option (list bool) * list nat)) :=
  match shards, txs, idxs with
  | sh :: shards, t :: txs, ix :: idxs =>
      match ix with
      | [] =>
          let! '(shards', fs) := lock_shards dtx_id shards txs idxs in
          Ret (sh :: shards', fs)
      | _ =>
          let! '(sh', res) := lock_outputs sh t dtx_id in
          let! '(shards', fs) := lock_shards dtx_id shards txs idxs in
          Ret (sh' :: shards', (res, ix) :: fs)
      end
  | _, _, _ => Ret (shards, [])
  end.

(** [ret[m_tx_idxs[s][i]] = false] for every negative answer. *)
Fixpoint clear_failed (ret : list bool) (res : list bool) (ix : list nat)
    : list bool :=
  match res, ix with
  | r :: res, k :: ix =>
      clear_failed (if (r : bool) then ret else <[ k := false ]> ret) res ix
  | _, _ => ret
  end.

Fixpoint collect (ret : list bool) (fs : list (option (list bool) * list nat))
    : outcome (option (list bool)) :=
  match fs with
  | [] => Ret (Some ret)
  | (None, _) :: _ => Ret None
  | (Some res, ix) :: fs =>
      if decide (length res ≠ length ix) then Fatal
      else collect (clear_failed ret res ix) fs
  end.

(** [prepare].  The code moves the lists of [m_txs] into the calls and does
    not read them again; here they stay. *)
Definition run_prepare (cbs : callbacks W) (w : W) d
    : outcome (W * t Sh * option (list bool)) :=
  let (w1, ok) :=
    match m_prepare_cb cbs with
    | Some cb => cb w (m_dtx_id d) (m_full_txs d)
    | None => (w, true)
    end in
  if negb ok then Ret (w1, set_state d failed, None) else
  let! '(shards, fs) :=
    lock_shards (m_dtx_id d) (m_shards d) (m_txs d) (m_tx_idxs d) in
  let! res := collect (replicate (length (m_full_txs d)) true) fs in
  match res with
  | None => Ret (w1, set_state (set_shards d shards) failed, None)
  | Some ret => Ret (w1, set_state (set_shards d shards) commit, Some ret)
  end.

(** ** Commit *)

Definition select (complete_txs : list bool) (ix : list nat)
    : outcome (list bool) :=
  foldr (λ k acc, let! c := at_index complete_txs k in
                  let! cs := acc in Ret (c :: cs)) (Ret []) ix.

Fixpoint apply_shards (dtx_id : hash_t) (complete_txs : list bool)
    (shards : list Sh) (idxs : list (list nat)) : outcome (list Sh * bool) :=
  match shards, idxs with
  | sh :: shards, ix :: idxs =>
      match ix with
      | [] =>
          let! '(shards', ok) := apply_shards dtx_id complete_txs shards idxs in
          Ret (sh :: shards', ok)
      | _ =>
          let! shard_complete_txs := select complete_txs ix in
          let! '(sh', res) := apply_outputs sh shard_complete_txs dtx_id in
          let! '(shards', ok) := apply_shards dtx_id complete_txs shards idxs in
          Ret (sh' :: shards', res && ok)
      end
  | _, _ => Ret (shards, true)
  end.

Definition run_commit (cbs : callbacks W) (w : W) d (complete_txs : list bool)
    : outcome (W * t Sh * bool) :=
  let (w1, ok) :=
    match m_commit_cb cbs with
    | Some cb => cb w (m_dtx_id d) complete_txs (m_tx_idxs d)
    | None => (w, true)
    end in
  if negb ok then Ret (w1, set_state d failed, false) else
  let! '(shards, ok) :=
    apply_shards (m_dtx_id d) complete_txs (m_shards d) (m_tx_idxs d) in
  Ret (w1, set_state (set_shards d shards) (if (ok : bool) then discard else failed),
       ok).

(** ** Discard *)

Fixpoint discard_shards (dtx_id : hash_t) (shards : list Sh)
    (idxs : list (list nat)) : outcome (list Sh * bool) :=
  match shards, idxs with
  | sh :: shards, ix :: idxs =>
      match ix with
      | [] =>
          let! '(shards', ok) := discard_shards dtx_id shards idxs in
          Ret (sh :: shards', ok)
      | _ =>
          let! '(sh', res) := discard_dtx sh dtx_id in
          let! '(shards', ok) := discard_shards dtx_id shards idxs in
          Ret (sh' :: shards', res && ok)
      end
  | _, _ => Ret (shards, true)
  end.

Definition run_discard (cbs : callbacks W) (w : W) d : outcome (W * t Sh * bool) :=
  let (w1, ok) :=
    match m_discard_cb cbs with
    | Some cb => cb w (m_dtx_id d)
    | None => (w, true)
    end in
  if negb ok then Ret (w1, set_state d failed, false) else
  let! '(shards, ok) :=
    discard_shards (m_dtx_id d) (m_shards d) (m_tx_idxs d) in
  let d1 := set_shards d shards in
  if negb (ok : bool) then Ret (w1, set_state d1 failed, false) else
  let (w2, ok2) :=
    match m_done_cb cbs with
    | Some cb => cb w1 (m_dtx_id d)
    | None => (w1, true)
    end in
  if negb ok2 then Ret (w2, set_state d1 failed, false)
  else Ret (w2, set_state d1 done, true).

(** ** Execute *)

Definition set_complete d (c : list bool) : t Sh :=
  mk (m_dtx_id d) (m_shards d) (m_txs d) (m_full_txs d) (m_tx_idxs d)
    (m_state d) c.

(** The three phases, each entered when the state says so; [false] stops
    the execution. *)
Definition prepare_phase (cbs : callbacks W) (w : W) d
    : outcome (W * t Sh * bool) :=
  if decide (m_state d = prepare ∨ m_state d = start) then
    let! '(w', d', res) := run_prepare cbs w d in
    match res with
    | None => Ret (w', d', false)
    | Some c =>
        if decide (length c ≠ length (m_full_txs d)) then Fatal
        else Ret (w', set_complete d' c, true)
    end
  else Ret (w, d, true).

Definition commit_phase (cbs : callbacks W) (w : W) d
    : outcome (W * t Sh * bool) :=
  if decide (m_state d = commit)
  then run_commit cbs w d (m_complete_txs d)
  else Ret (w, d, true).

Definition discard_phase (cbs : callbacks W) (w : W) d
    : outcome (W * t Sh * bool) :=
  if decide (m_state d = discard) then run_discard cbs w d else Ret (w, d, true).

Definition execute (cbs : callbacks W) (w : W) d
    : outcome (W * t Sh * option (list bool)) :=
  let! '(w1, d1, ok1) := prepare_phase cbs w d in
  if negb (ok1 : bool) then Ret (w1, d1, None) else
  let! '(w2, d2, ok2) := commit_phase cbs w1 d1 in
  if negb (ok2 : bool) then Ret (w2, d2, None) else
  let! '(w3, d3, ok3) := discard_phase cbs w2 d2 in
  if negb (ok3 : bool) then Ret (w3, d3, None) else
  Ret (w3, d3, Some (m_complete_txs d3)).

(** ** Recovery *)

Definition recover_prepare d (txs : list compact_tx.t) : t Sh :=
  add_txs (set_state d prepare) txs.

Definition recover_commit d (complete_txs : list bool)
    (tx_idxs : list (list nat)) : t Sh :=
  mk (m_dtx_id d) (m_shards d) (m_txs d) (m_full_txs d) tx_idxs commit
    complete_txs.

Definition recover_discard d : t Sh := set_state d discard.

Definition size d : nat :=
  max (length (m_full_txs d)) (length (m_complete_txs d)).

End Ops.
End distributed_tx.

#[export] Instance locking_shard_interface `{Hasher} `{Secp256k1}
    : ShardInterface locking_shard.t := {|
  lock_outputs := locking_shard.lock_outputs;
  apply_outputs := locking_shard.apply_outputs;
  discard_dtx s d := Ret (locking_shard.discard_dtx s d);
  in_shard_range := locking_shard.in_range
|}.

(** ** The contract of a shard *)

Class ShardLaws (Sh : Type) `{ShardInterface Sh} := {
  shard_ok : Sh → Prop;
  shard_unspent : Sh → gset hash_t;
  shard_prepared : Sh → hash_t → option (list compact_tx.t * list bool);
  shard_applied : Sh → hash_t → Prop;
  shard_vote : Sh → compact_tx.t → bool;
  shard_admissible : Sh → list compact_tx.t → Prop;

  law_owned sh h :
    shard_ok sh → h ∈ shard_unspent sh → in_shard_range sh h = true;
  law_lock sh txs d :
    shard_ok sh → shard_prepared sh d = None → shard_admissible sh txs →
    ∃ sh', lock_outputs sh txs d = Ret (sh', Some (shard_vote sh <$> txs)) ∧
      shard_ok sh' ∧ in_shard_range sh' = in_shard_range sh ∧
      shard_unspent sh' = shard_unspent sh ∧
      shard_prepared sh' d = Some (txs, shard_vote sh <$> txs);
  law_lock_retry sh txs d p :
    shard_ok sh → shard_prepared sh d = Some p →
    ∃ sh', lock_outputs sh txs d = Ret (sh', Some p.2) ∧
      shard_ok sh' ∧ in_shard_range sh' = in_shard_range sh ∧
      shard_unspent sh' = shard_unspent sh ∧ shard_prepared sh' d = Some p;
  law_apply sh c d p :
    shard_ok sh → shard_prepared sh d = Some p →
    Forall2 (λ c r, c = true → r = true) c p.2 →
    fresh_history (in_shard_range sh) (shard_unspent sh)
      (shard_lemmas.committed p.1 c) →
    ∃ sh', apply_outputs sh c d = Ret (sh', true) ∧
      shard_ok sh' ∧ in_shard_range sh' = in_shard_range sh ∧
      uhs_run (in_shard_range sh) (shard_unspent sh)
        (shard_lemmas.committed p.1 c) (shard_unspent sh') ∧
      shard_prepared sh' d = None ∧ shard_applied sh' d;
  law_apply_retry sh c d :
    shard_ok sh → shard_prepared sh d = None → shard_applied sh d →
    ∃ sh', apply_outputs sh c d = Ret (sh', true) ∧
      shard_ok sh' ∧ in_shard_range sh' = in_shard_range sh ∧
      shard_unspent sh' = shard_unspent sh ∧
      shard_prepared sh' d = None ∧ shard_applied sh' d;
  law_discard sh d :
    shard_ok sh →
    ∃ sh', discard_dtx sh d = Ret (sh', true) ∧ shard_ok sh' ∧
      in_shard_range sh' = in_shard_range sh ∧
      shard_unspent sh' = shard_unspent sh
}.

(** The locking shard honours the contract. *)
#[export] Program Instance locking_shard_laws `{Hasher} `{Secp256k1}
    : ShardLaws locking_shard.t := {|
  shard_ok s :=
    shard_lemmas.shard_inv s ∧ locking_shard.m_running s = true;
  shard_unspent := shard_lemmas.unspent;
  shard_prepared s d :=
    (λ p, (m_txs p, m_results p)) <$> locking_shard.m_prepared_dtxs s !! d;
  shard_applied s d := d ∈ locking_shard.m_applied_dtxs s;
  shard_vote := shard_lemmas.lock_result;
  shard_admissible := shard_lemmas.admissible
|}.
Next Obligation. intros ?? s h [Hi _] Hh. by apply (shard_lemmas.inv_owned s Hi). Qed.
Next Obligation.
  intros ?? s txs d [Hi Hr] Hp Ha. apply fmap_None in Hp. simpl.
  destruct (shard_lemmas.lock_outputs_fresh s txs d)
    as (s' & E & ? & ? & Hm & ? & _ & Hp'); try done.
  exists s'. split_and!; try done.
  - unfold locking_shard.in_range. by rewrite Hm.
  - by rewrite Hp', lookup_insert_eq.
Qed.
Next Obligation.
  intros ?? s txs d p [Hi Hr] (q & Hq & ->)%fmap_Some. simpl. exists s.
  split; [by apply shard_lemmas.lock_outputs_prepared|]. by rewrite Hq.
Qed.
Next Obligation.
  intros ?? s c d p [Hi Hr] (q & Hq & ->)%fmap_Some Hc Hf. simpl in *.
  destruct (shard_lemmas.apply_outputs_prepared s c d q)
    as (s' & E & ? & ? & Hm & Hu & Hp' & ?); try done.
  exists s'. split_and!; try done.
  - unfold locking_shard.in_range. by rewrite Hm.
  - by rewrite Hp', lookup_delete_eq.
Qed.
Next Obligation.
  intros ?? s c d [Hi Hr] Hp Ha. apply fmap_None in Hp. exists s.
  split; [by apply shard_lemmas.apply_outputs_applied|]. simpl. by rewrite Hp.
Qed.
Next Obligation.
  intros ?? s d [Hi Hr]. simpl.
  destruct (shard_lemmas.discard_dtx_spec s d Hi Hr)
    as (s' & -> & ? & ? & Hm & ? & _).
  exists s'. split_and!; try done. unfold locking_shard.in_range. by rewrite Hm.
Qed.

(** ** From shard runs to the run of the whole set *)

(** Shards partition the hash space. *)
Definition covers {A} (own : A → hash_t → bool) (l : list A) : Prop :=
  ∀ h, ∃ i a, l !! i = Some a ∧ own a h = true ∧
    ∀ j b, l !! j = Some b → own b h = true → j = i.

Lemma elem_of_everything_ins tx h :
  h ∈ ins everything tx ↔ h ∈ compact_tx.m_inputs tx.
Proof. unfold ins. rewrite elem_of_owned. naive_solver. Qed.

Lemma elem_of_everything_outs tx h :
  h ∈ outs everything tx ↔ h ∈ compact_tx.m_uhs_outputs tx.
Proof. unfold outs. rewrite elem_of_owned. naive_solver. Qed.

(** One partition: the ownership test, the set before and the set after. *)
Definition part : Type := (hash_t → bool) * gset hash_t * gset hash_t.
Definition part_own (p : part) : hash_t → bool := p.1.1.

Lemma elem_of_union_fmap {A} (f : A → gset hash_t) (l : list A) h :
  h ∈ ⋃ (f <$> l) ↔ ∃ i a, l !! i = Some a ∧ h ∈ f a.
Proof.
  rewrite elem_of_union_list. setoid_rewrite list_elem_of_fmap. split.
  - intros (X & (a & -> & Ha) & Hh). apply list_elem_of_lookup in Ha as [i Hi].
    eauto.
  - intros (i & a & Hi & Hh). apply list_elem_of_lookup_2 in Hi. eauto.
Qed.

Lemma parts_apply (l : list part) tx :
  covers part_own l →
  (∀ i p h, l !! i = Some p → h ∈ p.1.2 → part_own p h = true) →
  ⋃ ((λ p, uhs_apply (part_own p) p.1.2 tx) <$> l) =
    uhs_apply everything (⋃ ((λ p : part, p.1.2) <$> l)) tx.
Proof.
  intros Hcov Hown. apply set_eq. intros h. rewrite elem_of_union_fmap.
  unfold uhs_apply at 2. rewrite elem_of_union, elem_of_difference,
    elem_of_union_fmap, elem_of_everything_ins, elem_of_everything_outs.
  split.
  - intros (i & p & Hi & Hh). unfold uhs_apply, ins, outs in Hh.
    rewrite elem_of_union, elem_of_difference, !elem_of_owned in Hh.
    destruct Hh as [[Hu Hn]|[_ Ho]]; [|by right].
    left. split; [by eauto|]. intros Hin. apply Hn. eauto.
  - intros [[(i & p & Hi & Hu) Hn]|Ho].
    + exists i, p. split; [done|]. unfold uhs_apply, ins.
      rewrite elem_of_union, elem_of_difference, elem_of_owned. naive_solver.
    + destruct (Hcov h) as (i & p & Hi & Hp & _). exists i, p. split; [done|].
      unfold uhs_apply, outs. rewrite elem_of_union, elem_of_owned. eauto.
Qed.

Lemma parts_run (l : list part) txs :
  covers part_own l →
  (∀ i p h, l !! i = Some p → h ∈ p.1.2 → part_own p h = true) →
  Forall (λ p, uhs_run (part_own p) p.1.2 txs p.2) l →
  uhs_run everything (⋃ ((λ p : part, p.1.2) <$> l)) txs (⋃ (snd <$> l)).
Proof.
  revert l. induction txs as [|tx txs IH]; intros l Hcov Hown Hrun.
  { assert (snd <$> l = (λ p : part, p.1.2) <$> l) as ->; [|constructor].
    apply list_fmap_ext. intros i p Hi.
    apply (Forall_lookup_1 _ _ _ _ Hrun) in Hi. by inversion Hi. }
  set (next := λ p : part, (part_own p, uhs_apply (part_own p) p.1.2 tx, p.2)).
  assert (∀ i q, (next <$> l) !! i = Some q →
            ∃ p, l !! i = Some p ∧ q = next p) as Hnext.
  { intros i q (p & -> & Hp)%list_lookup_fmap_Some. eauto. }
  assert (∀ i p, l !! i = Some p →
    ins (part_own p) tx ⊆ p.1.2 ∧ outs (part_own p) tx ## p.1.2 ∧
    uhs_run (part_own p) (uhs_apply (part_own p) p.1.2 tx) txs p.2) as Hstep.
  { intros i p Hi. apply (Forall_lookup_1 _ _ _ _ Hrun) in Hi.
    by inversion Hi; subst. }
  constructor.
  - intros h Hh%elem_of_everything_ins. apply elem_of_union_fmap.
    destruct (Hcov h) as (i & p & Hi & Hp & _). exists i, p. split; [done|].
    destruct (Hstep i p Hi) as (Hsub & _ & _). apply Hsub, elem_of_owned. done.
  - intros h Hh%elem_of_everything_outs (i & p & Hi & Hu)%elem_of_union_fmap.
    destruct (Hstep i p Hi) as (_ & Hd & _). apply (Hd h); [|done].
    apply elem_of_owned. eauto.
  - rewrite <- parts_apply by done.
    specialize (IH (next <$> l)). rewrite <- !list_fmap_compose in IH.
    unfold compose in IH; simpl in IH. apply IH.
    + intros h. destruct (Hcov h) as (i & p & Hi & Hp & Huniq).
      exists i, (next p). rewrite list_lookup_fmap, Hi. split_and!; [done..|].
      intros j q (p' & Hj & ->)%Hnext Hq. by apply (Huniq j p').
    + intros i q h (p & Hi & ->)%Hnext Hh. simpl in *. unfold uhs_apply in Hh.
      apply elem_of_union in Hh as [[? _]%elem_of_difference|Hh];
        [by apply (Hown i p)|].
      by apply elem_of_owned in Hh as [? _].
    + apply Forall_fmap, Forall_lookup. intros i p Hi. simpl.
      by destruct (Hstep i p Hi) as (_ & _ & ?).
Qed.

(** ** Batches *)

Module dtx_lemmas.
Import distributed_tx shard_lemmas.

Section Batch.
Context {Sh : Type} `{ShardInterface Sh}.

(** The transactions of [full] a shard takes part in, with their positions
    counted from [n]. *)
Definition sel_from (sh : Sh) (n : nat) (full : list compact_tx.t)
    : list (nat * compact_tx.t) :=
  filter (λ p, active sh p.2 = true) (zip (seq n (length full)) full).

Definition sel (sh : Sh) (full : list compact_tx.t) := sel_from sh 0 full.

Lemma sel_from_cons sh n tx full :
  sel_from sh n (tx :: full) =
    (if active sh tx then [(n, tx)] else []) ++ sel_from sh (S n) full.
Proof.
  unfold sel_from; simpl. rewrite filter_cons; simpl.
  by destruct (active sh tx) eqn:E; case_decide.
Qed.

Lemma sel_snoc sh full tx :
  sel sh (full ++ [tx]) =
    sel sh full ++ (if active sh tx then [(length full, tx)] else []).
Proof.
  unfold sel. assert (∀ n, sel_from sh n (full ++ [tx]) = sel_from sh n full ++
    (if active sh tx then [(n + length full, tx)] else [])) as ->; [|done].
  induction full as [|tx0 full IH]; intros n; simpl app.
  - rewrite sel_from_cons, Nat.add_0_r. unfold sel_from; simpl.
    by rewrite app_nil_r.
  - rewrite !sel_from_cons, IH, <- (assoc_L (++)). do 3 f_equal.
    simpl. by rewrite Nat.add_succ_r.
Qed.

Lemma sel_snd sh full :
  (sel sh full).*2 = filter (λ tx, active sh tx = true) full.
Proof.
  unfold sel. generalize 0. induction full as [|tx full IH]; intros n; [done|].
  rewrite sel_from_cons, fmap_app, IH, filter_cons.
  by destruct (active sh tx) eqn:E; case_decide.
Qed.

(** The bookkeeping of [add_tx]: per shard, the transactions it takes part
    in and their positions in the batch. *)
Definition batch_ok (d : t Sh) : Prop :=
  m_txs d = (λ sh, (sel sh (m_full_txs d)).*2) <$> m_shards d ∧
  m_tx_idxs d = (λ sh, (sel sh (m_full_txs d)).*1) <$> m_shards d.

Lemma add_to_shards_spec shards tx n (f : Sh → list compact_tx.t)
    (g : Sh → list nat) :
  add_to_shards shards tx n (f <$> shards) (g <$> shards) =
    ((λ sh, f sh ++ if active sh tx then [tx] else []) <$> shards,
     (λ sh, g sh ++ if active sh tx then [n] else []) <$> shards).
Proof.
  induction shards as [|sh shards IH]; csimpl; [done|].
  rewrite IH. by destruct (active sh tx); rewrite ?app_nil_r.
Qed.

Lemma add_tx_ok d tx :
  batch_ok d → batch_ok (add_tx d tx).1 ∧
  m_full_txs (add_tx d tx).1 = m_full_txs d ++ [tx] ∧
  m_shards (add_tx d tx).1 = m_shards d ∧
  m_dtx_id (add_tx d tx).1 = m_dtx_id d ∧
  m_state (add_tx d tx).1 = m_state d.
Proof.
  intros [Ht Hi]. unfold add_tx. rewrite Ht, Hi, add_to_shards_spec. simpl.
  split_and!; try done. split; simpl; apply list_fmap_ext; intros i sh _;
    rewrite sel_snoc, fmap_app; by destruct (active sh tx).
Qed.

Lemma add_txs_ok d txs :
  batch_ok d → batch_ok (add_txs d txs) ∧
  m_full_txs (add_txs d txs) = m_full_txs d ++ txs ∧
  m_shards (add_txs d txs) = m_shards d ∧
  m_dtx_id (add_txs d txs) = m_dtx_id d ∧
  m_state (add_txs d txs) = m_state d.
Proof.
  unfold add_txs. revert d. induction txs as [|tx txs IH]; intros d Hd; simpl.
  { by rewrite app_nil_r. }
  destruct (add_tx_ok d tx Hd) as (Hd1 & Hf & Hs & Hid & Hst).
  destruct (IH _ Hd1) as (? & -> & -> & -> & ->).
  rewrite Hf, Hs, Hid, Hst, <- (assoc_L (++)). done.
Qed.

Lemma create_ok dtx_id shards d :
  create dtx_id shards = Ret d →
  batch_ok d ∧ m_full_txs d = [] ∧ m_shards d = shards ∧
  m_dtx_id d = dtx_id ∧ m_state d = start.
Proof.
  unfold create. destruct shards as [|sh shards]; [done|]. intros [= <-].
  unfold batch_ok, sel, sel_from. simpl. split_and!; try done;
    f_equal; by rewrite <- const_fmap with (f := λ _, []).
Qed.

(** *** The completion vector seen by one shard *)

Lemma clear_failed_from sh (vote : compact_tx.t → bool) (g : compact_tx.t → bool)
    pre full :
  clear_failed (pre ++ (g <$> full))
    (vote <$> (sel_from sh (length pre) full).*2)
    (sel_from sh (length pre) full).*1 =
  pre ++ ((λ tx, g tx && (negb (active sh tx) || vote tx)) <$> full).
Proof.
  revert pre. induction full as [|tx full IH]; intros pre; [done|].
  rewrite sel_from_cons.
  assert (∀ b, pre ++ b :: (g <$> full) = (pre ++ [b]) ++ (g <$> full)) as Hsh.
  { intros b. by rewrite <- (assoc_L (++)). }
  assert (∀ b : bool, length (pre ++ [b]) = S (length pre)) as Hlen.
  { intros b. rewrite length_app; simpl. lia. }
  destruct (active sh tx) eqn:E; csimpl.
  - assert ((if vote tx then pre ++ g tx :: (g <$> full)
             else <[length pre := false]> (pre ++ g tx :: (g <$> full))) =
            (pre ++ [g tx && vote tx]) ++ (g <$> full)) as ->.
    { destruct (vote tx).
      - by rewrite andb_true_r, Hsh.
      - rewrite andb_false_r, insert_app_r_alt, Nat.sub_diag by lia. simpl.
        by rewrite Hsh. }
    rewrite <- (Hlen (g tx && vote tx)), IH, <- (assoc_L (++)).
    csimpl. by rewrite E.
  - rewrite Hsh. rewrite <- (Hlen (g tx)), IH, <- (assoc_L (++)).
    csimpl. by rewrite E, andb_true_r.
Qed.

Lemma select_from sh (flag : compact_tx.t → bool) pre full :
  select (pre ++ (flag <$> full)) (sel_from sh (length pre) full).*1 =
    Ret (flag <$> (sel_from sh (length pre) full).*2).
Proof.
  revert pre. induction full as [|tx full IH]; intros pre; [done|].
  rewrite sel_from_cons.
  assert (pre ++ (flag <$> (tx :: full)) = (pre ++ [flag tx]) ++ (flag <$> full))
    as Hsh by (by rewrite <- (assoc_L (++))).
  assert (S (length pre) = length (pre ++ [flag tx])) as Hlen.
  { rewrite length_app; simpl. lia. }
  specialize (IH (pre ++ [flag tx])). rewrite <- Hlen in IH.
  destruct (active sh tx) eqn:E; cbn [app]; [|by rewrite Hsh, IH].
  csimpl. unfold select; simpl. unfold at_index at 1.
  rewrite list_lookup_middle by done. cbn [obind].
  fold (select (pre ++ flag tx :: (flag <$> full))
    (sel_from sh (S (length pre)) full).*1).
  rewrite fmap_cons in Hsh. by rewrite Hsh, IH.
Qed.

Lemma committed_sel sh (flag : compact_tx.t → bool) full :
  committed (sel sh full).*2 (flag <$> (sel sh full).*2) =
    filter (λ tx, active sh tx = true) (committed full (flag <$> full)).
Proof.
  rewrite !committed_fmap, sel_snd, !list_filter_filter.
  apply list_filter_iff. naive_solver.
Qed.

(** Transactions a shard takes no part in do not touch it. *)
Lemma inactive_ins sh tx :
  active sh tx = false →
  ins (in_shard_range sh) tx = ∅ ∧ outs (in_shard_range sh) tx = ∅.
Proof.
  unfold active. intros E. bools.
  assert (∀ l, existsb (in_shard_range sh) l = false →
    owned (in_shard_range sh) l = ∅) as Hl; [|by split; apply Hl].
  intros l Hl. apply set_eq. intros h. rewrite elem_of_owned.
  split; [|set_solver]. intros [Ho Hin%list_elem_of_In].
  rewrite (proj2 (existsb_exists _ _) (ex_intro _ h (conj Hin Ho))) in Hl. done.
Qed.

Lemma uhs_run_active sh U txs U' :
  uhs_run (in_shard_range sh) U (filter (λ tx, active sh tx = true) txs) U' →
  uhs_run (in_shard_range sh) U txs U'.
Proof.
  revert U. induction txs as [|tx txs IH]; intros U; [done|].
  rewrite filter_cons. case_decide as E.
  - inversion_clear 1. constructor; auto.
  - intros Hrun. apply not_true_is_false in E.
    destruct (inactive_ins sh tx E) as [Hi Ho].
    constructor; [set_solver..|].
    assert (uhs_apply (in_shard_range sh) U tx = U) as ->; [|by apply IH].
    unfold uhs_apply. rewrite Hi, Ho. set_solver.
Qed.

Lemma fresh_history_restrict (own1 own2 : hash_t → bool) (P : compact_tx.t → Prop)
    `{∀ tx, Decision (P tx)} K1 K2 txs :
  (∀ h, own1 h = true → own2 h = true) → K1 ⊆ K2 →
  fresh_history own2 K2 txs → fresh_history own1 K1 (filter P txs).
Proof.
  intros Hown. assert (∀ tx, outs own1 tx ⊆ outs own2 tx) as Houts.
  { intros tx h. unfold outs. rewrite !elem_of_owned. naive_solver. }
  revert K1 K2. induction txs as [|tx txs IH]; intros K1 K2 Hsub; [done|].
  simpl. intros [Hd Hf]. specialize (Houts tx). rewrite filter_cons.
  case_decide; simpl.
  - split; [set_solver|]. eapply IH; [|exact Hf]. set_solver.
  - eapply IH; [|exact Hf]. set_solver.
Qed.

End Batch.

Section Exec.
Context {Sh W : Type} `{ShardLaws Sh}.
Variables (full : list compact_tx.t) (dtx : hash_t).
Implicit Types sh : Sh.

Lemma active_ext sh1 sh2 tx :
  in_shard_range sh1 = in_shard_range sh2 → active sh1 tx = active sh2 tx.
Proof. unfold active. by intros ->. Qed.

Lemma sel_ext sh1 sh2 :
  in_shard_range sh1 = in_shard_range sh2 → sel sh1 full = sel sh2 full.
Proof.
  intros E. unfold sel, sel_from. apply list_filter_iff. intros p.
  by rewrite (active_ext _ _ _ E).
Qed.

Lemma sel_nil sh tx : sel sh full = [] → tx ∈ full → active sh tx = false.
Proof.
  intros E Hin. apply not_true_is_false. intros Ha.
  assert (tx ∈ (sel sh full).*2) as Hs
    by (rewrite sel_snd; by apply list_elem_of_filter).
  rewrite E in Hs. by apply elem_of_nil in Hs.
Qed.

(** A shard before the batch. *)
Definition ready sh : Prop :=
  shard_ok sh ∧ shard_prepared sh dtx = None ∧
  shard_admissible sh (sel sh full).*2.

(** A shard [sh] that was [sh0] before the batch and has locked it. *)
Definition has_locked sh0 sh : Prop :=
  shard_ok sh ∧ in_shard_range sh = in_shard_range sh0 ∧
  shard_unspent sh = shard_unspent sh0 ∧
  shard_prepared sh dtx =
    Some ((sel sh0 full).*2, shard_vote sh0 <$> (sel sh0 full).*2).

(** The shards the batch does not concern are never contacted. *)
Definition after_lock sh0 sh : Prop :=
  (sel sh0 full = [] ∧ sh = sh0) ∨ (sel sh0 full ≠ [] ∧ has_locked sh0 sh).

(** The transactions every participating shard votes for. *)
Definition verdict (shards : list Sh) (tx : compact_tx.t) : bool :=
  forallb (λ sh, negb (active sh tx) || shard_vote sh tx) shards.

Definition lock_answers (shards : list Sh)
    : list (option (list bool) * list nat) :=
  shards ≫= λ sh, match sel sh full with
                  | [] => []
                  | _ => [(Some (shard_vote sh <$> (sel sh full).*2),
                           (sel sh full).*1)]
                  end.

Lemma lock_one sh0 sh :
  ready sh0 → sh = sh0 ∨ has_locked sh0 sh →
  ∃ sh', lock_outputs sh (sel sh0 full).*2 dtx =
           Ret (sh', Some (shard_vote sh0 <$> (sel sh0 full).*2)) ∧
         has_locked sh0 sh'.
Proof.
  intros (Hok & Hp & Ha) [->|Hl].
  - destruct (law_lock sh0 _ dtx Hok Hp Ha) as (sh' & E & ? & ? & ? & ?).
    exists sh'. by repeat split.
  - destruct Hl as (Hok' & Hrg & Hu & Hp').
    destruct (law_lock_retry sh (sel sh0 full).*2 dtx _ Hok' Hp')
      as (sh' & E & ? & Hrg' & Hu' & ?).
    exists sh'. split; [done|]. split_and!; congruence.
Qed.

Lemma lock_shards_spec shards0 shards :
  Forall2 (λ sh0 sh, ready sh0 ∧ (sh = sh0 ∨ after_lock sh0 sh)) shards0 shards →
  ∃ shards',
    lock_shards dtx shards ((λ sh, (sel sh full).*2) <$> shards)
      ((λ sh, (sel sh full).*1) <$> shards) =
      Ret (shards', lock_answers shards0) ∧
    Forall2 after_lock shards0 shards'.
Proof.
  induction 1 as [|sh0 sh shards0 shards [Hr Hst] _ IH]; [by eexists|].
  destruct IH as (shards' & E & Hf).
  assert (in_shard_range sh = in_shard_range sh0) as Hrg.
  { by destruct Hst as [->|[[_ ->]|(_ & _ & ? & _)]]. }
  csimpl. rewrite (sel_ext _ _ Hrg).
  destruct (sel sh0 full) as [|p ps] eqn:Es; csimpl.
  - rewrite E. cbn [obind]. exists (sh :: shards').
    unfold lock_answers; csimpl. rewrite ?Es. split; [done|].
    constructor; [|done]. left. split; [done|].
    by destruct Hst as [->|[[_ ->]|[Hn _]]]; rewrite ?Es in *.
  - destruct (lock_one sh0 sh Hr) as (sh' & E1 & Hl1).
    { destruct Hst as [->|[[Hn _]|[_ ?]]]; [by left|by rewrite Es in Hn|by right]. }
    rewrite Es in E1. csimpl in E1. rewrite E1. cbn [obind]. rewrite E. cbn [obind].
    exists (sh' :: shards'). unfold lock_answers; csimpl. rewrite ?Es. csimpl.
    split; [done|]. constructor; [|done]. right. by rewrite Es.
Qed.

Lemma collect_spec (g : compact_tx.t → bool) shards0 :
  collect (g <$> full) (lock_answers shards0) =
    Ret (Some ((λ tx, g tx && verdict shards0 tx) <$> full)).
Proof.
  revert g. induction shards0 as [|sh shards0 IH]; intros g.
  { simpl. do 2 f_equal. apply list_fmap_ext. intros i tx _.
    by rewrite andb_true_r. }
  unfold lock_answers; csimpl. fold (lock_answers shards0).
  destruct (sel sh full) as [|p ps] eqn:Es; csimpl.
  - rewrite IH. do 2 f_equal. apply list_fmap_ext. intros i tx Hl. simpl.
    by rewrite (sel_nil sh tx Es) by eauto using list_elem_of_lookup_2.
  - rewrite decide_False by (rewrite !length_fmap; lia).
    pose proof (clear_failed_from sh (shard_vote sh) g [] full) as Hc.
    simpl in Hc. fold (sel sh full) in Hc. rewrite Es in Hc. csimpl in Hc.
    rewrite Hc, IH. do 2 f_equal. apply list_fmap_ext. intros i tx _. simpl.
    by rewrite andb_assoc.
Qed.

(** *** Completion *)

Variable shards_all : list Sh.
Let flags : list bool := verdict shards_all <$> full.
Let winners : list compact_tx.t := committed full flags.

Hypothesis all_fresh :
  fresh_history everything (⋃ (shard_unspent <$> shards_all)) winners.

(** The shard has performed its part of the batch. *)
Definition settled sh0 sh : Prop :=
  shard_ok sh ∧ in_shard_range sh = in_shard_range sh0 ∧
  uhs_run (in_shard_range sh0) (shard_unspent sh0) winners (shard_unspent sh).

Definition after_apply sh0 sh : Prop :=
  (sel sh0 full = [] ∧ sh = sh0) ∨
  (sel sh0 full ≠ [] ∧ settled sh0 sh ∧ shard_prepared sh dtx = None ∧
   shard_applied sh dtx).

Lemma idle_settled sh : shard_ok sh → sel sh full = [] → settled sh sh.
Proof.
  intros Hok Es. split_and!; [done|done|]. apply uhs_run_active.
  unfold winners, flags. rewrite committed_fmap.
  replace (filter _ (filter _ full)) with (@nil compact_tx.t); [constructor|].
  symmetry. apply elem_of_nil_inv. intros tx Htx.
  apply list_elem_of_filter in Htx as [Ha Htx].
  apply list_elem_of_filter in Htx as [_ Htx].
  by rewrite (sel_nil sh tx Es Htx) in Ha.
Qed.

Lemma verdict_vote sh tx :
  sh ∈ shards_all → active sh tx = true → verdict shards_all tx = true →
  shard_vote sh tx = true.
Proof.
  intros Hin%list_elem_of_In Ha Hv. unfold verdict in Hv.
  rewrite forallb_forall in Hv. apply Hv in Hin. by rewrite Ha in Hin.
Qed.

Lemma apply_one sh0 sh :
  sh0 ∈ shards_all → has_locked sh0 sh →
  ∃ sh', apply_outputs sh (verdict shards_all <$> (sel sh0 full).*2) dtx =
           Ret (sh', true) ∧
    settled sh0 sh' ∧ shard_prepared sh' dtx = None ∧ shard_applied sh' dtx.
Proof.
  intros Hin (Hok & Hrg & Hu & Hp).
  destruct (law_apply sh (verdict shards_all <$> (sel sh0 full).*2) dtx _ Hok Hp)
    as (sh' & E & Hok' & Hrg' & Hrun & Hn & Ha); simpl in *.
  - apply Forall2_fmap, Forall_Forall2_diag, Forall_forall. intros tx Htx Hv.
    rewrite sel_snd in Htx. apply list_elem_of_filter in Htx as [? _].
    by apply verdict_vote.
  - rewrite committed_sel, Hu, Hrg.
    eapply fresh_history_restrict; [done| |exact all_fresh].
    intros h Hh. apply elem_of_union_list. exists (shard_unspent sh0).
    split; [|done]. by apply list_elem_of_fmap_2.
  - exists sh'. split; [done|]. split_and!; [|done|done].
    rewrite Hrg, Hu, committed_sel in Hrun. split_and!; [done|congruence|].
    by apply uhs_run_active.
Qed.

Lemma reapply_one sh0 sh c :
  settled sh0 sh → shard_prepared sh dtx = None → shard_applied sh dtx →
  ∃ sh', apply_outputs sh c dtx = Ret (sh', true) ∧
    settled sh0 sh' ∧ shard_prepared sh' dtx = None ∧ shard_applied sh' dtx.
Proof.
  intros (Hok & Hrg & Hrun) Hp Ha.
  destruct (law_apply_retry sh c dtx Hok Hp Ha) as (sh' & E & ? & Hrg' & Hu & ? & ?).
  exists sh'. split; [done|]. split; [|done]. split_and!; [done|congruence|by rewrite Hu].
Qed.

Lemma apply_shards_spec shards0 shards :
  Forall2 (λ sh0 sh, sh0 ∈ shards_all ∧ (after_lock sh0 sh ∨ after_apply sh0 sh))
    shards0 shards →
  ∃ shards',
    apply_shards dtx flags shards ((λ sh, (sel sh full).*1) <$> shards0) =
      Ret (shards', true) ∧
    Forall2 after_apply shards0 shards'.
Proof.
  induction 1 as [|sh0 sh shards0 shards [Hin Hst] _ IH]; [by eexists|].
  destruct IH as (shards' & E & Hf). csimpl.
  pose proof (select_from sh0 (verdict shards_all) [] full) as Hsel.
  simpl in Hsel. fold (sel sh0 full) flags in Hsel.
  destruct (sel sh0 full) as [|p ps] eqn:Es; csimpl.
  - rewrite E. cbn [obind]. exists (sh :: shards'). split; [done|].
    constructor; [|done]. left. split; [done|].
    by destruct Hst as [[[_ ->]|[Hn _]]|[[_ ->]|[Hn _]]]; rewrite ?Es in *.
  - csimpl in Hsel. rewrite Hsel. cbn [obind].
    assert (∃ sh', apply_outputs sh (verdict shards_all <$> (sel sh0 full).*2) dtx
      = Ret (sh', true) ∧ settled sh0 sh' ∧ shard_prepared sh' dtx = None ∧
      shard_applied sh' dtx) as (sh' & E1 & Hs').
    { destruct Hst as [[[Hn _]|[_ Hl]]|[[Hn _]|(_ & Hs & Hp & Ha)]];
        try (by rewrite Es in Hn); [by apply apply_one|].
      by apply reapply_one. }
    rewrite Es in E1. csimpl in E1. rewrite E1. cbn [obind]. rewrite E.
    cbn [obind]. exists (sh' :: shards'). split; [done|].
    constructor; [|done]. right. rewrite Es. split; [done|]. exact Hs'.
Qed.

Lemma discard_shards_spec shards0 shards :
  Forall2 (λ sh0 sh, shard_ok sh0 ∧ after_apply sh0 sh) shards0 shards →
  ∃ shards',
    discard_shards dtx shards ((λ sh, (sel sh full).*1) <$> shards0) =
      Ret (shards', true) ∧
    Forall2 settled shards0 shards'.
Proof.
  induction 1 as [|sh0 sh shards0 shards [Hok Hst] _ IH]; [by eexists|].
  destruct IH as (shards' & E & Hf). csimpl.
  destruct Hst as [[Es ->]|(Hn & (Hok' & Hrg & Hrun) & _)].
  - rewrite Es. csimpl. rewrite E. cbn [obind]. exists (sh0 :: shards').
    split; [done|]. constructor; [by apply idle_settled|done].
  - destruct (sel sh0 full) as [|p ps] eqn:Es; [done|]. csimpl.
    destruct (law_discard sh dtx Hok') as (sh' & E1 & ? & Hrg' & Hu).
    rewrite E1. cbn [obind]. rewrite E. cbn [obind]. exists (sh' :: shards').
    split; [done|]. constructor; [|done].
    split_and!; [done|congruence|by rewrite Hu].
Qed.

End Exec.

(** ** Executing a batch *)

Section Execute.
Context {Sh W : Type} `{ShardLaws Sh}.

(** The replicated log accepts every phase. *)
Record cbs_succeed (cbs : callbacks W) : Prop := {
  prepare_cb_ok cb w d txs : m_prepare_cb cbs = Some cb → (cb w d txs).2 = true;
  commit_cb_ok cb w d c ix : m_commit_cb cbs = Some cb → (cb w d c ix).2 = true;
  discard_cb_ok cb w d : m_discard_cb cbs = Some cb → (cb w d).2 = true;
  done_cb_ok cb w d : m_done_cb cbs = Some cb → (cb w d).2 = true
}.

Variables (cbs : callbacks W) (full : list compact_tx.t) (dtx : hash_t)
  (shards0 : list Sh).
Hypothesis Hcbs : cbs_succeed cbs.
Hypothesis Hready : Forall (ready full dtx) shards0.
Hypothesis Hfresh :
  fresh_history everything (⋃ (shard_unspent <$> shards0))
    (committed full (verdict shards0 <$> full)).

Lemma ready_in sh : sh ∈ shards0 → shard_ok sh.
Proof. intros Hin. by apply (proj1 (Forall_forall _ _) Hready) in Hin as [? _]. Qed.

Lemma Forall2_in_l {A B} (R : A → B → Prop) (l : list A) (k : list B) :
  Forall2 R l k → Forall2 (λ a b, a ∈ l ∧ R a b) l k.
Proof.
  intros HR. apply Forall2_same_length_lookup. split; [by eapply Forall2_length|].
  intros i a b Ha Hb. split; [by eapply list_elem_of_lookup_2|].
  by eapply Forall2_lookup_lr.
Qed.

Lemma discard_finishes w d :
  m_state d = discard → m_dtx_id d = dtx →
  m_tx_idxs d = (λ sh, (sel sh full).*1) <$> shards0 →
  Forall2 (after_apply full dtx shards0) shards0 (m_shards d) →
  ∃ w' d', discard_phase cbs w d = Ret (w', d', true) ∧ m_state d' = done ∧
    m_complete_txs d' = m_complete_txs d ∧
    Forall2 (settled full shards0) shards0 (m_shards d').
Proof.
  intros Hst Hid Hix Hsh. unfold discard_phase. rewrite decide_True by done.
  unfold run_discard. rewrite Hid, Hix.
  destruct (match m_discard_cb cbs with Some cb => _ | None => _ end)
    as [w1 ok] eqn:E1.
  assert (ok = true) as ->.
  { destruct (m_discard_cb cbs) eqn:Ec; [|congruence].
    pose proof (discard_cb_ok cbs Hcbs _ w dtx Ec) as Hok. by rewrite E1 in Hok. }
  cbn [negb].
  destruct (discard_shards_spec full dtx shards0 shards0 (m_shards d))
    as (shards' & -> & Hs).
  { eapply Forall2_impl; [by apply Forall2_in_l|]. intros sh0 sh [Hin Ha].
    split; [by apply ready_in|done]. }
  cbn [obind negb].
  destruct (match m_done_cb cbs with Some cb => _ | None => _ end)
    as [w2 ok2] eqn:E2.
  assert (ok2 = true) as ->.
  { destruct (m_done_cb cbs) eqn:Ec; [|congruence].
    pose proof (done_cb_ok cbs Hcbs _ w1 dtx Ec) as Hok. by rewrite E2 in Hok. }
  cbn [negb]. eexists _, _. split; [done|]. by split_and!.
Qed.

Lemma commit_finishes w d :
  m_state d = commit → m_dtx_id d = dtx →
  m_tx_idxs d = (λ sh, (sel sh full).*1) <$> shards0 →
  m_complete_txs d = verdict shards0 <$> full →
  Forall2 (λ sh0 sh, after_lock full dtx sh0 sh ∨
                     after_apply full dtx shards0 sh0 sh) shards0 (m_shards d) →
  ∃ w' d', commit_phase cbs w d = Ret (w', d', true) ∧ m_state d' = discard ∧
    m_dtx_id d' = dtx ∧ m_tx_idxs d' = m_tx_idxs d ∧
    m_complete_txs d' = m_complete_txs d ∧
    Forall2 (after_apply full dtx shards0) shards0 (m_shards d').
Proof.
  intros Hst Hid Hix Hc Hsh. unfold commit_phase. rewrite decide_True by done.
  unfold run_commit. rewrite Hid, Hix, Hc.
  destruct (match m_commit_cb cbs with Some cb => _ | None => _ end)
    as [w1 ok] eqn:E1.
  assert (ok = true) as ->.
  { destruct (m_commit_cb cbs) eqn:Ec; [|congruence].
    pose proof (commit_cb_ok cbs Hcbs _ w dtx (verdict shards0 <$> full)
      ((λ sh, (sel sh full).*1) <$> shards0) Ec) as Hok.
    by rewrite E1 in Hok. }
  cbn [negb].
  destruct (apply_shards_spec full dtx shards0 Hfresh shards0 (m_shards d))
    as (shards' & -> & Hs); [by apply Forall2_in_l|].
  cbn [obind]. eexists _, _. split; [done|]. by split_and!.
Qed.

Lemma prepare_finishes w d :
  m_state d = prepare ∨ m_state d = start → m_dtx_id d = dtx → batch_ok d →
  m_full_txs d = full →
  Forall2 (λ sh0 sh, sh = sh0 ∨ after_lock full dtx sh0 sh) shards0 (m_shards d) →
  ∃ w' d', prepare_phase cbs w d = Ret (w', d', true) ∧ m_state d' = commit ∧
    m_dtx_id d' = dtx ∧ m_tx_idxs d' = m_tx_idxs d ∧
    m_complete_txs d' = verdict shards0 <$> full ∧
    Forall2 (after_lock full dtx) shards0 (m_shards d').
Proof.
  intros Hst Hid [Ht Hi] Hf Hsh. unfold prepare_phase. rewrite decide_True by done.
  unfold run_prepare. rewrite Hid, Ht, Hi, Hf.
  destruct (match m_prepare_cb cbs with Some cb => _ | None => _ end)
    as [w1 ok] eqn:E1.
  assert (ok = true) as ->.
  { destruct (m_prepare_cb cbs) eqn:Ec; [|congruence].
    pose proof (prepare_cb_ok cbs Hcbs _ w dtx full Ec) as Hok.
    by rewrite E1 in Hok. }
  cbn [negb].
  destruct (lock_shards_spec full dtx shards0 (m_shards d))
    as (shards' & -> & Hs).
  { eapply Forall2_impl; [by apply Forall2_in_l|]. intros sh0 sh [Hin Hor].
    split; [by apply (proj1 (Forall_forall _ _) Hready)|done]. }
  cbn [obind].
  assert (replicate (length full) true = (λ _, true) <$> full) as ->
    by (symmetry; by apply const_fmap).
  rewrite collect_spec. cbn [obind].
  rewrite decide_False by (rewrite length_fmap; lia).
  eexists _, _. split; [done|]. split_and!; try done. simpl. by rewrite Hi, Hf.
Qed.

Lemma idxs_ext shards (R : Sh → Sh → Prop) :
  (∀ sh0 sh, R sh0 sh → in_shard_range sh = in_shard_range sh0) →
  Forall2 R shards0 shards →
  (λ sh, (sel sh full).*1) <$> shards = (λ sh, (sel sh full).*1) <$> shards0.
Proof.
  intros HR. clear Hready Hfresh. induction 1 as [|sh0 sh l0 l Hr _ IH]; [done|].
  csimpl. rewrite IH. by rewrite (sel_ext full _ _ (HR _ _ Hr)).
Qed.

Lemma execute_from_prepare w d :
  m_state d = prepare ∨ m_state d = start → m_dtx_id d = dtx → batch_ok d →
  m_full_txs d = full →
  Forall2 (λ sh0 sh, sh = sh0 ∨ after_lock full dtx sh0 sh) shards0 (m_shards d) →
  ∃ w' d', execute cbs w d = Ret (w', d', Some (verdict shards0 <$> full)) ∧
    m_state d' = done ∧ Forall2 (settled full shards0) shards0 (m_shards d').
Proof.
  intros Hst Hid Hb Hf Hsh. unfold execute.
  assert (m_tx_idxs d = (λ sh, (sel sh full).*1) <$> shards0) as Hix.
  { destruct Hb as [_ ->]. rewrite Hf. eapply idxs_ext; [|exact Hsh].
    by intros ?? [->|[[_ ->]|(_ & _ & ? & _)]]. }
  destruct (prepare_finishes w d) as (w1 & d1 & -> & S1 & I1 & X1 & C1 & F1);
    try done. cbn [obind negb].
  destruct (commit_finishes w1 d1) as (w2 & d2 & -> & S2 & I2 & X2 & C2 & F2);
    try done; [by rewrite X1| |].
  { eapply Forall2_impl; [exact F1|]. auto. }
  cbn [obind negb].
  destruct (discard_finishes w2 d2) as (w3 & d3 & -> & S3 & C3 & F3);
    try done; [by rewrite X2, X1|].
  cbn [obind negb]. eexists w3, d3. by rewrite C3, C2, C1.
Qed.

Lemma execute_from_commit w d :
  m_state d = commit → m_dtx_id d = dtx →
  m_tx_idxs d = (λ sh, (sel sh full).*1) <$> shards0 →
  m_complete_txs d = verdict shards0 <$> full →
  Forall2 (λ sh0 sh, after_lock full dtx sh0 sh ∨
                     after_apply full dtx shards0 sh0 sh) shards0 (m_shards d) →
  ∃ w' d', execute cbs w d = Ret (w', d', Some (verdict shards0 <$> full)) ∧
    m_state d' = done ∧ Forall2 (settled full shards0) shards0 (m_shards d').
Proof.
  intros Hst Hid Hix Hc Hsh. unfold execute.
  unfold prepare_phase. rewrite decide_False by (rewrite Hst; by intros [?|?]).
  cbn [obind negb].
  destruct (commit_finishes w d) as (w2 & d2 & -> & S2 & I2 & X2 & C2 & F2);
    try done. cbn [obind negb].
  destruct (discard_finishes w2 d2) as (w3 & d3 & -> & S3 & C3 & F3);
    try done; [by rewrite X2|].
  cbn [obind negb]. eexists w3, d3. by rewrite C3, C2, Hc.
Qed.

(** The settled shards together have performed the batch on the whole
    set. *)
Lemma settled_global shards :
  covers in_shard_range shards0 → Forall2 (settled full shards0) shards0 shards →
  uhs_run everything (⋃ (shard_unspent <$> shards0))
    (committed full (verdict shards0 <$> full))
    (⋃ (shard_unspent <$> shards)).
Proof.
  intros Hcov Hs.
  set (l := zip_with (λ sh0 sh, (in_shard_range sh0, shard_unspent sh0,
                                 shard_unspent sh) : part) shards0 shards).
  assert ((λ p : part, p.1.2) <$> l = shard_unspent <$> shards0) as <-.
  { unfold l. clear -Hs. induction Hs; csimpl; [done|by f_equal]. }
  assert (snd <$> l = shard_unspent <$> shards) as <-.
  { unfold l. clear -Hs. induction Hs; csimpl; [done|by f_equal]. }
  assert (∀ i p, l !! i = Some p → ∃ sh0 sh, shards0 !! i = Some sh0 ∧
    shards !! i = Some sh ∧
    p = (in_shard_range sh0, shard_unspent sh0, shard_unspent sh)) as Hl.
  { intros i p Hp. unfold l in Hp. apply lookup_zip_with_Some in Hp as (?&?&?&?&?).
    eauto. }
  apply parts_run.
  - intros h. destruct (Hcov h) as (i & sh0 & Hi & Ho & Hu).
    destruct (Forall2_lookup_l _ _ _ _ _ Hs Hi) as (sh & Hi' & _).
    exists i, (in_shard_range sh0, shard_unspent sh0, shard_unspent sh).
    split; [|split; [done|]].
    + unfold l. rewrite lookup_zip_with, Hi, Hi'. done.
    + intros j p (s0 & s & Hj & _ & ->)%Hl Hp. by apply (Hu j s0).
  - intros i p h (sh0 & sh & Hi & _ & ->)%Hl Hh. simpl in *.
    apply law_owned; [|done]. apply ready_in. by eapply list_elem_of_lookup_2.
  - apply Forall_lookup. intros i p (sh0 & sh & Hi & Hi' & ->)%Hl. simpl.
    by destruct (Forall2_lookup_lr _ _ _ _ _ _ Hs Hi Hi') as (_ & _ & ?).
Qed.

End Execute.
End dtx_lemmas.

(** ** Theorems *)

Section DtxTheorems.
Context {Sh W : Type} `{ShardLaws Sh}.
Import distributed_tx dtx_lemmas shard_lemmas.

(** C1: a batch that competes for nothing is atomic across the shards.  Assume
    that the batch names no input twice and none that a batch still prepared
    names, that its id is new to the shards, that the hashes it creates are new,
    and that the callbacks that replicate the phases succeed.  Then executing
    it over shards that partition the hash space succeeds, returns per
    transaction the conjunction of the votes of the shards it concerns, and
    changes the union of the shards' unspent sets by exactly the accepted
    transactions: an atomic run of the abstract specification across all
    shards.  What competing batches may do is shown by
    [LockingShard.aborted_tx_releases_foreign_lock] for one batch and by
    [TwoPhase.concurrent_batches_double_spend] for several. *)
Theorem execute_refines_uhs cbs w dtx_id shards d full :
  cbs_succeed cbs → covers in_shard_range shards →
  Forall (ready full dtx_id) shards →
  fresh_history everything (⋃ (shard_unspent <$> shards))
    (committed full (verdict shards <$> full)) →
  create dtx_id shards = Ret d →
  ∃ (w' : W) d', execute cbs w (add_txs d full) =
      Ret (w', d', Some (verdict shards <$> full)) ∧
    m_state d' = done ∧
    uhs_run everything (⋃ (shard_unspent <$> shards))
      (committed full (verdict shards <$> full))
      (⋃ (shard_unspent <$> m_shards d')).
Proof.
  intros Hcb Hcov Hr Hf Hd.
  destruct (create_ok _ _ _ Hd) as (Hb & Hfull & Hs & Hid & Hst).
  destruct (add_txs_ok d full Hb) as (Hb' & Hfull' & Hs' & Hid' & Hst').
  destruct (execute_from_prepare cbs full dtx_id shards Hcb Hr Hf w
    (add_txs d full)) as (w' & d' & E & S & F).
  - right. congruence.
  - congruence.
  - done.
  - by rewrite Hfull', Hfull.
  - rewrite Hs', Hs. apply Forall_Forall2_diag, Forall_forall. auto.
  - exists w', d'. split_and!; [done|done|].
    by eapply settled_global; try done.
Qed.

(** C13: recovery of the prepare phase, for a batch that competes for nothing
    and creates new hashes.  When a coordinator fails after any
    subset of the shards has locked the batch, a new coordinator that
    re-executes it from the replicated transactions reaches the same
    verdicts and the same final set as an undisturbed run. *)
Theorem recover_prepare_same_outcome cbs w dtx_id shards0 shards d full :
  cbs_succeed cbs → covers in_shard_range shards0 →
  Forall (ready full dtx_id) shards0 →
  fresh_history everything (⋃ (shard_unspent <$> shards0))
    (committed full (verdict shards0 <$> full)) →
  Forall2 (λ sh0 sh, sh = sh0 ∨ after_lock full dtx_id sh0 sh) shards0 shards →
  create dtx_id shards = Ret d →
  ∃ (w' : W) d', execute cbs w (recover_prepare d full) =
      Ret (w', d', Some (verdict shards0 <$> full)) ∧
    m_state d' = done ∧
    uhs_run everything (⋃ (shard_unspent <$> shards0))
      (committed full (verdict shards0 <$> full))
      (⋃ (shard_unspent <$> m_shards d')).
Proof.
  intros Hcb Hcov Hr Hf Hsh Hd.
  destruct (create_ok _ _ _ Hd) as (Hb & Hfull & Hs & Hid & Hst).
  destruct (add_txs_ok (set_state d prepare) full Hb)
    as (Hb' & Hfull' & Hs' & Hid' & Hst').
  destruct (execute_from_prepare cbs full dtx_id shards0 Hcb Hr Hf w
    (recover_prepare d full)) as (w' & d' & E & S & F).
  - by left.
  - unfold recover_prepare. rewrite Hid'. done.
  - done.
  - unfold recover_prepare. rewrite Hfull'. simpl. by rewrite Hfull.
  - unfold recover_prepare. rewrite Hs'. simpl. by rewrite Hs.
  - exists w', d'. split_and!; [done|done|].
    by eapply settled_global; try done.
Qed.

(** C14: recovery of the commit phase, for a batch that competes for nothing
    and creates new hashes.  When a coordinator fails after any
    subset of the shards has applied the batch, a new coordinator that
    resumes from the replicated verdicts and shard indices completes exactly
    the remaining shards. *)
Theorem recover_commit_completes cbs w dtx_id shards0 shards d full :
  cbs_succeed cbs → covers in_shard_range shards0 →
  Forall (ready full dtx_id) shards0 →
  fresh_history everything (⋃ (shard_unspent <$> shards0))
    (committed full (verdict shards0 <$> full)) →
  Forall2 (λ sh0 sh, after_lock full dtx_id sh0 sh ∨
                     after_apply full dtx_id shards0 sh0 sh) shards0 shards →
  create dtx_id shards = Ret d →
  ∃ (w' : W) d', execute cbs w
      (recover_commit d (verdict shards0 <$> full)
         ((λ sh, (sel sh full).*1) <$> shards0)) =
      Ret (w', d', Some (verdict shards0 <$> full)) ∧
    m_state d' = done ∧
    uhs_run everything (⋃ (shard_unspent <$> shards0))
      (committed full (verdict shards0 <$> full))
      (⋃ (shard_unspent <$> m_shards d')).
Proof.
  intros Hcb Hcov Hr Hf Hsh Hd.
  destruct (create_ok _ _ _ Hd) as (Hb & Hfull & Hs & Hid & Hst).
  destruct (execute_from_commit cbs full dtx_id shards0 Hcb Hr Hf w
    (recover_commit d (verdict shards0 <$> full)
       ((λ sh, (sel sh full).*1) <$> shards0))) as (w' & d' & E & S & F);
    try done; [by simpl; rewrite Hs|].
  exists w', d'. split_and!; [done|done|]. by eapply settled_global; try done.
Qed.

(** A coordinator that recovers a batch in its discard phase reports it
    done without contacting any shard, because only the commit phase
    restores the shard indices; the shards keep the batch in their applied
    set. *)
Theorem recover_discard_contacts_no_shard (w : W) dtx_id (shards : list Sh) d :
  create dtx_id shards = Ret d →
  execute (no_callbacks W) w (recover_discard d) =
    Ret (w, set_state (recover_discard d) done, Some []).
Proof.
  unfold create. destruct shards as [|sh shards]; [done|]. intros [= <-].
  unfold execute, prepare_phase, commit_phase, discard_phase, recover_discard.
  simpl. unfold run_discard. simpl. clear H0.
  assert (∀ l : list Sh, discard_shards dtx_id l (replicate (length l) []) =
    Ret (l, true)) as Hd.
  { induction l as [|s l IH]; simpl; [done|]. by rewrite IH. }
  rewrite Hd. done.
Qed.

(** An execution that returns no verdicts leaves the batch in the failed
    state, so that the controller recovers it. *)
Theorem execute_none_is_failed (cbs : callbacks W) w d w' d' :
  execute cbs w d = Ret (w', d', None) → m_state d' = failed.
Proof.
  unfold execute, prepare_phase, commit_phase, discard_phase, run_prepare,
    run_commit, run_discard, obind. intros E.
  repeat (case_match; simplify_eq/=; try done).
Qed.

End DtxTheorems.

(** For locking shards that partition the hash space and accept the
    attestations of a transaction, its verdict is positive exactly when
    every input is in the set of some shard and not locked. *)
Theorem verdict_meaning `{Hasher} `{Secp256k1} (shards : list locking_shard.t) tx :
  covers (λ s, locking_shard.in_range s) shards →
  Forall (λ s, check_attestations tx (locking_shard.m_sentinel_public_keys s)
                 (locking_shard.m_attestation_threshold s) = true) shards →
  Forall shard_lemmas.shard_inv shards →
  dtx_lemmas.verdict shards tx = true ↔
  ∀ h, h ∈ compact_tx.m_inputs tx → h ∈ ⋃ (locking_shard.m_uhs <$> shards).
Proof.
  intros Hcov Hatt Hinv. unfold dtx_lemmas.verdict. rewrite forallb_forall.
  setoid_rewrite elem_of_union_fmap. split.
  - intros Hv h Hh. destruct (Hcov h) as (i & s & Hi & Ho & _).
    exists i, s. split; [done|].
    assert (In s shards) as Hin by (by apply list_elem_of_In; eapply list_elem_of_lookup_2).
    apply Hv in Hin. simpl in Hin. unfold shard_lemmas.lock_result in Hin.
    assert (distributed_tx.active s tx = true) as Ha.
    { unfold distributed_tx.active. apply orb_true_iff. left.
      apply orb_true_iff. right. apply existsb_exists.
      exists h. split; [by apply list_elem_of_In|done]. }
    rewrite Ha in Hin. simpl in Hin. bools. match goal with Hs : ins _ _ ⊆ _ |- _ => apply Hs end.
    by apply elem_of_owned.
  - intros Hall s Hin%list_elem_of_In. apply orb_true_iff. right. simpl.
    unfold shard_lemmas.lock_result.
    rewrite (proj1 (Forall_forall _ _) Hatt s Hin). simpl.
    apply bool_decide_eq_true_2. intros h [Ho Hh]%elem_of_owned.
    destruct (Hall h Hh) as (j & s' & Hj & Hu).
    apply list_elem_of_lookup in Hin as [i Hi].
    destruct (Hcov h) as (k & sk & _ & _ & Huniq).
    assert (locking_shard.in_range s' h = true) as Ho'.
    { apply (shard_lemmas.inv_owned s').
      - apply (Forall_lookup_1 _ _ _ _ Hinv Hj).
      - unfold shard_lemmas.unspent. set_solver. }
    rewrite (Huniq i s Hi Ho) in Hi. rewrite (Huniq j s' Hj Ho') in Hj.
    by simplify_eq.
Qed.

(** ** A two-shard system *)

Module dtx_example.
Import shard_example.

(** Shard [A] owns the lower half of the hash space, shard [B] the upper. *)
Definition shardA : locking_shard.t :=
  locking_shard.init (0, 127)%Z 4 {[ hid x01; hid x02 ]} ∅ 0.
Definition shardB : locking_shard.t :=
  locking_shard.init (128, 255)%Z 4 {[ hid x81 ]} ∅ 0.

(** Spends one input of each shard. *)
Definition tx_x : compact_tx.t :=
  compact_tx.mk (hid x10) [hid x01; hid x81] [hid x03; hid x83] ∅.
(** Spends an input of [A] and one that does not exist on [B]. *)
Definition tx_y : compact_tx.t :=
  compact_tx.mk (hid x20) [hid x02; hid x90] [hid x04] ∅.

Definition batch : list compact_tx.t := [tx_x; tx_y].
End dtx_example.

Section DtxWitnesses.
Import Toy distributed_tx dtx_lemmas shard_lemmas shard_example dtx_example.

Lemma init_ok range uhs :
  (∀ h, h ∈ uhs → hash_in_shard_range range h = true) →
  shard_ok (locking_shard.init range 4 uhs ∅ 0).
Proof. intros Ho. split; [by apply init_inv|done]. Qed.

Lemma init_ready range uhs d :
  (∀ h, h ∈ uhs → hash_in_shard_range range h = true) →
  Forall (nodup_ins (locking_shard.init range 4 uhs ∅ 0))
    (sel (locking_shard.init range 4 uhs ∅ 0) batch).*2 →
  disjoint_txs (hash_in_shard_range range)
    (sel (locking_shard.init range 4 uhs ∅ 0) batch).*2 →
  ready batch d (locking_shard.init range 4 uhs ∅ 0).
Proof.
  intros Ho Hn Hd. split_and!; [by apply init_ok|done|].
  constructor; [done|done|]. intros d' p Hp. cbn in Hp.
  by apply lookup_empty_Some in Hp.
Qed.

Lemma two_shards_ready : Forall (ready batch dtx) [shardA; shardB].
Proof.
  constructor; [|constructor; [|constructor]];
    apply init_ready; compute_decide.
Qed.

Lemma two_shards_cover :
  covers (in_shard_range : locking_shard.t → _) [shardA; shardB].
Proof.
  intros h. simpl. unfold locking_shard.in_range, hash_in_shard_range; simpl.
  pose proof (Z_of_byte_range (default x00 (head h))) as Hb.
  destruct (Z.le_gt_cases (Z_of_byte (default x00 (head h))) 127) as [Hl|Hg].
  - exists 0, shardA. split; [done|]. split; [simpl; lia|].
    intros [|[|j]] b Hj Ho; simplify_eq/=; [done|lia].
  - exists 1, shardB. split; [done|]. split; [simpl; lia|].
    intros [|[|j]] b Hj Ho; simplify_eq/=; [lia|done].
Qed.

Lemma two_shards_fresh :
  fresh_history everything (⋃ (shard_unspent <$> [shardA; shardB]))
    (committed batch (verdict [shardA; shardB] <$> batch)).
Proof. compute_decide. Qed.

Lemma no_callbacks_succeed : cbs_succeed (no_callbacks unit).
Proof. by constructor. Qed.

Lemma execute_refines_uhs_witness :
  ∃ w' d', execute (no_callbacks unit) ()
      (add_txs (mk dtx [shardA; shardB] [[]; []] [] [[]; []] start []) batch) =
      Ret (w', d', Some (verdict [shardA; shardB] <$> batch)) ∧
    m_state d' = done ∧
    uhs_run everything (⋃ (shard_unspent <$> [shardA; shardB]))
      (committed batch (verdict [shardA; shardB] <$> batch))
      (⋃ (shard_unspent <$> m_shards d')).
Proof.
  apply (execute_refines_uhs (no_callbacks unit) () dtx);
    [apply no_callbacks_succeed|apply two_shards_cover|apply two_shards_ready
    |apply two_shards_fresh|reflexivity].
Defined.

(** The coordinator fails after shard [A] has locked. *)
Lemma recover_prepare_same_outcome_witness :
  ∃ sA d w' d',
    locking_shard.lock_outputs shardA (sel shardA batch).*2 dtx =
      Ret (sA, Some (shard_vote shardA <$> (sel shardA batch).*2)) ∧
    create dtx [sA; shardB] = Ret d ∧
    execute (no_callbacks unit) () (recover_prepare d batch) =
      Ret (w', d', Some (verdict [shardA; shardB] <$> batch)) ∧
    m_state d' = done ∧
    uhs_run everything (⋃ (shard_unspent <$> [shardA; shardB]))
      (committed batch (verdict [shardA; shardB] <$> batch))
      (⋃ (shard_unspent <$> m_shards d')).
Proof.
  pose proof two_shards_ready as Hr. inversion_clear Hr as [|?? HA _].
  destruct (lock_one batch dtx shardA shardA HA (or_introl eq_refl))
    as (sA & E & Hl).
  destruct (recover_prepare_same_outcome (no_callbacks unit) () dtx
    [shardA; shardB] [sA; shardB]
    (mk dtx [sA; shardB] [[]; []] [] [[]; []] start []) batch)
    as (w' & d' & Hex);
    [apply no_callbacks_succeed|apply two_shards_cover|apply two_shards_ready
    |apply two_shards_fresh| |reflexivity|].
  - constructor; [|constructor; [by left|constructor]]. right. right.
    split; [vm_compute; discriminate|done].
  - exists sA, (mk dtx [sA; shardB] [[]; []] [] [[]; []] start []), w', d'.
    exact (conj E (conj eq_refl Hex)).
Defined.

(** The coordinator fails after both shards have locked and [A] has
    applied. *)
Lemma recover_commit_completes_witness :
  ∃ sA sB d w' d',
    create dtx [sA; sB] = Ret d ∧
    shard_applied sA dtx ∧ shard_prepared sB dtx ≠ None ∧
    execute (no_callbacks unit) ()
      (recover_commit d (verdict [shardA; shardB] <$> batch)
         ((λ sh, (sel sh batch).*1) <$> [shardA; shardB])) =
      Ret (w', d', Some (verdict [shardA; shardB] <$> batch)) ∧
    m_state d' = done ∧
    uhs_run everything (⋃ (shard_unspent <$> [shardA; shardB]))
      (committed batch (verdict [shardA; shardB] <$> batch))
      (⋃ (shard_unspent <$> m_shards d')).
Proof.
  pose proof two_shards_ready as Hr. inversion_clear Hr as [|?? HA Hr'].
  inversion_clear Hr' as [|?? HB _].
  destruct (lock_one batch dtx shardA shardA HA (or_introl eq_refl))
    as (sA & _ & HlA).
  destruct (lock_one batch dtx shardB shardB HB (or_introl eq_refl))
    as (sB & _ & HlB).
  destruct (apply_one batch dtx [shardA; shardB] two_shards_fresh shardA sA)
    as (sA' & _ & Hset & Hp & Ha); [left|done|].
  destruct (recover_commit_completes (no_callbacks unit) () dtx
    [shardA; shardB] [sA'; sB]
    (mk dtx [sA'; sB] [[]; []] [] [[]; []] start []) batch)
    as (w' & d' & Hex);
    [apply no_callbacks_succeed|apply two_shards_cover|apply two_shards_ready
    |apply two_shards_fresh| |reflexivity|].
  - constructor; [|constructor; [|constructor]].
    + right. right. split; [vm_compute; discriminate|done].
    + left. right. split; [vm_compute; discriminate|done].
  - exists sA', sB, (mk dtx [sA'; sB] [[]; []] [] [[]; []] start []), w', d'.
    split; [reflexivity|]. split; [done|]. split; [|done].
    destruct HlB as (_ & _ & _ & HpB). rewrite HpB. discriminate.
Defined.

Lemma recover_discard_contacts_no_shard_witness :
  execute (no_callbacks unit) ()
    (recover_discard (mk dtx [shardA] [[]] [] [[]] start [])) =
  Ret ((), set_state (recover_discard (mk dtx [shardA] [[]] [] [[]] start []))
             done, Some []).
Proof.
  apply (recover_discard_contacts_no_shard () dtx [shardA]). reflexivity.
Defined.

Lemma execute_none_is_failed_witness :
  m_state (set_state (mk dtx [shardA] [[]] [] [[]] start []) failed) = failed.
Proof.
  apply (execute_none_is_failed
    {| m_prepare_cb := Some (λ w _ _, (w, false)); m_commit_cb := None;
       m_discard_cb := None; m_done_cb := None |} ()
    (mk dtx [shardA] [[]] [] [[]] start []) ()). reflexivity.
Defined.

Lemma verdict_meaning_witness :
  verdict [shardA; shardB] tx_x = true ↔
  ∀ h, h ∈ compact_tx.m_inputs tx_x →
    h ∈ ⋃ (locking_shard.m_uhs <$> [shardA; shardB]).
Proof.
  apply verdict_meaning; [apply two_shards_cover|repeat constructor|].
  pose proof two_shards_ready as Hr.
  eapply Forall_impl; [exact Hr|]. intros s [[Hi _] _]. exact Hi.
Defined.

End DtxWitnesses.
