(* ===== verification/Coordinator.v ===== *)
(** * Coordinator

    Model of [src/uhs/twophase/coordinator/state_machine.cpp], the replicated
    record of the phase of every distributed transaction, and of
    [controller.cpp]: building batches from sentinel requests, executing them
    with the replication callbacks, recovering the batches of a failed
    leader, and the start/stop flags driven by leadership changes. *)

From S2P Require Import Prelude Serialization Crypto Transaction Validation.
From S2P Require Import CacheSet UhsSpec LockingShard DistributedTx.
From Stdlib Require Import ZArith Lia.
From Stdlib.Strings Require Import Byte.
From stdpp Require Import base tactics numbers gmap sets list.
Open Scope cbdc_scope.

(** ** The replicated state machine *)

(** [sm_command]: header and payload. *)
Inductive sm_command :=
| sm_prepare (m_dtx_id : hash_t) (txs : list compact_tx.t)
| sm_commit (m_dtx_id : hash_t) (complete_txs : list bool)
    (tx_idxs : list (list nat))
| sm_discard (m_dtx_id : hash_t)
| sm_done (m_dtx_id : hash_t)
| sm_get.

Module coordinator_sm.

(** The code keeps the payload of a command as the bytes that were
    replicated; here it is the decoded payload, and Messages has the bytes. *)
Record state := mk_state {
  m_prepare_txs : gmap hash_t (list compact_tx.t);
  m_commit_txs : gmap hash_t (list bool * list (list nat));
  m_discard_txs : gset hash_t
}.

Definition empty : state := mk_state ∅ ∅ ∅.

(** The body of [state_machine::commit]; [logger->fatal] ends the process.
    [get] answers with the state. *)
Definition apply (s : state) (c : sm_command) : outcome (state * option state) :=
  match c with
  | sm_prepare id txs =>
      match m_prepare_txs s !! id with
      | Some _ => Fatal
      | None => Ret (mk_state (<[ id := txs ]> (m_prepare_txs s))
                       (m_commit_txs s) (m_discard_txs s), None)
      end
  | sm_commit id complete idxs =>
      match m_prepare_txs s !! id with
      | None => Fatal
      | Some _ =>
          Ret (mk_state (delete id (m_prepare_txs s))
                 (match m_commit_txs s !! id with
                  | Some _ => m_commit_txs s
                  | None => <[ id := (complete, idxs) ]> (m_commit_txs s)
                  end) (m_discard_txs s), None)
      end
  | sm_discard id =>
      match m_commit_txs s !! id with
      | None => Fatal
      | Some _ =>
          Ret (mk_state (m_prepare_txs s) (delete id (m_commit_txs s))
                 ({[ id ]} ∪ m_discard_txs s), None)
      end
  | sm_done id =>
      if decide (id ∈ m_discard_txs s) then
        Ret (mk_state (m_prepare_txs s) (m_commit_txs s)
               (m_discard_txs s ∖ {[ id ]}), None)
      else Fatal
  | sm_get => Ret (s, Some s)
  end.

Record t := mk { m_last_committed_idx : Z; m_state : state }.

(** [state_machine::commit] with its log index. *)
Definition commit (s : t) (log_idx : Z) (c : sm_command)
    : outcome (t * option state) :=
  if (log_idx =? add64 (m_last_committed_idx s) 1)%Z then
    let! '(st, resp) := apply (m_state s) c in Ret (mk log_idx st, resp)
  else Fatal.

Definition commit_config (s : t) (log_idx : Z) : outcome t :=
  if (log_idx =? add64 (m_last_committed_idx s) 1)%Z
  then Ret (mk log_idx (m_state s)) else Fatal.

(** The state after a log. *)
Fixpoint run (s : state) (log : list sm_command) : outcome state :=
  match log with
  | [] => Ret s
  | c :: log => let! '(s', _) := apply s c in run s' log
  end.

End coordinator_sm.

(** ** The controller *)

(** What Raft does with a command: a leader replicates it and says so; a node
    that is not the leader (any more) refuses it; or leadership is lost while
    the command is under way, which reports a failure although a later leader
    commits it. *)
Inductive fate := replicated | refused | unanswered.

(** Raft decides anew at every command, so that leadership can be lost at any
    of them; the log is the sequence of committed commands. *)
Definition raft : Type := list sm_command → fate.

(** A node that leads throughout, and one that never does. *)
Definition leading : raft := λ _, replicated.
Definition following : raft := λ _, refused.

(** [get_state] decides which phases still have to be replicated. *)
Section Callbacks.
Variable leader : raft.

(** [replicate_sm_command]: the committed log, and whether there was a
    result. *)
Definition replicate_sm_command (log : list sm_command) (c : sm_command)
    : list sm_command * bool :=
  match leader log with
  | replicated => (log ++ [c], true)
  | refused => (log, false)
  | unanswered => (log ++ [c], false)
  end.

Definition prepare_cb (log : list sm_command) (dtx_id : hash_t)
    (txs : list compact_tx.t) := replicate_sm_command log (sm_prepare dtx_id txs).

Definition commit_cb (log : list sm_command) (dtx_id : hash_t)
    (complete_txs : list bool) (tx_idxs : list (list nat)) :=
  replicate_sm_command log (sm_commit dtx_id complete_txs tx_idxs).

Definition discard_cb (log : list sm_command) (dtx_id : hash_t) :=
  replicate_sm_command log (sm_discard dtx_id).

Definition done_cb (log : list sm_command) (dtx_id : hash_t) :=
  replicate_sm_command log (sm_done dtx_id).

(** [batch_set_cbs]: the callback of the current phase is left out. *)
Definition batch_set_cbs (s : dtx_state) : callbacks (list sm_command) := {|
  m_prepare_cb := if decide (s = prepare) then None else Some prepare_cb;
  m_commit_cb := if decide (s = commit) then None else Some commit_cb;
  m_discard_cb := if decide (s = discard) then None else Some discard_cb;
  m_done_cb := if decide (s = done) then None else Some done_cb
|}.

End Callbacks.

Module controller.
Section Controller.
Context {Sh : Type} `{ShardInterface Sh} `{Hasher} `{Secp256k1}.

(** A result callback is identified by a number; [m_current_txs] maps a
    transaction id to its callback and its index in the batch. *)
Record t := mk {
  m_is_leader : bool;
  m_running : bool;
  m_batch_size : nat;
  m_current_batch : distributed_tx.t Sh;
  m_current_txs : gmap hash_t (nat * nat);
  m_sentinel_public_keys : gset pubkey_t;
  m_attestation_threshold : nat
}.

(** The outcome of a request: it returns, or it waits for room in the
    batch. *)
Inductive exec_result := returned (accepted : bool) | waiting.

Definition execute_transaction (c : t) (tx : compact_tx.t) (result_callback : nat)
    : t * exec_result :=
  if negb (m_is_leader c) then (c, returned false) else
  if negb (check_attestations tx (m_sentinel_public_keys c)
             (m_attestation_threshold c)) then (c, returned false) else
  if negb (bool_decide (size (m_current_txs c) < m_batch_size c) ||
           negb (m_running c)) then (c, waiting) else
  if negb (m_running c) then (c, returned false) else
  match m_current_txs c !! compact_tx.m_id tx with
  | Some _ => (c, returned false)
  | None =>
      let (batch, idx) := distributed_tx.add_tx (m_current_batch c) tx in
      (mk (m_is_leader c) (m_running c) (m_batch_size c) batch
         (<[ compact_tx.m_id tx := (result_callback, idx) ]> (m_current_txs c))
         (m_sentinel_public_keys c) (m_attestation_threshold c), returned true)
  end.

(** One round of [batch_executor_func]: swap in a new batch with a random
    id, when there is something to execute. *)
Definition swap_batch (c : t) (random_hash : hash_t) (shards : list Sh)
    : outcome (t * option (distributed_tx.t Sh * gmap hash_t (nat * nat))) :=
  if negb (m_running c) || bool_decide (m_current_txs c = ∅)
  then Ret (c, None)
  else
    let! new_batch := distributed_tx.create random_hash shards in
    Ret (mk (m_is_leader c) (m_running c) (m_batch_size c) new_batch ∅
           (m_sentinel_public_keys c) (m_attestation_threshold c),
         Some (m_current_batch c, m_current_txs c)).

(** The answers the executor sends: per transaction its callback and the
    flag of its index, or nothing when the execution failed. *)
Definition responses (txs : gmap hash_t (nat * nat)) (res : option (list bool))
    : outcome (gmap hash_t (nat * option bool)) :=
  match res with
  | None => Ret ((λ m, (m.1, None)) <$> txs)
  | Some flags =>
      if decide (map_Forall (λ _ m, m.2 < length flags) txs)
      then Ret ((λ m, (m.1, flags !! m.2)) <$> txs)
      else Fatal
  end.

(** A coordinator per unfinished batch, in the phase it was left in. *)
Definition recover_dtxs (st : coordinator_sm.state) (shards : list Sh)
    : list (outcome (distributed_tx.t Sh)) :=
  ((λ '(id, txs), let! d := distributed_tx.create id shards in
                  Ret (distributed_tx.recover_prepare d txs)) <$>
     map_to_list (coordinator_sm.m_prepare_txs st)) ++
  ((λ '(id, (complete, idxs)), let! d := distributed_tx.create id shards in
                  Ret (distributed_tx.recover_commit d complete idxs)) <$>
     map_to_list (coordinator_sm.m_commit_txs st)) ++
  ((λ id, let! d := distributed_tx.create id shards in
          Ret (distributed_tx.recover_discard d)) <$>
     elements (coordinator_sm.m_discard_txs st)).

(** Executing the recovered batches on the shared shards; the flag is
    [success].  The code gives every batch a thread of its own: this is the
    schedule in which they run one after the other, and [recovery_thread]
    below describes them in any schedule. *)
Fixpoint execute_recovered (leader : raft) (log : list sm_command)
    (shards : list Sh) (ds : list (outcome (distributed_tx.t Sh)))
    : outcome (list sm_command * list Sh * bool) :=
  match ds with
  | [] => Ret (log, shards, true)
  | od :: ds =>
      let! d := od in
      let! '(log1, d1, res) :=
        distributed_tx.execute
          (batch_set_cbs leader (distributed_tx.m_state d)) log
          (distributed_tx.set_shards d shards) in
      let! '(log2, shards2, ok) :=
        execute_recovered leader log1 (distributed_tx.m_shards d1) ds in
      Ret (log2, shards2, match res with Some _ => ok | None => false end)
  end.

(** [recovery_func]: fetch the state through the log with [get], rebuild a
    coordinator per unfinished batch and execute them. *)
Definition recovery_func (leader : raft) (log : list sm_command)
    (shards : list Sh) : outcome (list sm_command * list Sh * bool) :=
  let (log1, ok) := replicate_sm_command leader log sm_get in
  if negb ok then Ret (log1, shards, false) else
  let! st := coordinator_sm.run coordinator_sm.empty log1 in
  execute_recovered leader log1 shards (recover_dtxs st shards).

(** A thread of [recovery_func]: its batch, what Raft does with its commands,
    the shards as it meets them, the commands it has replicated and the result
    of its execution. *)
Record recovery_thread := mk_thread {
  th_dtx : distributed_tx.t Sh;
  th_raft : raft;
  th_shards : list Sh;
  th_cmds : list sm_command;
  th_res : option (list bool)
}.

Definition thread_ran (th : recovery_thread) : Prop :=
  ∃ d', distributed_tx.execute
    (batch_set_cbs (th_raft th) (distributed_tx.m_state (th_dtx th))) []
    (distributed_tx.set_shards (th_dtx th) (th_shards th)) = Ret (th_cmds th, d', th_res th).

End Controller.
Arguments t Sh : clear implicits.
Arguments recovery_thread Sh : clear implicits.
End controller.

(** The lists merged into one, each in its own order. *)
Inductive interleaving {A} : list (list A) → list A → Prop :=
| interleaving_nil ls : Forall (λ l, l = []) ls → interleaving ls []
| interleaving_cons ls1 x l ls2 r :
    interleaving (ls1 ++ l :: ls2) r → interleaving (ls1 ++ (x :: l) :: ls2) (x :: r).

(** ** Start and stop *)

Module start_stop.

Record t := mk { m_start_flag : bool; m_stop_flag : bool; m_quit : bool }.
Definition init : t := mk false false false.

Inductive raft_event := BecomeLeader | BecomeFollower | other_event.

Definition raft_callback (s : t) (e : raft_event) : t :=
  match e with
  | BecomeLeader => mk true false (m_quit s)
  | BecomeFollower => mk false true (m_quit s)
  | other_event => s
  end.

Definition quit (s : t) : t := mk (m_start_flag s) (m_stop_flag s) true.

Inductive action := act_quit | act_stop | act_start.

(** One round of [start_stop_func] once the wait condition holds; [None]
    while it keeps waiting.  Both flags set fails the assertion. *)
Definition start_stop_round (s : t) : option (outcome (t * action)) :=
  if m_start_flag s || m_quit s || m_stop_flag s then
    Some (if m_quit s then Ret (s, act_quit)
          else if xorb (m_start_flag s) (m_stop_flag s)
          then Ret (mk false false false,
                    if m_stop_flag s then act_stop else act_start)
          else Fatal)
  else None.

Inductive reachable : t → Prop :=
| reach_init : reachable init
| reach_raft s e : reachable s → reachable (raft_callback s e)
| reach_quit s : reachable s → reachable (quit s)
| reach_round s s' a :
    reachable s → start_stop_round s = Some (Ret (s', a)) → reachable s'.

Lemma reachable_exclusive s :
  reachable s → m_start_flag s && m_stop_flag s = false.
Proof.
  induction 1 as [|s [] _ IH|s _ IH|s s' a _ IH E]; simpl; try done.
  unfold start_stop_round in E. repeat case_match; by simplify_eq.
Qed.

End start_stop.

(** ** The life cycle recorded by the log *)

Module coordinator_lemmas.
Import coordinator_sm.

Inductive kind := k_prepare | k_commit | k_discard | k_done.

Definition life_cycle : list kind := [k_prepare; k_commit; k_discard; k_done].

(** The commands of a log that concern one batch. *)
Definition kind_for (id : hash_t) (c : sm_command) : option kind :=
  match c with
  | sm_prepare i _ => if decide (i = id) then Some k_prepare else None
  | sm_commit i _ _ => if decide (i = id) then Some k_commit else None
  | sm_discard i => if decide (i = id) then Some k_discard else None
  | sm_done i => if decide (i = id) then Some k_done else None
  | sm_get => None
  end.

Definition kinds (id : hash_t) (log : list sm_command) : list kind :=
  omap (kind_for id) log.

Definition prepared_ids (log : list sm_command) : list hash_t :=
  omap (λ c, match c with sm_prepare i _ => Some i | _ => None end) log.

(** The batch has gone through the first [n] steps of its life. *)
Definition at_step (s : state) (id : hash_t) (n : nat) : Prop :=
  (is_Some (m_prepare_txs s !! id) ↔ n = 1) ∧
  (is_Some (m_commit_txs s !! id) ↔ n = 2) ∧
  (id ∈ m_discard_txs s ↔ n = 3).

Lemma run_snoc s log c :
  run s (log ++ [c]) =
    let! s' := run s log in let! '(s'', _) := apply s' c in Ret s''.
Proof.
  revert s. induction log as [|c' log IH]; intros s; simpl.
  - destruct (apply s c) as [[??]|]; done.
  - destruct (apply s c') as [[s' ?]|]; simpl; [apply IH|done].
Qed.

Lemma kinds_snoc id log c :
  kinds id (log ++ [c]) =
    kinds id log ++ match kind_for id c with Some k => [k] | None => [] end.
Proof.
  unfold kinds. by rewrite omap_app.
Qed.

(** A command moves its own batch one step and no other. *)
Lemma apply_other s c s' r id n :
  apply s c = Ret (s', r) → kind_for id c = None → at_step s id n →
  at_step s' id n.
Proof.
  unfold at_step. destruct c as [i txs|i comp ix|i|i|]; simpl; intros E K Hst;
    try (case_decide as Hne; [done|]).
  - case_match; simplify_eq/=. by rewrite lookup_insert_ne.
  - destruct (m_prepare_txs s !! i); simplify_eq/=.
    rewrite lookup_delete_ne by done. case_match; [done|].
    by rewrite lookup_insert_ne.
  - case_match; simplify_eq/=. rewrite lookup_delete_ne by done.
    rewrite elem_of_union, elem_of_singleton. naive_solver.
  - case_decide; simplify_eq/=.
    rewrite elem_of_difference, elem_of_singleton. naive_solver.
  - by simplify_eq/=.
Qed.

Lemma apply_own s c s' r id n k :
  apply s c = Ret (s', r) → kind_for id c = Some k → at_step s id n → n ≤ 4 →
  (k = k_prepare → n = 0) →
  life_cycle !! n = Some k ∧ at_step s' id (S n).
Proof.
  unfold at_step. intros E K (Hp & Hc & Hd) Hn Hfresh.
  destruct c as [i txs|i comp ix|i|i|]; simpl in *;
    try (case_decide as He; [|done]); simplify_eq/=.
  - rewrite Hfresh in * by done. case_match; simplify_eq/=.
    split; [done|]. rewrite lookup_insert_eq. naive_solver.
  - case_match; simplify_eq/=. assert (n = 1) as -> by (apply Hp; eauto).
    split; [done|]. rewrite lookup_delete_eq.
    split_and!; [by split; [intros []|]| |naive_solver].
    split; [done|]. intros _. case_match; [eauto|].
    rewrite lookup_insert_eq. eauto.
  - case_match; simplify_eq/=. assert (n = 2) as -> by (apply Hc; eauto).
    split; [done|]. rewrite lookup_delete_eq, elem_of_union, elem_of_singleton.
    split_and!; [naive_solver|by split; [intros []|]|naive_solver].
  - case_decide as Hin; simplify_eq/=. assert (n = 3) as -> by (by apply Hd).
    split; [done|]. rewrite elem_of_difference, elem_of_singleton.
    naive_solver.
Qed.

Lemma kinds_length id log n :
  kinds id log = take n life_cycle → n ≤ 4 → id ∉ prepared_ids log → n = 0.
Proof.
  intros E Hn Hin. destruct n as [|n]; [done|]. exfalso. apply Hin.
  assert (k_prepare ∈ kinds id log) as Hk by (rewrite E; left).
  unfold kinds in Hk. apply list_elem_of_omap in Hk as (c & Hc & Hk).
  unfold prepared_ids. apply list_elem_of_omap. exists c. split; [done|].
  destruct c; simpl in Hk; try (case_decide; by simplify_eq/=); done.
Qed.

Lemma log_position log s id :
  run empty log = Ret s → NoDup (prepared_ids log) →
  ∃ n, n ≤ 4 ∧ kinds id log = take n life_cycle ∧ at_step s id n.
Proof.
  revert s. induction log as [|c log IH] using rev_ind; intros s Hrun Hnd.
  { simpl in Hrun. simplify_eq. exists 0. split_and!; [lia|done|].
    unfold at_step, empty; cbn. rewrite !lookup_empty.
    split_and!; (split; [|done]); [by intros []..|set_solver]. }
  rewrite run_snoc in Hrun. destruct (run empty log) as [s0|] eqn:E0; [|done].
  simpl in Hrun. destruct (apply s0 c) as [[s1 r]|] eqn:E1; [|done].
  simpl in Hrun. simplify_eq. unfold prepared_ids in Hnd.
  rewrite omap_app in Hnd. apply NoDup_app in Hnd as (Hnd0 & Hdis & _).
  destruct (IH s0 eq_refl Hnd0) as (n & Hn & Hk & Hst).
  rewrite kinds_snoc. destruct (kind_for id c) as [k|] eqn:Ek.
  - destruct (apply_own _ _ _ _ _ _ _ E1 Ek Hst Hn) as [Hl Hst'].
    { intros ->. eapply kinds_length; [exact Hk|done|]. intros Hin.
      apply (Hdis id Hin). destruct c; simpl in *;
        try (case_decide; by simplify_eq/=); try done.
      case_decide; [|done]. subst. left. }
    exists (S n). split_and!; [|by rewrite Hk, <- take_S_r|done].
    apply lookup_lt_Some in Hl. simpl in Hl. lia.
  - exists n. rewrite app_nil_r. split_and!; [done|done|].
    by eapply apply_other.
Qed.

(** The write-ahead log of one batch. *)
Definition batch_log {Sh} (d : distributed_tx.t Sh) (complete : list bool)
    : list sm_command :=
  [sm_prepare (distributed_tx.m_dtx_id d) (distributed_tx.m_full_txs d);
   sm_commit (distributed_tx.m_dtx_id d) complete (distributed_tx.m_tx_idxs d);
   sm_discard (distributed_tx.m_dtx_id d);
   sm_done (distributed_tx.m_dtx_id d)].

Lemma run_batch_log {Sh} (d : distributed_tx.t Sh) complete st :
  at_step st (distributed_tx.m_dtx_id d) 0 →
  run st (batch_log d complete) = Ret st.
Proof.
  intros (Hp & Hc & Hd). destruct st as [P C D]; simpl in *.
  set (id := distributed_tx.m_dtx_id d) in *.
  assert (P !! id = None) as HP by (apply eq_None_not_Some; naive_solver).
  assert (C !! id = None) as HC by (apply eq_None_not_Some; naive_solver).
  assert (id ∉ D) as HD by naive_solver.
  unfold batch_log. fold id. simpl. rewrite HP. simpl.
  rewrite lookup_insert_eq. simpl. rewrite HC, lookup_insert_eq. simpl.
  rewrite decide_True by set_solver. simpl.
  rewrite !delete_insert_id by done. do 2 f_equal. set_solver.
Qed.

(** ** Recovery drains the log *)

(** A batch the state machine has at step [k] accepts the next command. *)
Lemma step_ok s id k c kd :
  at_step s id k → 1 ≤ k → kind_for id c = Some kd → life_cycle !! k = Some kd →
  ∃ s', apply s c = Ret (s', None) ∧ at_step s' id (S k) ∧
    ∀ id' n, id' ≠ id → at_step s id' n → at_step s' id' n.
Proof.
  intros Hst Hk Ek El.
  assert (∃ s', apply s c = Ret (s', None)) as [s' E].
  { destruct Hst as (Hp & Hc & Hd).
    destruct c as [i txs|i comp ix|i|i|]; simpl in *;
      try (case_decide; [|done]); simplify_eq.
    - destruct k as [|[|[|[|]]]]; simplify_eq/=. lia.
    - destruct k as [|[|[|[|]]]]; simplify_eq/=.
      destruct (proj2 Hp eq_refl) as [? ->]. eauto.
    - destruct k as [|[|[|[|]]]]; simplify_eq/=.
      destruct (proj2 Hc eq_refl) as [? ->]. eauto.
    - destruct k as [|[|[|[|]]]]; simplify_eq/=.
      rewrite decide_True by (by apply Hd). eauto. }
  exists s'. split; [done|]. split.
  - eapply apply_own; [exact E|exact Ek|exact Hst| |].
    + apply lookup_lt_Some in El. simpl in El. lia.
    + intros ->. destruct k as [|[|[|[|]]]]; simplify_eq/=. lia.
  - intros id' n Hne. eapply apply_other; [exact E|].
    destruct c; simpl in *; try done; repeat case_decide; by simplify_eq.
Qed.

Lemma run_steps cmds : ∀ s id k n,
  at_step s id k → 1 ≤ k →
  kind_for id <$> cmds = Some <$> take n (drop k life_cycle) →
  ∃ s', run s cmds = Ret s' ∧ at_step s' id (k + length cmds) ∧
    ∀ id' m, id' ≠ id → at_step s id' m → at_step s' id' m.
Proof.
  induction cmds as [|c cmds IH]; intros s id k n Hst Hk E.
  { exists s. simpl. by rewrite Nat.add_0_r. }
  destruct n as [|n]; [done|].
  destruct (life_cycle !! k) as [kd|] eqn:El.
  2:{ by rewrite drop_ge in E by (by apply lookup_ge_None). }
  rewrite (drop_S _ _ _ El) in E. csimpl in E. injection E as Ec E.
  destruct (step_ok _ _ _ _ _ Hst Hk Ec El) as (s1 & E1 & Hst1 & Hf1).
  destruct (IH s1 id (S k) n Hst1) as (s2 & E2 & Hst2 & Hf2); [lia|done|].
  exists s2. simpl. rewrite E1. simpl. split; [done|].
  rewrite Nat.add_succ_r. split; [done|]. eauto.
Qed.

Lemma run_app s l1 l2 :
  run s (l1 ++ l2) = let! s' := run s l1 in run s' l2.
Proof.
  revert s. induction l1 as [|c l1 IH]; intros s; simpl; [done|].
  destruct (apply s c) as [[s' ?]|]; simpl; [apply IH|done].
Qed.

(** The step at which a batch in the given phase is recorded. *)
Definition phase_step (st : dtx_state) : option nat :=
  match st with
  | DistributedTx.prepare => Some 1
  | DistributedTx.commit => Some 2
  | DistributedTx.discard => Some 3
  | _ => None
  end.

(** The commands an execution appends, from the phase it starts in. *)
Definition appends (id : hash_t) (k : nat) (log log' : list sm_command)
    (full : bool) : Prop :=
  ∃ cmds n, log' = log ++ cmds ∧
    kind_for id <$> cmds = Some <$> take n (drop k life_cycle) ∧
    (full = true → k + length cmds = 4).

Lemma appends_intro id k log cmds n full :
  kind_for id <$> cmds = Some <$> take n (drop k life_cycle) →
  (full = true → k + length cmds = 4) →
  appends id k log (log ++ cmds) full.
Proof. intros ? ?. exists cmds, n. done. Qed.

Section Recover.
Context {Sh : Type} `{ShardInterface Sh}.
Implicit Types d : distributed_tx.t Sh.

Lemma discard_phase_appends leader st log d log' d' ok :
  distributed_tx.m_state d = discard → phase_step st ≠ None →
  distributed_tx.discard_phase (batch_set_cbs leader st) log d =
    Ret (log', d', ok) →
  ∃ cmds, log' = log ++ cmds ∧
    ∃ n, kind_for (distributed_tx.m_dtx_id d) <$> cmds =
      Some <$> take n (if decide (st = discard) then [k_done]
                       else [k_discard; k_done]) ∧
      (ok = true → n = 2).
Proof.
  intros Hd Hst E. unfold distributed_tx.discard_phase in E.
  rewrite decide_True in E by done. unfold distributed_tx.run_discard in E.
  destruct st; try done; simpl in E;
    unfold discard_cb, done_cb, replicate_sm_command in E;
    destruct (leader log); simpl in E;
    try destruct (distributed_tx.discard_shards _ _ _) as [[sh []]|]; simpl in E;
    try destruct (leader (log ++ _)); simplify_eq/=; rewrite <- ?(assoc_L (++));
    first [ eexists; split; [reflexivity|]; exists 2; csimpl; by rewrite ?decide_True
          | eexists; split; [reflexivity|]; exists 1; csimpl; by rewrite ?decide_True
          | exists []; rewrite app_nil_r; split; [done|]; by exists 0 ].
Qed.

(** From the commit phase on; [st] is the phase the execution started in. *)
Lemma commit_phase_appends leader st log d log1 d1 ok1 :
  distributed_tx.m_state d = DistributedTx.commit →
  distributed_tx.commit_phase (batch_set_cbs leader st) log d =
    Ret (log1, d1, ok1) →
  (∃ n, log1 = log ++ take n (if decide (st = DistributedTx.commit) then [] else
    [sm_commit (distributed_tx.m_dtx_id d) (distributed_tx.m_complete_txs d)
       (distributed_tx.m_tx_idxs d)]) ∧ (ok1 = true → n = 1)) ∧
  distributed_tx.m_dtx_id d1 = distributed_tx.m_dtx_id d ∧
  (ok1 = true → distributed_tx.m_state d1 = discard).
Proof.
  intros Hd E. unfold distributed_tx.commit_phase in E.
  rewrite decide_True in E by done. unfold distributed_tx.run_commit in E.
  simpl in E. case_decide; simpl in E; [|unfold commit_cb, replicate_sm_command in E];
    [|destruct (leader log); simpl in E];
    try destruct (distributed_tx.apply_shards _ _ _ _) as [[sh ok]|]; simplify_eq/=;
    first [ split; [exists 1; by rewrite ?app_nil_r|split; [done|by repeat case_match]]
          | split; [exists 0; by rewrite ?app_nil_r|split; [done|by repeat case_match]] ].
Qed.

Lemma phase_result (ok : bool) (w w' : list sm_command) d d' (c : list bool) res :
  (if negb ok then Ret (w, d, None) else Ret (w, d, Some c)) = Ret (w', d', res) →
  w' = w ∧ bool_decide (is_Some res) = ok.
Proof. by destruct ok; intros ?; simplify_eq/=. Qed.

Lemma commit_on_appends leader st log d log' d' res k :
  distributed_tx.m_state d = DistributedTx.commit →
  phase_step st = Some k → k ≤ 2 →
  (let! '(w2, d2, ok2) :=
     distributed_tx.commit_phase (batch_set_cbs leader st) log d in
   if negb (ok2 : bool) then Ret (w2, d2, None) else
   let! '(w3, d3, ok3) :=
     distributed_tx.discard_phase (batch_set_cbs leader st) w2 d2 in
   if negb (ok3 : bool) then Ret (w3, d3, None) else
   Ret (w3, d3, Some (distributed_tx.m_complete_txs d3))) = Ret (log', d', res) →
  appends (distributed_tx.m_dtx_id d) k log log' (bool_decide (is_Some res)).
Proof.
  intros Hd Hst Hk E.
  destruct (distributed_tx.commit_phase _ _ _) as [[[w2 d2] ok2]|] eqn:E2; [|done].
  simpl in E.
  destruct (commit_phase_appends _ _ _ _ _ _ _ Hd E2) as ((m & -> & Hm) & Hid & Hok).
  destruct ok2; simpl in E.
  2:{ simplify_eq. destruct st; simplify_eq/=; [| |lia].
      - apply (appends_intro _ _ _ _ (min m 1)); [|done].
        destruct m as [|[|]]; csimpl; by rewrite ?decide_True.
      - rewrite take_nil. by apply (appends_intro _ _ _ _ 0). }
  rewrite (Hm eq_refl) in *. clear Hm.
  destruct (distributed_tx.discard_phase _ _ _) as [[[w3 d3] ok3]|] eqn:E3; [|done].
  simpl in E.
  destruct (discard_phase_appends leader st _ _ _ _ _ (Hok eq_refl) ltac:(by rewrite Hst) E3)
    as (cmds & -> & n & Hn & Hok3).
  rewrite Hid in Hn. rewrite <- (assoc_L (++)) in E.
  apply phase_result in E as [-> ->].
  assert (ok3 = true → length cmds = 2) as Hlen.
  { intros ->. apply (f_equal length) in Hn. rewrite !length_fmap in Hn.
    rewrite Hn, Hok3 by done. destruct st; simplify_eq/=; lia. }
  clear E2 E3. destruct st; simplify_eq/=; [| |lia].
  - apply (appends_intro _ _ _ _ (S n)); csimpl; [|intros Hf; rewrite Hlen; done].
    by rewrite decide_True, Hn.
  - apply (appends_intro _ _ _ _ n); csimpl; [done|intros Hf; rewrite Hlen; done].
Qed.

Lemma execute_appends leader log d log' d' res k :
  phase_step (distributed_tx.m_state d) = Some k →
  distributed_tx.execute (batch_set_cbs leader (distributed_tx.m_state d)) log d =
    Ret (log', d', res) →
  appends (distributed_tx.m_dtx_id d) k log log' (bool_decide (is_Some res)).
Proof.
  intros Hst E. unfold distributed_tx.execute, distributed_tx.prepare_phase in E.
  destruct (distributed_tx.m_state d) eqn:Ed; simplify_eq/=.
  - unfold distributed_tx.run_prepare in E. simpl in E.
    destruct (distributed_tx.lock_shards _ _ _ _) as [[sh fs]|]; [|done].
    simpl in E. destruct (distributed_tx.collect _ _) as [[c|]|]; [| |done];
      simpl in E.
    + case_decide; [done|]. simpl in E.
      by eapply (commit_on_appends _ _ _ _ _ _ _ 1) in E; [|done|done|lia].
    + simplify_eq. exists [], 0. by rewrite app_nil_r.
  - by eapply (commit_on_appends _ _ _ _ _ _ _ 2) in E; [|done|done|lia].
  - unfold distributed_tx.commit_phase in E. rewrite Ed in E. simpl in E.
    destruct (distributed_tx.discard_phase _ _ _) as [[[w3 d3] ok3]|] eqn:E3;
      [|done]. simpl in E.
    destruct (discard_phase_appends leader discard _ _ _ _ _ Ed ltac:(done) E3)
      as (cmds & -> & n & Hn & Hok3).
    apply phase_result in E as [-> ->].
    apply (appends_intro _ _ _ _ n); [done|]. intros ->.
    apply (f_equal length) in Hn. rewrite !length_fmap in Hn.
    rewrite Hn, Hok3 by done. done.
Qed.

(** Executing recovered batches moves each along its life, to the end if it
    succeeds, and touches no other batch. *)
Lemma execute_recovered_run leader (l : list (distributed_tx.t Sh)) :
  ∀ log shards log' shards' ok st,
  NoDup (distributed_tx.m_dtx_id <$> l) →
  Forall (λ d, ∃ k, phase_step (distributed_tx.m_state d) = Some k ∧
    at_step st (distributed_tx.m_dtx_id d) k) l →
  run empty log = Ret st →
  controller.execute_recovered leader log shards (Ret <$> l) =
    Ret (log', shards', ok) →
  ∃ st', run empty log' = Ret st' ∧
    (∀ id n, id ∉ distributed_tx.m_dtx_id <$> l → at_step st id n →
       at_step st' id n) ∧
    (ok = true → ∀ id, id ∈ distributed_tx.m_dtx_id <$> l → at_step st' id 4).
Proof.
  induction l as [|d l IH]; intros log shards log' shards' ok st Hnd Hph Hrun E.
  { simpl in E. simplify_eq. exists st. split_and!; [done|done|].
    intros _ id Hin. by apply elem_of_nil in Hin. }
  csimpl in Hnd. apply NoDup_cons in Hnd as [Hni Hnd].
  inversion_clear Hph as [|?? (k & Hk & Hst) Hph'].
  simpl in E.
  destruct (distributed_tx.execute _ _ _) as [[[log1 d1] res]|] eqn:E1; [|done].
  simpl in E.
  apply (execute_appends _ _ (distributed_tx.set_shards d shards) _ _ _ k) in E1
    as (cmds & n & -> & Hcmds & Hfull); [|done].
  destruct (run_steps cmds st (distributed_tx.m_dtx_id d) k n)
    as (st1 & Hrun1 & Hst1 & Hf1); [done|by destruct (distributed_tx.m_state d);
      simplify_eq/=; lia|done|].
  destruct (controller.execute_recovered _ _ _ _) as [[[log2 sh2] ok2]|] eqn:E2;
    [|done].
  simpl in E. simplify_eq.
  edestruct (IH (log ++ cmds)) as (st' & Hrun' & Hf' & Hok');
    [exact Hnd| |by rewrite run_app, Hrun|exact E2|].
  { apply Forall_forall. intros d' Hd'.
    destruct (proj1 (Forall_forall _ _) Hph' d' Hd') as (k' & ? & ?).
    exists k'. split; [done|]. apply Hf1; [|done]. intros He. apply Hni.
    rewrite <- He. by apply list_elem_of_fmap_2. }
  exists st'. split_and!; [done| |].
  - intros id m Hin Hm. csimpl in Hin. apply not_elem_of_cons in Hin as [??].
    by apply Hf', Hf1.
  - intros Hok id Hin. destruct res; [|done]. csimpl in Hin.
    apply elem_of_cons in Hin as [->|Hin]; [|by apply Hok'].
    apply Hf'; [done|]. by rewrite <- (Hfull eq_refl).
Qed.

(** Threads that each move their own batch along its life can be interleaved
    in any way. *)
Definition thread_todo (st : state) (id : hash_t) (cmds : list sm_command) (full : bool) : Prop :=
  ∃ k n, 1 ≤ k ∧ at_step st id k ∧
    kind_for id <$> cmds = Some <$> take n (drop k life_cycle) ∧
    (full = true → k + length cmds = 4).

Lemma thread_todo_other st st' id cmds full :
  (∀ n, at_step st id n → at_step st' id n) →
  thread_todo st id cmds full → thread_todo st' id cmds full.
Proof. intros Hf (k & n & ? & ? & ?). exists k, n. auto. Qed.

Lemma interleaved_run ls r : interleaving ls r → ∀ st (ids : list (hash_t * bool)),
  NoDup ids.*1 → Forall2 (λ p cmds, thread_todo st p.1 cmds p.2) ids ls →
  ∃ st', run st r = Ret st' ∧
    (∀ id n, id ∉ ids.*1 → at_step st id n → at_step st' id n) ∧
    (∀ id, (id, true) ∈ ids → at_step st' id 4).
Proof.
  induction 1 as [ls Hnil|ls1 c l ls2 r _ IH]; intros st ids Hnd Hall.
  { exists st. split; [done|]. split; [done|]. intros id (i & Hi)%list_elem_of_lookup.
    destruct (Forall2_lookup_l _ _ _ _ _ Hall Hi) as (cmds & Hc & k & n & _ & Hst & _ & Hf).
    rewrite (Forall_lookup_1 _ _ _ _ Hnil Hc) in Hf. cbn in *.
    replace 4 with k; [done|]. rewrite <- (Hf eq_refl). lia. }
  apply Forall2_app_inv_r in Hall as (ids1 & ids2' & H1 & H2 & ->).
  apply Forall2_cons_inv_r in H2 as ([id full] & ids2 & (k & n & Hk & Hst & Hc & Hf) & H2 & ->).
  cbn [fst snd] in *. destruct n as [|n]; [done|].
  destruct (life_cycle !! k) as [kd|] eqn:El.
  2:{ by rewrite drop_ge in Hc by (by apply lookup_ge_None). }
  rewrite (drop_S _ _ _ El) in Hc. csimpl in Hc. injection Hc as Ec Hc.
  destruct (step_ok _ _ _ _ _ Hst Hk Ec El) as (s1 & E1 & Hst1 & Hf1).
  rewrite fmap_app in Hnd. csimpl in Hnd. pose proof Hnd as Hnd'.
  apply NoDup_app in Hnd' as (_ & Hn1 & Hn2). apply NoDup_cons in Hn2 as [Hn2 _].
  assert (∀ (l : list (hash_t * bool)) ls, id ∉ l.*1 →
    Forall2 (λ p cmds, thread_todo st p.1 cmds p.2) l ls →
    Forall2 (λ p cmds, thread_todo s1 p.1 cmds p.2) l ls) as Hother.
  { clear -Hf1. intros l ls Hni F. induction F as [|[id' f'] cmds l ls Hp _ IH]; [constructor|].
    csimpl in Hni. apply not_elem_of_cons in Hni as [Hne Hni].
    constructor; [|by apply IH]. eapply thread_todo_other; [|exact Hp]. cbn. auto. }
  destruct (IH s1 (ids1 ++ (id, full) :: ids2)) as (st' & Hr & Hfr & Hok).
  { by rewrite fmap_app. }
  { apply Forall2_app; [apply Hother; [|done]; intros Hin; apply (Hn1 _ Hin); left|].
    constructor; [|by apply Hother]. exists (S k), n. cbn. split; [lia|]. split; [done|].
    split; [done|]. intros Hfull. specialize (Hf Hfull). cbn in Hf. lia. }
  exists st'. split; [cbn; rewrite E1; done|]. split; [|done].
  intros id' m Hni Hm. apply Hfr; [done|]. apply Hf1; [|done].
  intros ->. apply Hni. rewrite fmap_app. csimpl. apply elem_of_app. right. left.
Qed.

(** The coordinators of a recovery, when there are shards. *)
Definition fresh_dtx (shards : list Sh) (id : hash_t) : distributed_tx.t Sh :=
  distributed_tx.mk id shards (replicate (length shards) []) []
    (replicate (length shards) []) start [].

Definition recovered (st : state) (shards : list Sh)
    : list (distributed_tx.t Sh) :=
  ((λ p, distributed_tx.recover_prepare (fresh_dtx shards p.1) p.2) <$>
     map_to_list (m_prepare_txs st)) ++
  ((λ p, distributed_tx.recover_commit (fresh_dtx shards p.1) p.2.1 p.2.2) <$>
     map_to_list (m_commit_txs st)) ++
  ((λ id, distributed_tx.recover_discard (fresh_dtx shards id)) <$>
     elements (m_discard_txs st)).

Lemma recover_dtxs_eq st shards :
  shards ≠ [] → controller.recover_dtxs st shards = Ret <$> recovered st shards.
Proof.
  intros Hs. destruct shards as [|sh shards]; [done|].
  unfold controller.recover_dtxs, recovered.
  rewrite !fmap_app, <- !list_fmap_compose. f_equal; [|f_equal].
  - apply list_fmap_ext. by intros ? [??] ?.
  - apply list_fmap_ext. by intros ? [?[??]] ?.
Qed.

Lemma add_txs_id_state (txs : list compact_tx.t) d :
  distributed_tx.m_dtx_id (distributed_tx.add_txs d txs) =
    distributed_tx.m_dtx_id d ∧
  distributed_tx.m_state (distributed_tx.add_txs d txs) = distributed_tx.m_state d.
Proof.
  unfold distributed_tx.add_txs. revert d.
  induction txs as [|tx txs IH]; intros d; simpl; [done|].
  destruct (IH (distributed_tx.add_tx d tx).1) as [-> ->].
  unfold distributed_tx.add_tx. by destruct (distributed_tx.add_to_shards _ _ _ _ _).
Qed.

Lemma recovered_ids st shards :
  distributed_tx.m_dtx_id <$> recovered st shards =
    (map_to_list (m_prepare_txs st)).*1 ++ (map_to_list (m_commit_txs st)).*1 ++
    elements (m_discard_txs st).
Proof.
  unfold recovered. rewrite !fmap_app, <- !list_fmap_compose.
  f_equal; [|f_equal].
  - apply list_fmap_ext. intros ? p ?. simpl.
    exact (proj1 (add_txs_id_state p.2
      (distributed_tx.set_state (fresh_dtx shards p.1) prepare))).
  - etrans; [|apply list_fmap_id]. by apply list_fmap_ext.
Qed.

Lemma elem_of_recovered_ids st shards id :
  id ∈ distributed_tx.m_dtx_id <$> recovered st shards ↔
    is_Some (m_prepare_txs st !! id) ∨ is_Some (m_commit_txs st !! id) ∨
    id ∈ m_discard_txs st.
Proof.
  rewrite recovered_ids, !elem_of_app, elem_of_elements.
  assert (∀ {A} (m : gmap hash_t A), id ∈ (map_to_list m).*1 ↔ is_Some (m !! id))
    as Hm.
  { intros A m. rewrite list_elem_of_fmap. split.
    - intros ([i x] & -> & Hx%elem_of_map_to_list). by exists x.
    - intros [x Hx]. exists (id, x). by rewrite elem_of_map_to_list. }
  by rewrite !Hm.
Qed.

Lemma recovered_NoDup st shards :
  (∀ id, ∃ n, at_step st id n) →
  NoDup (distributed_tx.m_dtx_id <$> recovered st shards).
Proof.
  intros Hat. rewrite recovered_ids.
  assert (∀ {A} (m : gmap hash_t A) id, id ∈ (map_to_list m).*1 → is_Some (m !! id))
    as Hm.
  { intros A m id. rewrite list_elem_of_fmap.
    intros ([i x] & -> & Hx%elem_of_map_to_list). by exists x. }
  apply NoDup_app. split_and!; [apply NoDup_fst_map_to_list| |].
  { intros id Hp%Hm [Hc%Hm|Hd%elem_of_elements]%elem_of_app;
      destruct (Hat id) as (n & Hsp & Hsc & Hsd); naive_solver lia. }
  apply NoDup_app. split_and!; [apply NoDup_fst_map_to_list| |apply NoDup_elements].
  intros id Hc%Hm Hd%elem_of_elements.
  destruct (Hat id) as (n & Hsp & Hsc & Hsd); naive_solver lia.
Qed.

Lemma recovered_phases st shards :
  (∀ id, ∃ n, at_step st id n) →
  Forall (λ d, ∃ k, phase_step (distributed_tx.m_state d) = Some k ∧
    at_step st (distributed_tx.m_dtx_id d) k) (recovered st shards).
Proof.
  intros Hat. unfold recovered. rewrite !Forall_app, !Forall_fmap.
  split_and!; apply Forall_forall.
  - intros [id txs] Hp%elem_of_map_to_list. cbn [compose fst snd].
    unfold distributed_tx.recover_prepare.
    destruct (add_txs_id_state txs
      (distributed_tx.set_state (fresh_dtx shards id) prepare)) as [E1 E2].
    exists 1. cbn [compose]. rewrite E1, E2. split; [done|]. simpl.
    destruct (Hat id) as (n & Hst). assert (n = 1) as <-; [|done].
    apply Hst. eauto.
  - intros [id [c ix]] Hp%elem_of_map_to_list. exists 2. split; [done|]. simpl.
    destruct (Hat id) as (n & Hst). assert (n = 2) as <-; [|done].
    apply Hst. eauto.
  - intros id Hp%elem_of_elements. exists 3. split; [done|]. simpl.
    destruct (Hat id) as (n & Hst). assert (n = 3) as <-; [|done].
    by apply Hst.
Qed.

End Recover.

(** Batches that are not under way are recorded nowhere. *)
Lemma nowhere_is_empty st :
  (∀ id, ∃ n, at_step st id n ∧ (n = 0 ∨ n = 4)) → st = empty.
Proof.
  intros Hat. destruct st as [P C D]. unfold empty. f_equal.
  - apply map_empty. intros id. destruct (Hat id) as (n & (Hp & _) & Hn).
    apply eq_None_not_Some. intros Hs%Hp. lia.
  - apply map_empty. intros id. destruct (Hat id) as (n & (_ & Hp & _) & Hn).
    apply eq_None_not_Some. intros Hs%Hp. lia.
  - apply set_eq. intros id. destruct (Hat id) as (n & (_ & _ & Hp) & Hn).
    simpl in Hp. rewrite Hp. split; [lia|]. by intros ?%elem_of_empty.
Qed.

End coordinator_lemmas.

(** ** Theorems *)

Section CoordinatorTheorems.
Import coordinator_sm coordinator_lemmas.

(** C24: in every replicated log the state machine accepts, with batch ids
    prepared at most once, the commands of a batch are a prefix of prepare,
    commit, discard, done, and the batch is recorded in exactly the map of
    its phase: in the prepare map after the first step, the commit map after
    the second, the discard set after the third, nowhere before and after. *)
Theorem coordinator_life_cycle log s id :
  run empty log = Ret s → NoDup (prepared_ids log) →
  ∃ n, kinds id log = take n life_cycle ∧ n ≤ 4 ∧
    (is_Some (m_prepare_txs s !! id) ↔ n = 1) ∧
    (is_Some (m_commit_txs s !! id) ↔ n = 2) ∧
    (id ∈ m_discard_txs s ↔ n = 3).
Proof.
  intros Hrun Hnd. destruct (log_position log s id Hrun Hnd) as (n & ? & ? & ?).
  exists n. done.
Qed.

(** Executing a new batch writes its log ahead: whatever the shards and
    the replication do, the commands appended are a prefix of prepare,
    commit, discard, done for this batch; a node that does not lead appends nothing; and
    when the execution returns verdicts the log is complete, records those
    verdicts, and leaves the state machine as it was. *)
Theorem execute_write_ahead {Sh} `{ShardInterface Sh} leader log
    (d d' : distributed_tx.t Sh) log' res :
  distributed_tx.m_state d = start →
  distributed_tx.execute (batch_set_cbs leader start) log d =
    Ret (log', d', res) →
  ∃ complete n, log' = log ++ take n (batch_log d complete) ∧
    (leader log = refused → n = 0 ∧ res = None) ∧
    (∀ c, res = Some c → n = 4 ∧ c = complete) ∧
    (n = 4 → ∀ st, at_step st (distributed_tx.m_dtx_id d) 0 →
       run st (batch_log d complete) = Ret st).
Proof.
  intros Hst E. unfold distributed_tx.execute, distributed_tx.prepare_phase in E.
  rewrite decide_True in E by (by right).
  unfold distributed_tx.run_prepare in E. simpl in E.
  unfold prepare_cb, replicate_sm_command in E.
  destruct (leader log); simpl in E.
  2:{ simplify_eq. exists [], 0. rewrite app_nil_r.
      split_and!; [done|done|done|done]. }
  2:{ simplify_eq. exists [], 1. split_and!; done. }
  destruct (distributed_tx.lock_shards _ _ _ _) as [[sh1 fs]|]; [|done].
  simpl in E. destruct (distributed_tx.collect _ _) as [[c|]|]; [| |done];
    simpl in E.
  2:{ simplify_eq. exists [], 1. split_and!; done. }
  case_decide as Hlen; [done|]. simpl in E.
  unfold distributed_tx.commit_phase in E. simpl in E.
  unfold distributed_tx.run_commit in E. simpl in E.
  unfold commit_cb, replicate_sm_command in E.
  destruct (leader (log ++ _)); simpl in E.
  2:{ simplify_eq. exists c, 1. split_and!; done. }
  2:{ simplify_eq. exists c, 2. rewrite <- (assoc_L (++)). split_and!; done. }
  destruct (distributed_tx.apply_shards _ _ _ _) as [[sh2 ok2]|]; [|done].
  simpl in E. destruct ok2; simpl in E.
  2:{ simplify_eq. exists c, 2. rewrite <- (assoc_L (++)).
      split_and!; done. }
  unfold distributed_tx.discard_phase in E. simpl in E.
  unfold distributed_tx.run_discard in E. simpl in E.
  unfold discard_cb, done_cb, replicate_sm_command in E.
  destruct (leader ((log ++ _) ++ _)); simpl in E.
  2:{ simplify_eq. exists c, 2. rewrite <- !(assoc_L (++)). split_and!; done. }
  2:{ simplify_eq. exists c, 3. rewrite <- !(assoc_L (++)). split_and!; done. }
  destruct (distributed_tx.discard_shards _ _ _) as [[sh3 ok3]|]; [|done].
  simpl in E. destruct ok3; simpl in E.
  2:{ simplify_eq. exists c, 3. rewrite <- !(assoc_L (++)). split_and!; done. }
  assert (∀ st, at_step st (distributed_tx.m_dtx_id d) 0 →
    run st (batch_log d c) = Ret st) as Hrun by (intros st; apply run_batch_log).
  destruct (leader (((log ++ _) ++ _) ++ _)); simplify_eq/=; rewrite <- !(assoc_L (++)).
  - exists c, 4. split_and!; [done|done|by intros ? [= ->]|done].
  - exists c, 3. split_and!; done.
  - exists c, 4. split_and!; done.
Qed.

(** A log in which all recovered batches have come to their end leaves
    nothing behind. *)
Lemma recovered_all_done {Sh} `{ShardInterface Sh} log (shards : list Sh) st st' :
  run empty log = Ret st → NoDup (prepared_ids log) →
  (∀ id n, id ∉ distributed_tx.m_dtx_id <$> recovered st shards →
     at_step st id n → at_step st' id n) →
  (∀ id, id ∈ distributed_tx.m_dtx_id <$> recovered st shards → at_step st' id 4) →
  st' = empty.
Proof.
  intros Hrun Hnd Hf Hok. apply nowhere_is_empty. intros id.
  destruct (decide (id ∈ distributed_tx.m_dtx_id <$> recovered st shards)) as [Hin|Hin].
  { exists 4. split; [by apply Hok|by right]. }
  destruct (log_position log st id Hrun Hnd) as (n & Hn & _ & Hst).
  exists n. split; [by apply Hf|].
  rewrite elem_of_recovered_ids in Hin. destruct Hst as (Hp & Hc & Hd).
  destruct n as [|[|[|[|[|]]]]]; [by left|..|by right|lia]; naive_solver.
Qed.

(** What the thread of a recovered batch replicates. *)
Lemma thread_ran_todo {Sh} `{ShardInterface Sh} st (th : controller.recovery_thread Sh) k :
  phase_step (distributed_tx.m_state (controller.th_dtx th)) = Some k →
  at_step st (distributed_tx.m_dtx_id (controller.th_dtx th)) k → controller.thread_ran th →
  thread_todo st (distributed_tx.m_dtx_id (controller.th_dtx th)) (controller.th_cmds th)
    (bool_decide (is_Some (controller.th_res th))).
Proof.
  intros Hk Hst (d' & E). apply (execute_appends _ _ (distributed_tx.set_shards _ _) _ _ _ k) in E
    as (cmds & n & Hc & Hkinds & Hfull); [|done]. rewrite (left_id_L [] (++)) in Hc.
  rewrite Hc. exists k, n.
  split; [by destruct (distributed_tx.m_state (controller.th_dtx th)); simplify_eq/=; lia|done].
Qed.

(** C12: recovery drains the log.  Let a log be accepted by the state machine
    and prepare no batch id twice (ids are random), and let Raft do as it
    likes, losing leadership at any command included.  A node that recovers
    from the log replicates only commands the state machine accepts, so it
    never trips one of its fatal checks, and when the recovery reports success
    no batch is left in any phase; a node that does not lead changes neither
    log nor shards.  The same holds of the threads that execute the recovered
    batches in parallel, each with its own view of the shards and of Raft:
    whatever the order in which their commands reach the log, it is accepted,
    and if all of them succeed no batch is left. *)
Theorem recovery_drains_log {Sh} `{ShardInterface Sh} log (shards : list Sh) st :
  run empty log = Ret st → NoDup (prepared_ids log) → shards ≠ [] →
  (∀ leader log' shards' ok,
     controller.recovery_func leader log shards = Ret (log', shards', ok) →
     (leader log = refused → log' = log ∧ shards' = shards ∧ ok = false) ∧
     ∃ st', run empty log' = Ret st' ∧ (ok = true → st' = empty)) ∧
  (∀ threads cmds,
     controller.recover_dtxs st shards = Ret <$> (controller.th_dtx <$> threads) →
     Forall controller.thread_ran threads →
     interleaving (controller.th_cmds <$> threads) cmds →
     ∃ st', run empty (log ++ sm_get :: cmds) = Ret st' ∧
       (Forall (λ th, is_Some (controller.th_res th)) threads → st' = empty)).
Proof.
  intros Hrun Hnd Hs.
  assert (∀ id, ∃ n, at_step st id n) as Hat.
  { intros id. destruct (log_position log st id Hrun Hnd) as (n & _ & _ & ?). eauto. }
  split.
  - intros leader log' shards' ok E. unfold controller.recovery_func, replicate_sm_command in E.
    destruct (leader log); simpl in E.
    2:{ simplify_eq. split; [done|]. by exists st. }
    2:{ simplify_eq. split; [done|]. exists st. by rewrite run_snoc, Hrun. }
    split; [done|]. rewrite run_snoc, Hrun in E. simpl in E.
    rewrite recover_dtxs_eq in E by done.
    edestruct (execute_recovered_run leader (recovered st shards)) as (st' & Hrun' & Hf & Hok);
      [by apply recovered_NoDup|by apply recovered_phases| |exact E|].
    { by rewrite run_snoc, Hrun. }
    exists st'. split; [done|]. intros ->. apply (recovered_all_done log shards st); auto.
  - intros threads cmds Er Hran Hil. rewrite recover_dtxs_eq in Er by done.
    apply (list_fmap_eq_inj Ret) in Er; [|by intros ?? [= ->]].
    set (ids := (λ th, (distributed_tx.m_dtx_id (controller.th_dtx th),
      bool_decide (is_Some (controller.th_res th)))) <$> threads).
    assert (ids.*1 = distributed_tx.m_dtx_id <$> recovered st shards) as Hids.
    { rewrite Er. unfold ids. by rewrite <- !list_fmap_compose. }
    destruct (interleaved_run _ _ Hil st ids) as (st' & Hrun' & Hf & Hok).
    { rewrite Hids. by apply recovered_NoDup. }
    { pose proof (recovered_phases st shards Hat) as Hph. rewrite Er in Hph.
      unfold ids. rewrite Forall_fmap in Hph. clear -Hph Hran.
      induction threads as [|th threads IH]; [constructor|].
      inversion_clear Hph as [|?? (k & Hk & Hst) Hph']. inversion_clear Hran.
      csimpl. constructor; [by eapply thread_ran_todo|by apply IH]. }
    exists st'. split.
    { rewrite run_app, Hrun. cbn. done. }
    intros Hall. eapply recovered_all_done; [done|done| |]; rewrite <- Hids; [exact Hf|].
    intros id (p & -> & Hp)%list_elem_of_fmap. apply Hok. unfold ids in *.
    apply list_elem_of_fmap in Hp as (th & -> & Hth). apply list_elem_of_fmap.
    exists th. split; [|done]. cbn. f_equal. symmetry. apply bool_decide_eq_true.
    by apply (proj1 (Forall_forall _ _) Hall).
Qed.

End CoordinatorTheorems.

Section ControllerTheorems.
Context {Sh : Type} `{ShardInterface Sh} `{Hasher} `{Secp256k1}.
Import controller dtx_lemmas.

(** The map of callbacks and the batch agree. *)
Record controller_inv (c : controller.t Sh) : Prop := {
  ci_batch : batch_ok (m_current_batch c);
  ci_index id cb idx :
    m_current_txs c !! id = Some (cb, idx) →
    ∃ tx, distributed_tx.m_full_txs (m_current_batch c) !! idx = Some tx ∧
          compact_tx.m_id tx = id;
  ci_all tx :
    tx ∈ distributed_tx.m_full_txs (m_current_batch c) →
    is_Some (m_current_txs c !! compact_tx.m_id tx);
  ci_size :
    size (m_current_txs c) =
    length (distributed_tx.m_full_txs (m_current_batch c));
  ci_bound : size (m_current_txs c) ≤ m_batch_size c;
  ci_attested :
    Forall (λ tx, check_attestations tx (m_sentinel_public_keys c)
                    (m_attestation_threshold c) = true)
      (distributed_tx.m_full_txs (m_current_batch c))
}.

Lemma execute_transaction_inv c tx cb c' r :
  controller_inv c → execute_transaction c tx cb = (c', r) → controller_inv c'.
Proof.
  intros Hinv E. unfold execute_transaction in E.
  destruct (m_is_leader c); [|by simplify_eq/=]. simpl in E.
  destruct (check_attestations _ _ _) eqn:Hatt; [|by simplify_eq/=]. simpl in E.
  case_bool_decide as Hsz; simpl in E.
  2:{ destruct (m_running c); by simplify_eq/=. }
  destruct (m_running c); [|by simplify_eq/=]. simpl in E.
  destruct (m_current_txs c !! compact_tx.m_id tx) eqn:Hl; [by simplify_eq/=|].
  destruct Hinv as [Hb Hi Ha Hs Hbd Hat].
  destruct (add_tx_ok (m_current_batch c) tx Hb) as (Hb' & Hf & _).
  destruct (distributed_tx.add_tx (m_current_batch c) tx) as [batch idx] eqn:Eadd.
  assert (idx = length (distributed_tx.m_full_txs (m_current_batch c))) as ->.
  { unfold distributed_tx.add_tx in Eadd.
    destruct (distributed_tx.add_to_shards _ _ _ _ _). by simplify_eq. }
  simplify_eq/=. constructor; cbn [m_current_batch m_current_txs m_batch_size
    m_sentinel_public_keys m_attestation_threshold]; [done|..]; rewrite ?Hf.
  - intros id cb' idx [[<- [= <- <-]]|[Hne Hl']]%lookup_insert_Some.
    + exists tx. split; [|done]. by apply list_lookup_middle.
    + destruct (Hi _ _ _ Hl') as (tx' & Hx & <-). exists tx'. split; [|done].
      rewrite lookup_app_l; [done|]. by eapply lookup_lt_Some.
  - intros tx' [Hin|Hin]%elem_of_app.
    + apply lookup_insert_is_Some'. right. by apply Ha.
    + apply list_elem_of_singleton in Hin as ->. rewrite lookup_insert_eq. eauto.
  - rewrite map_size_insert_None by done. rewrite length_app. simpl. lia.
  - rewrite map_size_insert_None by done. lia.
  - apply Forall_app. split; [done|]. by constructor.
Qed.

(** A series of requests. *)
Definition execute_transactions (c : controller.t Sh)
    (reqs : list (compact_tx.t * nat)) : controller.t Sh :=
  foldl (λ c req, (execute_transaction c req.1 req.2).1) c reqs.

Lemma execute_transactions_inv c reqs :
  controller_inv c → controller_inv (execute_transactions c reqs).
Proof.
  unfold execute_transactions. revert c. induction reqs as [|req reqs IH];
    intros c Hc; [done|]. simpl. apply IH.
  destruct (execute_transaction c req.1 req.2) eqn:E.
  by eapply execute_transaction_inv.
Qed.

(** However requests interleave, the current batch holds only attested
    transactions with distinct ids, never more than the batch size, and when
    it is executed every requester is answered with the verdict of its own
    transaction, without an index out of range. *)
Theorem responses_match_requests c reqs flags :
  controller_inv c →
  let c' := execute_transactions c reqs in
  length flags = length (distributed_tx.m_full_txs (m_current_batch c')) →
  ∃ r, responses (m_current_txs c') (Some flags) = Ret r ∧
    (∀ tx i, distributed_tx.m_full_txs (m_current_batch c') !! i = Some tx →
       check_attestations tx (m_sentinel_public_keys c')
         (m_attestation_threshold c') = true ∧
       is_Some (r !! compact_tx.m_id tx)) ∧
    (∀ id cb b, r !! id = Some (cb, b) →
       ∃ tx i, distributed_tx.m_full_txs (m_current_batch c') !! i = Some tx ∧
         compact_tx.m_id tx = id ∧ is_Some b ∧ b = flags !! i ∧
         m_current_txs c' !! id = Some (cb, i)) ∧
    size r ≤ m_batch_size c'.
Proof.
  intros Hc c' Hlen. pose proof (execute_transactions_inv c reqs Hc) as Hinv.
  fold c' in Hinv. destruct Hinv as [Hb Hi Ha Hs Hbd Hat].
  unfold responses. rewrite decide_True.
  2:{ intros id [cb idx] Hl. simpl. destruct (Hi _ _ _ Hl) as (tx & Hx & _).
      rewrite Hlen. by eapply lookup_lt_Some. }
  eexists. split; [done|]. split_and!.
  - intros tx i Hl. split; [by apply (Forall_lookup_1 _ _ _ _ Hat Hl)|].
    rewrite lookup_fmap. apply fmap_is_Some, Ha. by eapply list_elem_of_lookup_2.
  - intros id cb b Hl. rewrite lookup_fmap in Hl.
    apply fmap_Some in Hl as ([cb' idx] & Hl & [= -> ->]).
    destruct (Hi _ _ _ Hl) as (tx & Hx & <-). exists tx, idx.
    split_and!; [done|done| |done|done].
    apply lookup_lt_is_Some_2. rewrite Hlen. by eapply lookup_lt_Some.
  - by rewrite map_size_fmap.
Qed.

(** A controller that has just swapped in an empty batch. *)
Lemma swap_batch_inv c rnd shards c' old :
  swap_batch c rnd shards = Ret (c', Some old) → controller_inv c'.
Proof.
  unfold swap_batch. destruct (_ || _); [done|].
  destruct (distributed_tx.create rnd shards) as [d|] eqn:E; [|done].
  intros [= <- <-]. destruct (create_ok _ _ _ E) as (Hb & Hf & _).
  constructor; cbn; rewrite ?Hf; [done|..].
  - intros id cb idx Hl. by rewrite lookup_empty in Hl.
  - by intros tx ?%elem_of_nil.
  - by rewrite map_size_empty.
  - rewrite map_size_empty. lia.
  - constructor.
Qed.

End ControllerTheorems.

(** The start/stop thread never sees both flags: in every state reached
    by leadership changes, rounds of the thread and a quit request, its
    assertion holds. *)
Theorem start_stop_never_asserts s :
  start_stop.reachable s → start_stop.start_stop_round s ≠ Some Fatal.
Proof.
  intros Hr%start_stop.reachable_exclusive. unfold start_stop.start_stop_round.
  destruct s as [[] [] []]; done.
Qed.

(** Preparing an id that is still in its commit phase is not rejected:
    the batch is then recorded in two phases at once. *)
Theorem reprepare_in_commit_accepted :
  (let! s := coordinator_sm.run coordinator_sm.empty
     [sm_prepare [x01] []; sm_commit [x01] [] []; sm_prepare [x01] []] in
   Ret (bool_decide (is_Some (coordinator_sm.m_prepare_txs s !! [x01])),
        bool_decide (is_Some (coordinator_sm.m_commit_txs s !! [x01])))) =
  Ret (true, true).
Proof. vm_compute. reflexivity. Qed.

Section CoordinatorWitnesses.
Import Toy coordinator_sm coordinator_lemmas dtx_example shard_example.

Definition sample_log : list sm_command :=
  [sm_prepare [x01] []; sm_prepare [x02] []; sm_commit [x01] [] [];
   sm_discard [x01]; sm_get].

Lemma coordinator_life_cycle_witness :
  ∃ s n, run empty sample_log = Ret s ∧
    kinds [x01] sample_log = take n life_cycle ∧ n ≤ 4 ∧
    (is_Some (m_prepare_txs s !! [x01]) ↔ n = 1) ∧
    (is_Some (m_commit_txs s !! [x01]) ↔ n = 2) ∧
    ([x01] ∈ m_discard_txs s ↔ n = 3).
Proof.
  assert (match run empty sample_log with Ret _ => true | Fatal => false end
    = true) as Hok by (vm_compute; reflexivity).
  destruct (run empty sample_log) as [s|] eqn:E; [clear Hok|discriminate].
  destruct (coordinator_life_cycle sample_log s [x01] E) as [n Hn];
    [compute_decide|].
  exists s, n. split; [reflexivity|]. exact Hn.
Defined.

(** The two-shard batch executed by a leader. *)
Definition example_dtx : distributed_tx.t locking_shard.t :=
  distributed_tx.add_txs
    (distributed_tx.mk dtx [shardA; shardB] [[]; []] [] [[]; []] start []) batch.

Lemma execute_write_ahead_witness :
  ∃ log' d' complete n,
    distributed_tx.execute (batch_set_cbs leading start) [] example_dtx =
      Ret (log', d', Some complete) ∧
    log' = [] ++ take n (batch_log example_dtx complete) ∧ n = 4.
Proof.
  assert (match distributed_tx.execute (batch_set_cbs leading start) [] example_dtx
    with Ret (_, _, Some _) => true | _ => false end = true) as Hok
    by (vm_compute; reflexivity).
  destruct (distributed_tx.execute (batch_set_cbs leading start) [] example_dtx)
    as [[[log' d'] res]|] eqn:E; [|discriminate].
  destruct (execute_write_ahead leading [] example_dtx d' log' res eq_refl E)
    as (c & n & Hlog & _ & Hres & _).
  destruct res as [flags|]; [clear Hok|discriminate].
  destruct (Hres flags eq_refl) as [Hn Hc]. subst flags.
  exists log', d', c, n. split; [reflexivity|]. split; [exact Hlog|exact Hn].
Defined.

(** A leader failed with the two-shard batch in its prepare phase, before any
    shard was asked. *)
Lemma recovery_drains_log_witness :
  ∃ log' shards',
    controller.recovery_func leading [sm_prepare dtx batch] [shardA; shardB] =
      Ret (log', shards', true) ∧ run empty log' = Ret empty.
Proof.
  assert (match controller.recovery_func leading [sm_prepare dtx batch]
    [shardA; shardB] with Ret (_, _, ok) => ok | _ => false end = true) as Hok
    by (vm_compute; reflexivity).
  destruct (controller.recovery_func leading [sm_prepare dtx batch] [shardA; shardB])
    as [[[log' shards'] ok]|] eqn:E; [|discriminate].
  assert (ok = true) as Hok' by exact Hok. subst ok.
  destruct (proj1 (recovery_drains_log [sm_prepare dtx batch] [shardA; shardB]
    (mk_state {[ dtx := batch ]} ∅ ∅) eq_refl ltac:(compute_decide)
    ltac:(discriminate)) leading log' shards' true E) as (_ & st' & Hrun & He).
  rewrite (He eq_refl) in Hrun. exists log', shards'. split; [reflexivity|exact Hrun].
Defined.

Definition empty_controller : controller.t locking_shard.t :=
  controller.mk true true 2
    (distributed_tx.mk dtx [shardA; shardB] [[]; []] [] [[]; []] start [])
    ∅ ∅ 0.

Lemma empty_controller_inv : controller_inv empty_controller.
Proof.
  apply (swap_batch_inv
    (controller.mk true true 2
       (distributed_tx.mk dtx [shardA; shardB] [[]; []] [] [[]; []] start [])
       {[ [x01] := (0, 0) ]} ∅ 0) dtx [shardA; shardB] empty_controller
    (distributed_tx.mk dtx [shardA; shardB] [[]; []] [] [[]; []] start [],
     {[ [x01] := (0, 0) ]})).
  reflexivity.
Qed.

Lemma responses_match_requests_witness :
  ∃ r, controller.responses
      (controller.m_current_txs (execute_transactions empty_controller
         [(tx_x, 7); (tx_y, 8)])) (Some [true; false]) = Ret r ∧
    size r ≤ 2.
Proof.
  destruct (responses_match_requests empty_controller [(tx_x, 7); (tx_y, 8)]
    [true; false] empty_controller_inv) as (r & E & _ & _ & Hs); [reflexivity|].
  exists r. split; [exact E|exact Hs].
Defined.

Lemma start_stop_never_asserts_witness :
  start_stop.start_stop_round
    (start_stop.raft_callback start_stop.init start_stop.BecomeLeader)
  ≠ Some Fatal.
Proof.
  apply start_stop_never_asserts. apply start_stop.reach_raft.
  apply start_stop.reach_init.
Defined.

End CoordinatorWitnesses.
