(* ===== verification/Failover.v ===== *)
(** * Executions that are cut short and their recovery

    A coordinator that executes a batch ([distributed_tx.cpp] with the
    callbacks of [coordinator/controller.cpp]) can lose its leadership at any
    command it replicates, and can stop between the calls it makes to the
    shards.  This file follows such a batch: [under_way] says how the
    replicated log and the shards correspond at every moment, the execution
    preserves it whatever Raft does, and [recovery_func] of any later leader
    brings the batch to the end an undisturbed execution would have reached. *)

From Stdlib Require Import ZArith Lia.
From Stdlib.Strings Require Import Byte.
From stdpp Require Import base tactics numbers gmap sets list.
From S2P Require Import Prelude Serialization Crypto Transaction Validation.
From S2P Require Import CacheSet UhsSpec LockingShard DistributedTx Coordinator.
Open Scope cbdc_scope.

Module failover.
Import distributed_tx dtx_lemmas shard_lemmas coordinator_lemmas.

(** The flags the log records for a batch. *)
Definition recorded (id : hash_t) (log : list sm_command) : option (list bool) :=
  last (omap (λ c, match c with
                   | sm_commit i complete _ => if decide (i = id) then Some complete else None
                   | _ => None
                   end) log).

Lemma recorded_snoc id log c :
  recorded id (log ++ [c]) =
    match c with
    | sm_commit i complete _ => if decide (i = id) then Some complete else recorded id log
    | _ => recorded id log
    end.
Proof.
  unfold recorded. rewrite omap_app. destruct c; csimpl; rewrite ?app_nil_r; try done.
  case_decide; [by rewrite last_snoc|by rewrite app_nil_r].
Qed.

Lemma Forall2_insert_r {A B} (R : A → B → Prop) l k i x y :
  Forall2 R l k → l !! i = Some x → R x y → Forall2 R l (<[ i := y ]> k).
Proof. intros F Hx Hr. rewrite <- (list_insert_id l i x) by done. by apply Forall2_insert. Qed.

(** A batch id that no command has used. *)
Lemma recorded_new id log : kinds id log = [] → recorded id log = None.
Proof.
  intros Hk. unfold recorded. replace (omap _ log) with (@nil (list bool)); [done|].
  symmetry. induction log as [|c log IH]; [done|]. unfold kinds in Hk. csimpl in Hk.
  destruct (kind_for id c) eqn:Ek; [done|]. csimpl. rewrite (IH Hk).
  destruct c; try done. cbn in Ek. by case_decide.
Qed.

Section Batch.
Context {Sh : Type} `{ShardLaws Sh}.
Variables (id : hash_t) (full : list compact_tx.t) (shards0 : list Sh).
Hypothesis Hready : Forall (ready full id) shards0.
Hypothesis Hfresh :
  fresh_history everything (⋃ (shard_unspent <$> shards0))
    (committed full (verdict shards0 <$> full)).

Abbreviation flags := (verdict shards0 <$> full).
Abbreviation idxs := ((λ sh, (sel sh full).*1) <$> shards0).

(** The batch has [k] commands in the log. *)
Definition phase_state (k : nat) : coordinator_sm.state :=
  match k with
  | 1 => coordinator_sm.mk_state {[ id := full ]} ∅ ∅
  | 2 => coordinator_sm.mk_state ∅ {[ id := (flags, idxs) ]} ∅
  | 3 => coordinator_sm.mk_state ∅ ∅ {[ id ]}
  | _ => coordinator_sm.empty
  end.

Definition next_command (k : nat) : sm_command :=
  match k with
  | 0 => sm_prepare id full
  | 1 => sm_commit id flags idxs
  | 2 => sm_discard id
  | _ => sm_done id
  end.

Record logged (k : nat) (log : list sm_command) : Prop := {
  lg_bound : k ≤ 4;
  lg_run : coordinator_sm.run coordinator_sm.empty log = Ret (phase_state k);
  lg_recorded : recorded id log = if decide (k < 2) then None else Some flags
}.

(** What the shards may look like then: any of them has been asked. *)
Definition phase_shards (k : nat) (shards : list Sh) : Prop :=
  match k with
  | 0 => shards = shards0
  | 1 => Forall2 (λ sh0 sh, sh = sh0 ∨ after_lock full id sh0 sh) shards0 shards
  | 2 => Forall2 (λ sh0 sh, after_lock full id sh0 sh ∨ after_apply full id shards0 sh0 sh)
           shards0 shards
  | _ => Forall2 (settled full shards0) shards0 shards
  end.

Definition under_way (log : list sm_command) (shards : list Sh) : Prop :=
  ∃ k, logged k log ∧ phase_shards k shards.

Lemma logged_next k log : k < 4 → logged k log → logged (S k) (log ++ [next_command k]).
Proof.
  intros Hk [_ Hrun Hrec]. constructor; [lia| |].
  - rewrite run_snoc, Hrun. cbn [obind].
    destruct k as [|[|[|[|]]]]; [..|lia]; cbn.
    + by rewrite lookup_empty, insert_empty.
    + by rewrite lookup_singleton_eq, delete_singleton_eq, lookup_empty, insert_empty.
    + by rewrite lookup_singleton_eq, delete_singleton_eq, (right_id_L ∅ (∪)).
    + rewrite decide_True by set_solver. cbn. by rewrite difference_diag_L.
  - rewrite recorded_snoc, Hrec. destruct k as [|[|[|[|]]]]; [..|lia]; try done.
    cbn. by rewrite decide_True.
Qed.

Lemma logged_get k log : logged k log → logged k (log ++ [sm_get]).
Proof.
  intros [Hk Hrun Hrec]. constructor; [done|by rewrite run_snoc, Hrun|by rewrite recorded_snoc].
Qed.

(** Replicating the next command of the batch. *)
Lemma replicate_next leader k log :
  k < 4 → logged k log →
  ∃ log' ok, replicate_sm_command leader log (next_command k) = (log', ok) ∧
    (if ok : bool then logged (S k) log' else logged k log' ∨ logged (S k) log') ∧
    ((∀ l, leader l = replicated) → ok = true).
Proof.
  intros Hk Hl. pose proof (logged_next k log Hk Hl). unfold replicate_sm_command.
  destruct (leader log) eqn:E; do 2 eexists; (split; [reflexivity|]); (split; [by auto|]);
    intros Hlead; rewrite Hlead in E; congruence.
Qed.

Lemma after_apply_settled sh0 sh :
  sh0 ∈ shards0 → after_apply full id shards0 sh0 sh → settled full shards0 sh0 sh.
Proof.
  intros Hin [[Es ->]|(_ & ? & _)]; [|done]. apply idle_settled; [|done].
  by eapply (ready_in full id shards0).
Qed.

Lemma all_settled shards :
  Forall2 (after_apply full id shards0) shards0 shards →
  Forall2 (settled full shards0) shards0 shards.
Proof.
  intros F. eapply Forall2_impl; [by apply Forall2_in_l|].
  intros sh0 sh [? ?]. by apply after_apply_settled.
Qed.

(** ** The phases of an execution, whatever Raft does *)

Lemma prepare_any leader log d :
  m_state d = start ∧ logged 0 log ∧ m_shards d = shards0 ∨
  m_state d = prepare ∧ logged 1 log ∧ phase_shards 1 (m_shards d) →
  m_dtx_id d = id → batch_ok d → m_full_txs d = full →
  ∃ log' d' ok, prepare_phase (batch_set_cbs leader (m_state d)) log d = Ret (log', d', ok) ∧
    (if ok : bool then
       m_state d' = commit ∧ m_dtx_id d' = id ∧ m_tx_idxs d' = idxs ∧
       m_complete_txs d' = flags ∧ logged 1 log' ∧
       Forall2 (after_lock full id) shards0 (m_shards d')
     else under_way log' (m_shards d')) ∧
    ((∀ l, leader l = replicated) → ok = true).
Proof.
  intros Hst Hid [Ht Hi] Hf. unfold prepare_phase. rewrite decide_True by naive_solver.
  unfold run_prepare. rewrite Hid, Ht, Hi, Hf.
  assert (phase_shards 1 (m_shards d)) as Hsh.
  { destruct Hst as [(_ & _ & ->)|(_ & _ & ?)]; [|done]. cbn.
    apply Forall_Forall2_diag, Forall_forall. auto. }
  assert (∃ w1 ok, (match m_prepare_cb (batch_set_cbs leader (m_state d)) with
    | Some cb => cb log id full | None => (log, true) end) = (w1, ok) ∧
    (if ok : bool then logged 1 w1 else under_way w1 (m_shards d)) ∧
    ((∀ l, leader l = replicated) → ok = true)) as (w1 & ok & -> & Hw & Hlead).
  { destruct Hst as [(-> & Hl & Es)|(-> & Hl & _)]; cbn.
    - destruct (replicate_next leader 0 log) as (w1 & ok & E & Hw & Hlead); [lia|done|].
      exists w1, ok. split; [exact E|]. split; [|done]. destruct ok; [done|].
      destruct Hw; [by exists 0|by exists 1].
    - by exists log, true. }
  destruct ok; cbn [negb]; [|by do 3 eexists].
  destruct (lock_shards_spec full id shards0 (m_shards d)) as (shards' & -> & Hs).
  { eapply Forall2_impl; [by apply Forall2_in_l|]. intros sh0 sh [Hin Hor].
    split; [by apply (proj1 (Forall_forall _ _) Hready)|done]. }
  cbn [obind].
  assert (replicate (length full) true = (λ _, true) <$> full) as ->
    by (symmetry; by apply const_fmap).
  rewrite collect_spec. cbn [obind]. rewrite decide_False by (rewrite length_fmap; lia).
  do 3 eexists. split; [done|]. split; [|done]. cbn. split_and!; try done.
  rewrite Hi, Hf. eapply idxs_ext; [|exact Hsh].
  by intros ?? [->|[[_ ->]|(_ & _ & ? & _)]].
Qed.

(** [s0] is the phase the execution started in. *)
Lemma commit_any leader s0 log d :
  m_state d = commit → m_dtx_id d = id → m_tx_idxs d = idxs → m_complete_txs d = flags →
  (s0 = commit ∧ logged 2 log ∧ phase_shards 2 (m_shards d) ∨
   s0 ≠ commit ∧ logged 1 log ∧ Forall2 (after_lock full id) shards0 (m_shards d)) →
  ∃ log' d' ok, commit_phase (batch_set_cbs leader s0) log d = Ret (log', d', ok) ∧
    (if ok : bool then
       m_state d' = discard ∧ m_dtx_id d' = id ∧ m_tx_idxs d' = idxs ∧
       m_complete_txs d' = flags ∧ logged 2 log' ∧
       Forall2 (after_apply full id shards0) shards0 (m_shards d')
     else under_way log' (m_shards d')) ∧
    ((∀ l, leader l = replicated) → ok = true).
Proof.
  intros Hst Hid Hix Hc Hcase. unfold commit_phase. rewrite decide_True by done.
  unfold run_commit. rewrite Hid, Hix, Hc.
  assert (phase_shards 2 (m_shards d)) as Hsh.
  { destruct Hcase as [(_ & _ & ?)|(_ & _ & F)]; [done|]. cbn.
    eapply Forall2_impl; [exact F|]. auto. }
  assert (∃ w1 ok, (match m_commit_cb (batch_set_cbs leader s0) with
    | Some cb => cb log id flags idxs | None => (log, true) end) = (w1, ok) ∧
    (if ok : bool then logged 2 w1 else under_way w1 (m_shards d)) ∧
    ((∀ l, leader l = replicated) → ok = true)) as (w1 & ok & -> & Hw & Hlead).
  { destruct Hcase as [(-> & Hl & _)|(Hn & Hl & F)]; cbn.
    - by exists log, true.
    - rewrite decide_False by done.
      destruct (replicate_next leader 1 log) as (w1 & ok & E & Hw & Hlead); [lia|done|].
      exists w1, ok. split; [exact E|]. split; [|done]. destruct ok; [done|].
      destruct Hw; [|by exists 2]. exists 1. split; [done|]. cbn.
      eapply Forall2_impl; [exact F|]. auto. }
  destruct ok; cbn [negb]; [|by do 3 eexists].
  destruct (apply_shards_spec full id shards0 Hfresh shards0 (m_shards d))
    as (shards' & -> & Hs); [by apply Forall2_in_l|].
  cbn [obind]. do 3 eexists. split; [done|]. split; [|done]. by split_and!.
Qed.

Lemma discard_any leader s0 log d :
  s0 ≠ discard → s0 ≠ done → m_state d = discard → m_dtx_id d = id → m_tx_idxs d = idxs →
  logged 2 log → Forall2 (after_apply full id shards0) shards0 (m_shards d) →
  ∃ log' d' ok, discard_phase (batch_set_cbs leader s0) log d = Ret (log', d', ok) ∧
    m_complete_txs d' = m_complete_txs d ∧ under_way log' (m_shards d') ∧
    (ok = true → logged 4 log' ∧ phase_shards 4 (m_shards d')) ∧
    ((∀ l, leader l = replicated) → ok = true).
Proof.
  intros Hs0 Hs1 Hst Hid Hix Hl Hsh. unfold discard_phase. rewrite decide_True by done.
  unfold run_discard. rewrite Hid, Hix. cbn. rewrite !decide_False by done.
  unfold discard_cb, done_cb.
  destruct (replicate_next leader 2 log) as (w1 & ok & E & Hw & Hlead); [lia|done|].
  cbn in E. rewrite E. pose proof (all_settled _ Hsh) as Hset.
  destruct ok; cbn [negb].
  2:{ do 3 eexists. split; [done|]. split; [done|]. split; [|done].
      destruct Hw; [exists 2; split; [done|]; cbn; eapply Forall2_impl; [exact Hsh|]; auto
                   |by exists 3]. }
  destruct (discard_shards_spec full id shards0 shards0 (m_shards d)) as (shards' & -> & Hs).
  { eapply Forall2_impl; [exact (Forall2_in_l _ _ _ Hsh)|]. intros sh0 sh [Hin Ha].
    split; [by eapply (ready_in full id shards0)|done]. }
  cbn [obind negb].
  destruct (replicate_next leader 3 w1) as (w2 & ok2 & E2 & Hw2 & Hlead2); [lia|done|].
  cbn in E2. rewrite E2. destruct ok2; cbn [negb]; do 3 eexists; (split; [done|]);
    (split; [done|]).
  - assert (phase_shards 4 shards') as H4 by exact Hs.
    split; [exists 4; auto|]. auto.
  - split; [destruct Hw2; [exists 3; auto|exists 4; auto]|]. split; [done|]. auto.
Qed.

(** ** Executions *)

(** From the prepare or the commit phase. *)
Lemma execute_any leader log d :
  (m_state d = start ∧ logged 0 log ∧ m_shards d = shards0 ∨
   m_state d = prepare ∧ logged 1 log ∧ phase_shards 1 (m_shards d)) ∧
    batch_ok d ∧ m_full_txs d = full ∨
  m_state d = commit ∧ logged 2 log ∧ phase_shards 2 (m_shards d) ∧
    m_tx_idxs d = idxs ∧ m_complete_txs d = flags →
  m_dtx_id d = id →
  ∃ log' d' res, execute (batch_set_cbs leader (m_state d)) log d = Ret (log', d', res) ∧
    under_way log' (m_shards d') ∧
    (∀ fl, res = Some fl → fl = flags ∧ logged 4 log' ∧ phase_shards 4 (m_shards d')) ∧
    ((∀ l, leader l = replicated) → is_Some res).
Proof.
  intros Hcase Hid. unfold execute.
  assert (∃ w1 d1 ok, prepare_phase (batch_set_cbs leader (m_state d)) log d = Ret (w1, d1, ok) ∧
    (if ok : bool then
       m_state d1 = commit ∧ m_dtx_id d1 = id ∧ m_tx_idxs d1 = idxs ∧ m_complete_txs d1 = flags ∧
       (m_state d = commit ∧ logged 2 w1 ∧ phase_shards 2 (m_shards d1) ∨
        m_state d ≠ commit ∧ logged 1 w1 ∧ Forall2 (after_lock full id) shards0 (m_shards d1))
     else under_way w1 (m_shards d1)) ∧
    ((∀ l, leader l = replicated) → ok = true)) as (w1 & d1 & ok1 & -> & H1 & L1).
  { destruct Hcase as [(Hcase & Hb & Hf)|(Hs & Hl & Hsh & Hix & Hc)].
    - destruct (prepare_any leader log d Hcase Hid Hb Hf) as (w1 & d1 & ok & E & Hok & Hlead).
      exists w1, d1, ok. split; [done|]. split; [|done]. destruct ok; [|done].
      destruct Hok as (? & ? & ? & ? & ? & ?). split_and!; try done. right.
      split; [|done]. destruct Hcase as [[-> _]|[-> _]]; done.
    - exists log, d, true. unfold prepare_phase.
      rewrite decide_False by (rewrite Hs; by intros [?|?]). split; [done|].
      split; [|done]. split_and!; try done. by left. }
  cbn [obind]. destruct ok1; cbn [negb].
  2:{ do 3 eexists. split; [done|]. split; [done|]. split; [done|]. by intros ?%L1. }
  destruct H1 as (S1 & I1 & X1 & C1 & H1).
  destruct (commit_any leader (m_state d) w1 d1 S1 I1 X1 C1 H1) as (w2 & d2 & ok2 & -> & H2 & L2).
  cbn [obind]. destruct ok2; cbn [negb].
  2:{ do 3 eexists. split; [done|]. split; [done|]. split; [done|]. by intros ?%L2. }
  destruct H2 as (S2 & I2 & X2 & C2 & Hl2 & F2).
  destruct (discard_any leader (m_state d) w2 d2) as (w3 & d3 & ok3 & -> & C3 & U3 & H3 & L3);
    try done; [intros Es; rewrite Es in Hcase; naive_solver..|].
  cbn [obind]. destruct ok3; cbn [negb]; do 3 eexists; (split; [done|]); (split; [done|]).
  - split; [|by eauto]. intros fl [= <-]. rewrite C3, C2. split; [done|]. by apply H3.
  - split; [done|]. by intros ?%L3.
Qed.

(** The recovered discard phase contacts no shard. *)
Lemma execute_discard_any leader log d :
  m_state d = discard → m_dtx_id d = id → m_tx_idxs d = replicate (length (m_shards d)) [] →
  logged 3 log → phase_shards 3 (m_shards d) →
  ∃ log' d' res, execute (batch_set_cbs leader (m_state d)) log d = Ret (log', d', res) ∧
    under_way log' (m_shards d') ∧
    (is_Some res → logged 4 log' ∧ phase_shards 4 (m_shards d')) ∧
    ((∀ l, leader l = replicated) → is_Some res).
Proof.
  intros Hst Hid Hix Hl Hsh. unfold execute, prepare_phase, commit_phase, discard_phase.
  rewrite !Hst, decide_False by (by intros [?|?]). cbn [obind negb].
  rewrite Hst, decide_False by done. cbn [obind negb]. rewrite Hst, decide_True by done.
  unfold run_discard. rewrite Hid, Hix. cbn.
  assert (∀ l : list Sh, discard_shards id l (replicate (length l) []) = Ret (l, true)) as ->.
  { clear. induction l as [|s l IH]; simpl; [done|]. by rewrite IH. }
  cbn [obind negb]. rewrite decide_True, decide_False by done. unfold done_cb.
  destruct (replicate_next leader 3 log) as (w2 & ok2 & E2 & Hw2 & Hlead2); [lia|done|].
  cbn in E2. rewrite E2. destruct ok2; cbn [negb obind]; do 3 eexists; (split; [done|]).
  - split; [by exists 4|]. done.
  - split; [destruct Hw2; [by exists 3|by exists 4]|]. split; [by intros []|].
    by intros ?%Hlead2.
Qed.

(** ** Recovery *)

Lemma phase_shards_length k shards : phase_shards k shards → length shards = length shards0.
Proof.
  destruct k as [|[|[|]]]; cbn; [by intros ->|..]; intros F; symmetry; by eapply Forall2_length.
Qed.

(** One recovered batch. *)
Lemma execute_recovered_one leader log (shards : list Sh) d :
  controller.execute_recovered leader log shards [Ret d] =
    let! '(log1, d1, res) :=
      execute (batch_set_cbs leader (m_state d)) log (set_shards d shards) in
    Ret (log1, m_shards d1, bool_decide (is_Some res)).
Proof.
  cbn. destruct (execute _ _ _) as [[[log1 d1] res]|]; cbn; [|done]. by destruct res.
Qed.

Lemma fresh_dtx_create i (shards : list Sh) :
  shards ≠ [] → create i shards = Ret (fresh_dtx shards i).
Proof. by destruct shards. Qed.

(** [recovery_func] of any later leader, from wherever the batch was left:
    with all commands replicated it ends either before the batch or after it,
    and however Raft behaves it leaves a batch the next leader can recover. *)
Lemma recovery_any leader log shards :
  shards0 ≠ [] → under_way log shards →
  ∃ log' shards' ok, controller.recovery_func leader log shards = Ret (log', shards', ok) ∧
    under_way log' shards' ∧
    (ok = true → logged 0 log' ∧ shards' = shards0 ∨ logged 4 log' ∧ phase_shards 4 shards') ∧
    ((∀ l, leader l = replicated) → ok = true).
Proof.
  intros Hne (k & Hl & Hsh). unfold controller.recovery_func.
  pose proof (logged_get _ _ Hl) as Hg.
  assert (shards ≠ []) as Hs.
  { apply phase_shards_length in Hsh. intros ->. by destruct shards0. }
  unfold replicate_sm_command. destruct (leader log) eqn:El; cbn [negb].
  2,3: do 3 eexists; (split; [done|]); (split; [by exists k|]); (split; [done|]);
    intros Hlead; rewrite Hlead in El; congruence.
  rewrite (lg_run _ _ Hg). cbn [obind]. rewrite recover_dtxs_eq by done.
  pose proof (lg_bound _ _ Hl) as Hk. unfold recovered.
  destruct k as [|[|[|[|[|]]]]]; [..|lia];
    cbn [phase_state coordinator_sm.empty coordinator_sm.m_prepare_txs
      coordinator_sm.m_commit_txs coordinator_sm.m_discard_txs];
    rewrite ?map_to_list_empty, ?map_to_list_singleton, ?elements_empty, ?elements_singleton;
    cbn [fmap list_fmap app fst snd].
  - do 3 eexists. split; [done|]. split; [by exists 0|]. auto.
  - rewrite execute_recovered_one. set (d := recover_prepare _ _).
    destruct (create_ok id shards _ (fresh_dtx_create id shards Hs)) as (Hb & _).
    destruct (add_txs_ok (set_state (fresh_dtx shards id) prepare) full Hb)
      as (Hb' & Hf' & Hs' & Hid' & Hst').
    change (add_txs (set_state (fresh_dtx shards id) prepare) full) with d in Hb', Hf', Hs', Hid', Hst'.
    destruct (execute_any leader (log ++ [sm_get]) (set_shards d shards))
      as (log' & d' & res & E & Hu & Hok & Hlead).
    { left. cbn -[d]. split; [right; by rewrite Hst'|]. split; [|done].
      destruct Hb' as [Ht Hi]. split; cbn -[d]; rewrite ?Ht, ?Hi, Hs', ?Hf'; done. }
    { done. }
    change (m_state (set_shards d shards)) with (m_state d) in E. rewrite E. cbn [obind]. do 3 eexists. split; [done|]. split; [done|].
    rewrite bool_decide_eq_true. split; [|done]. intros [fl ->]. right. by apply (Hok fl).
  - rewrite execute_recovered_one. set (d := recover_commit _ _ _).
    destruct (execute_any leader (log ++ [sm_get]) (set_shards d shards))
      as (log' & d' & res & E & Hu & Hok & Hlead).
    { right. done. }
    { done. }
    cbn in E. cbn. rewrite E. cbn [obind]. do 3 eexists. split; [done|]. split; [done|].
    rewrite bool_decide_eq_true. split; [|done]. intros [fl ->]. right. by apply (Hok fl).
  - rewrite execute_recovered_one. set (d := recover_discard _).
    destruct (execute_discard_any leader (log ++ [sm_get]) (set_shards d shards))
      as (log' & d' & res & E & Hu & Hok & Hlead); try done.
    cbn in E. cbn. rewrite E. cbn [obind]. do 3 eexists. split; [done|]. split; [done|].
    rewrite bool_decide_eq_true. split; [|done]. intros Hr. right. by apply Hok.
  - do 3 eexists. split; [done|]. split; [by exists 4|]. auto.
Qed.

(** A coordinator that stopped in the middle of a phase, or has not noticed
    that it is no longer the leader, has asked further shards. *)
Lemma reach_lock shards i sh sh' r :
  phase_shards 1 shards → shards !! i = Some sh → sel sh full ≠ [] →
  lock_outputs sh (sel sh full).*2 id = Ret (sh', r) → phase_shards 1 (<[ i := sh' ]> shards).
Proof.
  intros F Hi Hn E. cbn in *. destruct (Forall2_lookup_r _ _ _ _ _ F Hi) as (sh0 & Hi0 & Hc).
  assert (in_shard_range sh = in_shard_range sh0) as Hrg
    by (by destruct Hc as [->|[[_ ->]|(_ & _ & ? & _)]]).
  rewrite (sel_ext full _ _ Hrg) in *.
  destruct (lock_one full id sh0 sh) as (sh1 & E1 & Hl).
  { by eapply Forall_lookup_1. }
  { destruct Hc as [->|[[? _]|[_ ?]]]; auto. done. }
  rewrite E1 in E. simplify_eq. apply (Forall2_insert_r _ _ _ _ sh0); [done|done|].
  right. right. done.
Qed.

Lemma reach_apply shards i sh sh' c b :
  phase_shards 2 shards → shards !! i = Some sh → sel sh full ≠ [] →
  select flags (sel sh full).*1 = Ret c → apply_outputs sh c id = Ret (sh', b) →
  phase_shards 2 (<[ i := sh' ]> shards).
Proof.
  intros F Hi Hn Es E. cbn in *. destruct (Forall2_lookup_r _ _ _ _ _ F Hi) as (sh0 & Hi0 & Hc).
  assert (in_shard_range sh = in_shard_range sh0) as Hrg.
  { by destruct Hc as [[[_ ->]|(_ & _ & ? & _)]|[[_ ->]|(_ & (_ & ? & _) & _)]]. }
  rewrite (sel_ext full _ _ Hrg) in *.
  pose proof (select_from sh0 (verdict shards0) [] full) as Hsel. cbn in Hsel.
  fold (sel sh0 full) in Hsel. rewrite Hsel in Es. injection Es as <-.
  assert (∃ sh1, apply_outputs sh (verdict shards0 <$> (sel sh0 full).*2) id = Ret (sh1, true) ∧
    settled full shards0 sh0 sh1 ∧ shard_prepared sh1 id = None ∧ shard_applied sh1 id)
    as (sh1 & E1 & Hs').
  { destruct Hc as [[[? _]|[_ Hl]]|[[? _]|(_ & Hs & Hp & Ha)]]; [done| |done|].
    - apply (apply_one full id shards0 Hfresh); [by eapply list_elem_of_lookup_2|done].
    - by apply reapply_one. }
  rewrite E1 in E. simplify_eq. apply (Forall2_insert_r _ _ _ _ sh0); [done|done|].
  right. right. done.
Qed.

End Batch.
End failover.
