(* ===== verification/Sentinel.v ===== *)
(** * Sentinels

    Model of the sentinels of both architectures,
    [src/uhs/twophase/sentinel_2pc/controller.cpp] and
    [src/uhs/atomizer/sentinel/controller.cpp]: static validation, gathering
    the attestations of other sentinels, and forwarding the compact
    transaction to the coordinators or to the shards.  The random choices of
    a peer and whether the call could be sent are an argument. *)

From Stdlib Require Import ZArith Lia.
From Stdlib.Strings Require Import Byte.
From stdpp Require Import base tactics numbers gmap sets list.
From S2P Require Import Prelude Serialization Crypto Transaction Validation.
From S2P Require Import LockingShard.
Open Scope cbdc_scope.

Inductive tx_status := pending | static_invalid | state_invalid | confirmed.

Record execute_response := {
  m_tx_status : tx_status;
  m_tx_error : option tx_error
}.

(** Where a transaction is after the attestations were gathered as far as
    the draws go. *)
Inductive gather_result :=
| still_waiting
| remote_rejected
| forwarded (ctx : compact_tx.t).

Module sentinel.
Section Ops.
Context `{Hasher} `{Secp256k1}.

(** [validate_transaction]: an attestation for a valid transaction. *)
Definition validate_transaction (privkey : privkey_t) (tx : full_tx.t)
    : outcome (option (pubkey_t * signature_t)) :=
  let! err := check_tx tx in
  match err with
  | Some _ => Ret None
  | None =>
      let! attestation := compact_sign (compact tx) privkey in
      Ret (Some attestation)
  end.

(** [gather_attestations] with [validate_result_handler].  A draw is the peer
    chosen and whether the call was sent; a peer that was asked before is
    drawn again.  [peers] are the keys of the other sentinels, which answer
    with their own [validate_transaction]. *)
Fixpoint gather_attestations (peers : list privkey_t) (threshold : nat)
    (tx : full_tx.t) (draws : list (nat * bool)) (ctx : compact_tx.t)
    (requested : gset nat) : outcome gather_result :=
  if decide (size (compact_tx.m_attestations ctx) < threshold) then
    match draws with
    | [] => Ret still_waiting
    | (sentinel_id, sent) :: draws =>
        if decide (sentinel_id ∈ requested) then
          gather_attestations peers threshold tx draws ctx requested
        else
          let! peer := at_index peers sentinel_id in
          if negb sent
          then gather_attestations peers threshold tx draws ctx requested
          else
            let! v_res := validate_transaction peer tx in
            match v_res with
            | None => Ret remote_rejected
            | Some att =>
                gather_attestations peers threshold tx draws
                  (compact_tx.add_attestation ctx att)
                  ({[ sentinel_id ]} ∪ requested)
            end
    end
  else Ret (forwarded ctx).

(** What a sentinel does with a request: answer at once, or go and gather. *)
Inductive execution :=
| responded (resp : execute_response)
| gathered (res : gather_result).

(** [execute_transaction] of the two-phase sentinel: without a threshold it
    does not attest itself. *)
Definition execute_transaction (privkey : privkey_t) (peers : list privkey_t)
    (threshold : nat) (tx : full_tx.t) (draws : list (nat * bool))
    : outcome execution :=
  let! validation_err := check_tx tx in
  match validation_err with
  | Some e => Ret (responded {| m_tx_status := static_invalid;
                                m_tx_error := Some e |})
  | None =>
      let! ctx :=
        if decide (0 < threshold) then
          let! attestation := compact_sign (compact tx) privkey in
          Ret (compact_tx.add_attestation (compact tx) attestation)
        else Ret (compact tx) in
      let! res := gather_attestations peers threshold tx draws ctx ∅ in
      Ret (gathered res)
  end.

(** [result_handler]: the coordinator's answer for the client. *)
Definition result_handler (res : option bool) : option execute_response :=
  match res with
  | Some ok => Some {| m_tx_status := if (ok : bool) then confirmed else state_invalid;
                       m_tx_error := None |}
  | None => None
  end.

(** [execute_transaction] and [send_transaction] of the atomizer sentinel: the
    client gets its answer at once, the transaction goes on if it is valid. *)
Definition execute_transaction_atomizer (privkey : privkey_t)
    (peers : list privkey_t) (threshold : nat) (tx : full_tx.t)
    (draws : list (nat * bool)) : outcome (execute_response * option gather_result) :=
  let! res := check_tx tx in
  match res with
  | Some e => Ret ({| m_tx_status := static_invalid; m_tx_error := Some e |}, None)
  | None =>
      let! attestation := compact_sign (compact tx) privkey in
      let! g := gather_attestations peers threshold tx draws
        (compact_tx.add_attestation (compact tx) attestation) ∅ in
      Ret ({| m_tx_status := pending; m_tx_error := None |}, Some g)
  end.

End Ops.

(** ** Forwarding to shards (atomizer) *)

Record shard_info := { m_range : Z * Z; m_connected : bool }.

(** The inner loop of [send_compact_tx] for shard position [i]: the indices
    newly covered.  The range is compared with input [i], not [j]; an input
    [i] that does not exist is an access out of range. *)
Fixpoint cover_inputs (range : Z * Z) (inputs : list hash_t) (i j n : nat)
    (inputs_sent : gset nat) : outcome (gset nat) :=
  match n with
  | O => Ret inputs_sent
  | S n =>
      if decide (j ∈ inputs_sent) then
        cover_inputs range inputs i (S j) n inputs_sent
      else
        let! inp := at_index inputs i in
        if negb (hash_in_shard_range range inp)
        then cover_inputs range inputs i (S j) n inputs_sent
        else cover_inputs range inputs i (S j) n ({[ j ]} ∪ inputs_sent)
  end.

(** The outer loop from position [i]; the result lists the shards the packet
    was sent to. *)
Fixpoint send_from (shards : list shard_info) (inputs : list hash_t)
    (offset i n : nat) (inputs_sent : gset nat) : outcome (list nat) :=
  match n with
  | O => Ret []
  | S n =>
      let idx := (i + offset) mod length shards in
      let! info := at_index shards idx in
      if decide (size inputs_sent = length inputs) then Ret [] else
      if negb (m_connected info)
      then send_from shards inputs offset (S i) n inputs_sent
      else
        let! sent' :=
          cover_inputs (m_range info) inputs i 0 (length inputs) inputs_sent in
        let! rest := send_from shards inputs offset (S i) n sent' in
        Ret (if decide (sent' = inputs_sent) then rest else idx :: rest)
  end.

Definition send_compact_tx (shards : list shard_info) (ctx : compact_tx.t)
    (offset : nat) : outcome (list nat) :=
  send_from shards (compact_tx.m_inputs ctx) offset 0 (length shards) ∅.

End sentinel.

(** ** Gathering *)

Module sentinel_lemmas.
Import sentinel.

Section Gather.
Context `{Hasher} `{Secp256k1} `{!Secp256k1Laws}.
Variable tx : full_tx.t.

(** A compact transaction with attestations that verify and come from
    [keys]. *)
Record attested (keys : gset pubkey_t) (ctx : compact_tx.t) : Prop := {
  at_base : ∃ m, ctx = compact_tx.with_attestations (compact tx) m;
  at_valid : map_Forall (λ pk sig, pk ∈ keys ∧
    compact_verify (compact tx) (pk, sig) = true) (compact_tx.m_attestations ctx)
}.

Lemma attested_start keys : attested keys (compact tx).
Proof. constructor; [by eexists|]. apply map_Forall_empty. Qed.

Lemma signature_verifies key att :
  compact_sign (compact tx) key = Ret att →
  pubkey_from_privkey key = Ret att.1 ∧ compact_verify (compact tx) att = true.
Proof.
  unfold compact_sign, compact_verify, pubkey_from_privkey. intros E.
  destruct (keypair_create key) as [kp|]; simplify_eq; simpl. split; [done|].
  rewrite xonly_parse_serialize. apply schnorrsig_correct.
Qed.

Lemma attested_add keys ctx key att :
  attested keys ctx → compact_sign (compact tx) key = Ret att → att.1 ∈ keys →
  attested keys (compact_tx.add_attestation ctx att).
Proof.
  intros [[m ->] Hv] Hs Hin. destruct (signature_verifies key att Hs) as [_ Hok].
  constructor.
  - unfold compact_tx.add_attestation. by eexists.
  - unfold compact_tx.add_attestation. cbn in *. case_match; [done|].
    apply map_Forall_insert_2; [|done]. by destruct att.
Qed.

Lemma attested_accepted keys ctx threshold :
  attested keys ctx → threshold ≤ size (compact_tx.m_attestations ctx) →
  check_attestations ctx keys threshold = true.
Proof.
  intros [[m ->] Hv] Hsz. apply check_attestations_true. split; [done|].
  eapply map_Forall_impl; [exact Hv|]. intros pk sig [? ?].
  split; [done|]. by rewrite compact_verify_with.
Qed.

(** The public key of a sentinel is accepted. *)
Definition accepted (keys : gset pubkey_t) (key : privkey_t) : Prop :=
  ∀ pk, pubkey_from_privkey key = Ret pk → pk ∈ keys.

Lemma gather_attested keys peers threshold draws : ∀ ctx requested ctx',
  Forall (accepted keys) peers → attested keys ctx →
  gather_attestations peers threshold tx draws ctx requested =
    Ret (forwarded ctx') →
  attested keys ctx' ∧ threshold ≤ size (compact_tx.m_attestations ctx').
Proof.
  induction draws as [|[id sent] draws IH]; intros ctx requested ctx' Hp Ha E;
    simpl in E; case_decide as Hsz; try done.
  { simplify_eq. split; [done|lia]. }
  2:{ simplify_eq. split; [done|lia]. }
  case_decide; [by eapply IH|].
  destruct (at_index peers id) as [peer|] eqn:Ep; [|done]. simpl in E.
  destruct sent; simpl in E; [|by eapply IH].
  destruct (validate_transaction peer tx) as [[att|]|] eqn:Ev; try done. simpl in E.
  eapply IH; [done| |exact E]. unfold validate_transaction in Ev.
  destruct (check_tx tx) as [[]|]; try done. simpl in Ev.
  destruct (compact_sign (compact tx) peer) as [att'|] eqn:Es; [|done].
  simplify_eq/=. apply (attested_add _ _ peer); [done|done|].
  unfold at_index in Ep. destruct (peers !! id) eqn:El; simplify_eq.
  eapply (Forall_lookup_1 _ _ _ _ Hp); [done|]. by apply signature_verifies.
Qed.

(** Peers run the same check, so they do not reject what we accepted. *)
Lemma gather_not_rejected peers threshold draws : ∀ ctx requested,
  check_tx tx = Ret None →
  gather_attestations peers threshold tx draws ctx requested ≠ Ret remote_rejected.
Proof.
  intros ctx requested Hok. revert ctx requested.
  induction draws as [|[id sent] draws IH]; intros ctx requested; simpl;
    case_decide; try done. case_decide; [done|].
  destruct (at_index peers id); [|done]. simpl. destruct sent; simpl; [|done].
  unfold validate_transaction. rewrite Hok. simpl.
  destruct (compact_sign (compact tx) _); simpl; [apply IH|done].
Qed.

(** The attestations of ourselves and of the peers asked so far. *)
Record asked (self : pubkey_t) (pks : list pubkey_t) (requested : gset nat)
    (ctx : compact_tx.t) : Prop := {
  as_dom pk : pk ∈ dom (compact_tx.m_attestations ctx) ↔
    pk = self ∨ ∃ i, i ∈ requested ∧ pks !! i = Some pk;
  as_size : size (compact_tx.m_attestations ctx) = S (size requested)
}.

Lemma asked_add self pks requested ctx id att :
  NoDup (self :: pks) → asked self pks requested ctx → id ∉ requested →
  pks !! id = Some att.1 →
  asked self pks ({[ id ]} ∪ requested) (compact_tx.add_attestation ctx att).
Proof.
  intros Hnd [Hd Hs] Hid Hpk. apply NoDup_cons in Hnd as [Hself Hnd].
  assert (compact_tx.m_attestations ctx !! att.1 = None) as Hnew.
  { apply not_elem_of_dom. rewrite Hd. intros [Heq|(i & Hi & Hl)].
    - apply Hself. rewrite <- Heq. by eapply list_elem_of_lookup_2.
    - apply Hid. by rewrite (NoDup_lookup _ _ _ _ Hnd Hpk Hl). }
  unfold compact_tx.add_attestation. cbn [compact_tx.m_attestations
    compact_tx.with_attestations]. rewrite Hnew. constructor; cbn.
  - intros pk. rewrite dom_insert_L, elem_of_union, elem_of_singleton, Hd. split.
    + intros [->|[->|(i & ? & ?)]]; [right; exists id|by left|right; exists i];
        (split; [set_solver|done]).
    + intros [->|(i & [->%elem_of_singleton|Hi]%elem_of_union & Hl)].
      * by right; left.
      * left. congruence.
      * right; right. eauto.
  - rewrite map_size_insert_None, Hs, size_union, size_singleton by (done || set_solver).
    lia.
Qed.

(** Enough draws reach enough peers. *)
Lemma gather_completes self pks peers threshold draws : ∀ ctx requested,
  check_tx tx = Ret None → NoDup (self :: pks) →
  Forall2 (λ key pk, pubkey_from_privkey key = Ret pk) peers pks →
  asked self pks requested ctx →
  Forall (λ d, d.1 < length peers) draws → (∀ i, i ∈ requested → i < length peers) →
  (∀ i, i < length peers → i ∈ requested ∨ (i, true) ∈ draws) →
  threshold ≤ S (length peers) →
  ∃ ctx', gather_attestations peers threshold tx draws ctx requested =
    Ret (forwarded ctx').
Proof.
  intros ctx requested Hok Hnd Hkeys. revert ctx requested.
  induction draws as [|[id sent] draws IH];
    intros ctx requested Ha Hlt Hreq Hcov Hth; simpl; (case_decide as Hsz; [|by eauto]).
  - exfalso. rewrite (as_size _ _ _ _ Ha) in Hsz.
    assert (list_to_set (seq 0 (length peers)) ⊆ requested) as Hsub.
    { intros i Hi%elem_of_list_to_set%elem_of_seq.
      destruct (Hcov i) as [?|Hn%elem_of_nil]; [lia|done|done]. }
    apply subseteq_size in Hsub.
    rewrite size_list_to_set in Hsub by apply NoDup_seq. rewrite length_seq in Hsub.
    lia.
  - inversion_clear Hlt as [|?? Hid Hlt']. simpl in Hid. case_decide as Hin.
    { apply IH; [done|done|done| |done]. intros i Hi.
      destruct (Hcov i Hi) as [?|[[= -> ->]|?]%elem_of_cons]; auto. }
    destruct (lookup_lt_is_Some_2 peers id Hid) as [key Hkey].
    rewrite (at_index_some _ _ _ Hkey). simpl. destruct sent; simpl.
    2:{ apply IH; [done|done|done| |done]. intros i Hi.
        destruct (Hcov i Hi) as [?|[?|?]%elem_of_cons]; auto. done. }
    destruct (Forall2_lookup_l _ _ _ _ _ Hkeys Hkey) as (pk & Hpk & Hpriv).
    unfold validate_transaction. rewrite Hok. simpl.
    unfold pubkey_from_privkey in Hpriv. unfold compact_sign.
    destruct (keypair_create key) as [kp|]; simplify_eq/=.
    apply IH; [|done| | |done].
    + by apply asked_add.
    + intros i [->%elem_of_singleton|?]%elem_of_union; [done|auto].
    + intros i Hi. destruct (Hcov i Hi) as [?|[[= ->]|?]%elem_of_cons]; [left|left|auto];
        set_solver.
Qed.

End Gather.
End sentinel_lemmas.

(** ** Theorems *)

Section SentinelTheorems.
Context `{Hasher} `{Secp256k1} `{!Secp256k1Laws}.
Import sentinel sentinel_lemmas.

(** What a sentinel does with a transaction. *)
Lemma execution_spec keys privkey peers threshold tx draws ex :
  Forall (accepted keys) (privkey :: peers) →
  execute_transaction privkey peers threshold tx draws = Ret ex →
  match ex with
  | responded r => ∃ e, check_tx tx = Ret (Some e) ∧
      r = {| m_tx_status := static_invalid; m_tx_error := Some e |}
  | gathered remote_rejected => False
  | gathered still_waiting => check_tx tx = Ret None
  | gathered (forwarded ctx) =>
      check_tx tx = Ret None ∧ check_attestations ctx keys threshold = true ∧
      ∃ m, ctx = compact_tx.with_attestations (compact tx) m
  end.
Proof.
  intros Hk E. inversion_clear Hk as [|?? Hself Hpeers].
  unfold execute_transaction in E.
  destruct (check_tx tx) as [[e|]|] eqn:Ec; [| |done]; simpl in E.
  { simplify_eq. eauto. }
  assert (∃ ctx, attested tx keys ctx ∧
    (let! res := gather_attestations peers threshold tx draws ctx ∅ in
     Ret (gathered res)) = Ret ex) as (ctx & Hctx & E').
  { case_decide; simpl in E; [|exists (compact tx); split; [apply attested_start|done]].
    destruct (compact_sign (compact tx) privkey) as [att|] eqn:Es; [|done].
    simpl in E. eexists. split; [|exact E].
    eapply attested_add; [apply attested_start|exact Es|].
    apply Hself. by apply (signature_verifies tx). }
  destruct (gather_attestations _ _ _ _ _ _) as [res|] eqn:Eg; [|done].
  simpl in E'. simplify_eq. destruct res as [| |ctx']; [done| |].
  { by apply gather_not_rejected in Eg. }
  destruct (gather_attested tx keys peers threshold draws ctx ∅ ctx')
    as [Hat Hsz]; [done|done|done|].
  pose proof (attested_accepted _ _ _ _ Hat Hsz).
  destruct Hat as [[m ->] _]. eauto.
Qed.

(** C15: only valid, attested transactions leave a sentinel.  An invalid
    transaction is answered with its validation error and goes nowhere; what
    is forwarded is the compact form of a valid transaction and carries
    attestations that the coordinators and shards accept at the same
    threshold; no honest peer rejects it. *)
Theorem sentinel_forwards_only_valid keys privkey peers threshold tx draws ex :
  Forall (accepted keys) (privkey :: peers) →
  execute_transaction privkey peers threshold tx draws = Ret ex →
  match ex with
  | responded r => ∃ e, check_tx tx = Ret (Some e) ∧
      r = {| m_tx_status := static_invalid; m_tx_error := Some e |}
  | gathered remote_rejected => False
  | gathered still_waiting => check_tx tx = Ret None
  | gathered (forwarded ctx) =>
      check_tx tx = Ret None ∧ compact_tx.m_id ctx = tx_id tx ∧
      compact_tx.m_inputs ctx = compact_tx.m_inputs (compact tx) ∧
      compact_tx.m_uhs_outputs ctx = compact_tx.m_uhs_outputs (compact tx) ∧
      check_attestations ctx keys threshold = true
  end.
Proof.
  intros Hk E. pose proof (execution_spec _ _ _ _ _ _ _ Hk E) as Hs.
  destruct ex as [|[| |ctx]]; [done..|]. destruct Hs as (? & ? & m & ->). done.
Qed.

(** C16: a valid transaction gets through.  When the sentinels have distinct
    keys, the threshold does not exceed their number, and the draws
    eventually reach every peer, gathering ends and the transaction is
    forwarded. *)
Theorem sentinel_gathers privkey self peers pks threshold tx draws :
  check_tx tx = Ret None → pubkey_from_privkey privkey = Ret self →
  Forall2 (λ key pk, pubkey_from_privkey key = Ret pk) peers pks →
  NoDup (self :: pks) → threshold ≤ S (length peers) →
  Forall (λ d, d.1 < length peers) draws →
  (∀ i, i < length peers → (i, true) ∈ draws) →
  ∃ ctx, execute_transaction privkey peers threshold tx draws =
    Ret (gathered (forwarded ctx)).
Proof.
  intros Hok Hself Hkeys Hnd Hth Hlt Hcov. unfold execute_transaction.
  rewrite Hok. simpl. case_decide as Hpos; simpl.
  2:{ assert (threshold = 0) as -> by lia. exists (compact tx).
      destruct draws as [|[]]; done. }
  unfold pubkey_from_privkey in Hself. unfold compact_sign.
  destruct (keypair_create privkey) as [kp|]; simplify_eq/=.
  edestruct (gather_completes tx) as [ctx' ->];
    [exact Hok|exact Hnd|exact Hkeys| |exact Hlt| | |exact Hth|].
  - constructor; cbn [compact_tx.add_attestation compact_tx.m_attestations
      compact_tx.with_attestations compact fst snd]; rewrite lookup_empty.
    + intros pk. rewrite dom_insert_L, dom_empty_L. set_solver.
    + by rewrite map_size_insert_None, map_size_empty, size_empty by done.
  - by intros i Hi%elem_of_empty.
  - intros i Hi. right. by apply Hcov.
  - simpl. eauto.
Qed.

End SentinelTheorems.

Section SentinelExamples.
Import sentinel sentinel_lemmas.

Definition two_shards : list shard_info :=
  [{| m_range := (0, 127)%Z; m_connected := true |};
   {| m_range := (128, 255)%Z; m_connected := true |}].

(** The atomizer sentinel compares a shard's range with the input whose
    index is the position of the shard, not with the input under
    consideration.  With two shards, a transaction whose only input belongs
    to the second one makes it read past the inputs, and a transaction with
    inputs on both, in the other order, is sent to no shard at all. *)
Theorem shard_routing_reads_wrong_input :
  send_compact_tx two_shards (compact_tx.mk [xa0] [[x81]] [] ∅) 0 = Fatal ∧
  send_compact_tx two_shards (compact_tx.mk [xa1] [[x81]; [x01]] [] ∅) 0 = Ret [].
Proof. split; vm_compute; reflexivity. Qed.

Import Toy.

Lemma toy_accepted : Forall (accepted toy_keys) [zeros 32; replicate 32 x01].
Proof.
  constructor; [|constructor; [|constructor]]; intros pk E; vm_compute in E;
    injection E as <-; compute_decide.
Qed.

Lemma signed_tx_checks : check_tx signed_tx = Ret None.
Proof. vm_compute. reflexivity. Qed.

Lemma sentinel_gathers_witness :
  ∃ ctx, execute_transaction (zeros 32) [replicate 32 x01] 2 signed_tx [(0, true)] =
    Ret (gathered (forwarded ctx)).
Proof.
  apply (sentinel_gathers (zeros 32) (zeros 32) _ [replicate 32 x01]).
  - apply signed_tx_checks.
  - vm_compute. reflexivity.
  - constructor; [vm_compute; reflexivity|constructor].
  - compute_decide.
  - simpl. lia.
  - constructor; [simpl; lia|constructor].
  - intros i Hi. simpl in Hi. assert (i = 0) as -> by lia. left.
Defined.

Lemma sentinel_forwards_only_valid_witness :
  ∃ ctx, execute_transaction (zeros 32) [replicate 32 x01] 2 signed_tx [(0, true)] =
      Ret (gathered (forwarded ctx)) ∧
    check_attestations ctx toy_keys 2 = true.
Proof.
  assert (match execute_transaction (zeros 32) [replicate 32 x01] 2 signed_tx
    [(0, true)] with Ret (gathered (forwarded _)) => true | _ => false end = true)
    as Hok by (vm_compute; reflexivity).
  destruct (execute_transaction (zeros 32) [replicate 32 x01] 2 signed_tx [(0, true)])
    as [[r|[| |ctx]]|] eqn:E; [discriminate Hok..| |discriminate Hok].
  clear Hok.
  exists ctx. split; [reflexivity|].
  destruct (sentinel_forwards_only_valid toy_keys (zeros 32) [replicate 32 x01] 2
    signed_tx [(0, true)] (gathered (forwarded ctx)) toy_accepted E)
    as (_ & _ & _ & _ & Hc). exact Hc.
Defined.

End SentinelExamples.
