(* ===== verification/Atomizer.v ===== *)
(** * Atomizer

    Model of [src/uhs/atomizer/atomizer/atomizer.{hpp,cpp}], [block.hpp], the
    replicated [state_machine.cpp] and the notification aggregation of
    [atomizer_raft.cpp]. *)

From S2P Require Import Prelude Serialization Crypto Transaction Validation.
From S2P Require Import UhsSpec.
From Stdlib Require Import ZArith Lia.
From Stdlib.Strings Require Import Byte.
From stdpp Require Import base tactics numbers gmap sets list.
Open Scope cbdc_scope.

(** ** Data *)

(** [watchtower::tx_error]: a transaction id and what went wrong. *)
Inductive tx_error_info :=
| tx_error_sync
| tx_error_inputs_dne (input_uhs_ids : list hash_t)
| tx_error_stxo_range
| tx_error_incomplete
| tx_error_inputs_spent (input_uhs_ids : gset hash_t).

Record wt_error := { m_tx_id : hash_t; m_info : tx_error_info }.

Record block := { m_height : Z; m_transactions : list compact_tx.t }.

Module atomizer.

(** [m_txs] is keyed by transactions that compare by id: an entry keeps the
    transaction of its first notification. *)
Record t := mk {
  m_txs : list (gmap hash_t (compact_tx.t * gset Z));
  m_complete_txs : list compact_tx.t;
  m_spent : list (gset hash_t);
  m_best_height : Z;
  m_spent_cache_depth : nat
}.

Definition init (best_height : Z) (stxo_cache_depth : nat) : t :=
  mk (replicate (S stxo_cache_depth) ∅) [] (replicate (S stxo_cache_depth) ∅)
    best_height stxo_cache_depth.

Definition pending_transactions (a : t) : nat := length (m_complete_txs a).

(** The errors for the oldest incomplete transactions, in map order. *)
Definition incomplete_errors (m : gmap hash_t (compact_tx.t * gset Z))
    : list wt_error :=
  (λ e, {| m_tx_id := compact_tx.m_id e.2.1; m_info := tx_error_incomplete |})
    <$> map_to_list m.

(** The rotation loop followed by clearing slot 0: every slot takes the one
    before it and the last one is dropped. *)
Definition rotate {A} (empty : A) (depth : nat) (l : list A) : list A :=
  empty :: take depth l.

Definition make_block (a : t) : outcome (t * block * list wt_error) :=
  let! oldest := at_index (m_txs a) (m_spent_cache_depth a) in
  let best := add64 (m_best_height a) 1 in
  Ret (mk (rotate ∅ (m_spent_cache_depth a) (m_txs a)) []
         (rotate ∅ (m_spent_cache_depth a) (m_spent a)) best
         (m_spent_cache_depth a),
       {| m_height := best; m_transactions := m_complete_txs a |},
       incomplete_errors oldest).

Definition get_notification_offset (a : t) (block_height : Z) : Z :=
  sub64 (m_best_height a) block_height.

Definition check_notification_offset (a : t) (height_offset : Z)
    (tx : compact_tx.t) : option wt_error :=
  if (Z.of_nat (m_spent_cache_depth a) <? height_offset)%Z &&
     negb (bool_decide (compact_tx.m_inputs tx = []))
  then Some {| m_tx_id := compact_tx.m_id tx; m_info := tx_error_stxo_range |}
  else None.

(** The inputs of [tx] found in slots [offset .. offset + n - 1] of the
    spent cache; a slot that does not exist is an out-of-range access. *)
Fixpoint spent_inputs_from (a : t) (tx : compact_tx.t) (offset n : nat)
    : outcome (gset hash_t) :=
  match n with
  | O => Ret ∅
  | S n =>
      let! slot := at_index (m_spent a) offset in
      let! rest := spent_inputs_from a tx (S offset) n in
      Ret (list_to_set (filter (λ inp, inp ∈ slot) (compact_tx.m_inputs tx))
           ∪ rest)
  end.

(** [check_stxo_cache].  For a transaction without inputs the scan touches
    no slot. *)
Definition check_stxo_cache (a : t) (tx : compact_tx.t) (cache_check_range : Z)
    : outcome (option wt_error) :=
  match compact_tx.m_inputs tx with
  | [] => Ret None
  | _ =>
      let! err_set :=
        spent_inputs_from a tx 0 (S (Z.to_nat cache_check_range)) in
      Ret (if decide (err_set = ∅) then None
           else Some {| m_tx_id := compact_tx.m_id tx;
                        m_info := tx_error_inputs_spent err_set |})
  end.

Definition add_tx_to_stxo_cache (a : t) (tx : compact_tx.t) : outcome t :=
  match m_spent a with
  | s0 :: rest =>
      Ret (mk (m_txs a) (m_complete_txs a)
             ((list_to_set (compact_tx.m_inputs tx) ∪ s0) :: rest)
             (m_best_height a) (m_spent_cache_depth a))
  | [] => Fatal
  end.

Definition push_complete (a : t) (tx : compact_tx.t) : t :=
  mk (m_txs a) (m_complete_txs a ++ [tx]) (m_spent a) (m_best_height a)
    (m_spent_cache_depth a).

Definition insert_complete (a : t) (oldest_attestation : Z) (tx : compact_tx.t)
    : outcome (t * option wt_error) :=
  let height_offset := get_notification_offset a oldest_attestation in
  match check_notification_offset a height_offset tx with
  | Some e => Ret (a, Some e)
  | None =>
      let! err_set := check_stxo_cache a tx height_offset in
      match err_set with
      | Some e => Ret (a, Some e)
      | None =>
          let! a' := add_tx_to_stxo_cache a tx in
          Ret (push_complete a' tx, None)
      end
  end.

(** ** Notifications one shard at a time *)

(** First half of [insert]: merge the attestations into the slot of the
    notification's height offset. *)
Definition merge_attestations (slot : gmap hash_t (compact_tx.t * gset Z))
    (tx : compact_tx.t) (attestations : gset Z)
    : gmap hash_t (compact_tx.t * gset Z) :=
  match slot !! compact_tx.m_id tx with
  | None => <[ compact_tx.m_id tx := (tx, attestations) ]> slot
  | Some (tx0, atts) =>
      <[ compact_tx.m_id tx := (tx0, attestations ∪ atts) ]> slot
  end.

(** The accumulation loop: every slot that knows the transaction, with its
    offset. *)
Definition pending_offsets (txs : list (gmap hash_t (compact_tx.t * gset Z)))
    (id : hash_t) : list (nat * (compact_tx.t * gset Z)) :=
  omap (λ p, pair p.1 <$> p.2 !! id) (imap pair txs).

Definition insert (a : t) (block_height : Z) (tx : compact_tx.t)
    (attestations : gset Z) : outcome (t * option wt_error) :=
  let height_offset := get_notification_offset a block_height in
  match check_notification_offset a height_offset tx with
  | Some e => Ret (a, Some e)
  | None =>
      let! slot := at_index (m_txs a) (Z.to_nat height_offset) in
      let slot' := merge_attestations slot tx attestations in
      let txs := <[ Z.to_nat height_offset := slot' ]> (m_txs a) in
      let a1 := mk txs (m_complete_txs a) (m_spent a) (m_best_height a)
                  (m_spent_cache_depth a) in
      let txit := default tx (fst <$> slot' !! compact_tx.m_id tx) in
      let tx_its := pending_offsets txs (compact_tx.m_id tx) in
      let total_attestations := ⋃ ((λ p, p.2.2) <$> tx_its) in
      let oldest := default (0, (tx, ∅)) (last tx_its) in
      if decide (size total_attestations = length (compact_tx.m_inputs txit))
      then
        let! err_set := check_stxo_cache a1 txit (Z.of_nat oldest.1) in
        match err_set with
        | Some e => Ret (a1, Some e)
        | None =>
            let! a2 := add_tx_to_stxo_cache a1 txit in
            Ret (mk (delete (compact_tx.m_id tx) <$> m_txs a2)
                   (m_complete_txs a2 ++ [oldest.2.1]) (m_spent a2)
                   (m_best_height a2) (m_spent_cache_depth a2), None)
        end
      else Ret (a1, None)
  end.

End atomizer.

(** ** The replicated state machine *)

Record aggregate_tx_notification := {
  m_tx : compact_tx.t;
  m_oldest_attestation : Z
}.

Inductive atomizer_request :=
| aggregate_tx_notify_request (m_agg_txs : list aggregate_tx_notification)
| make_block_request
| get_block_request (m_block_height : Z)
| prune_request (m_block_height : Z).

Inductive atomizer_response :=
| errors_response (errs : list wt_error)
| make_block_response (m_blk : block) (m_errs : list wt_error)
| get_block_response (m_blk : block).

Module atomizer_sm.

Record t := mk {
  m_atomizer : atomizer.t;
  m_blocks : gmap Z block;
  m_last_committed_idx : Z;
  m_tx_notify_count : Z
}.

Definition init (stxo_cache_depth : nat) : t :=
  mk (atomizer.init 0 stxo_cache_depth) ∅ 0 0.

Fixpoint insert_all (a : atomizer.t) (msgs : list aggregate_tx_notification)
    : outcome (atomizer.t * list wt_error) :=
  match msgs with
  | [] => Ret (a, [])
  | msg :: msgs =>
      let! '(a1, err) :=
        atomizer.insert_complete a (m_oldest_attestation msg) (m_tx msg) in
      let! '(a2, errs) := insert_all a1 msgs in
      Ret (a2, match err with Some e => e :: errs | None => errs end)
  end.

(** [commit] after deserialization of the request; a log index that is not
    the next one fails the assertion. *)
Definition commit (s : t) (log_idx : Z) (req : atomizer_request)
    : outcome (t * option atomizer_response) :=
  if negb (log_idx =? add64 (m_last_committed_idx s) 1)%Z then Fatal else
  match req with
  | aggregate_tx_notify_request msgs =>
      let! '(a, errs) := insert_all (m_atomizer s) msgs in
      Ret (mk a (m_blocks s) log_idx
             (add64 (m_tx_notify_count s) (Z.of_nat (length msgs))),
           match errs with [] => None | _ => Some (errors_response errs) end)
  | make_block_request =>
      let! '(a, blk, errs) := atomizer.make_block (m_atomizer s) in
      Ret (mk a (match m_blocks s !! m_height blk with
                 | Some _ => m_blocks s
                 | None => <[ m_height blk := blk ]> (m_blocks s)
                 end) log_idx (m_tx_notify_count s),
           Some (make_block_response blk errs))
  | get_block_request h =>
      Ret (mk (m_atomizer s) (m_blocks s) log_idx (m_tx_notify_count s),
           get_block_response <$> m_blocks s !! h)
  | prune_request h =>
      Ret (mk (m_atomizer s)
             (filter (λ p, ¬ (m_height p.2 < h)%Z) (m_blocks s))
             log_idx (m_tx_notify_count s), None)
  end.

Definition commit_config (s : t) (log_idx : Z) : outcome t :=
  if negb (log_idx =? add64 (m_last_committed_idx s) 1)%Z then Fatal else
  Ret (mk (m_atomizer s) (m_blocks s) log_idx (m_tx_notify_count s)).

End atomizer_sm.

(** ** Aggregating shard notifications (atomizer_raft.cpp) *)

Record tx_notify_request := {
  n_tx : compact_tx.t;
  n_attestations : gset Z;
  n_block_height : Z
}.

Module atomizer_raft.

(** Attestations are a set of pairs that compare by input index only: a map
    from the index to the height of its first attestation. *)
Record t := mk {
  m_txs : gmap hash_t (compact_tx.t * gmap Z Z);
  m_complete_txs : list aggregate_tx_notification;
  m_sentinel_public_keys : gset pubkey_t;
  m_attestation_threshold : nat
}.

(** [insert] into the attestation set keeps an existing entry of the same
    index, also when the new height is larger. *)
Definition add_attestation (atts : gmap Z Z) (n height : Z) : gmap Z Z :=
  match atts !! n with
  | Some _ => atts
  | None => <[ n := height ]> atts
  end.

Definition add_attestations (atts : gmap Z Z) (ns : gset Z) (height : Z)
    : gmap Z Z :=
  foldl (λ m n, add_attestation m n height) atts (elements ns).

(** The oldest height; zero counts as unset. *)
Definition oldest_of (heights : list Z) : Z :=
  foldl (λ oldest h, if (oldest =? 0)%Z || (h <? oldest)%Z then h else oldest)
    0%Z heights.

Section Notify.
Context `{Hasher} `{Secp256k1}.

Definition tx_notify (s : t) (notif : tx_notify_request) : t :=
  if negb (check_attestations (n_tx notif) (m_sentinel_public_keys s)
             (m_attestation_threshold s)) then s else
  let id := compact_tx.m_id (n_tx notif) in
  let entry :=
    match m_txs s !! id with
    | Some (tx, atts) =>
        (tx, add_attestations atts (n_attestations notif) (n_block_height notif))
    | None =>
        (n_tx notif,
         add_attestations ∅ (n_attestations notif) (n_block_height notif))
    end in
  if decide (size entry.2 ≠ length (compact_tx.m_inputs entry.1))
  then mk (<[ id := entry ]> (m_txs s)) (m_complete_txs s)
         (m_sentinel_public_keys s) (m_attestation_threshold s)
  else mk (delete id (m_txs s))
         (m_complete_txs s ++
            [{| m_tx := entry.1;
                m_oldest_attestation := oldest_of (map_to_list entry.2).*2 |}])
         (m_sentinel_public_keys s) (m_attestation_threshold s).

End Notify.

(** [send_complete_txs]: hand over everything aggregated so far. *)
Definition send_complete_txs (s : t) : t * option atomizer_request :=
  match m_complete_txs s with
  | [] => (s, None)
  | l => (mk (m_txs s) [] (m_sentinel_public_keys s) (m_attestation_threshold s),
          Some (aggregate_tx_notify_request l))
  end.

End atomizer_raft.

(** ** Histories of blocks *)

Module atomizer_lemmas.
Import atomizer.

Definition all_inputs (txs : list compact_tx.t) : gset hash_t :=
  list_to_set (txs ≫= compact_tx.m_inputs).

Definition uhs_after (U0 : gset hash_t) (txs : list compact_tx.t) : gset hash_t :=
  foldl (uhs_apply everything) U0 txs.

(** The unspent set after the first [h] blocks. *)
Definition uhs_at (U0 : gset hash_t) (blocks : list (list compact_tx.t))
    (h : nat) : gset hash_t :=
  uhs_after U0 (concat (take h blocks)).

Lemma elem_of_all_inputs txs x :
  x ∈ all_inputs txs ↔ ∃ tx, tx ∈ txs ∧ x ∈ compact_tx.m_inputs tx.
Proof.
  unfold all_inputs. rewrite elem_of_list_to_set, list_elem_of_bind. naive_solver.
Qed.

Lemma uhs_after_app U0 txs1 txs2 :
  uhs_after U0 (txs1 ++ txs2) = uhs_after (uhs_after U0 txs1) txs2.
Proof. apply foldl_app. Qed.

(** A hash nobody consumes stays. *)
Lemma uhs_after_keeps U txs x :
  x ∈ U → x ∉ all_inputs txs → x ∈ uhs_after U txs.
Proof.
  revert U. induction txs as [|tx txs IH]; intros U Hx Hn; [done|].
  simpl. apply IH.
  - unfold uhs_apply. apply elem_of_union_l, elem_of_difference. split; [done|].
    intros [_ Hi]%elem_of_owned. apply Hn, elem_of_all_inputs.
    exists tx. split; [left|done].
  - intros (tx' & ? & ?)%elem_of_all_inputs. apply Hn, elem_of_all_inputs.
    exists tx'. split; [by right|done].
Qed.

Lemma uhs_at_app U0 bs bs' k :
  k ≤ length bs → uhs_at U0 (bs ++ bs') k = uhs_at U0 bs k.
Proof. intros Hk. unfold uhs_at. by rewrite take_app_le. Qed.

(** *** The spent cache *)

(** What the slots of the spent cache stand for: the pending transactions,
    then the blocks from the newest to the oldest. *)
Definition slots (pending : list compact_tx.t) (blocks : list (list compact_tx.t))
    : list (gset hash_t) :=
  all_inputs pending :: reverse (all_inputs <$> blocks).

Record atm_inv (blocks : list (list compact_tx.t)) (a : t) : Prop := {
  atm_height : m_best_height a = Z.of_nat (length blocks);
  atm_txs : length (m_txs a) = S (m_spent_cache_depth a);
  atm_spent : length (m_spent a) = S (m_spent_cache_depth a);
  atm_slots k slot :
    m_spent a !! k = Some slot →
    slot = default ∅ (slots (m_complete_txs a) blocks !! k)
}.

Lemma init_atm_inv depth : atm_inv [] (init 0 depth).
Proof.
  constructor; simpl; [done|by rewrite length_replicate..|].
  intros k slot Hk. change (∅ :: replicate depth ∅) with
    (replicate (S depth) (∅ : gset hash_t)) in Hk.
  apply lookup_replicate in Hk as [-> _]. by destruct k as [|[|k]].
Qed.

Lemma make_block_spec blocks a :
  atm_inv blocks a → (Z.of_nat (length blocks) < 2 ^ 63)%Z →
  ∃ a' blk errs, make_block a = Ret (a', blk, errs) ∧
    m_height blk = Z.of_nat (S (length blocks)) ∧
    m_transactions blk = m_complete_txs a ∧
    m_complete_txs a' = [] ∧ atm_inv (blocks ++ [m_complete_txs a]) a'.
Proof.
  intros [Hh Ht Hs Hsl] Hb. unfold make_block.
  destruct (lookup_lt_is_Some_2 (m_txs a) (m_spent_cache_depth a)) as [m Hm];
    [lia|].
  rewrite (at_index_some _ _ _ Hm). cbn [obind].
  assert (add64 (m_best_height a) 1 = Z.of_nat (S (length blocks))) as Hbest.
  { rewrite Hh, add64_exact; unfold is_u64; lia. }
  rewrite Hbest. eexists _, _, _. split; [done|]. split_and!; [done..|].
  constructor; simpl.
  - rewrite length_app; simpl. lia.
  - rewrite length_take. lia.
  - rewrite length_take. lia.
  - intros [|k] slot Hk; simpl in *; [by simplify_eq|].
    rewrite fmap_app, reverse_app. simpl.
    apply lookup_take_Some in Hk as [Hk _]. by apply Hsl.
Qed.

(** *** Accepting a transaction *)

Lemma spent_inputs_from_spec a tx offset n :
  offset + n ≤ length (m_spent a) →
  ∃ X, spent_inputs_from a tx offset n = Ret X ∧
    ∀ x, x ∈ X ↔ x ∈ compact_tx.m_inputs tx ∧
      ∃ k slot, offset ≤ k < offset + n ∧ m_spent a !! k = Some slot ∧ x ∈ slot.
Proof.
  revert offset. induction n as [|n IH]; intros offset Hn; simpl.
  { exists ∅. split; [done|]. intros x. split; [set_solver|].
    intros (_ & k & _ & ? & _). lia. }
  destruct (lookup_lt_is_Some_2 (m_spent a) offset) as [slot Hs]; [lia|].
  rewrite (at_index_some _ _ _ Hs). cbn [obind].
  destruct (IH (S offset)) as (X & -> & HX); [lia|]. cbn [obind].
  eexists. split; [done|]. intros x.
  rewrite elem_of_union, elem_of_list_to_set, list_elem_of_filter, HX. split.
  - intros [[Hx Hi]|(Hi & k & sl & Hk & Hsl & Hx)].
    + split; [done|]. exists offset, slot. split_and!; [lia|lia|done|done].
    + split; [done|]. exists k, sl. split_and!; [lia|lia|done|done].
  - intros (Hi & k & sl & Hk & Hsl & Hx). destruct (decide (k = offset)) as [->|].
    + left. by simplify_eq.
    + right. split; [done|]. exists k, sl. split_and!; [lia|lia|done|done].
Qed.

(** Attested inputs: each was unspent at some height from [h] on. *)
Definition honest (U0 : gset hash_t) (blocks : list (list compact_tx.t)) (h : Z)
    (tx : compact_tx.t) : Prop :=
  (0 ≤ h ≤ Z.of_nat (length blocks))%Z ∧
  ∀ x, x ∈ compact_tx.m_inputs tx →
    ∃ k, (h ≤ Z.of_nat k)%Z ∧ k ≤ length blocks ∧ x ∈ uhs_at U0 blocks k.

(** The slots up to offset [length blocks - h] hold every input consumed
    after height [h]. *)
Lemma slots_cover pending blocks h x :
  x ∈ all_inputs (concat (drop h blocks) ++ pending) →
  ∃ k sl, k ≤ length blocks - h ∧ slots pending blocks !! k = Some sl ∧ x ∈ sl.
Proof.
  intros (tx & Htx & Hx)%elem_of_all_inputs.
  apply elem_of_app in Htx as [Hc|Hp].
  - apply list_elem_of_In, in_concat in Hc as (b & Hb & Htx).
    apply list_elem_of_In in Hb, Htx.
    apply list_elem_of_lookup in Hb as [i Hi]. rewrite lookup_drop in Hi.
    pose proof (lookup_lt_Some _ _ _ Hi).
    exists (length blocks - (h + i)), (all_inputs b). split_and!; [lia| |].
    + replace (length blocks - (h + i)) with (S (length blocks - S (h + i))) by lia.
      simpl. rewrite reverse_lookup by (rewrite length_fmap; lia).
      rewrite length_fmap, list_lookup_fmap.
      replace (length blocks - S (length blocks - S (h + i))) with (h + i) by lia.
      by rewrite Hi.
    + apply elem_of_all_inputs. eauto.
  - exists 0, (all_inputs pending). split_and!; [lia|done|].
    apply elem_of_all_inputs. eauto.
Qed.

Lemma insert_complete_spec U0 blocks a h tx :
  atm_inv blocks a → (Z.of_nat (length blocks) < 2 ^ 63)%Z →
  honest U0 blocks h tx →
  ∃ a' r, insert_complete a h tx = Ret (a', r) ∧ atm_inv blocks a' ∧
    match r with
    | Some e => a' = a ∧ m_tx_id e = compact_tx.m_id tx
    | None =>
        m_complete_txs a' = m_complete_txs a ++ [tx] ∧
        ∀ x, x ∈ compact_tx.m_inputs tx →
          x ∈ uhs_after U0 (concat blocks ++ m_complete_txs a)
    end.
Proof.
  intros [Hh Ht Hs Hsl] Hb [Hrange Hatt].
  unfold insert_complete, get_notification_offset.
  rewrite Hh, sub64_exact by (unfold is_u64; lia).
  set (off := (Z.of_nat (length blocks) - h)%Z).
  unfold check_notification_offset.
  destruct (decide (compact_tx.m_inputs tx = [])) as [Hnil|Hne].
  { rewrite bool_decide_true, andb_false_r by done.
    unfold check_stxo_cache. rewrite Hnil. cbn [obind].
    unfold add_tx_to_stxo_cache. destruct (m_spent a) as [|s0 rest] eqn:Es; [done|].
    cbn [obind]. rewrite Hnil. eexists _, None. split; [reflexivity|].
    split; [|split; [done|by intros x ?%elem_of_nil]].
    constructor; simpl; [done|done|done|].
    intros [|k] slot Hk; simpl in *; simplify_eq; [|apply (Hsl (S k) slot Hk)].
    rewrite (Hsl 0 s0 eq_refl). simpl. unfold all_inputs.
    rewrite bind_app. simpl. rewrite Hnil, app_nil_r. set_solver. }
  rewrite bool_decide_false, andb_true_r by done.
  destruct (Z.ltb_spec (Z.of_nat (m_spent_cache_depth a)) off) as [Hbig|Hsmall].
  { eexists _, _. split; [done|]. split; [by constructor|done]. }
  unfold check_stxo_cache.
  destruct (compact_tx.m_inputs tx) as [|i0 il] eqn:Ein; [done|].
  destruct (spent_inputs_from_spec a tx 0 (S (Z.to_nat off)))
    as (X & -> & HX); [lia|]. cbn [obind].
  case_decide as HXe.
  2:{ eexists _, _. split; [done|]. split; [by constructor|done]. }
  unfold add_tx_to_stxo_cache. destruct (m_spent a) as [|s0 rest] eqn:Es; [done|].
  cbn [obind]. eexists _, None. split; [reflexivity|]. split; [|split; [done|]].
  - constructor; simpl; [done|done|done|].
    intros [|k] slot Hk; simpl in *; simplify_eq; [|apply (Hsl (S k) slot Hk)].
    rewrite (Hsl 0 s0 eq_refl). simpl. unfold all_inputs.
    rewrite bind_app, list_to_set_app_L. simpl. rewrite Ein, app_nil_r. set_solver.
  - intros x Hx. rewrite <- Ein in Hx.
    destruct (Hatt x) as (k & Hk1 & Hk2 & Hu); [by rewrite <- Ein|].
    rewrite <- (take_drop k blocks), concat_app, <- (assoc_L (++)), uhs_after_app.
    apply uhs_after_keeps; [exact Hu|]. intros Hsp.
    apply slots_cover in Hsp as (j & sl & Hj & Hslj & Hxs).
    destruct (lookup_lt_is_Some_2 (m_spent a) j) as [slot Hslot].
    { rewrite Es. simpl in *. lia. }
    assert (x ∈ X) as HxX; [|set_solver]. apply HX. split; [done|].
    exists j, slot. split_and!; [lia|lia|by rewrite <- Es|].
    rewrite Es in Hslot. by rewrite (Hsl j slot Hslot), Hslj.
Qed.

End atomizer_lemmas.

(** ** Aggregated notifications are honest *)

Module raft_lemmas.
Import atomizer_raft atomizer_lemmas.

Lemma oldest_of_from hs acc :
  Forall (λ h, 1 ≤ h)%Z hs → (1 ≤ acc)%Z →
  let r := foldl (λ oldest h, if (oldest =? 0)%Z || (h <? oldest)%Z then h
                              else oldest) acc hs in
  (1 ≤ r ≤ acc)%Z ∧ r ∈ acc :: hs ∧ Forall (λ h, r ≤ h)%Z hs.
Proof.
  revert acc. induction hs as [|h hs IH]; intros acc Hf Ha; simpl.
  { split_and!; [lia|lia|left|constructor]. }
  inversion_clear Hf as [|?? Hh Hf'].
  replace (acc =? 0)%Z with false by (symmetry; apply Z.eqb_neq; lia). simpl.
  destruct (Z.ltb_spec h acc) as [Hlt|Hge].
  - destruct (IH h Hf' Hh) as ([? ?] & Hin & Hall).
    split_and!; [lia|lia| |constructor; [lia|done]].
    apply elem_of_cons in Hin as [->|Hin]; rewrite !elem_of_cons; auto.
  - destruct (IH acc Hf' Ha) as ([? ?] & Hin & Hall).
    split_and!; [lia|lia| |constructor; [lia|done]].
    apply elem_of_cons in Hin as [->|Hin]; rewrite !elem_of_cons; auto.
Qed.

Lemma oldest_of_spec hs :
  Forall (λ h, 1 ≤ h)%Z hs → hs ≠ [] →
  oldest_of hs ∈ hs ∧ Forall (λ h, oldest_of hs ≤ h)%Z hs.
Proof.
  destruct hs as [|h hs]; [done|]. intros Hf _. unfold oldest_of; simpl.
  inversion_clear Hf as [|?? Hh Hf'].
  destruct (oldest_of_from hs h Hf' Hh) as ([? ?] & Hin & Hall).
  split; [done|]. constructor; [lia|done].
Qed.

Lemma add_attestations_lookup atts ns height i k :
  add_attestations atts ns height !! i = Some k →
  atts !! i = Some k ∨ (i ∈ ns ∧ k = height).
Proof.
  unfold add_attestations.
  assert (∀ l, (∀ n, n ∈ l → n ∈ ns) →
    foldl (λ m n, add_attestation m n height) atts l !! i = Some k →
    atts !! i = Some k ∨ i ∈ ns ∧ k = height) as Hl.
  { intros l. revert atts. induction l as [|n l IH]; intros atts Hsub; simpl;
      [by left|].
    intros E. apply IH in E as [E|?]; [|by right|by intros; apply Hsub; right].
    unfold add_attestation in E. destruct (atts !! n) eqn:En; [by left|].
    apply lookup_insert_Some in E as [[<- <-]|[_ ?]]; [|by left].
    right. split; [apply Hsub; left|done]. }
  apply Hl. intros n. apply elem_of_elements.
Qed.

(** The indices a complete notification attests to are all the inputs. *)
Lemma full_attestations {A} (atts : gmap Z A) n :
  (∀ i, is_Some (atts !! i) → (0 ≤ i < Z.of_nat n)%Z) → size atts = n →
  ∀ j, j < n → is_Some (atts !! Z.of_nat j).
Proof.
  intros Hdom Hsz j Hj. apply elem_of_dom.
  assert (dom atts = (list_to_set (Z.of_nat <$> seq 0 n) : gset Z)) as ->.
  { apply set_subseteq_size_eq.
    - intros i Hi%elem_of_dom%Hdom. apply elem_of_list_to_set, list_elem_of_fmap.
      exists (Z.to_nat i). split; [lia|]. apply elem_of_seq. lia.
    - rewrite size_dom, Hsz, size_list_to_set.
      + by rewrite length_fmap, length_seq.
      + apply NoDup_fmap_2; [|apply NoDup_seq]. intros ?? ?. lia. }
  apply elem_of_list_to_set, list_elem_of_fmap. exists j. split; [done|].
  apply elem_of_seq. lia.
Qed.

Section Inv.
Context `{Hasher} `{Secp256k1}.
Variables (U0 : gset hash_t) (inputs_of : hash_t → list hash_t).

(** A shard attests at its block height that inputs were unspent; the id of
    a transaction determines its inputs. *)
Definition honest_attestation (blocks : list (list compact_tx.t))
    (inputs : list hash_t) (i k : Z) : Prop :=
  (0 ≤ i < Z.of_nat (length inputs))%Z ∧
  (1 ≤ k ≤ Z.of_nat (length blocks))%Z ∧
  ∃ x, inputs !! Z.to_nat i = Some x ∧ x ∈ uhs_at U0 blocks (Z.to_nat k).

Definition honest_notification (blocks : list (list compact_tx.t))
    (n : tx_notify_request) : Prop :=
  compact_tx.m_inputs (n_tx n) = inputs_of (compact_tx.m_id (n_tx n)) ∧
  ∀ i, i ∈ n_attestations n →
    honest_attestation blocks (compact_tx.m_inputs (n_tx n)) i (n_block_height n).

Record raft_inv (blocks : list (list compact_tx.t)) (s : t) : Prop := {
  raft_pending id tx atts :
    m_txs s !! id = Some (tx, atts) →
    compact_tx.m_inputs tx = inputs_of id ∧
    ∀ i k, atts !! i = Some k →
      honest_attestation blocks (inputs_of id) i k;
  raft_complete :
    Forall (λ agg, honest U0 blocks (m_oldest_attestation agg) (m_tx agg))
      (m_complete_txs s)
}.

Lemma honest_attestation_app blocks bs inputs i k :
  honest_attestation blocks inputs i k →
  honest_attestation (blocks ++ bs) inputs i k.
Proof.
  intros (? & ? & x & ? & ?). split_and!; [lia|lia|lia|rewrite length_app; lia|].
  exists x. split; [done|]. rewrite uhs_at_app by lia. done.
Qed.

Lemma honest_app blocks bs h tx :
  honest U0 blocks h tx → honest U0 (blocks ++ bs) h tx.
Proof.
  intros [? Hx]. split; [rewrite length_app; lia|]. intros x Hi.
  destruct (Hx x Hi) as (k & ? & ? & ?). exists k.
  split_and!; [done|rewrite length_app; lia|]. by rewrite uhs_at_app.
Qed.

Lemma raft_inv_app blocks bs s : raft_inv blocks s → raft_inv (blocks ++ bs) s.
Proof.
  intros [Hp Hc]. constructor.
  - intros id tx atts Hl. destruct (Hp _ _ _ Hl) as [? Ha]. split; [done|].
    intros i k Hi. by apply honest_attestation_app, Ha.
  - eapply Forall_impl; [exact Hc|]. intros agg. apply honest_app.
Qed.

(** A transaction all of whose inputs are attested is honest at the oldest
    attestation. *)
Lemma aggregate_honest blocks tx (atts : gmap Z Z) :
  (∀ i k, atts !! i = Some k →
     honest_attestation blocks (compact_tx.m_inputs tx) i k) →
  size atts = length (compact_tx.m_inputs tx) →
  honest U0 blocks (oldest_of (map_to_list atts).*2) tx.
Proof.
  intros Ha Hsz. set (hs := (map_to_list atts).*2).
  assert (Forall (λ h, 1 ≤ h ≤ Z.of_nat (length blocks))%Z hs) as Hhs.
  { apply Forall_fmap, Forall_forall. intros [i k] Hik%elem_of_map_to_list. simpl.
    by destruct (Ha _ _ Hik) as (_ & ? & _). }
  destruct (decide (hs = [])) as [Hnil|Hne].
  { rewrite Hnil. assert (compact_tx.m_inputs tx = []) as Hin.
    { apply nil_length_inv. rewrite <- Hsz, <- length_map_to_list.
      rewrite <- (length_fmap snd). fold hs. by rewrite Hnil. }
    split; [unfold oldest_of; simpl; lia|]. rewrite Hin. by intros x ?%elem_of_nil. }
  destruct (oldest_of_spec hs) as [Hin Hle]; [|done|].
  { eapply Forall_impl; [exact Hhs|]. simpl; lia. }
  apply (proj1 (Forall_forall _ _) Hhs) in Hin as Hr. simpl in Hr.
  split; [lia|]. intros x Hx. apply list_elem_of_lookup in Hx as [j Hj].
  destruct (full_attestations atts (length (compact_tx.m_inputs tx)))
    with (j := j) as [k Hk].
  { intros i [k Hk]. by destruct (Ha _ _ Hk) as (? & _). }
  { done. }
  { by eapply lookup_lt_Some. }
  destruct (Ha _ _ Hk) as (_ & Hkr & x' & Hx' & Hu).
  rewrite Nat2Z.id in Hx'. simplify_eq. exists (Z.to_nat k).
  assert (oldest_of hs ≤ k)%Z.
  { apply (proj1 (Forall_forall _ _) Hle). unfold hs.
    apply list_elem_of_fmap. exists (Z.of_nat j, k). split; [done|].
    by apply elem_of_map_to_list. }
  split_and!; [lia|lia|done].
Qed.

Lemma tx_notify_inv blocks s n :
  raft_inv blocks s → honest_notification blocks n → raft_inv blocks (tx_notify s n).
Proof.
  intros [Hp Hc] [Hid Hn]. unfold tx_notify.
  destruct (negb _); [by constructor|].
  set (entry := match m_txs s !! compact_tx.m_id (n_tx n) with
                | Some (tx, atts) => _ | None => _ end).
  assert (compact_tx.m_inputs entry.1 = inputs_of (compact_tx.m_id (n_tx n)) ∧
    ∀ i k, entry.2 !! i = Some k →
      honest_attestation blocks (inputs_of (compact_tx.m_id (n_tx n))) i k)
    as [Hin Hatt].
  { unfold entry. rewrite Hid in Hn.
    destruct (m_txs s !! _) as [[tx atts]|] eqn:E; simpl.
    - destruct (Hp _ _ _ E) as [? Ha]. split; [done|].
      intros i k [?|[? ->]]%add_attestations_lookup; auto.
    - split; [done|].
      intros i k [Hk|[? ->]]%add_attestations_lookup; [|auto].
      by rewrite lookup_empty in Hk. }
  clearbody entry. case_decide as Hsz.
  - constructor; simpl; [|done]. intros id tx atts
      [[<- ->]|[_ Hl]]%lookup_insert_Some; [done|by eapply Hp].
  - constructor; simpl.
    + intros id tx atts [_ Hl]%lookup_delete_Some. by eapply Hp.
    + apply Forall_app. split; [done|]. constructor; [|constructor]. simpl.
      apply aggregate_honest; [by rewrite Hin|done].
Qed.

End Inv.
End raft_lemmas.

(** ** The atomizer as a system *)

Section System.
Context `{Hasher} `{Secp256k1}.
Variables (U0 : gset hash_t) (inputs_of : hash_t → list hash_t).
Import atomizer_lemmas raft_lemmas.

(** The aggregation front end, the aggregates in flight to the replicated
    log, the atomizer and the blocks made so far. *)
Record atm_system := sys {
  s_raft : atomizer_raft.t;
  s_inflight : list aggregate_tx_notification;
  s_atomizer : atomizer.t;
  s_blocks : list (list compact_tx.t)
}.

(** Every transaction settled or pending, in order. *)
Definition settled_txs (s : atm_system) : list compact_tx.t :=
  concat (s_blocks s) ++ atomizer.m_complete_txs (s_atomizer s).

(** The leader replicates aggregates, the state machine inserts them in any
    order, and blocks are made.  Accepted transactions create new hashes. *)
Inductive core_step : atm_system → atm_system → Prop :=
| atm_send r fl a bs r' l :
    atomizer_raft.send_complete_txs r = (r', Some (aggregate_tx_notify_request l)) →
    core_step (sys r fl a bs) (sys r' (fl ++ l) a bs)
| atm_insert r fl1 agg fl2 a bs a' res :
    atomizer.insert_complete a (m_oldest_attestation agg) (m_tx agg) =
      Ret (a', res) →
    (res = None → outs everything (m_tx agg) ##
       uhs_after U0 (settled_txs (sys r (fl1 ++ agg :: fl2) a bs))) →
    core_step (sys r (fl1 ++ agg :: fl2) a bs) (sys r (fl1 ++ fl2) a' bs)
| atm_make_block r fl a bs a' blk errs :
    (Z.of_nat (length bs) < 2 ^ 63 - 1)%Z →
    atomizer.make_block a = Ret (a', blk, errs) →
    core_step (sys r fl a bs) (sys r fl a' (bs ++ [m_transactions blk])).

(** Besides, shards send honest notifications. *)
Inductive atm_step : atm_system → atm_system → Prop :=
| atm_notify r fl a bs n :
    honest_notification U0 inputs_of bs n →
    atm_step (sys r fl a bs) (sys (atomizer_raft.tx_notify r n) fl a bs)
| atm_core s s' : core_step s s' → atm_step s s'.

Record atm_sys_inv (s : atm_system) : Prop := {
  asi_bound : (Z.of_nat (length (s_blocks s)) < 2 ^ 63)%Z;
  asi_raft : raft_inv U0 inputs_of (s_blocks s) (s_raft s);
  asi_flight :
    Forall (λ agg, honest U0 (s_blocks s) (m_oldest_attestation agg) (m_tx agg))
      (s_inflight s);
  asi_atm : atm_inv (s_blocks s) (s_atomizer s);
  asi_run : uhs_run everything U0 (settled_txs s) (uhs_after U0 (settled_txs s))
}.

Lemma uhs_run_snoc own U txs U' tx :
  uhs_run own U txs U' → ins own tx ⊆ U' → outs own tx ## U' →
  uhs_run own U (txs ++ [tx]) (uhs_apply own U' tx).
Proof. intros. eapply uhs_run_app; [done|]. eauto with cbdc. Qed.

Lemma atm_step_inv s s' : atm_step s s' → atm_sys_inv s → atm_sys_inv s'.
Proof.
  intros [r fl a bs n Hn|s1 s2 Hst] [Hb Hr Hf Ha Hrun]; simpl in *.
  { constructor; simpl; try done. by apply tx_notify_inv. }
  destruct Hst as [r fl a bs r' l E|r fl1 agg fl2 a bs a' res E Ho
    |r fl a bs a' blk errs Hlt E]; simpl in *.
  - destruct Hr as [Hp Hc]. unfold atomizer_raft.send_complete_txs in E.
    destruct (atomizer_raft.m_complete_txs r) eqn:Ec; [done|].
    injection E as <- <-.
    constructor; simpl; [done| |by apply Forall_app|done|done].
    constructor; simpl; [exact Hp|constructor].
  - apply Forall_app in Hf as [Hf1 Hf2]. inversion_clear Hf2 as [|?? Hagg Hf2'].
    destruct (insert_complete_spec U0 bs a (m_oldest_attestation agg) (m_tx agg))
      as (a1 & r1 & E1 & Hinv & Hres); [done|done|done|].
    rewrite E1 in E. simplify_eq. constructor; simpl; try done.
    { by apply Forall_app. }
    unfold settled_txs in *; simpl in *. destruct res as [e|].
    { by destruct Hres as [-> _]. }
    destruct Hres as [-> Hin]. rewrite (assoc_L (++)), uhs_after_app. simpl.
    apply uhs_run_snoc; [done| |by apply Ho].
    intros x [_ Hx]%elem_of_owned. by apply Hin.
  - destruct (make_block_spec bs a Ha Hb) as (a1 & b1 & e1 & E1 & _ & Htx & Hc & Hi).
    rewrite E1 in E. simplify_eq. constructor; simpl.
    + rewrite length_app; simpl. lia.
    + by apply raft_inv_app.
    + eapply Forall_impl; [exact Hf|]. intros agg. apply honest_app.
    + by rewrite Htx.
    + unfold settled_txs in *; simpl in *.
      by rewrite Hc, app_nil_r, Htx, concat_app; simpl; rewrite app_nil_r.
Qed.

Definition atm_init (keys : gset pubkey_t) (threshold depth : nat) : atm_system :=
  sys (atomizer_raft.mk ∅ [] keys threshold) [] (atomizer.init 0 depth) [].

Lemma atm_init_inv keys threshold depth :
  atm_sys_inv (atm_init keys threshold depth).
Proof.
  constructor; simpl; [lia| |constructor|apply init_atm_inv|constructor].
  constructor; simpl; [|constructor]. intros id tx atts Hl.
  by rewrite lookup_empty in Hl.
Qed.

Lemma atm_reachable_inv s s' :
  rtc atm_step s s' → atm_sys_inv s → atm_sys_inv s'.
Proof. induction 1; eauto using atm_step_inv. Qed.

(** C5: the atomizer never settles a double spend.  In every reachable state
    of the system, the transactions of all blocks and the pending ones form
    a valid run of the abstract unspent set: each spent only unspent hashes,
    although its attestations may be as old as the spent cache allows.  The
    next insertion and the next block are always defined. *)
Theorem atomizer_refines_uhs keys threshold depth s :
  rtc atm_step (atm_init keys threshold depth) s →
  uhs_run everything U0 (settled_txs s) (uhs_after U0 (settled_txs s)) ∧
  (∀ agg, agg ∈ s_inflight s →
     is_ret (atomizer.insert_complete (s_atomizer s) (m_oldest_attestation agg)
       (m_tx agg))) ∧
  is_ret (atomizer.make_block (s_atomizer s)).
Proof.
  intros Hr. destruct (atm_reachable_inv _ _ Hr (atm_init_inv _ _ _))
    as [Hb _ Hf Ha Hrun]. split_and!; [done| |].
  - intros agg Hin. apply (proj1 (Forall_forall _ _) Hf) in Hin.
    destruct (insert_complete_spec U0 _ _ _ _ Ha Hb Hin) as (a' & r & -> & _).
    by eexists.
  - destruct (make_block_spec _ _ Ha Hb) as (a' & blk & e & -> & _). by eexists.
Qed.

End System.

(** ** The block store of the state machine *)

Module atm_sm_lemmas.
Import atomizer_sm atomizer_lemmas.

(** Commit a sequence of requests with consecutive log indices. *)
Fixpoint run (s : t) (reqs : list atomizer_request)
    : outcome (t * list (option atomizer_response)) :=
  match reqs with
  | [] => Ret (s, [])
  | req :: reqs =>
      let! '(s1, r) := commit s (add64 (m_last_committed_idx s) 1) req in
      let! '(s2, rs) := run s1 reqs in Ret (s2, r :: rs)
  end.

(** The blocks among the answers. *)
Definition made (rs : list (option atomizer_response)) : list block :=
  omap (λ r, match r with Some (make_block_response b _) => Some b | _ => None end)
    rs.

(** Blocks made so far, numbered from 1; the store holds some of them, each
    under its own height. *)
Record store_inv (blocks : list block) (s : t) : Prop := {
  si_best : atomizer.m_best_height (m_atomizer s) = Z.of_nat (length blocks);
  si_heights i b : blocks !! i = Some b → m_height b = Z.of_nat (S i);
  si_store h b : m_blocks s !! h = Some b →
    (1 ≤ h)%Z ∧ blocks !! pred (Z.to_nat h) = Some b ∧ m_height b = h
}.

Lemma insert_all_best a msgs a' errs :
  insert_all a msgs = Ret (a', errs) →
  atomizer.m_best_height a' = atomizer.m_best_height a.
Proof.
  revert a a' errs. induction msgs as [|msg msgs IH]; intros a a' errs E; simpl in E.
  { by simplify_eq. }
  destruct (atomizer.insert_complete a _ _) as [[a1 r]|] eqn:E1; [|done].
  simpl in E. destruct (insert_all a1 msgs) as [[a2 es]|] eqn:E2; [|done].
  simpl in E. simplify_eq. rewrite (IH _ _ _ E2).
  unfold atomizer.insert_complete, atomizer.add_tx_to_stxo_cache, obind in E1.
  repeat case_match; by simplify_eq/=.
Qed.

Lemma commit_store blocks s idx req s' r :
  store_inv blocks s → (Z.of_nat (length blocks) < 2 ^ 64 - 1)%Z →
  commit s idx req = Ret (s', r) → store_inv (blocks ++ made [r]) s'.
Proof.
  intros [Hb Hh Hs] Hlt E. unfold commit in E. destruct (negb _); [done|].
  destruct req as [msgs| |h|h]; simpl in E.
  - destruct (insert_all _ msgs) as [[a errs]|] eqn:Ei; [|done]. simpl in E.
    simplify_eq. replace (made _) with (@nil block) by (by destruct errs).
    rewrite app_nil_r. constructor; simpl; [|done|done].
    by rewrite (insert_all_best _ _ _ _ Ei).
  - destruct (atomizer.make_block _) as [[[a blk] errs]|] eqn:Em; [|done].
    simpl in E. simplify_eq. simpl. unfold atomizer.make_block in Em.
    destruct (at_index _ _) as [o|]; [|done]. simpl in Em. simplify_eq. simpl.
    rewrite Hb, add64_exact in * by (unfold is_u64; lia).
    constructor; simpl.
    + rewrite length_app; simpl. lia.
    + intros i b [Hi|[Hi1 Hi2]]%lookup_app_Some; [by apply Hh|].
      destruct (i - length blocks) as [|j] eqn:Ej; simplify_eq/=. lia.
    + intros h' b Hl.
      assert (m_blocks s !! h' = Some b ∨ (h' = (Z.of_nat (length blocks) + 1)%Z ∧
        b = {| m_height := (Z.of_nat (length blocks) + 1)%Z;
               m_transactions := atomizer.m_complete_txs (m_atomizer s) |}))
        as [Hold|[-> ->]].
      { case_match; [by left|].
        apply lookup_insert_Some in Hl as [[<- <-]|[_ ?]]; auto. }
      * destruct (Hs _ _ Hold) as (? & Hl' & ?). split_and!; [done| |done].
        by apply lookup_app_l_Some.
      * split_and!; [lia| |done].
        replace (pred _) with (length blocks) by lia. by apply list_lookup_middle.
  - simplify_eq. simpl. destruct (m_blocks s !! h); simpl;
      rewrite app_nil_r; by constructor.
  - simplify_eq. simpl. rewrite app_nil_r. constructor; simpl; [done|done|].
    intros h' b [Hl _]%map_lookup_filter_Some. by apply Hs.
Qed.

Lemma run_store blocks s reqs s' rs :
  store_inv blocks s →
  (Z.of_nat (length blocks + length reqs) < 2 ^ 64 - 1)%Z →
  run s reqs = Ret (s', rs) → store_inv (blocks ++ made rs) s'.
Proof.
  revert blocks s rs. induction reqs as [|req reqs IH];
    intros blocks s rs Hinv Hlt E; simpl in E.
  { simplify_eq. by rewrite app_nil_r. }
  destruct (commit s _ req) as [[s1 r]|] eqn:Ec; [|done]. simpl in E.
  destruct (run s1 reqs) as [[s2 rs2]|] eqn:Er; [|done]. simpl in E. simplify_eq.
  simpl in Hlt. assert (length (made [r]) ≤ 1) as Hm.
  { unfold made. simpl. repeat case_match; simpl; lia. }
  change (r :: rs2) with ([r] ++ rs2). unfold made. rewrite omap_app.
  fold (made [r]) (made rs2). rewrite (assoc_L (++)).
  eapply IH; [|rewrite length_app; lia|exact Er].
  eapply commit_store; [done|lia|exact Ec].
Qed.

End atm_sm_lemmas.

(** C26: the replicated block store is a numbered chain.  Over any sequence
    of requests the blocks are made with heights 1, 2, 3, ..., and a later
    [get_block] returns nothing but the block that was made at that
    height. *)
Theorem block_store_is_chain depth reqs s rs :
  atm_sm_lemmas.run (atomizer_sm.init depth) reqs = Ret (s, rs) →
  (Z.of_nat (length reqs) < 2 ^ 64 - 1)%Z →
  (∀ i b, atm_sm_lemmas.made rs !! i = Some b → m_height b = Z.of_nat (S i)) ∧
  (∀ h idx b s', atomizer_sm.commit s idx (get_block_request h) =
       Ret (s', Some (get_block_response b)) →
     m_height b = h ∧ atm_sm_lemmas.made rs !! pred (Z.to_nat h) = Some b).
Proof.
  intros Hrun Hlt.
  assert (atm_sm_lemmas.store_inv [] (atomizer_sm.init depth)) as H0.
  { constructor; simpl; [done|done|]. intros h b Hl. by rewrite lookup_empty in Hl. }
  pose proof (atm_sm_lemmas.run_store _ _ _ _ _ H0 Hlt Hrun) as [_ Hh Hs].
  split; [done|]. intros h idx b s' E. unfold atomizer_sm.commit in E.
  destruct (negb _); [done|].
  destruct (atomizer_sm.m_blocks s !! h) eqn:El; simplify_eq/=.
  by destruct (Hs _ _ El) as (_ & ? & ?).
Qed.

(** ** An example run *)

Module atm_example.
Import atomizer_lemmas.

Definition coin : hash_t := [x01].
Definition spend : compact_tx.t := compact_tx.mk [xa0] [coin] [[x02]] ∅.

(** One attestation of the only input, made at height 1. *)
Definition notification : tx_notify_request :=
  {| n_tx := spend; n_attestations := {[ 0%Z ]}; n_block_height := 1%Z |}.

Definition inputs_of (_ : hash_t) : list hash_t := [coin].

End atm_example.

Section AtomizerWitnesses.
Import Toy atomizer_lemmas raft_lemmas atm_example.

Lemma example_notification_honest :
  honest_notification {[ coin ]} inputs_of [[]] notification.
Proof.
  split; [done|]. intros i Hi. change (i ∈ ({[ 0%Z ]} : gset Z)) in Hi.
  apply elem_of_singleton in Hi as ->. split_and!; simpl; try lia.
  exists coin. split; [done|]. by apply elem_of_singleton.
Qed.

(** An empty block, a notification, its replication, its insertion and the
    block that settles it. *)
Lemma example_run :
  ∃ s, rtc (atm_step {[ coin ]} inputs_of) (atm_init ∅ 0 2) s ∧
    settled_txs s = [spend].
Proof.
  eexists. split.
  - unfold atm_init.
    eapply rtc_l. { eapply atm_core, atm_make_block; [simpl; lia|]. reflexivity. }
    eapply rtc_l. { eapply atm_notify. exact example_notification_honest. }
    eapply rtc_l. { eapply atm_core, atm_send. vm_compute. reflexivity. }
    eapply rtc_l.
    { eapply atm_core, (atm_insert _ _ _ _ []). { vm_compute. reflexivity. }
      intros _. compute_decide. }
    eapply rtc_l; [|apply rtc_refl].
    eapply atm_core, atm_make_block; [simpl; lia|]. vm_compute. reflexivity.
  - reflexivity.
Qed.

Lemma atomizer_refines_uhs_witness :
  ∃ s, settled_txs s = [spend] ∧
    uhs_run everything {[ coin ]} [spend] (uhs_after {[ coin ]} [spend]) ∧
    is_ret (atomizer.make_block (s_atomizer s)).
Proof.
  destruct example_run as (s & Hr & Hs). exists s. split; [done|].
  destruct (atomizer_refines_uhs {[ coin ]} inputs_of ∅ 0 2 s Hr) as (H1 & _ & H2).
  rewrite Hs in H1. split; [exact H1|exact H2].
Defined.

Lemma block_store_is_chain_witness :
  ∃ s rs, length (atm_sm_lemmas.made rs) = 2 ∧
    (∀ i b, atm_sm_lemmas.made rs !! i = Some b → m_height b = Z.of_nat (S i)) ∧
    (∀ h idx b s', atomizer_sm.commit s idx (get_block_request h) =
       Ret (s', Some (get_block_response b)) →
     m_height b = h ∧ atm_sm_lemmas.made rs !! pred (Z.to_nat h) = Some b).
Proof.
  assert (∃ s rs, atm_sm_lemmas.run (atomizer_sm.init 2)
    [make_block_request;
     aggregate_tx_notify_request [{| m_tx := spend; m_oldest_attestation := 1 |}];
     make_block_request; prune_request 2] = Ret (s, rs) ∧
    length (atm_sm_lemmas.made rs) = 2) as (s & rs & Hrun & Hlen).
  { eexists _, _. split; [vm_compute; reflexivity|reflexivity]. }
  exists s, rs. split; [exact Hlen|].
  apply (block_store_is_chain 2 _ s rs Hrun). simpl. lia.
Defined.

End AtomizerWitnesses.
