(* ===== verification/AtomizerShard.v ===== *)
(** * Shards of the atomizer architecture

    Model of [src/uhs/atomizer/shard/shard.{hpp,cpp}], the shard's database of
    unspent hashes, and of the block and transaction handlers of
    [controller.cpp].  The database is a parameter, see LevelDB.  The last
    section composes shards with the atomizer. *)

From Stdlib Require Import ZArith Lia.
From Stdlib.Strings Require Import Byte.
From stdpp Require Import base tactics numbers gmap sets list.
From S2P Require Import Prelude LevelDB Serialization Crypto Transaction Validation.
From S2P Require Import UhsSpec LockingShard Atomizer.
Open Scope cbdc_scope.

(** ** The shard *)

(** ["bestBlockHeight"] *)
Definition m_best_block_height_key : list byte :=
  [x62; x65; x73; x74; x42; x6c; x6f; x63; x6b; x48; x65; x69; x67; x68; x74].

Module shard.

Record t (db : Type) := mk {
  m_db : db;
  m_best_block_height : Z;
  m_snp : db;
  m_snp_height : Z;
  m_prefix_range : Z * Z
}.
Arguments mk {db}.
Arguments m_db {db}.
Arguments m_best_block_height {db}.
Arguments m_snp {db}.
Arguments m_snp_height {db}.
Arguments m_prefix_range {db}.

Section Ops.
Context {db : Type} `{LevelDB db}.

Definition update_snapshot (s : t db) : t db :=
  mk (m_db s) (m_best_block_height s) (m_db s) (m_best_block_height s)
    (m_prefix_range s).

(** [open_db] once the database is open: read the best height or start at
    zero; a stored height of the wrong size fails the assertion. *)
Definition open_db (prefix_range : Z * Z) (d : db) : outcome (t db) :=
  match db_get d m_best_block_height_key with
  | None =>
      let d' := db_write d [Put m_best_block_height_key (le_bytes 8 0)] in
      Ret (update_snapshot (mk d' 0 d' 0 prefix_range))
  | Some bs =>
      if decide (length bs = 8)
      then Ret (update_snapshot (mk d (le_val bs) d 0 prefix_range))
      else Fatal
  end.

Definition is_output_on_shard (s : t db) (uhs_hash : hash_t) : bool :=
  hash_in_shard_range (m_prefix_range s) uhs_hash.

(** The updates of one transaction: its outputs, then its inputs. *)
Definition tx_updates (s : t db) (tx : compact_tx.t) : list batch_op :=
  ((λ out, Put out []) <$>
     filter (λ h, is_output_on_shard s h = true) (compact_tx.m_uhs_outputs tx)) ++
  (Delete <$>
     filter (λ h, is_output_on_shard s h = true) (compact_tx.m_inputs tx)).

Definition digest_block (s : t db) (blk : block) : t db * bool :=
  if negb (m_height blk =? add64 (m_best_block_height s) 1)%Z then (s, false) else
  let best := add64 (m_best_block_height s) 1 in
  let batch := (m_transactions blk ≫= tx_updates s) ++
               [Put m_best_block_height_key (le_bytes 8 best)] in
  (update_snapshot
     (mk (db_write (m_db s) batch) best (m_snp s) (m_snp_height s)
        (m_prefix_range s)), true).

(** The loop over the inputs from index [i]: the attested indices and the
    inputs that do not exist. *)
Fixpoint check_inputs (s : t db) (i : Z) (inputs : list hash_t)
    : gset Z * list hash_t :=
  match inputs with
  | [] => (∅, [])
  | inp :: inputs =>
      let (attestations, dne_inputs) := check_inputs s (i + 1) inputs in
      if negb (is_output_on_shard s inp) then (attestations, dne_inputs)
      else match db_get (m_snp s) inp with
           | None => (attestations, inp :: dne_inputs)
           | Some _ => ({[ i ]} ∪ attestations, dne_inputs)
           end
  end.

Definition digest_transaction (s : t db) (tx : compact_tx.t)
    : tx_notify_request + wt_error :=
  if (m_snp_height s =? 0)%Z then
    inr {| m_tx_id := compact_tx.m_id tx; m_info := tx_error_sync |}
  else match compact_tx.m_inputs tx with
  | [] =>
      inr {| m_tx_id := compact_tx.m_id tx; m_info := tx_error_inputs_dne [] |}
  | inputs =>
      let (attestations, dne_inputs) := check_inputs s 0 inputs in
      match dne_inputs with
      | [] => inl {| n_tx := tx; n_attestations := attestations;
                     n_block_height := m_snp_height s |}
      | _ => inr {| m_tx_id := compact_tx.m_id tx;
                    m_info := tx_error_inputs_dne dne_inputs |}
      end
  end.

Definition best_block_height (s : t db) : Z := m_best_block_height s.

End Ops.
End shard.

(** ** The controller *)

Module shard_controller.
Section Ops.
Context {db : Type} `{LevelDB db} `{Hasher} `{Secp256k1}.

(** The archiver's answers to [get_block]; a missing block is asked for
    again until it is there, so only the final answer counts. *)
Variable get_block : Z → option block.

(** The catch-up loop from height [i] for [n] heights; [None] while the
    archiver keeps answering that it does not have the block. *)
Fixpoint catch_up (s : shard.t db) (i : Z) (n : nat) : option (shard.t db) :=
  match n with
  | O => Some s
  | S n =>
      match get_block i with
      | Some past_blk => catch_up (shard.digest_block s past_blk).1 (i + 1) n
      | None => None
      end
  end.

(** [atomizer_handler]: digest, and catch up while the block is not
    contiguous.  [fuel] bounds the rounds of the [while] loop; [None] means
    that it is still running. *)
Fixpoint atomizer_handler (fuel : nat) (s : shard.t db) (blk : block)
    : option (shard.t db) :=
  match fuel with
  | O => None
  | S fuel =>
      let (s', ok) := shard.digest_block s blk in
      if (ok : bool) then Some s' else
      let i := add64 (shard.best_block_height s) 1 in
      match catch_up s i (Z.to_nat (m_height blk - i)) with
      | Some s'' => atomizer_handler fuel s'' blk
      | None => None
      end
  end.

(** [request_consumer], for a packet that deserializes: what is sent to the
    atomizer or broadcast to the watchtowers. *)
Definition consume (sentinel_public_keys : gset pubkey_t)
    (attestation_threshold : nat) (s : shard.t db) (tx : compact_tx.t)
    : option (tx_notify_request + wt_error) :=
  if negb (check_attestations tx sentinel_public_keys attestation_threshold)
  then None else Some (shard.digest_transaction s tx).

End Ops.
End shard_controller.

(** ** The database and the unspent set *)

Module shard_db_lemmas.
Import shard atomizer_lemmas.

Section Batch.
Context {db : Type} `{LevelDBLaws db}.
Implicit Types (s : t db) (h : hash_t).

Lemma op_effect_put k v v' : op_effect k v (Put k v') = Some v'.
Proof. unfold op_effect. by rewrite decide_True. Qed.

Lemma op_effect_put_ne k k' v v' : k' ≠ k → op_effect k v (Put k' v') = v.
Proof. intros Hn. unfold op_effect. by rewrite decide_False. Qed.

Lemma puts_effect h (l : list hash_t) v :
  is_Some (foldl (op_effect h) v ((λ out, Put out []) <$> l)) ↔ h ∈ l ∨ is_Some v.
Proof.
  revert v. induction l as [|x l IH]; intros v; csimpl.
  { rewrite elem_of_nil. naive_solver. }
  rewrite IH, elem_of_cons. unfold op_effect. case_decide; naive_solver.
Qed.

Lemma deletes_effect h (l : list hash_t) v :
  is_Some (foldl (op_effect h) v (Delete <$> l)) ↔ h ∉ l ∧ is_Some v.
Proof.
  revert v. induction l as [|x l IH]; intros v; csimpl.
  { rewrite elem_of_nil. naive_solver. }
  rewrite IH, not_elem_of_cons. unfold op_effect. case_decide as Hx.
  - split; [by intros [_ []]|]. by intros [[? _] _].
  - naive_solver.
Qed.

Lemma tx_updates_effect s h tx v :
  is_output_on_shard s h = true →
  is_Some (foldl (op_effect h) v (tx_updates s tx)) ↔
    h ∉ compact_tx.m_inputs tx ∧ (h ∈ compact_tx.m_uhs_outputs tx ∨ is_Some v).
Proof.
  intros Ho. unfold tx_updates.
  rewrite foldl_app, deletes_effect, puts_effect, !list_elem_of_filter. naive_solver.
Qed.

(** In a valid history creating before deleting is the abstract update. *)
Lemma block_updates_effect s h U txs U' v :
  is_output_on_shard s h = true → uhs_run everything U txs U' →
  (is_Some v ↔ h ∈ U) →
  (is_Some (foldl (op_effect h) v (txs ≫= tx_updates s)) ↔ h ∈ U').
Proof.
  intros Ho Hrun. revert v.
  induction Hrun as [|U tx txs U' Hin Hout Hrun IH]; intros v Hv; [done|].
  csimpl. rewrite foldl_app. apply IH.
  rewrite tx_updates_effect by done. rewrite Hv. unfold uhs_apply, ins, outs in *.
  rewrite elem_of_union, elem_of_difference, !elem_of_owned.
  specialize (Hin h). specialize (Hout h). rewrite elem_of_owned in Hin, Hout.
  unfold everything in *. naive_solver.
Qed.

(** The shard has digested the first [k] blocks. *)
Record shard_at (U0 : gset hash_t) (bs : list (list compact_tx.t)) (k : nat) s
    : Prop := {
  sa_len : k ≤ length bs;
  sa_best : m_best_block_height s = Z.of_nat k;
  sa_stored : db_get (m_db s) m_best_block_height_key =
    Some (le_bytes 8 (Z.of_nat k));
  sa_snp : m_snp s = m_db s;
  sa_snp_height : m_snp_height s = Z.of_nat k;
  sa_db h : is_output_on_shard s h = true → h ≠ m_best_block_height_key →
    is_Some (db_get (m_db s) h) ↔ h ∈ uhs_at U0 bs k
}.

Lemma uhs_at_S U0 bs k txs :
  bs !! k = Some txs → uhs_at U0 bs (S k) = uhs_after (uhs_at U0 bs k) txs.
Proof.
  intros Hk. unfold uhs_at. rewrite (take_S_r _ _ _ Hk), concat_app. simpl.
  by rewrite app_nil_r, uhs_after_app.
Qed.

Lemma shard_at_app U0 bs bs' k s :
  shard_at U0 bs k s → shard_at U0 (bs ++ bs') k s.
Proof.
  intros [Hl Hb Hs Hp Hh Hd]. constructor; [rewrite length_app; lia|done..|].
  intros h Ho Hn. rewrite uhs_at_app by done. by apply Hd.
Qed.

Lemma uhs_run_prefix own U txs1 txs2 U' :
  uhs_run own U (txs1 ++ txs2) U' →
  uhs_run own U txs1 (foldl (uhs_apply own) U txs1) ∧
  uhs_run own (foldl (uhs_apply own) U txs1) txs2 U'.
Proof.
  revert U. induction txs1 as [|tx txs1 IH]; intros U Hrun; simpl in *.
  { split; [constructor|done]. }
  inversion_clear Hrun as [|???? Hin Hout Hr].
  destruct (IH _ Hr). split; [by constructor|done].
Qed.

(** All blocks form a valid history, so every single one does. *)
Definition valid_chain (U0 : gset hash_t) (bs : list (list compact_tx.t)) : Prop :=
  uhs_run everything U0 (concat bs) (uhs_after U0 (concat bs)).

Lemma valid_chain_block U0 bs k txs :
  valid_chain U0 bs → bs !! k = Some txs →
  uhs_run everything (uhs_at U0 bs k) txs (uhs_at U0 bs (S k)).
Proof.
  intros Hv Hk. rewrite (uhs_at_S _ _ _ _ Hk). unfold valid_chain in Hv.
  rewrite <- (take_drop k bs), (drop_S _ _ _ Hk), concat_app in Hv. simpl in Hv.
  apply uhs_run_prefix in Hv as [_ Hv]. by apply uhs_run_prefix in Hv as [Hv _].
Qed.

Lemma digest_next U0 bs k s txs :
  shard_at U0 bs k s → valid_chain U0 bs → bs !! k = Some txs →
  (Z.of_nat (length bs) < 2 ^ 63)%Z →
  ∃ s', digest_block s {| m_height := Z.of_nat (S k); m_transactions := txs |} =
      (s', true) ∧
    shard_at U0 bs (S k) s' ∧ m_prefix_range s' = m_prefix_range s.
Proof.
  intros [Hl Hb Hs Hp Hh Hd] Hv Hk Hlt. pose proof (lookup_lt_Some _ _ _ Hk).
  unfold digest_block. cbn [m_height m_transactions]. rewrite Hb.
  rewrite add64_exact by (unfold is_u64; lia).
  replace (Z.of_nat k + 1)%Z with (Z.of_nat (S k)) by lia. rewrite Z.eqb_refl.
  eexists. split; [reflexivity|]. split; [|done].
  constructor; cbn; [lia|done| |done|done|].
  - rewrite db_get_write, foldl_app. cbn [foldl]. apply op_effect_put.
  - intros h Ho Hn. rewrite db_get_write, foldl_app. cbn [foldl].
    rewrite op_effect_put_ne by done.
    by eapply block_updates_effect; [|apply valid_chain_block|apply Hd].
Qed.

Lemma digest_not_next s blk :
  m_height blk ≠ add64 (m_best_block_height s) 1 →
  digest_block s blk = (s, false).
Proof. intros Hn. unfold digest_block. by rewrite (proj2 (Z.eqb_neq _ _) Hn). Qed.

(** Opening a fresh or an existing database. *)
Lemma open_fresh U0 range (d : db) :
  db_get d m_best_block_height_key = None →
  (∀ h, hash_in_shard_range range h = true → h ≠ m_best_block_height_key →
     is_Some (db_get d h) ↔ h ∈ U0) →
  ∃ s, open_db range d = Ret s ∧ shard_at U0 [] 0 s ∧ m_prefix_range s = range.
Proof.
  intros Hk Hd. unfold open_db. rewrite Hk. eexists. split; [reflexivity|].
  split; [|done]. constructor; cbn; [lia|done| |done|done|].
  - rewrite db_get_write. cbn [foldl]. apply op_effect_put.
  - intros h Ho Hn. rewrite db_get_write. cbn [foldl].
    rewrite op_effect_put_ne by done.
    by apply Hd.
Qed.

Lemma open_existing U0 bs k s :
  shard_at U0 bs k s → (Z.of_nat (length bs) < 2 ^ 63)%Z →
  ∃ s', open_db (m_prefix_range s) (m_db s) = Ret s' ∧ shard_at U0 bs k s' ∧
    m_prefix_range s' = m_prefix_range s.
Proof.
  intros [Hl Hb Hs Hp Hh Hd] Hlt. unfold open_db. rewrite Hs.
  rewrite decide_True by apply length_le_bytes. eexists. split; [reflexivity|].
  split; [|done]. rewrite le_val_bytes_u64 by (unfold is_u64; lia).
  by constructor.
Qed.

(** ** Attestations *)

(** The exact answer of the input loop. *)
Lemma check_inputs_spec s inputs : ∀ i,
  (∀ j, j ∈ (check_inputs s i inputs).1 ↔
     ∃ n x, j = (i + Z.of_nat n)%Z ∧ inputs !! n = Some x ∧
       is_output_on_shard s x = true ∧ is_Some (db_get (m_snp s) x)) ∧
  (check_inputs s i inputs).2 =
    filter (λ x, is_output_on_shard s x = true ∧ db_get (m_snp s) x = None) inputs.
Proof.
  induction inputs as [|x inputs IH]; intros i; cbn [check_inputs].
  { split; [|done]. intros j. split; [set_solver|]. by intros (? & ? & _ & ? & _). }
  destruct (IH (i + 1)%Z) as [IH1 IH2].
  destruct (check_inputs s (i + 1) inputs) as [atts dne]. simpl in IH1, IH2.
  assert (∀ j, (∃ n y, j = (i + Z.of_nat n)%Z ∧ (x :: inputs) !! n = Some y ∧
      is_output_on_shard s y = true ∧ is_Some (db_get (m_snp s) y)) ↔
    (j = i ∧ is_output_on_shard s x = true ∧ is_Some (db_get (m_snp s) x)) ∨
    j ∈ atts) as Hsplit.
  { intros j. rewrite IH1. split.
    - intros ([|n] & y & -> & Hy & ?); simplify_eq/=; [left; split; [lia|done]|].
      right. exists n, y. split; [lia|done].
    - intros [(-> & ?)|(n & y & -> & ?)]; [exists 0, x|exists (S n), y];
        (split; [lia|done]). }
  rewrite filter_cons.
  destruct (is_output_on_shard s x) eqn:Ho; cbn [negb].
  - destruct (db_get (m_snp s) x) eqn:Hx; cbn [fst snd]; split.
    + intros j. rewrite Hsplit, elem_of_union, elem_of_singleton. naive_solver.
    + rewrite decide_False by naive_solver. done.
    + intros j. rewrite Hsplit. split; [by right|].
      intros [(_ & _ & [])|?]; done.
    + rewrite decide_True by done. by rewrite IH2.
  - split; [|rewrite decide_False by naive_solver; done].
    intros j. rewrite Hsplit. split; [by right|]. naive_solver.
Qed.

End Batch.
End shard_db_lemmas.

(** ** Theorems on one shard *)

Section ShardTheorems.
Context {db : Type} `{LevelDBLaws db}.
Import shard atomizer_lemmas raft_lemmas shard_db_lemmas.
Implicit Types (s : t db).

(** What a shard answers to a transaction.  It notifies the atomizer
    exactly when it has seen a block, the transaction has inputs, and every
    input in its range is unspent in its snapshot; the notification carries
    the transaction, the snapshot's height and the indices of the inputs in
    its range.  Otherwise it reports that it is not in sync, or lists the
    inputs in its range that do not exist, in order. *)
Theorem digest_transaction_spec s tx :
  let mine x := is_output_on_shard s x = true in
  let missing :=
    filter (λ x, is_output_on_shard s x = true ∧ db_get (m_snp s) x = None)
      (compact_tx.m_inputs tx) in
  match digest_transaction s tx with
  | inl n =>
      m_snp_height s ≠ 0%Z ∧ compact_tx.m_inputs tx ≠ [] ∧ missing = [] ∧
      n_tx n = tx ∧ n_block_height n = m_snp_height s ∧
      ∀ j, j ∈ n_attestations n ↔
        ∃ i x, j = Z.of_nat i ∧ compact_tx.m_inputs tx !! i = Some x ∧ mine x
  | inr e =>
      m_tx_id e = compact_tx.m_id tx ∧
      match m_info e with
      | tx_error_sync => m_snp_height s = 0%Z
      | tx_error_inputs_dne l =>
          m_snp_height s ≠ 0%Z ∧ l = missing ∧
          (l = [] → compact_tx.m_inputs tx = [])
      | _ => False
      end
  end.
Proof.
  unfold digest_transaction. destruct (m_snp_height s =? 0)%Z eqn:Eh; bools.
  { done. }
  destruct (compact_tx.m_inputs tx) as [|x0 inputs] eqn:Ei; [done|].
  rewrite <- Ei. destruct (check_inputs_spec s (compact_tx.m_inputs tx) 0) as [Ha Hd].
  destruct (check_inputs s 0 (compact_tx.m_inputs tx)) as [atts dne].
  simpl in Ha, Hd. rewrite <- Hd. destruct dne as [|y dne]; simpl; [|done].
  split_and!; [done|by rewrite Ei|done|done|done|]. intros j. rewrite Ha. split.
  - intros (n & x & -> & Hx & Ho & _). by exists n, x.
  - intros (n & x & -> & Hx & Ho). exists n, x. split_and!; [lia|done|done|].
    apply not_eq_None_Some. intros Hn.
    assert (x ∈ @nil hash_t) as Hin; [|by apply elem_of_nil in Hin].
    rewrite Hd. apply list_elem_of_filter. split; [done|].
    by eapply list_elem_of_lookup_2.
Qed.

(** C21: a shard follows the chain.  From the state after block [k], digesting
    block [k + 1] of a valid chain leaves exactly the hashes in its range
    that are unspent after that block, in the database and in the snapshot
    attestations are made from; every other block is refused and changes
    nothing; and reopening the database restores the same state. *)
Theorem shard_follows_chain U0 bs k s txs :
  shard_at U0 bs k s → valid_chain U0 bs → bs !! k = Some txs →
  (Z.of_nat (length bs) < 2 ^ 63)%Z →
  (∃ s', digest_block s {| m_height := Z.of_nat (S k); m_transactions := txs |} =
       (s', true) ∧
     best_block_height s' = Z.of_nat (S k) ∧
     (∀ h, is_output_on_shard s h = true → h ≠ m_best_block_height_key →
        is_Some (db_get (m_snp s') h) ↔ h ∈ uhs_at U0 bs (S k)) ∧
     ∃ s'', open_db (m_prefix_range s') (m_db s') = Ret s'' ∧
       shard_at U0 bs (S k) s'') ∧
  (∀ blk, m_height blk ≠ Z.of_nat (S k) → digest_block s blk = (s, false)).
Proof.
  intros Hs Hv Hk Hlt. pose proof (lookup_lt_Some _ _ _ Hk). split.
  - destruct (digest_next U0 bs k s txs) as (s' & E & Hs' & Hr); [done..|].
    exists s'. split; [done|]. split; [by destruct Hs'|].
    split.
    + intros h Ho Hn. rewrite (sa_snp _ _ _ _ Hs'). apply (sa_db _ _ _ _ Hs'); [|done].
      unfold is_output_on_shard in *. by rewrite Hr.
    + destruct (open_existing U0 bs (S k) s') as (s'' & ? & ? & _); eauto.
  - intros blk Hb. apply digest_not_next. rewrite (sa_best _ _ _ _ Hs).
    rewrite add64_exact by (unfold is_u64; lia). lia.
Qed.

(** A notification from a shard that follows the chain is honest. *)
Lemma digest_honest U0 inputs_of bs k s tx n :
  shard_at U0 bs k s → digest_transaction s tx = inl n →
  compact_tx.m_inputs tx = inputs_of (compact_tx.m_id tx) →
  m_best_block_height_key ∉ compact_tx.m_inputs tx →
  honest_notification U0 inputs_of bs n.
Proof.
  intros Hs E Hin Hkey. unfold digest_transaction in E.
  destruct (m_snp_height s =? 0)%Z eqn:Eh; [done|]. bools.
  destruct (compact_tx.m_inputs tx) as [|x0 inputs] eqn:Ei; [done|].
  rewrite <- Ei in *. destruct (check_inputs_spec s (compact_tx.m_inputs tx) 0) as [Ha _].
  destruct (check_inputs s 0 (compact_tx.m_inputs tx)) as [atts [|y dne]]; [|done].
  simplify_eq. split; [done|]. simpl in *. intros i Hi. apply Ha in Hi as
    (m & x & -> & Hx & Ho & Hg). rewrite (sa_snp_height _ _ _ _ Hs) in *.
  pose proof (lookup_lt_Some _ _ _ Hx). pose proof (sa_len _ _ _ _ Hs).
  split_and!; [lia..|]. exists x. rewrite Z.add_0_l, !Nat2Z.id. split; [done|].
  apply (sa_db _ _ _ _ Hs); [done| |by rewrite <- (sa_snp _ _ _ _ Hs)].
  intros ->. apply Hkey. by eapply list_elem_of_lookup_2.
Qed.

End ShardTheorems.

(** ** Catching up *)

Section CatchUp.
Context {db : Type} `{LevelDBLaws db}.
Import shard shard_db_lemmas shard_controller.

(** The archiver serves block [k + 1] of the chain at height [k + 1]. *)
Definition serves (get_block : Z → option block) (bs : list (list compact_tx.t))
    : Prop :=
  ∀ k txs, bs !! k = Some txs →
    get_block (Z.of_nat (S k)) =
      Some {| m_height := Z.of_nat (S k); m_transactions := txs |}.

Lemma catch_up_spec get_block U0 bs n : ∀ k (s : t db),
  serves get_block bs → valid_chain U0 bs → (Z.of_nat (length bs) < 2 ^ 63)%Z →
  shard_at U0 bs k s → k + n ≤ length bs →
  ∃ s', catch_up get_block s (Z.of_nat (S k)) n = Some s' ∧
    shard_at U0 bs (k + n) s'.
Proof.
  induction n as [|n IH]; intros k s Hg Hv Hlt Hs Hn; simpl.
  { exists s. by rewrite Nat.add_0_r. }
  destruct (lookup_lt_is_Some_2 bs k) as [txs Hk]; [lia|].
  rewrite (Hg k txs Hk).
  destruct (digest_next U0 bs k s txs) as (s1 & E1 & Hs1 & _); [done..|].
  rewrite E1. simpl. replace (Z.of_nat (S k) + 1)%Z with (Z.of_nat (S (S k))) by lia.
  destruct (IH (S k) s1) as (s' & ? & ?); [done..|lia|].
  exists s'. by rewrite Nat.add_succ_r.
Qed.

Lemma handler_catches_up get_block U0 bs k j txs (s : t db) :
  serves get_block bs → valid_chain U0 bs → (Z.of_nat (length bs) < 2 ^ 63)%Z →
  shard_at U0 bs k s → k ≤ j → bs !! j = Some txs →
  ∃ s', atomizer_handler get_block 2 s
          {| m_height := Z.of_nat (S j); m_transactions := txs |} = Some s' ∧
    shard_at U0 bs (S j) s'.
Proof.
  intros Hg Hv Hlt Hs Hkj Hj. pose proof (lookup_lt_Some _ _ _ Hj).
  cbn [atomizer_handler]. destruct (decide (k = j)) as [->|Hne].
  { destruct (digest_next U0 bs j s txs) as (s' & -> & ? & _); [done..|]. eauto. }
  rewrite digest_not_next.
  2:{ rewrite (sa_best _ _ _ _ Hs), add64_exact by (unfold is_u64; lia). simpl. lia. }
  unfold best_block_height. rewrite (sa_best _ _ _ _ Hs).
  rewrite add64_exact by (unfold is_u64; lia).
  replace (Z.of_nat k + 1)%Z with (Z.of_nat (S k)) by lia.
  destruct (catch_up_spec get_block U0 bs (j - k) k s) as (s1 & E1 & Hs1);
    [done..|lia|].
  cbn [m_height]. replace (Z.to_nat _) with (j - k) by lia. rewrite E1.
  replace (k + (j - k)) with j in Hs1 by lia.
  destruct (digest_next U0 bs j s1 txs) as (s' & -> & ? & _); [done..|]. eauto.
Qed.

(** A shard that missed blocks catches up.  When a block of the chain
    above its height arrives and the archiver serves the chain, the handler
    terminates within two rounds, with the shard at the height of the block
    and all blocks in between digested. *)
Theorem atomizer_handler_catches_up get_block U0 bs k j txs (s : t db) :
  serves get_block bs → valid_chain U0 bs → (Z.of_nat (length bs) < 2 ^ 63)%Z →
  shard_at U0 bs k s → k ≤ j → bs !! j = Some txs →
  ∃ s', atomizer_handler get_block 2 s
          {| m_height := Z.of_nat (S j); m_transactions := txs |} = Some s' ∧
    shard_at U0 bs (S j) s'.
Proof. apply handler_catches_up. Qed.

(** A block the shard has already digested never leaves the handler.
    The loop waits for the block to become contiguous and has nothing to
    catch up with, so no number of rounds ends it. *)
Theorem stale_block_never_returns get_block fuel (s : t db) blk :
  (0 ≤ best_block_height s < 2 ^ 64 - 1)%Z →
  (m_height blk ≤ best_block_height s)%Z →
  atomizer_handler get_block fuel s blk = None.
Proof.
  intros Hb Hh. induction fuel as [|fuel IH]; [done|]. cbn [atomizer_handler].
  unfold best_block_height in *.
  rewrite digest_not_next by (rewrite add64_exact by (unfold is_u64; lia); lia).
  rewrite add64_exact by (unfold is_u64; lia).
  replace (Z.to_nat _) with 0 by lia. exact IH.
Qed.

End CatchUp.

(** ** Shards and atomizer together *)

Section Architecture.
Context {db : Type} `{LevelDBLaws db} `{Hasher} `{Secp256k1}.
Variables (U0 : gset hash_t) (inputs_of : hash_t → list hash_t).
Import shard atomizer_lemmas raft_lemmas shard_db_lemmas.

(** The shards, the notifications on the network and the atomizer. *)
Record arch := mk_arch {
  a_shards : list (t db);
  a_net : list tx_notify_request;
  a_atm : atm_system
}.

(** Blocks reach the shards in any order, repeatedly or never; shards
    restart from their database; they answer transactions whose id
    determines the inputs (a fifteen-byte key is not a hash); notifications
    are delivered in any order and any number of times; and the atomizer
    runs. *)
Inductive arch_step : arch → arch → Prop :=
| arch_block shs net atm i s k txs s' ok :
    shs !! i = Some s → s_blocks atm !! k = Some txs →
    digest_block s {| m_height := Z.of_nat (S k); m_transactions := txs |} =
      (s', ok) →
    arch_step (mk_arch shs net atm) (mk_arch (<[ i := s' ]> shs) net atm)
| arch_restart shs net atm i s s' :
    shs !! i = Some s → open_db (m_prefix_range s) (m_db s) = Ret s' →
    arch_step (mk_arch shs net atm) (mk_arch (<[ i := s' ]> shs) net atm)
| arch_digest shs net atm i s tx n :
    shs !! i = Some s → digest_transaction s tx = inl n →
    compact_tx.m_inputs tx = inputs_of (compact_tx.m_id tx) →
    m_best_block_height_key ∉ compact_tx.m_inputs tx →
    arch_step (mk_arch shs net atm) (mk_arch shs (net ++ [n]) atm)
| arch_deliver shs net r fl a bs n :
    n ∈ net →
    arch_step (mk_arch shs net (sys r fl a bs))
      (mk_arch shs net (sys (atomizer_raft.tx_notify r n) fl a bs))
| arch_core shs net atm atm' :
    core_step U0 atm atm' →
    arch_step (mk_arch shs net atm) (mk_arch shs net atm').

Record arch_inv (x : arch) : Prop := {
  ai_shards : Forall (λ s, ∃ k, shard_at U0 (s_blocks (a_atm x)) k s) (a_shards x);
  ai_net : Forall (honest_notification U0 inputs_of (s_blocks (a_atm x))) (a_net x);
  ai_atm : atm_sys_inv U0 inputs_of (a_atm x)
}.

Lemma settled_valid_chain atm :
  atm_sys_inv U0 inputs_of atm → valid_chain U0 (s_blocks atm).
Proof.
  intros [_ _ _ _ Hrun]. unfold settled_txs in Hrun.
  by apply uhs_run_prefix in Hrun as [? _].
Qed.

(** The chain of blocks only grows. *)
Lemma core_step_blocks atm atm' :
  core_step U0 atm atm' → ∃ bs', s_blocks atm' = s_blocks atm ++ bs'.
Proof. intros []; simpl; eauto; exists []; by rewrite app_nil_r. Qed.

Lemma honest_notification_app bs bs' n :
  honest_notification U0 inputs_of bs n →
  honest_notification U0 inputs_of (bs ++ bs') n.
Proof. intros [? Hn]. split; [done|]. eauto using honest_attestation_app. Qed.

Lemma arch_core_inv shs net atm atm' :
  core_step U0 atm atm' → arch_inv (mk_arch shs net atm) →
  arch_inv (mk_arch shs net atm').
Proof.
  intros Hc [Hsh Hn Ha]; simpl in *. destruct (core_step_blocks _ _ Hc) as [bs' Hb].
  constructor; simpl; rewrite ?Hb.
  - eapply Forall_impl; [exact Hsh|]. intros s [k Hk]. exists k.
    by apply shard_at_app.
  - eapply Forall_impl; [exact Hn|]. intros n. apply honest_notification_app.
  - eapply atm_step_inv; [by apply atm_core|done].
Qed.

Lemma arch_step_inv x x' : arch_step x x' → arch_inv x → arch_inv x'.
Proof.
  intros Hst. destruct Hst as [shs net atm i s k txs s' ok Hi Hk E
    |shs net atm i s s' Hi E|shs net atm i s tx n Hi E Hin Hkey
    |shs net r fl a bs n Hin|shs net atm atm' Hc]; [| | | |by apply arch_core_inv];
    intros [Hsh Hn Ha]; simpl in *;
    try (destruct (proj1 (Forall_lookup _ _) Hsh _ _ Hi) as [k' Hs]);
    pose proof (asi_bound _ _ _ Ha) as Hlt.
  - constructor; simpl; [|done|done]. apply Forall_insert; [done|].
    pose proof (lookup_lt_Some _ _ _ Hk). pose proof (sa_len _ _ _ _ Hs).
    destruct (decide (k = k')) as [<-|Hne].
    + destruct (digest_next U0 (s_blocks atm) k s txs) as (s1 & E1 & ? & _);
        [done|by apply settled_valid_chain|done|done|].
      rewrite E1 in E. simplify_eq. eauto.
    + rewrite digest_not_next in E; [simplify_eq; eauto|].
      rewrite (sa_best _ _ _ _ Hs), add64_exact by (unfold is_u64; lia). simpl. lia.
  - constructor; simpl; [|done|done]. apply Forall_insert; [done|].
    destruct (open_existing U0 (s_blocks atm) k' s) as (s1 & E1 & ? & _); [done..|].
    rewrite E1 in E. simplify_eq. eauto.
  - constructor; simpl; [done| |done]. apply Forall_app. split; [done|].
    apply Forall_singleton. by eapply digest_honest.
  - constructor; simpl; [done|done|]. eapply atm_step_inv; [|done].
    apply atm_notify. by apply (proj1 (Forall_forall _ _) Hn).
Qed.

(** A database seeded with the initial unspent hashes of a range. *)
Definition seeded (range : Z * Z) (d : db) : Prop :=
  db_get d m_best_block_height_key = None ∧
  ∀ h, hash_in_shard_range range h = true → h ≠ m_best_block_height_key →
    is_Some (db_get d h) ↔ h ∈ U0.

Definition arch_start (shs : list (t db)) (keys : gset pubkey_t)
    (threshold depth : nat) : arch :=
  mk_arch shs [] (atm_init keys threshold depth).

(** C3: the atomizer architecture never settles a double spend, end to end.
    Start shards on seeded databases and let them digest blocks, restart,
    answer transactions and send notifications in any interleaving with the
    atomizer, over a network that reorders and repeats: the transactions in
    blocks and those pending form a valid run of the abstract unspent set,
    and every shard holds the unspent hashes of its range at its height.
    That notifications are honest is a consequence, not an assumption. *)
Theorem architecture_refines_uhs shs keys threshold depth x :
  Forall (λ s, ∃ range d, seeded range d ∧ open_db range d = Ret s) shs →
  rtc arch_step (arch_start shs keys threshold depth) x →
  uhs_run everything U0 (settled_txs (a_atm x))
    (uhs_after U0 (settled_txs (a_atm x))) ∧
  Forall (λ s, ∃ k, shard_at U0 (s_blocks (a_atm x)) k s) (a_shards x).
Proof.
  intros Hsh Hr. assert (arch_inv x) as [Hs _ Ha]; [|by destruct Ha].
  remember (arch_start shs keys threshold depth) as x0 eqn:Ex.
  assert (arch_inv x0) as Hx.
  { subst x0. constructor; simpl; [|constructor|apply atm_init_inv].
    eapply Forall_impl; [exact Hsh|]. intros s (range & d & [Hk Hd] & E).
    destruct (open_fresh U0 range d Hk Hd) as (s' & E' & ? & _).
    rewrite E' in E. simplify_eq. by exists 0. }
  clear Ex Hsh. induction Hr; eauto using arch_step_inv.
Qed.

End Architecture.

(** ** An example *)

Section ShardExamples.
Import Toy in_memory shard atomizer_lemmas raft_lemmas shard_db_lemmas atm_example.

Let db := gmap (list byte) (list byte).

Definition example_db : db := {[ coin := [] ]}.
Definition example_shard : t db :=
  let d := <[ m_best_block_height_key := le_bytes 8 0 ]> example_db in
  mk d 0 d 0 (0, 255)%Z.

Lemma example_seeded : seeded {[ coin ]} (0, 255)%Z example_db.
Proof.
  split; [reflexivity|]. intros h _ _. cbn [db_get gmap_leveldb]. unfold example_db.
  rewrite elem_of_singleton. split.
  - intros [v Hv]. by apply lookup_singleton_Some in Hv as [? _].
  - intros ->. exists []. reflexivity.
Qed.

Lemma example_open : open_db (0, 255)%Z example_db = Ret example_shard.
Proof. reflexivity. Qed.

Lemma example_shard_at : shard_at {[ coin ]} [] 0 example_shard.
Proof.
  destruct example_seeded as [Hk Hd].
  destruct (open_fresh {[ coin ]} (0, 255)%Z example_db Hk Hd) as (s & E & Hs & _).
  rewrite example_open in E. by simplify_eq.
Qed.

Definition example_chain : list (list compact_tx.t) := [[]; [spend]].

Lemma example_chain_valid : valid_chain {[ coin ]} example_chain.
Proof. constructor; [compute_decide|compute_decide|]. constructor. Qed.

(** The shard after one block attests the input of [spend]; before any block
    it reports that it is not in sync. *)
Lemma digest_transaction_spec_witness :
  let s := (digest_block example_shard
              {| m_height := 1; m_transactions := [] |}).1 in
  ∃ n, digest_transaction s spend = inl n ∧ n_block_height n = m_snp_height s ∧
    ∀ j, j ∈ n_attestations n ↔
      ∃ i x, j = Z.of_nat i ∧ compact_tx.m_inputs spend !! i = Some x ∧
        is_output_on_shard s x = true.
Proof.
  intros s. pose proof (digest_transaction_spec s spend) as Hspec. cbv zeta in Hspec.
  assert (match digest_transaction s spend with inl _ => true | inr _ => false end =
    true) as Hok by (vm_compute; reflexivity).
  destruct (digest_transaction s spend) as [n|e]; [|discriminate Hok].
  destruct Hspec as (_ & _ & _ & _ & Hh & Ha). exists n.
  split; [reflexivity|]. split; [exact Hh|exact Ha].
Defined.

Lemma shard_follows_chain_witness :
  ∃ s', digest_block example_shard
          {| m_height := 1; m_transactions := [] |} = (s', true) ∧
    digest_block example_shard {| m_height := 7; m_transactions := [] |} =
      (example_shard, false).
Proof.
  destruct (shard_follows_chain {[ coin ]} example_chain 0 example_shard [])
    as [(s' & E & _) Hn];
    [apply (shard_at_app _ []), example_shard_at|apply example_chain_valid
    |reflexivity|simpl; lia|].
  exists s'. split; [exact E|]. apply Hn. discriminate.
Defined.

Definition example_archiver (h : Z) : option block :=
  (λ txs, {| m_height := h; m_transactions := txs |}) <$>
    example_chain !! pred (Z.to_nat h).

Lemma atomizer_handler_catches_up_witness :
  ∃ s', shard_controller.atomizer_handler example_archiver 2 example_shard
          {| m_height := 2; m_transactions := [spend] |} = Some s' ∧
    shard_at {[ coin ]} example_chain 2 s'.
Proof.
  apply (atomizer_handler_catches_up example_archiver {[ coin ]} example_chain 0 1);
    [|apply example_chain_valid|simpl; lia
     |apply (shard_at_app _ []), example_shard_at|lia|reflexivity].
  intros k txs Hk. unfold example_archiver.
  replace (pred (Z.to_nat (Z.of_nat (S k)))) with k by lia.
  rewrite Hk. reflexivity.
Defined.

Lemma stale_block_never_returns_witness :
  shard_controller.atomizer_handler example_archiver 1000 example_shard
    {| m_height := 0; m_transactions := [] |} = None.
Proof. apply stale_block_never_returns; simpl; lia. Defined.

(** An empty block reaches the shard, which then attests the input of
    [spend]; the atomizer settles it in the second block, and the shard
    digests that and restarts. *)
Lemma example_arch_run :
  ∃ x, rtc (arch_step {[ coin ]} inputs_of) (arch_start [example_shard] ∅ 0 2) x ∧
    settled_txs (a_atm x) = [spend].
Proof.
  eexists. split.
  - unfold arch_start, atm_init.
    eapply rtc_l. { eapply arch_core, atm_make_block; [simpl; lia|]. reflexivity. }
    eapply rtc_l. { eapply (arch_block _ _ _ _ _ 0 _ 0); reflexivity. }
    eapply rtc_l.
    { eapply (arch_digest _ _ _ _ _ 0 _ spend);
        [reflexivity|vm_compute; reflexivity|reflexivity|compute_decide]. }
    eapply rtc_l. { eapply arch_deliver. left. }
    eapply rtc_l. { eapply arch_core, atm_send. vm_compute. reflexivity. }
    eapply rtc_l.
    { eapply arch_core, (atm_insert _ _ _ _ []). { vm_compute. reflexivity. }
      intros _. compute_decide. }
    eapply rtc_l; [|apply rtc_refl].
    eapply arch_core, atm_make_block; [simpl; lia|]. vm_compute. reflexivity.
  - reflexivity.
Qed.

Lemma architecture_refines_uhs_witness :
  ∃ x : @arch db, settled_txs (a_atm x) = [spend] ∧
    uhs_run everything {[ coin ]} [spend] (uhs_after {[ coin ]} [spend]).
Proof.
  destruct example_arch_run as (x & Hr & Hs). exists x. split; [exact Hs|].
  destruct (architecture_refines_uhs {[ coin ]} inputs_of [example_shard] ∅ 0 2 x)
    as [Hrun _]; [|exact Hr|rewrite Hs in Hrun; exact Hrun].
  constructor; [|constructor]. exists (0, 255)%Z, example_db.
  split; [apply example_seeded|apply example_open].
Defined.

End ShardExamples.
