(* ===== verification/Watchtower.v ===== *)
(** * The watchtower

    Model of [src/uhs/atomizer/watchtower]: the cache of recent blocks
    ([block_cache.cpp]), the cache of recent errors ([error_cache.cpp]), the
    answers to status requests ([watchtower.cpp], [status_update.hpp]) and the
    handlers of [controller.cpp].  The theorems relate an answer to the
    transactions of the cached blocks. *)

From Stdlib Require Import ZArith Lia Sorted.
From Stdlib.Strings Require Import Byte.
From stdpp Require Import base tactics numbers gmap sets list sorting.
From S2P Require Import Prelude Serialization Crypto Transaction Validation.
From S2P Require Import UhsSpec LockingShard Atomizer AtomizerShard.
Open Scope cbdc_scope.

(** [unordered_map::erase] for each key of a list. *)
Definition erase_keys {V} (ks : list hash_t) (m : gmap hash_t V)
    : gmap hash_t V :=
  foldl (λ m k, delete k m) m ks.

(** ** The block cache *)

Module block_cache.

Record t := mk {
  m_k_blks : nat;
  m_blks : list block;
  m_best_blk_height : Z;
  m_unspent_ids : gmap hash_t (Z * hash_t);
  m_spent_ids : gmap hash_t (Z * hash_t)
}.

Definition init (k : nat) : t := mk k [] 0 ∅ ∅.

(** The loop over the transactions of the block that leaves the window. *)
Definition evict_tx (ids : gmap hash_t (Z * hash_t) * gmap hash_t (Z * hash_t))
    (tx : compact_tx.t) :=
  (erase_keys (compact_tx.m_uhs_outputs tx) ids.1,
   erase_keys (compact_tx.m_inputs tx) ids.2).

Definition evict_front (c : t) : t :=
  match m_blks c with
  | old_blk :: blks =>
      if decide (m_k_blks c ≠ 0 ∧ length (m_blks c) = m_k_blks c) then
        let ids := foldl evict_tx (m_unspent_ids c, m_spent_ids c)
                     (m_transactions old_blk) in
        mk (m_k_blks c) blks (m_best_blk_height c) ids.1 ids.2
      else c
  | [] => c
  end.

(** The loops over the inputs and the outputs of a transaction of the new
    block; the pair holds the unspent and the spent ids. *)
Definition record_input (v : Z * hash_t)
    (ids : gmap hash_t (Z * hash_t) * gmap hash_t (Z * hash_t)) (inp : hash_t) :=
  (delete inp ids.1, insert_new inp v ids.2).

Definition record_tx (blk_height : Z)
    (ids : gmap hash_t (Z * hash_t) * gmap hash_t (Z * hash_t))
    (tx : compact_tx.t) :=
  let v := (blk_height, compact_tx.m_id tx) in
  let ids' := foldl (record_input v) ids (compact_tx.m_inputs tx) in
  (foldl (λ m out, insert_new out v m) ids'.1 (compact_tx.m_uhs_outputs tx),
   ids'.2).

Definition push_block (c : t) (blk : block) : t :=
  let c' := evict_front c in
  let ids := foldl (record_tx (m_height blk)) (m_unspent_ids c', m_spent_ids c')
               (m_transactions blk) in
  mk (m_k_blks c') (m_blks c' ++ [blk])
    (Z.max (m_best_blk_height c') (m_height blk)) ids.1 ids.2.

Definition check_unspent (c : t) (uhs_id : hash_t) : option (Z * hash_t) :=
  m_unspent_ids c !! uhs_id.

Definition check_spent (c : t) (uhs_id : hash_t) : option (Z * hash_t) :=
  m_spent_ids c !! uhs_id.

Definition best_block_height (c : t) : Z := m_best_blk_height c.

End block_cache.

(** ** The error cache *)

Module error_cache.

(** Errors are shared and never changed, so the maps hold their values. *)
Record t := mk {
  m_k_errs : nat;
  m_errs : list wt_error;
  m_uhs_errs : gmap hash_t wt_error;
  m_tx_id_errs : gmap hash_t wt_error
}.

Definition init (k : nat) : t := mk k [] ∅ ∅.

(** The ids the two visitors loop over. *)
Definition err_uhs_ids (info : tx_error_info) : list hash_t :=
  match info with
  | tx_error_sync | tx_error_stxo_range | tx_error_incomplete => []
  | tx_error_inputs_dne input_uhs_ids => input_uhs_ids
  | tx_error_inputs_spent input_uhs_ids => elements input_uhs_ids
  end.

Definition evict_err (c : t) : t :=
  match m_errs c with
  | old_err :: errs =>
      if decide (m_k_errs c ≠ 0 ∧ length (m_errs c) = m_k_errs c) then
        mk (m_k_errs c) errs
          (erase_keys (err_uhs_ids (m_info old_err)) (m_uhs_errs c))
          (delete (m_tx_id old_err) (m_tx_id_errs c))
      else c
  | [] => c
  end.

Definition push_error (c : t) (err : wt_error) : t :=
  let c' := evict_err c in
  mk (m_k_errs c') (m_errs c' ++ [err])
    (foldl (λ m uhs_id, insert_new uhs_id err m) (m_uhs_errs c')
       (err_uhs_ids (m_info err)))
    (insert_new (m_tx_id err) err (m_tx_id_errs c')).

Definition push_errors (c : t) (errs : list wt_error) : t :=
  foldl push_error c errs.

Definition check_tx_id (c : t) (tx_id : hash_t) : option wt_error :=
  m_tx_id_errs c !! tx_id.

Definition check_uhs_id (c : t) (uhs_id : hash_t) : option wt_error :=
  m_uhs_errs c !! uhs_id.

End error_cache.

(** ** Status requests *)

Inductive search_status :=
| no_history | unspent | spent | tx_rejected | invalid_input | internal_error.

#[export] Instance search_status_eq_dec : EqDecision search_status.
Proof. solve_decision. Defined.

Record status_update_state := {
  m_status : search_status;
  m_block_height : Z;
  m_uhs_id : hash_t
}.

#[export] Instance status_update_state_eq_dec : EqDecision status_update_state.
Proof. solve_decision. Defined.

(** The variants [request_t] and [response_t]. *)
Inductive wt_request :=
| status_update_request (m_uhs_ids : gmap hash_t (list hash_t))
| best_block_height_request.

Inductive wt_response :=
| status_request_check_success
    (m_states : gmap hash_t (list status_update_state))
| best_block_height_response (m_height : Z).

Module watchtower.

Record t := mk { m_bc : block_cache.t; m_ec : error_cache.t }.

Definition init (block_cache_size error_cache_size : nat) : t :=
  mk (block_cache.init block_cache_size) (error_cache.init error_cache_size).

Definition add_block (w : t) (blk : block) : t :=
  mk (block_cache.push_block (m_bc w) blk) (m_ec w).

(** A cache entry names the transaction [tx_id]. *)
Definition names (tx_id : hash_t) (r : option (Z * hash_t)) : bool :=
  match r with
  | Some (_, tx_id') => bool_decide (tx_id = tx_id')
  | None => false
  end.

(** [repeated_tx_filter]: the error is about a transaction that the block
    cache has seen settle. *)
Definition repeated_tx_filter (bc : block_cache.t) (err : wt_error) : bool :=
  existsb (λ uhs, names (m_tx_id err) (block_cache.check_spent bc uhs) ||
                  names (m_tx_id err) (block_cache.check_unspent bc uhs))
    (error_cache.err_uhs_ids (m_info err)).

Definition add_errors (w : t) (errs : list wt_error) : t :=
  mk (m_bc w)
    (error_cache.push_errors (m_ec w)
       (filter (λ err, repeated_tx_filter (m_bc w) err = false) errs)).

(** The body of the loop of [check_uhs_id_statuses]: the states it appends
    for one id. *)
Definition error_states (w : t) (internal_err tx_err : bool) (best_height : Z)
    (uhs_id : hash_t) : list status_update_state :=
  if internal_err then
    [{| m_status := internal_error; m_block_height := best_height;
        m_uhs_id := uhs_id |}]
  else if tx_err then
    match error_cache.check_uhs_id (m_ec w) uhs_id with
    | Some _ =>
        [{| m_status := invalid_input; m_block_height := best_height;
            m_uhs_id := uhs_id |}]
    | None =>
        [{| m_status := tx_rejected; m_block_height := best_height;
            m_uhs_id := uhs_id |}]
    end
  else [].

Definition block_states (w : t) (tx_id uhs_id : hash_t)
    : list status_update_state :=
  match block_cache.check_spent (m_bc w) uhs_id with
  | Some (height, s_tx_id) =>
      if decide (s_tx_id = tx_id) then
        [{| m_status := spent; m_block_height := height; m_uhs_id := uhs_id |}]
      else []
  | None =>
      match block_cache.check_unspent (m_bc w) uhs_id with
      | Some (height, us_tx_id) =>
          if decide (us_tx_id = tx_id) then
            [{| m_status := unspent; m_block_height := height;
                m_uhs_id := uhs_id |}]
          else []
      | None => []
      end
  end.

Definition uhs_id_states (w : t) (tx_id : hash_t) (internal_err tx_err : bool)
    (best_height : Z) (uhs_id : hash_t) : list status_update_state :=
  match error_states w internal_err tx_err best_height uhs_id ++
        block_states w tx_id uhs_id with
  | [] => [{| m_status := no_history; m_block_height := best_height;
              m_uhs_id := uhs_id |}]
  | states => states
  end.

Definition check_uhs_id_statuses (w : t) (uhs_ids : list hash_t)
    (tx_id : hash_t) (internal_err tx_err : bool) (best_height : Z)
    : list status_update_state :=
  uhs_ids ≫= uhs_id_states w tx_id internal_err tx_err best_height.

(** An error of the system, after which the transaction may be retried. *)
Definition is_internal (err : wt_error) : bool :=
  match m_info err with
  | tx_error_sync | tx_error_stxo_range => true
  | _ => false
  end.

Definition handle_status_update_request (w : t)
    (uhs_ids : gmap hash_t (list hash_t)) : wt_response :=
  let best_height := block_cache.best_block_height (m_bc w) in
  status_request_check_success
    (map_imap (λ tx_id ids,
       let tx_err := error_cache.check_tx_id (m_ec w) tx_id in
       let internal_err :=
         match tx_err with Some err => is_internal err | None => false end in
       Some (check_uhs_id_statuses w ids tx_id internal_err
               (bool_decide (is_Some tx_err)) best_height)) uhs_ids).

Definition handle_best_block_height_request (w : t) : wt_response :=
  best_block_height_response (block_cache.best_block_height (m_bc w)).

End watchtower.

(** ** The controller *)

Module wt_controller.

Record t := mk { m_watchtower : watchtower.t; m_last_blk_height : Z }.

(** The archiver's answer to the [n]-th request, for a height; it may not
    have the block yet. *)
Section Handlers.
Variable get_block : nat → Z → option block.

(** The loop that fetches missed blocks until [height] is the next one,
    [fuel] requests at most; [None] means that it is still running. *)
Fixpoint catch_up (fuel n : nat) (c : t) (height : Z) : option t :=
  if decide (height = add64 (m_last_blk_height c) 1) then Some c else
  match fuel with
  | O => None
  | S fuel =>
      match get_block n (add64 (m_last_blk_height c) 1) with
      | None => catch_up fuel (S n) c height
      | Some missed_blk =>
          catch_up fuel (S n)
            (mk (watchtower.add_block (m_watchtower c) missed_blk)
               (m_height missed_blk)) height
      end
  end.

(** [atomizer_handler], for a packet that deserializes. *)
Definition atomizer_handler (fuel : nat) (c : t) (blk : block) : option t :=
  match catch_up fuel 0 c (m_height blk) with
  | Some c' =>
      Some (mk (watchtower.add_block (m_watchtower c') blk) (m_height blk))
  | None => None
  end.

End Handlers.

(** [None] is a packet that does not deserialize. *)
Definition internal_server_handler (c : t) (errs : option (list wt_error)) : t :=
  match errs with
  | None => c
  | Some errs =>
      mk (watchtower.add_errors (m_watchtower c) errs) (m_last_blk_height c)
  end.

Definition external_server_handler (c : t) (req : wt_request) : wt_response :=
  match req with
  | status_update_request uhs_ids =>
      watchtower.handle_status_update_request (m_watchtower c) uhs_ids
  | best_block_height_request =>
      watchtower.handle_best_block_height_request (m_watchtower c)
  end.

Definition get_block_height (c : t) : Z := m_last_blk_height c.

End wt_controller.

(** ** Map lemmas *)

Lemma lookup_erase_keys {V} (ks : list hash_t) (m : gmap hash_t V) (h : hash_t) :
  erase_keys ks m !! h = if decide (h ∈ ks) then None else m !! h.
Proof.
  unfold erase_keys. revert m. induction ks as [|k ks IH]; intros m; cbn [foldl].
  { by rewrite decide_False by (apply not_elem_of_nil). }
  rewrite IH. destruct (decide (h ∈ ks)) as [Hin|Hin].
  { by rewrite decide_True by (by right). }
  destruct (decide (h = k)) as [->|Hne].
  - rewrite decide_True by left. apply lookup_delete_eq.
  - rewrite decide_False by (rewrite elem_of_cons; tauto).
    by rewrite lookup_delete_ne.
Qed.

Lemma lookup_insert_new {V} k (v : V) m (h : hash_t) :
  insert_new k v m !! h =
    if decide (h = k) then Some (default v (m !! k)) else m !! h.
Proof.
  unfold insert_new. destruct (m !! k) as [v'|] eqn:E.
  - destruct (decide (h = k)) as [->|]; done.
  - destruct (decide (h = k)) as [->|].
    + by rewrite lookup_insert_eq.
    + by rewrite lookup_insert_ne.
Qed.

Lemma lookup_insert_all {V} (v : V) (ks : list hash_t) m (h : hash_t) :
  foldl (λ m k, insert_new k v m) m ks !! h =
    if decide (h ∈ ks) then Some (default v (m !! h)) else m !! h.
Proof.
  revert m. induction ks as [|k ks IH]; intros m; cbn [foldl].
  { by rewrite decide_False by (apply not_elem_of_nil). }
  rewrite IH, lookup_insert_new.
  destruct (decide (h = k)) as [->|Hne]; cbn [default].
  - rewrite (decide_True (P := k ∈ k :: ks)) by left. by case_test.
  - destruct (decide (h ∈ ks)) as [Hin|Hin].
    + by rewrite decide_True by (by right).
    + by rewrite decide_False by (rewrite elem_of_cons; tauto).
Qed.

(** ** Histories in which no hash is created or consumed twice *)

Section History.
Implicit Types tx : compact_tx.t.
Import compact_tx.

(** [tx1] comes before [tx2]. *)
Definition before tx1 tx2 : Prop :=
  ∀ h, (h ∈ m_inputs tx1 → h ∉ m_inputs tx2 ∧ h ∉ m_uhs_outputs tx2) ∧
       (h ∈ m_uhs_outputs tx1 → h ∉ m_uhs_outputs tx2).

Definition proper_history (txs : list t) : Prop :=
  StronglySorted before txs ∧
  Forall (λ tx, ∀ h, h ∈ m_inputs tx → h ∉ m_uhs_outputs tx) txs.

Lemma fresh_history_elem known txs tx h :
  fresh_history everything known txs → tx ∈ txs → h ∈ m_uhs_outputs tx →
  h ∉ known.
Proof.
  revert known. induction txs as [|tx0 txs IH]; intros known Hf Htx Hh.
  { by apply elem_of_nil in Htx. }
  destruct Hf as [Hd Hf]. apply elem_of_cons in Htx as [->|Htx].
  - intros Hk. apply (Hd h); [|done]. by apply elem_of_owned.
  - specialize (IH _ Hf Htx Hh). set_solver.
Qed.

(** The histories of the abstract unspent set are of this kind. *)
Lemma uhs_run_proper U known txs U' :
  uhs_run everything U txs U' → fresh_history everything known txs → U ⊆ known →
  proper_history txs.
Proof.
  intros Hrun. revert known. induction Hrun as [|U tx txs U' Hin Hout Hrun IH];
    intros known Hf Hsub; [by repeat constructor|].
  destruct Hf as [Hd Hf].
  assert (∀ h, h ∈ m_inputs tx → h ∈ U) as HinU.
  { intros h Hh. by apply Hin, elem_of_owned. }
  destruct (IH (known ∪ outs everything tx)) as [Hs Hself];
    [done|unfold uhs_apply; set_solver|].
  split; constructor; [done| |intros h Hh Ho|done].
  - apply Forall_forall. intros tx' Htx' h. split.
    + intros Hh. split.
      * intros Hh'. eapply (spent_stays_spent everything _ (known ∪ outs everything tx));
          [exact Hrun|done|by apply elem_of_union_l, Hsub, HinU| |exact Htx'
          |by apply elem_of_owned].
        unfold uhs_apply, ins. intros [[_ Hn]%elem_of_difference|Ho]%elem_of_union.
        -- by apply Hn, elem_of_owned.
        -- by apply (Hout h); [|apply HinU].
      * intros Ho. eapply fresh_history_elem; [exact Hf|exact Htx'|exact Ho|].
        by apply elem_of_union_l, Hsub, HinU.
    + intros Hh Ho. eapply fresh_history_elem; [exact Hf|exact Htx'|exact Ho|].
      apply elem_of_union_r. by apply elem_of_owned.
  - apply (Hout h); [by apply elem_of_owned|by apply HinU].
Qed.

Lemma proper_app_r txs1 txs2 :
  proper_history (txs1 ++ txs2) → proper_history txs2.
Proof.
  intros [Hs Hf]. split; [|by apply Forall_app in Hf as [_ ?]].
  by apply StronglySorted_app in Hs as (_ & _ & ?).
Qed.

Lemma proper_app_l txs1 txs2 :
  proper_history (txs1 ++ txs2) → proper_history txs1.
Proof.
  intros [Hs Hf]. split; [|by apply Forall_app in Hf as [? _]].
  by apply StronglySorted_app in Hs as (_ & ? & _).
Qed.

End History.

(** ** The block cache holds the transactions of its window *)

Module block_cache_lemmas.
Import block_cache compact_tx.
Abbreviation ids_t := (gmap hash_t (Z * hash_t)).

(** Transactions with the heights of their blocks. *)
Definition events (blks : list block) : list (Z * compact_tx.t) :=
  blks ≫= λ blk, (λ tx, (m_height blk, tx)) <$> m_transactions blk.

Lemma events_txs blks : (events blks).*2 = blks ≫= m_transactions.
Proof.
  induction blks as [|b blks IH]; [done|]. csimpl. unfold events in *. csimpl.
  rewrite fmap_app, IH, <- list_fmap_compose. f_equal. apply list_fmap_id.
Qed.

Lemma events_app b1 b2 : events (b1 ++ b2) = events b1 ++ events b2.
Proof. unfold events. apply bind_app. Qed.

(** [h] was consumed, or created, by a transaction of [evs]; [v] is the
    height and the id of that transaction. *)
Definition consumed_by (evs : list (Z * compact_tx.t)) (h : hash_t)
    (v : Z * hash_t) : Prop :=
  ∃ ht tx, (ht, tx) ∈ evs ∧ h ∈ m_inputs tx ∧ v = (ht, m_id tx).

Definition created_by (evs : list (Z * compact_tx.t)) (h : hash_t)
    (v : Z * hash_t) : Prop :=
  ∃ ht tx, (ht, tx) ∈ evs ∧ h ∈ m_uhs_outputs tx ∧ v = (ht, m_id tx).

(** What the two maps mean. *)
Record tracks (evs : list (Z * compact_tx.t)) (ids : ids_t * ids_t) : Prop := {
  tr_spent h v : ids.2 !! h = Some v ↔ consumed_by evs h v;
  tr_unspent h v :
    ids.1 !! h = Some v ↔ created_by evs h v ∧ ∀ v', ¬ consumed_by evs h v'
}.

Lemma consumed_by_app e1 e2 h v :
  consumed_by (e1 ++ e2) h v ↔ consumed_by e1 h v ∨ consumed_by e2 h v.
Proof. unfold consumed_by. setoid_rewrite elem_of_app. naive_solver. Qed.

Lemma created_by_app e1 e2 h v :
  created_by (e1 ++ e2) h v ↔ created_by e1 h v ∨ created_by e2 h v.
Proof. unfold created_by. setoid_rewrite elem_of_app. naive_solver. Qed.

Lemma consumed_by_one ht tx h v :
  consumed_by [(ht, tx)] h v ↔ h ∈ m_inputs tx ∧ v = (ht, m_id tx).
Proof. unfold consumed_by. setoid_rewrite list_elem_of_singleton. naive_solver. Qed.

Lemma created_by_one ht tx h v :
  created_by [(ht, tx)] h v ↔ h ∈ m_uhs_outputs tx ∧ v = (ht, m_id tx).
Proof. unfold created_by. setoid_rewrite list_elem_of_singleton. naive_solver. Qed.

Lemma event_tx ht tx (evs : list (Z * compact_tx.t)) : (ht, tx) ∈ evs → tx ∈ evs.*2.
Proof. intros H. by apply (list_elem_of_fmap_2 snd) in H. Qed.

(** The order of a proper history, between its first or last event and the
    others. *)
Lemma proper_first (ht : Z) tx (evs : list (Z * compact_tx.t)) :
  proper_history ((ht, tx) :: evs).*2 → ∀ ht' tx', (ht', tx') ∈ evs → before tx tx'.
Proof.
  intros [Hs _] ht' tx' Hin. csimpl in *. apply StronglySorted_inv in Hs as [_ Hs].
  eapply (proj1 (Forall_forall _ _)); [exact Hs|]. by eapply event_tx.
Qed.

Lemma proper_last (ht : Z) tx (evs : list (Z * compact_tx.t)) :
  proper_history (evs ++ [(ht, tx)]).*2 →
  (∀ ht' tx', (ht', tx') ∈ evs → before tx' tx) ∧
  ∀ h, h ∈ m_inputs tx → h ∉ m_uhs_outputs tx.
Proof.
  intros [Hs Hf]. rewrite fmap_app in *. csimpl in *.
  apply StronglySorted_app in Hs as (Hb & _ & _).
  apply Forall_app in Hf as [_ Hf]. apply Forall_cons in Hf as [Hf _].
  split; [|exact Hf]. intros ht' tx' Hin. apply Hb; [|by left]. by eapply event_tx.
Qed.

Lemma lookup_record_inputs v l : ∀ (ids : ids_t * ids_t) (h : hash_t),
  (foldl (record_input v) ids l).1 !! h =
    (if decide (h ∈ l) then None else ids.1 !! h) ∧
  (foldl (record_input v) ids l).2 !! h =
    (if decide (h ∈ l) then Some (default v (ids.2 !! h)) else ids.2 !! h).
Proof.
  intros ids h.
  assert (foldl (record_input v) ids l =
    (erase_keys l ids.1, foldl (λ m k, insert_new k v m) ids.2 l)) as ->.
  { revert ids. induction l as [|k l IH]; intros [u s]; [done|].
    cbn [foldl]. rewrite IH. done. }
  split; [apply lookup_erase_keys|apply lookup_insert_all].
Qed.

Lemma lookup_record_tx (ht : Z) (tx : compact_tx.t) (ids : ids_t * ids_t) (h : hash_t) :
  (record_tx ht ids tx).1 !! h =
    (if decide (h ∈ m_uhs_outputs tx)
     then Some (default (ht, m_id tx)
                  (if decide (h ∈ m_inputs tx) then None else ids.1 !! h))
     else if decide (h ∈ m_inputs tx) then None else ids.1 !! h) ∧
  (record_tx ht ids tx).2 !! h =
    (if decide (h ∈ m_inputs tx) then Some (default (ht, m_id tx) (ids.2 !! h))
     else ids.2 !! h).
Proof.
  unfold record_tx. cbn [fst snd]. rewrite lookup_insert_all.
  by destruct (lookup_record_inputs (ht, m_id tx) (m_inputs tx) ids h) as [-> ->].
Qed.

(** Recording a transaction extends the window. *)
Lemma record_tracks (ht : Z) tx (evs : list (Z * compact_tx.t)) ids :
  proper_history (evs ++ [(ht, tx)]).*2 → tracks evs ids →
  tracks (evs ++ [(ht, tx)]) (record_tx ht ids tx).
Proof.
  intros Hp [Hs Hu]. destruct (proper_last _ _ _ Hp) as [Hb Hself].
  split; intros h v; destruct (lookup_record_tx ht tx ids h) as [E1 E2].
  - rewrite E2, consumed_by_app, consumed_by_one, <- Hs.
    destruct (decide (h ∈ m_inputs tx)) as [Hin|Hin]; [|naive_solver].
    assert (ids.2 !! h = None) as ->; [|naive_solver].
    apply eq_None_not_Some. intros [v' (ht' & tx' & He & Hh & _)%Hs].
    by destruct (Hb _ _ He h) as [[]].
  - rewrite E1, created_by_app, created_by_one.
    setoid_rewrite consumed_by_app. setoid_rewrite consumed_by_one.
    destruct (decide (h ∈ m_uhs_outputs tx)) as [Ho|Ho].
    + rewrite decide_False by naive_solver.
      assert (ids.1 !! h = None) as E.
      { apply eq_None_not_Some. intros [v' [(ht' & tx' & He & Hh & _) _]%Hu].
        by destruct (Hb _ _ He h) as [_ []]. }
      rewrite E. simpl. split.
      * intros [= <-]. split; [by right|].
        intros v' [(ht' & tx' & He & Hh & _)|[Hh _]]; [|naive_solver].
        by destruct (Hb _ _ He h) as [[]].
      * intros [[Hc|[_ ->]] Hn]; [|done]. exfalso. eapply eq_None_not_Some; [exact E|].
        exists v. apply Hu. naive_solver.
    + destruct (decide (h ∈ m_inputs tx)) as [Hin|Hin]; rewrite ?Hu; naive_solver.
Qed.

(** Evicting the oldest transaction shortens it. *)
Lemma evict_tracks (ht : Z) tx (evs : list (Z * compact_tx.t)) ids :
  proper_history ((ht, tx) :: evs).*2 → tracks ((ht, tx) :: evs) ids →
  tracks evs (evict_tx ids tx).
Proof.
  intros Hp [Hs Hu]. pose proof (proper_first _ _ _ Hp) as Hb.
  change ((ht, tx) :: evs) with ([(ht, tx)] ++ evs) in *.
  setoid_rewrite consumed_by_app in Hs. setoid_rewrite consumed_by_one in Hs.
  setoid_rewrite consumed_by_app in Hu. setoid_rewrite created_by_app in Hu.
  setoid_rewrite consumed_by_one in Hu. setoid_rewrite created_by_one in Hu.
  split; intros h v; unfold evict_tx; cbn [fst snd]; rewrite lookup_erase_keys.
  - destruct (decide (h ∈ m_inputs tx)) as [Hin|Hin]; [|rewrite Hs; naive_solver].
    split; [done|]. intros (ht' & tx' & He & Hh & _). by destruct (Hb _ _ He h) as [[]].
  - destruct (decide (h ∈ m_uhs_outputs tx)) as [Ho|Ho].
    + split; [done|]. intros [(ht' & tx' & He & Hh & _) _].
      by destruct (Hb _ _ He h) as [_ []].
    + rewrite Hu. split; [naive_solver|]. intros [Hc Hn]. split; [by right|].
      intros v' [[Hin _]|Hv]; [|naive_solver].
      destruct Hc as (ht' & tx' & He & Hh & _). by destruct (Hb _ _ He h) as [[]].
Qed.

Lemma record_block_tracks (ht : Z) txs :
  ∀ (evs : list (Z * compact_tx.t)) ids,
  proper_history (evs ++ ((λ tx, (ht, tx)) <$> txs)).*2 → tracks evs ids →
  tracks (evs ++ ((λ tx, (ht, tx)) <$> txs)) (foldl (record_tx ht) ids txs).
Proof.
  induction txs as [|tx txs IH]; intros evs ids Hp Ht; csimpl in *.
  { by rewrite app_nil_r. }
  rewrite cons_middle, (assoc_L (++)) in *. apply IH; [done|].
  apply record_tracks; [|done]. rewrite fmap_app in Hp. by apply proper_app_l in Hp.
Qed.

Lemma evict_block_tracks (ht : Z) txs :
  ∀ (evs : list (Z * compact_tx.t)) ids,
  proper_history (((λ tx, (ht, tx)) <$> txs) ++ evs).*2 →
  tracks (((λ tx, (ht, tx)) <$> txs) ++ evs) ids →
  tracks evs (foldl evict_tx ids txs).
Proof.
  induction txs as [|tx txs IH]; intros evs ids Hp Ht; [done|]. csimpl in *.
  apply IH; [by apply (proper_app_r [tx])|]. by eapply evict_tracks.
Qed.

End block_cache_lemmas.

(** The last [k] of a list, all of it when [k] is zero. *)
Definition window {A} (k : nat) (l : list A) : list A :=
  if decide (k = 0) then l else drop (length l - k) l.

Lemma window_suffix {A} k (l : list A) : ∃ old, l = old ++ window k l.
Proof.
  unfold window. destruct (decide (k = 0)); [by exists []|].
  exists (take (length l - k) l). by rewrite take_drop.
Qed.

Lemma length_window {A} k (l : list A) :
  k ≠ 0 → length (window k l) = length l `min` k.
Proof. intros Hk. unfold window. rewrite decide_False by done. rewrite length_drop. lia. Qed.

(** Pushing at the end: the window grows, or drops its first element. *)
Lemma window_snoc_full {A} k (l : list A) x y rest :
  k ≠ 0 → length (window k l) = k → window k l = y :: rest →
  window k (l ++ [x]) = rest ++ [x].
Proof.
  intros Hk Hlen E. rewrite length_window in Hlen by done. unfold window in *.
  rewrite decide_False in * by done. rewrite length_app. simpl.
  rewrite drop_app_le by lia. f_equal.
  replace (length l + 1 - k) with (S (length l - k)) by lia.
  by rewrite <- (Nat.add_1_r (_ - _)), <- drop_drop, E.
Qed.

Lemma window_snoc_grow {A} k (l : list A) x :
  (k = 0 ∨ length (window k l) ≠ k) → window k (l ++ [x]) = window k l ++ [x].
Proof.
  intros Hk. destruct (decide (k = 0)) as [->|Hk0]; [done|].
  destruct Hk as [|Hlen]; [done|]. rewrite length_window in Hlen by done.
  unfold window. rewrite !decide_False by done. rewrite length_app. simpl.
  by replace (length l + 1 - k) with 0 by lia; replace (length l - k) with 0 by lia.
Qed.

Section BlockCache.
Import block_cache block_cache_lemmas.

(** The cache after the blocks [blks] were pushed. *)
Record cache_holds (k : nat) (blks : list block) (c : t) : Prop := {
  ch_k : m_k_blks c = k;
  ch_blks : m_blks c = window k blks;
  ch_best : m_best_blk_height c = foldl Z.max 0%Z (m_height <$> blks);
  ch_ids : tracks (events (window k blks)) (m_unspent_ids c, m_spent_ids c)
}.

Lemma cache_holds_init k : cache_holds k [] (init k).
Proof.
  assert (window k (@nil block) = []) as E.
  { unfold window. by destruct (decide (k = 0)). }
  split; rewrite ?E; [done..|]. split; intros h v; cbn [init m_unspent_ids m_spent_ids fst snd];
    rewrite lookup_empty; unfold consumed_by, created_by; cbn;
    setoid_rewrite elem_of_nil; naive_solver.
Qed.

Lemma window_proper k blks :
  proper_history (blks ≫= m_transactions) → proper_history (events (window k blks)).*2.
Proof.
  destruct (window_suffix k blks) as [old E]. rewrite E at 1.
  rewrite bind_app, events_txs. apply proper_app_r.
Qed.

(** After eviction there is room for the new block. *)
Lemma evict_front_holds k blks b c :
  proper_history (blks ≫= m_transactions) → cache_holds k blks c →
  ∃ rest, m_blks (evict_front c) = rest ∧ m_k_blks (evict_front c) = k ∧
    m_best_blk_height (evict_front c) = m_best_blk_height c ∧
    window k (blks ++ [b]) = rest ++ [b] ∧
    tracks (events rest) (m_unspent_ids (evict_front c), m_spent_ids (evict_front c)).
Proof.
  intros Hp [Hk Hb Hbest Ht]. pose proof (window_proper k blks Hp) as Hw.
  unfold evict_front. rewrite Hb, Hk.
  destruct (window k blks) as [|old rest] eqn:E.
  { exists []. rewrite Hb. repeat split_and!; [done|done|done| |exact Ht].
    rewrite window_snoc_grow; rewrite E; [done|]. simpl. lia. }
  destruct (decide _) as [[Hk0 Hlen]|Hn]; cbn [m_blks m_k_blks m_best_blk_height
    m_unspent_ids m_spent_ids].
  - exists rest. repeat split_and!; [done|done|done| |].
    + eapply window_snoc_full; [done|by rewrite E|exact E].
    + rewrite <- surjective_pairing. unfold events in Ht, Hw. csimpl in *.
      by eapply evict_block_tracks.
  - exists (old :: rest). rewrite Hb. repeat split_and!; [done|done|done| |exact Ht].
    rewrite window_snoc_grow; rewrite E; [done|]. destruct (decide (k = 0)); [by left|].
    right. intros Hlen. by apply Hn.
Qed.

Lemma push_block_holds k blks b c :
  proper_history ((blks ++ [b]) ≫= m_transactions) → cache_holds k blks c →
  cache_holds k (blks ++ [b]) (push_block c b).
Proof.
  intros Hp Hc. assert (proper_history (blks ≫= m_transactions)) as Hp0.
  { rewrite bind_app in Hp. by apply proper_app_l in Hp. }
  destruct (evict_front_holds k blks b c Hp0 Hc) as (rest & Er & Ek & Eb & Ew & Ht).
  unfold push_block. rewrite Er, Ek, Eb. split; cbn [m_k_blks m_blks
    m_best_blk_height m_unspent_ids m_spent_ids]; [done|done| |].
  - rewrite fmap_app, foldl_app, (ch_best _ _ _ Hc). done.
  - rewrite <- surjective_pairing, Ew, events_app. unfold events at 2. csimpl.
    rewrite app_nil_r. apply record_block_tracks; [|done].
    apply (window_proper k) in Hp. rewrite Ew, events_app in Hp.
    unfold events at 2 in Hp. csimpl in Hp. by rewrite app_nil_r in Hp.
Qed.

End BlockCache.

Lemma bind_concat {A B} (f : A → list B) l : l ≫= f = concat (f <$> l).
Proof. induction l as [|x l IH]; csimpl; [done|]. by rewrite IH. Qed.

Lemma list_bind_singleton_ext {A B} (f : A → list B) (g : A → B) l :
  (∀ x, x ∈ l → f x = [g x]) → l ≫= f = g <$> l.
Proof.
  intros Hf. induction l as [|x l IH]; csimpl; [done|].
  rewrite (Hf x), IH; [done| |by left]. intros y Hy. apply Hf. by right.
Qed.

(** ** The error cache *)

Module error_cache_lemmas.
Import error_cache.

Definition about (tx_id : hash_t) (err : wt_error) : Prop := m_tx_id err = tx_id.

#[global] Instance about_dec tx_id err : Decision (about tx_id err).
Proof. unfold about. apply _. Defined.

(** The cache after the errors [es] were pushed, over any number of calls. *)
Record holds_errors (k : nat) (es : list wt_error) (c : t) : Prop := {
  he_k : m_k_errs c = k;
  he_errs : m_errs c = window k es;
  he_tx tx_id e :
    m_tx_id_errs c !! tx_id = Some e → e ∈ window k es ∧ m_tx_id e = tx_id;
  he_uhs h e :
    m_uhs_errs c !! h = Some e → e ∈ window k es ∧ h ∈ err_uhs_ids (m_info e);
  he_complete e :
    filter (about (m_tx_id e)) es = [e] → e ∈ window k es →
    m_tx_id_errs c !! m_tx_id e = Some e
}.

Lemma holds_errors_init k : holds_errors k [] (init k).
Proof.
  split; [done| |intros ??|intros ??|done].
  - unfold window. by destruct (decide (k = 0)).
  - cbn. by rewrite lookup_empty.
  - cbn. by rewrite lookup_empty.
Qed.

(** After eviction there is room for the new error [x]. *)
Lemma evict_err_holds k es x c :
  holds_errors k es c →
  ∃ rest, m_errs (evict_err c) = rest ∧ m_k_errs (evict_err c) = k ∧
    window k (es ++ [x]) = rest ++ [x] ∧
    (∀ tx_id e, m_tx_id_errs (evict_err c) !! tx_id = Some e →
       e ∈ rest ∧ m_tx_id e = tx_id) ∧
    (∀ h e, m_uhs_errs (evict_err c) !! h = Some e →
       e ∈ rest ∧ h ∈ err_uhs_ids (m_info e)) ∧
    (∀ e, filter (about (m_tx_id e)) es = [e] → e ∈ rest →
       m_tx_id_errs (evict_err c) !! m_tx_id e = Some e).
Proof.
  intros [Hk He Ht Hu Hc]. unfold evict_err. rewrite He, Hk.
  destruct (window k es) as [|old rest] eqn:E.
  { exists []. rewrite He. repeat split_and!; [done|done| |done..].
    rewrite window_snoc_grow; rewrite E; [done|]. simpl. lia. }
  destruct (decide _) as [[Hk0 Hlen]|Hn]; cbn [m_errs m_k_errs m_tx_id_errs m_uhs_errs].
  - exists rest. repeat split_and!; [done|done| |intros tx_id e Hl|intros h e Hl|].
    + eapply window_snoc_full; [done|by rewrite E|exact E].
    + apply lookup_delete_Some in Hl as [Hne [Hin Hid]%Ht].
      split; [|done]. apply elem_of_cons in Hin as [->|]; [|done]. by subst.
    + rewrite lookup_erase_keys in Hl. destruct (decide _) as [|Hni]; [done|].
      apply Hu in Hl as [Hin Hid]. split; [|done].
      by apply elem_of_cons in Hin as [->|].
    + intros e Hf Hin. rewrite lookup_delete_ne; [apply Hc; [done|by right]|].
      intros Hid. destruct (window_suffix k es) as [pre Ees]. rewrite E in Ees.
      assert (length (filter (about (m_tx_id e)) es) = 1) as Hl by by rewrite Hf.
      rewrite Ees, filter_app, length_app, filter_cons_True in Hl by done. simpl in Hl.
      assert (e ∈ filter (about (m_tx_id e)) rest) as Hin'
        by (by apply list_elem_of_filter).
      destruct (filter (about (m_tx_id e)) rest); [|simpl in Hl; lia].
      by apply elem_of_nil in Hin'.
  - exists (old :: rest). rewrite He. repeat split_and!; [done|done| |done..].
    rewrite window_snoc_grow; rewrite E; [done|]. destruct (decide (k = 0)); [by left|].
    right. intros Hlen. by apply Hn.
Qed.

Lemma push_error_holds k es x c :
  holds_errors k es c → holds_errors k (es ++ [x]) (push_error c x).
Proof.
  intros Hc. destruct (evict_err_holds k es x c Hc)
    as (rest & Er & Ek & Ew & Ht & Hu & Hco).
  unfold push_error. rewrite Er, Ek. split; cbn [m_errs m_k_errs m_tx_id_errs m_uhs_errs];
    rewrite ?Ew; [done|done|intros tx_id e|intros h e|intros e Hf Hin].
  - rewrite lookup_insert_new. destruct (decide _) as [->|]; [|intros [? ?]%Ht; set_solver].
    destruct (_ !! _) as [e'|] eqn:E; simpl; intros [= <-]; [|set_solver].
    apply Ht in E. set_solver.
  - rewrite lookup_insert_all. destruct (decide _) as [Hin|]; [|intros [? ?]%Hu; set_solver].
    destruct (_ !! _) as [e'|] eqn:E; simpl; intros [= <-]; [|set_solver].
    apply Hu in E. set_solver.
  - rewrite lookup_insert_new, filter_app in *. destruct (decide _) as [Hid|Hid].
    + rewrite (filter_cons_True _ x) in Hf by done. simpl in Hf.
      apply (app_inj_2 _ [] _ [e]) in Hf as [Hnil [= ->]]; [|done].
      destruct (_ !! m_tx_id e) as [e'|] eqn:E; [|done].
      apply Ht in E as [Hin' Hid']. exfalso.
      destruct (window_suffix k (es ++ [e])) as [pre Ees]. rewrite Ew in Ees.
      rewrite (assoc_L (++)) in Ees. apply app_inj_tail in Ees as [-> _].
      rewrite filter_app in Hnil. apply app_eq_nil in Hnil as [_ Hnil].
      assert (e' ∈ filter (about (m_tx_id e)) rest) as Hx by (by apply list_elem_of_filter).
      rewrite Hnil in Hx. by apply elem_of_nil in Hx.
    + rewrite (filter_cons_False _ x), app_nil_r in Hf by (unfold about; congruence).
      apply Hco; [done|]. apply elem_of_app in Hin as [|Hx]; [done|].
      apply list_elem_of_singleton in Hx. by subst.
Qed.

Lemma push_errors_holds k es xs : ∀ c,
  holds_errors k es c → holds_errors k (es ++ xs) (push_errors c xs).
Proof.
  revert es. induction xs as [|x xs IH]; intros es c Hc.
  { by rewrite app_nil_r. }
  rewrite cons_middle, (assoc_L (++)). by apply IH, push_error_holds.
Qed.

(** Errors about other transactions do not make up one about [tx_id]. *)
Lemma push_errors_other tx_id xs : ∀ c,
  Forall (λ x, m_tx_id x ≠ tx_id) xs → check_tx_id c tx_id = None →
  check_tx_id (push_errors c xs) tx_id = None.
Proof.
  induction xs as [|x xs IH]; intros c Hf Hn; [done|].
  apply Forall_cons in Hf as [Hx Hf]. apply IH; [done|]. unfold check_tx_id, push_error in *.
  cbn [m_tx_id_errs]. rewrite lookup_insert_new, decide_False by done.
  unfold evict_err. case_match; [done|]. destruct (decide _); [|done].
  cbn [m_tx_id_errs]. rewrite lookup_delete_None. by right.
Qed.

End error_cache_lemmas.

(** ** What a status answer means *)

Section Status.
Import block_cache_lemmas error_cache_lemmas watchtower.

(** The blocks and error reports a watchtower receives, in order. *)
Inductive wt_event :=
| wt_block (blk : block)
| wt_errors (errs : list wt_error).

Definition wt_step (w : t) (ev : wt_event) : t :=
  match ev with
  | wt_block blk => add_block w blk
  | wt_errors errs => add_errors w errs
  end.

Definition blocks_of (trace : list wt_event) : list block :=
  trace ≫= λ ev, match ev with wt_block blk => [blk] | wt_errors _ => [] end.

Definition errors_of (trace : list wt_event) : list wt_error :=
  trace ≫= λ ev, match ev with wt_block _ => [] | wt_errors errs => errs end.

(** The transactions of the received blocks are a history of the abstract
    unspent set. *)
Definition settles (U0 : gset hash_t) (trace : list wt_event) : Prop :=
  let txs := blocks_of trace ≫= m_transactions in
  uhs_run everything U0 txs (foldl (uhs_apply everything) U0 txs) ∧
  fresh_history everything U0 txs.

(** A watchtower that received [trace]: the block cache holds the window of
    the blocks, the error cache the window of those reports that were not
    about a transaction the block cache had seen settle. *)
Record wt_at (kb ke : nat) (trace : list wt_event) (kept : list wt_error)
    (w : t) : Prop := {
  wa_bc : cache_holds kb (blocks_of trace) (m_bc w);
  wa_ec : holds_errors ke kept (m_ec w);
  wa_kept : ∀ e, e ∈ kept → e ∈ errors_of trace
}.

Lemma settles_proper U0 trace :
  settles U0 trace → proper_history (blocks_of trace ≫= m_transactions).
Proof. intros [Hr Hf]. by eapply uhs_run_proper. Qed.

Lemma wt_run_at kb ke trace : 
  proper_history (blocks_of trace ≫= m_transactions) →
  ∃ kept, wt_at kb ke trace kept (foldl wt_step (init kb ke) trace).
Proof.
  induction trace as [|ev trace IH] using rev_ind; intros Hp.
  { exists []. split; [apply cache_holds_init|apply holds_errors_init|].
    by intros e He%elem_of_nil. }
  unfold blocks_of in Hp. rewrite !bind_app in Hp.
  destruct (IH (proper_app_l _ _ Hp)) as (kept & [Hbc Hec Hk]).
  rewrite foldl_app. destruct ev as [blk|errs]; cbn [foldl wt_step].
  - exists kept. split.
    + unfold blocks_of. rewrite bind_app. csimpl. apply push_block_holds; [|done].
      by rewrite bind_app.
    + exact Hec.
    + intros e He. unfold errors_of. rewrite bind_app. apply elem_of_app. left. by apply Hk.
  - eexists (kept ++ filter _ errs). split.
    + unfold blocks_of. rewrite bind_app. csimpl. rewrite app_nil_r. exact Hbc.
    + by apply push_errors_holds.
    + intros e He. unfold errors_of. rewrite bind_app. csimpl. rewrite app_nil_r.
      apply elem_of_app in He as [He|[_ He]%list_elem_of_filter]; apply elem_of_app.
      * left. by apply Hk.
      * by right.
Qed.

(** The states [sts] reported for the hash [h] of transaction [tx_id]. *)
Record reported (evs : list (Z * compact_tx.t)) (err uhs_err : option wt_error)
    (best : Z) (tx_id h : hash_t) (sts : list status_update_state) : Prop := {
  rp_spent ht :
    {| m_status := spent; m_block_height := ht; m_uhs_id := h |} ∈ sts ↔
    consumed_by evs h (ht, tx_id);
  rp_unspent ht :
    {| m_status := unspent; m_block_height := ht; m_uhs_id := h |} ∈ sts ↔
    created_by evs h (ht, tx_id) ∧ ∀ v, ¬ consumed_by evs h v;
  rp_internal ht :
    {| m_status := internal_error; m_block_height := ht; m_uhs_id := h |} ∈ sts ↔
    ht = best ∧ ∃ e, err = Some e ∧ is_internal e = true;
  rp_invalid ht :
    {| m_status := invalid_input; m_block_height := ht; m_uhs_id := h |} ∈ sts ↔
    ht = best ∧ (∃ e, err = Some e ∧ is_internal e = false) ∧ is_Some uhs_err;
  rp_rejected ht :
    {| m_status := tx_rejected; m_block_height := ht; m_uhs_id := h |} ∈ sts ↔
    ht = best ∧ (∃ e, err = Some e ∧ is_internal e = false) ∧ uhs_err = None;
  rp_none ht :
    {| m_status := no_history; m_block_height := ht; m_uhs_id := h |} ∈ sts ↔
    ht = best ∧ err = None ∧ (∀ ht', ¬ consumed_by evs h (ht', tx_id)) ∧
    ((∃ v, consumed_by evs h v) ∨ ∀ ht', ¬ created_by evs h (ht', tx_id));
  rp_ids st : st ∈ sts → m_uhs_id st = h;
  rp_one : err = None → length sts = 1
}.

(** The answer of the block cache for one hash. *)
Lemma block_states_spec kb blks w tx_id h :
  cache_holds kb blks (m_bc w) →
  let evs := events (window kb blks) in
  (∃ ht, block_states w tx_id h =
      [{| m_status := spent; m_block_height := ht; m_uhs_id := h |}] ∧
    ∀ ht', consumed_by evs h (ht', tx_id) ↔ ht' = ht) ∨
  (∃ ht, block_states w tx_id h =
      [{| m_status := unspent; m_block_height := ht; m_uhs_id := h |}] ∧
    (∀ ht', created_by evs h (ht', tx_id) ↔ ht' = ht) ∧
    ∀ v, ¬ consumed_by evs h v) ∨
  (block_states w tx_id h = [] ∧ (∀ ht, ¬ consumed_by evs h (ht, tx_id)) ∧
    ((∃ v, consumed_by evs h v) ∨ ∀ ht, ¬ created_by evs h (ht, tx_id))).
Proof.
  intros Hc evs. destruct (ch_ids _ _ _ Hc) as [Hs Hu]. cbn [fst snd] in Hs, Hu.
  fold evs in Hs, Hu.
  unfold block_states, block_cache.check_spent, block_cache.check_unspent.
  destruct (block_cache.m_spent_ids (m_bc w) !! h) as [[ht id]|] eqn:E.
  - destruct (decide (id = tx_id)) as [->|Hne].
    { left. exists ht. split; [done|]. intros ht'. rewrite <- Hs, E. naive_solver. }
    right; right. split; [done|]. split; [|left; exists (ht, id); by apply Hs].
    intros ht' Hc'%Hs. rewrite E in Hc'. by simplify_eq.
  - assert (∀ v, ¬ consumed_by evs h v) as Hn.
    { intros v Hv%Hs. by rewrite E in Hv. }
    assert (∀ v, created_by evs h v ↔ block_cache.m_unspent_ids (m_bc w) !! h = Some v)
      as Hcr by (intros v; rewrite Hu; naive_solver).
    destruct (block_cache.m_unspent_ids (m_bc w) !! h) as [[ht id]|].
    + destruct (decide (id = tx_id)) as [->|Hne].
      * right; left. exists ht. split; [done|]. split; [|done].
        intros ht'. rewrite Hcr. naive_solver.
      * right; right. split; [done|]. split; [naive_solver|]. right.
        intros ht'. rewrite Hcr. naive_solver.
    + right; right. split; [done|]. split; [naive_solver|]. right.
      intros ht'. rewrite Hcr. naive_solver.
Qed.

Lemma uhs_id_states_reported kb blks w tx_id h best :
  cache_holds kb blks (m_bc w) →
  let err := error_cache.check_tx_id (m_ec w) tx_id in
  reported (events (window kb blks)) err (error_cache.check_uhs_id (m_ec w) h) best
    tx_id h
    (uhs_id_states w tx_id
       (match err with Some e => is_internal e | None => false end)
       (bool_decide (is_Some err)) best h).
Proof.
  intros Hc err. pose proof (block_states_spec kb blks w tx_id h Hc) as Hb.
  cbv zeta in Hb. revert Hb. generalize (events (window kb blks)) as evs. intros evs Hb.
  unfold uhs_id_states, error_states.
  destruct err as [e|]; [rewrite bool_decide_true by eauto; destruct (is_internal e) eqn:Ei;
    [|destruct (error_cache.check_uhs_id (m_ec w) h) as [ue|]]
  |rewrite bool_decide_false by (by intros [])];
  destruct Hb as [(ht & -> & Hh)|[(ht & -> & Hh & Hn)|(-> & Hn & Hh)]];
  simpl; split; try intros ht'; rewrite ?elem_of_cons, ?elem_of_nil;
    first [naive_solver | naive_solver congruence].
Qed.

(** C27: what the answer to a status request means.  A watchtower that
    received any interleaving of error reports with blocks of a valid history
    answers for exactly the requested transactions, in the order of the
    requested hashes.  A hash is reported spent at a height if and only if
    this very transaction consumed it in a block of that height in the window
    of the block cache, and unspent if and only if this transaction created it
    there and nothing consumed it.  Every other hash without an error has no
    history, also one that the transaction created and another transaction of
    the window consumed, which the documentation of the states does not say.
    The error states come with a cached error about the transaction, which was
    reported to the watchtower; a hash without an error has exactly one
    state. *)
Theorem status_request_meaning U0 kb ke trace c req :
  settles U0 trace →
  wt_controller.m_watchtower c = foldl wt_step (init kb ke) trace →
  let blks := blocks_of trace in
  ∃ states,
    wt_controller.external_server_handler c (status_update_request req) =
      status_request_check_success states ∧
    dom states = dom req ∧
    ∀ tx_id ids, req !! tx_id = Some ids →
      ∃ err stss, states !! tx_id = Some (concat stss) ∧
        (∀ e, err = Some e → m_tx_id e = tx_id ∧ e ∈ errors_of trace) ∧
        Forall2 (λ h, reported (events (window kb blks)) err
                   (error_cache.check_uhs_id
                      (m_ec (wt_controller.m_watchtower c)) h)
                   (foldl Z.max 0%Z (m_height <$> blks)) tx_id h) ids stss.
Proof.
  intros Hs Ew blks. destruct (wt_run_at kb ke trace (settles_proper _ _ Hs))
    as (kept & [Hbc Hec Hk]). rewrite <- Ew in Hbc, Hec.
  eexists. split; [reflexivity|]. split.
  { apply dom_imap_L. intros tx_id. rewrite elem_of_dom. unfold is_Some. naive_solver. }
  intros tx_id ids Hreq. rewrite map_lookup_imap, Hreq.
  exists (error_cache.check_tx_id (m_ec (wt_controller.m_watchtower c)) tx_id).
  eexists (uhs_id_states _ _ _ _ _ <$> ids). split; [|split].
  - cbn [option_bind mbind]. f_equal. unfold check_uhs_id_statuses.
    apply bind_concat.
  - intros e He. destruct (he_tx _ _ _ Hec tx_id e He) as [Hin Hid]. split; [done|].
    apply Hk. destruct (window_suffix ke kept) as [pre E]. rewrite E.
    apply elem_of_app. by right.
  - apply Forall2_fmap_r, Forall_Forall2_diag, Forall_true. intros h.
    unfold blks. rewrite <- (ch_best _ _ _ Hbc). by apply uhs_id_states_reported.
Qed.

(** Late errors about a settled transaction are dropped by the filter. *)
Lemma late_error_filtered kb blks bc ht tx e h :
  cache_holds kb blks bc → (ht, tx) ∈ events (window kb blks) →
  m_tx_id e = compact_tx.m_id tx → h ∈ compact_tx.m_inputs tx →
  h ∈ error_cache.err_uhs_ids (m_info e) → repeated_tx_filter bc e = true.
Proof.
  intros Hc Hin Hid Hh He. unfold repeated_tx_filter. apply existsb_exists.
  exists h. split; [by apply list_elem_of_In|]. apply orb_true_iff. left.
  unfold block_cache.check_spent.
  assert (block_cache.m_spent_ids bc !! h = Some (ht, compact_tx.m_id tx)) as ->.
  { apply (tr_spent _ _ (ch_ids _ _ _ Hc)). by exists ht, tx. }
  simpl. by apply bool_decide_true.
Qed.

(** A settled transaction stays settled for its clients.  While the block
    of a transaction is in the window and no error about the transaction was
    cached before, whatever errors arrive afterwards, if those about this
    transaction name one of its inputs, every input is answered with the
    single state spent, at the height of the block. *)
Theorem settled_tx_reported U0 kb ke trace w errs ht tx :
  settles U0 trace → w = foldl wt_step (init kb ke) trace →
  (ht, tx) ∈ events (window kb (blocks_of trace)) →
  error_cache.check_tx_id (m_ec w) (compact_tx.m_id tx) = None →
  Forall (λ e, m_tx_id e = compact_tx.m_id tx →
     ∃ h, h ∈ compact_tx.m_inputs tx ∧ h ∈ error_cache.err_uhs_ids (m_info e)) errs →
  handle_status_update_request (add_errors w errs)
    {[ compact_tx.m_id tx := compact_tx.m_inputs tx ]} =
  status_request_check_success
    {[ compact_tx.m_id tx :=
       (λ h, {| m_status := spent; m_block_height := ht; m_uhs_id := h |}) <$>
         compact_tx.m_inputs tx ]}.
Proof.
  intros Hs Ew Hin Hn Herr. destruct (wt_run_at kb ke trace (settles_proper _ _ Hs))
    as (kept & [Hbc _ _]). rewrite <- Ew in Hbc.
  assert (error_cache.check_tx_id (m_ec (add_errors w errs)) (compact_tx.m_id tx) = None)
    as Hn'.
  { apply push_errors_other; [|done]. apply Forall_forall.
    intros e [Hf He]%list_elem_of_filter Hid.
    destruct (proj1 (Forall_forall _ _) Herr e He Hid) as (h & Hh & Hh').
    by rewrite (late_error_filtered _ _ _ _ _ _ _ Hbc Hin Hid Hh Hh') in Hf. }
  unfold handle_status_update_request. f_equal. apply map_eq. intros id.
  rewrite map_lookup_imap. destruct (decide (id = compact_tx.m_id tx)) as [->|Hne].
  2:{ by rewrite !lookup_singleton_ne. }
  rewrite !lookup_singleton_eq. cbn [mbind option_bind]. rewrite Hn'. f_equal.
  unfold check_uhs_id_statuses. apply list_bind_singleton_ext. intros h Hh.
  unfold uhs_id_states, error_states. simpl.
  destruct (block_states_spec kb (blocks_of trace) (add_errors w errs)
    (compact_tx.m_id tx) h Hbc) as [(ht' & -> & Hc)|[(ht' & _ & _ & Hc)|(_ & Hc & _)]].
  - simpl. by rewrite (proj1 (Hc ht)) by (by exists ht, tx).
  - exfalso. apply (Hc (ht, compact_tx.m_id tx)). by exists ht, tx.
  - exfalso. apply (Hc ht). by exists ht, tx.
Qed.

End Status.

(** ** Catching up with the chain *)

Section WatchtowerCatchUp.
Import wt_controller.

(** The blocks of a chain with their heights 1, 2, 3, ... *)
Definition numbered (bs : list (list compact_tx.t)) : list block :=
  imap (λ i txs, {| m_height := Z.of_nat (S i); m_transactions := txs |}) bs.

Lemma lookup_numbered bs i txs :
  bs !! i = Some txs →
  numbered bs !! i = Some {| m_height := Z.of_nat (S i); m_transactions := txs |}.
Proof. intros H. unfold numbered. by rewrite list_lookup_imap, H. Qed.

(** The archiver serves the chain, except that it may not have a block yet at
    one of the first [n0] requests. *)
Definition eventually_serves (get_block : nat → Z → option block)
    (bs : list (list compact_tx.t)) (n0 : nat) : Prop :=
  ∀ n k blk, numbered bs !! k = Some blk →
    get_block n (Z.of_nat (S k)) = Some blk ∨
    get_block n (Z.of_nat (S k)) = None ∧ n < n0.

Lemma wt_catch_up_spec get_block bs n0 j :
  eventually_serves get_block bs n0 → j < length bs → (Z.of_nat j < 2 ^ 63)%Z →
  ∀ fuel n k w, k ≤ j → n0 - n + (j - k) ≤ fuel →
  catch_up get_block fuel n (mk w (Z.of_nat k)) (Z.of_nat (S j)) =
    Some (mk (foldl watchtower.add_block w (take (j - k) (drop k (numbered bs))))
            (Z.of_nat j)).
Proof.
  intros Hg Hj Hlt. induction fuel as [|fuel IH]; intros n k w Hk Hfuel;
    cbn [catch_up m_last_blk_height m_watchtower];
    rewrite add64_exact by (unfold is_u64; lia).
  { replace k with j by lia. rewrite decide_True by lia. by rewrite Nat.sub_diag. }
  destruct (decide (Z.of_nat (S j) = Z.of_nat k + 1)%Z) as [E|E].
  { replace k with j by lia. by rewrite Nat.sub_diag. }
  replace (Z.of_nat k + 1)%Z with (Z.of_nat (S k)) by lia.
  destruct (lookup_lt_is_Some_2 bs k) as [txs Hk']; [lia|].
  apply lookup_numbered in Hk'.
  destruct (Hg n k _ Hk') as [->|[-> Hn]]; [|apply IH; lia].
  cbn [m_height]. rewrite IH by lia. do 2 f_equal.
  replace (j - k) with (S (j - S k)) by lia. by rewrite (drop_S _ _ _ Hk').
Qed.

(** A watchtower that missed blocks adds all of them in order, and then
    the block that arrived, in at most one request per missed block and one
    per answer that the archiver does not have it yet. *)
Theorem watchtower_catches_up get_block bs n0 k j blk w fuel :
  eventually_serves get_block bs n0 → (Z.of_nat (length bs) < 2 ^ 63)%Z →
  k ≤ j → numbered bs !! j = Some blk → n0 + (j - k) ≤ fuel →
  atomizer_handler get_block fuel (mk w (Z.of_nat k)) blk =
    Some (mk (foldl watchtower.add_block w (take (S j - k) (drop k (numbered bs))))
            (Z.of_nat (S j))).
Proof.
  intros Hg Hlt Hk Hj Hfuel. unfold atomizer_handler.
  assert (j < length bs) as Hjl.
  { apply lookup_lt_Some in Hj. unfold numbered in Hj. by rewrite length_imap in Hj. }
  destruct (lookup_lt_is_Some_2 bs j Hjl) as [txs Htxs].
  apply lookup_numbered in Htxs as Hnum. rewrite Hnum in Hj. injection Hj as <-.
  cbn [m_height]. rewrite (wt_catch_up_spec get_block bs n0 j) by (done || lia).
  cbn [m_watchtower]. do 2 f_equal. replace (S j - k) with (j - k + 1) by lia.
  rewrite <- take_take_drop, drop_drop, foldl_app.
  replace (k + (j - k)) with j by lia. by rewrite (drop_S _ _ _ Hnum).
Qed.

(** A block at or below the watchtower's height starts a search for it that
    goes through the later blocks of the chain and waits at its end. *)
Theorem stale_block_not_handled get_block c blk fuel :
  (∀ n h b, get_block n h = Some b → m_height b = h) →
  (0 ≤ m_height blk ≤ m_last_blk_height c)%Z →
  (m_last_blk_height c + Z.of_nat fuel < 2 ^ 64 - 1)%Z →
  atomizer_handler get_block fuel c blk = None.
Proof.
  intros Hg Hh Hlt. unfold atomizer_handler.
  assert (∀ n, catch_up get_block fuel n c (m_height blk) = None) as H; [|by rewrite H].
  revert c Hh Hlt. induction fuel as [|fuel IH]; intros c Hh Hlt n; cbn [catch_up];
    rewrite add64_exact by (unfold is_u64; lia); rewrite decide_False by lia; [done|].
  destruct (get_block n _) as [b|] eqn:E; [|apply IH; lia].
  apply Hg in E. apply IH; cbn [m_last_blk_height]; lia.
Qed.

End WatchtowerCatchUp.

(** ** Examples *)

Section WatchtowerExamples.
Import Toy atm_example block_cache_lemmas error_cache_lemmas watchtower.

(** The watchtower sees an empty block, an error about another transaction
    and the block with [spend]. *)
Definition other_id : hash_t := replicate 32 x77.
Definition foreign_error : wt_error :=
  {| m_tx_id := other_id; m_info := tx_error_inputs_dne [coin] |}.
Definition late_error : wt_error :=
  {| m_tx_id := compact_tx.m_id spend; m_info := tx_error_inputs_spent {[ coin ]} |}.

Definition example_trace : list wt_event :=
  [wt_block {| m_height := 1; m_transactions := [] |}; wt_errors [foreign_error];
   wt_block {| m_height := 2; m_transactions := [spend] |}].

Lemma example_settles : settles {[ coin ]} example_trace.
Proof.
  split; [|compute_decide]. constructor; [compute_decide|compute_decide|].
  constructor.
Qed.

Lemma spend_in_window : (2%Z, spend) ∈ events (window 1 (blocks_of example_trace)).
Proof. by left. Qed.

Lemma status_request_meaning_witness :
  ∃ states,
    wt_controller.external_server_handler
      (wt_controller.mk (foldl wt_step (init 1 1) example_trace) 2)
      (status_update_request {[ compact_tx.m_id spend := [coin] ]}) =
      status_request_check_success states ∧
    dom states = {[ compact_tx.m_id spend ]}.
Proof.
  destruct (status_request_meaning {[ coin ]} 1 1 example_trace
    (wt_controller.mk (foldl wt_step (init 1 1) example_trace) 2)
    {[ compact_tx.m_id spend := [coin] ]} example_settles eq_refl)
    as (states & E & Hd & _).
  exists states. split; [exact E|]. rewrite Hd. apply dom_singleton_L.
Defined.

Lemma settled_tx_reported_witness :
  handle_status_update_request
    (add_errors (foldl wt_step (init 1 1) example_trace) [late_error])
    {[ compact_tx.m_id spend := [coin] ]} =
  status_request_check_success
    {[ compact_tx.m_id spend :=
       [{| m_status := spent; m_block_height := 2; m_uhs_id := coin |}] ]}.
Proof.
  apply (settled_tx_reported {[ coin ]} 1 1 example_trace
    (foldl wt_step (init 1 1) example_trace) [late_error] 2 spend);
    [apply example_settles|reflexivity|apply spend_in_window
    |vm_compute; reflexivity|].
  constructor; [|constructor]. intros _. exists coin. split; compute_decide.
Defined.

(** The archiver has the first block only at the second request. *)
Definition slow_archiver (n : nat) (h : Z) : option block :=
  if decide (n = 0) then None else numbered example_chain !! pred (Z.to_nat h).

Lemma watchtower_catches_up_witness :
  wt_controller.atomizer_handler slow_archiver 2
    (wt_controller.mk (init 1 1) 0) {| m_height := 2; m_transactions := [spend] |} =
  Some (wt_controller.mk (foldl add_block (init 1 1) (numbered example_chain)) 2).
Proof.
  apply (watchtower_catches_up slow_archiver example_chain 1 0 1);
    [|simpl; lia|lia|reflexivity|lia].
  intros n k blk Hk. unfold slow_archiver.
  replace (pred (Z.to_nat (Z.of_nat (S k)))) with k by lia.
  destruct (decide (n = 0)); [right; split; [done|lia]|by left].
Defined.

(** An output that another transaction has spent is reported to the client
    of the transaction that created it as having no history, although the
    block cache knows that it is spent. *)
Definition output_id : hash_t := replicate 32 x55.
Definition create_tx : compact_tx.t := compact_tx.mk (replicate 32 x01) [coin] [output_id] ∅.
Definition consume_tx : compact_tx.t := compact_tx.mk (replicate 32 x02) [output_id] [] ∅.

Definition spent_output_trace : list wt_event :=
  [wt_block {| m_height := 1; m_transactions := [create_tx] |};
   wt_block {| m_height := 2; m_transactions := [consume_tx] |}].

Example spent_output_has_no_history :
  let w := foldl wt_step (init 0 0) spent_output_trace in
  block_cache.check_spent (m_bc w) output_id = Some (2%Z, compact_tx.m_id consume_tx) ∧
  check_uhs_id_statuses w [output_id] (compact_tx.m_id create_tx) false false 2 =
    [{| m_status := no_history; m_block_height := 2; m_uhs_id := output_id |}].
Proof. split; vm_compute; reflexivity. Qed.

(** Two errors about one transaction: when the first leaves the cache of two,
    the second is still stored but no longer found. *)
Example repeated_error_forgotten :
  let c := error_cache.push_errors (error_cache.init 2)
             [late_error; late_error; foreign_error] in
  error_cache.m_errs c = [late_error; foreign_error] ∧
  error_cache.check_tx_id c (m_tx_id late_error) = None.
Proof. split; vm_compute; reflexivity. Qed.

(** An error that came before the block: a settled input has two states. *)
Example early_error_two_states :
  let w := foldl wt_step (init 0 0)
             [wt_errors [late_error];
              wt_block {| m_height := 1; m_transactions := [spend] |}] in
  m_status <$> check_uhs_id_statuses w [coin] (compact_tx.m_id spend) false true 1 =
    [invalid_input; spent].
Proof. vm_compute. reflexivity. Qed.

End WatchtowerExamples.
