(* ===== verification/Messages.v ===== *)
(** * Wire formats of the messages

    Model of the [operator<<]/[operator>>] pairs of the components'
    messages: [src/uhs/atomizer/atomizer/format.cpp],
    [src/uhs/atomizer/watchtower/{messages,status_update_messages,
    tx_error_messages}.cpp], [src/uhs/twophase/locking_shard/format.cpp],
    [src/uhs/twophase/coordinator/format.cpp] and [src/util/rpc/format.hpp],
    with the readers of hash sets and variants of
    [src/util/serialization/format.hpp].  Every message that is written is
    read back; a variant index that names no alternative aborts. *)

From Stdlib Require Import ZArith Lia.
From Stdlib.Strings Require Import Byte.
From stdpp Require Import base tactics numbers gmap sets list.
From S2P Require Import Prelude Serialization Crypto Transaction Validation.
From S2P Require Import UhsSpec LockingShard Coordinator Atomizer Watchtower.
Open Scope cbdc_scope.

(** ** Readers that may abort

    Reading a variant checks its index with an assertion.  The state of such
    a reader also records whether the assertion failed; nothing that follows
    matters then, since the process has ended. *)

Module aborting.

Record t (St : Type) := mk { ser : St; aborted : bool }.
Arguments mk {St}.
Arguments ser {St}.
Arguments aborted {St}.

Section Instances.
Context {St : Type} `{Serializer St}.

Definition abort (s : t St) : t St := mk (ser s) true.

Definition read (s : t St) (len : nat) : t St * option (list byte) :=
  if aborted s then (s, None)
  else let (s', bs) := Serialization.read (ser s) len in (mk s' false, bs).

Definition write (s : t St) (data : list byte) : t St * bool :=
  let (s', ok) := Serialization.write (ser s) data in (mk s' (aborted s), ok).

#[global] Instance serializer : Serializer (t St) := {|
  operator_bool s := operator_bool (ser s) && negb (aborted s);
  advance_cursor s len := mk (advance_cursor (ser s) len) (aborted s);
  reset s := mk (reset (ser s)) (aborted s);
  end_of_buffer s := end_of_buffer (ser s);
  Serialization.write := write;
  Serialization.read := read
|}.

#[global] Program Instance reader `{!ReaderLaws St} : ReaderLaws (t St) := {|
  reader_wf s := reader_wf (ser s) ∧ aborted s = false;
  remaining s := remaining (ser s)
|}.
Next Obligation.
  intros Hl [s a] n [Hwf Ha] Hn. simpl in *. subst a. unfold read. simpl.
  destruct (read_ok s n Hwf Hn) as (s' & E & Hwf' & Hr & Hv). rewrite E.
  eexists. split; [done|]. simpl. by rewrite Hv.
Qed.
Next Obligation.
  intros Hl [s a] n [Hwf Ha] Hn. simpl in *. subst a. unfold read. simpl.
  destruct (read_short s n Hwf Hn) as (s' & E & Hv). rewrite E.
  eexists. split; [done|]. simpl. by rewrite Hv.
Qed.

End Instances.
End aborting.

(** [from_buffer] for messages with variants: [Fatal] when the assertion on
    an index fails. *)
Definition from_buffer_v {T} (d : T)
    (get : getter (aborting.t buffer_serializer.t) T) (buf : list byte)
    : outcome (option T) :=
  let (s', ret) := get (aborting.mk (buffer_serializer.init buf) false) d in
  if aborting.aborted s' then Fatal
  else Ret (if operator_bool s' then Some ret else None).

Lemma from_make_buffer_v {T} wf (put : T → writes) d get x :
  roundtrips wf put d get → wf x →
  from_buffer_v d get (make_buffer (put x)) = Ret (Some x).
Proof.
  intros Hrt Hwf. unfold from_buffer_v.
  destruct (Hrt x (aborting.mk (buffer_serializer.init (make_buffer (put x))) false) [])
    as (s' & E & (_ & Hok) & Hv & _); [done| |].
  - split; [split; [simpl; lia|done]|]. split; [done|]. simpl.
    by rewrite drop_0, make_buffer_spec, app_nil_r.
  - rewrite E, Hok, Hv. done.
Qed.

(** ** Hash sets

    A hash set is read like a hash map whose values take no bytes. *)

Section Sets.
Context {St : Type} `{Serializer St}.

Definition get_nothing : getter St () := λ s u, (s, u).

Definition get_unordered_set `{Countable K} (sizeof_K : Z) (dK : K)
    (getK : getter St K) (reads : nat) : getter St (gset K) := λ s X,
  let (s', m) :=
    get_unordered_map sizeof_K dK () getK get_nothing reads s
      (gset_to_gmap () X) in
  (s', dom m).

Definition put_unordered_set `{Countable K} (put : K → writes) (X : gset K)
    : writes :=
  put_unordered_set_in put (map_to_list (gset_to_gmap () X)).*1.

Lemma get_nothing_roundtrip `{!ReaderLaws St} :
  roundtrips (λ _, True) (λ _, []) () get_nothing.
Proof. intros [] s rest _ Hs. by exists s. Qed.

(** A set reads back from any order of its elements. *)
Lemma get_unordered_set_in `{!ReaderLaws St} `{Countable K} wfK
    (putK : K → writes) dK getK sizeof reads (l : list K) s rest :
  (0 < sizeof ≤ 2 ^ 20)%Z → roundtrips wfK putK dK getK →
  Forall wfK l → NoDup l → (Z.of_nat (length l) < 2 ^ 63)%Z → length l ≤ reads →
  at_bytes s (bytes_of (put_unordered_set_in putK l) ++ rest) →
  ∃ s', get_unordered_set sizeof dK getK reads s ∅ = (s', list_to_set l) ∧
    at_bytes s' rest.
Proof.
  intros Hsz HK Hwf Hnd Hlen Hr Hs. unfold get_unordered_set.
  destruct (get_unordered_map_in wfK (λ _, True) putK (λ _, []) dK () getK
    get_nothing sizeof reads ((λ k, (k, ())) <$> l) s rest Hsz HK get_nothing_roundtrip)
    as (s' & E & Hs').
  - apply Forall_fmap. eapply Forall_impl; [done|]. by cbn.
  - rewrite <- list_fmap_compose. unfold compose. cbn. by rewrite list_fmap_id.
  - by rewrite length_fmap.
  - by rewrite length_fmap.
  - unfold put_unordered_map_in, put_unordered_set_in in *.
    rewrite length_fmap, <- list_fmap_compose.
    erewrite (list_fmap_ext _ putK); [exact Hs|].
    intros i k _. simpl. by rewrite app_nil_r.
  - rewrite gset_to_gmap_empty, E. exists s'. split; [|done]. f_equal.
    rewrite dom_list_to_map_L, <- list_fmap_compose. unfold compose. cbn.
    by rewrite list_fmap_id.
Qed.

Lemma get_unordered_set_roundtrip `{!ReaderLaws St} `{Countable K} wfK
    (putK : K → writes) dK getK sizeof reads :
  (0 < sizeof ≤ 2 ^ 20)%Z → roundtrips wfK putK dK getK →
  roundtrips (λ X : gset K, set_Forall wfK X ∧ (Z.of_nat (size X) < 2 ^ 63)%Z ∧
                size X ≤ reads)
    (put_unordered_set putK) ∅ (get_unordered_set sizeof dK getK reads).
Proof.
  intros Hsz HK X s rest (Hwf & Hlen & Hr) Hs.
  set (l := (map_to_list (gset_to_gmap () X)).*1).
  assert (X = list_to_set l) as HX.
  { unfold l. rewrite <- (dom_gset_to_gmap X ()) at 1.
    by rewrite <- (list_to_map_to_list (gset_to_gmap () X)) at 1; rewrite dom_list_to_map_L. }
  assert (NoDup l) as Hnd by apply NoDup_fst_map_to_list.
  assert (length l = size X) as Hsize
    by (rewrite HX at 1; by rewrite size_list_to_set).
  enough (∃ s', get_unordered_set sizeof dK getK reads s ∅ = (s', list_to_set l) ∧
    at_bytes s' rest) as HH by by rewrite <- HX in HH.
  eapply (get_unordered_set_in wfK putK); try done; [|lia|lia].
  apply Forall_forall. intros k Hk. apply Hwf. rewrite HX. by apply elem_of_list_to_set.
Qed.

End Sets.

(** ** Atomizer messages *)

(** [sizeof] of the element types on the supported platforms. *)
Definition sizeof_compact_tx : Z := 136.
Definition sizeof_aggregate_tx_notification : Z := 144.
Definition sizeof_tx_error : Z := 48.
Definition sizeof_status_update_state : Z := 48.

Definition put_block (blk : block) : writes :=
  put_u64 (m_height blk) ++ put_vector put_compact_tx (m_transactions blk).

Definition put_tx_notify_request (msg : tx_notify_request) : writes :=
  put_u64 (n_block_height msg) ++ put_compact_tx (n_tx msg) ++
  put_unordered_set put_u64 (n_attestations msg).

Definition put_aggregate_tx_notification (msg : aggregate_tx_notification)
    : writes :=
  put_u64 (m_oldest_attestation msg) ++ put_compact_tx (m_tx msg).

(** [operator<<(variant)]: the index as one byte, then the alternative. *)
Definition put_variant (idx : Z) (ws : writes) : writes := put_u8 idx ++ ws.

(** The state machine request, [state_machine::request]. *)
Definition put_atomizer_request (r : atomizer_request) : writes :=
  match r with
  | aggregate_tx_notify_request m_agg_txs =>
      put_variant 0 (put_vector put_aggregate_tx_notification m_agg_txs)
  | make_block_request => put_variant 1 []
  | get_block_request m_block_height => put_variant 2 (put_u64 m_block_height)
  | prune_request m_block_height => put_variant 3 (put_u64 m_block_height)
  end.

(** The request of shards and archivers, [atomizer::request]. *)
Inductive atomizer_rpc_request :=
| rpc_tx_notify (msg : tx_notify_request)
| rpc_prune (m_block_height : Z)
| rpc_get_block (m_block_height : Z).

Definition put_atomizer_rpc_request (r : atomizer_rpc_request) : writes :=
  match r with
  | rpc_tx_notify msg => put_variant 0 (put_tx_notify_request msg)
  | rpc_prune h => put_variant 1 (put_u64 h)
  | rpc_get_block h => put_variant 2 (put_u64 h)
  end.

(** [watchtower::tx_error] *)
Definition put_tx_error_info (info : tx_error_info) : writes :=
  match info with
  | tx_error_sync => put_variant 0 []
  | tx_error_inputs_dne ids => put_variant 1 (put_vector put_array ids)
  | tx_error_stxo_range => put_variant 2 []
  | tx_error_incomplete => put_variant 3 []
  | tx_error_inputs_spent ids => put_variant 4 (put_unordered_set put_array ids)
  end.

Definition put_tx_error (err : wt_error) : writes :=
  put_array (m_tx_id err) ++ put_tx_error_info (m_info err).

(** The state machine response, [state_machine::response]. *)
Definition put_atomizer_response (r : atomizer_response) : writes :=
  match r with
  | make_block_response blk errs =>
      put_variant 0 (put_block blk ++ put_vector put_tx_error errs)
  | get_block_response blk => put_variant 1 (put_block blk)
  | errors_response errs => put_variant 2 (put_vector put_tx_error errs)
  end.

(** [reads] bounds the entries of the hash maps and sets inside. *)
Section AtomizerGetters.
Context {St : Type} `{Serializer St}.
Variable reads : nat.

Definition block_dflt : block := {| m_height := 0; m_transactions := [] |}.

Definition get_block_msg : getter St block := λ s blk,
  let (s1, h) := get_u64 s (m_height blk) in
  let (s2, txs) :=
    get_vector sizeof_compact_tx compact_tx.dflt (get_compact_tx reads) s1
      (m_transactions blk) in
  (s2, {| m_height := h; m_transactions := txs |}).

Definition tx_notify_dflt : tx_notify_request :=
  {| n_tx := compact_tx.dflt; n_attestations := ∅; n_block_height := 0 |}.

Definition get_tx_notify_request : getter St tx_notify_request := λ s msg,
  let (s1, h) := get_u64 s (n_block_height msg) in
  let (s2, tx) := get_compact_tx reads s1 (n_tx msg) in
  let (s3, atts) := get_unordered_set 8 0%Z get_u64 reads s2 (n_attestations msg) in
  (s3, {| n_tx := tx; n_attestations := atts; n_block_height := h |}).

Definition aggregate_dflt : aggregate_tx_notification :=
  {| m_tx := compact_tx.dflt; m_oldest_attestation := 0 |}.

Definition get_aggregate_tx_notification : getter St aggregate_tx_notification :=
  λ s msg,
  let (s1, o) := get_u64 s (m_oldest_attestation msg) in
  let (s2, tx) := get_compact_tx reads s1 (m_tx msg) in
  (s2, {| m_tx := tx; m_oldest_attestation := o |}).

End AtomizerGetters.

Section VariantGetters.
Context {St : Type} `{Serializer St}.
Variable reads : nat.
Abbreviation ASt := (aborting.t St).

(** Read the index and the alternative it names, or abort. *)
Definition get_variant {T} (alts : list (ASt → ASt * T)) : getter ASt T := λ s d,
  let (s1, idx) := get_u8 s 0%Z in
  match alts !! Z.to_nat idx with
  | Some get => get s1
  | None => (aborting.abort s1, d)
  end.

(** An alternative, read into its default value. *)
Definition alt {A T} (d : A) (get : getter ASt A) (C : A → T) (s : ASt) : ASt * T :=
  let (s', a) := get s d in (s', C a).

Definition alt0 {T} (c : T) (s : ASt) : ASt * T := (s, c).

Definition get_atomizer_request : getter ASt atomizer_request :=
  get_variant
    [alt [] (get_vector sizeof_aggregate_tx_notification aggregate_dflt
               (get_aggregate_tx_notification reads)) aggregate_tx_notify_request;
     alt0 make_block_request;
     alt 0%Z get_u64 get_block_request;
     alt 0%Z get_u64 prune_request].

Definition get_atomizer_rpc_request : getter ASt atomizer_rpc_request :=
  get_variant
    [alt tx_notify_dflt (get_tx_notify_request reads) rpc_tx_notify;
     alt 0%Z get_u64 rpc_prune;
     alt 0%Z get_u64 rpc_get_block].

Definition get_tx_error_info : getter ASt tx_error_info :=
  get_variant
    [alt0 tx_error_sync;
     alt [] (get_vector 32 (zeros hash_size) (get_array hash_size))
       tx_error_inputs_dne;
     alt0 tx_error_stxo_range;
     alt0 tx_error_incomplete;
     alt ∅ (get_unordered_set 32 (zeros hash_size) (get_array hash_size) reads)
       tx_error_inputs_spent].

Definition tx_error_dflt : wt_error :=
  {| m_tx_id := zeros hash_size; m_info := tx_error_sync |}.

Definition get_tx_error : getter ASt wt_error := λ s err,
  let (s1, id) := get_array hash_size s (m_tx_id err) in
  let (s2, info) := get_tx_error_info s1 (m_info err) in
  (s2, {| m_tx_id := id; m_info := info |}).

Definition get_errors : getter ASt (list wt_error) :=
  get_vector sizeof_tx_error tx_error_dflt get_tx_error.

Definition get_atomizer_response : getter ASt atomizer_response :=
  get_variant
    [(λ s,
        let (s1, blk) := get_block_msg reads s block_dflt in
        let (s2, errs) := get_errors s1 [] in
        (s2, make_block_response blk errs));
     alt block_dflt (get_block_msg reads) get_block_response;
     alt [] get_errors errors_response].

End VariantGetters.

(** ** Watchtower messages *)

Definition search_status_val (st : search_status) : Z :=
  match st with
  | no_history => 0 | unspent => 1 | spent => 2
  | tx_rejected => 3 | invalid_input => 4 | internal_error => 5
  end.

Definition put_status_update_state (st : status_update_state) : writes :=
  put_u32 (search_status_val (m_status st)) ++ put_u64 (m_block_height st) ++
  put_array (m_uhs_id st).

Definition put_wt_request (r : wt_request) : writes :=
  match r with
  | status_update_request ids =>
      put_variant 0 (put_unordered_map put_array (put_vector put_array) ids)
  | best_block_height_request => put_variant 1 []
  end.

Definition put_wt_response (r : wt_response) : writes :=
  match r with
  | status_request_check_success states =>
      put_variant 0
        (put_unordered_map put_array (put_vector put_status_update_state) states)
  | best_block_height_response h => put_variant 1 (put_u64 h)
  end.

(** The cast to [search_status]; a number without a name is kept by the code
    as it is, here as the default. *)
Definition search_status_of (z : Z) : search_status :=
  default no_history
    ([no_history; unspent; spent; tx_rejected; invalid_input; internal_error]
       !! Z.to_nat z).

Definition status_dflt : status_update_state :=
  {| m_status := no_history; m_block_height := 0; m_uhs_id := zeros hash_size |}.

Definition get_status_update_state {St} `{Serializer St}
    : getter St status_update_state := λ s st,
  let (s1, status) := get_u32 s 0%Z in
  let (s2, h) := get_u64 s1 (m_block_height st) in
  let (s3, id) := get_array hash_size s2 (m_uhs_id st) in
  (s3, {| m_status := search_status_of status; m_block_height := h;
          m_uhs_id := id |}).

Section WatchtowerGetters.
Context {St : Type} `{Serializer St}.
Variable reads : nat.

Definition get_wt_request : getter (aborting.t St) wt_request :=
  get_variant
    [alt ∅ (get_unordered_map 56 (zeros hash_size) [] (get_array hash_size)
              (get_vector 32 (zeros hash_size) (get_array hash_size)) reads)
       status_update_request;
     alt0 best_block_height_request].

Definition get_wt_response : getter (aborting.t St) wt_response :=
  get_variant
    [alt ∅ (get_unordered_map 56 (zeros hash_size) [] (get_array hash_size)
              (get_vector sizeof_status_update_state status_dflt
                 get_status_update_state) reads)
       status_request_check_success;
     alt 0%Z get_u64 best_block_height_response].

End WatchtowerGetters.

(** ** Two-phase commit messages *)

Definition put_bools (bs : list bool) : writes := put_vector put_bool bs.

(** [locking_shard::rpc::request]; a [locking_shard::tx] is written as the
    compact transaction it holds. *)
Definition put_shard_request (r : hash_t * shard_params) : writes :=
  put_array r.1 ++
  match r.2 with
  | lock_params txs => put_variant 0 (put_vector put_compact_tx txs)
  | apply_params complete => put_variant 1 (put_bools complete)
  | discard_params => put_variant 2 []
  end.

Definition put_shard_response (r : shard_response) : writes :=
  match r with
  | lock_response flags => put_variant 0 (put_bools flags)
  | apply_response => put_variant 1 []
  | discard_response => put_variant 2 []
  end.

Definition put_status_request (r : status_request) : writes :=
  match r with
  | uhs_status_request id => put_variant 0 (put_array id)
  | tx_status_request id => put_variant 1 (put_array id)
  end.

(** [sm_command_header] and [sm_command]; the transaction indices are 64-bit
    numbers on the wire. *)
Definition put_sm_command_header (comm : Z) (dtx_id : option hash_t) : writes :=
  put_u8 comm ++ put_optional put_array dtx_id.

Definition put_tx_idxs (tx_idxs : list (list nat)) : writes :=
  put_vector (put_vector (λ i, put_u64 (Z.of_nat i))) tx_idxs.

Definition put_commit_tx : list bool * list (list nat) → writes :=
  put_pair put_bools put_tx_idxs.

Definition put_sm_command (c : sm_command) : writes :=
  match c with
  | sm_prepare dtx_id txs =>
      put_sm_command_header 0 (Some dtx_id) ++ put_vector put_compact_tx txs
  | sm_commit dtx_id complete_txs tx_idxs =>
      put_sm_command_header 1 (Some dtx_id) ++ put_commit_tx (complete_txs, tx_idxs)
  | sm_discard dtx_id => put_sm_command_header 2 (Some dtx_id)
  | sm_done dtx_id => put_sm_command_header 3 (Some dtx_id)
  | sm_get => put_sm_command_header 4 None
  end.

(** [coordinator_state]: the state machine writes the stored payloads as raw
    bytes, without a length, so the bytes are those of the payloads. *)
Definition put_coordinator_state (s : coordinator_sm.state) : writes :=
  put_unordered_map put_array (put_vector put_compact_tx)
    (coordinator_sm.m_prepare_txs s) ++
  put_unordered_map put_array put_commit_tx (coordinator_sm.m_commit_txs s) ++
  put_unordered_set put_array (coordinator_sm.m_discard_txs s).

Section TwophaseGetters.
Context {St : Type} `{Serializer St}.
Variable reads : nat.

Definition get_bools : getter St (list bool) := get_vector 1 false get_bool.

Definition get_idx : getter St nat := λ s i,
  let (s', z) := get_u64 s (Z.of_nat i) in (s', Z.to_nat z).

Definition get_tx_idxs : getter St (list (list nat)) :=
  get_vector 24 [] (get_vector 8 0 get_idx).

Definition get_commit_tx : getter St (list bool * list (list nat)) :=
  get_pair [] [] get_bools get_tx_idxs.

Definition get_prepare_tx : getter St (list compact_tx.t) :=
  get_vector sizeof_compact_tx compact_tx.dflt (get_compact_tx reads).

(** [operator>>(coordinator_state&)] of the controller: the payloads are read
    as what they stand for. *)
Definition get_coordinator_state : getter St coordinator_sm.state := λ s st,
  let (s1, p) :=
    get_unordered_map 56 (zeros hash_size) [] (get_array hash_size)
      get_prepare_tx reads s (coordinator_sm.m_prepare_txs st) in
  let (s2, c) :=
    get_unordered_map 96 (zeros hash_size) ([], []) (get_array hash_size)
      get_commit_tx reads s1 (coordinator_sm.m_commit_txs st) in
  let (s3, d) :=
    get_unordered_set 32 (zeros hash_size) (get_array hash_size) reads s2
      (coordinator_sm.m_discard_txs st) in
  (s3, coordinator_sm.mk_state p c d).

Definition get_sm_command_header : getter St (Z * option hash_t) := λ s hd,
  let (s1, comm) := get_u8 s 0%Z in
  let (s2, id) :=
    get_optional (zeros hash_size) (get_array hash_size) s1 hd.2 in
  (s2, (comm, id)).

End TwophaseGetters.

Section TwophaseVariants.
Context {St : Type} `{Serializer St}.
Variable reads : nat.

Definition get_shard_request : getter (aborting.t St) (hash_t * shard_params) :=
  λ s r,
  let (s1, id) := get_array hash_size s r.1 in
  let (s2, params) :=
    get_variant
      [alt [] (get_prepare_tx reads) lock_params;
       alt [] get_bools apply_params;
       alt0 discard_params] s1 r.2 in
  (s2, (id, params)).

Definition get_shard_response : getter (aborting.t St) shard_response :=
  get_variant
    [alt [] get_bools lock_response; alt0 apply_response; alt0 discard_response].

Definition get_status_request : getter (aborting.t St) status_request :=
  get_variant
    [alt (zeros hash_size) (get_array hash_size) uhs_status_request;
     alt (zeros hash_size) (get_array hash_size) tx_status_request].

End TwophaseVariants.

(** ** Remote procedure calls: a request id, then the payload *)

Definition put_rpc_request {T} (put : T → writes) (r : Z * T) : writes :=
  put_u64 r.1 ++ put r.2.

Definition put_rpc_response {T} (put : T → writes) (r : Z * option T) : writes :=
  put_u64 r.1 ++ put_optional put r.2.

Section RpcGetters.
Context {St : Type} `{Serializer St}.

Definition get_rpc_request {T} (get : getter St T) : getter St (Z * T) := λ s r,
  let (s1, id) := get_u64 s r.1 in
  let (s2, payload) := get s1 r.2 in
  (s2, (id, payload)).

Definition get_rpc_response {T} (d : T) (get : getter St T)
    : getter St (Z * option T) := λ s r,
  let (s1, id) := get_u64 s r.1 in
  let (s2, payload) := get_optional d get s1 r.2 in
  (s2, (id, payload)).

End RpcGetters.

(** ** Round trips *)

Definition hash_wf (h : hash_t) : Prop := length h = hash_size.
Definition small {A} (l : list A) : Prop := (Z.of_nat (length l) < 2 ^ 63)%Z.
Definition set_wf {A} `{Countable A} (P : A → Prop) (reads : nat) (X : gset A) : Prop :=
  set_Forall P X ∧ (Z.of_nat (size X) < 2 ^ 63)%Z ∧ size X ≤ reads.
Definition vec_wf {A} (P : A → Prop) (l : list A) : Prop := Forall P l ∧ small l.
Definition map_wf {V} (P : V → Prop) (reads : nat) (m : gmap hash_t V) : Prop :=
  map_Forall (λ k v, hash_wf k ∧ P v) m ∧ (Z.of_nat (size m) < 2 ^ 63)%Z ∧
  size m ≤ reads.

Definition block_wf (reads : nat) (b : block) : Prop :=
  is_u64 (m_height b) ∧ vec_wf (compact_tx.wf reads) (m_transactions b).

Definition notify_wf (reads : nat) (r : tx_notify_request) : Prop :=
  is_u64 (n_block_height r) ∧ compact_tx.wf reads (n_tx r) ∧
  set_wf is_u64 reads (n_attestations r).

Definition aggregate_wf (reads : nat) (r : aggregate_tx_notification) : Prop :=
  is_u64 (m_oldest_attestation r) ∧ compact_tx.wf reads (m_tx r).

Section MessageRoundtrips.
Context {St : Type} `{ReaderLaws St}.
Variable reads : nat.

Lemma get_hash_roundtrip : roundtrips hash_wf put_array (zeros hash_size) (get_array hash_size).
Proof. apply get_array_roundtrip. Qed.

Lemma get_hashes_roundtrip :
  roundtrips (vec_wf hash_wf) (put_vector put_array) []
    (get_vector 32 (zeros hash_size) (get_array hash_size)).
Proof. apply get_vector_roundtrip; [lia|apply get_hash_roundtrip]. Qed.

Lemma get_txs_roundtrip :
  roundtrips (vec_wf (compact_tx.wf reads)) (put_vector put_compact_tx) []
    (get_vector sizeof_compact_tx compact_tx.dflt (get_compact_tx reads)).
Proof.
  apply get_vector_roundtrip; [unfold sizeof_compact_tx; lia|apply get_compact_tx_roundtrip].
Qed.

Lemma get_block_msg_roundtrip :
  roundtrips (block_wf reads) put_block block_dflt (get_block_msg reads).
Proof.
  intros [h txs] s rest [Hh Ht] Hs. unfold put_block in Hs.
  rewrite bytes_of_app, <- (assoc_L (++)) in Hs. unfold get_block_msg.
  step (get_u64_roundtrip 0%Z); [done|]. step get_txs_roundtrip; [done|]. eauto.
Qed.

Lemma get_tx_notify_request_roundtrip :
  roundtrips (notify_wf reads) put_tx_notify_request tx_notify_dflt
    (get_tx_notify_request reads).
Proof.
  intros [tx atts h] s rest (Hh & Ht & Ha) Hs. unfold put_tx_notify_request in Hs.
  rewrite 2!bytes_of_app, <- 2!(assoc_L (++)) in Hs. unfold get_tx_notify_request.
  step (get_u64_roundtrip 0%Z); [done|]. step (get_compact_tx_roundtrip reads); [done|].
  step (get_unordered_set_roundtrip is_u64 put_u64 0%Z get_u64 8 reads ltac:(lia)
    (get_u64_roundtrip 0%Z)); [done|]. eauto.
Qed.

Lemma get_aggregate_roundtrip :
  roundtrips (aggregate_wf reads) put_aggregate_tx_notification aggregate_dflt
    (get_aggregate_tx_notification reads).
Proof.
  intros [tx o] s rest [Ho Ht] Hs. unfold put_aggregate_tx_notification in Hs.
  rewrite bytes_of_app, <- (assoc_L (++)) in Hs. unfold get_aggregate_tx_notification.
  step (get_u64_roundtrip 0%Z); [done|]. step (get_compact_tx_roundtrip reads); [done|].
  eauto.
Qed.

Lemma get_status_update_state_roundtrip :
  roundtrips (λ st, is_u64 (m_block_height st) ∧ hash_wf (m_uhs_id st))
    put_status_update_state status_dflt get_status_update_state.
Proof.
  intros [st h id] s rest [Hh Hid] Hs. unfold put_status_update_state in Hs.
  rewrite 2!bytes_of_app, <- 2!(assoc_L (++)) in Hs. unfold get_status_update_state.
  step (get_u32_roundtrip 0%Z); [unfold is_u32; destruct st; simpl; lia|].
  step (get_u64_roundtrip 0%Z); [done|]. step get_hash_roundtrip; [done|].
  eexists. split; [|done]. by destruct st.
Qed.

Lemma get_bools_roundtrip : roundtrips small put_bools [] get_bools.
Proof.
  intros l s rest Hl Hs. unfold get_bools.
  eapply (get_vector_roundtrip (λ _, True) put_bool); [lia|apply get_bool_roundtrip| |done].
  split; [by apply Forall_true|done].
Qed.

Lemma get_idx_roundtrip d :
  roundtrips (λ i, is_u64 (Z.of_nat i)) (λ i, put_u64 (Z.of_nat i)) d get_idx.
Proof.
  intros i s rest Hi Hs. unfold get_idx.
  destruct (get_u64_roundtrip (Z.of_nat d) (Z.of_nat i) s rest Hi Hs) as (s' & E & Hs').
  exists s'. split; [|done]. by rewrite E, Nat2Z.id.
Qed.

Definition commit_wf (c : list bool * list (list nat)) : Prop :=
  small c.1 ∧ vec_wf (vec_wf (λ i, is_u64 (Z.of_nat i))) c.2.

Lemma get_commit_tx_roundtrip :
  roundtrips commit_wf put_commit_tx ([], []) get_commit_tx.
Proof.
  apply (get_pair_roundtrip small (vec_wf (vec_wf (λ i, is_u64 (Z.of_nat i)))));
    [apply get_bools_roundtrip|].
  apply get_vector_roundtrip; [lia|]. apply get_vector_roundtrip; [lia|].
  apply get_idx_roundtrip.
Qed.

Definition state_wf (s : coordinator_sm.state) : Prop :=
  map_wf (vec_wf (compact_tx.wf reads)) reads (coordinator_sm.m_prepare_txs s) ∧
  map_wf commit_wf reads (coordinator_sm.m_commit_txs s) ∧
  set_wf hash_wf reads (coordinator_sm.m_discard_txs s).

Lemma get_coordinator_state_roundtrip :
  roundtrips state_wf put_coordinator_state coordinator_sm.empty
    (get_coordinator_state reads).
Proof.
  intros [p c d] s rest (Hp & Hc & Hd) Hs. unfold put_coordinator_state in Hs.
  rewrite 2!bytes_of_app, <- 2!(assoc_L (++)) in Hs.
  unfold get_coordinator_state, get_prepare_tx.
  step (get_unordered_map_roundtrip hash_wf (vec_wf (compact_tx.wf reads)) put_array
    (put_vector put_compact_tx) _ _ _ _ 56 reads ltac:(lia) get_hash_roundtrip
    get_txs_roundtrip); [done|].
  step (get_unordered_map_roundtrip hash_wf commit_wf put_array put_commit_tx
    _ _ _ _ 96 reads ltac:(lia) get_hash_roundtrip get_commit_tx_roundtrip); [done|].
  step (get_unordered_set_roundtrip hash_wf put_array _ _ 32 reads ltac:(lia)
    get_hash_roundtrip); [done|].
  eauto.
Qed.

Lemma get_rpc_request_roundtrip {T} wf (put : T → writes) d get :
  roundtrips wf put d get →
  roundtrips (λ r, is_u64 r.1 ∧ wf r.2) (put_rpc_request put) (0%Z, d)
    (get_rpc_request get).
Proof.
  intros Hrt [id x] s rest [Hid Hx] Hs. unfold put_rpc_request in Hs.
  rewrite bytes_of_app, <- (assoc_L (++)) in Hs. unfold get_rpc_request.
  step (get_u64_roundtrip 0%Z); [done|]. step Hrt; [done|]. eauto.
Qed.

Lemma get_rpc_response_roundtrip {T} wf (put : T → writes) d get :
  roundtrips wf put d get →
  roundtrips (λ r, is_u64 r.1 ∧ ∀ x, r.2 = Some x → wf x) (put_rpc_response put)
    (0%Z, None) (get_rpc_response d get).
Proof.
  intros Hrt [id x] s rest [Hid Hx] Hs. unfold put_rpc_response in Hs.
  rewrite bytes_of_app, <- (assoc_L (++)) in Hs. unfold get_rpc_response.
  step (get_u64_roundtrip 0%Z); [done|].
  step (get_optional_roundtrip wf put d get None Hrt); [done|]. eauto.
Qed.

End MessageRoundtrips.

(** *** Variants *)

Section VariantRoundtrips.
Context {St : Type} `{ReaderLaws St}.
Variable reads : nat.
Abbreviation ASt := (aborting.t St).

Lemma get_variant_at {T} (alts : list (ASt → ASt * T)) d (i : nat) get ws x s rest :
  alts !! i = Some get → (Z.of_nat i < 256)%Z →
  at_bytes s (bytes_of (put_variant (Z.of_nat i) ws) ++ rest) →
  (∀ s1, at_bytes s1 (bytes_of ws ++ rest) →
     ∃ s', get s1 = (s', x) ∧ at_bytes s' rest) →
  ∃ s', get_variant alts s d = (s', x) ∧ at_bytes s' rest.
Proof.
  intros Hi Hlt Hs Hget. unfold put_variant in Hs.
  rewrite bytes_of_app, <- (assoc_L (++)) in Hs. unfold get_variant.
  destruct (get_int_roundtrip (St := ASt) 1 0%Z (Z.of_nat i) s (bytes_of ws ++ rest))
    as (s1 & E & Hs1); [simpl; lia|exact Hs|].
  unfold get_u8. rewrite E, Nat2Z.id, Hi. by apply Hget.
Qed.

Lemma alt_at {A T} wf (put : A → writes) d (get : getter ASt A) (C : A → T) a s rest :
  roundtrips wf put d get → wf a → at_bytes s (bytes_of (put a) ++ rest) →
  ∃ s', alt d get C s = (s', C a) ∧ at_bytes s' rest.
Proof.
  intros Hrt Ha Hs. unfold alt. destruct (Hrt a s rest Ha Hs) as (s' & -> & Hs'). eauto.
Qed.

Lemma alt0_at {T} (c : T) s rest :
  at_bytes s (bytes_of [] ++ rest) → ∃ s', @alt0 St T c s = (s', c) ∧ at_bytes s' rest.
Proof. intros Hs. by exists s. Qed.

(** Read the alternative with index [i]. *)
Ltac variant i :=
  match goal with
  | Hs : at_bytes ?s _ |- _ =>
      eapply (get_variant_at _ _ i _ _ _ s); [reflexivity|simpl; lia|exact Hs|];
      clear Hs; intros; cbv beta
  end.

Definition atomizer_request_wf (r : atomizer_request) : Prop :=
  match r with
  | aggregate_tx_notify_request l => vec_wf (aggregate_wf reads) l
  | make_block_request => True
  | get_block_request h | prune_request h => is_u64 h
  end.

Lemma get_atomizer_request_roundtrip d :
  roundtrips atomizer_request_wf put_atomizer_request d (get_atomizer_request reads).
Proof.
  intros [l| |h|h] s rest Hwf Hs; simpl in Hwf; cbn [put_atomizer_request] in Hs;
    unfold get_atomizer_request.
  - variant 0. eapply alt_at; [|exact Hwf|done].
    apply get_vector_roundtrip; [unfold sizeof_aggregate_tx_notification; lia|].
    apply get_aggregate_roundtrip.
  - variant 1. by apply alt0_at.
  - variant 2. eapply alt_at; [apply get_u64_roundtrip|done..].
  - variant 3. eapply alt_at; [apply get_u64_roundtrip|done..].
Qed.

Definition atomizer_rpc_wf (r : atomizer_rpc_request) : Prop :=
  match r with
  | rpc_tx_notify n => notify_wf reads n
  | rpc_prune h | rpc_get_block h => is_u64 h
  end.

Lemma get_atomizer_rpc_request_roundtrip d :
  roundtrips atomizer_rpc_wf put_atomizer_rpc_request d (get_atomizer_rpc_request reads).
Proof.
  intros [n|h|h] s rest Hwf Hs; simpl in Hwf; cbn [put_atomizer_rpc_request] in Hs;
    unfold get_atomizer_rpc_request.
  - variant 0. eapply alt_at; [apply get_tx_notify_request_roundtrip|done..].
  - variant 1. eapply alt_at; [apply get_u64_roundtrip|done..].
  - variant 2. eapply alt_at; [apply get_u64_roundtrip|done..].
Qed.

Definition tx_error_info_wf (i : tx_error_info) : Prop :=
  match i with
  | tx_error_inputs_dne ids => vec_wf hash_wf ids
  | tx_error_inputs_spent ids => set_wf hash_wf reads ids
  | _ => True
  end.

Lemma get_tx_error_info_roundtrip d :
  roundtrips tx_error_info_wf put_tx_error_info d (get_tx_error_info reads).
Proof.
  intros [|ids| | |ids] s rest Hwf Hs; simpl in Hwf; cbn [put_tx_error_info] in Hs;
    unfold get_tx_error_info.
  - variant 0. by apply alt0_at.
  - variant 1. eapply alt_at; [apply get_hashes_roundtrip|done..].
  - variant 2. by apply alt0_at.
  - variant 3. by apply alt0_at.
  - variant 4. eapply alt_at; [|exact Hwf|done].
    apply get_unordered_set_roundtrip; [lia|apply get_hash_roundtrip].
Qed.

Definition tx_error_wf (e : wt_error) : Prop :=
  hash_wf (m_tx_id e) ∧ tx_error_info_wf (m_info e).

Lemma get_tx_error_roundtrip :
  roundtrips tx_error_wf put_tx_error tx_error_dflt (get_tx_error reads).
Proof.
  intros [id i] s rest [Hid Hi] Hs. unfold put_tx_error in Hs.
  rewrite bytes_of_app, <- (assoc_L (++)) in Hs. unfold get_tx_error.
  step (get_hash_roundtrip (St := ASt)); [done|].
  step (get_tx_error_info_roundtrip tx_error_sync); [done|]. eauto.
Qed.

Lemma get_errors_roundtrip :
  roundtrips (vec_wf tx_error_wf) (put_vector put_tx_error) [] (get_errors reads).
Proof.
  apply get_vector_roundtrip; [unfold sizeof_tx_error; lia|apply get_tx_error_roundtrip].
Qed.

Definition atomizer_response_wf (r : atomizer_response) : Prop :=
  match r with
  | make_block_response b es => block_wf reads b ∧ vec_wf tx_error_wf es
  | get_block_response b => block_wf reads b
  | errors_response es => vec_wf tx_error_wf es
  end.

Lemma get_atomizer_response_roundtrip d :
  roundtrips atomizer_response_wf put_atomizer_response d (get_atomizer_response reads).
Proof.
  intros [es|b es|b] s rest Hwf Hs; simpl in Hwf; cbn [put_atomizer_response] in Hs;
    unfold get_atomizer_response.
  - variant 2. eapply alt_at; [apply get_errors_roundtrip|done..].
  - destruct Hwf as [Hb He]. variant 0.
    match goal with H : at_bytes _ _ |- _ => rewrite bytes_of_app, <- (assoc_L (++)) in H end.
    step (get_block_msg_roundtrip (St := ASt) reads); [done|].
    step get_errors_roundtrip; [done|]. eauto.
  - variant 1. eapply alt_at; [apply get_block_msg_roundtrip|done..].
Qed.

Definition wt_request_wf (r : wt_request) : Prop :=
  match r with
  | status_update_request m => map_wf (vec_wf hash_wf) reads m
  | best_block_height_request => True
  end.

Lemma get_wt_request_roundtrip d :
  roundtrips wt_request_wf put_wt_request d (get_wt_request reads).
Proof.
  intros [m|] s rest Hwf Hs; simpl in Hwf; cbn [put_wt_request] in Hs;
    unfold get_wt_request.
  - variant 0. eapply alt_at; [|exact Hwf|done].
    apply get_unordered_map_roundtrip;
      [lia|apply get_hash_roundtrip|apply get_hashes_roundtrip].
  - variant 1. by apply alt0_at.
Qed.

Definition wt_response_wf (r : wt_response) : Prop :=
  match r with
  | status_request_check_success m =>
      map_wf (vec_wf (λ st, is_u64 (m_block_height st) ∧ hash_wf (m_uhs_id st))) reads m
  | best_block_height_response h => is_u64 h
  end.

Lemma get_wt_response_roundtrip d :
  roundtrips wt_response_wf put_wt_response d (get_wt_response reads).
Proof.
  intros [m|h] s rest Hwf Hs; simpl in Hwf; cbn [put_wt_response] in Hs;
    unfold get_wt_response.
  - variant 0. eapply alt_at; [|exact Hwf|done].
    apply get_unordered_map_roundtrip; [lia|apply get_hash_roundtrip|].
    apply get_vector_roundtrip; [unfold sizeof_status_update_state; lia|].
    apply get_status_update_state_roundtrip.
  - variant 1. eapply alt_at; [apply get_u64_roundtrip|done..].
Qed.

Definition shard_request_wf (r : hash_t * shard_params) : Prop :=
  hash_wf r.1 ∧
  match r.2 with
  | lock_params txs => vec_wf (compact_tx.wf reads) txs
  | apply_params flags => small flags
  | discard_params => True
  end.

Lemma get_shard_request_roundtrip d :
  roundtrips shard_request_wf put_shard_request d (get_shard_request reads).
Proof.
  intros [id p] s rest [Hid Hp] Hs. unfold put_shard_request in Hs. cbn [fst snd] in *.
  rewrite bytes_of_app, <- (assoc_L (++)) in Hs. unfold get_shard_request, get_prepare_tx.
  step (get_array_roundtrip (St := ASt) hash_size d.1); [done|].
  match goal with |- context [get_variant ?alts ?s1 ?dd] =>
    assert (∃ s', get_variant alts s1 dd = (s', p) ∧ at_bytes s' rest)
      as (s' & E' & Hs'); [|rewrite E'; eauto] end.
  destruct p as [txs|flags|]; simpl in Hp.
  - variant 0. eapply alt_at; [apply get_txs_roundtrip|done..].
  - variant 1. eapply alt_at; [apply get_bools_roundtrip|done..].
  - variant 2. by apply alt0_at.
Qed.

Definition shard_response_wf (r : shard_response) : Prop :=
  match r with lock_response flags => small flags | _ => True end.

Lemma get_shard_response_roundtrip d :
  roundtrips shard_response_wf put_shard_response d get_shard_response.
Proof.
  intros [flags| |] s rest Hwf Hs; simpl in Hwf; cbn [put_shard_response] in Hs;
    unfold get_shard_response.
  - variant 0. eapply alt_at; [apply get_bools_roundtrip|done..].
  - variant 1. by apply alt0_at.
  - variant 2. by apply alt0_at.
Qed.

Definition status_request_wf (r : status_request) : Prop :=
  match r with uhs_status_request id | tx_status_request id => hash_wf id end.

Lemma get_status_request_roundtrip d :
  roundtrips status_request_wf put_status_request d get_status_request.
Proof.
  intros [id|id] s rest Hwf Hs; simpl in Hwf; cbn [put_status_request] in Hs;
    unfold get_status_request.
  - variant 0. eapply alt_at; [apply get_hash_roundtrip|done..].
  - variant 1. eapply alt_at; [apply get_hash_roundtrip|done..].
Qed.

End VariantRoundtrips.



(** A packet whose first byte names no alternative ends the watchtower:
    [external_server_handler] reads the request without a check. *)
Theorem unknown_request_aborts_watchtower reads b rest :
  (2 ≤ Z_of_byte b)%Z →
  from_buffer_v best_block_height_request (get_wt_request reads) (b :: rest) = Fatal.
Proof.
  intros Hb. unfold from_buffer_v, get_wt_request, get_variant, get_u8, get_int.
  simpl. unfold aborting.read. simpl. unfold buffer_serializer.read. simpl.
  rewrite lookup_ge_None_2; [done|]. rewrite take_0.
  cbn [length]. unfold le_val. lia.
Qed.
