(* ===== verification/Archiver.v ===== *)
(** * The archiver

    Model of [src/uhs/atomizer/archiver/controller.{hpp,cpp}]: the node that
    stores every block, in a database keyed by the decimal height, defers
    blocks that arrive early, requests missing ones from the atomizer and
    tells it which blocks it may forget.  The theorems show that the archive
    is a prefix of the chain whatever the order of arrival. *)

From Stdlib Require Import ZArith Lia.
From Stdlib.Strings Require Import Byte String.
From stdpp Require Import base tactics numbers gmap sets list fin_maps.
From S2P Require Import Prelude Text LevelDB Serialization Crypto Transaction Validation.
From S2P Require Import UhsSpec LockingShard Coordinator Atomizer AtomizerShard.
From S2P Require Import Watchtower Messages.
Open Scope cbdc_scope.

(** ["bestblock"] *)
Definition m_bestblock_key : list byte := lit "bestblock".

Module archiver.

Record t (db : Type) := mk {
  m_db : db;
  m_best_height : Z;
  m_deferred : gmap Z block;
  m_max_samples : Z;
  m_samples : Z;
  m_sample_collection_active : bool;
  m_running : bool
}.
Arguments mk {db}.
Arguments m_db {db}.
Arguments m_best_height {db}.
Arguments m_deferred {db}.
Arguments m_max_samples {db}.
Arguments m_samples {db}.
Arguments m_sample_collection_active {db}.
Arguments m_running {db}.

Section Ops.
Context {db : Type} `{LevelDB db}.
Variable reads : nat.

(** The constructor, once the database is open. *)
Definition init (d : db) (max_samples : Z) : t db := mk d 0 ∅ max_samples 0 false true.

Definition set_best (s : t db) (best : Z) : t db :=
  mk (m_db s) best (m_deferred s) (m_max_samples s) (m_samples s)
    (m_sample_collection_active s) (m_running s).

Definition set_deferred (s : t db) (deferred : gmap Z block) : t db :=
  mk (m_db s) (m_best_height s) deferred (m_max_samples s) (m_samples s)
    (m_sample_collection_active s) (m_running s).

(** [std::stoul] throws on a value that is not a number. *)
Definition init_best_block (s : t db) : outcome (t db) :=
  match db_get (m_db s) m_bestblock_key with
  | Some bestblock_val =>
      let! best := stoull bestblock_val in Ret (set_best s best)
  | None =>
      let d := db_write (m_db s) [Put m_bestblock_key (to_string 0)] in
      Ret (mk d 0 (m_deferred s) (m_max_samples s) (m_samples s)
             (m_sample_collection_active s) (m_running s))
  end.

Definition init_sample_collection (s : t db) : t db :=
  mk (m_db s) (m_best_height s) (m_deferred s) (m_max_samples s) (m_samples s)
    true (m_running s).

(** The read of the best height at the first call of [digest_block]. *)
Definition refresh_best (s : t db) : outcome (t db) :=
  if (m_best_height s =? 0)%Z then
    match db_get (m_db s) m_bestblock_key with
    | Some bestblock_val =>
        let! best := stoull bestblock_val in Ret (set_best s best)
    | None => Ret s
    end
  else Ret s.

(** [digest_block] up to its recursive call: the new state, the requests to
    the atomizer cluster and the deferred block to digest next. *)
Definition digest_one (s0 : t db) (blk : block)
    : outcome (t db * list atomizer_rpc_request * option block) :=
  let! s := refresh_best s0 in
  let height := m_height blk in
  if (height <=? m_best_height s)%Z then Ret (s, [], None)
  else if negb (height =? add64 (m_best_height s) 1)%Z then
    let requests :=
      match m_deferred s !! sub64 height 1 with
      | None => [rpc_get_block (sub64 height 1)]
      | Some _ => []
      end in
    let deferred :=
      match m_deferred s !! height with
      | Some _ => m_deferred s
      | None => <[ height := blk ]> (m_deferred s)
      end in
    Ret (set_deferred s deferred, requests, None)
  else
    let height_str := to_string height in
    let batch := [Put height_str (make_buffer (put_block blk));
                  Put m_bestblock_key height_str] in
    let best := add64 (m_best_height s) 1 in
    let samples :=
      if m_sample_collection_active s then add64 (m_samples s) 1
      else m_samples s in
    let next := m_deferred s !! add64 height 1 in
    Ret (mk (db_write (m_db s) batch) best (delete height (m_deferred s))
           (m_max_samples s) samples (m_sample_collection_active s) (m_running s),
         [rpc_prune best], next).

(** [digest_block]; [fuel] bounds the depth of the recursion, [None] means
    that it was not enough. *)
Fixpoint digest_block (fuel : nat) (s : t db) (blk : block)
    : outcome (option (t db * list atomizer_rpc_request)) :=
  match fuel with
  | O => Ret None
  | S fuel =>
      let! '(s', reqs, next) := digest_one s blk in
      match next with
      | None => Ret (Some (s', reqs))
      | Some next_blk =>
          let! res := digest_block fuel s' next_blk in
          match res with
          | Some (s'', reqs') => Ret (Some (s'', reqs ++ reqs'))
          | None => Ret None
          end
      end
  end.

(** [atomizer_handler], for a packet that deserializes. *)
Definition atomizer_handler (fuel : nat) (s : t db) (blk : block)
    : outcome (option (t db * list atomizer_rpc_request)) :=
  if negb (m_max_samples s =? 0)%Z && (m_max_samples s <=? m_samples s)%Z then
    Ret (Some (mk (m_db s) (m_best_height s) (m_deferred s) (m_max_samples s)
                 (m_samples s) (m_sample_collection_active s) false, []))
  else digest_block fuel s blk.

(** [get_block]: a stored value that does not parse fails the assertion. *)
Definition get_block (s : t db) (height : Z) : outcome (option block) :=
  match db_get (m_db s) (to_string height) with
  | None => Ret None
  | Some blk_str =>
      match from_buffer block_dflt (get_block_msg reads) blk_str with
      | Some blk => Ret (Some blk)
      | None => Fatal
      end
  end.

Definition best_block_height (s : t db) : Z := m_best_height s.
Definition running (s : t db) : bool := m_running s.

(** [server_handler]: the request is the height; [None] is a packet that does
    not parse, which gets no answer. *)
Definition server_handler (s : t db) (req : option Z)
    : outcome (option (option block)) :=
  match req with
  | None => Ret None
  | Some height => let! blk := get_block s height in Ret (Some blk)
  end.

End Ops.
End archiver.

(** ** The archive is a prefix of the chain *)

Section Archive.
Context {db : Type} `{LevelDBLaws db}.
Import archiver.
Variable reads : nat.
Variable bs : list (list compact_tx.t).
Hypothesis chain_small : (Z.of_nat (length bs) < 2 ^ 63)%Z.
Hypothesis blocks_wf : Forall (block_wf reads) (numbered bs).

Abbreviation height_of i := (Z.of_nat (S i)) (only parsing).

(** The state of an archiver that stored the first [k] blocks: the database,
    and the blocks of [R] from index [k] on that are deferred. *)
Record arch_core (R : gset nat) (k : nat) (s : t db) : Prop := {
  ac_best : m_best_height s = Z.of_nat k;
  ac_len : k ≤ length bs;
  ac_key : db_get (m_db s) m_bestblock_key = Some (to_string (Z.of_nat k));
  ac_stored i b :
    numbered bs !! i = Some b → i < k →
    db_get (m_db s) (to_string (height_of i)) = Some (make_buffer (put_block b));
  ac_absent h :
    is_u64 h → (h = 0 ∨ Z.of_nat k < h)%Z → db_get (m_db s) (to_string h) = None;
  ac_deferred h b :
    m_deferred s !! h = Some b ↔
    ∃ j, h = height_of j ∧ k ≤ j ∧ j ∈ R ∧ numbered bs !! j = Some b;
  ac_samples : m_max_samples s = 0%Z
}.

Lemma length_numbered : length (numbered bs) = length bs.
Proof. apply length_imap. Qed.

Lemma numbered_height i b : numbered bs !! i = Some b → m_height b = height_of i.
Proof.
  intros Hb. unfold numbered in Hb. rewrite list_lookup_imap in Hb.
  destruct (bs !! i); by simplify_eq/=.
Qed.

Lemma numbered_lt i b : numbered bs !! i = Some b → i < length bs.
Proof. intros Hb%lookup_lt_Some. by rewrite length_numbered in Hb. Qed.

Lemma numbered_is_Some i : i < length bs → is_Some (numbered bs !! i).
Proof. intros Hi. apply lookup_lt_is_Some_2. by rewrite length_numbered. Qed.

Lemma height_is_u64 i : i ≤ length bs → is_u64 (height_of i).
Proof. unfold is_u64. lia. Qed.

Lemma height_not_bestkey z : (0 ≤ z)%Z → to_string z ≠ m_bestblock_key.
Proof. intros Hz. by apply to_string_not_word. Qed.

Lemma refresh_best_core R k s : arch_core R k s → refresh_best s = Ret s.
Proof.
  intros Hc. unfold refresh_best. destruct (Z.eqb_spec (m_best_height s) 0) as [E|E]; [|done].
  rewrite (ac_key _ _ _ Hc), stoull_to_string by (pose proof (ac_len _ _ _ Hc); unfold is_u64; lia).
  cbn [obind]. rewrite <- (ac_best _ _ _ Hc). unfold set_best. by destruct s.
Qed.

(** One write of a block. *)
Lemma store_block_lookup (d : db) i b key :
  i < length bs →
  db_get (db_write d [Put (to_string (height_of i)) (make_buffer (put_block b));
                      Put m_bestblock_key (to_string (height_of i))]) key =
    if decide (key = m_bestblock_key) then Some (to_string (height_of i))
    else if decide (key = to_string (height_of i)) then Some (make_buffer (put_block b))
    else db_get d key.
Proof.
  intros Hi. rewrite db_get_write. cbn [foldl op_effect].
  destruct (decide (key = m_bestblock_key)) as [->|Hk]; [by rewrite decide_True|].
  rewrite (decide_False (P := m_bestblock_key = key)) by congruence.
  destruct (decide (key = _)) as [->|Hk']; [by rewrite decide_True|].
  by rewrite decide_False by congruence.
Qed.

Lemma digest_one_next R k s b :
  arch_core R k s → numbered bs !! k = Some b →
  ∃ s', digest_one s b =
      Ret (s', [rpc_prune (height_of k)],
           if decide (S k ∈ R) then numbered bs !! S k else None) ∧
    arch_core R (S k) s'.
Proof.
  intros Hc Hb. pose proof (numbered_lt _ _ Hb) as Hlt.
  unfold digest_one. rewrite (refresh_best_core _ _ _ Hc). cbn [obind].
  rewrite (numbered_height _ _ Hb), (ac_best _ _ _ Hc).
  rewrite (proj2 (Z.leb_gt _ _)) by lia.
  rewrite add64_exact by (unfold is_u64; lia).
  replace (Z.of_nat k + 1)%Z with (height_of k) by lia. rewrite Z.eqb_refl. cbn [negb].
  rewrite (add64_exact (height_of k) 1) by (unfold is_u64; lia).
  replace (height_of k + 1)%Z with (height_of (S k)) by lia.
  eexists. split.
  - do 2 f_equal. apply option_eq. intros b'. rewrite (ac_deferred _ _ _ Hc).
    destruct (decide (S k ∈ R)) as [Hin|Hin].
    + split; [intros (j & Hj & _ & _ & Hl); by replace (S k) with j by lia|].
      intros Hl. exists (S k). repeat split; [lia|done|done].
    + split; [|done]. intros (j & Hj & _ & Hin' & _). by replace j with (S k) in Hin' by lia.
  - split; cbn [m_best_height m_db m_deferred m_max_samples].
    + done.
    + lia.
    + rewrite store_block_lookup by done. by rewrite decide_True.
    + intros i b' Hb' Hi. rewrite store_block_lookup by done.
      rewrite decide_False by (apply height_not_bestkey; lia).
      destruct (decide _) as [E|E].
      * apply to_string_inj in E; [|apply height_is_u64; lia..].
        replace i with k in Hb' by lia. by simplify_eq.
      * eapply (ac_stored _ _ _ Hc); [done|].
        destruct (decide (i = k)) as [->|]; [done|lia].
    + intros h Hh Hk. rewrite store_block_lookup by done.
      rewrite decide_False by (apply height_not_bestkey; unfold is_u64 in Hh; lia).
      rewrite decide_False.
      * apply (ac_absent _ _ _ Hc); [done|lia].
      * intros E. apply to_string_inj in E; [lia|done|apply height_is_u64; lia].
    + intros h b'. destruct (decide (h = height_of k)) as [->|Hne].
      * rewrite lookup_delete_eq. split; [done|]. intros (j & Hj & Hk & _). lia.
      * rewrite lookup_delete_ne, (ac_deferred _ _ _ Hc) by done. split.
        -- intros (j & -> & Hk & Hr). exists j. repeat split; [|apply Hr|apply Hr].
           destruct (decide (j = k)) as [->|]; [done|lia].
        -- intros (j & -> & Hk & Hr). exists j. repeat split; [lia|apply Hr|apply Hr].
    + apply (ac_samples _ _ _ Hc).
Qed.

(** Digesting block [k] goes on to the first block that is not there. *)
Lemma digest_block_run R k' fuel : ∀ k s b,
  arch_core R k s → numbered bs !! k = Some b → k < k' →
  (∀ i, k < i < k' → i ∈ R) → (∀ i, i ∈ R → i < length bs) → k' ∉ R →
  k' - k ≤ fuel →
  ∃ s' reqs, digest_block fuel s b = Ret (Some (s', reqs)) ∧ arch_core R k' s' ∧
    ∀ q, q ∈ reqs → ∃ i, k ≤ i < k' ∧ q = rpc_prune (height_of i).
Proof.
  induction fuel as [|fuel IH]; intros k s b Hc Hb Hk Hin HR Hout Hf; [lia|].
  destruct (digest_one_next R k s b Hc Hb) as (s1 & E1 & Hc1).
  cbn [digest_block]. rewrite E1. cbn [obind].
  destruct (decide (S k ∈ R)) as [HS|HS].
  - destruct (numbered_is_Some (S k)) as [b' Hb']; [by apply HR|]. rewrite Hb'.
    assert (S k ≠ k') as Hne by congruence.
    destruct (IH (S k) s1 b') as (s' & reqs & E & Hc' & Hq); [done|done|lia| |done|done|lia|].
    { intros i Hi. apply Hin. lia. }
    rewrite E. cbn [obind]. eexists _, _. split; [done|]. split; [done|].
    intros q [->%list_elem_of_singleton|Hq']%elem_of_app.
    + exists k. split; [lia|done].
    + destruct (Hq q Hq') as (i & Hi & ->). exists i. split; [lia|done].
  - assert (k' = S k) as ->.
    { destruct (decide (S k < k')) as [Hlt|]; [|lia]. exfalso. apply HS, Hin. lia. }
    eexists _, _. split; [done|]. split; [done|].
    intros q ->%list_elem_of_singleton. exists k. split; [lia|done].
Qed.

(** The first index from [k] on that is not in [R]. *)
Lemma first_missing (R : gset nat) n : ∀ k,
  (∀ i, i ∈ R → i < n + k) →
  ∃ k', k ≤ k' ∧ k' ∉ R ∧ ∀ i, k ≤ i < k' → i ∈ R.
Proof.
  induction n as [|n IH]; intros k HR.
  { exists k. split; [done|]. split; [|lia]. intros Hk%HR. lia. }
  destruct (decide (k ∈ R)) as [Hk|Hk].
  - destruct (IH (S k)) as (k' & ? & ? & Hi).
    { intros i Hi%HR. lia. }
    exists k'. split; [lia|]. split; [done|]. intros i Hle.
    destruct (decide (i = k)) as [->|]; [done|]. apply Hi. lia.
  - exists k. split; [done|]. split; [done|lia].
Qed.

(** The blocks digested in one go were all deferred, but the first. *)
Lemma fuel_enough R k k' s :
  arch_core R k s → k < k' → (∀ i, k < i < k' → i ∈ R) → (∀ i, i ∈ R → i < length bs) →
  k' - k ≤ S (size (m_deferred s)).
Proof.
  intros Hc Hk Hin HR.
  assert (list_to_set ((λ i, height_of i) <$> seq (S k) (k' - S k)) ⊆
    (dom (m_deferred s) : gset Z)) as Hsub.
  { intros h Hh. rewrite elem_of_list_to_set in Hh.
    apply list_elem_of_fmap in Hh as (i & -> & Hi). apply elem_of_seq in Hi.
    assert (i ∈ R) as HiR by (apply Hin; lia).
    destruct (numbered_is_Some i (HR i HiR)) as [b Hb]. apply elem_of_dom. exists b.
    apply (ac_deferred _ _ _ Hc). exists i. repeat split; [lia|done|done]. }
  apply subseteq_size in Hsub. rewrite size_dom in Hsub.
  rewrite size_list_to_set, length_fmap, length_seq in Hsub; [lia|].
  apply NoDup_fmap_2; [intros x y; lia|apply NoDup_seq].
Qed.

(** The blocks received so far, or stored before the last restart, are [R];
    the archive holds those before the first one missing, and the others are
    deferred. *)
Record arch_at (R : gset nat) (k : nat) (s : t db) : Prop := {
  aa_core : arch_core R k s;
  aa_prefix i : i < k → i ∈ R;
  aa_missing : k ∉ R;
  aa_range i : i ∈ R → i < length bs
}.

(** The best height tells which index is the first missing one. *)
Lemma arch_core_mono R R' k s :
  arch_core R k s → (∀ j, k ≤ j → j ∈ R ↔ j ∈ R') → arch_core R' k s.
Proof.
  intros [] HR. split; [done..| |done]. intros h b. rewrite ac_deferred0.
  split; intros (j & ? & Hk & Hj & ?); exists j; (split; [done|]; split; [done|];
    split; [|done]); by apply HR.
Qed.

Lemma arrive_old R k s j b :
  arch_at R k s → numbered bs !! j = Some b → j < k →
  digest_block (S (size (m_deferred s))) s b = Ret (Some (s, [])).
Proof.
  intros Ha Hb Hj. cbn [digest_block]. unfold digest_one.
  rewrite (refresh_best_core _ _ _ (aa_core _ _ _ Ha)). cbn [obind].
  rewrite (numbered_height _ _ Hb), (ac_best _ _ _ (aa_core _ _ _ Ha)).
  by rewrite (proj2 (Z.leb_le _ _)) by lia.
Qed.

Lemma arrive_next R k s b :
  arch_at R k s → numbered bs !! k = Some b →
  ∃ k' s' reqs, k < k' ∧
    digest_block (S (size (m_deferred s))) s b = Ret (Some (s', reqs)) ∧
    arch_at ({[ k ]} ∪ R) k' s' ∧
    (∀ q, q ∈ reqs → ∃ i, k ≤ i < k' ∧ q = rpc_prune (height_of i)).
Proof.
  intros [Hc Hp Hm HR] Hb. pose proof (numbered_lt _ _ Hb) as Hlt.
  destruct (first_missing R (length bs) (S k)) as (k' & Hk & Hout & Hin).
  { intros i Hi%HR. lia. }
  destruct (digest_block_run R k' (S (size (m_deferred s))) k s b)
    as (s' & reqs & E & Hc' & Hq); [done|done|lia|intros; apply Hin; lia|done|done| |].
  { apply (fuel_enough R k k' s); [done|lia|intros; apply Hin; lia|done]. }
  exists k', s', reqs. split; [lia|]. split; [done|]. split; [|done].
  split.
  - eapply arch_core_mono; [done|]. intros j Hj.
    set_unfold. split; [by right|]. intros [->|]; [lia|done].
  - intros i Hi. apply elem_of_union. destruct (decide (i = k)) as [->|]; [set_solver|].
    right. destruct (decide (i < k)); [by apply Hp|]. apply Hin. lia.
  - set_unfold. intros [->|]; [lia|done].
  - intros i [->%elem_of_singleton|Hi]%elem_of_union; [done|by apply HR].
Qed.

Lemma deferred_pred R k s j :
  arch_core R k s → k < j → k ∉ R →
  m_deferred s !! Z.of_nat j =
    if decide (pred j ∈ R) then numbered bs !! pred j else None.
Proof.
  intros Hc Hj Hm. apply option_eq. intros b'. rewrite (ac_deferred _ _ _ Hc).
  destruct (decide (pred j ∈ R)) as [Hin|Hin].
  - split; [intros (i & Hi & _ & _ & Hl); by replace (pred j) with i by lia|].
    intros Hl. exists (pred j). repeat split; [lia| |done|done].
    destruct (decide (k = pred j)) as [->|]; [done|lia].
  - split; [|done]. intros (i & Hi & _ & Hr & _). by replace i with (pred j) in Hr by lia.
Qed.

(** [m_deferred.emplace] of an early block. *)
Lemma deferred_emplace R k s j b h b' :
  arch_core R k s → numbered bs !! j = Some b →
  (match m_deferred s !! height_of j with
   | Some _ => m_deferred s
   | None => <[height_of j := b]> (m_deferred s)
   end) !! h = Some b' ↔
  (h = height_of j ∧ b' = b) ∨ (h ≠ height_of j ∧ m_deferred s !! h = Some b').
Proof.
  intros Hc Hb. destruct (m_deferred s !! height_of j) as [b0|] eqn:E.
  - pose proof E as E0. apply (ac_deferred _ _ _ Hc) in E0 as (i & Hi & _ & _ & Hl).
    replace i with j in Hl by lia. rewrite Hb in Hl. injection Hl as <-.
    destruct (decide (h = height_of j)) as [->|]; naive_solver.
  - destruct (decide (h = height_of j)) as [->|].
    + rewrite lookup_insert_eq. naive_solver.
    + rewrite lookup_insert_ne by done. naive_solver.
Qed.

Lemma arrive_early R k s j b :
  arch_at R k s → numbered bs !! j = Some b → k < j →
  ∃ s' reqs, digest_block (S (size (m_deferred s))) s b = Ret (Some (s', reqs)) ∧
    arch_at ({[ j ]} ∪ R) k s' ∧
    reqs = if decide (pred j ∈ R) then [] else [rpc_get_block (Z.of_nat j)].
Proof.
  intros [Hc Hp Hm HR] Hb Hj. pose proof (numbered_lt _ _ Hb) as Hlt.
  cbn [digest_block]. unfold digest_one. rewrite (refresh_best_core _ _ _ Hc). cbn [obind].
  rewrite (numbered_height _ _ Hb), (ac_best _ _ _ Hc).
  rewrite (proj2 (Z.leb_gt _ _)) by lia.
  rewrite add64_exact by (unfold is_u64; lia).
  rewrite (proj2 (Z.eqb_neq _ _)) by lia. cbn [negb].
  rewrite sub64_exact by (unfold is_u64; lia).
  replace (height_of j - 1)%Z with (Z.of_nat j) by lia.
  rewrite (deferred_pred R k s j) by (done || lia).
  eexists _, _. split; [reflexivity|]. split.
  - split.
    + pose proof Hc as Hc'. destruct Hc'. split;
        cbn [m_best_height m_db m_deferred m_max_samples]; [done..| |done].
      intros h b'. rewrite (deferred_emplace R k s j b h b' Hc Hb), ac_deferred0. split.
      * intros [[-> ->]|(Hne & i & -> & Hi)].
        -- exists j. repeat split; [lia|set_solver|done].
        -- exists i. repeat split; [apply Hi|set_solver|apply Hi].
      * intros (i & -> & Hi & Hr & Hl). destruct (decide (i = j)) as [->|Hne].
        -- left. naive_solver.
        -- right. split; [lia|]. exists i. repeat split; [done|set_solver|done].
    + intros i Hi. apply elem_of_union_r. by apply Hp.
    + set_unfold. intros [->|]; [lia|done].
    + intros i [->%elem_of_singleton|Hi]%elem_of_union; [done|by apply HR].
  - destruct (decide (pred j ∈ R)) as [Hin|Hin]; [|done].
    destruct (numbered_is_Some (pred j)) as [b' ->]; [lia|done].
Qed.

(** *** Histories of an archiver *)

(** Blocks of the chain arrive in any order, any number of times, and the
    archiver restarts from its database. *)
Record arch_state := {
  as_node : t db;
  as_received : gset nat;
  as_sent : list atomizer_rpc_request
}.

Inductive arch_event_step : arch_state → arch_state → Prop :=
| arch_arrive s R sent j b s' reqs :
    numbered bs !! j = Some b →
    atomizer_handler (S (size (m_deferred s))) s b = Ret (Some (s', reqs)) →
    arch_event_step {| as_node := s; as_received := R; as_sent := sent |}
      {| as_node := s'; as_received := {[ j ]} ∪ R; as_sent := sent ++ reqs |}
| arch_restart s R sent s' :
    init_best_block (init (m_db s) 0) = Ret s' →
    arch_event_step {| as_node := s; as_received := R; as_sent := sent |}
      {| as_node := init_sample_collection s';
         as_received := filter (λ i, Z.of_nat i < m_best_height s)%Z R;
         as_sent := sent |}.

Record arch_inv (x : arch_state) : Prop := {
  ai_at : ∃ k, arch_at (as_received x) k (as_node x) ∧
    (∀ j, j ∈ as_received x → k < j → pred j ∉ as_received x →
       rpc_get_block (Z.of_nat j) ∈ as_sent x) ∧
    (∀ h, rpc_prune h ∈ as_sent x → (h ≤ Z.of_nat k)%Z)
}.

Lemma handler_digests R k s b fuel :
  arch_at R k s → atomizer_handler fuel s b = digest_block fuel s b.
Proof.
  intros Ha. unfold atomizer_handler.
  by rewrite (ac_samples _ _ _ (aa_core _ _ _ Ha)).
Qed.

Lemma arch_arrive_inv s R sent j b :
  arch_inv {| as_node := s; as_received := R; as_sent := sent |} →
  numbered bs !! j = Some b →
  ∃ s' reqs, atomizer_handler (S (size (m_deferred s))) s b = Ret (Some (s', reqs)) ∧
    arch_inv {| as_node := s'; as_received := {[ j ]} ∪ R; as_sent := sent ++ reqs |}.
Proof.
  intros [(k & Ha & Hgap & Hprune)] Hb. cbn [as_node as_received as_sent] in *.
  rewrite (handler_digests _ _ _ _ _ Ha).
  destruct (lt_eq_lt_dec j k) as [[Hj| ->]|Hj].
  - exists s, []. split; [by eapply arrive_old|]. rewrite app_nil_r.
    replace ({[j]} ∪ R) with R; [by constructor; exists k|].
    pose proof (aa_prefix _ _ _ Ha j Hj). set_solver.
  - destruct (arrive_next R k s b Ha Hb) as (k' & s' & reqs & Hk & E & Ha' & Hq).
    exists s', reqs. split; [done|]. constructor. exists k'.
    cbn [as_node as_received as_sent]. split; [done|]. split.
    + intros j [->%elem_of_singleton|Hj]%elem_of_union Hlt Hp; [lia|].
      apply elem_of_app. left. apply Hgap; [done|lia|set_solver].
    + intros h [Hh%Hprune|Hh]%elem_of_app; [lia|].
      destruct (Hq _ Hh) as (i & Hi & [= ->]). lia.
  - destruct (arrive_early R k s j b Ha Hb Hj) as (s' & reqs & E & Ha' & ->).
    eexists _, _. split; [exact E|]. constructor. exists k.
    cbn [as_node as_received as_sent]. split; [done|]. split.
    + intros i Hi Hlt Hp. apply elem_of_app.
      apply elem_of_union in Hi as [->%elem_of_singleton|Hi].
      * right. rewrite decide_False by set_solver. by left.
      * left. apply Hgap; [done|done|set_solver].
    + intros h [Hh|Hh]%elem_of_app; [by apply Hprune|].
      case_decide; set_solver.
Qed.

Lemma restart_at R k s s' :
  arch_at R k s → init_best_block (init (m_db s) 0) = Ret s' →
  arch_at (filter (λ i, Z.of_nat i < m_best_height s)%Z R) k (init_sample_collection s').
Proof.
  intros [Hc Hp Hm HR] E. unfold init_best_block in E. cbn [m_db init] in E.
  rewrite (ac_key _ _ _ Hc), stoull_to_string in E
    by (pose proof (ac_len _ _ _ Hc); unfold is_u64; lia).
  cbn [obind] in E. injection E as <-. rewrite (ac_best _ _ _ Hc). destruct Hc.
  split.
  - split; try done. intros h b. cbn. rewrite lookup_empty. split; [done|].
    intros (j & _ & Hk & Hj & _). apply elem_of_filter in Hj as [? _]. lia.
  - intros i Hi. apply elem_of_filter. split; [lia|by apply Hp].
  - intros Hk%elem_of_filter. lia.
  - intros i Hi%elem_of_filter. apply HR, Hi.
Qed.

Lemma archive_step_inv x y : arch_inv x → arch_event_step x y → arch_inv y.
Proof.
  intros Hx Hs. destruct Hs as [s R sent j b s' reqs Hb E|s R sent s' E].
  - destruct (arch_arrive_inv s R sent j b Hx Hb) as (s2 & reqs2 & E2 & Hi).
    rewrite E in E2. by simplify_eq.
  - destruct Hx as [(k & Ha & Hgap & Hprune)]. cbn [as_node as_received as_sent] in *.
    constructor. exists k. cbn [as_node as_received as_sent].
    split; [by eapply restart_at|]. split; [|done].
    intros j Hj Hlt _. apply elem_of_filter in Hj as [Hj _].
    rewrite (ac_best _ _ _ (aa_core _ _ _ Ha)) in Hj. lia.
Qed.

Lemma open_fresh_archive d s0 :
  (∀ key, db_get d key = None) → init_best_block (init d 0) = Ret s0 →
  arch_inv {| as_node := init_sample_collection s0; as_received := ∅; as_sent := [] |}.
Proof.
  intros Hd E. unfold init_best_block in E. cbn [m_db init] in E. rewrite Hd in E.
  injection E as <-. constructor. exists 0. cbn [as_node as_received as_sent].
  split; [|split; [set_solver|intros h Hh; by apply elem_of_nil in Hh]].
  split; [|lia|set_solver|set_solver].
  split; cbn; [done|lia| |lia| |intros h b; rewrite lookup_empty; set_solver|done].
  - rewrite db_get_write. cbn [foldl op_effect]. by rewrite decide_True.
  - intros h Hh _. rewrite db_get_write. cbn [foldl op_effect].
    rewrite decide_False; [apply Hd|]. symmetry. apply height_not_bestkey. apply Hh.
Qed.

(** [get_block] gives the stored blocks back. *)
Lemma get_block_spec R k s h :
  arch_at R k s → is_u64 h →
  get_block reads s h =
    Ret (if decide (1 ≤ h ≤ Z.of_nat k)%Z then numbered bs !! pred (Z.to_nat h) else None).
Proof.
  intros [Hc _ _ _] Hh. unfold get_block. destruct (decide _) as [Hr|Hr].
  - pose proof (ac_len _ _ _ Hc).
    destruct (numbered_is_Some (pred (Z.to_nat h))) as [b Hb]; [lia|].
    replace h with (height_of (pred (Z.to_nat h))) at 1 by lia.
    rewrite (ac_stored _ _ _ Hc _ _ Hb) by lia.
    rewrite (from_make_buffer (block_wf reads) put_block); [by rewrite Hb| |].
    + apply get_block_msg_roundtrip.
    + eapply (proj1 (Forall_lookup _ _)); [exact blocks_wf|exact Hb].
  - rewrite (ac_absent _ _ _ Hc); [done|done|]. unfold is_u64 in Hh. lia.
Qed.

(** C22: whatever the order in which the blocks of the chain arrive, repeated
    or not, with restarts in between, the archive is the prefix of the chain
    up to the first block not yet received, and [get_block] returns exactly
    its blocks; the next arrival is handled without an assertion failing and
    within a recursion no deeper than the number of deferred blocks; for
    every gap below a deferred block the missing block was requested; and
    the atomizer is never told to forget a block that is not archived. *)
Theorem archiver_stores_chain d s0 x :
  (∀ key, db_get d key = None) → init_best_block (init d 0) = Ret s0 →
  rtc arch_event_step
    {| as_node := init_sample_collection s0; as_received := ∅; as_sent := [] |} x →
  ∃ k, best_block_height (as_node x) = Z.of_nat k ∧
    (∀ n, n ≤ k ↔ ∀ i, i < n → i ∈ as_received x) ∧
    (∀ h, is_u64 h → get_block reads (as_node x) h =
       Ret (if decide (1 ≤ h ≤ Z.of_nat k)%Z
            then numbered bs !! pred (Z.to_nat h) else None)) ∧
    (∀ j b, numbered bs !! j = Some b →
       ∃ s' reqs, atomizer_handler (S (size (m_deferred (as_node x)))) (as_node x) b =
         Ret (Some (s', reqs))) ∧
    (∀ j, j ∈ as_received x → k < j → pred j ∉ as_received x →
       rpc_get_block (Z.of_nat j) ∈ as_sent x) ∧
    (∀ h, rpc_prune h ∈ as_sent x → (h ≤ Z.of_nat k)%Z).
Proof.
  intros Hd E Hr. pose proof (open_fresh_archive d s0 Hd E) as Hi.
  assert (arch_inv x) as Hx by (clear Hd E; induction Hr; eauto using archive_step_inv).
  destruct x as [s R sent]. pose proof Hx as [(k & Ha & Hgap & Hprune)].
  cbn [as_node as_received as_sent] in *. exists k.
  split; [apply (ac_best _ _ _ (aa_core _ _ _ Ha))|]. split.
  { intros n. split; [intros Hn i Hlt; apply (aa_prefix _ _ _ Ha); lia|]. intros Hn.
    destruct (decide (k < n)) as [Hlt|]; [|lia]. by apply Hn, (aa_missing _ _ _ Ha) in Hlt. }
  split; [intros h Hh; by eapply get_block_spec|]. split; [|done].
  intros j b Hb. destruct (arch_arrive_inv s R sent j b Hx Hb) as (s' & reqs & Es & _). eauto.
Qed.

(** What the archiver answers to a shard or a watchtower. *)
Definition archive_answers (s : t db) (h : Z) : option block :=
  match get_block reads s h with Ret b => b | Fatal => None end.

Lemma archive_serves R k s : arch_at R k s → serves (archive_answers s) (take k bs).
Proof.
  intros Ha i txs Hi. apply lookup_take_Some in Hi as [Hi Hlt].
  pose proof (ac_len _ _ _ (aa_core _ _ _ Ha)). unfold archive_answers.
  rewrite (get_block_spec R k s _ Ha) by (unfold is_u64; lia).
  rewrite decide_True by lia. replace (pred (Z.to_nat (height_of i))) with i by lia.
  by apply lookup_numbered.
Qed.

End Archive.

(** ** Archiver and shards together *)

Section ArchiveShard.
Context {adb : Type} `{LevelDBLaws adb} {sdb : Type} `{LevelDBLaws sdb}.

(** C23: a shard that missed blocks catches up from a real archiver.  Once the
    archive has reached the height of a block of a valid chain, a shard below
    that height which receives the block fetches what it missed, within two
    rounds of its loop, and ends at the height of the block. *)
Theorem shard_catches_up_from_archive reads U0 bs R k (a : archiver.t adb)
    i j txs (s : shard.t sdb) :
  (Z.of_nat (length bs) < 2 ^ 63)%Z → Forall (block_wf reads) (numbered bs) →
  arch_at bs R k a → shard_db_lemmas.valid_chain U0 (take k bs) →
  shard_db_lemmas.shard_at U0 (take k bs) i s → i ≤ j → j < k → bs !! j = Some txs →
  ∃ s', shard_controller.atomizer_handler (archive_answers reads a) 2 s
          {| m_height := Z.of_nat (S j); m_transactions := txs |} = Some s' ∧
    shard_db_lemmas.shard_at U0 (take k bs) (S j) s'.
Proof.
  intros Hlen Hwf Ha Hv Hs Hij Hjk Hj.
  apply (handler_catches_up (archive_answers reads a) U0 (take k bs) i j txs s).
  - by eapply archive_serves.
  - done.
  - rewrite length_take. lia.
  - done.
  - done.
  - by rewrite lookup_take_lt.
Qed.

End ArchiveShard.

(** ** Examples *)

Section ArchiverExamples.
Import in_memory archiver atm_example shard_db_lemmas.

(** Two blocks; their transaction has ids of the right size. *)
Definition example_coin : hash_t := replicate 32 x11.
Definition example_tx : compact_tx.t :=
  compact_tx.mk (replicate 32 xaa) [example_coin] [replicate 32 x22] ∅.
Definition example_blocks : list (list compact_tx.t) := [[example_tx]; []].

Lemma example_blocks_wf : Forall (block_wf 1) (numbered example_blocks).
Proof.
  repeat constructor; cbn; unfold small; cbn; rewrite ?map_size_empty; try lia;
    try done; try (apply map_Forall_empty).
Qed.

Definition empty_db : gmap (list byte) (list byte) := ∅.

Definition opened : t (gmap (list byte) (list byte)) :=
  match init_best_block (init empty_db 0) with Ret s => s | Fatal => init empty_db 0 end.

Definition first_block : block := {| m_height := 1; m_transactions := [example_tx] |}.
Definition second_block : block := {| m_height := 2; m_transactions := [] |}.

(** The node after a block, and what handling the block sends. *)
Definition handled (fuel : nat) (s : t (gmap (list byte) (list byte))) (blk : block)
    : t (gmap (list byte) (list byte)) :=
  match atomizer_handler fuel s blk with Ret (Some (s', _)) => s' | _ => s end.

Definition sends (fuel : nat) (s : t (gmap (list byte) (list byte))) (blk : block)
    : option (list atomizer_rpc_request) :=
  match atomizer_handler fuel s blk with Ret (Some (_, reqs)) => Some reqs | _ => None end.

Lemma handled_sends fuel s blk reqs :
  sends fuel s blk = Some reqs →
  atomizer_handler fuel s blk = Ret (Some (handled fuel s blk, reqs)).
Proof. unfold sends, handled. intros H. repeat case_scrut; congruence. Qed.

(** The second block arrives first, and its predecessor is requested. *)
Definition after_second : t (gmap (list byte) (list byte)) :=
  handled 1 (init_sample_collection opened) second_block.

Lemma example_second :
  atomizer_handler 1 (init_sample_collection opened) second_block =
    Ret (Some (after_second, [rpc_get_block 1])).
Proof. apply handled_sends. vm_compute. reflexivity. Qed.

Definition after_first : t (gmap (list byte) (list byte)) :=
  handled 2 after_second first_block.

Lemma example_first :
  atomizer_handler 2 after_second first_block =
    Ret (Some (after_first, [rpc_prune 1; rpc_prune 2])).
Proof. apply handled_sends. vm_compute. reflexivity. Qed.

Lemma example_arrivals :
  rtc (arch_event_step example_blocks)
    {| as_node := init_sample_collection opened; as_received := ∅; as_sent := [] |}
    {| as_node := after_first; as_received := {[ 0 ]} ∪ ({[ 1 ]} ∪ ∅);
       as_sent := ([] ++ [rpc_get_block 1]) ++ [rpc_prune 1; rpc_prune 2] |}.
Proof.
  eapply rtc_l; [|eapply rtc_l; [|apply rtc_refl]].
  - eapply (arch_arrive _ _ _ _ 1); [reflexivity|exact example_second].
  - eapply (arch_arrive _ _ _ _ 0); [reflexivity|exact example_first].
Qed.

Lemma archiver_stores_chain_witness :
  ∃ k, best_block_height after_first = Z.of_nat k ∧
    (∀ h, is_u64 h → get_block 1 after_first h =
       Ret (if decide (1 ≤ h ≤ Z.of_nat k)%Z
            then numbered example_blocks !! pred (Z.to_nat h) else None)).
Proof.
  destruct (archiver_stores_chain 1 example_blocks ltac:(simpl; lia) example_blocks_wf
    empty_db opened _ ltac:(intros key; apply lookup_empty) eq_refl example_arrivals)
    as (k & Hk & _ & Hg & _).
  exists k. split; [exact Hk|exact Hg].
Defined.

(** The archive of the two blocks, and a shard that has none of them. *)
Definition hungry_shard : shard.t (gmap (list byte) (list byte)) :=
  let d := <[ m_best_block_height_key := le_bytes 8 0 ]> {[ example_coin := [] ]} in
  shard.mk d 0 d 0 (0, 255)%Z.

Lemma hungry_shard_at : shard_at {[ example_coin ]} (take 2 example_blocks) 0 hungry_shard.
Proof.
  apply (shard_at_app _ []).
  destruct (open_fresh {[ example_coin ]} (0, 255)%Z
    ({[ example_coin := [] ]} : gmap (list byte) (list byte)))
    as (s & E & Hs & _); [reflexivity| |].
  - intros h _ _. cbn [db_get gmap_leveldb]. rewrite elem_of_singleton. split.
    + intros [v Hv]. by apply lookup_singleton_Some in Hv as [? _].
    + intros ->. exists []. reflexivity.
  - assert (shard.open_db (0, 255)%Z
      ({[ example_coin := [] ]} : gmap (list byte) (list byte)) = Ret hungry_shard)
      as E' by reflexivity.
    rewrite E' in E. by simplify_eq.
Qed.

Lemma full_archive_at :
  ∃ R, arch_at example_blocks R 2 after_first.
Proof.
  pose proof (open_fresh_archive 1 example_blocks ltac:(simpl; lia) example_blocks_wf
    empty_db opened ltac:(intros key; apply lookup_empty) eq_refl) as H0.
  assert (arch_inv example_blocks
    {| as_node := after_first; as_received := {[ 0 ]} ∪ ({[ 1 ]} ∪ ∅);
       as_sent := ([] ++ [rpc_get_block 1]) ++ [rpc_prune 1; rpc_prune 2] |}) as [(k & Ha & _)].
  { pose proof example_arrivals as Hr. revert H0.
    induction Hr as [|x y z Hxy _ IH]; [done|]. intros Hx. apply IH.
    by eapply (archive_step_inv 1 example_blocks ltac:(simpl; lia) example_blocks_wf). }
  cbn [as_node as_received] in Ha. exists ({[ 0 ]} ∪ ({[ 1 ]} ∪ ∅)).
  pose proof (ac_best _ _ _ _ (aa_core _ _ _ _ Ha)) as Hk.
  assert (m_best_height after_first = 2%Z) as E2 by (vm_compute; reflexivity).
  rewrite E2 in Hk. by replace 2 with k by lia.
Qed.

Lemma shard_catches_up_from_archive_witness :
  ∃ s', shard_controller.atomizer_handler (archive_answers 1 after_first) 2 hungry_shard
          {| m_height := 2; m_transactions := [] |} = Some s' ∧
    shard_at {[ example_coin ]} (take 2 example_blocks) 2 s'.
Proof.
  destruct full_archive_at as [R Ha].
  apply (shard_catches_up_from_archive 1 {[ example_coin ]} example_blocks R 2
    after_first 0 1 [] hungry_shard);
    [simpl; lia|exact example_blocks_wf|exact Ha| |exact hungry_shard_at|lia|lia|reflexivity].
  constructor; [compute_decide|compute_decide|]. constructor.
Defined.

End ArchiverExamples.
