(* ===== verification/LogStore.v ===== *)
(** * The Raft log store

    Model of [src/util/raft/log_store.{hpp,cpp}] and [index_comparator.cpp]:
    the log of the replicated state machines, kept in a database under the
    little-endian index of an entry.  The theorems show that it implements a
    list of entries with a first index.  A log entry and its serialization
    belong to NuRaft and are parameters, as is the database. *)

From Stdlib Require Import ZArith Lia Sorted.
From Stdlib.Strings Require Import Byte.
From stdpp Require Import base tactics numbers gmap sets list sorting.
From S2P Require Import Prelude LevelDB.
Open Scope cbdc_scope.

(** [nuraft::log_entry]: [deserialize] may fail; [log_entry(0, nullptr)] is
    the null entry, with term zero. *)
Class LogEntry (E : Type) := {
  entry_serialize : E → list byte;
  entry_deserialize : list byte → option E;
  get_term : E → Z;
  null_entry : E
}.

Class LogEntryLaws (E : Type) `{LogEntry E} := {
  entry_size e : (Z.of_nat (length (entry_serialize e)) < 2 ^ 64)%Z;
  entry_roundtrip e : entry_deserialize (entry_serialize e) = Some e;
  null_entry_term : get_term null_entry = 0%Z
}.

Module index_comparator.

(** [Compare]: the keys must have the same size; [memcpy] takes the first
    eight bytes. *)
Definition Compare (a b : list byte) : outcome Z :=
  if decide (length a = length b) then
    let a_val := le_val (take 8 a) in
    let b_val := le_val (take 8 b) in
    Ret (if a_val =? b_val then 0 else if a_val <? b_val then -1 else 1)%Z
  else Fatal.

(** What the database asks of its comparator: whether a key comes first. *)
Definition less (a b : list byte) : bool :=
  match Compare a b with Ret c => (c <? 0)%Z | Fatal => false end.

(** Keys of eight bytes are compared as little-endian numbers. *)
Lemma less_val (a b : list byte) :
  length a = 8 → length b = 8 → less a b = (le_val a <? le_val b)%Z.
Proof.
  intros Ha Hb. unfold less, Compare.
  rewrite decide_True, (take_ge a), (take_ge b) by lia.
  destruct (Z.eqb_spec (le_val a) (le_val b)); [|by destruct (le_val a <? le_val b)%Z].
  symmetry. apply Z.ltb_ge. lia.
Qed.

Lemma less_lt (a b : list byte) :
  less a b = true → (le_val (take 8 a) < le_val (take 8 b))%Z.
Proof.
  unfold less, Compare. case_decide; [|done].
  destruct (_ =? _)%Z; [discriminate|].
  destruct (Z.ltb_spec (le_val (take 8 a)) (le_val (take 8 b))); [done|discriminate].
Qed.

End index_comparator.

(** The order of the records of the log: that of their keys. *)
Definition key_lt (a b : list byte * list byte) : Prop :=
  index_comparator.less a.1 b.1 = true.

Lemma key_lt_asym a b : key_lt a b → ¬ key_lt b a.
Proof. intros ?%index_comparator.less_lt ?%index_comparator.less_lt. lia. Qed.

Module log_store.

Record t (db : Type) := mk { m_db : db; m_next_idx : Z; m_start_idx : Z }.
Arguments mk {db}.
Arguments m_db {db}.
Arguments m_next_idx {db}.
Arguments m_start_idx {db}.

Section Ops.
Context {db : Type} `{LevelDB db} `{LevelDBIter db} {E : Type} `{LogEntry E}.

(** The index in a key; the assertion checks its size. *)
Definition key_index (k : list byte) : outcome Z :=
  if decide (length k = 8) then Ret (le_val k) else Fatal.

(** [get_first_or_last_index] *)
Definition first_index (d : db) : outcome Z :=
  match db_iter d with
  | [] => Ret 1%Z
  | (k, _) :: _ => key_index k
  end.

Definition last_index (d : db) : outcome Z :=
  match last (db_iter d) with
  | None => Ret 0%Z
  | Some (k, _) => key_index k
  end.

(** [load], once the database is open. *)
Definition load (d : db) : outcome (t db) :=
  let! last := last_index d in
  let! first := first_index d in
  Ret (mk d (add64 last 1) first).

Definition next_slot (s : t db) : Z := m_next_idx s.
Definition start_index (s : t db) : Z := m_start_idx s.

(** [log_entry_from_slice] *)
Definition log_entry_from_slice (v : list byte) : outcome E :=
  match entry_deserialize v with Some e => Ret e | None => Fatal end.

Definition last_entry (s : t db) : outcome E :=
  match last (db_iter (m_db s)) with
  | None => Ret null_entry
  | Some (_, v) => log_entry_from_slice v
  end.

Definition get_key_slice (key : Z) : list byte := le_bytes 8 key.

Definition append (s : t db) (entry : E) : t db * Z :=
  let next := add64 (m_next_idx s) 1 in
  (mk (db_write (m_db s) [Put (get_key_slice (m_next_idx s)) (entry_serialize entry)])
      next (m_start_idx s),
   sub64 next 1).

(** The indices from [a] up to, not including, [b]. *)
Definition index_range (a b : Z) : list Z :=
  (λ i, a + Z.of_nat i)%Z <$> seq 0 (Z.to_nat (b - a)).

Definition write_at (s : t db) (index : Z) (entry : E) : outcome (t db) :=
  let! _ := alloc 24 (sub64 (m_next_idx s) index) in
  let batch :=
    Put (get_key_slice index) (entry_serialize entry) ::
    ((λ i, Delete (get_key_slice i)) <$>
       index_range (add64 index 1) (m_next_idx s)) in
  Ret (mk (db_write (m_db s) batch) (add64 index 1) (m_start_idx s)).

(** [Seek]: the entries from the first key that is not smaller. *)
Definition seek (d : db) (key : list byte) : list (list byte * list byte) :=
  filter (λ p, index_comparator.less p.1 key = false) (db_iter d).

(** The loop of [log_entries]: the iterator must stay valid. *)
Fixpoint read_entries (n : nat) (it : list (list byte * list byte))
    : outcome (list E) :=
  match n with
  | O => Ret []
  | S n =>
      match it with
      | [] => Fatal
      | (_, v) :: it =>
          let! e := log_entry_from_slice v in
          let! es := read_entries n it in
          Ret (e :: es)
      end
  end.

Definition log_entries (s : t db) (start end_ : Z) : outcome (list E) :=
  let! _ := alloc 16 (sub64 end_ start) in
  read_entries (Z.to_nat (sub64 end_ start)) (seek (m_db s) (get_key_slice start)).

Definition entry_at (s : t db) (index : Z) : outcome E :=
  match db_get (m_db s) (get_key_slice index) with
  | None => Ret null_entry
  | Some v => log_entry_from_slice v
  end.

Definition term_at (s : t db) (index : Z) : outcome Z :=
  let! e := entry_at s index in Ret (get_term e).

(** The bytes of [pack]: the count, then each entry with its length. *)
Definition pack_bytes (es : list E) : list byte :=
  le_bytes 8 (Z.of_nat (length es)) ++
  (es ≫= λ e, le_bytes 8 (Z.of_nat (length (entry_serialize e))) ++ entry_serialize e).

(** A number passed as an [int32_t]. *)
Definition int32 (z : Z) : Z := ((z + 2 ^ 31) `mod` 2 ^ 32 - 2 ^ 31)%Z.

Definition pack (s : t db) (index cnt : Z) : outcome (list byte) :=
  let cnt := int32 cnt in
  if (cnt <? 0)%Z then Fatal else
  let! es := log_entries s index (add64 index cnt) in
  Ret (pack_bytes es).

(** [get_u64] and [get_buffer] of the NuRaft reader throw at the end of the
    buffer. *)
Definition take_exact (n : nat) (bs : list byte) : outcome (list byte * list byte) :=
  if decide (n ≤ length bs) then Ret (take n bs, drop n bs) else Fatal.

Fixpoint unpack_entries (cnt : nat) (bs : list byte) : outcome (list E) :=
  match cnt with
  | O => Ret []
  | S cnt =>
      let! '(len, bs1) := take_exact 8 bs in
      let! '(buf, bs2) := take_exact (Z.to_nat (le_val len)) bs1 in
      let! e := log_entry_from_slice buf in
      let! es := unpack_entries cnt bs2 in
      Ret (e :: es)
  end.

Definition apply_pack (s : t db) (index : Z) (pack : list byte) : outcome (t db) :=
  let! '(cnt, bs) := take_exact 8 pack in
  let! _ := alloc 16 (le_val cnt) in
  let! entries := unpack_entries (Z.to_nat (le_val cnt)) bs in
  let! _ := alloc 24 (Z.of_nat (length entries) * 2) in
  let batch :=
    imap (λ i e, Put (get_key_slice (add64 index (Z.of_nat i))) (entry_serialize e))
      entries in
  let d := db_write (m_db s) batch in
  let! first := first_index d in
  let! last := last_index d in
  Ret (mk d (add64 last 1) first).

Definition compact (s : t db) (last_log_index : Z) : outcome (t db) :=
  let! _ := alloc 24 (add64 (sub64 last_log_index (m_start_idx s)) 1) in
  let batch :=
    (λ i, Delete (get_key_slice i)) <$>
      index_range (m_start_idx s) (last_log_index + 1) in
  let start := add64 last_log_index 1 in
  Ret (mk (db_write (m_db s) batch) (Z.max (m_next_idx s) start) start).

(** [flush]: a synchronous write without a lasting effect. *)
Definition flush (s : t db) : t db :=
  let dummy := le_bytes 8 0 in
  mk (db_write (m_db s) [Put dummy dummy; Delete dummy]) (m_next_idx s) (m_start_idx s).

End Ops.

(** ** The specification

    A log is a list of entries and the index of the first of them. *)

Section Spec.
Context {E : Type}.

Definition entry_of (a : Z) (l : list E) (i : Z) : option E :=
  if decide (a ≤ i)%Z then l !! Z.to_nat (i - a) else None.

(** Replacing the entries from index [i] on by [es], as far as they reach. *)
Definition overwrite (a : Z) (l : list E) (i : Z) (es : list E) : list E :=
  take (Z.to_nat (i - a)) l ++ es ++ drop (Z.to_nat (i - a) + length es) l.

Lemma entry_of_drop a l n i :
  (0 ≤ n)%Z →
  entry_of (a + n) (drop (Z.to_nat n) l) i =
  if decide (a + n ≤ i)%Z then entry_of a l i else None.
Proof.
  intros Hn. unfold entry_of. case_decide; [|done].
  rewrite decide_True by lia. rewrite lookup_drop. f_equal. lia.
Qed.

Lemma entry_of_overwrite a l j es i :
  (a ≤ j)%Z → (j ≤ a + Z.of_nat (length l))%Z →
  entry_of a (overwrite a l j es) i =
  if decide (j ≤ i < j + Z.of_nat (length es))%Z
  then es !! Z.to_nat (i - j) else entry_of a l i.
Proof.
  intros Ha Hj. unfold entry_of, overwrite.
  destruct (decide (a ≤ i)%Z); [|by rewrite decide_False by lia].
  destruct (decide (i < j)%Z).
  - rewrite decide_False, lookup_app_l by len. apply lookup_take_lt. lia.
  - rewrite lookup_app_r by len. rewrite length_take, Nat.min_l by lia. case_decide.
    + rewrite lookup_app_l by lia. f_equal. lia.
    + rewrite lookup_app_r, lookup_drop by lia. f_equal. lia.
Qed.

Lemma entry_of_inside a l i e :
  entry_of a l i = Some e → (a ≤ i < a + Z.of_nat (length l))%Z.
Proof.
  unfold entry_of. case_decide; [|done]. intros Hl%lookup_lt_Some. lia.
Qed.

Lemma entry_of_nth a l n : entry_of a l (a + Z.of_nat n) = l !! n.
Proof. unfold entry_of. rewrite decide_True by lia. f_equal. lia. Qed.

End Spec.

(** The largest index of an entry for which no allocation of the code fails. *)
Definition max_index : Z := 2 ^ 57.

Section Refinement.
Context {db : Type} `{LevelDBLaws db} `{!LevelDBIter db} `{!LevelDBIterLaws db index_comparator.less}.
Context {E : Type} `{LogEntryLaws E}.

(** The database holds exactly the entries of the log under their indices. *)
Definition holds (d : db) (a : Z) (l : list E) : Prop :=
  ∀ k, db_get d k =
       if decide (length k = 8) then entry_serialize <$> entry_of a l (le_val k) else None.

(** The store implements the log [l] that starts at index [a]. *)
Record rep (s : t db) (a : Z) (l : list E) : Prop := {
  rep_first : (0 < a)%Z;
  rep_bound : (a + Z.of_nat (length l) ≤ max_index)%Z;
  rep_start : m_start_idx s = a;
  rep_next : m_next_idx s = (a + Z.of_nat (length l))%Z;
  rep_db : holds (m_db s) a l
}.

Lemma key_eq i k : is_u64 i → get_key_slice i = k ↔ length k = 8 ∧ le_val k = i.
Proof.
  intros Hi. unfold get_key_slice. split.
  - intros <-. by rewrite length_le_bytes, le_val_bytes_u64.
  - intros [Hl <-]. rewrite <- Hl. apply le_bytes_val.
Qed.

Lemma effect_put i k v w :
  is_u64 i →
  op_effect k v (Put (get_key_slice i) w) =
  if decide (length k = 8 ∧ le_val k = i) then Some w else v.
Proof. intros Hi. pose proof (key_eq i k Hi). simpl. repeat case_decide; tauto. Qed.

Lemma effect_delete i k v :
  is_u64 i →
  op_effect k v (Delete (get_key_slice i)) =
  if decide (length k = 8 ∧ le_val k = i) then None else v.
Proof. intros Hi. pose proof (key_eq i k Hi). simpl. repeat case_decide; tauto. Qed.

Lemma foldl_delete k v (js : list Z) :
  Forall is_u64 js →
  foldl (op_effect k) v ((λ i, Delete (get_key_slice i)) <$> js) =
  if decide (length k = 8 ∧ le_val k ∈ js) then None else v.
Proof.
  intros Hi. revert v. induction Hi as [|i js Hi _ IH]; intros v.
  - rewrite decide_False; [done|]. intros [_ []%elem_of_nil].
  - rewrite fmap_cons. cbn [foldl]. rewrite IH, effect_delete by done.
    repeat case_decide; try done; set_solver.
Qed.

Lemma foldl_put k v index (es : list E) :
  (0 ≤ index)%Z → (index + Z.of_nat (length es) ≤ 2 ^ 64)%Z →
  foldl (op_effect k) v
    (imap (λ i e, Put (get_key_slice (add64 index (Z.of_nat i))) (entry_serialize e)) es) =
  if decide (length k = 8 ∧ (index ≤ le_val k < index + Z.of_nat (length es))%Z)
  then entry_serialize <$> es !! Z.to_nat (le_val k - index) else v.
Proof.
  revert v index. induction es as [|e es IH]; intros v index H0' Hb.
  - rewrite decide_False; [done|]. simpl. lia.
  - cbn [imap foldl]. rewrite length_cons in *.
    rewrite (imap_ext _ (λ i e,
      Put (get_key_slice (add64 (index + 1) (Z.of_nat i))) (entry_serialize e))).
    2:{ intros i x _. unfold compose. do 2 f_equal. unfold add64. f_equal. lia. }
    rewrite IH, (add64_exact index), effect_put by (unfold is_u64; lia).
    destruct (decide (length k = 8)); repeat case_decide; try lia; try done.
    + replace (Z.to_nat (le_val k - index)) with (S (Z.to_nat (le_val k - (index + 1)))) by lia.
      done.
    + by replace (Z.to_nat (le_val k - index)) with 0 by lia.
Qed.

(** *** What the updates do to the log *)

Lemma holds_put d a l i es :
  holds d a l → (0 ≤ a)%Z → (a ≤ i)%Z → (i ≤ a + Z.of_nat (length l))%Z →
  (i + Z.of_nat (length es) ≤ 2 ^ 64)%Z →
  holds (db_write d (imap (λ n e,
    Put (get_key_slice (add64 i (Z.of_nat n))) (entry_serialize e)) es))
    a (overwrite a l i es).
Proof.
  intros Hd Ha Hi Hl Hb k. rewrite db_get_write, foldl_put, Hd, entry_of_overwrite by lia.
  repeat case_decide; try done; lia.
Qed.

Lemma holds_delete d a l js a' l' :
  holds d a l → Forall is_u64 js →
  (∀ i, entry_of a' l' i = if decide (i ∈ js) then None else entry_of a l i) →
  holds (db_write d ((λ i, Delete (get_key_slice i)) <$> js)) a' l'.
Proof.
  intros Hd Hj He k. rewrite db_get_write, foldl_delete, Hd, He by done.
  repeat case_decide; try done; naive_solver.
Qed.

Lemma elem_of_index_range a b i : i ∈ index_range a b ↔ (a ≤ i < b)%Z.
Proof.
  unfold index_range. rewrite list_elem_of_fmap. split.
  - intros (n & -> & Hn%elem_of_seq). lia.
  - intros Hi. exists (Z.to_nat (i - a)). rewrite elem_of_seq. lia.
Qed.

Lemma index_range_u64 a b : (0 ≤ a)%Z → (b ≤ 2 ^ 64)%Z → Forall is_u64 (index_range a b).
Proof.
  intros. apply Forall_forall. intros i Hi%elem_of_index_range. unfold is_u64. lia.
Qed.

(** *** What the iterator sees *)

Definition records (a : Z) (l : list E) : list (list byte * list byte) :=
  imap (λ n e, (get_key_slice (a + Z.of_nat n), entry_serialize e)) l.

Lemma elem_of_records a l p :
  p ∈ records a l ↔
  ∃ n e, l !! n = Some e ∧ p = (get_key_slice (a + Z.of_nat n), entry_serialize e).
Proof.
  unfold records. rewrite list_elem_of_lookup. setoid_rewrite list_lookup_imap.
  split; [intros [n Hn]|intros (n & e & Hn & ->); exists n; by rewrite Hn].
  destruct (l !! n) eqn:Hl; simplify_eq/=. eauto.
Qed.

Lemma records_cons a e l :
  records a (e :: l) = (get_key_slice a, entry_serialize e) :: records (a + 1) l.
Proof.
  unfold records. cbn [imap]. f_equal; [by rewrite Z.add_0_r|].
  apply imap_ext. intros i x _. unfold compose. do 2 f_equal. lia.
Qed.

Lemma records_sorted a l :
  (0 ≤ a)%Z → (a + Z.of_nat (length l) ≤ 2 ^ 64)%Z → StronglySorted key_lt (records a l).
Proof.
  revert a. induction l as [|e l IH]; intros a Ha Hb; [constructor|].
  rewrite records_cons, length_cons in *. constructor; [apply IH; lia|].
  apply Forall_forall. intros p (n & x & Hn%lookup_lt_Some & ->)%elem_of_records.
  unfold key_lt, get_key_slice. cbn [fst].
  rewrite index_comparator.less_val by apply length_le_bytes. apply Z.ltb_lt.
  rewrite !le_val_bytes_u64 by (unfold is_u64; lia). lia.
Qed.

Lemma key_lt_NoDup (ps : list (list byte * list byte)) : StronglySorted key_lt ps → NoDup ps.
Proof.
  induction 1 as [|p ps _ IH Hp]; constructor; [|done].
  intros Hin. rewrite Forall_forall in Hp. specialize (Hp _ Hin). by apply (key_lt_asym p p).
Qed.

Lemma holds_iter d a l :
  holds d a l → (0 ≤ a)%Z → (a + Z.of_nat (length l) ≤ 2 ^ 64)%Z →
  db_iter d = records a l.
Proof.
  intros Hd Ha Hb. pose proof (records_sorted a l Ha Hb) as Hr.
  assert (StronglySorted key_lt (db_iter d)) as Hs.
  { apply iter_sorted. intros k v Hk. rewrite Hd in Hk. by case_decide. }
  apply (StronglySorted_unique_strong key_lt); [|done..|].
  { intros x1 x2 _ _ H12 H21. by destruct (key_lt_asym _ _ H12). }
  apply NoDup_Permutation; [by apply key_lt_NoDup..|].
  intros [k v]. rewrite iter_get, Hd, elem_of_records. split.
  - case_decide as Hk; [|done]. intros (e & He & ->)%fmap_Some.
    pose proof (entry_of_inside _ _ _ _ He) as Hi.
    exists (Z.to_nat (le_val k - a)), e. split.
    { rewrite <- (entry_of_nth a l), Z2Nat.id by lia.
      by replace (a + (le_val k - a))%Z with (le_val k) by lia. }
    f_equal. symmetry. apply key_eq; [unfold is_u64; lia|]. split; [done|lia].
  - intros (n & e & Hn & [= -> ->]). pose proof (lookup_lt_Some _ _ _ Hn).
    destruct (proj1 (key_eq (a + Z.of_nat n) _ ltac:(unfold is_u64; lia)) eq_refl) as [Hk ->].
    by rewrite decide_True, entry_of_nth, Hn.
Qed.

Lemma records_drop a l n : drop n (records a l) = records (a + Z.of_nat n) (drop n l).
Proof.
  revert a n. induction l as [|e l IH]; intros a [|n]; try done.
  - by rewrite Z.add_0_r.
  - rewrite records_cons. cbn [drop]. rewrite IH. f_equal. lia.
Qed.

Lemma records_last a l :
  last (records a l) =
  (λ e, (get_key_slice (a + Z.of_nat (length l) - 1), entry_serialize e)) <$> last l.
Proof.
  revert a. induction l as [|e l IH]; intros a; [done|].
  rewrite records_cons, !last_cons, IH, length_cons. destruct (last l) as [x|] eqn:Hx.
  - simpl. do 2 f_equal. f_equal. lia.
  - apply last_None in Hx as ->. simpl. do 2 f_equal. f_equal. lia.
Qed.

(** The order of [records] lets [Seek] skip the entries before the index. *)
Lemma seek_records a l i :
  (0 ≤ a)%Z → (a + Z.of_nat (length l) ≤ 2 ^ 64)%Z →
  is_u64 i →
  filter (λ p, index_comparator.less p.1 (get_key_slice i) = false) (records a l) = drop (Z.to_nat (i - a)) (records a l).
Proof.
  intros Ha Hb Hi. revert a Ha Hb.
  induction l as [|e l IH]; intros a Ha Hb; [by destruct (Z.to_nat _)|].
  rewrite records_cons, length_cons in *. rewrite filter_cons, IH by lia. cbn [fst].
  assert (index_comparator.less (get_key_slice a) (get_key_slice i) = (a <? i)%Z) as ->.
  { rewrite index_comparator.less_val by apply length_le_bytes. unfold get_key_slice.
    by rewrite !le_val_bytes_u64 by (done || unfold is_u64; lia). }
  destruct (Z.ltb_spec a i); [rewrite decide_False by done|rewrite decide_True by done]; swap 1 2.
  - by replace (Z.to_nat (i - a)) with 0 by lia; replace (Z.to_nat (i - (a + 1))) with 0 by lia.
  - by replace (Z.to_nat (i - a)) with (S (Z.to_nat (i - (a + 1)))) by lia.
Qed.

Lemma log_entry_serialize e : log_entry_from_slice (entry_serialize e) = Ret e.
Proof. unfold log_entry_from_slice. by rewrite entry_roundtrip. Qed.

Lemma read_records a l n :
  n ≤ length l → read_entries n (records a l) = Ret (take n l).
Proof.
  revert a n. induction l as [|e l IH]; intros a [|n] Hn; try done.
  { simpl in Hn. lia. }
  rewrite records_cons. cbn [read_entries]. rewrite log_entry_serialize. cbn [obind].
  rewrite IH by (simpl in Hn; lia). done.
Qed.

Lemma first_index_holds d a l :
  holds d a l → (0 ≤ a)%Z → (a + Z.of_nat (length l) ≤ 2 ^ 64)%Z →
  first_index d = Ret (if l is [] then 1 else a)%Z.
Proof.
  intros Hd Ha Hb. unfold first_index. rewrite (holds_iter d a l) by done.
  destruct l as [|e l]; [done|]. rewrite records_cons. unfold key_index, get_key_slice.
  rewrite length_le_bytes, decide_True, le_val_bytes_u64 by (unfold is_u64; len). done.
Qed.

Lemma last_index_holds d a l :
  holds d a l → (0 ≤ a)%Z → (a + Z.of_nat (length l) ≤ 2 ^ 64)%Z →
  last_index d = Ret (if l is [] then 0 else a + Z.of_nat (length l) - 1)%Z.
Proof.
  intros Hd Ha Hb. unfold last_index. rewrite (holds_iter d a l), records_last by done.
  destruct l as [|e l]; [done|]. destruct (last (e :: l)) eqn:Hl; [|by apply last_None in Hl].
  cbn [fmap option_fmap option_map]. unfold key_index, get_key_slice.
  rewrite length_le_bytes, decide_True, le_val_bytes_u64 by (unfold is_u64; len). done.
Qed.

(** *** Every operation refines its effect on the list *)

Ltac in_bounds := solve [done | unfold is_u64, max_index in *; lia].

Lemma holds_write_cons d op ops a l :
  holds (db_write (db_write d [op]) ops) a l → holds (db_write d (op :: ops)) a l.
Proof. intros Hd k. rewrite <- Hd, !db_get_write. done. Qed.

Lemma holds_put_one d a l i e :
  holds d a l → (0 ≤ a ≤ i)%Z → (i ≤ a + Z.of_nat (length l))%Z → (i < 2 ^ 64)%Z →
  holds (db_write d [Put (get_key_slice i) (entry_serialize e)]) a (overwrite a l i [e]).
Proof.
  intros Hd Hi Hl Hb. pose proof (holds_put d a l i [e] Hd) as Hp. cbn [imap length] in Hp.
  rewrite (add64_exact i (Z.of_nat 0)), Z.add_0_r in Hp by in_bounds. apply Hp; lia.
Qed.

Lemma append_rep s a l e :
  rep s a l → (next_slot s < max_index)%Z →
  ∃ s', append s e = (s', next_slot s) ∧ rep s' a (l ++ [e]).
Proof.
  intros [Ha Hb Hst Hn Hd] Hm. unfold append, next_slot in *.
  rewrite (add64_exact (m_next_idx s)), sub64_exact by in_bounds.
  rewrite Z.add_simpl_r. eexists. split; [done|]. split; cbn; try rewrite length_app; try done.
  1,2: cbn [length]; in_bounds.
  assert (overwrite a l (m_next_idx s) [e] = l ++ [e]) as <-.
  { unfold overwrite. rewrite take_ge, drop_ge by in_bounds. by rewrite app_nil_r. }
  apply holds_put_one; [done|in_bounds..].
Qed.

Lemma write_at_rep s a l i e :
  rep s a l → (a ≤ i)%Z → (i ≤ next_slot s)%Z → (i < max_index)%Z →
  ∃ s', write_at s i e = Ret s' ∧ rep s' a (take (Z.to_nat (i - a)) l ++ [e]).
Proof.
  intros [Ha Hb Hst Hn Hd] Hai Hin Him. unfold write_at, next_slot in *.
  rewrite sub64_exact, alloc_ok, (add64_exact i) by in_bounds. cbn [obind].
  eexists. split; [done|].
  assert (length (take (Z.to_nat (i - a)) l) = Z.to_nat (i - a)) as Hlen by (len; in_bounds).
  split; cbn; rewrite ?length_app, ?Hlen; cbn [length]; try in_bounds.
  apply holds_write_cons. eapply holds_delete; [apply holds_put_one; [done|in_bounds..]| |].
  { apply index_range_u64; in_bounds. }
  intros j. rewrite (decide_ext _ (i + 1 ≤ j < m_next_idx s)%Z) by apply elem_of_index_range.
  assert (take (Z.to_nat (i - a)) l ++ [e] = overwrite a (take (Z.to_nat (i - a)) l) i [e]) as ->.
  { unfold overwrite. rewrite (take_ge (take _ _)), (drop_ge (take _ _)) by lia. 
    by rewrite app_nil_r. }
  rewrite !entry_of_overwrite by in_bounds. cbn [length].
  unfold entry_of. repeat case_decide; try lia; try done.
  - apply lookup_take_ge. lia.
  - destruct (decide (j < i)%Z); [apply lookup_take_lt; lia|].
    rewrite lookup_take_ge by lia. symmetry. apply lookup_ge_None. lia.
Qed.

Lemma log_entries_rep s a l i j :
  rep s a l → (a ≤ i ≤ j)%Z → (j ≤ next_slot s)%Z →
  log_entries s i j = Ret (take (Z.to_nat (j - i)) (drop (Z.to_nat (i - a)) l)).
Proof.
  intros [Ha Hb Hst Hn Hd] Hi Hj. unfold log_entries, next_slot, seek in *.
  rewrite sub64_exact, alloc_ok by in_bounds. cbn [obind].
  rewrite (holds_iter _ a l), seek_records, records_drop by in_bounds.
  apply read_records. len.
Qed.

Lemma entry_at_rep s a l i :
  rep s a l → is_u64 i → entry_at s i = Ret (default null_entry (entry_of a l i)).
Proof.
  intros [Ha Hb Hst Hn Hd] Hi. unfold entry_at, get_key_slice.
  rewrite Hd, length_le_bytes, decide_True, le_val_bytes_u64 by done.
  destruct (entry_of a l i); [apply log_entry_serialize|done].
Qed.

Lemma last_entry_rep s a l :
  rep s a l → last_entry s = Ret (default null_entry (last l)).
Proof.
  intros [Ha Hb Hst Hn Hd]. unfold last_entry.
  rewrite (holds_iter _ a l), records_last by in_bounds.
  destruct (last l); [apply log_entry_serialize|done].
Qed.

Lemma compact_rep s a l i :
  rep s a l → (a - 1 ≤ i < max_index)%Z →
  ∃ s', compact s i = Ret s' ∧ rep s' (i + 1) (drop (Z.to_nat (i + 1 - a)) l).
Proof.
  intros [Ha Hb Hst Hn Hd] Hi. unfold compact. rewrite Hst.
  assert (add64 (sub64 i a) 1 = i - a + 1)%Z as ->.
  { unfold add64, sub64, u64. rewrite Zplus_mod_idemp_l. apply Z.mod_small. in_bounds. }
  rewrite alloc_ok, (add64_exact i) by in_bounds. cbn [obind]. eexists. split; [done|].
  split; cbn; try in_bounds.
  1,2: len; in_bounds.
  eapply holds_delete; [done|apply index_range_u64; in_bounds|]. intros j.
  replace (i + 1)%Z with (a + (i + 1 - a))%Z by lia.
  replace (a + (i + 1 - a) - a)%Z with (i + 1 - a)%Z by lia.
  rewrite entry_of_drop, (decide_ext (j ∈ _) (a ≤ j < a + (i + 1 - a))%Z)
    by (lia || apply elem_of_index_range).
  repeat case_decide; try done; try lia. unfold entry_of. by rewrite decide_False by lia.
Qed.

Lemma flush_rep s a l : rep s a l → rep (flush s) a l.
Proof.
  intros [Ha Hb Hst Hn Hd]. split; try done. cbn. intros k. rewrite <- Hd, db_get_write.
  cbn [foldl op_effect]. repeat case_decide; try done. subst k.
  rewrite Hd, decide_True by apply length_le_bytes.
  unfold entry_of. rewrite decide_False; [done|]. change (le_val (le_bytes 8 0)) with 0%Z. lia.
Qed.

Lemma load_rep s a l : rep s a l → l ≠ [] → load (m_db s) = Ret s.
Proof.
  intros [Ha Hb Hst Hn Hd] Hl. unfold load.
  rewrite (last_index_holds _ a l), (first_index_holds _ a l) by in_bounds. cbn [obind].
  destruct l as [|e l]; [done|]. rewrite add64_exact by in_bounds.
  destruct s; simpl in *; subst. do 2 f_equal; lia.
Qed.

Lemma load_empty d a : holds d a [] → load d = Ret (mk d 1 1).
Proof. 
  intros Hd. assert (holds d 0 []) as Hd0.
  { intros k. rewrite Hd. unfold entry_of. by repeat case_decide. }
  unfold load. rewrite (last_index_holds _ 0 []), (first_index_holds _ 0 []) by (done || lia).
  done.
Qed.

(** *** Packing *)

Lemma take_exact_app n bs bs' : length bs = n → take_exact n (bs ++ bs') = Ret (bs, bs').
Proof.
  intros <-. unfold take_exact. rewrite decide_True by len.
  by rewrite take_app_length, drop_app_length.
Qed.

Lemma unpack_packed es bs :
  unpack_entries (length es)
    ((es ≫= λ e, le_bytes 8 (Z.of_nat (length (entry_serialize e))) ++ entry_serialize e)
     ++ bs) = Ret es.
Proof.
  induction es as [|e es IH]; [done|].
  rewrite bind_cons, length_cons. cbn [unpack_entries]. rewrite <- !app_assoc.
  rewrite take_exact_app by apply length_le_bytes. cbn [obind].
  pose proof (entry_size e). rewrite le_val_bytes_u64 by in_bounds.
  rewrite take_exact_app by lia. cbn [obind]. by rewrite log_entry_serialize, IH.
Qed.

Lemma int32_exact n : (0 ≤ n < 2 ^ 31)%Z → int32 n = n.
Proof. intros Hn. unfold int32. rewrite Z.mod_small by lia. lia. Qed.

Lemma pack_rep s a l i n :
  rep s a l → (a ≤ i)%Z → (0 ≤ n < 2 ^ 31)%Z → (i + n ≤ next_slot s)%Z →
  pack s i n = Ret (pack_bytes (take (Z.to_nat n) (drop (Z.to_nat (i - a)) l))).
Proof.
  intros Hr Hi Hn Hb. pose proof (rep_next _ _ _ Hr). pose proof (rep_bound _ _ _ Hr).
  pose proof (rep_first _ _ _ Hr). unfold pack, next_slot in *.
  rewrite int32_exact by done.
  rewrite (proj2 (Z.ltb_ge _ _)), add64_exact by in_bounds.
  rewrite (log_entries_rep s a l) by (done || unfold next_slot; lia). cbn [obind].
  do 5 f_equal. lia.
Qed.

(** Applying a pack writes its entries and reads the bounds back. *)
Lemma apply_pack_rep s i es a l :
  es ≠ [] → l ≠ [] → (0 < a)%Z → (i + Z.of_nat (length es) ≤ max_index)%Z → (0 ≤ i)%Z →
  (a + Z.of_nat (length l) ≤ max_index)%Z →
  holds (db_write (m_db s) (imap (λ n e,
    Put (get_key_slice (add64 i (Z.of_nat n))) (entry_serialize e)) es)) a l →
  ∃ s', apply_pack s i (pack_bytes es) = Ret s' ∧ rep s' a l.
Proof.
  intros Hes Hl Ha Hb Hi Hlb Hd. unfold apply_pack, pack_bytes.
  rewrite take_exact_app by apply length_le_bytes. cbn [obind].
  rewrite le_val_bytes_u64, Nat2Z.id, alloc_ok by in_bounds. cbn [obind].
  rewrite <- (app_nil_r (_ ≫= _)), unpack_packed. cbn [obind].
  rewrite alloc_ok by in_bounds. cbn [obind].
  rewrite (first_index_holds _ a l), (last_index_holds _ a l) by in_bounds. cbn [obind].
  destruct l as [|e l]; [done|]. rewrite add64_exact by in_bounds.
  eexists. split; [done|]. split; cbn [m_db m_start_idx m_next_idx]; in_bounds.
Qed.

(** ** Sequences of operations *)

(** What NuRaft asks of its log, and a restart of the process. *)
Inductive op :=
| Append (e : E)
| WriteAt (i : Z) (e : E)
| Compact (i : Z)
| ApplyPack (i : Z) (es : list E)
| Flush
| Restart.

Definition run_op (s : t db) (o : op) : outcome (t db) :=
  match o with
  | Append e => Ret (append s e).1
  | WriteAt i e => write_at s i e
  | Compact i => compact s i
  | ApplyPack i es => apply_pack s i (pack_bytes es)
  | Flush => Ret (flush s)
  | Restart => load (m_db s)
  end.

Fixpoint run_ops (s : t db) (os : list op) : outcome (t db) :=
  match os with
  | [] => Ret s
  | o :: os => let! s := run_op s o in run_ops s os
  end.

(** The effect on the specification; [None] where NuRaft must not call.  A
    restart forgets the indices of a log without entries. *)
Definition spec_op (al : Z * list E) (o : op) : option (Z * list E) :=
  let '(a, l) := al in
  let next := (a + Z.of_nat (length l))%Z in
  match o with
  | Append e => if (next <? max_index)%Z then Some (a, l ++ [e]) else None
  | WriteAt i e =>
      if ((a <=? i) && (i <=? next) && (i <? max_index))%Z
      then Some (a, take (Z.to_nat (i - a)) l ++ [e]) else None
  | Compact i =>
      if ((a - 1 <=? i) && (i <? max_index))%Z
      then Some ((i + 1)%Z, drop (Z.to_nat (i + 1 - a)) l) else None
  | ApplyPack i es =>
      if ((0 <? i) && (i + Z.of_nat (length es) <=? max_index))%Z then
        match l, es with
        | _, [] => None
        | [], _ => Some (i, es)
        | _, _ => if ((a <=? i) && (i <=? next))%Z
                  then Some (a, overwrite a l i es) else None
        end
      else None
  | Flush => Some (a, l)
  | Restart => Some (match l with [] => (1%Z, []) | _ => (a, l) end)
  end.

Fixpoint spec_ops (al : Z * list E) (os : list op) : option (Z * list E) :=
  match os with
  | [] => Some al
  | o :: os => al ← spec_op al o; spec_ops al os
  end.

Lemma overwrite_rep s a l i es :
  rep s a l → es ≠ [] → l ≠ [] → (a ≤ i ≤ a + Z.of_nat (length l))%Z →
  (i + Z.of_nat (length es) ≤ max_index)%Z →
  ∃ s', apply_pack s i (pack_bytes es) = Ret s' ∧ rep s' a (overwrite a l i es).
Proof.
  intros [Ha Hb Hst Hn Hd] Hes Hl Hi Hm.
  apply apply_pack_rep; try in_bounds.
  - unfold overwrite. destruct es; [done|]. intros Hc%(f_equal length). len.
  - unfold overwrite. unfold max_index in *. len.
  - apply holds_put; in_bounds.
Qed.

Lemma install_rep s a i es :
  rep s a [] → es ≠ [] → (0 < i)%Z → (i + Z.of_nat (length es) ≤ max_index)%Z →
  ∃ s', apply_pack s i (pack_bytes es) = Ret s' ∧ rep s' i es.
Proof.
  intros [Ha Hb Hst Hn Hd] Hes Hi Hm. apply apply_pack_rep; try in_bounds.
  replace es with (overwrite i [] i es) at 2.
  2:{ unfold overwrite. by rewrite take_nil, drop_nil, app_nil_r. }
  apply holds_put; try in_bounds. intros k. rewrite Hd. unfold entry_of.
  by repeat case_decide.
Qed.

Lemma op_rep s a l o a' l' :
  rep s a l → spec_op (a, l) o = Some (a', l') → ∃ s', run_op s o = Ret s' ∧ rep s' a' l'.
Proof.
  intros Hr Hs. pose proof (rep_next _ _ _ Hr) as Hn. pose proof (rep_first _ _ _ Hr).
  destruct o as [e|i e|i|i es| |]; cbn [spec_op run_op] in *.
  - case_match; bools; simplify_eq.
    destruct (append_rep s a' l e Hr) as (s' & -> & Hr'); [unfold next_slot; lia|].
    by exists s'.
  - case_match; bools; simplify_eq. apply write_at_rep; unfold next_slot; [done|lia..].
  - case_match; bools; simplify_eq. apply compact_rep; [done|lia].
  - case_match; bools; [|done]. destruct l, es; simplify_eq.
    + by eapply install_rep.
    + case_match; bools; simplify_eq. apply overwrite_rep; try done.
  - simplify_eq. eexists. split; [done|]. by apply flush_rep.
  - simplify_eq. destruct l as [|e l]; simplify_eq.
    + rewrite (load_empty _ a) by apply Hr. eexists. split; [done|].
      split; cbn [m_db m_start_idx m_next_idx]; try done. intros k.
      rewrite (rep_db _ _ _ Hr). unfold entry_of. by repeat case_decide.
    + exists s. split; [|done]. by eapply load_rep.
Qed.

Lemma ops_rep s a l os a' l' :
  rep s a l → spec_ops (a, l) os = Some (a', l') → ∃ s', run_ops s os = Ret s' ∧ rep s' a' l'.
Proof.
  revert s a l. induction os as [|o os IH]; intros s a l Hr Hs; simplify_eq/=; [by exists s|].
  apply bind_Some in Hs as ([a1 l1] & Ho & Hos).
  destruct (op_rep s a l o a1 l1 Hr Ho) as (s1 & -> & Hr1). cbn [obind]. by eapply IH.
Qed.

Lemma empty_rep d : (∀ k, db_get d k = None) → rep (mk d 1 1) 1 [].
Proof.
  intros Hd. split; try done. intros k. cbn. rewrite Hd. unfold entry_of.
  by repeat case_decide.
Qed.

(** C25: The Raft log store implements a list of entries with a first index.
    After any sequence of appends, overwrites, compactions, packs received,
    flushes and restarts that NuRaft may ask for, starting from an empty
    database, the store reports the bounds, the entries, the terms, the ranges
    and the packs of that list (of as many entries as an [int32_t] counts),
    and a null entry outside of it. *)
Theorem log_store_refines_list (d : db) (os : list op) a l :
  (∀ k, db_get d k = None) →
  spec_ops (1%Z, []) os = Some (a, l) →
  ∃ s, (let! s0 := load d in run_ops s0 os) = Ret s ∧
    start_index s = a ∧ next_slot s = (a + Z.of_nat (length l))%Z ∧
    last_entry s = Ret (default null_entry (last l)) ∧
    (∀ i, is_u64 i →
       entry_at s i = Ret (default null_entry (entry_of a l i)) ∧
       term_at s i = Ret (default 0%Z (get_term <$> entry_of a l i))) ∧
    (∀ i j, (a ≤ i ≤ j)%Z → (j ≤ next_slot s)%Z →
       log_entries s i j = Ret (take (Z.to_nat (j - i)) (drop (Z.to_nat (i - a)) l)) ∧
       ((j - i < 2 ^ 31)%Z → pack s i (j - i) =
         Ret (pack_bytes (take (Z.to_nat (j - i)) (drop (Z.to_nat (i - a)) l))))).
Proof.
  intros Hd Hs. rewrite (load_empty d 1) by apply (empty_rep d Hd). cbn [obind].
  destruct (ops_rep _ _ _ _ _ _ (empty_rep d Hd) Hs) as (s & Hrun & Hr).
  exists s. split; [done|]. split; [apply Hr|]. split; [apply Hr|].
  split; [by eapply last_entry_rep|]. split.
  - intros i Hi. unfold term_at. rewrite (entry_at_rep s a l i Hr Hi). cbn [obind].
    split; [done|]. destruct (entry_of a l i); [done|]. simpl. by rewrite null_entry_term.
  - intros i j Hi Hj. split; [by apply log_entries_rep|].
    intros Hc. apply pack_rep; [done|lia..].
Qed.

End Refinement.

(** ** Examples *)

Module toy.
Import in_memory.

(** An entry of one byte, its term. *)
#[export] Instance byte_entry : LogEntry byte := {|
  entry_serialize b := [b];
  entry_deserialize bs := match bs with [b] => Some b | _ => None end;
  get_term := Z_of_byte;
  null_entry := x00
|}.

#[export] Instance byte_entry_laws : LogEntryLaws byte.
Proof. split; done. Qed.

(** A finite map opened with the log's comparator. *)
#[export] Instance index_iter_laws :
  LevelDBIterLaws (gmap (list byte) (list byte)) index_comparator.less.
Proof. apply in_memory.gmap_iter_laws, index_comparator.less_val. Qed.

End toy.

Import in_memory toy.

Lemma log_store_refines_list_witness :
  let os := [Append x01; Append x02; Append x03; Compact 1; WriteAt 3 x05; Restart;
             ApplyPack 4 [x06; x07]; Flush] in
  ∃ s : t (gmap (list byte) (list byte)),
    (let! s0 := load ∅ in run_ops s0 os) = Ret s ∧ next_slot s = 6%Z ∧
    entry_at s 3 = Ret x05 ∧ entry_at s 1 = Ret x00.
Proof.
  cbn zeta.
  destruct (log_store_refines_list (∅ : gmap (list byte) (list byte))
    [Append x01; Append x02; Append x03; Compact 1; WriteAt 3 x05; Restart;
     ApplyPack 4 [x06; x07]; Flush] 2 [x02; x05; x06; x07])
    as (s & Hrun & _ & Hn & _ & He & _).
  - intros k. reflexivity.
  - reflexivity.
  - exists s. split; [exact Hrun|]. split; [exact Hn|].
    split; [exact (proj1 (He 3%Z ltac:(unfold is_u64; lia)))
           |exact (proj1 (He 1%Z ltac:(unfold is_u64; lia)))].
Defined.

(** Compacting the whole log and restarting loses its position: the next
    entry is stored under index 1 again, although the store had promised
    index 3. *)
Theorem compacted_log_restarts_at_one :
  ∃ s s' : t (gmap (list byte) (list byte)),
    (let! s0 := load ∅ in run_ops s0 [Append x01; Append x02; Compact 2]) = Ret s ∧
    next_slot s = 3%Z ∧ load (m_db s) = Ret s' ∧ next_slot s' = 1%Z.
Proof. do 2 eexists. repeat split; vm_compute; reflexivity. Qed.

End log_store.
