(* ===== verification/Config.v ===== *)
(** * Configuration

    Model of [src/util/common/config.{hpp,cpp}]: the parser of the
    configuration file with its overrides from the environment, the names of
    the settings, the options each kind of node reads, the checks on them, and
    the split of pre-seeded outputs over load generators.  The environment is
    an argument; floating-point numbers and [std::stod] are parameters. *)

From Stdlib Require Import ZArith Lia.
From Stdlib.Strings Require Import Byte String.
From stdpp Require Import base tactics numbers gmap sets list.
From S2P Require Import Prelude Text.
Open Scope cbdc_scope.

(** [double] and [std::stod], which may throw. *)
Class Decimal (D : Type) := {
  stod : list byte → outcome D;
  dec_zero : D;
  dec_one : D
}.

(** A function that returns an error message or a value. *)
Abbreviation result A := (outcome (list byte + A)).

Definition ok {A} (a : A) : result A := Ret (inr a).
Definition err {A} (e : list byte) : result A := Ret (inl e).

Definition rbind {A B} (m : result A) (f : A → result B) : result B :=
  let! r := m in
  match r with inl e => Ret (inl e) | inr a => f a end.

Notation "'let?' x := m 'in' k" := (rbind m (λ x, k))
  (at level 200, x binder, m at level 100, k at level 200, right associativity)
  : cbdc_scope.

(** An optional setting that must be there. *)
Definition required {A} (m : outcome (option A)) (msg : list byte) : result A :=
  let! o := m in
  match o with None => err msg | Some a => ok a end.

(** An optional setting with a default. *)
Definition value_or {A} (m : outcome (option A)) (d : A) : result A :=
  let! o := m in ok (default d o).

(** [for(size_t i{lo}; i < lo + n; i++)] *)
Fixpoint for_each {St} (n : nat) (lo : Z) (body : Z → St → result St) (st : St)
    : result St :=
  match n with
  | O => ok st
  | S n => let? st := body lo st in for_each n (lo + 1) body st
  end.

Lemma rbind_inr {A B} (m : result A) (f : A → result B) b :
  rbind m f = Ret (inr b) → ∃ a, m = Ret (inr a) ∧ f a = Ret (inr b).
Proof. destruct m as [[e|a]|]; cbn; naive_solver. Qed.

Lemma obind_inr {A B} (m : outcome A) (f : A → result B) b :
  obind m f = Ret (inr b) → ∃ a, m = Ret a ∧ f a = Ret (inr b).
Proof. destruct m as [a|]; cbn; naive_solver. Qed.

Lemma required_inr {A} (m : outcome (option A)) msg a :
  required m msg = Ret (inr a) → m = Ret (Some a).
Proof. destruct m as [[x|]|]; cbn; unfold ok, err; naive_solver. Qed.

(** Take apart a successful run. *)
Ltac run_inv :=
  repeat match goal with
  | H : rbind _ _ = Ret (inr _) |- _ => apply rbind_inr in H as (? & ? & ?)
  | H : obind _ _ = Ret (inr _) |- _ => apply obind_inr in H as (? & ? & ?)
  | H : required _ _ = Ret (inr _) |- _ => apply required_inr in H
  | H : ok _ = Ret (inr _) |- _ => injection H as H
  | H : err _ = Ret (inr _) |- _ => discriminate H
  end.

Lemma for_each_inv {St} (I : Z → St → Prop) (body : Z → St → result St) n : ∀ lo st st',
  (∀ i st st', (lo ≤ i < lo + Z.of_nat n)%Z → I i st → body i st = Ret (inr st') →
     I (i + 1)%Z st') →
  I lo st → for_each n lo body st = Ret (inr st') → I (lo + Z.of_nat n)%Z st'.
Proof.
  induction n as [|n IH]; intros lo st st' Hb HI Hr.
  { injection Hr as <-. by rewrite Z.add_0_r. }
  cbn [for_each] in Hr. run_inv. rewrite Nat2Z.inj_succ in *.
  replace (lo + Z.succ (Z.of_nat n))%Z with (lo + 1 + Z.of_nat n)%Z by lia.
  eapply IH; [|eapply Hb; [lia|done|done]|done]. intros i s s' Hi. apply Hb. lia.
Qed.

Module config.

(** ** The names of the settings *)

Definition endpoint_postfix := lit "endpoint".
Definition loglevel_postfix := lit "loglevel".
Definition raft_endpoint_postfix := lit "raft_endpoint".
Definition db_postfix := lit "db".
Definition start_postfix := lit "start".
Definition end_postfix := lit "end".
Definition count_postfix := lit "count".
Definition private_key_postfix := lit "private_key".
Definition public_key_postfix := lit "public_key".
Definition watchtower_client_ep_postfix := lit "client_endpoint".
Definition watchtower_internal_ep_postfix := lit "internal_endpoint".
Definition readonly := lit "readonly".
Definition config_separator := lit "_".
Definition shard_prefix := lit "shard".
Definition atomizer_prefix := lit "atomizer".
Definition sentinel_prefix := lit "sentinel".
Definition archiver_prefix := lit "archiver".
Definition watchtower_prefix := lit "watchtower".
Definition coordinator_prefix := lit "coordinator".

Definition get_shard_key_prefix (id : Z) : list byte :=
  shard_prefix ++ to_string id ++ config_separator.
Definition get_archiver_key_prefix (id : Z) : list byte :=
  archiver_prefix ++ to_string id ++ config_separator.
Definition get_sentinel_key_prefix (id : Z) : list byte :=
  sentinel_prefix ++ to_string id ++ config_separator.
Definition get_watchtower_key_prefix (id : Z) : list byte :=
  watchtower_prefix ++ to_string id ++ config_separator.
Definition get_coordinator_key_prefix (id : Z) : list byte :=
  coordinator_prefix ++ to_string id ++ config_separator.

Definition get_shard_endpoint_key (id : Z) : list byte :=
  get_shard_key_prefix id ++ endpoint_postfix.
Definition get_atomizer_endpoint_key (id : Z) : list byte :=
  atomizer_prefix ++ to_string id ++ config_separator ++ endpoint_postfix.
Definition get_atomizer_raft_endpoint_key (id : Z) : list byte :=
  atomizer_prefix ++ to_string id ++ config_separator ++ raft_endpoint_postfix.
Definition get_atomizer_loglevel_key (id : Z) : list byte :=
  atomizer_prefix ++ to_string id ++ config_separator ++ loglevel_postfix.
Definition get_sentinel_endpoint_key (id : Z) : list byte :=
  sentinel_prefix ++ to_string id ++ config_separator ++ endpoint_postfix.
Definition get_shard_db_key (id : Z) : list byte :=
  get_shard_key_prefix id ++ db_postfix.
Definition get_shard_end_key (id : Z) : list byte :=
  get_shard_key_prefix id ++ end_postfix.
Definition get_shard_start_key (id : Z) : list byte :=
  get_shard_key_prefix id ++ start_postfix.
Definition get_archiver_endpoint_key (id : Z) : list byte :=
  get_archiver_key_prefix id ++ endpoint_postfix.
Definition get_archiver_loglevel_key (id : Z) : list byte :=
  get_archiver_key_prefix id ++ loglevel_postfix.
Definition get_archiver_db_key (id : Z) : list byte :=
  get_archiver_key_prefix id ++ db_postfix.
Definition get_shard_loglevel_key (id : Z) : list byte :=
  get_shard_key_prefix id ++ loglevel_postfix.
Definition get_sentinel_loglevel_key (id : Z) : list byte :=
  get_sentinel_key_prefix id ++ loglevel_postfix.
Definition get_watchtower_client_endpoint_key (id : Z) : list byte :=
  get_watchtower_key_prefix id ++ watchtower_client_ep_postfix.
Definition get_watchtower_internal_endpoint_key (id : Z) : list byte :=
  get_watchtower_key_prefix id ++ watchtower_internal_ep_postfix.
Definition get_watchtower_loglevel_key (id : Z) : list byte :=
  get_watchtower_key_prefix id ++ loglevel_postfix.
Definition get_shard_node_count_key (id : Z) : list byte :=
  get_shard_key_prefix id ++ count_postfix.
Definition get_shard_raft_endpoint_key (id node : Z) : list byte :=
  get_shard_key_prefix id ++ to_string node ++ config_separator ++
  raft_endpoint_postfix.
Definition get_shard_node_endpoint_key (id node : Z) : list byte :=
  get_shard_key_prefix id ++ to_string node ++ config_separator ++ endpoint_postfix.
Definition get_shard_readonly_endpoint_key (id node : Z) : list byte :=
  get_shard_key_prefix id ++ to_string node ++ config_separator ++ readonly ++
  config_separator ++ endpoint_postfix.
Definition get_coordinator_endpoint_key (id node : Z) : list byte :=
  get_coordinator_key_prefix id ++ to_string node ++ config_separator ++
  endpoint_postfix.
Definition get_coordinator_raft_endpoint_key (id node : Z) : list byte :=
  get_coordinator_key_prefix id ++ to_string node ++ config_separator ++
  raft_endpoint_postfix.
Definition get_coordinator_node_count_key (id : Z) : list byte :=
  get_coordinator_key_prefix id ++ count_postfix.
Definition get_coordinator_loglevel_key (id : Z) : list byte :=
  coordinator_prefix ++ to_string id ++ config_separator ++ loglevel_postfix.
Definition get_sentinel_private_key_key (id : Z) : list byte :=
  get_sentinel_key_prefix id ++ private_key_postfix.
Definition get_sentinel_public_key_key (id : Z) : list byte :=
  get_sentinel_key_prefix id ++ public_key_postfix.

(** ** Values *)

(** [network::endpoint_t]: host and port. *)
Definition endpoint_t : Type := list byte * Z.

(** [parse_ip_port]: what follows a second colon is ignored. *)
Definition parse_ip_port (in_str : list byte) : outcome endpoint_t :=
  match getline x3a in_str with
  | None => Fatal
  | Some (host, rest) =>
      match getline x3a rest with
      | None => Fatal
      | Some (port_str, _) =>
          let! port := stoull port_str in
          if (port <=? 65535)%Z then Ret (host, port) else Fatal
      end
  end.

Section Parser.
Context {D : Type} `{Decimal D}.

Inductive value_t :=
| VString (s : list byte)
| VUlong (z : Z)
| VDouble (d : D).

(** [parse_value]: the last character of an empty string is out of range;
    [substr] of a single quote is empty. *)
Definition parse_value (value : list byte) : outcome value_t :=
  match value with
  | [] => Fatal
  | first :: rest =>
      if bool_decide (first ≠ x22) && bool_decide (List.last value x00 ≠ x22) then
        if bool_decide (x2e ∈ value) then
          let! as_dbl := stod value in Ret (VDouble as_dbl)
        else
          let! as_int := stoull value in Ret (VUlong as_int)
      else Ret (VString (take (length value - 2) rest))
  end.

(** One line of the file; [emplace] keeps an earlier value. *)
Definition read_line (m : gmap (list byte) value_t) (line : list byte)
    : outcome (gmap (list byte) value_t) :=
  match getline x3d line with
  | None => Ret m
  | Some (key, rest) =>
      match getline x0a rest with
      | None => Ret m
      | Some (value, _) =>
          let! v := parse_value value in
          Ret (insert_new key v m)
      end
  end.

(** [parser::init]; every line takes at least one character. *)
Fixpoint read_lines (fuel : nat) (m : gmap (list byte) value_t) (stream : list byte)
    : outcome (gmap (list byte) value_t) :=
  match fuel, getline x0a stream with
  | _, None => Ret m
  | O, Some _ => Fatal
  | S fuel, Some (line, rest) => let! m := read_line m line in read_lines fuel m rest
  end.

Definition init (stream : list byte) : outcome (gmap (list byte) value_t) :=
  read_lines (length stream) ∅ stream.

(** The parser and the environment it consults. *)
Record parser := mk_parser {
  m_options : gmap (list byte) value_t;
  getenv : list byte → option (list byte)
}.

Definition find_or_env (p : parser) (key : list byte) : outcome (option value_t) :=
  match getenv p (toupper <$> key) with
  | Some env_v => let! v := parse_value env_v in Ret (Some v)
  | None => Ret (m_options p !! key)
  end.

Definition get_string (p : parser) (key : list byte) : outcome (option (list byte)) :=
  let! v := find_or_env p key in
  Ret (match v with Some (VString s) => Some s | _ => None end).

Definition get_ulong (p : parser) (key : list byte) : outcome (option Z) :=
  let! v := find_or_env p key in
  Ret (match v with Some (VUlong z) => Some z | _ => None end).

Definition get_decimal (p : parser) (key : list byte) : outcome (option D) :=
  let! v := find_or_env p key in
  Ret (match v with Some (VDouble d) => Some d | _ => None end).

Definition get_endpoint (p : parser) (key : list byte) : outcome (option endpoint_t) :=
  let! val_str := get_string p key in
  match val_str with
  | None => Ret None
  | Some s => let! ep := parse_ip_port s in Ret (Some ep)
  end.

Definition get_loglevel (p : parser) (key : list byte) : outcome (option log_level) :=
  let! val_str := get_string p key in
  Ret (match val_str with None => None | Some s => parse_loglevel s end).

(** ** Options

    The fields of [options], grouped by the function that reads them.  A
    function that fails discards the options, so that its effect is its
    result. *)

Record sentinel_options := mk_sentinel {
  m_attestation_threshold : Z;
  m_sentinel_endpoints : list endpoint_t;
  m_sentinel_loglevels : list log_level;
  m_sentinel_private_keys : gmap Z (list byte);
  m_sentinel_public_keys : gset (list byte)
}.

Record locking_shard_options := mk_locking_shard {
  m_locking_shard_endpoints : list (list endpoint_t);
  m_locking_shard_raft_endpoints : list (list endpoint_t);
  m_locking_shard_readonly_endpoints : list (list endpoint_t)
}.

Record shard_options := mk_shard {
  m_shard_endpoints : list endpoint_t;
  m_shard_db_dirs : list (list byte);
  m_shard_loglevels : list log_level;
  m_shard_ranges : list (Z * Z);
  m_shard_completed_txs_cache_size : Z;
  m_seed_from : Z;
  m_seed_to : Z;
  m_seed_privkey : option (list byte);
  m_seed_value : Z
}.

Record coordinator_options := mk_coordinator {
  m_coordinator_endpoints : list (list endpoint_t);
  m_coordinator_raft_endpoints : list (list endpoint_t);
  m_coordinator_loglevels : list log_level;
  m_coordinator_max_threads : Z
}.

Record atomizer_options := mk_atomizer {
  m_atomizer_endpoints : list endpoint_t;
  m_atomizer_loglevels : list log_level;
  m_atomizer_raft_endpoints : list (option endpoint_t);
  m_target_block_interval : Z;
  m_stxo_cache_depth : Z
}.

Record archiver_options := mk_archiver {
  m_archiver_endpoints : list endpoint_t;
  m_archiver_loglevels : list log_level;
  m_archiver_db_dirs : list (list byte)
}.

Record watchtower_options := mk_watchtower {
  m_watchtower_client_endpoints : list endpoint_t;
  m_watchtower_internal_endpoints : list endpoint_t;
  m_watchtower_loglevels : list log_level;
  m_watchtower_block_cache_size : Z;
  m_watchtower_error_cache_size : Z
}.

Record raft_options := mk_raft {
  m_election_timeout_upper : Z;
  m_election_timeout_lower : Z;
  m_heartbeat : Z;
  m_snapshot_distance : Z;
  m_raft_max_batch : Z;
  m_batch_size : Z;
  m_wait_for_followers : bool
}.

Record loadgen_options := mk_loadgen {
  m_input_count : Z;
  m_output_count : Z;
  m_invalid_rate : D;
  m_fixed_tx_rate : D;
  m_fixed_tx_mode : bool;
  m_window_size : Z;
  m_initial_mint_count : Z;
  m_initial_mint_value : Z;
  m_loadgen_count : Z
}.

Record options := mk_options {
  m_twophase_mode : bool;
  m_sentinels : sentinel_options;
  m_locking_shards : locking_shard_options;
  m_shards : shard_options;
  m_atomizers : atomizer_options;
  m_archivers : archiver_options;
  m_watchtowers : watchtower_options;
  m_coordinators : coordinator_options;
  m_raft : raft_options;
  m_loadgen : loadgen_options
}.

(** ** Reading the options

    [uninit] is what the array of [hash_from_hex] happens to hold. *)

Variable uninit : list byte.

Definition hash_from_hex (val : list byte) : result (list byte) :=
  let! h := Text.hash_from_hex uninit val in ok h.

(** The message of a setting that is missing. *)
Definition missing (what : list byte) (i : Z) (key : list byte) : list byte :=
  what ++ to_string i ++ lit " (" ++ key ++ lit ")".

Definition missing_node (what : list byte) (i j : Z) (key : list byte) : list byte :=
  what ++ to_string i ++ lit " node " ++ to_string j ++ lit " (" ++ key ++ lit ")".

Definition sentinel_body (cfg : parser) (i : Z) (o : sentinel_options)
    : result sentinel_options :=
  let? ep := required (get_endpoint cfg (get_sentinel_endpoint_key i))
    (missing (lit "No endpoint specified for sentinel ") i
       (get_sentinel_endpoint_key i)) in
  let? level := value_or (get_loglevel cfg (get_sentinel_loglevel_key i)) warn in
  let! private_key := get_string cfg (get_sentinel_private_key_key i) in
  let? private_keys :=
    match private_key with
    | Some k => let? key := hash_from_hex k in ok (<[i := key]> (m_sentinel_private_keys o))
    | None => ok (m_sentinel_private_keys o)
    end in
  let? public_key := required (get_string cfg (get_sentinel_public_key_key i))
    (missing (lit "No public key specified for sentinel ") i
       (get_sentinel_public_key_key i)) in
  let? key := hash_from_hex public_key in
  ok (mk_sentinel (m_attestation_threshold o) (m_sentinel_endpoints o ++ [ep])
        (m_sentinel_loglevels o ++ [level]) private_keys
        ({[key]} ∪ m_sentinel_public_keys o)).

Definition read_sentinel_options (cfg : parser) : result sentinel_options :=
  let? threshold := value_or (get_ulong cfg (lit "attestation_threshold")) 1%Z in
  let? count := value_or (get_ulong cfg (lit "sentinel_count")) 0%Z in
  for_each (Z.to_nat count) 0 (sentinel_body cfg) (mk_sentinel threshold [] [] ∅ ∅).

(** The vectors are resized first, which throws when there are too many. *)
Definition locking_shard_node (cfg : parser) (i j : Z)
    (o : list endpoint_t * list endpoint_t * list endpoint_t)
    : result (list endpoint_t * list endpoint_t * list endpoint_t) :=
  let '(eps, raft_eps, ro_eps) := o in
  let? raft_ep := required (get_endpoint cfg (get_shard_raft_endpoint_key i j))
    (missing_node (lit "No raft endpoint specified for shard ") i j
       (get_shard_raft_endpoint_key i j)) in
  let? ep := required (get_endpoint cfg (get_shard_node_endpoint_key i j))
    (lit "No endpoint specified for shard " ++ to_string i ++ lit " node " ++ to_string j) in
  let? ro_ep := required (get_endpoint cfg (get_shard_readonly_endpoint_key i j))
    (missing_node (lit "No read-only endpoint specified for shard ") i j
       (get_shard_readonly_endpoint_key i j)) in
  ok (eps ++ [ep], raft_eps ++ [raft_ep], ro_eps ++ [ro_ep]).

Definition locking_shard_body (cfg : parser) (i : Z) (o : locking_shard_options)
    : result locking_shard_options :=
  let? node_count := required (get_ulong cfg (get_shard_node_count_key i))
    (missing (lit "No node count specified for shard ") i (get_shard_node_count_key i)) in
  let? nodes :=
    for_each (Z.to_nat node_count) 0 (locking_shard_node cfg i) ([], [], []) in
  let '(eps, raft_eps, ro_eps) := nodes in
  ok (mk_locking_shard (m_locking_shard_endpoints o ++ [eps])
        (m_locking_shard_raft_endpoints o ++ [raft_eps])
        (m_locking_shard_readonly_endpoints o ++ [ro_eps])).

Definition read_shard_endpoints (twophase_mode : bool) (cfg : parser)
    : result locking_shard_options :=
  let? shard_count := value_or (get_ulong cfg (lit "shard_count")) 0%Z in
  if twophase_mode then
    let! _ := alloc 24 shard_count in
    for_each (Z.to_nat shard_count) 0 (locking_shard_body cfg) (mk_locking_shard [] [] [])
  else ok (mk_locking_shard [] [] []).

Definition shard_body (twophase_mode : bool) (cfg : parser) (i : Z) (o : shard_options)
    : result shard_options :=
  let? ep_db :=
    if twophase_mode then ok (m_shard_endpoints o, m_shard_db_dirs o)
    else
      let? ep := required (get_endpoint cfg (get_shard_endpoint_key i))
        (missing (lit "No endpoint specified for shard ") i (get_shard_endpoint_key i)) in
      let? db := required (get_string cfg (get_shard_db_key i))
        (missing (lit "No db directory specified for shard ") i (get_shard_db_key i)) in
      ok (m_shard_endpoints o ++ [ep], m_shard_db_dirs o ++ [db]) in
  let? level := value_or (get_loglevel cfg (get_shard_loglevel_key i)) warn in
  let? range_start := required (get_ulong cfg (get_shard_start_key i))
    (missing (lit "No range start specified for shard ") i (get_shard_start_key i)) in
  let? range_end := required (get_ulong cfg (get_shard_end_key i))
    (missing (lit "No range end specified for shard ") i (get_shard_end_key i)) in
  ok (mk_shard ep_db.1 ep_db.2 (m_shard_loglevels o ++ [level])
        (m_shard_ranges o ++ [(u8 range_start, u8 range_end)])
        (m_shard_completed_txs_cache_size o) (m_seed_from o) (m_seed_to o)
        (m_seed_privkey o) (m_seed_value o)).

(** The private key and the value are only read for a range that is not
    empty. *)
Definition read_seed (cfg : parser) (from to : Z) : result (option (list byte) * Z) :=
  if (from =? to)%Z then ok (None, 0%Z) else
  let? priv_str := required (get_string cfg (lit "seed_privkey"))
    (lit "Seed range defined but missing a private key") in
  if negb (Nat.eqb (length priv_str) 64)
  then err (lit "Invalid seed private key length") else
  let? key := hash_from_hex priv_str in
  let? val := value_or (get_ulong cfg (lit "seed_value")) 0%Z in
  ok (Some key, val).

Definition read_shard_options (twophase_mode : bool) (cfg : parser)
    : result shard_options :=
  let? shard_count := value_or (get_ulong cfg (lit "shard_count")) 0%Z in
  let? o := for_each (Z.to_nat shard_count) 0 (shard_body twophase_mode cfg)
    (mk_shard [] [] [] [] 10000000 0 0 None 0) in
  let? cache_size := value_or (get_ulong cfg (lit "shard_completed_txs_cache_size"))
    (m_shard_completed_txs_cache_size o) in
  let? from := value_or (get_ulong cfg (lit "seed_from")) 0%Z in
  let? to := value_or (get_ulong cfg (lit "seed_to")) 0%Z in
  let? key_value := read_seed cfg from to in
  ok (mk_shard (m_shard_endpoints o) (m_shard_db_dirs o) (m_shard_loglevels o)
        (m_shard_ranges o) cache_size from to key_value.1 key_value.2).

Definition coordinator_node (cfg : parser) (i j : Z)
    (o : list endpoint_t * list endpoint_t) : result (list endpoint_t * list endpoint_t) :=
  let '(eps, raft_eps) := o in
  let? raft_ep := required (get_endpoint cfg (get_coordinator_raft_endpoint_key i j))
    (missing_node (lit "No raft endpoint specified for coordinator ") i j
       (get_coordinator_raft_endpoint_key i j)) in
  let? ep := required (get_endpoint cfg (get_coordinator_endpoint_key i j))
    (missing_node (lit "No endpoint specified for coordinator ") i j
       (get_coordinator_endpoint_key i j)) in
  ok (eps ++ [ep], raft_eps ++ [raft_ep]).

Definition coordinator_body (cfg : parser) (i : Z) (o : coordinator_options)
    : result coordinator_options :=
  let? level := value_or (get_loglevel cfg (get_coordinator_loglevel_key i)) warn in
  let? node_count := required (get_ulong cfg (get_coordinator_node_count_key i))
    (missing (lit "No node count specified for coordinator ") i
       (get_coordinator_node_count_key i)) in
  let? nodes := for_each (Z.to_nat node_count) 0 (coordinator_node cfg i) ([], []) in
  ok (mk_coordinator (m_coordinator_endpoints o ++ [nodes.1])
        (m_coordinator_raft_endpoints o ++ [nodes.2])
        (m_coordinator_loglevels o ++ [level]) (m_coordinator_max_threads o)).

Definition read_coordinator_options (cfg : parser) : result coordinator_options :=
  let? count := value_or (get_ulong cfg (lit "coordinator_count")) 0%Z in
  let! _ := alloc 24 count in
  let? o := for_each (Z.to_nat count) 0 (coordinator_body cfg)
    (mk_coordinator [] [] [] 75) in
  let? max_threads := value_or (get_ulong cfg (lit "coordinator_max_threads"))
    (m_coordinator_max_threads o) in
  ok (mk_coordinator (m_coordinator_endpoints o) (m_coordinator_raft_endpoints o)
        (m_coordinator_loglevels o) max_threads).

(** The raft endpoint of an atomizer is optional. *)
Definition atomizer_body (cfg : parser) (i : Z) (o : atomizer_options)
    : result atomizer_options :=
  let? ep := required (get_endpoint cfg (get_atomizer_endpoint_key i))
    (missing (lit "No endpoint specified for atomizer ") i
       (get_atomizer_endpoint_key i)) in
  let? level := value_or (get_loglevel cfg (get_atomizer_loglevel_key i)) warn in
  let! raft_ep := get_endpoint cfg (get_atomizer_raft_endpoint_key i) in
  ok (mk_atomizer (m_atomizer_endpoints o ++ [ep]) (m_atomizer_loglevels o ++ [level])
        (m_atomizer_raft_endpoints o ++ [raft_ep]) (m_target_block_interval o)
        (m_stxo_cache_depth o)).

Definition read_atomizer_options (cfg : parser) : result atomizer_options :=
  let? count := value_or (get_ulong cfg (lit "atomizer_count")) 0%Z in
  let? o := for_each (Z.to_nat count) 0 (atomizer_body cfg)
    (mk_atomizer [] [] [] 250 1) in
  let? interval := value_or (get_ulong cfg (lit "target_block_interval"))
    (m_target_block_interval o) in
  let? depth := value_or (get_ulong cfg (lit "stxo_cache_depth"))
    (m_stxo_cache_depth o) in
  ok (mk_atomizer (m_atomizer_endpoints o) (m_atomizer_loglevels o)
        (m_atomizer_raft_endpoints o) interval depth).

Definition archiver_body (cfg : parser) (i : Z) (o : archiver_options)
    : result archiver_options :=
  let? ep := required (get_endpoint cfg (get_archiver_endpoint_key i))
    (missing (lit "No endpoint specified for archiver ") i
       (get_archiver_endpoint_key i)) in
  let? level := value_or (get_loglevel cfg (get_archiver_loglevel_key i)) warn in
  let? db := required (get_string cfg (get_archiver_db_key i))
    (missing (lit "No db directory specified for archiver ") i (get_archiver_db_key i)) in
  ok (mk_archiver (m_archiver_endpoints o ++ [ep]) (m_archiver_loglevels o ++ [level])
        (m_archiver_db_dirs o ++ [db])).

Definition read_archiver_options (cfg : parser) : result archiver_options :=
  let? count := value_or (get_ulong cfg (lit "archiver_count")) 0%Z in
  for_each (Z.to_nat count) 0 (archiver_body cfg) (mk_archiver [] [] []).

(** The second message repeats the index. *)
Definition watchtower_body (cfg : parser) (i : Z) (o : watchtower_options)
    : result watchtower_options :=
  let? client_ep := required (get_endpoint cfg (get_watchtower_client_endpoint_key i))
    (missing (lit "No client endpoint specified for watchtower ") i
       (get_watchtower_client_endpoint_key i)) in
  let? internal_ep := required (get_endpoint cfg (get_watchtower_internal_endpoint_key i))
    (missing (lit "No internal endpoint specified for watchtower " ++ to_string i) i
       (get_watchtower_internal_endpoint_key i)) in
  let? level := value_or (get_loglevel cfg (get_watchtower_loglevel_key i)) warn in
  ok (mk_watchtower (m_watchtower_client_endpoints o ++ [client_ep])
        (m_watchtower_internal_endpoints o ++ [internal_ep])
        (m_watchtower_loglevels o ++ [level]) (m_watchtower_block_cache_size o)
        (m_watchtower_error_cache_size o)).

Definition read_watchtower_options (cfg : parser) : result watchtower_options :=
  let? count := value_or (get_ulong cfg (lit "watchtower_count")) 0%Z in
  let? o := for_each (Z.to_nat count) 0 (watchtower_body cfg)
    (mk_watchtower [] [] [] 100 1000000) in
  let? block_cache_size := value_or (get_ulong cfg (lit "watchtower_block_cache_size"))
    (m_watchtower_block_cache_size o) in
  let? error_cache_size := value_or (get_ulong cfg (lit "watchtower_error_cache_size"))
    (m_watchtower_error_cache_size o) in
  ok (mk_watchtower (m_watchtower_client_endpoints o) (m_watchtower_internal_endpoints o)
        (m_watchtower_loglevels o) block_cache_size error_cache_size).

(** [static_cast<int32_t>] of a [size_t]. *)
Definition i32 (z : Z) : Z := ((z + 2 ^ 31) `mod` 2 ^ 32 - 2 ^ 31)%Z.

Definition get_int32 (cfg : parser) (key : list byte) (d : Z) : result Z :=
  let? v := value_or (get_ulong cfg key) d in ok (i32 v).

Definition read_raft_options (cfg : parser) : result raft_options :=
  let? upper := get_int32 cfg (lit "election_timeout_upper") 4000 in
  let? lower := get_int32 cfg (lit "election_timeout_lower") 2000 in
  let? heartbeat := get_int32 cfg (lit "heartbeat") 1000 in
  let? distance := get_int32 cfg (lit "snapshot_distance") 0 in
  let? max_batch := get_int32 cfg (lit "raft_max_batch") 100000 in
  let? batch_size := value_or (get_ulong cfg (lit "batch_size")) 2000%Z in
  let! wait := get_ulong cfg (lit "wait_for_followers") in
  ok (mk_raft upper lower heartbeat distance max_batch batch_size
        (match wait with Some w => negb (w =? 0)%Z | None => true end)).

Definition read_loadgen_options (cfg : parser) : result loadgen_options :=
  let? input_count := value_or (get_ulong cfg (lit "loadgen_sendtx_input_count")) 2%Z in
  let? output_count := value_or (get_ulong cfg (lit "loadgen_sendtx_output_count")) 2%Z in
  let? invalid_rate := value_or (get_decimal cfg (lit "loadgen_invalid_tx_rate")) dec_zero in
  let? fixed_rate := value_or (get_decimal cfg (lit "loadgen_fixed_tx_rate")) dec_one in
  let? window_size := value_or (get_ulong cfg (lit "window_size")) 10000%Z in
  let? mint_count := value_or (get_ulong cfg (lit "initial_mint_count")) 20000%Z in
  let? mint_value := value_or (get_ulong cfg (lit "initial_mint_value")) 100%Z in
  let? loadgen_count := value_or (get_ulong cfg (lit "loadgen_count")) 0%Z in
  ok (mk_loadgen input_count output_count invalid_rate fixed_rate
        (negb (input_count =? 0)%Z && negb (output_count =? 0)%Z) window_size mint_count
        mint_value loadgen_count).

Definition read_options (cfg : parser) : result options :=
  let? mode := value_or (get_ulong cfg (lit "2pc")) 0%Z in
  let twophase_mode := negb (mode =? 0)%Z in
  let? sentinels := read_sentinel_options cfg in
  let? locking_shards := read_shard_endpoints twophase_mode cfg in
  let? shards := read_shard_options twophase_mode cfg in
  let? atomizers := read_atomizer_options cfg in
  let? archivers := read_archiver_options cfg in
  let? watchtowers := read_watchtower_options cfg in
  let? coordinators := read_coordinator_options cfg in
  let? raft := read_raft_options cfg in
  let? loadgen := read_loadgen_options cfg in
  ok (mk_options twophase_mode sentinels locking_shards shards atomizers archivers
        watchtowers coordinators raft loadgen).

Definition empty {A} (l : list A) : bool := match l with [] => true | _ => false end.

Definition check_architecture (opts : options) : option (list byte) :=
  if m_twophase_mode opts then
    if empty (m_sentinel_endpoints (m_sentinels opts))
    then Some (lit "Two-phase mode requires at least one configured sentinel")
    else if empty (m_locking_shard_endpoints (m_locking_shards opts))
    then Some (lit "Two-phase mode requires at least one configured shard")
    else if empty (m_coordinator_endpoints (m_coordinators opts))
    then Some (lit "Two-phase mode required at least one configured coordinator")
    else None
  else
    if empty (m_watchtower_client_endpoints (m_watchtowers opts))
    then Some (lit "Atomizer mode requires at least one configured watchtower")
    else if empty (m_archiver_endpoints (m_archivers opts))
    then Some (lit "Atomizer mode requires at least one configured archiver")
    else if empty (m_shard_endpoints (m_shards opts)) &&
            negb (empty (m_sentinel_endpoints (m_sentinels opts)))
    then Some (lit "Sentinels require at least one configured shard")
    else if empty (m_atomizer_endpoints (m_atomizers opts))
    then Some (lit "Atomizer mode requires at least one configured atomizer")
    else None.

Definition check_seed (opts : options) : option (list byte) :=
  let s := m_shards opts in
  if (m_seed_from s =? m_seed_to s)%Z then None
  else if (m_seed_to s <? m_seed_from s)%Z
  then Some (lit "shard_seed_from > shard_seed_to")
  else if (m_seed_value s =? 0)%Z
  then Some (lit "Seed range defined but value is zero")
  else None.

Definition check_options (opts : options) : option (list byte) :=
  match check_architecture opts with
  | Some e => Some e
  | None =>
      match check_seed opts with
      | Some e => Some e
      | None =>
          if (Z.of_nat (size (m_sentinel_public_keys (m_sentinels opts))) <?
              m_attestation_threshold (m_sentinels opts))%Z
          then Some (lit
            "Not enough sentinel public keys to reach the attestation threshold")
          else None
      end
  end.

(** [load_options], from the text of the file. *)
Definition load_options (file : list byte) (env : list byte → option (list byte))
    : result options :=
  let! m := init file in
  let? opts := read_options (mk_parser m env) in
  match check_options opts with Some e => err e | None => ok opts end.

(** [loadgen_seed_range]; the load generators are numbered from zero. *)
Definition loadgen_seed_range (opts : options) (gen_id : Z) : outcome (Z * Z) :=
  let count := m_loadgen_count (m_loadgen opts) in
  if (gen_id <? count)%Z then
    let from := m_seed_from (m_shards opts) in
    let total := sub64 (m_seed_to (m_shards opts)) from in
    let seed_range_sz := (total `div` count)%Z in
    let our_range_start := add64 from (mul64 gen_id seed_range_sz) in
    let our_range_end := sub64 (add64 our_range_start seed_range_sz) 1 in
    Ret (our_range_start, our_range_end)
  else Fatal.

(** ** The parser reads what is written *)

(** A setting as the documentation describes it. *)
Inductive setting :=
| SNum (z : Z)
| SStr (s : list byte)
| SEndpoint (host : list byte) (port : Z)
| SLevel (l : log_level).

Definition level_text (l : log_level) : list byte :=
  match l with
  | trace => lit "TRACE" | debug => lit "DEBUG" | info => lit "INFO"
  | warn => lit "WARN" | error => lit "ERROR" | fatal => lit "FATAL"
  end.

Definition quoted (s : setting) : list byte :=
  match s with
  | SNum _ => []
  | SStr s => s
  | SEndpoint host port => host ++ x3a :: to_string port
  | SLevel l => level_text l
  end.

Definition print_setting (s : setting) : list byte :=
  match s with
  | SNum z => to_string z
  | s => x22 :: quoted s ++ [x22]
  end.

Definition value_of (s : setting) : value_t :=
  match s with SNum z => VUlong z | s => VString (quoted s) end.

(** A number fits in 64 bits, a string is on one line, a host has no colon. *)
Definition wf_setting (s : setting) : Prop :=
  match s with
  | SNum z => is_u64 z
  | SStr s => x0a ∉ s
  | SEndpoint host port => x3a ∉ host ∧ x0a ∉ host ∧ (0 ≤ port ≤ 65535)%Z
  | SLevel _ => True
  end.

Definition print_file (ss : list (list byte * setting)) : list byte :=
  ss ≫= λ '(k, s), (k ++ x3d :: print_setting s) ++ [x0a].

Definition wf_file (ss : list (list byte * setting)) : Prop :=
  Forall (λ '(k, s), x3d ∉ k ∧ x0a ∉ k ∧ wf_setting s) ss.

(** What the parser answers for a key that is set to [s]. *)
Definition reads (p : parser) (k : list byte) (s : setting) : Prop :=
  match s with
  | SNum z => get_ulong p k = Ret (Some z)
  | SStr s => get_string p k = Ret (Some s)
  | SEndpoint host port => get_endpoint p k = Ret (Some (host, port))
  | SLevel l => get_loglevel p k = Ret (Some l)
  end.

Lemma parse_quoted s : parse_value (x22 :: s ++ [x22]) = Ret (VString s).
Proof.
  unfold parse_value. cbv beta iota. rewrite bool_decide_false by auto. cbn [andb]. do 2 f_equal.
  rewrite length_cons, length_app. cbn [length].
  replace (S (length s + 1) - 2) with (length s) by lia. apply take_app_length.
Qed.

Lemma parse_number z : is_u64 z → parse_value (to_string z) = Ret (VUlong z).
Proof.
  intros Hz. pose proof (stoull_to_string z Hz) as Hn.
  pose proof (to_string_not_elem z x22 eq_refl) as Hq.
  pose proof (to_string_not_elem z x2e eq_refl) as Hd.
  destruct (to_string z) as [|c s] eqn:E.
  { by destruct (to_string_nonempty z); [apply Hz|]. }
  unfold parse_value. cbv beta iota.
  rewrite (bool_decide_true (c ≠ x22)), (bool_decide_true (List.last _ _ ≠ x22)).
  - cbn [andb]. by rewrite bool_decide_false, Hn.
  - intros Hl. apply Hq. rewrite <- Hl. apply last_elem.
  - set_solver.
Qed.

Lemma parse_print s : wf_setting s → parse_value (print_setting s) = Ret (value_of s).
Proof. destruct s; intros Hs; [by apply parse_number|apply parse_quoted..]. Qed.

Lemma newline_print s : wf_setting s → x0a ∉ print_setting s.
Proof.
  intros Hs. destruct s as [z|s|h q|l]; [by apply to_string_not_elem|..];
    cbn [print_setting]; apply not_elem_of_cons; (split; [done|]);
    apply not_elem_of_app; (split; [|compute_decide]); cbn [quoted wf_setting] in *.
  - done.
  - destruct Hs as (_ & Hh & _). apply not_elem_of_app. split; [done|].
    apply not_elem_of_cons. split; [done|]. by apply to_string_not_elem.
  - destruct l; compute_decide.
Qed.

Lemma parse_endpoint host port :
  x3a ∉ host → (0 ≤ port ≤ 65535)%Z →
  parse_ip_port (host ++ x3a :: to_string port) = Ret (host, port).
Proof.
  intros Hh Hp. unfold parse_ip_port. rewrite getline_app by done.
  rewrite getline_end by (apply to_string_not_elem, eq_refl || apply to_string_nonempty; lia).
  rewrite stoull_to_string by (unfold is_u64; lia). cbn [obind].
  by rewrite (proj2 (Z.leb_le _ _)) by lia.
Qed.

Lemma reads_value p k s :
  wf_setting s → find_or_env p k = Ret (Some (value_of s)) → reads p k s.
Proof.
  intros Hs Hf. destruct s as [z|s|h q|l]; cbn [reads];
    unfold get_endpoint, get_loglevel, get_ulong, get_string; rewrite Hf; try done;
    cbn [obind value_of quoted].
  - destruct Hs as (? & ? & ?). by rewrite parse_endpoint.
  - by destruct l.
Qed.

Definition emplace (m : gmap (list byte) value_t) (kv : list byte * value_t)
    : gmap (list byte) value_t :=
  insert_new kv.1 kv.2 m.

Lemma read_line_print m k s :
  x3d ∉ k → wf_setting s →
  read_line m (k ++ x3d :: print_setting s) = Ret (emplace m (k, value_of s)).
Proof.
  intros Hk Hs. unfold read_line. rewrite getline_app by done.
  pose proof (parse_print s Hs) as Hp.
  rewrite getline_end by (by apply newline_print || by intros E; rewrite E in Hp).
  by rewrite Hp.
Qed.

Lemma read_lines_print ss : ∀ fuel m,
  wf_file ss → length (print_file ss) ≤ fuel →
  read_lines fuel m (print_file ss) =
    Ret (foldl emplace m ((λ '(k, s), (k, value_of s)) <$> ss)).
Proof.
  induction ss as [|[k s] ss IH]; intros fuel m Hw Hf; [by destruct fuel|].
  apply Forall_cons in Hw as [(Hk & Hn & Hs) Hw].
  unfold print_file in *. rewrite bind_cons, <- app_assoc in *.
  destruct fuel as [|fuel]; [len|]. cbn [read_lines app].
  rewrite getline_app. 2:{ rewrite not_elem_of_app, not_elem_of_cons.
    pose proof (newline_print s Hs). naive_solver. }
  rewrite read_line_print by done. cbn [obind]. rewrite IH; [done|done|].
  rewrite !length_app in Hf. cbn [length] in Hf. lia.
Qed.

Lemma foldl_emplace ss m :
  foldl emplace m ((λ '(k, s), (k, value_of s)) <$> ss) =
  m ∪ (value_of <$> (list_to_map ss : gmap (list byte) setting)).
Proof.
  revert m. induction ss as [|[k s] ss IH]; intros m.
  { cbn. by rewrite fmap_empty, map_union_empty. }
  rewrite fmap_cons, list_to_map_cons, fmap_insert. cbn [foldl]. rewrite IH.
  apply map_eq. intros k'. rewrite !lookup_union. unfold emplace, insert_new. cbn.
  destruct (m !! k) eqn:Hm; destruct (decide (k' = k)) as [->|].
  all: rewrite ?lookup_insert_eq, ?lookup_insert_ne, ?Hm by done; try done.
  all: by destruct ((value_of <$> list_to_map ss : gmap _ value_t) !! k).
Qed.

(** A configuration file reads back.  The parser accepts every file of
    well-formed lines and answers every key with the value of the environment
    variable of the same name in upper case if there is one, and otherwise
    with the first value the file gives it, as a number, a string, an endpoint
    or a log level. *)
Theorem settings_read_back (ss : list (list byte * setting))
    (env : list byte → option setting) :
  wf_file ss → (∀ k s, env k = Some s → wf_setting s) →
  ∃ m, init (print_file ss) = Ret m ∧
    let p := mk_parser m (λ k, print_setting <$> env k) in
    ∀ k s,
      match env (toupper <$> k) with
      | Some s' => s' = s
      | None => (list_to_map ss : gmap (list byte) setting) !! k = Some s
      end → reads p k s.
Proof.
  intros Hw Henv. unfold init. rewrite read_lines_print by done.
  eexists. split; [done|]. cbn zeta. intros k s Hk. rewrite foldl_emplace, (left_id_L ∅ (∪)).
  destruct (env (toupper <$> k)) as [s'|] eqn:He.
  - subst s'. pose proof (Henv _ _ He). apply reads_value; [done|].
    unfold find_or_env. cbn [getenv]. rewrite He. cbn [fmap option_fmap option_map].
    by rewrite parse_print.
  - apply elem_of_list_to_map_2 in Hk as Hin. 
    apply reads_value; [by apply (proj1 (Forall_forall _ _) Hw (k, s))|].
    unfold find_or_env. cbn [getenv m_options]. rewrite He. cbn [fmap option_fmap option_map].
    by rewrite lookup_fmap, Hk.
Qed.

(** ** Options that were loaded are well formed *)

Abbreviation len_is l n := (Z.of_nat (length l) = n).

(** The number under a key, and zero without one. *)
Definition configured (cfg : parser) (key : list byte) (n : Z) : Prop :=
  ∃ c, get_ulong cfg key = Ret c ∧ n = default 0%Z c.

(** Element [i] of a list is the setting of node [i]. *)
Definition each_at {A} (get : Z → outcome (option A)) (l : list A) : Prop :=
  ∀ i x, l !! i = Some x → get (Z.of_nat i) = Ret (Some x).

Record sentinels_ok (cfg : parser) (n : Z) (o : sentinel_options) : Prop := {
  sentinel_eps : len_is (m_sentinel_endpoints o) n;
  sentinel_at : each_at (λ i, get_endpoint cfg (get_sentinel_endpoint_key i)) (m_sentinel_endpoints o);
  sentinel_levels : len_is (m_sentinel_loglevels o) n;
  sentinel_keys : (Z.of_nat (size (m_sentinel_public_keys o)) ≤ n)%Z;
  sentinel_priv : ∀ i k, m_sentinel_private_keys o !! i = Some k → (0 ≤ i < n)%Z
}.

(** The replicas of a node: their number and their endpoints. *)
Definition nodes_at (cfg : parser) (count_key : Z → list byte) (node_key : Z → Z → list byte)
    (l : list (list endpoint_t)) : Prop :=
  ∀ i eps, l !! i = Some eps →
    configured cfg (count_key (Z.of_nat i)) (Z.of_nat (length eps)) ∧
    each_at (λ j, get_endpoint cfg (node_key (Z.of_nat i) j)) eps.

Record locking_shards_ok (cfg : parser) (n : Z) (o : locking_shard_options) : Prop := {
  locking_eps : len_is (m_locking_shard_endpoints o) n;
  locking_at : nodes_at cfg get_shard_node_count_key get_shard_node_endpoint_key
    (m_locking_shard_endpoints o);
  locking_raft : len_is (m_locking_shard_raft_endpoints o) n;
  locking_raft_at : nodes_at cfg get_shard_node_count_key get_shard_raft_endpoint_key
    (m_locking_shard_raft_endpoints o);
  locking_ro : len_is (m_locking_shard_readonly_endpoints o) n;
  locking_ro_at : nodes_at cfg get_shard_node_count_key get_shard_readonly_endpoint_key
    (m_locking_shard_readonly_endpoints o)
}.

Record shards_ok (cfg : parser) (twophase : bool) (n : Z) (o : shard_options) : Prop := {
  shard_eps : len_is (m_shard_endpoints o) (if twophase then 0 else n)%Z;
  shard_at : each_at (λ i, get_endpoint cfg (get_shard_endpoint_key i)) (m_shard_endpoints o);
  shard_dbs : len_is (m_shard_db_dirs o) (if twophase then 0 else n)%Z;
  shard_db_at : each_at (λ i, get_string cfg (get_shard_db_key i)) (m_shard_db_dirs o);
  shard_levels : len_is (m_shard_loglevels o) n;
  shard_ranges : len_is (m_shard_ranges o) n;
  shard_ranges_at i r : m_shard_ranges o !! i = Some r →
    ∃ a b, get_ulong cfg (get_shard_start_key (Z.of_nat i)) = Ret (Some a) ∧
      get_ulong cfg (get_shard_end_key (Z.of_nat i)) = Ret (Some b) ∧ r = (u8 a, u8 b);
  shard_bytes : Forall (λ r, 0 ≤ r.1 < 256 ∧ 0 ≤ r.2 < 256)%Z (m_shard_ranges o)
}.

Record coordinators_ok (cfg : parser) (n : Z) (o : coordinator_options) : Prop := {
  coordinator_eps : len_is (m_coordinator_endpoints o) n;
  coordinator_at : nodes_at cfg get_coordinator_node_count_key get_coordinator_endpoint_key
    (m_coordinator_endpoints o);
  coordinator_levels : len_is (m_coordinator_loglevels o) n;
  coordinator_raft : len_is (m_coordinator_raft_endpoints o) n;
  coordinator_raft_at : nodes_at cfg get_coordinator_node_count_key
    get_coordinator_raft_endpoint_key (m_coordinator_raft_endpoints o)
}.

Record atomizers_ok (cfg : parser) (n : Z) (o : atomizer_options) : Prop := {
  atomizer_eps : len_is (m_atomizer_endpoints o) n;
  atomizer_at : each_at (λ i, get_endpoint cfg (get_atomizer_endpoint_key i)) (m_atomizer_endpoints o);
  atomizer_levels : len_is (m_atomizer_loglevels o) n;
  atomizer_raft : len_is (m_atomizer_raft_endpoints o) n
}.

Record archivers_ok (cfg : parser) (n : Z) (o : archiver_options) : Prop := {
  archiver_eps : len_is (m_archiver_endpoints o) n;
  archiver_at : each_at (λ i, get_endpoint cfg (get_archiver_endpoint_key i)) (m_archiver_endpoints o);
  archiver_levels : len_is (m_archiver_loglevels o) n;
  archiver_dbs : len_is (m_archiver_db_dirs o) n;
  archiver_db_at : each_at (λ i, get_string cfg (get_archiver_db_key i)) (m_archiver_db_dirs o)
}.

Record watchtowers_ok (cfg : parser) (n : Z) (o : watchtower_options) : Prop := {
  watchtower_client_eps : len_is (m_watchtower_client_endpoints o) n;
  watchtower_client_at : each_at (λ i, get_endpoint cfg (get_watchtower_client_endpoint_key i))
    (m_watchtower_client_endpoints o);
  watchtower_internal_eps : len_is (m_watchtower_internal_endpoints o) n;
  watchtower_internal_at : each_at (λ i, get_endpoint cfg (get_watchtower_internal_endpoint_key i))
    (m_watchtower_internal_endpoints o);
  watchtower_levels : len_is (m_watchtower_loglevels o) n
}.

Lemma each_at_nil {A} (get : Z → outcome (option A)) : each_at get [].
Proof. by intros i x ?. Qed.

Lemma each_at_snoc {A} (get : Z → outcome (option A)) l i x :
  each_at get l → len_is l i → get i = Ret (Some x) → each_at get (l ++ [x]).
Proof.
  intros Hl Hi Hx j y [Hj|[Hj Hy]]%lookup_app_Some; [by apply Hl|].
  apply list_lookup_singleton_Some in Hy as [Hj0 ->]. rewrite <- Hx, <- Hi. f_equal. lia.
Qed.

Lemma nodes_at_nil cfg count_key node_key : nodes_at cfg count_key node_key [].
Proof. by intros i x ?. Qed.

Lemma nodes_at_snoc cfg count_key node_key l i eps :
  nodes_at cfg count_key node_key l → len_is l i →
  configured cfg (count_key i) (Z.of_nat (length eps)) →
  each_at (λ j, get_endpoint cfg (node_key i j)) eps →
  nodes_at cfg count_key node_key (l ++ [eps]).
Proof.
  intros Hl Hi Hc He j y [Hj|[Hj Hy]]%lookup_app_Some; [by apply Hl|].
  apply list_lookup_singleton_Some in Hy as [Hj0 ->].
  replace (Z.of_nat j) with i by lia. done.
Qed.

(** *** Numbers are unsigned *)

Definition options_ok (m : gmap (list byte) value_t) : Prop :=
  map_Forall (λ _ v, match v with VUlong z => 0 ≤ z | _ => True end)%Z m.

Lemma parse_value_unsigned s v :
  parse_value s = Ret v → match v with VUlong z => (0 ≤ z)%Z | _ => True end.
Proof.
  unfold parse_value. destruct s as [|c s]; [done|].
  destruct (_ && _); [|by intros [= <-]].
  case_bool_decide; [destruct (stod _); [|done]; by intros [= <-]|].
  destruct (stoull (c :: s)) as [z|] eqn:E; [|done]. intros [= <-]. by apply stoull_nonneg in E.
Qed.

Lemma init_options_ok file m : init file = Ret m → options_ok m.
Proof.
  unfold init. generalize (length file). intros n.
  assert (options_ok ∅) as H0 by apply map_Forall_empty. revert H0.
  generalize (∅ : gmap (list byte) value_t). revert file.
  induction n as [|n IH]; intros file m0 H0; cbn [read_lines];
    destruct (getline x0a file) as [[line rest]|]; try (by intros [= <-]).
  destruct (read_line m0 line) as [m1|] eqn:E; [|done]. cbn [obind]. apply IH.
  unfold read_line in E. destruct (getline x3d line) as [[key r]|]; [|by simplify_eq].
  destruct (getline x0a r) as [[v r']|]; [|by simplify_eq].
  destruct (parse_value v) as [pv|] eqn:Ev; [|done]. cbn [obind] in E. injection E as <-.
  unfold insert_new. destruct (m0 !! key); [done|]. apply map_Forall_insert_2; [|done].
  by eapply parse_value_unsigned.
Qed.

Lemma get_ulong_unsigned cfg key c :
  options_ok (m_options cfg) → get_ulong cfg key = Ret c → (0 ≤ default 0 c)%Z.
Proof.
  intros Hm. unfold get_ulong, find_or_env. destruct (getenv cfg _) as [s|].
  - destruct (parse_value s) as [v|] eqn:E; [|done]. cbn. intros [= <-].
    apply parse_value_unsigned in E. by destruct v.
  - cbn. intros [= <-]. destruct (m_options cfg !! key) as [v|] eqn:E; [|done].
    apply Hm in E. by destruct v.
Qed.

Lemma configured_count cfg key c n :
  options_ok (m_options cfg) → get_ulong cfg key = Ret c →
  n = Z.of_nat (Z.to_nat (default 0%Z c)) → configured cfg key n.
Proof.
  intros Hm Hc ->. exists c. split; [done|]. rewrite Z2Nat.id; [done|].
  by eapply get_ulong_unsigned.
Qed.

Lemma size_insert_le `{Countable A} (x : A) (X : gset A) : size ({[x]} ∪ X) ≤ S (size X).
Proof.
  rewrite size_union_alt, size_singleton.
  assert (size (X ∖ {[x]}) ≤ size X) by (apply subseteq_size; set_solver). lia.
Qed.

Lemma sentinel_step cfg i o o' :
  (0 ≤ i)%Z → sentinels_ok cfg i o → sentinel_body cfg i o = Ret (inr o') →
  sentinels_ok cfg (i + 1) o'.
Proof.
  intros Hi [Ho1 Ho1' Ho2 Ho3 Ho4] Hb. unfold sentinel_body in Hb. run_inv. subst o'.
  split; cbn [m_sentinel_endpoints m_sentinel_loglevels m_sentinel_public_keys
    m_sentinel_private_keys]; [len|by eapply each_at_snoc|len| |].
  - match goal with |- context [{[?k]} ∪ ?S] => pose proof (size_insert_le k S) end. lia.
  - case_match; run_inv; subst; intros j k Hk; [apply lookup_insert_Some in Hk|];
      naive_solver lia.
Qed.

Lemma locking_shard_nodes cfg i n nodes :
  for_each n 0 (locking_shard_node cfg i) ([], [], []) = Ret (inr nodes) →
  let at_ l key := len_is l (Z.of_nat n) ∧ each_at (λ j, get_endpoint cfg (key i j)) l in
  at_ nodes.1.1 get_shard_node_endpoint_key ∧ at_ nodes.1.2 get_shard_raft_endpoint_key ∧
  at_ nodes.2 get_shard_readonly_endpoint_key.
Proof.
  intros Hr. apply (for_each_inv (λ k nodes,
    (len_is nodes.1.1 k ∧
       each_at (λ j, get_endpoint cfg (get_shard_node_endpoint_key i j)) nodes.1.1) ∧
    (len_is nodes.1.2 k ∧
       each_at (λ j, get_endpoint cfg (get_shard_raft_endpoint_key i j)) nodes.1.2) ∧
    (len_is nodes.2 k ∧
       each_at (λ j, get_endpoint cfg (get_shard_readonly_endpoint_key i j)) nodes.2))) in Hr;
    [done| |split_and!; try done; apply each_at_nil].
  intros j [[a b] c] [[a' b'] c'] _ ([Ha Ha'] & [Hb Hb'] & [Hc Hc']) Hn.
  unfold locking_shard_node in Hn. run_inv. simplify_eq/=.
  split_and!; first [by len|eapply each_at_snoc; [done| |done]; lia].
Qed.

Lemma locking_shard_step cfg i o o' :
  options_ok (m_options cfg) → locking_shards_ok cfg i o →
  locking_shard_body cfg i o = Ret (inr o') → locking_shards_ok cfg (i + 1) o'.
Proof.
  intros Hm [Ho1 Ho1' Ho2 Ho2' Ho3 Ho3'] Hb. unfold locking_shard_body in Hb. run_inv.
  destruct x0 as [[eps raft] ro]. run_inv. subst o'.
  match goal with H : for_each _ _ _ _ = _ |- _ =>
    apply locking_shard_nodes in H as ([Le He] & [Lr Hr] & [Lo Hro]) end.
  cbn [fst snd] in *.
  split; cbn [m_locking_shard_endpoints m_locking_shard_raft_endpoints
    m_locking_shard_readonly_endpoints]; first [by len|
    eapply nodes_at_snoc; [done|done|by eapply configured_count|done]].
Qed.

Lemma u8_range z : (0 ≤ u8 z < 256)%Z.
Proof. apply Z.mod_pos_bound. lia. Qed.

Lemma shard_step twophase cfg i o o' :
  shards_ok cfg twophase i o → shard_body twophase cfg i o = Ret (inr o') →
  shards_ok cfg twophase (i + 1) o'.
Proof.
  intros [Ho1 Ho1' Ho2 Ho2' Ho3 Ho4 Ho4' Ho5] Hb. unfold shard_body in Hb. run_inv. subst o'.
  split; cbn [m_shard_endpoints m_shard_db_dirs m_shard_loglevels m_shard_ranges].
  1-4: destruct twophase; run_inv; subst; cbn [fst snd];
    first [by len|done|eapply each_at_snoc; [done| |done]; lia].
  1,2: len.
  { intros j r [Hj|[Hj Hr]]%lookup_app_Some; [by apply Ho4'|].
    apply list_lookup_singleton_Some in Hr as [Hj0 <-].
    replace (Z.of_nat j) with i by lia. eauto. }
  apply Forall_app. split; [done|]. constructor; [|done]. split; apply u8_range.
Qed.

Lemma coordinator_nodes cfg i n nodes :
  for_each n 0 (coordinator_node cfg i) ([], []) = Ret (inr nodes) →
  let at_ l key := len_is l (Z.of_nat n) ∧ each_at (λ j, get_endpoint cfg (key i j)) l in
  at_ nodes.1 get_coordinator_endpoint_key ∧ at_ nodes.2 get_coordinator_raft_endpoint_key.
Proof.
  intros Hr. apply (for_each_inv (λ k nodes,
    (len_is nodes.1 k ∧
       each_at (λ j, get_endpoint cfg (get_coordinator_endpoint_key i j)) nodes.1) ∧
    (len_is nodes.2 k ∧
       each_at (λ j, get_endpoint cfg (get_coordinator_raft_endpoint_key i j)) nodes.2))) in Hr;
    [done| |split_and!; try done; apply each_at_nil].
  intros j [a b] [a' b'] _ ([Ha Ha'] & [Hb Hb']) Hn. unfold coordinator_node in Hn. run_inv.
  simplify_eq/=. split_and!; first [by len|eapply each_at_snoc; [done| |done]; lia].
Qed.

Lemma coordinator_step cfg i o o' :
  options_ok (m_options cfg) → coordinators_ok cfg i o →
  coordinator_body cfg i o = Ret (inr o') → coordinators_ok cfg (i + 1) o'.
Proof.
  intros Hm [Ho1 Ho1' Ho2 Ho3 Ho3'] Hb. unfold coordinator_body in Hb. run_inv. subst o'.
  match goal with H : for_each _ _ _ _ = _ |- _ =>
    apply coordinator_nodes in H as ([Le He] & [Lr Hr]) end.
  split; cbn [m_coordinator_endpoints m_coordinator_loglevels m_coordinator_raft_endpoints];
    first [by len|eapply nodes_at_snoc; [done|done|by eapply configured_count|done]].
Qed.

Lemma atomizer_step cfg i o o' :
  atomizers_ok cfg i o → atomizer_body cfg i o = Ret (inr o') → atomizers_ok cfg (i + 1) o'.
Proof.
  intros [Ho1 Ho1' Ho2 Ho3] Hb. unfold atomizer_body in Hb. run_inv. subst o'.
  split; cbn [m_atomizer_endpoints m_atomizer_loglevels m_atomizer_raft_endpoints];
    first [by len|eapply each_at_snoc; [done| |done]; lia].
Qed.

Lemma archiver_step cfg i o o' :
  archivers_ok cfg i o → archiver_body cfg i o = Ret (inr o') → archivers_ok cfg (i + 1) o'.
Proof.
  intros [Ho1 Ho1' Ho2 Ho3 Ho3'] Hb. unfold archiver_body in Hb. run_inv. subst o'.
  split; cbn [m_archiver_endpoints m_archiver_loglevels m_archiver_db_dirs];
    first [by len|eapply each_at_snoc; [done| |done]; lia].
Qed.

Lemma watchtower_step cfg i o o' :
  watchtowers_ok cfg i o → watchtower_body cfg i o = Ret (inr o') → watchtowers_ok cfg (i + 1) o'.
Proof.
  intros [Ho1 Ho1' Ho2 Ho2' Ho3] Hb. unfold watchtower_body in Hb. run_inv. subst o'.
  split; cbn [m_watchtower_client_endpoints m_watchtower_internal_endpoints
    m_watchtower_loglevels]; first [by len|eapply each_at_snoc; [done| |done]; lia].
Qed.

(** What [load_options] promises of the options it returns, for the settings
    the parser has read. *)
Record valid_options (cfg : parser) (o : options) : Prop := {
  valid_mode :
    ∃ mode, configured cfg (lit "2pc") mode ∧ m_twophase_mode o = negb (mode =? 0)%Z;
  valid_sentinels :
    ∃ n, configured cfg (lit "sentinel_count") n ∧ sentinels_ok cfg n (m_sentinels o) ∧
      (m_attestation_threshold (m_sentinels o) ≤ n)%Z ∧
      (m_attestation_threshold (m_sentinels o) ≤
         Z.of_nat (size (m_sentinel_public_keys (m_sentinels o))))%Z;
  valid_shards :
    ∃ n, configured cfg (lit "shard_count") n ∧
      shards_ok cfg (m_twophase_mode o) n (m_shards o) ∧
      locking_shards_ok cfg (if m_twophase_mode o then n else 0%Z) (m_locking_shards o) ∧
      (m_sentinel_endpoints (m_sentinels o) ≠ [] → (0 < n)%Z);
  valid_coordinators :
    ∃ n, configured cfg (lit "coordinator_count") n ∧ coordinators_ok cfg n (m_coordinators o) ∧
      (m_twophase_mode o = true → (0 < n)%Z);
  valid_atomizers :
    ∃ n, configured cfg (lit "atomizer_count") n ∧ atomizers_ok cfg n (m_atomizers o) ∧
      (m_twophase_mode o = false → (0 < n)%Z);
  valid_archivers :
    ∃ n, configured cfg (lit "archiver_count") n ∧ archivers_ok cfg n (m_archivers o) ∧
      (m_twophase_mode o = false → (0 < n)%Z);
  valid_watchtowers :
    ∃ n, configured cfg (lit "watchtower_count") n ∧ watchtowers_ok cfg n (m_watchtowers o) ∧
      (m_twophase_mode o = false → (0 < n)%Z);
  valid_seed :
    m_seed_from (m_shards o) = m_seed_to (m_shards o) ∨
    (m_seed_from (m_shards o) < m_seed_to (m_shards o))%Z ∧
    m_seed_value (m_shards o) ≠ 0%Z ∧
    ∃ k, m_seed_privkey (m_shards o) = Some k ∧ length k = hash_size
}.

Section Reading.
Variable cfg : parser.
Hypothesis Hm : options_ok (m_options cfg).

Lemma read_sentinels o :
  read_sentinel_options cfg = Ret (inr o) →
  ∃ n, configured cfg (lit "sentinel_count") n ∧ sentinels_ok cfg n o.
Proof.
  unfold read_sentinel_options, value_or. intros Hr. run_inv. subst. eexists.
  split; [by eapply configured_count|].
  eapply (for_each_inv (sentinels_ok cfg) _ _ 0); [| |done].
  - intros i st st' Hi. apply sentinel_step. lia.
  - split; cbn; [done|apply each_at_nil|done..|]. intros i k Hk. by rewrite lookup_empty in Hk.
Qed.

Lemma read_locking_shards twophase o :
  read_shard_endpoints twophase cfg = Ret (inr o) →
  ∃ c, get_ulong cfg (lit "shard_count") = Ret c ∧
    locking_shards_ok cfg (if twophase then Z.of_nat (Z.to_nat (default 0%Z c)) else 0%Z) o.
Proof.
  assert (locking_shards_ok cfg 0 (mk_locking_shard [] [] [])) as H0
    by (split; try done; apply nodes_at_nil).
  unfold read_shard_endpoints, value_or. intros Hr. run_inv. subst. eexists. split; [done|].
  destruct twophase; run_inv; subst; [|done].
  eapply (for_each_inv (locking_shards_ok cfg) _ _ 0); [| |done]; [|done].
  intros i st st' _. by apply locking_shard_step.
Qed.

(** The seed is only read after the loop, from the same parser. *)
Lemma read_shards twophase o :
  read_shard_options twophase cfg = Ret (inr o) →
  ∃ c kv, get_ulong cfg (lit "shard_count") = Ret c ∧
    shards_ok cfg twophase (Z.of_nat (Z.to_nat (default 0%Z c))) o ∧
    read_seed cfg (m_seed_from o) (m_seed_to o) = Ret (inr kv) ∧
    m_seed_privkey o = kv.1 ∧ m_seed_value o = kv.2.
Proof.
  unfold read_shard_options, value_or. intros Hr. run_inv. subst.
  do 2 eexists. split; [done|]. split; [|by cbn].
  match goal with H : for_each _ _ _ _ = _ |- _ => apply
    (for_each_inv (shards_ok cfg twophase)) in H as [] end.
  - by split.
  - intros i st st' _. apply shard_step.
  - destruct twophase; split; try done; apply each_at_nil.
Qed.

Lemma read_coordinators o :
  read_coordinator_options cfg = Ret (inr o) →
  ∃ n, configured cfg (lit "coordinator_count") n ∧ coordinators_ok cfg n o.
Proof.
  unfold read_coordinator_options, value_or. intros Hr. run_inv. subst. eexists.
  split; [by eapply configured_count|].
  match goal with H : for_each _ _ _ _ = _ |- _ => apply
    (for_each_inv (coordinators_ok cfg)) in H as [] end;
    [by split| |split; try done; apply nodes_at_nil].
  intros i st st' _. by apply coordinator_step.
Qed.

Lemma read_atomizers o :
  read_atomizer_options cfg = Ret (inr o) →
  ∃ n, configured cfg (lit "atomizer_count") n ∧ atomizers_ok cfg n o.
Proof.
  unfold read_atomizer_options, value_or. intros Hr. run_inv. subst. eexists.
  split; [by eapply configured_count|].
  match goal with H : for_each _ _ _ _ = _ |- _ => apply
    (for_each_inv (atomizers_ok cfg)) in H as [] end;
    [by split| |split; try done; apply each_at_nil].
  intros i st st' _. apply atomizer_step.
Qed.

Lemma read_archivers o :
  read_archiver_options cfg = Ret (inr o) →
  ∃ n, configured cfg (lit "archiver_count") n ∧ archivers_ok cfg n o.
Proof.
  unfold read_archiver_options, value_or. intros Hr. run_inv. subst. eexists.
  split; [by eapply configured_count|].
  eapply (for_each_inv (archivers_ok cfg) _ _ 0); [| |done];
    [|split; try done; apply each_at_nil].
  intros i st st' _. apply archiver_step.
Qed.

Lemma read_watchtowers o :
  read_watchtower_options cfg = Ret (inr o) →
  ∃ n, configured cfg (lit "watchtower_count") n ∧ watchtowers_ok cfg n o.
Proof.
  unfold read_watchtower_options, value_or. intros Hr. run_inv. subst. eexists.
  split; [by eapply configured_count|].
  match goal with H : for_each _ _ _ _ = _ |- _ => apply
    (for_each_inv (watchtowers_ok cfg)) in H as [] end;
    [by split| |split; try done; apply each_at_nil].
  intros i st st' _. apply watchtower_step.
Qed.

End Reading.

Lemma hash_from_hex_length val h :
  length uninit = hash_size → hash_from_hex val = Ret (inr h) → length h = hash_size.
Proof.
  intros Hu Hh. unfold hash_from_hex, Text.hash_from_hex in Hh. run_inv. subst.
  case_decide; simplify_eq. len.
Qed.

Lemma read_seed_key cfg from to kv :
  length uninit = hash_size → from ≠ to → read_seed cfg from to = Ret (inr kv) →
  ∃ k, kv.1 = Some k ∧ length k = hash_size.
Proof.
  intros Hu Hne Hr. unfold read_seed in Hr. rewrite (proj2 (Z.eqb_neq _ _)) in Hr by done.
  run_inv. case_match; run_inv. subst kv. eexists. split; [done|].
  by eapply hash_from_hex_length.
Qed.

Lemma empty_false {A} (l : list A) n : empty l = false → len_is l n → (0 < n)%Z.
Proof. destruct l; [done|]. cbn. lia. Qed.

Lemma check_threshold o :
  check_options o = None →
  (m_attestation_threshold (m_sentinels o) ≤
     Z.of_nat (size (m_sentinel_public_keys (m_sentinels o))))%Z.
Proof. unfold check_options. intros Hc. repeat case_match; try done. bools. lia. Qed.

Lemma check_options_seed o :
  check_options o = None →
  m_seed_from (m_shards o) = m_seed_to (m_shards o) ∨
  (m_seed_from (m_shards o) < m_seed_to (m_shards o))%Z ∧ m_seed_value (m_shards o) ≠ 0%Z.
Proof.
  unfold check_options. intros Hc. destruct (check_architecture o); [done|].
  unfold check_seed in Hc. repeat case_match; simplify_eq; bools; lia.
Qed.

Lemma check_options_architecture o :
  check_options o = None →
  if m_twophase_mode o then
    empty (m_sentinel_endpoints (m_sentinels o)) = false ∧
    empty (m_locking_shard_endpoints (m_locking_shards o)) = false ∧
    empty (m_coordinator_endpoints (m_coordinators o)) = false
  else
    empty (m_watchtower_client_endpoints (m_watchtowers o)) = false ∧
    empty (m_archiver_endpoints (m_archivers o)) = false ∧
    empty (m_atomizer_endpoints (m_atomizers o)) = false ∧
    (m_sentinel_endpoints (m_sentinels o) ≠ [] →
       empty (m_shard_endpoints (m_shards o)) = false).
Proof.
  unfold check_options. case_match eqn:Hc; [done|intros _].
  unfold check_architecture in Hc. destruct (m_twophase_mode o);
    repeat match type of Hc with (if ?b then _ else _) = _ => destruct b eqn:?; [done|] end.
  - done.
  - split_and!; try done. intros Hne. destruct (m_sentinel_endpoints _); [done|].
    by rewrite andb_true_r in *.
Qed.


(** ** The ranges of the load generators *)

(** Without overflow, generator [g] gets the [g]-th of equal parts of the
    range, without its last element. *)
Lemma seed_range_exact o g :
  let from := m_seed_from (m_shards o) in
  let to := m_seed_to (m_shards o) in
  let count := m_loadgen_count (m_loadgen o) in
  let sz := ((to - from) `div` count)%Z in
  (0 ≤ from ≤ to)%Z → (to < 2 ^ 64)%Z → (0 ≤ g < count)%Z → (0 < sz)%Z →
  loadgen_seed_range o g = Ret (from + g * sz, from + (g + 1) * sz - 1)%Z ∧
  (from + (g + 1) * sz ≤ to)%Z.
Proof.
  cbn zeta. intros Hf Ht Hg Hsz. unfold loadgen_seed_range.
  rewrite (proj2 (Z.ltb_lt _ _)), (sub64_exact (m_seed_to _)) by (unfold is_u64; lia).
  set (from := m_seed_from (m_shards o)) in *. set (to := m_seed_to (m_shards o)) in *.
  set (count := m_loadgen_count (m_loadgen o)) in *.
  set (sz := ((to - from) `div` count)%Z) in *.
  assert (count * sz ≤ to - from)%Z by (apply Z.mul_div_le; lia).
  assert ((g + 1) * sz ≤ count * sz)%Z by (apply Z.mul_le_mono_nonneg_r; lia).
  assert (0 ≤ g * sz)%Z by (apply Z.mul_nonneg_nonneg; lia).
  split; [|lia]. unfold mul64. rewrite u64_small by (unfold is_u64; lia).
  rewrite (add64_exact from), add64_exact, sub64_exact by (unfold is_u64; lia).
  do 2 f_equal. lia.
Qed.

End Parser.

(** ** No two settings share a name *)

(** The settings of a node, with the index of the node and of the replica. *)
Inductive node_setting :=
| ShardEndpoint (i : Z) | ShardDb (i : Z) | ShardStart (i : Z) | ShardEnd (i : Z)
| ShardLoglevel (i : Z) | ShardNodeCount (i : Z) | ShardRaftEndpoint (i j : Z)
| ShardNodeEndpoint (i j : Z) | ShardReadonlyEndpoint (i j : Z)
| AtomizerEndpoint (i : Z) | AtomizerRaftEndpoint (i : Z) | AtomizerLoglevel (i : Z)
| SentinelEndpoint (i : Z) | SentinelLoglevel (i : Z) | SentinelPrivateKey (i : Z)
| SentinelPublicKey (i : Z)
| ArchiverEndpoint (i : Z) | ArchiverLoglevel (i : Z) | ArchiverDb (i : Z)
| WatchtowerClientEndpoint (i : Z) | WatchtowerInternalEndpoint (i : Z)
| WatchtowerLoglevel (i : Z)
| CoordinatorEndpoint (i j : Z) | CoordinatorRaftEndpoint (i j : Z)
| CoordinatorNodeCount (i : Z) | CoordinatorLoglevel (i : Z).

Definition key_of (s : node_setting) : list byte :=
  match s with
  | ShardEndpoint i => get_shard_endpoint_key i
  | ShardDb i => get_shard_db_key i
  | ShardStart i => get_shard_start_key i
  | ShardEnd i => get_shard_end_key i
  | ShardLoglevel i => get_shard_loglevel_key i
  | ShardNodeCount i => get_shard_node_count_key i
  | ShardRaftEndpoint i j => get_shard_raft_endpoint_key i j
  | ShardNodeEndpoint i j => get_shard_node_endpoint_key i j
  | ShardReadonlyEndpoint i j => get_shard_readonly_endpoint_key i j
  | AtomizerEndpoint i => get_atomizer_endpoint_key i
  | AtomizerRaftEndpoint i => get_atomizer_raft_endpoint_key i
  | AtomizerLoglevel i => get_atomizer_loglevel_key i
  | SentinelEndpoint i => get_sentinel_endpoint_key i
  | SentinelLoglevel i => get_sentinel_loglevel_key i
  | SentinelPrivateKey i => get_sentinel_private_key_key i
  | SentinelPublicKey i => get_sentinel_public_key_key i
  | ArchiverEndpoint i => get_archiver_endpoint_key i
  | ArchiverLoglevel i => get_archiver_loglevel_key i
  | ArchiverDb i => get_archiver_db_key i
  | WatchtowerClientEndpoint i => get_watchtower_client_endpoint_key i
  | WatchtowerInternalEndpoint i => get_watchtower_internal_endpoint_key i
  | WatchtowerLoglevel i => get_watchtower_loglevel_key i
  | CoordinatorEndpoint i j => get_coordinator_endpoint_key i j
  | CoordinatorRaftEndpoint i j => get_coordinator_raft_endpoint_key i j
  | CoordinatorNodeCount i => get_coordinator_node_count_key i
  | CoordinatorLoglevel i => get_coordinator_loglevel_key i
  end.

Inductive node_kind := KShard | KAtomizer | KSentinel | KArchiver | KWatchtower | KCoordinator.

Inductive field :=
| FEndpoint | FRaftEndpoint | FReadonlyEndpoint | FLoglevel | FDb | FStart | FEnd | FCount
| FPrivateKey | FPublicKey | FClientEndpoint | FInternalEndpoint.

Definition kind_text (k : node_kind) : list byte :=
  match k with
  | KShard => shard_prefix | KAtomizer => atomizer_prefix | KSentinel => sentinel_prefix
  | KArchiver => archiver_prefix | KWatchtower => watchtower_prefix
  | KCoordinator => coordinator_prefix
  end.

Definition field_text (f : field) : list byte :=
  match f with
  | FEndpoint => endpoint_postfix | FRaftEndpoint => raft_endpoint_postfix
  | FReadonlyEndpoint => readonly ++ config_separator ++ endpoint_postfix
  | FLoglevel => loglevel_postfix | FDb => db_postfix | FStart => start_postfix
  | FEnd => end_postfix | FCount => count_postfix | FPrivateKey => private_key_postfix
  | FPublicKey => public_key_postfix | FClientEndpoint => watchtower_client_ep_postfix
  | FInternalEndpoint => watchtower_internal_ep_postfix
  end.

(** A name is a kind, an index, possibly a second index, and a field. *)
Definition parts (s : node_setting) : node_kind * Z * option Z * field :=
  match s with
  | ShardEndpoint i => (KShard, i, None, FEndpoint)
  | ShardDb i => (KShard, i, None, FDb)
  | ShardStart i => (KShard, i, None, FStart)
  | ShardEnd i => (KShard, i, None, FEnd)
  | ShardLoglevel i => (KShard, i, None, FLoglevel)
  | ShardNodeCount i => (KShard, i, None, FCount)
  | ShardRaftEndpoint i j => (KShard, i, Some j, FRaftEndpoint)
  | ShardNodeEndpoint i j => (KShard, i, Some j, FEndpoint)
  | ShardReadonlyEndpoint i j => (KShard, i, Some j, FReadonlyEndpoint)
  | AtomizerEndpoint i => (KAtomizer, i, None, FEndpoint)
  | AtomizerRaftEndpoint i => (KAtomizer, i, None, FRaftEndpoint)
  | AtomizerLoglevel i => (KAtomizer, i, None, FLoglevel)
  | SentinelEndpoint i => (KSentinel, i, None, FEndpoint)
  | SentinelLoglevel i => (KSentinel, i, None, FLoglevel)
  | SentinelPrivateKey i => (KSentinel, i, None, FPrivateKey)
  | SentinelPublicKey i => (KSentinel, i, None, FPublicKey)
  | ArchiverEndpoint i => (KArchiver, i, None, FEndpoint)
  | ArchiverLoglevel i => (KArchiver, i, None, FLoglevel)
  | ArchiverDb i => (KArchiver, i, None, FDb)
  | WatchtowerClientEndpoint i => (KWatchtower, i, None, FClientEndpoint)
  | WatchtowerInternalEndpoint i => (KWatchtower, i, None, FInternalEndpoint)
  | WatchtowerLoglevel i => (KWatchtower, i, None, FLoglevel)
  | CoordinatorEndpoint i j => (KCoordinator, i, Some j, FEndpoint)
  | CoordinatorRaftEndpoint i j => (KCoordinator, i, Some j, FRaftEndpoint)
  | CoordinatorNodeCount i => (KCoordinator, i, None, FCount)
  | CoordinatorLoglevel i => (KCoordinator, i, None, FLoglevel)
  end.

Definition tail_text (j : option Z) (f : field) : list byte :=
  match j with
  | None => field_text f
  | Some j => to_string j ++ config_separator ++ field_text f
  end.

Lemma key_of_parts s :
  let '(k, i, j, f) := parts s in
  key_of s = kind_text k ++ to_string i ++ config_separator ++ tail_text j f.
Proof.
  destruct s; cbn [parts key_of tail_text field_text kind_text];
    unfold get_shard_endpoint_key, get_shard_db_key, get_shard_start_key, get_shard_end_key,
      get_shard_loglevel_key, get_shard_node_count_key, get_shard_raft_endpoint_key,
      get_shard_node_endpoint_key, get_shard_readonly_endpoint_key,
      get_atomizer_endpoint_key, get_atomizer_raft_endpoint_key, get_atomizer_loglevel_key,
      get_sentinel_endpoint_key, get_sentinel_loglevel_key, get_sentinel_private_key_key,
      get_sentinel_public_key_key, get_archiver_endpoint_key, get_archiver_loglevel_key,
      get_archiver_db_key, get_watchtower_client_endpoint_key,
      get_watchtower_internal_endpoint_key, get_watchtower_loglevel_key,
      get_coordinator_endpoint_key, get_coordinator_raft_endpoint_key,
      get_coordinator_node_count_key, get_coordinator_loglevel_key,
      get_shard_key_prefix, get_sentinel_key_prefix, get_archiver_key_prefix,
      get_watchtower_key_prefix, get_coordinator_key_prefix;
    by rewrite <- ?app_assoc.
Qed.

Definition indices_ok (s : node_setting) : Prop :=
  let '(_, i, j, _) := parts s in is_u64 i ∧ from_option is_u64 True j.

Lemma parts_inj s1 s2 : parts s1 = parts s2 → s1 = s2.
Proof. destruct s1, s2; cbn [parts]; intros E; inversion E; subst; reflexivity. Qed.

Lemma number_inj i1 i2 r1 r2 :
  is_u64 i1 → is_u64 i2 →
  to_string i1 ++ config_separator ++ r1 = to_string i2 ++ config_separator ++ r2 →
  i1 = i2 ∧ r1 = r2.
Proof.
  intros H1 H2 E. change (config_separator) with [x5f] in E. cbn [app] in E.
  apply (split_class_inj (λ c, negb (isdigit c))) in E as [E1 E2]; [| | |done..].
  - split; [by apply to_string_inj|congruence].
  - eapply Forall_impl; [apply to_string_digits|]. cbn. by intros c ->.
  - eapply Forall_impl; [apply to_string_digits|]. cbn. by intros c ->.
Qed.

(** A word without digits ends where the number after it starts. *)
Lemma word_inj w1 w2 i1 i2 r1 r2 :
  Forall (λ c, isdigit c = false) w1 → Forall (λ c, isdigit c = false) w2 →
  is_u64 i1 → is_u64 i2 →
  w1 ++ to_string i1 ++ r1 = w2 ++ to_string i2 ++ r2 →
  w1 = w2 ∧ to_string i1 ++ r1 = to_string i2 ++ r2.
Proof.
  intros Hw1 Hw2 H1 H2 E.
  pose proof (to_string_nonempty i1 (proj1 H1)). pose proof (to_string_nonempty i2 (proj1 H2)).
  pose proof (to_string_digits i1) as D1. pose proof (to_string_digits i2) as D2.
  destruct (to_string i1) as [|c1 s1]; [done|]. destruct (to_string i2) as [|c2 s2]; [done|].
  apply Forall_cons in D1 as [D1 _], D2 as [D2 _].
  by apply (split_class_inj isdigit) in E.
Qed.

Lemma kind_text_word k : Forall (λ c, isdigit c = false) (kind_text k).
Proof. destruct k; repeat constructor. Qed.

Lemma kind_text_inj k1 k2 : kind_text k1 = kind_text k2 → k1 = k2.
Proof. destruct k1, k2; intros E; first [reflexivity|discriminate E]. Qed.

Lemma field_text_inj f1 f2 : field_text f1 = field_text f2 → f1 = f2.
Proof. destruct f1, f2; intros E; first [reflexivity|discriminate E]. Qed.

(** A field does not start with a digit. *)
Lemma field_not_number f j r : is_u64 j → field_text f ≠ to_string j ++ r.
Proof.
  intros Hj E. pose proof (to_string_nonempty j (proj1 Hj)).
  pose proof (to_string_digits j) as Hd. destruct (to_string j) as [|c s]; [done|].
  apply Forall_cons in Hd as [Hd _]. destruct f; injection E as <- _; discriminate Hd.
Qed.

Lemma tail_inj j1 j2 f1 f2 :
  from_option is_u64 True j1 → from_option is_u64 True j2 →
  tail_text j1 f1 = tail_text j2 f2 → j1 = j2 ∧ f1 = f2.
Proof.
  intros H1 H2 E. destruct j1 as [j1|], j2 as [j2|]; cbn [tail_text from_option] in *.
  - apply number_inj in E as [-> ->%field_text_inj]; done.
  - by destruct (field_not_number f2 j1 _ H1 (eq_sym E)).
  - by destruct (field_not_number f1 j2 _ H2 E).
  - by apply field_text_inj in E as ->.
Qed.

(** Settings do not collide.  The names under which two different
    settings of nodes are looked up are different, for every kind of node,
    node index, replica index and field. *)
Theorem setting_names_distinct (s1 s2 : node_setting) :
  indices_ok s1 → indices_ok s2 → key_of s1 = key_of s2 → s1 = s2.
Proof.
  intros H1 H2 E. apply parts_inj. pose proof (key_of_parts s1) as P1.
  pose proof (key_of_parts s2) as P2. unfold indices_ok in *.
  destruct (parts s1) as [[[k1 i1] j1] f1]. destruct (parts s2) as [[[k2 i2] j2] f2].
  destruct H1 as [Hi1 Hj1], H2 as [Hi2 Hj2]. rewrite P1, P2 in E.
  apply word_inj in E as [->%kind_text_inj E]; [|apply kind_text_word..|done|done].
  apply number_inj in E as [-> [-> ->]%tail_inj]; done.
Qed.

Lemma setting_names_distinct_witness :
  key_of (ShardEndpoint 1) ≠ key_of (ShardNodeEndpoint 1 0) ∧
  key_of (ShardEndpoint 1) = lit "shard1_endpoint".
Proof.
  split; [|reflexivity]. intros E.
  enough (ShardEndpoint 1 = ShardNodeEndpoint 1 0) by discriminate.
  apply setting_names_distinct; [cbn; unfold is_u64; lia..|exact E].
Defined.

(** ** Examples *)

Module toy.

(** Decimal numbers kept as text. *)
#[export] Instance text_decimal : Decimal (list byte) := {|
  stod s := Ret s; dec_zero := lit "0.0"; dec_one := lit "1.0"
|}.

End toy.

Import toy.

Definition no_env (k : list byte) : option (list byte) := None.

Definition ep (port : Z) : setting := SEndpoint (lit "localhost") port.

(** A two-phase configuration with one node of each kind. *)
Definition example_settings : list (list byte * setting) :=
  [(lit "2pc", SNum 1); (lit "sentinel_count", SNum 1);
   (lit "sentinel0_endpoint", ep 5555); (lit "sentinel0_loglevel", SLevel info);
   (lit "sentinel0_public_key", SStr (to_hex (replicate 32 x07)));
   (lit "shard_count", SNum 1); (lit "shard0_count", SNum 1);
   (lit "shard0_start", SNum 0); (lit "shard0_end", SNum 255);
   (lit "shard0_0_raft_endpoint", ep 5001); (lit "shard0_0_endpoint", ep 5002);
   (lit "shard0_0_readonly_endpoint", ep 5003);
   (lit "coordinator_count", SNum 1); (lit "coordinator0_count", SNum 1);
   (lit "coordinator0_0_raft_endpoint", ep 6001); (lit "coordinator0_0_endpoint", ep 6002);
   (lit "seed_to", SNum 100); (lit "seed_value", SNum 20);
   (lit "seed_privkey", SStr (to_hex (replicate 32 x09)));
   (lit "loadgen_count", SNum 3)].

Lemma settings_read_back_witness :
  ∃ m, init (D := list byte) (print_file example_settings) = Ret m ∧
    reads (mk_parser m (λ k, print_setting <$>
       (if decide (k = lit "LOADGEN_COUNT") then Some (SNum 9) else None)))
      (lit "loadgen_count") (SNum 9) ∧
    reads (mk_parser m (λ k, print_setting <$>
       (if decide (k = lit "LOADGEN_COUNT") then Some (SNum 9) else None)))
      (lit "shard0_0_endpoint") (ep 5002).
Proof.
  destruct (settings_read_back (D := list byte) example_settings
    (λ k, if decide (k = lit "LOADGEN_COUNT") then Some (SNum 9) else None))
    as (m & Hm & Hr).
  - unfold wf_file, example_settings. repeat constructor; try done.
    all: first [compute_decide|cbn; unfold is_u64; lia|idtac].
  - intros k s. case_decide; [|done]. intros [= <-]. cbn. unfold is_u64. lia.
  - exists m. split; [exact Hm|]. split; apply Hr; reflexivity.
Defined.


(** The documentation of [m_fixed_tx_mode] says that it is set if one of the
    two counts is greater than zero; the code asks for both. *)
Theorem fixed_mode_needs_both_counts :
  ∃ m o, init (D := list byte)
      (print_file [(lit "loadgen_sendtx_input_count", SNum 0);
                   (lit "loadgen_sendtx_output_count", SNum 2)]) = Ret m ∧
    read_loadgen_options (mk_parser m no_env) = Ret (inr o) ∧
    m_output_count o = 2%Z ∧ m_fixed_tx_mode o = false.
Proof. do 2 eexists. repeat split; vm_compute; reflexivity. Qed.

(** A range end of 256 is accepted and becomes 0, so that the shard holds one
    prefix instead of all of them. *)
Theorem shard_range_end_wraps :
  ∃ m o, init (D := list byte)
      (print_file [(lit "2pc", SNum 1); (lit "shard_count", SNum 1);
                   (lit "shard0_start", SNum 0); (lit "shard0_end", SNum 256)]) = Ret m ∧
    read_shard_options (zeros 32) true (mk_parser m no_env) = Ret (inr o) ∧
    m_shard_ranges o = [(0, 0)]%Z.
Proof. do 2 eexists. repeat split; vm_compute; reflexivity. Qed.

End config.
