(* ===== verification/Seeding.v ===== *)
(** * Pre-seeding

    Models of [tools/shard-seeder/shard-seeder.cpp], which writes the initial
    outputs of a benchmark into one file or database per shard, of
    [locking_shard::read_preseed_file], which loads them, and of the wallets
    of the load generators ([tools/bench/twophase_gen.cpp]), which spend them.
    The theorems put the configuration, the seeder, the shards and the wallets
    together. *)

From Stdlib Require Import ZArith Lia.
From Stdlib.Strings Require Import Byte String.
From stdpp Require Import base tactics numbers gmap sets list.
From S2P Require Import Prelude Text LevelDB Serialization Crypto Transaction Validation.
From S2P Require Import Wallet CacheSet UhsSpec LockingShard DistributedTx Messages Config.
Open Scope cbdc_scope.

Import config.

(** ** The seeder *)

Module shard_seeder.

(** The range of a shard: the 256 prefixes divided by the number of shards,
    the last shard up to 255.  Division by zero traps. *)
Definition shard_bounds (num_shards shard_idx : Z) : outcome (Z * Z) :=
  if (num_shards =? 0)%Z then Fatal else
  let shard_range := (256 `div` num_shards)%Z in
  let shard_start := mul64 shard_idx shard_range in
  let shard_end :=
    if (shard_idx =? num_shards - 1)%Z then 255%Z
    else sub64 (mul64 (add64 shard_idx 1) shard_range) 1 in
  Ret (shard_start, shard_end).

Section Seeder.
Context `{Hasher} `{Secp256k1} {D : Type}.

Definition set_index (tx : full_tx.t) (idx : Z) : outcome full_tx.t :=
  match full_tx.m_inputs tx with
  | i :: tl =>
      Ret (full_tx.mk
        (input.mk (out_point.mk (out_point.m_tx_id (input.m_prevout i)) idx)
           (input.m_prevout_data i) :: tl)
        (full_tx.m_outputs tx) (full_tx.m_witness tx))
  | [] => Fatal
  end.

(** The id of the first output of the transaction with index [idx]. *)
Definition seeded_output (tx : full_tx.t) (idx : Z) : outcome hash_t :=
  let! tx := set_index tx idx in
  match compact_tx.m_uhs_outputs (compact tx) with
  | h :: _ => Ret h
  | [] => Fatal
  end.

(** The loop over the outputs, keeping those in the range of the shard. *)
Fixpoint shard_outputs (tx : full_tx.t) (range : Z * Z) (n : nat) (tx_idx : Z)
    : outcome (list hash_t) :=
  match n with
  | O => Ret []
  | S n =>
      let! h := seeded_output tx tx_idx in
      let! hs := shard_outputs tx range n (tx_idx + 1) in
      Ret (if hash_in_shard_range range h then h :: hs else hs)
  end.

(** The wallet of the seeder; the value is narrowed to 32 bits. *)
Definition seed_wallet (witness_commitment : hash_t) (utxo_val num_utxos : Z) : wallet.t :=
  wallet.seed_readonly wallet.init witness_commitment (u32 utxo_val) 0 num_utxos.

(** A file of the two-phase architecture: a dummy count, the ids, then the
    count written over the dummy. *)
Definition preseed_file (hs : list hash_t) : list byte :=
  let ser := ostream_serializer.init [] in
  let ser := run_writes ser (put_u64 0) in
  let ser := run_writes ser (concat (put_array <$> hs)) in
  let ser := run_writes (reset ser) (put_u64 (Z.of_nat (length hs))) in
  stream_serializer.m_content (ostream_serializer.m_str ser).

(** The database of the atomizer architecture: the ids with empty values, in
    batches of [write_batch_size]. *)
Definition write_batch_size : nat := Z.to_nat 450000.

Fixpoint seed_db {db} `{LevelDB db} (d : db) (batch : list batch_op) (hs : list hash_t) : db :=
  match hs with
  | [] => match batch with [] => d | _ => db_write d batch end
  | h :: hs =>
      let batch := batch ++ [Put h []] in
      if decide (write_batch_size ≤ length batch)
      then seed_db (db_write d batch) [] hs else seed_db d batch hs
  end.

(** The name of the file or database of a shard, and the one the controller of
    a locking shard opens. *)
Definition preseed_name (twophase_mode : bool) (num_utxos shard_idx : Z) : list byte :=
  (if twophase_mode then lit "2pc_" else []) ++
  lit "shard_preseed_" ++ to_string num_utxos ++ lit "_" ++ to_string shard_idx.

Definition controller_preseed_name (o : options (D := D)) (shard_id : Z) : list byte :=
  let s := m_shards o in
  if (m_seed_from s =? m_seed_to s)%Z then []
  else lit "2pc_shard_preseed_" ++ to_string (sub64 (m_seed_to s) (m_seed_from s)) ++
       lit "_" ++ to_string shard_id.

(** What the thread of a shard leaves under its name. *)
Inductive seed_output (db : Type) := preseed (content : list byte) | database (d : db).
#[global] Arguments preseed {db} content.
#[global] Arguments database {db} d.

Section Threads.
Context {db : Type} `{LevelDB db}.
(** [leveldb::DB::Open] creates a database that is missing, or fails. *)
Variable db_open : list byte → option db.

(** The thread of a shard: [None] when the database cannot be opened.  The
    value of an empty optional throws. *)
Definition seed_shard (o : options (D := D)) (privkey : privkey_t) (shard_idx : Z)
    : outcome (option (seed_output db)) :=
  let num_shards := Z.of_nat (length (m_shard_ranges (m_shards o))) in
  let num_utxos := sub64 (m_seed_to (m_shards o)) (m_seed_from (m_shards o)) in
  let! pubkey := pubkey_from_privkey privkey in
  let wal := seed_wallet (get_p2pk_witness_commitment pubkey)
               (m_seed_value (m_shards o)) num_utxos in
  let! range := shard_bounds num_shards shard_idx in
  if negb (m_twophase_mode o) then
    match db_open (preseed_name (m_twophase_mode o) num_utxos shard_idx) with
    | None => Ret None
    | Some d =>
        match wallet.create_seeded_transaction wal 0 with
        | None => Fatal
        | Some tx =>
            let! hs := shard_outputs tx range (Z.to_nat num_utxos) 0 in
            Ret (Some (database (seed_db d [] hs)))
        end
    end
  else
    match wallet.create_seeded_transaction wal 0 with
    | None => Fatal
    | Some tx =>
        let! hs := shard_outputs tx range (Z.to_nat num_utxos) 0 in
        Ret (Some (preseed (preseed_file hs)))
    end.

(** [main]: what it leaves; the threads write under different names. *)
Fixpoint seed_shards (o : options (D := D)) (privkey : privkey_t) (ids : list Z)
    (files : gmap (list byte) (seed_output db)) : outcome (gmap (list byte) (seed_output db)) :=
  match ids with
  | [] => Ret files
  | i :: ids =>
      let! out := seed_shard o privkey i in
      let num_utxos := sub64 (m_seed_to (m_shards o)) (m_seed_from (m_shards o)) in
      seed_shards o privkey ids
        (match out with
         | Some f => <[preseed_name (m_twophase_mode o) num_utxos i := f]> files
         | None => files
         end)
  end.

Definition main (o : options (D := D)) : outcome (gmap (list byte) (seed_output db)) :=
  match m_seed_privkey (m_shards o) with
  | None => Ret ∅
  | Some privkey =>
      let! _ := shard_bounds (Z.of_nat (length (m_shard_ranges (m_shards o)))) 0 in
      seed_shards o privkey (Z.of_nat <$> seq 0 (length (m_shard_ranges (m_shards o)))) ∅
  end.

End Threads.
End Seeder.

(** [locking_shard::read_preseed_file]: [None] when there is no file; the
    shard then starts empty. *)
Definition read_preseed_file (reads : nat) (file : option (list byte))
    : option (gset hash_t) :=
  match file with
  | None => None
  | Some content =>
      Some (get_unordered_set (Z.of_nat hash_size) (zeros hash_size) (get_array hash_size)
              reads (istream_serializer.init content) ∅).2
  end.

Definition file_content {db : Type} (out : option (seed_output db)) : option (list byte) :=
  match out with Some (preseed content) => Some content | _ => None end.

(** The UHS that shard [id] starts with. *)
Definition shard_uhs {D db : Type} (reads : nat) (o : options (D := D))
    (files : gmap (list byte) (seed_output db)) (id : Z) : gset hash_t :=
  default ∅ (read_preseed_file reads (file_content (files !! controller_preseed_name o id))).

(** The locking shards of the configuration, started with these files. *)
Definition preseeded_shards {D db : Type} (reads cache_size : nat) (keys : gset pubkey_t)
    (threshold : nat) (o : options (D := D)) (files : gmap (list byte) (seed_output db))
    : list locking_shard.t :=
  imap (λ i range, locking_shard.init range cache_size (shard_uhs reads o files (Z.of_nat i))
          keys threshold) (m_shard_ranges (m_shards o)).

End shard_seeder.

(** ** A load generator *)

(** The start of [main] of a load generator with a seed range: its wallet, or
    [None] when seeding it fails.  The value is narrowed to 32 bits. *)
Definition loadgen_wallet `{Hasher} `{Secp256k1} {D} (o : options (D := D)) (gen_id : Z)
    : outcome (option wallet.t) :=
  let! '(range_start, range_end) := loadgen_seed_range o gen_id in
  match m_seed_privkey (m_shards o) with
  | None => Fatal
  | Some privkey =>
      let! '(w, ret) := wallet.seed wallet.init privkey (u32 (m_seed_value (m_shards o)))
                          range_start range_end in
      Ret (if (ret : bool) then Some w else None)
  end.

(** ** What is seeded *)

Module seeding_lemmas.
Import shard_seeder.

Section Seeding.
Context `{Hasher} `{Secp256k1} {D : Type}.

(** The transaction and the id of the seeded output with index [idx]. *)
Definition seed_tx (commitment : hash_t) (val idx : Z) : full_tx.t :=
  full_tx.mk
    [input.mk (out_point.mk (zeros hash_size) idx) (output.mk (zeros hash_size) val)]
    [output.mk commitment val] [].

Definition coin_id (commitment : hash_t) (val idx : Z) : hash_t :=
  uhs_id_from_output (tx_id (seed_tx commitment val idx)) 0 (output.mk commitment val).

(** The ids of the indices from [lo] on. *)
Definition coin_ids (commitment : hash_t) (val lo : Z) (n : nat) : list hash_t :=
  (λ i, coin_id commitment val (lo + Z.of_nat i)) <$> seq 0 n.

Lemma coin_ids_S c v lo n :
  coin_ids c v lo (S n) = coin_id c v lo :: coin_ids c v (lo + 1) n.
Proof.
  unfold coin_ids. cbn [seq]. rewrite fmap_cons, Z.add_0_r. f_equal.
  rewrite <- fmap_S_seq, <- list_fmap_compose. apply list_fmap_ext.
  intros ? i _. unfold compose. f_equal. lia.
Qed.

Lemma elem_of_coin_ids c v lo n h :
  h ∈ coin_ids c v lo n ↔ ∃ k, (lo ≤ k < lo + Z.of_nat n)%Z ∧ h = coin_id c v k.
Proof.
  unfold coin_ids. rewrite list_elem_of_fmap. split.
  - intros (i & -> & Hi%elem_of_seq). exists (lo + Z.of_nat i)%Z. split; [lia|done].
  - intros (k & Hk & ->). exists (Z.to_nat (k - lo)). rewrite elem_of_seq.
    split; [f_equal; lia|lia].
Qed.

Lemma coin_ids_inj c v n k1 k2 :
  NoDup (coin_ids c v 0 n) → (0 ≤ k1 < Z.of_nat n)%Z → (0 ≤ k2 < Z.of_nat n)%Z →
  coin_id c v k1 = coin_id c v k2 → k1 = k2.
Proof.
  intros Hd H1 H2 E. enough (Z.to_nat k1 = Z.to_nat k2) by lia.
  eapply (NoDup_lookup _ _ _ (coin_id c v k1)); [exact Hd|..]; unfold coin_ids;
    rewrite list_lookup_fmap, lookup_seq_lt by lia; cbn;
    rewrite Z2Nat.id by lia; [done|by rewrite E].
Qed.

Lemma coin_ids_prefix c v n m :
  n ≤ m → NoDup (coin_ids c v 0 m) → NoDup (coin_ids c v 0 n).
Proof.
  intros Hle. unfold coin_ids. replace m with (n + (m - n)) by lia.
  rewrite seq_app, fmap_app. by intros (Hn & _)%NoDup_app.
Qed.

Lemma length_coin_id c v k : length (coin_id c v k) = hash_size.
Proof. apply length_sha256. Qed.

Lemma seeded_transaction w k :
  wallet.m_seed_from w ≠ wallet.m_seed_to w →
  wallet.create_seeded_transaction w k =
    Some (seed_tx (wallet.m_seed_witness_commitment w) (wallet.m_seed_value w) k).
Proof.
  intros Hne. unfold wallet.create_seeded_transaction.
  by rewrite (proj2 (Z.eqb_neq _ _)) by done.
Qed.

(** The coin a wallet makes of a seed has the id of the seeded output. *)
Lemma seeded_input w k :
  wallet.m_seed_from w ≠ wallet.m_seed_to w →
  ∃ inp, wallet.create_seeded_input w k = Some inp ∧
    input_hash inp = coin_id (wallet.m_seed_witness_commitment w) (wallet.m_seed_value w) k.
Proof.
  intros Hne. unfold wallet.create_seeded_input. rewrite seeded_transaction by done.
  eexists. split; [done|]. symmetry. apply uhs_id_is_input_hash.
Qed.

Lemma seeded_output_spec c v j idx : seeded_output (seed_tx c v j) idx = Ret (coin_id c v idx).
Proof. reflexivity. Qed.

Lemma shard_outputs_spec c v j range n : ∀ lo,
  shard_outputs (seed_tx c v j) range n lo =
    Ret (filter (λ h, hash_in_shard_range range h = true) (coin_ids c v lo n)).
Proof.
  induction n as [|n IH]; intros lo; [done|].
  cbn [shard_outputs]. rewrite seeded_output_spec. cbn [obind]. rewrite IH. cbn [obind].
  rewrite coin_ids_S, filter_cons. destruct (hash_in_shard_range range _) eqn:E.
  - by rewrite decide_True.
  - by rewrite decide_False.
Qed.

Lemma preseed_file_spec hs :
  preseed_file hs = bytes_of (put_unordered_set_in put_array hs).
Proof.
  unfold preseed_file, ostream_serializer.init, stream_serializer.init.
  rewrite (run_ostream_append _ []), run_ostream_append. cbn [app].
  unfold put_u64, put_unordered_set_in. rewrite bytes_of_app.
  generalize (bytes_of (concat (put_array <$> hs))). intros bs.
  unfold run_writes, bytes_of. cbn [foldl concat reset ostream_serializer.serializer write].
  unfold ostream_serializer.write, stream_serializer.reset.
  cbn [ostream_serializer.m_str stream_serializer.m_fail stream_serializer.m_pos
    stream_serializer.m_content fst take].
  rewrite !app_nil_r, Nat.add_0_l, length_le_bytes. cbn [replicate].
  rewrite ?app_nil_r. by rewrite drop_app_length' by (symmetry; apply length_le_bytes).
Qed.

Lemma read_preseed_spec reads hs :
  Forall (λ h, length h = hash_size) hs → NoDup hs → (Z.of_nat (length hs) < 2 ^ 63)%Z →
  length hs ≤ reads →
  read_preseed_file reads (Some (preseed_file hs)) = Some (list_to_set hs).
Proof.
  intros Hl Hn Hb Hr. cbn [read_preseed_file]. rewrite preseed_file_spec.
  destruct (get_unordered_set_in (St := istream_serializer.t) (λ h, length h = hash_size)
    put_array (zeros hash_size) (get_array hash_size) (Z.of_nat hash_size) reads hs
    (istream_serializer.init (bytes_of (put_unordered_set_in put_array hs))) [])
    as (s' & -> & _); try done.
  - apply get_array_roundtrip. 
  - split; [split; [done|cbn; lia]|]. split; [done|]. by rewrite app_nil_r.
Qed.

(** *** The ranges cover the prefixes once *)

Lemma shard_bounds_exact n i :
  (1 ≤ n ≤ 256)%Z → (0 ≤ i < n)%Z →
  shard_bounds n i =
    Ret (i * (256 `div` n), if (i =? n - 1) then 255 else (i + 1) * (256 `div` n) - 1)%Z.
Proof.
  intros Hn Hi. unfold shard_bounds. rewrite (proj2 (Z.eqb_neq _ _)) by lia.
  assert (1 ≤ 256 `div` n)%Z by (apply Z.div_le_lower_bound; lia).
  assert (256 `div` n ≤ 256)%Z by (apply Z.div_le_upper_bound; nia).
  unfold mul64. rewrite (add64_exact i) by (unfold is_u64; lia).
  rewrite !u64_small, sub64_exact by (unfold is_u64; nia). done.
Qed.

(** The shard of a prefix. *)
Definition shard_of (n b : Z) : Z := Z.min (b `div` (256 `div` n)) (n - 1).

Lemma shard_of_range n b : (1 ≤ n ≤ 256)%Z → (0 ≤ b)%Z → (0 ≤ shard_of n b < n)%Z.
Proof.
  intros Hn Hb. unfold shard_of. assert (0 ≤ b `div` (256 `div` n))%Z; [|lia].
  apply Z.div_pos; [done|]. apply Z.div_str_pos. lia.
Qed.

Lemma in_bounds_iff n i h range :
  (1 ≤ n ≤ 256)%Z → (0 ≤ i < n)%Z → shard_bounds n i = Ret range →
  hash_in_shard_range range h = true ↔ i = shard_of n (Z_of_byte (default x00 (head h))).
Proof.
  intros Hn Hi Hb. rewrite shard_bounds_exact in Hb by done. injection Hb as <-.
  unfold hash_in_shard_range, shard_of. cbn [fst snd].
  set (b := Z_of_byte _). pose proof (Z_of_byte_range (default x00 (head h))).
  assert (0 ≤ b < 256)%Z by done.
  assert (1 ≤ 256 `div` n)%Z by (apply Z.div_le_lower_bound; lia).
  set (r := (256 `div` n)%Z) in *.
  pose proof (Z.div_mod b r ltac:(lia)). pose proof (Z.mod_pos_bound b r ltac:(lia)).
  set (q := (b `div` r)%Z) in *.
  rewrite andb_true_iff, !Z.leb_le. case_match; bools; [subst i|]; split; try nia.
Qed.

(** *** The files *)

Lemma preseed_name_inj b n i j :
  is_u64 i → is_u64 j → preseed_name b n i = preseed_name b n j → i = j.
Proof.
  intros Hi Hj E. unfold preseed_name in E. apply (inj (app _)) in E. simplify_list_eq.
  by apply to_string_inj.
Qed.

Lemma seed_shards_spec {db} `{LevelDB db} db_open (o : options (D := D)) sk
    (out : Z → option (seed_output db)) ids : ∀ files,
  Forall is_u64 ids → NoDup ids → (∀ i, i ∈ ids → seed_shard db_open o sk i = Ret (out i)) →
  ∃ files', seed_shards db_open o sk ids files = Ret files' ∧
    ∀ i, is_u64 i →
      let name := preseed_name (m_twophase_mode o)
        (sub64 (m_seed_to (m_shards o)) (m_seed_from (m_shards o))) i in
      files' !! name = if decide (i ∈ ids) then (match out i with Some f => Some f | None => files !! name end)
                       else files !! name.
Proof.
  induction ids as [|j ids IH]; intros files Hu Hnd Hs.
  { exists files. split; [done|]. intros i _. cbn zeta. rewrite decide_False; [done|]. set_solver. }
  apply Forall_cons in Hu as [Hj Hu]. apply NoDup_cons in Hnd as [Hnj Hnd].
  cbn [seed_shards]. rewrite Hs by set_solver. cbn [obind].
  edestruct IH as (files' & -> & Hf); [done|done|set_solver|]. exists files'. split; [done|].
  intros i Hi. cbn zeta. rewrite Hf by done. destruct (decide (i = j)) as [->|Hne].
  - rewrite decide_False, decide_True by set_solver.
    destruct (out j); [by rewrite lookup_insert_eq|done].
  - assert (match out j with
      | Some f => <[preseed_name (m_twophase_mode o)
          (sub64 (m_seed_to (m_shards o)) (m_seed_from (m_shards o))) j := f]> files
      | None => files
      end !! preseed_name (m_twophase_mode o)
          (sub64 (m_seed_to (m_shards o)) (m_seed_from (m_shards o))) i =
      files !! preseed_name (m_twophase_mode o)
          (sub64 (m_seed_to (m_shards o)) (m_seed_from (m_shards o))) i) as ->.
    { destruct (out j); [|done]. apply lookup_insert_ne. by intros ?%preseed_name_inj. }
    destruct (decide (i ∈ ids)); [rewrite decide_True by set_solver|rewrite decide_False by set_solver];
      done.
Qed.

(** *** The database of the atomizer architecture *)

Lemma batch_effect (ks : list hash_t) k v :
  foldl (op_effect k) v ((λ h, Put h []) <$> ks) = if decide (k ∈ ks) then Some [] else v.
Proof.
  revert v. induction ks as [|h ks IH]; intros v.
  { rewrite decide_False; [done|]. set_solver. }
  rewrite fmap_cons. cbn [foldl op_effect]. rewrite IH.
  repeat case_decide; try done; set_solver.
Qed.

(** Whatever the size of the batches, exactly the outputs are added. *)
Lemma seed_db_spec {db} `{LevelDBLaws db} (hs : list hash_t) : ∀ (d : db) ks k,
  db_get (seed_db d ((λ h, Put h []) <$> ks) hs) k =
    if decide (k ∈ ks ++ hs) then Some [] else db_get d k.
Proof.
  induction hs as [|h hs IH]; intros d ks k; cbn [seed_db].
  - rewrite app_nil_r. destruct ks as [|k0 ks].
    { rewrite decide_False; [done|]. set_solver. }
    by rewrite <- batch_effect, <- db_get_write.
  - change [Put h []] with ((λ h, Put h []) <$> [h]). rewrite <- fmap_app. case_decide.
    + rewrite (IH _ []), db_get_write, batch_effect. cbn [app].
      repeat case_decide; try done; set_solver.
    + rewrite IH. by rewrite <- app_assoc.
Qed.

(** *** The options of a benchmark with seeded outputs *)

Record seeded (o : options (D := D)) (sk : privkey_t) (pk : pubkey_t) : Prop := {
  seeded_key : m_seed_privkey (m_shards o) = Some sk;
  seeded_pub : pubkey_from_privkey sk = Ret pk;
  seeded_range : (0 ≤ m_seed_from (m_shards o) < m_seed_to (m_shards o))%Z;
  seeded_bound : (m_seed_to (m_shards o) < 2 ^ 63)%Z;
  seeded_shards : (1 ≤ length (m_shard_ranges (m_shards o)) ≤ 256)
}.

Section Options.
Variables (o : options (D := D)) (sk : privkey_t) (pk : pubkey_t).
Hypothesis Ho : seeded o sk pk.

Definition num_shards : Z := Z.of_nat (length (m_shard_ranges (m_shards o))).
Definition num_utxos : Z := (m_seed_to (m_shards o) - m_seed_from (m_shards o))%Z.

(** The coin with an index, of the value and for the key of the options. *)
Definition coin (k : Z) : hash_t :=
  coin_id (get_p2pk_witness_commitment pk) (u32 (m_seed_value (m_shards o))) k.

Definition coins : list hash_t :=
  coin_ids (get_p2pk_witness_commitment pk) (u32 (m_seed_value (m_shards o))) 0
    (Z.to_nat num_utxos).

Definition shard_coins (i : Z) : list hash_t :=
  filter (λ h, i = shard_of num_shards (Z_of_byte (default x00 (head h)))) coins.

Lemma num_utxos_exact : sub64 (m_seed_to (m_shards o)) (m_seed_from (m_shards o)) = num_utxos.
Proof. destruct Ho. apply sub64_exact. unfold is_u64. lia. Qed.

Lemma num_utxos_range : (0 < num_utxos < 2 ^ 63)%Z.
Proof. destruct Ho. unfold num_utxos. lia. Qed.

Lemma num_shards_range : (1 ≤ num_shards ≤ 256)%Z.
Proof. destruct Ho. unfold num_shards. lia. Qed.

Section Seeder.
Context {db : Type} `{LevelDB db}.
Variable db_open : list byte → option db.

(** What the seeder leaves for a shard, in either architecture. *)
Definition shard_seed (i : Z) : option (seed_output db) :=
  if m_twophase_mode o then Some (preseed (preseed_file (shard_coins i)))
  else (λ d, database (seed_db d [] (shard_coins i))) <$>
    db_open (preseed_name false num_utxos i).

Lemma seed_shard_spec i :
  (0 ≤ i < num_shards)%Z → seed_shard db_open o sk i = Ret (shard_seed i).
Proof.
  intros Hi. unfold seed_shard, shard_seed. rewrite num_utxos_exact, (seeded_pub _ _ _ Ho).
  cbn [obind].
  fold num_shards. pose proof num_shards_range as Hn. pose proof num_utxos_range as Hu.
  destruct (shard_bounds num_shards i) as [range|] eqn:Hb.
  2:{ by rewrite shard_bounds_exact in Hb. }
  cbn [obind]. rewrite seeded_transaction by (cbn; lia).
  rewrite shard_outputs_spec. cbn [obind].
  replace (filter _ _) with (shard_coins i).
  2:{ unfold shard_coins, coins. apply list_filter_iff. intros h. symmetry. by apply in_bounds_iff. }
  destruct (m_twophase_mode o); [done|]. cbn [negb]. by destruct (db_open _).
Qed.

Lemma main_spec :
  ∃ files, main db_open o = Ret files ∧
    ∀ i, (0 ≤ i < num_shards)%Z →
      files !! preseed_name (m_twophase_mode o) num_utxos i = shard_seed i.
Proof.
  pose proof num_shards_range as Hn. unfold main. rewrite (seeded_key _ _ _ Ho).
  fold num_shards. rewrite shard_bounds_exact by lia. cbn [obind].
  edestruct (seed_shards_spec db_open o sk shard_seed
    (Z.of_nat <$> seq 0 (length (m_shard_ranges (m_shards o)))) ∅) as (files & -> & Hf).
  - apply Forall_fmap, Forall_seq. intros j Hj. unfold is_u64, compose, num_shards in *. lia.
  - apply NoDup_fmap; [apply _|apply NoDup_seq].
  - intros i (j & -> & Hj%elem_of_seq)%list_elem_of_fmap. apply seed_shard_spec.
    unfold num_shards. lia.
  - exists files. split; [done|]. intros i Hi. rewrite num_utxos_exact in Hf.
    etrans; [exact (Hf i ltac:(unfold is_u64; lia))|]. rewrite decide_True.
    + destruct (shard_seed i); [done|]. apply lookup_empty.
    + apply list_elem_of_fmap. exists (Z.to_nat i). rewrite elem_of_seq. unfold num_shards in *. lia.
Qed.

(** The name the controller of a locking shard asks for. *)
Lemma controller_name i :
  m_twophase_mode o = true →
  controller_preseed_name o i = preseed_name (m_twophase_mode o) num_utxos i.
Proof.
  intros Hm. unfold controller_preseed_name. destruct Ho as [_ _ Hr _ _].
  rewrite (proj2 (Z.eqb_neq _ _)) by lia. by rewrite num_utxos_exact, Hm.
Qed.

End Seeder.

(** SHA-256 gives the seeded outputs different ids. *)
Hypothesis Hdistinct : NoDup coins.

Lemma shard_uhs_spec {db : Type} (reads : nat) (files : gmap (list byte) (seed_output db)) (i : Z) :
  Z.to_nat num_utxos ≤ reads →
  files !! controller_preseed_name o i = Some (preseed (preseed_file (shard_coins i))) →
  shard_uhs reads o files i = list_to_set (shard_coins i).
Proof.
  intros Hr Hf. unfold shard_uhs. rewrite Hf. cbn [file_content]. pose proof num_utxos_range.
  assert (length (shard_coins i) ≤ Z.to_nat num_utxos) as Hl.
  { unfold shard_coins. etrans; [apply length_filter|]. unfold coins, coin_ids.
    by rewrite length_fmap, length_seq. }
  rewrite read_preseed_spec; [done|..|lia|lia].
  - apply Forall_forall. intros h [_ (k & _ & ->)%elem_of_coin_ids]%list_elem_of_filter.
    apply length_coin_id.
  - by apply NoDup_filter.
Qed.

Lemma elem_of_shard_coins i h :
  h ∈ shard_coins i ↔
  ∃ k, (0 ≤ k < num_utxos)%Z ∧ h = coin k ∧
    i = shard_of num_shards (Z_of_byte (default x00 (head h))).
Proof.
  unfold shard_coins. rewrite list_elem_of_filter. unfold coins. rewrite elem_of_coin_ids.
  rewrite Z2Nat.id by (pose proof num_utxos_range; lia). unfold coin. naive_solver.
Qed.

(** Every seeded coin is in exactly one shard. *)
Lemma coin_in_one_shard k :
  (0 ≤ k < num_utxos)%Z →
  ∃ i, (0 ≤ i < num_shards)%Z ∧ coin k ∈ shard_coins i ∧
    ∀ j, coin k ∈ shard_coins j → j = i.
Proof.
  intros Hk. exists (shard_of num_shards (Z_of_byte (default x00 (head (coin k))))).
  split; [apply shard_of_range; [apply num_shards_range|apply Z_of_byte_range]|]. split.
  - apply elem_of_shard_coins. by exists k.
  - by intros j (k' & _ & _ & ->)%elem_of_shard_coins.
Qed.

(** Configured ranges that are those of the seeder. *)
Definition even_ranges : Prop :=
  ∀ i r, m_shard_ranges (m_shards o) !! i = Some r →
    shard_bounds num_shards (Z.of_nat i) = Ret r.

Section Preseeded.
Context {db : Type} (reads cache_size : nat) (keys : gset pubkey_t) (threshold : nat).
Variable files : gmap (list byte) (seed_output db).
Hypothesis Heven : even_ranges.
Hypothesis Huhs : ∀ i, (0 ≤ i < num_shards)%Z →
  shard_uhs reads o files i = list_to_set (shard_coins i).

Abbreviation shards := (preseeded_shards reads cache_size keys threshold o files).

Lemma preseeded_lookup i s :
  shards !! i = Some s →
  ∃ r, m_shard_ranges (m_shards o) !! i = Some r ∧ (0 ≤ Z.of_nat i < num_shards)%Z ∧
    s = locking_shard.init r cache_size (list_to_set (shard_coins (Z.of_nat i))) keys threshold ∧
    ∀ h, hash_in_shard_range r h = true ↔
      Z.of_nat i = shard_of num_shards (Z_of_byte (default x00 (head h))).
Proof.
  unfold preseeded_shards. rewrite list_lookup_imap. intros (r & Hr & ->)%fmap_Some. cbn beta.
  assert (0 ≤ Z.of_nat i < num_shards)%Z as Hi.
  { apply lookup_lt_Some in Hr. unfold num_shards. lia. }
  exists r. split; [done|]. split; [done|]. rewrite Huhs by done. split; [done|].
  intros h. apply in_bounds_iff; [apply num_shards_range|done|by apply Heven].
Qed.

Lemma preseeded_cover : covers (λ s, locking_shard.in_range s) shards.
Proof.
  intros h. set (i := shard_of num_shards (Z_of_byte (default x00 (head h)))).
  assert (0 ≤ i < num_shards)%Z as Hi
    by (apply shard_of_range; [apply num_shards_range|apply Z_of_byte_range]).
  assert (∃ s, shards !! Z.to_nat i = Some s) as [s Hs].
  { apply lookup_lt_is_Some_2. unfold preseeded_shards. rewrite length_imap.
    unfold num_shards in Hi. lia. }
  destruct (preseeded_lookup _ _ Hs) as (r & _ & _ & -> & Hin).
  exists (Z.to_nat i), (locking_shard.init r cache_size (list_to_set
    (shard_coins (Z.of_nat (Z.to_nat i)))) keys threshold).
  split; [done|]. split; [apply Hin; by rewrite Z2Nat.id by lia|].
  intros j s' Hj Hown. destruct (preseeded_lookup _ _ Hj) as (r' & _ & _ & -> & Hin').
  apply Hin' in Hown. fold i in Hown. lia.
Qed.

Lemma preseeded_ok : Forall shard_lemmas.shard_inv shards.
Proof.
  apply Forall_lookup. intros i s Hs. destruct (preseeded_lookup _ _ Hs) as (r & _ & _ & -> & Hin).
  apply shard_lemmas.init_inv. intros h (k & _ & _ & Hi)%elem_of_list_to_set%elem_of_shard_coins.
  by apply Hin.
Qed.

(** Together the shards hold the seeded coins. *)
Lemma preseeded_uhs h :
  h ∈ ⋃ (locking_shard.m_uhs <$> shards) ↔ ∃ k, (0 ≤ k < num_utxos)%Z ∧ h = coin k.
Proof.
  rewrite elem_of_union_list. setoid_rewrite list_elem_of_fmap. split.
  - intros (U & (s & -> & (i & Hs)%list_elem_of_lookup) & Hh).
    destruct (preseeded_lookup _ _ Hs) as (r & _ & _ & -> & _). cbn in Hh.
    apply elem_of_list_to_set, elem_of_shard_coins in Hh as (k & ? & ? & _). eauto.
  - intros (k & Hk & ->). destruct (coin_in_one_shard k Hk) as (i & Hi & Hin & _).
    assert (∃ s, shards !! Z.to_nat i = Some s) as [s Hs].
    { apply lookup_lt_is_Some_2. unfold preseeded_shards. rewrite length_imap.
      unfold num_shards in Hi. lia. }
    destruct (preseeded_lookup _ _ Hs) as (r & _ & _ & -> & _). eexists. split.
    + eexists. split; [reflexivity|]. by eapply list_elem_of_lookup_2.
    + cbn. rewrite Z2Nat.id by lia. by apply elem_of_list_to_set.
Qed.

(** A transaction of seeded coins is accepted by the shards. *)
Lemma preseeded_verdict tx :
  check_attestations tx keys threshold = true →
  (∀ h, h ∈ compact_tx.m_inputs tx → ∃ k, (0 ≤ k < num_utxos)%Z ∧ h = coin k) →
  dtx_lemmas.verdict shards tx = true.
Proof.
  intros Hatt Hin. apply verdict_meaning; [apply preseeded_cover| |apply preseeded_ok|].
  - apply Forall_lookup. intros i s Hs.
    by destruct (preseeded_lookup _ _ Hs) as (r & _ & _ & -> & _).
  - intros h Hh. by apply preseeded_uhs, Hin.
Qed.

End Preseeded.

(** The wallet of a load generator, when there are enough outputs. *)
Lemma loadgen_wallet_spec g w :
  let count := m_loadgen_count (m_loadgen o) in
  let sz := (num_utxos `div` count)%Z in
  (0 ≤ g)%Z → (0 < sz)%Z → loadgen_wallet o g = Ret (Some w) →
  (g < count)%Z ∧
  wallet.m_seed_from w = (m_seed_from (m_shards o) + g * sz)%Z ∧
  wallet.m_seed_to w = (m_seed_from (m_shards o) + (g + 1) * sz - 1)%Z ∧
  (wallet.m_seed_to w < m_seed_to (m_shards o))%Z ∧
  wallet.m_seed_witness_commitment w = get_p2pk_witness_commitment pk ∧
  wallet.m_seed_value w = u32 (m_seed_value (m_shards o)) ∧
  (wallet.m_seed_from w < wallet.m_seed_to w)%Z.
Proof.
  cbn zeta. intros Hg Hsz Hw. destruct Ho as [Hk Hp Hr Hb _].
  unfold loadgen_wallet in Hw. unfold num_utxos in *.
  destruct (Z.ltb_spec g (m_loadgen_count (m_loadgen o))) as [Hlt|Hge].
  2:{ unfold loadgen_seed_range in Hw. by rewrite (proj2 (Z.ltb_ge _ _)) in Hw. }
  destruct (seed_range_exact o g) as [E Hle]; [lia..|]. rewrite E, Hk in Hw. cbn [obind] in Hw.
  unfold wallet.seed in Hw. case_match eqn:Hc; [done|]. rewrite Hp in Hw. cbn [obind] in Hw.
  bools. rewrite bool_decide_true in Hw by done. cbn [negb obind] in Hw. injection Hw as <-.
  cbn. split_and!; lia || done.
Qed.

End Options.

End Seeding.
End seeding_lemmas.

(** ** Seeder, shards and load generators together *)

Section SeedingTheorems.
Import shard_seeder seeding_lemmas.
Context `{Hasher} `{Secp256k1} {D : Type}.


(** The seeder ignores the configured ranges: a shard whose range has a seeded
    coin that the equal parts give to another shard does not load it, and
    votes against every transaction that spends it. *)
Theorem misplaced_coin_refused {db} `{LevelDB db} (db_open : list byte → option db)
    (o : options (D := D)) (sk : privkey_t) (pk : pubkey_t)
    (reads cache_size : nat) (keys : gset pubkey_t) (threshold : nat) i r k tx :
  seeded o sk pk → m_twophase_mode o = true → NoDup (coins o pk) →
  Z.to_nat (num_utxos o) ≤ reads →
  m_shard_ranges (m_shards o) !! i = Some r → (0 ≤ k < num_utxos o)%Z →
  hash_in_shard_range r (coin o pk k) = true →
  shard_of (num_shards o) (Z_of_byte (default x00 (head (coin o pk k)))) ≠ Z.of_nat i →
  coin o pk k ∈ compact_tx.m_inputs tx →
  ∃ files s, main db_open o = Ret files ∧
    preseeded_shards reads cache_size keys threshold o files !! i = Some s ∧
    shard_lemmas.lock_result s tx = false.
Proof.
  intros Ho Htp Hd Hr Hi Hk Hown Hother Hin.
  destruct (main_spec o sk pk Ho db_open) as (files & Hm & Hf). exists files.
  unfold preseeded_shards. rewrite list_lookup_imap, Hi. cbn. eexists. split; [done|].
  split; [reflexivity|].
  assert (0 ≤ Z.of_nat i < num_shards o)%Z as Hb.
  { apply lookup_lt_Some in Hi. unfold num_shards. lia. }
  rewrite (shard_uhs_spec o sk pk Ho Hd); [|done|].
  2:{ rewrite (controller_name o sk pk Ho) by done. rewrite Hf by done.
      unfold shard_seed. by rewrite Htp. }
  unfold shard_lemmas.lock_result. apply andb_false_iff. right. apply bool_decide_eq_false. cbn.
  intros Hsub. assert (coin o pk k ∈ ins (hash_in_shard_range r) tx) as Hx by by apply elem_of_owned.
  apply Hsub, elem_of_list_to_set, (elem_of_shard_coins o sk pk Ho) in Hx as (k' & _ & _ & ?).
  congruence.
Qed.

(** The documentation gives [m_seed_from] as the first index of the seeded
    outputs, but the seeder writes as many outputs from index zero on: the
    last outputs of a range that starts later are in no shard. *)
Theorem seeds_after_zero_missing {db} `{LevelDB db} (db_open : list byte → option db)
    (o : options (D := D)) (sk : privkey_t) (pk : pubkey_t) (reads : nat) :
  seeded o sk pk → m_twophase_mode o = true → (0 < m_seed_from (m_shards o))%Z →
  NoDup (coin_ids (get_p2pk_witness_commitment pk) (u32 (m_seed_value (m_shards o))) 0
           (Z.to_nat (m_seed_to (m_shards o)))) →
  Z.to_nat (num_utxos o) ≤ reads →
  ∃ files, main db_open o = Ret files ∧
    ∀ i, (0 ≤ i < num_shards o)%Z →
      coin o pk (m_seed_to (m_shards o) - 1) ∉ shard_uhs reads o files i.
Proof.
  intros Ho Htp Hz Hd Hr. destruct (main_spec o sk pk Ho db_open) as (files & Hm & Hf).
  pose proof (seeded_range _ _ _ Ho) as Hrange. exists files. split; [done|]. intros i Hi.
  rewrite (shard_uhs_spec o sk pk Ho); [|..|done|].
  - intros (k & Hk & E & _)%elem_of_list_to_set%(elem_of_shard_coins o sk pk Ho).
    unfold num_utxos, coin in *. apply (coin_ids_inj _ _ _ _ _ Hd) in E; lia.
  - eapply coin_ids_prefix; [|exact Hd]. unfold num_utxos. lia.
  - rewrite (controller_name o sk pk Ho) by done. rewrite Hf by done.
    unfold shard_seed. by rewrite Htp.
Qed.

(** The range of a load generator ends one before the next one starts, but
    the wallet treats the end as exclusive: nobody offers the last coin of a
    part. *)
Theorem last_coin_of_part_unused (o : options (D := D)) (sk : privkey_t) (pk : pubkey_t)
    (g g' : Z) (w : wallet.t) :
  let sz := (num_utxos o `div` m_loadgen_count (m_loadgen o))%Z in
  seeded o sk pk → (0 < sz)%Z → (0 ≤ g)%Z → (0 ≤ g')%Z →
  loadgen_wallet o g' = Ret (Some w) →
  ¬ (wallet.m_seed_from w ≤ m_seed_from (m_shards o) + (g + 1) * sz - 1 <
       wallet.m_seed_to w)%Z.
Proof.
  cbn zeta. intros Ho Hsz Hg Hg' Hw Hk.
  destruct (loadgen_wallet_spec o sk pk Ho g' w Hg' Hsz Hw) as (_ & Hf & Ht & _).
  destruct (Z.le_gt_cases g' g); nia.
Qed.

End SeedingTheorems.

Section SeedingExamples.
Import Toy in_memory shard_seeder seeding_lemmas.

(** Two shards, seven seeded outputs, three load generators. *)
Definition bench_options : options (D := ()) :=
  mk_options true (mk_sentinel 1 [] [] ∅ ∅) (mk_locking_shard [] [] [])
    (mk_shard [] [] [] [(0, 127); (128, 255)]%Z 10 0 7 (Some (replicate 32 x09)) 20)
    (mk_atomizer [] [] [] 250 1) (mk_archiver [] [] []) (mk_watchtower [] [] [] 100 100)
    (mk_coordinator [] [] [] 75) (mk_raft 4000 2000 1000 0 100 100 true)
    (mk_loadgen 2 2 () () true 100 1 1 3).

Lemma bench_seeded : seeded bench_options (replicate 32 x09) (replicate 32 x09).
Proof. split; try reflexivity; cbn; lia. Qed.

Lemma bench_even : even_ranges bench_options.
Proof. intros [|[|i]] r Hr; cbn in Hr; simplify_eq; vm_compute; reflexivity. Qed.


End SeedingExamples.
