(* ===== verification/Client.v ===== *)
(** * The client library

    Models of [src/uhs/client/client.cpp] and of its two-phase and atomizer
    subclasses, and of the wallet file ([wallet::save], [wallet::load]).  A
    client keeps the transactions it sent, the coins they spend and the coins
    it was sent until the back end confirms or rejects them, and saves
    everything after each operation.  The answers of the sentinel, the shards
    and the watchtower are arguments. *)

From Stdlib Require Import ZArith Lia.
From Stdlib.Strings Require Import Byte.
From stdpp Require Import base tactics numbers gmap sets list sorting.
From S2P Require Import Prelude Serialization Crypto Transaction Validation Wallet.
From S2P Require Import Sentinel Watchtower.
Open Scope cbdc_scope.

(** ** The wallet file *)

Module wallet_file.

(** [std::array] compares lexicographically. *)
Fixpoint bytes_le (a b : list byte) : bool :=
  match a, b with
  | [], _ => true
  | _, [] => false
  | x :: a, y :: b =>
      (Z_of_byte x <? Z_of_byte y)%Z || ((Z_of_byte x =? Z_of_byte y)%Z && bytes_le a b)
  end.

(** [cmp_input]: by transaction id, then by index. *)
Definition input_le (a b : input.t) : Prop :=
  let ta := out_point.m_tx_id (input.m_prevout a) in
  let tb := out_point.m_tx_id (input.m_prevout b) in
  (if decide (ta = tb)
   then (out_point.m_index (input.m_prevout a) <=? out_point.m_index (input.m_prevout b))%Z
   else bytes_le ta tb) = true.

#[export] Instance input_le_dec a b : Decision (input_le a b).
Proof. unfold input_le. apply _. Defined.

(** The order in which [std::set] is iterated. *)
Definition set_order (m : gmap out_point.t input.t) : list input.t :=
  merge_sort input_le (map_to_list m).*2.

Definition put_set {K} (put : K → writes) (order : list K) : writes :=
  put_u64 (Z.of_nat (length order)) ++ concat (put <$> order).

(** [operator>>(std::set&)]: as many elements as announced; [emplace] keeps an
    equivalent element. *)
Fixpoint read_set `{Serializer St} (n : nat) (s : St) (m : gmap out_point.t input.t)
    : St * gmap out_point.t input.t :=
  match n with
  | O => (s, m)
  | S n =>
      let (s', key) := get_input s input.dflt in
      if negb (operator_bool s') then (s', m)
      else read_set n s' (insert_new (input.m_prevout key) key m)
  end.

Definition get_set `{Serializer St} (s : St) (m : gmap out_point.t input.t)
    : St * gmap out_point.t input.t :=
  let (s1, len) := get_u64 s 0%Z in
  if negb (operator_bool s1) then (s1, m) else read_set (Z.to_nat len) s1 m.

Section File.
Context `{Hasher}.

(** [wallet::save] *)
Definition save (w : wallet.t) : list byte :=
  let ser := ostream_serializer.init [] in
  let ser := run_writes ser (put_unordered_map put_array put_array (wallet.m_keys w)) in
  let ser := run_writes ser (put_set put_input (set_order (wallet.m_utxos_set w))) in
  stream_serializer.m_content (ostream_serializer.m_str ser).

(** [wallet::load]: keys and coins are replaced, the seed range stays. *)
Definition load (reads : nat) (w : wallet.t) (file : list byte) : wallet.t :=
  let deser := istream_serializer.init file in
  let (deser, keys) :=
    get_unordered_map 64 (zeros pubkey_len) (zeros 32) (get_array pubkey_len)
      (get_array 32) reads deser ∅ in
  let pubkeys := (map_to_list keys).*1 in
  let programs :=
    foldl (λ m k, insert_new (get_p2pk_witness_commitment k) k m) ∅ pubkeys in
  let (deser, utxos) := get_set deser ∅ in
  let queue := set_order utxos in
  wallet.mk (foldl (λ b i, add64 b (wallet.value i)) 0%Z queue) utxos queue
    (wallet.m_seed_from w) (wallet.m_seed_to w) (wallet.m_seed_value w)
    (wallet.m_seed_witness_commitment w) keys pubkeys programs.

End File.
End wallet_file.

(** ** The client *)

Module client.

(** The state in memory and the two files. *)
Record t := mk {
  m_wallet : wallet.t;
  m_pending_txs : gmap hash_t full_tx.t;
  m_pending_spend : gmap hash_t input.t;
  m_pending_inputs : gmap hash_t input.t;
  m_client_file : list byte;
  m_wallet_file : list byte
}.

Section Ops.
Context `{Hasher} `{Secp256k1}.

Definition save_client_state (c : t) : list byte :=
  let ser := ostream_serializer.init [] in
  let ser := run_writes ser (put_unordered_map put_array put_full_tx (m_pending_txs c)) in
  let ser := run_writes ser (put_unordered_map put_array put_input (m_pending_inputs c)) in
  let ser := run_writes ser (put_unordered_map put_array put_input (m_pending_spend c)) in
  stream_serializer.m_content (ostream_serializer.m_str ser).

Definition save (c : t) : t :=
  mk (m_wallet c) (m_pending_txs c) (m_pending_spend c) (m_pending_inputs c)
    (save_client_state c) (wallet_file.save (m_wallet c)).

(** [load_client_state]: a file that cannot be read is fatal. *)
Definition load_client_state (reads : nat) (file : list byte)
    : outcome (gmap hash_t full_tx.t * gmap hash_t input.t * gmap hash_t input.t) :=
  let deser := istream_serializer.init file in
  let (deser, txs) :=
    get_unordered_map 104 (zeros hash_size) full_tx.dflt (get_array hash_size)
      get_full_tx reads deser ∅ in
  let (deser, inputs) :=
    get_unordered_map 112 (zeros hash_size) input.dflt (get_array hash_size)
      get_input reads deser ∅ in
  let (deser, spend) :=
    get_unordered_map 112 (zeros hash_size) input.dflt (get_array hash_size)
      get_input reads deser ∅ in
  if operator_bool deser then Ret (txs, inputs, spend) else Fatal.

(** [init] of a new process over the files of [c], before it connects. *)
Definition init (reads : nat) (c : t) : outcome t :=
  let w := wallet_file.load reads wallet.init (m_wallet_file c) in
  let! '(txs, inputs, spend) := load_client_state reads (m_client_file c) in
  Ret (mk w txs spend inputs (m_client_file c) (m_wallet_file c)).

Definition set_wallet (c : t) (w : wallet.t) : t :=
  mk w (m_pending_txs c) (m_pending_spend c) (m_pending_inputs c) (m_client_file c)
    (m_wallet_file c).

Definition import_transaction (c : t) (tx : full_tx.t) : t :=
  save (mk (m_wallet c) (insert_new (tx_id tx) tx (m_pending_txs c)) (m_pending_spend c)
          (m_pending_inputs c) (m_client_file c) (m_wallet_file c)).

Definition register_pending_tx (c : t) (tx : full_tx.t) : t :=
  save (mk (m_wallet c) (m_pending_txs c)
          (foldl (λ m i, insert_new (input_hash i) i m) (m_pending_spend c)
             (full_tx.m_inputs tx))
          (m_pending_inputs c) (m_client_file c) (m_wallet_file c)).

Definition create_transaction (c : t) (val : Z) (payee : pubkey_t) (rnd : randomness)
    : outcome (t * option full_tx.t) :=
  let! '(w, tx) := wallet.send_to (m_wallet c) val payee true rnd in
  match tx with
  | None => Ret (set_wallet c w, None)
  | Some tx => Ret (register_pending_tx (set_wallet c w) tx, Some tx)
  end.

(** [check_pending]: some pending transaction spends the input. *)
Definition check_pending (c : t) (inp : input.t) : bool :=
  existsb (λ p, existsb (λ i, bool_decide (i = inp)) (full_tx.m_inputs p.2))
    (map_to_list (m_pending_txs c)).

(** The loop of [abandon_transaction] over the inputs. *)
Fixpoint release_inputs (c : t) (inputs : list input.t) : outcome t :=
  match inputs with
  | [] => Ret c
  | i :: inputs =>
      match m_pending_spend c !! input_hash i with
      | None => release_inputs c inputs
      | Some _ =>
          if check_pending c i then release_inputs c inputs
          else
            let! w := wallet.confirm_inputs (m_wallet c) [i] in
            release_inputs
              (mk w (m_pending_txs c) (delete (input_hash i) (m_pending_spend c))
                 (m_pending_inputs c) (m_client_file c) (m_wallet_file c)) inputs
      end
  end.

Definition abandon_transaction (c : t) (id : hash_t) : outcome (t * bool) :=
  match m_pending_txs c !! id with
  | None => Ret (save c, false)
  | Some tx =>
      let! c := release_inputs
        (mk (m_wallet c) (delete id (m_pending_txs c)) (m_pending_spend c)
           (m_pending_inputs c) (m_client_file c) (m_wallet_file c)) (full_tx.m_inputs tx) in
      Ret (save c, true)
  end.

Definition confirm_sent (c : t) (id : hash_t) : outcome (t * bool) :=
  match m_pending_txs c !! id with
  | None => Ret (c, false)
  | Some tx =>
      let! w := wallet.confirm_transaction (m_wallet c) tx in
      Ret (mk w (delete id (m_pending_txs c))
             (foldl (λ m i, delete (input_hash i) m) (m_pending_spend c)
                (full_tx.m_inputs tx))
             (m_pending_inputs c) (m_client_file c) (m_wallet_file c), true)
  end.

Definition confirm_received (c : t) (id : hash_t) : outcome (t * bool) :=
  match m_pending_inputs c !! id with
  | None => Ret (c, false)
  | Some i =>
      let! w := wallet.confirm_inputs (m_wallet c) [i] in
      Ret (mk w (m_pending_txs c) (m_pending_spend c) (delete id (m_pending_inputs c))
             (m_client_file c) (m_wallet_file c), true)
  end.

Definition confirm_transaction (c : t) (id : hash_t) : outcome (t * bool) :=
  let! '(c, sent) := confirm_sent c id in
  let! '(c, received) := confirm_received c id in
  Ret (save c, sent || received).

(** [send_transaction]; [res] is the response of the sentinel, if any. *)
Definition send_transaction (c : t) (tx : full_tx.t) (res : option execute_response)
    : outcome (t * option execute_response) :=
  let c := import_transaction c tx in
  match res with
  | None => Ret (c, None)
  | Some r =>
      match m_tx_status r with
      | confirmed => let! '(c, _) := confirm_transaction c (tx_id tx) in Ret (c, Some r)
      | _ => Ret (c, Some r)
      end
  end.

Definition send (c : t) (val : Z) (payee : pubkey_t) (rnd : randomness)
    (res : option execute_response)
    : outcome (t * (option full_tx.t * option execute_response)) :=
  let! '(c, spend_tx) := create_transaction c val payee rnd in
  match spend_tx with
  | None => Ret (c, (None, None))
  | Some tx =>
      let! '(c, r) := send_transaction c tx res in
      match r with
      | None => Ret (c, (None, None))
      | Some r => Ret (c, (Some tx, Some r))
      end
  end.

Definition fan (c : t) (count : nat) (val : Z) (payee : pubkey_t) (rnd : randomness)
    (res : option execute_response)
    : outcome (t * (option full_tx.t * option execute_response)) :=
  let! '(w, tx) := wallet.fan (m_wallet c) count val payee true rnd in
  let c := set_wallet c w in
  match tx with
  | None => Ret (c, (None, None))
  | Some tx =>
      let c := register_pending_tx c tx in
      let! '(c, r) := send_transaction c tx res in
      match r with
      | None => Ret (c, (None, None))
      | Some r => Ret (c, (Some tx, Some r))
      end
  end.

(** [mint]; sending the transaction may confirm it ([send_mint_tx]). *)
Definition mint (c : t) (rnds : list randomness) (output_val : Z)
    (send_mint_tx : t → full_tx.t → outcome (t * bool)) : outcome (t * full_tx.t) :=
  let! '(w, mint_tx) := wallet.mint_new_coins (m_wallet c) rnds output_val in
  let c := import_transaction (set_wallet c w) mint_tx in
  let! '(c, _) := send_mint_tx c mint_tx in
  Ret (save c, mint_tx).

Definition import_send_input (c : t) (inp : input.t) : t :=
  if wallet.is_spendable (m_wallet c) inp then
    save (mk (m_wallet c) (m_pending_txs c) (m_pending_spend c)
            (insert_new (out_point.m_tx_id (input.m_prevout inp)) inp (m_pending_inputs c))
            (m_client_file c) (m_wallet_file c))
  else c.

Definition new_address (c : t) (rnd : randomness) : outcome (t * pubkey_t) :=
  let! '(w, addr) := wallet.generate_key (m_wallet c) rnd in
  Ret (save (set_wallet c w), addr).

Definition balance (c : t) : Z := wallet.balance (m_wallet c).
Definition utxo_count (c : t) : Z := wallet.count (m_wallet c).
Definition pending_tx_count (c : t) : Z := Z.of_nat (size (m_pending_txs c)).
Definition pending_input_count (c : t) : Z := Z.of_nat (size (m_pending_inputs c)).

End Ops.
End client.

(** ** The two-phase client *)

Module twophase_client.
Import client.

Section Ops.
Context `{Hasher} `{Secp256k1}.

(** [std::set<hash_t>] is iterated in lexicographic order. *)
Definition hash_le (a b : hash_t) : Prop := wallet_file.bytes_le a b = true.

#[export] Instance hash_le_dec a b : Decision (hash_le a b).
Proof. unfold hash_le. apply _. Defined.

Definition txids (c : t) : list hash_t :=
  merge_sort hash_le (elements (dom (m_pending_txs c) ∪ dom (m_pending_inputs c))).

(** The answers of the shards; [None] is a timeout. *)
Fixpoint sync_txs (check_tx_id : hash_t → option bool) (c : t) (ids : list hash_t)
    : outcome (t * bool) :=
  match ids with
  | [] => Ret (c, true)
  | id :: ids =>
      match check_tx_id id with
      | None => let! '(c, _) := sync_txs check_tx_id c ids in Ret (c, false)
      | Some true =>
          let! '(c, _) := confirm_transaction c id in sync_txs check_tx_id c ids
      | Some false => sync_txs check_tx_id c ids
      end
  end.

Definition sync (check_tx_id : hash_t → option bool) (c : t) : outcome (t * bool) :=
  sync_txs check_tx_id c (txids c).

(** The attestations of a minting transaction, signed with the private keys
    of the first sentinels; a missing key reads as zero. *)
Fixpoint attest (keys : gmap Z privkey_t) (n : nat) (i : Z) (ctx : compact_tx.t)
    : outcome compact_tx.t :=
  match n with
  | O => Ret ctx
  | S n =>
      let! att := compact_sign ctx (default (zeros 32) (keys !! i)) in
      attest keys n (i + 1) (compact_tx.with_attestations ctx
        (insert_new att.1 att.2 (compact_tx.m_attestations ctx)))
  end.

(** [send_mint_tx]: [sent] is whether the request left, [answer] the
    coordinator's, [None] if it did not come in time or was an error. *)
Definition send_mint_tx (keys : gmap Z privkey_t) (threshold : nat) (sent : bool)
    (answer : option bool) (c : t) (mint_tx : full_tx.t) : outcome (t * bool) :=
  let! ctx := attest keys threshold 0 (compact mint_tx) in
  if sent then
    match answer with
    | Some true =>
        let! '(c, _) := confirm_transaction c (compact_tx.m_id ctx) in Ret (c, true)
    | _ => Ret (c, false)
    end
  else Ret (c, false).

End Ops.
End twophase_client.

(** ** The atomizer client *)

Module atomizer_client.
Import client.

Section Ops.
Context `{Hasher} `{Secp256k1}.

(** The request to the watchtower: every pending transaction with its inputs
    and outputs, every awaited coin with its id. *)
Definition request (c : t) : gmap hash_t (list hash_t) :=
  foldl (λ m p, insert_new p.1 [input_hash p.2] m)
    (list_to_map ((λ p : hash_t * full_tx.t,
       let ctx := compact p.2 in
       (compact_tx.m_id ctx, compact_tx.m_inputs ctx ++ compact_tx.m_uhs_outputs ctx))
         <$> map_to_list (m_pending_txs c)))
    (map_to_list (m_pending_inputs c)).

Definition found (s : status_update_state) : bool :=
  match m_status s with unspent | spent => true | _ => false end.

(** The inner loop: up to the first state that was found. *)
Fixpoint scan (success : bool) (sts : list status_update_state) : bool :=
  match sts with
  | [] => success
  | s :: sts => if found s then success else scan false sts
  end.

Fixpoint apply_states (c : t) (success : bool)
    (states : list (hash_t * list status_update_state)) : outcome (t * bool) :=
  match states with
  | [] => Ret (c, success)
  | (id, sts) :: states =>
      let success := scan success sts in
      if success then
        let! '(c, ok) := confirm_transaction c id in apply_states c ok states
      else apply_states c false states
  end.

(** [sync]: [res] is the answer of the watchtower in the order of its map; a
    missing answer is dereferenced. *)
Definition sync (res : option (list (hash_t * list status_update_state))) (c : t)
    : outcome (t * bool) :=
  match res with
  | None => Fatal
  | Some states => apply_states c true states
  end.

End Ops.
End atomizer_client.

(** ** Giving up a payment *)

Module client_lemmas.
Import wallet wallet_lemmas client.

Section Release.
Context `{Hasher} `{Secp256k1} `{!Secp256k1Laws}.

(** The coins of the wallet are free: SHA-256 gives them different ids, and no
    pending transaction spends one. *)
Record client_ok (c : client.t) : Prop := {
  ok_wallet : wallet_inv (m_wallet c);
  ok_hashes : NoDup (input_hash <$> m_spend_queue (m_wallet c));
  ok_free : ∀ i, i ∈ m_spend_queue (m_wallet c) →
    m_pending_spend c !! input_hash i = None ∧ check_pending c i = false
}.

Lemma confirm_one w i : coins_ok w → confirm_inputs w [i] = Ret (credit w i).
Proof.
  intros Hw. unfold confirm_inputs, update_balance. cbn [foldl].
  rewrite decide_True; [done|]. by apply coins_ok_size, credit_ok.
Qed.

Lemma release_all inputs : ∀ c,
  coins_ok (m_wallet c) → NoDup (input_hash <$> inputs) →
  (∀ i, i ∈ inputs →
     is_Some (m_pending_spend c !! input_hash i) ∧ check_pending c i = false) →
  release_inputs c inputs =
    Ret (client.mk (foldl credit (m_wallet c) inputs) (m_pending_txs c)
           (foldl (λ m i, delete (input_hash i) m) (m_pending_spend c) inputs)
           (m_pending_inputs c) (m_client_file c) (m_wallet_file c)).
Proof.
  induction inputs as [|i inputs IH]; intros c Hw Hn Hp; [by destruct c|].
  cbn [release_inputs foldl]. rewrite fmap_cons in Hn. apply NoDup_cons in Hn as [Hi Hn].
  destruct (Hp i) as [[x ->] ->]; [left|]. rewrite confirm_one by done. cbn [obind].
  rewrite IH; [done| |done|].
  - by apply credit_ok.
  - intros j Hj. cbn [m_pending_spend]. destruct (Hp j) as [Hs Hc]; [by right|].
    split; [|exact Hc]. rewrite lookup_delete_ne; [done|].
    intros E. apply Hi. rewrite E. by apply list_elem_of_fmap_2.
Qed.

(** Registering fresh inputs and deleting them again. *)
Definition register (m : gmap hash_t input.t) (inputs : list input.t) : gmap hash_t input.t :=
  foldl (λ m i, insert_new (input_hash i) i m) m inputs.

Definition unregister (m : gmap hash_t input.t) (inputs : list input.t) : gmap hash_t input.t :=
  foldl (λ m i, delete (input_hash i) m) m inputs.

Lemma register_keeps inputs : ∀ m h x,
  m !! h = Some x → register m inputs !! h = Some x.
Proof.
  induction inputs as [|i inputs IH]; intros m h x Hm; [done|].
  apply IH. by apply insert_new_keeps.
Qed.

Lemma register_is_Some inputs : ∀ m i,
  i ∈ inputs → is_Some (register m inputs !! input_hash i).
Proof.
  induction inputs as [|j inputs IH]; intros m i Hi; [by apply elem_of_nil in Hi|].
  apply elem_of_cons in Hi as [->|Hi]; [|by apply IH].
  destruct (insert_new_is_Some (input_hash j) j m) as [x Hx]. exists x.
  by apply (register_keeps inputs).
Qed.

Lemma register_other inputs : ∀ m h,
  h ∉ input_hash <$> inputs → register m inputs !! h = m !! h.
Proof.
  induction inputs as [|j inputs IH]; intros m h Hh; [done|].
  rewrite fmap_cons, not_elem_of_cons in Hh. destruct Hh as [Hj Hh].
  unfold register in *. cbn [foldl]. rewrite IH by done. unfold insert_new.
  case_match; [done|]. by apply lookup_insert_ne.
Qed.

Lemma unregister_lookup inputs : ∀ m h,
  unregister m inputs !! h = if decide (h ∈ input_hash <$> inputs) then None else m !! h.
Proof.
  induction inputs as [|j inputs IH]; intros m h.
  { rewrite decide_False; [done|]. apply not_elem_of_nil. }
  unfold unregister in *. cbn [foldl]. rewrite IH, fmap_cons.
  destruct (decide (h = input_hash j)) as [->|Hne].
  - rewrite lookup_delete_eq, (decide_True (P := _ ∈ _ :: _)) by left. by case_decide.
  - rewrite lookup_delete_ne by done. repeat case_decide; try done; set_solver.
Qed.

Lemma unregister_register inputs m :
  (∀ i, i ∈ inputs → m !! input_hash i = None) → unregister (register m inputs) inputs = m.
Proof.
  intros Hf. apply map_eq. intros h. rewrite unregister_lookup. case_decide as Hh.
  - apply list_elem_of_fmap in Hh as (i & -> & Hi). symmetry. by apply Hf.
  - by apply register_other.
Qed.

(** What the coins of a wallet come to, whatever their order. *)
Record same_coins (w w' : wallet.t) : Prop := {
  same_queue : m_spend_queue w' ≡ₚ m_spend_queue w;
  same_set : m_utxos_set w' = m_utxos_set w;
  same_balance : m_balance w' = m_balance w;
  same_wealth : wealth w' = wealth w
}.

Lemma sum_list_Z_perm (l k : list Z) : l ≡ₚ k → sum_list_Z l = sum_list_Z k.
Proof. unfold sum_list_Z. induction 1; cbn; lia. Qed.

(** Crediting the coins of a payment again restores the wallet, up to the
    order of its coins and the key of the change. *)
Lemma credit_back w w' coins :
  wallet_inv w → wallet_inv w' → m_spend_queue w = coins ++ m_spend_queue w' →
  wealth w' = (wealth w - sum_list_Z (value <$> coins))%Z →
  same_coins w (foldl credit w' coins).
Proof.
  intros Hw Hw' Hq Hwealth. destruct (wi_coins w Hw) as [Hn Hs Hb]. pose proof Hn as Hn'.
  rewrite Hq, fmap_app in Hn'. apply NoDup_app in Hn' as (Hnc & Hd & _).
  destruct (credits_fresh coins w') as (Hq' & b & m & q & E); [apply Hw'|done| |].
  { intros i Hi. apply Hd. by apply list_elem_of_fmap_2. }
  destruct (credits_ok w' coins (wi_coins w' Hw')) as [Hnn Hns Hnb].
  assert (m_spend_queue (foldl credit w' coins) ≡ₚ m_spend_queue w) as Hp
    by (rewrite Hq', Hq; apply Permutation_app_comm).
  split; [done| | |].
  - rewrite Hs, Hns. unfold coin_map. apply list_to_map_proper; [|by rewrite Hp].
    by rewrite coin_map_keys.
  - rewrite Hb, Hnb. f_equal. apply sum_list_Z_perm. by rewrite Hp.
  - assert (wealth (foldl credit w' coins) = wealth w' + sum_list_Z (value <$> coins))%Z; [|lia].
    unfold wealth at 1. rewrite Hq', fmap_app, sum_list_Z_app, E. unfold wealth.
    change (seeds_left (set_coins w' b m q)) with (seeds_left w'). wallet_cbn. lia.
Qed.

(** The state after a payment that the sentinel did not confirm. *)
Lemma send_unconfirmed c val payee rnd w tx res :
  send_to (m_wallet c) val payee true rnd = Ret (w, Some tx) →
  (∀ r, res = Some r → m_tx_status r ≠ confirmed) →
  ∃ c' r, send c val payee rnd res = Ret (c', r) ∧
    m_wallet c' = w ∧ m_pending_txs c' = insert_new (tx_id tx) tx (m_pending_txs c) ∧
    m_pending_spend c' = register (m_pending_spend c) (full_tx.m_inputs tx) ∧
    m_pending_inputs c' = m_pending_inputs c.
Proof.
  intros Hs Hr. unfold send, create_transaction. rewrite Hs. cbn [obind].
  unfold send_transaction. destruct res as [r|]; [|by do 2 eexists].
  specialize (Hr r eq_refl). destruct (m_tx_status r); [by do 2 eexists..|done].
Qed.

(** Giving up a pending transaction whose inputs are registered. *)
Lemma abandon_pending c tx :
  coins_ok (m_wallet c) → m_pending_txs c !! tx_id tx = Some tx →
  NoDup (input_hash <$> full_tx.m_inputs tx) →
  (∀ i, i ∈ full_tx.m_inputs tx →
     is_Some (m_pending_spend c !! input_hash i) ∧
     check_pending (client.mk (m_wallet c) (delete (tx_id tx) (m_pending_txs c))
       (m_pending_spend c) (m_pending_inputs c) (m_client_file c) (m_wallet_file c)) i = false) →
  ∃ c', abandon_transaction c (tx_id tx) = Ret (c', true) ∧
    m_wallet c' = foldl credit (m_wallet c) (full_tx.m_inputs tx) ∧
    m_pending_txs c' = delete (tx_id tx) (m_pending_txs c) ∧
    m_pending_spend c' = unregister (m_pending_spend c) (full_tx.m_inputs tx).
Proof.
  intros Hw Ht Hn Hi. unfold abandon_transaction. rewrite Ht, release_all by done.
  cbn [obind]. by eexists.
Qed.

End Release.
End client_lemmas.

(** ** Restarting *)

Module restart_lemmas.
Import wallet wallet_lemmas client wallet_file.

Section SetFormat.
Context {St : Type} `{ReaderLaws St}.

Lemma read_set_spec l : ∀ (s : St) m rest,
  Forall input.wf l → at_bytes s (concat (bytes_of ∘ put_input <$> l) ++ rest) →
  ∃ s', read_set (length l) s m =
      (s', foldl (λ m i, insert_new (input.m_prevout i) i m) m l) ∧ at_bytes s' rest.
Proof.
  induction l as [|i l IH]; intros s m rest Hl Hs; [by exists s|].
  apply Forall_cons in Hl as [Hi Hl]. rewrite fmap_cons in Hs. cbn [concat] in Hs.
  rewrite <- app_assoc in Hs. cbn [length read_set foldl].
  destruct (get_input_roundtrip i s _ Hi Hs) as (s1 & -> & Hs1).
  rewrite (at_bytes_valid _ _ Hs1). cbn [negb]. by apply IH.
Qed.

Lemma foldl_coin_map l :
  NoDup (input.m_prevout <$> l) →
  foldl (λ m i, insert_new (input.m_prevout i) i m) ∅ l = coin_map l.
Proof.
  induction l as [|i l IH] using rev_ind; intros Hn; [done|].
  rewrite fmap_app in Hn. apply NoDup_app in Hn as (Hn & Hd & _).
  assert (input.m_prevout i ∉ input.m_prevout <$> l) as Hi.
  { intros Hin. apply (Hd _ Hin). cbn. left. }
  rewrite foldl_app, IH, coin_map_snoc by done. cbn. unfold insert_new.
  by rewrite (proj2 (coin_map_lookup_None _ _)).
Qed.

Lemma get_set_spec l (s : St) rest :
  Forall input.wf l → NoDup (input.m_prevout <$> l) → (Z.of_nat (length l) < 2 ^ 64)%Z →
  at_bytes s (bytes_of (put_set put_input l) ++ rest) →
  ∃ s', get_set s ∅ = (s', coin_map l) ∧ at_bytes s' rest.
Proof.
  intros Hl Hn Hb Hs. unfold put_set in Hs. rewrite bytes_of_app, <- app_assoc in Hs.
  unfold get_set.
  destruct (get_u64_roundtrip 0%Z (Z.of_nat (length l)) s _ ltac:(unfold is_u64; lia) Hs)
    as (s1 & -> & Hs1).
  rewrite (at_bytes_valid _ _ Hs1). cbn [negb]. rewrite Nat2Z.id.
  rewrite bytes_of_concat, <- list_fmap_compose in Hs1.
  destruct (read_set_spec l s1 ∅ rest Hl Hs1) as (s' & -> & Hs'). exists s'.
  by rewrite foldl_coin_map.
Qed.

End SetFormat.

(** The iteration order is one of the orders of the coins. *)
Lemma set_order_perm queue :
  NoDup (input.m_prevout <$> queue) → set_order (coin_map queue) ≡ₚ queue.
Proof.
  intros Hn. unfold set_order. rewrite merge_sort_Permutation. unfold coin_map.
  rewrite map_to_list_to_map by (by rewrite coin_map_keys).
  rewrite <- list_fmap_compose. unfold compose. cbn. by rewrite list_fmap_id.
Qed.

Lemma coin_map_perm (l k : list input.t) :
  NoDup (input.m_prevout <$> k) → l ≡ₚ k → coin_map l = coin_map k.
Proof.
  intros Hn Hp. unfold coin_map. apply list_to_map_proper; [|by rewrite Hp].
  rewrite coin_map_keys. by rewrite Hp.
Qed.

Lemma foldl_add64 l b :
  foldl (λ b i, add64 b (value i)) (u64 b) l = u64 (b + sum_list_Z (value <$> l)).
Proof.
  revert b. induction l as [|i l IH]; intros b; cbn.
  { by rewrite Z.add_0_r. }
  rewrite u64_add_l, IH. f_equal. unfold sum_list_Z. cbn. lia.
Qed.

Section Restart.
Context `{Hasher} `{Secp256k1}.

(** What fits in the files, with [reads] a bound on the entries of a map. *)
Record storable_wallet (reads : nat) (w : wallet.t) : Prop := {
  sw_coins : coins_ok w;
  sw_inputs : Forall input.wf (m_spend_queue w);
  sw_count : (Z.of_nat (length (m_spend_queue w)) < 2 ^ 63)%Z;
  sw_keys : map_Forall (λ pk sk, length pk = pubkey_len ∧ length sk = 32) (m_keys w);
  sw_key_count : (Z.of_nat (size (m_keys w)) < 2 ^ 63)%Z;
  sw_reads : size (m_keys w) ≤ reads;
  sw_programs : ∀ c pk, m_witness_programs w !! c = Some pk →
    c = get_p2pk_witness_commitment pk ∧ is_Some (m_keys w !! pk)
}.

Lemma load_save reads w0 w :
  storable_wallet reads w →
  let w' := wallet_file.load reads w0 (wallet_file.save w) in
  m_keys w' = m_keys w ∧ m_pubkeys w' = (map_to_list (m_keys w)).*1 ∧
  m_utxos_set w' = m_utxos_set w ∧ m_spend_queue w' ≡ₚ m_spend_queue w ∧
  m_balance w' = m_balance w ∧
  m_witness_programs w' =
    foldl (λ m k, insert_new (get_p2pk_witness_commitment k) k m) ∅ (map_to_list (m_keys w)).*1.
Proof.
  intros [[Hn Hs Hb] Hwf Hc Hk Hkc Hr _]. cbn zeta. unfold wallet_file.load, wallet_file.save.
  rewrite new_file, run_ostream_append. cbn [ostream_serializer.m_str stream_serializer.m_content].
  set (bs := bytes_of (put_unordered_map put_array put_array (m_keys w))).
  rewrite <- (app_nil_r (bytes_of (put_set _ _))).
  pose proof (set_order_perm _ Hn) as Hp. rewrite Hs in *.
  destruct (get_unordered_map_roundtrip (St := istream_serializer.t)
    (λ pk, length pk = pubkey_len) (λ sk, length sk = 32) put_array put_array
    (zeros pubkey_len) (zeros 32) (get_array pubkey_len) (get_array 32) 64 reads ltac:(lia)
    (get_array_roundtrip _ _) (get_array_roundtrip _ _) (m_keys w)
    (istream_serializer.init (bs ++ bytes_of (put_set put_input
       (set_order (coin_map (m_spend_queue w)))) ++ []))
    (bytes_of (put_set put_input (set_order (coin_map (m_spend_queue w)))) ++ []))
    as (s1 & E1 & Hs1); [done|by split; [split; [done|cbn; lia]|]|].
  rewrite E1.
  destruct (get_set_spec (set_order (coin_map (m_spend_queue w))) s1 []) as (s2 & E2 & _).
  - by rewrite Hp.
  - by rewrite Hp.
  - rewrite Hp. lia.
  - done.
  - rewrite E2, (coin_map_perm (set_order _) (m_spend_queue w)) by done. cbn.
    split_and!; try done. change 0%Z with (u64 0) at 1. rewrite foldl_add64, Hb, Z.add_0_l.
    f_equal. apply client_lemmas.sum_list_Z_perm. by rewrite Hp.
Qed.

Lemma programs_of_keys ks k :
  k ∈ ks →
  is_Some (foldl (λ m k, insert_new (get_p2pk_witness_commitment k) k m)
    (∅ : gmap hash_t pubkey_t) ks !! get_p2pk_witness_commitment k).
Proof.
  induction ks as [|k' ks IH] using rev_ind; intros Hk; [by apply elem_of_nil in Hk|].
  rewrite foldl_app. cbn. apply elem_of_app in Hk as [Hk| ->%list_elem_of_singleton].
  - destruct (IH Hk) as [x Hx]. exists x. by apply insert_new_keeps.
  - apply insert_new_is_Some.
Qed.

Record storable (reads : nat) (c : client.t) : Prop := {
  st_wallet : storable_wallet reads (m_wallet c);
  st_txs : map_Forall (λ id tx, length id = hash_size ∧ full_tx.wf tx) (m_pending_txs c);
  st_spend : map_Forall (λ id i, length id = hash_size ∧ input.wf i) (m_pending_spend c);
  st_inputs : map_Forall (λ id i, length id = hash_size ∧ input.wf i) (m_pending_inputs c);
  st_counts : Forall (λ n, (Z.of_nat n < 2 ^ 63)%Z ∧ n ≤ reads)
    [size (m_pending_txs c); size (m_pending_spend c); size (m_pending_inputs c)]
}.

Lemma load_save_state reads c :
  storable reads c →
  load_client_state reads (save_client_state c) =
    Ret (m_pending_txs c, m_pending_inputs c, m_pending_spend c).
Proof.
  intros [_ Ht Hsp Hi Hc]. apply Forall_cons in Hc as [[Ht1 Ht2] Hc].
  apply Forall_cons in Hc as [[Hs1 Hs2] Hc]. apply Forall_cons in Hc as [[Hi1 Hi2] _].
  unfold save_client_state. rewrite new_file, !run_ostream_append.
  cbn [ostream_serializer.m_str stream_serializer.m_content].
  rewrite <- app_assoc, <- (app_nil_r (bytes_of (put_unordered_map _ _ (m_pending_spend c)))).
  unfold load_client_state.
  match goal with |- context [istream_serializer.init ?bs] =>
    assert (at_bytes (istream_serializer.init bs) bs) as Hb0
      by (split; [split; [done|cbn; lia]|done]) end.
  pose proof (get_unordered_map_roundtrip (St := istream_serializer.t)
    (λ id, length id = hash_size) full_tx.wf put_array put_full_tx
    (zeros hash_size) full_tx.dflt (get_array hash_size) get_full_tx 104 reads ltac:(lia)
    (get_array_roundtrip _ _) get_full_tx_roundtrip) as Htx.
  pose proof (get_unordered_map_roundtrip (St := istream_serializer.t)
    (λ id, length id = hash_size) input.wf put_array put_input
    (zeros hash_size) input.dflt (get_array hash_size) get_input 112 reads ltac:(lia)
    (get_array_roundtrip _ _) get_input_roundtrip) as Hin.
  destruct (Htx (m_pending_txs c) _ _ ltac:(done) Hb0) as (s1 & -> & Hb1).
  destruct (Hin (m_pending_inputs c) _ _ ltac:(done) Hb1) as (s2 & -> & Hb2).
  destruct (Hin (m_pending_spend c) _ _ ltac:(done) Hb2) as (s3 & -> & Hb3).
  by rewrite (at_bytes_valid _ _ Hb3).
Qed.

End Restart.
End restart_lemmas.

Section ClientTheorems.
Import wallet wallet_lemmas client client_lemmas.
Context `{Hasher} `{Secp256k1} `{!Secp256k1Laws}.

(** A payment that was not confirmed can be given up without loss.
    Whatever the sentinel answers short of a confirmation, the payment is
    pending, and abandoning it restores the coins, the balance and the
    records of the client; only the key of the change stays. *)
Theorem abandoned_payment_restored c val payee rnd res :
  client_ok c → m_seed_from (m_wallet c) = m_seed_to (m_wallet c) →
  (0 ≤ val ≤ wealth (m_wallet c))%Z → (wealth (m_wallet c) < 2 ^ 64)%Z →
  is_Some (keypair_create (rnd_seckey rnd)) →
  (∀ w tx, send_to (m_wallet c) val payee true rnd = Ret (w, Some tx) →
     m_pending_txs c !! tx_id tx = None) →
  (∀ r, res = Some r → m_tx_status r ≠ confirmed) →
  ∃ c1 r tx c2,
    send c val payee rnd res = Ret (c1, r) ∧
    m_pending_txs c1 = <[tx_id tx := tx]> (m_pending_txs c) ∧
    wealth (m_wallet c1) = (wealth (m_wallet c) - sum_list_Z (input_values tx))%Z ∧
    abandon_transaction c1 (tx_id tx) = Ret (c2, true) ∧
    same_coins (m_wallet c) (m_wallet c2) ∧
    m_pending_txs c2 = m_pending_txs c ∧ m_pending_spend c2 = m_pending_spend c.
Proof.
  intros Hok Hseed Hval Hw Hr Hfresh Hres. pose proof (ok_wallet c Hok) as Hinv.
  destruct (send_to_core (m_wallet c) val payee true rnd Hinv Hval Hw Hr)
    as (w' & tx & seeds & coins & Es & Hinv' & Hi & Hsl & Hq & _ & _ & _ & Hww & _).
  assert (seeds = []) as ->.
  { unfold seeds_left, sub64 in Hsl. rewrite Hseed, Z.sub_diag in Hsl.
    change (Z.to_nat (u64 0)) with 0 in Hsl. destruct seeds; [done|cbn in Hsl; lia]. }
  cbn [app] in Hi.
  destruct (send_unconfirmed c val payee rnd w' tx res Es Hres)
    as (c1 & r & Esend & Hw1 & Ht1 & Hp1 & _).
  specialize (Hfresh w' tx Es). unfold insert_new in Ht1. rewrite Hfresh in Ht1.
  assert (∀ i, i ∈ coins → i ∈ m_spend_queue (m_wallet c)) as Hsub.
  { intros i Hic. rewrite Hq. apply elem_of_app. by left. }
  destruct (abandon_pending c1 tx) as (c2 & Ea & Hw2 & Ht2 & Hp2).
  - rewrite Hw1. apply Hinv'.
  - rewrite Ht1. apply lookup_insert_eq.
  - rewrite Hi. pose proof (ok_hashes c Hok) as Hn. rewrite Hq, fmap_app in Hn.
    by apply NoDup_app in Hn as (Hn & _).
  - intros i Hic. rewrite Hp1. split; [by apply register_is_Some|].
    unfold check_pending. cbn [m_pending_txs]. rewrite Ht1, delete_insert_id by done.
    rewrite Hi in Hic. apply (ok_free c Hok i (Hsub i Hic)).
  - exists c1, r, tx, c2. rewrite Hw1, Hw2, Ht2, Hp2, Hp1, Ht1, Hw1.
    split_and!; [done|done|done|done| | |].
    + rewrite Hi. apply credit_back; [done|done|done|].
      rewrite Hww. unfold input_values. by rewrite Hi.
    + by apply delete_insert_id.
    + apply unregister_register. intros i Hic. rewrite Hi in Hic.
      apply (ok_free c Hok i (Hsub i Hic)).
Qed.

(** C20: A client survives a restart.  A process that starts over the files of
    the last save has the same pending transactions, spends and inputs, the
    same keys, coins and balance, and recognises the same coins as its own;
    only the order in which coins are spent may differ. *)
Theorem client_restart_restores (c : client.t) (reads : nat) :
  restart_lemmas.storable reads c →
  ∃ c', client.init reads (client.save c) = Ret c' ∧
    m_pending_txs c' = m_pending_txs c ∧ m_pending_spend c' = m_pending_spend c ∧
    m_pending_inputs c' = m_pending_inputs c ∧
    m_keys (m_wallet c') = m_keys (m_wallet c) ∧
    m_utxos_set (m_wallet c') = m_utxos_set (m_wallet c) ∧
    m_balance (m_wallet c') = m_balance (m_wallet c) ∧
    m_spend_queue (m_wallet c') ≡ₚ m_spend_queue (m_wallet c) ∧
    ∀ i, is_spendable (m_wallet c) i = true → is_spendable (m_wallet c') i = true.
Proof.
  intros Hst. pose proof (restart_lemmas.st_wallet _ _ Hst) as Hw.
  unfold client.init. cbn [client.save m_client_file m_wallet_file].
  rewrite restart_lemmas.load_save_state by done. cbn [obind]. eexists. split; [done|].
  destruct (restart_lemmas.load_save reads wallet.init (m_wallet c) Hw)
    as (Hk & _ & Hu & Hq & Hb & Hp). cbn [m_wallet m_pending_txs m_pending_spend m_pending_inputs].
  split_and!; try done. intros i Hi. unfold is_spendable in *. apply bool_decide_eq_true_1 in Hi.
  apply bool_decide_eq_true_2. destruct Hi as [pk Hpk].
  destruct (restart_lemmas.sw_programs _ _ Hw _ _ Hpk) as [-> [sk Hsk]]. rewrite Hp.
  apply restart_lemmas.programs_of_keys, list_elem_of_fmap. exists (pk, sk).
  split; [done|]. by apply elem_of_map_to_list.
Qed.

(** What the payee receives of the outputs [l] of one transaction: the first
    one. *)
Lemma import_all l : ∀ c inp,
  Forall (λ i, out_point.m_tx_id (input.m_prevout i) =
     out_point.m_tx_id (input.m_prevout inp) ∧ is_spendable (m_wallet c) i = true) l →
  m_pending_inputs c !! out_point.m_tx_id (input.m_prevout inp) = Some inp →
  ∃ c', foldl import_send_input c l = c' ∧ m_wallet c' = m_wallet c ∧
    m_pending_txs c' = m_pending_txs c ∧ m_pending_inputs c' = m_pending_inputs c.
Proof.
  induction l as [|i l IH]; intros c inp Hl Hp; [by exists c|].
  apply Forall_cons in Hl as [[Hid Hs] Hl]. cbn [foldl].
  assert (m_wallet (import_send_input c i) = m_wallet c ∧
    m_pending_txs (import_send_input c i) = m_pending_txs c ∧
    m_pending_inputs (import_send_input c i) = m_pending_inputs c) as (Hw & Ht & Hi).
  { unfold import_send_input. rewrite Hs. cbn. split_and!; try done.
    unfold insert_new. by rewrite Hid, Hp. }
  destruct (IH (import_send_input c i) inp) as (c' & E & Hw' & Ht' & Hi').
  - by rewrite Hw.
  - by rewrite Hi.
  - exists c'. by rewrite Hw', Ht', Hi'.
Qed.

Lemma receive_first c inp l :
  wallet_inv (m_wallet c) → is_u64 (value inp) →
  Forall (λ i, out_point.m_tx_id (input.m_prevout i) =
     out_point.m_tx_id (input.m_prevout inp) ∧ is_spendable (m_wallet c) i = true)
    (inp :: l) →
  let id := out_point.m_tx_id (input.m_prevout inp) in
  m_pending_inputs c !! id = None → m_pending_txs c !! id = None →
  input.m_prevout inp ∉ input.m_prevout <$> m_spend_queue (m_wallet c) →
  ∃ c', confirm_transaction (foldl import_send_input c (inp :: l)) id = Ret (c', true) ∧
    m_spend_queue (m_wallet c') = m_spend_queue (m_wallet c) ++ [inp] ∧
    wealth (m_wallet c') = (wealth (m_wallet c) + value inp)%Z ∧
    m_pending_inputs c' = m_pending_inputs c.
Proof.
  intros Hinv Hv Hl id Hpi Hpt Hnew. apply Forall_cons in Hl as [[_ Hs] Hl].
  cbn [foldl]. set (c0 := import_send_input c inp).
  assert (m_wallet c0 = m_wallet c ∧ m_pending_txs c0 = m_pending_txs c ∧
    m_pending_inputs c0 = <[id := inp]> (m_pending_inputs c)) as (Hw0 & Ht0 & Hi0).
  { unfold c0, import_send_input. rewrite Hs. cbn. split_and!; try done.
    unfold insert_new. fold id. by rewrite Hpi. }
  destruct (import_all l c0 inp) as (c1 & E & Hw1 & Ht1 & Hi1).
  { by rewrite Hw0. }
  { rewrite Hi0. apply lookup_insert_eq. }
  rewrite E. unfold confirm_transaction, confirm_sent. rewrite Ht1, Ht0, Hpt. cbn [obind].
  unfold confirm_received. rewrite Hi1, Hi0, lookup_insert_eq, Hw1, Hw0.
  rewrite confirm_one by apply Hinv. cbn [obind]. eexists. split; [done|].
  destruct (credits_fresh [inp] (m_wallet c)) as (Hq & b & m & q & Ec).
  { apply Hinv. }
  { apply NoDup_singleton. }
  { by intros i ->%list_elem_of_singleton. }
  cbn [foldl] in Hq, Ec. cbn [save m_wallet m_pending_inputs]. split_and!; [done| |].
  - unfold wealth at 1. rewrite Hq, fmap_app, sum_list_Z_app, Ec. unfold wealth.
    change (seeds_left (set_coins (m_wallet c) b m q)) with (seeds_left (m_wallet c)).
    wallet_cbn. cbn. lia.
  - by apply delete_insert_id.
Qed.

(** The inputs exported for a payee are outputs of the transaction to it. *)
Lemma exported_inputs tx payee :
  Forall (λ i, out_point.m_tx_id (input.m_prevout i) = tx_id tx ∧
     commitment i = get_p2pk_witness_commitment payee ∧
     input.m_prevout_data i ∈ full_tx.m_outputs tx) (export_send_inputs tx payee).
Proof.
  apply Forall_forall. intros i ([n o] & Hin & Hi)%list_elem_of_omap. cbn in Hi.
  case_decide as Hc; [|done]. apply elem_of_lookup_imap in Hin as (k & x & [= -> ->] & Hx).
  unfold input_from_output, input_from_output_with in Hi. rewrite Hx in Hi.
  injection Hi as <-. cbn. split_and!; [done|done|]. by eapply list_elem_of_lookup_2.
Qed.

Lemma exported_payment tx payee o outs :
  full_tx.m_outputs tx = o :: outs →
  output.m_witness_program_commitment o = get_p2pk_witness_commitment payee →
  Forall (λ o, output.m_witness_program_commitment o ≠ get_p2pk_witness_commitment payee) outs →
  export_send_inputs tx payee = [input.mk (out_point.mk (tx_id tx) 0) o].
Proof.
  intros Ho Hc Hn. unfold export_send_inputs. rewrite Ho. cbn [imap].
  unfold input_from_output, input_from_output_with. rewrite Ho. cbn. rewrite decide_True by done.
  f_equal. assert (Forall (λ p : nat * output.t, output.m_witness_program_commitment p.2 ≠
    get_p2pk_witness_commitment payee) (imap (pair ∘ S) outs)) as Hf.
  { apply Forall_forall. intros [n x] (k & y & [= -> ->] & Hy)%elem_of_lookup_imap. cbn.
    by eapply Forall_lookup_1 in Hn. }
  induction Hf as [|p ps Hp _ IH]; [done|]. cbn. by rewrite decide_False.
Qed.

(** C19: A payment arrives.  The sender's transaction exports one input for
    the payee, worth the amount; once the payee's client imports it and learns
    that the transaction was confirmed, the payee owns the amount more and
    nothing is left pending. *)
Theorem payment_reaches_payee (w w' : wallet.t) val payee rnd tx (c : client.t) :
  wallet_inv w → (0 ≤ val ≤ wealth w)%Z → (wealth w < 2 ^ 64)%Z →
  is_Some (keypair_create (rnd_seckey rnd)) →
  send_to w val payee true rnd = Ret (w', Some tx) →
  Forall (λ o, output.m_witness_program_commitment o ≠ get_p2pk_witness_commitment payee)
    (tail (full_tx.m_outputs tx)) →
  wallet_inv (m_wallet c) →
  is_Some (m_witness_programs (m_wallet c) !! get_p2pk_witness_commitment payee) →
  m_pending_inputs c !! tx_id tx = None → m_pending_txs c !! tx_id tx = None →
  Forall (λ i, out_point.m_tx_id (input.m_prevout i) ≠ tx_id tx) (m_spend_queue (m_wallet c)) →
  ∃ inp c',
    export_send_inputs tx payee = [inp] ∧ value inp = val ∧
    confirm_transaction (import_send_input c inp) (tx_id tx) = Ret (c', true) ∧
    wealth (m_wallet c') = (wealth (m_wallet c) + val)%Z ∧
    m_pending_inputs c' = m_pending_inputs c.
Proof.
  intros Hinv Hval Hw Hr Etx Hchange Hc Hkey Hpi Hpt Hq.
  destruct (send_to_core w val payee true rnd Hinv Hval Hw Hr)
    as (w1 & tx1 & seeds & coins & Es & _ & _ & _ & _ & (outs & Ho & _) & _).
  rewrite Etx in Es. injection Es as <- <-. rewrite Ho in Hchange. cbn [tail] in Hchange.
  set (inp := input.mk (out_point.mk (tx_id tx) 0)
                (output.mk (get_p2pk_witness_commitment payee) val)).
  destruct (receive_first c inp []) as (c' & Ec & _ & Hwc & Hpc); try done.
  - cbn. unfold is_u64. lia.
  - constructor; [|constructor]. split; [done|]. by apply bool_decide_eq_true_2.
  - intros (i & Hi & Hin)%list_elem_of_fmap. eapply Forall_forall in Hq; [|exact Hin].
    apply Hq. by rewrite <- Hi.
  - exists inp, c'. split_and!; try done. by apply (exported_payment tx payee _ outs).
Qed.

(** Several outputs of one transaction to one payee, as [fan] makes them, do
    not all arrive: pending inputs are kept by transaction id, so that the
    client drops all but the first one it imports. *)
Theorem fanned_outputs_lost (c : client.t) tx payee inp l :
  export_send_inputs tx payee = inp :: l →
  wallet_inv (m_wallet c) → Forall (λ o, is_u64 (output.m_value o)) (full_tx.m_outputs tx) →
  is_Some (m_witness_programs (m_wallet c) !! get_p2pk_witness_commitment payee) →
  m_pending_inputs c !! tx_id tx = None → m_pending_txs c !! tx_id tx = None →
  input.m_prevout inp ∉ input.m_prevout <$> m_spend_queue (m_wallet c) →
  ∃ c', confirm_transaction (foldl import_send_input c (inp :: l)) (tx_id tx) = Ret (c', true) ∧
    wealth (m_wallet c') = (wealth (m_wallet c) + value inp)%Z ∧
    m_pending_inputs c' = m_pending_inputs c.
Proof.
  intros He Hinv Hv Hkey Hpi Hpt Hnew. pose proof (exported_inputs tx payee) as Hx.
  rewrite He in Hx. pose proof Hx as Hx'. apply Forall_cons in Hx' as [(Hid & Hc & Ho) _].
  destruct (receive_first c inp l) as (c' & Ec & _ & Hw & Hp); rewrite ?Hid; try done.
  - by eapply Forall_forall in Hv.
  - eapply Forall_impl; [exact Hx|]. cbn. intros i (Hi & Hci & _). split; [done|].
    unfold is_spendable. rewrite Hci. by apply bool_decide_eq_true_2.
  - rewrite Hid in Ec. by exists c'.
Qed.

(** One transaction whose first state is not found keeps every transaction
    after it in the answer from being confirmed, whatever their states are. *)
Theorem unconfirmed_tx_blocks_sync (c : client.t) id s sts states :
  atomizer_client.found s = false →
  atomizer_client.sync (Some ((id, s :: sts) :: states)) c = Ret (c, false).
Proof.
  intros Hs. cbn [atomizer_client.sync atomizer_client.apply_states atomizer_client.scan].
  rewrite Hs.
  assert (∀ l, atomizer_client.scan false l = false) as Hscan.
  { intros l. induction l as [|x l IH]; [done|]. cbn. by destruct (atomizer_client.found x). }
  rewrite Hscan. induction states as [|[id' l] states IH]; [done|].
  cbn [atomizer_client.apply_states]. by rewrite Hscan.
Qed.

End ClientTheorems.

Section ClientExamples.
Import Toy wallet wallet_lemmas client client_lemmas.

(** A client with one key and two coins of ten. *)
Definition my_client : client.t := client.mk my_wallet ∅ ∅ ∅ [] [].

Definition their_key : list byte := replicate 32 x05.

Definition their_client : client.t :=
  client.mk (add_key wallet.init their_key their_key) ∅ ∅ ∅ [] [].

Lemma my_client_ok : client_ok my_client.
Proof.
  split; [exact my_wallet_inv| |].
  - cbn [my_client m_wallet]. rewrite my_wallet_queue. compute_decide.
  - intros i _. split; [|reflexivity]. apply lookup_empty.
Qed.

Lemma abandoned_payment_restored_witness :
  ∃ c1 r tx c2,
    send my_client 15 their_key my_rnd None = Ret (c1, r) ∧
    m_pending_txs c1 = <[tx_id tx := tx]> ∅ ∧
    abandon_transaction c1 (tx_id tx) = Ret (c2, true) ∧
    wealth (m_wallet c2) = 20%Z.
Proof.
  destruct (abandoned_payment_restored my_client 15 their_key my_rnd None)
    as (c1 & r & tx & c2 & Hs & Ht & _ & Ha & Hsame & _).
  - exact my_client_ok.
  - reflexivity.
  - cbn [my_client m_wallet]. rewrite my_wallet_wealth. lia.
  - cbn [my_client m_wallet]. rewrite my_wallet_wealth. lia.
  - exact my_rnd_valid.
  - intros w tx _. apply lookup_empty.
  - discriminate.
  - exists c1, r, tx, c2. split; [exact Hs|]. split; [exact Ht|]. split; [exact Ha|].
    rewrite (same_wealth _ _ Hsame). exact my_wallet_wealth.
Defined.

Lemma their_wallet_inv : wallet_inv (m_wallet their_client).
Proof.
  assert (keys_ok wallet.init) as Hk.
  { constructor; cbn; [|  |done].
    - intros c pk Hc. by apply lookup_empty_Some in Hc.
    - intros pk sk Hc. by apply lookup_empty_Some in Hc. }
  destruct (add_key_ok wallet.init their_key (mk_key their_key : @keypair secp) Hk eq_refl)
    as [[Hp Hv Hs] _].
  constructor; [constructor| |constructor|constructor]; try done. constructor.
Qed.

Lemma payment_reaches_payee_witness :
  ∃ tx inp c',
    export_send_inputs tx their_key = [inp] ∧ value inp = 15%Z ∧
    confirm_transaction (import_send_input their_client inp) (tx_id tx) = Ret (c', true) ∧
    wealth (m_wallet c') = 15%Z.
Proof.
  assert (match send_to my_wallet 15 their_key true my_rnd with
    | Ret (_, Some tx) => bool_decide (Forall (λ o, output.m_witness_program_commitment o ≠
        get_p2pk_witness_commitment their_key) (tail (full_tx.m_outputs tx)))
    | _ => false
    end = true) as Hchange by (vm_compute; reflexivity).
  destruct (send_to my_wallet 15 their_key true my_rnd) as [[w' [tx|]]|] eqn:E;
    [|discriminate Hchange..].
  destruct (payment_reaches_payee my_wallet w' 15 their_key my_rnd tx their_client)
    as (inp & c' & He & Hv & Hc & Hw & _).
  - exact my_wallet_inv.
  - rewrite my_wallet_wealth. lia.
  - rewrite my_wallet_wealth. lia.
  - exact my_rnd_valid.
  - exact E.
  - exact (bool_decide_eq_true_1 _ Hchange).
  - exact their_wallet_inv.
  - vm_compute. eexists. reflexivity.
  - apply lookup_empty.
  - apply lookup_empty.
  - constructor.
  - exists tx, inp, c'. split; [exact He|]. split; [exact Hv|]. split; [exact Hc|].
    rewrite Hw. reflexivity.
Defined.

(** The client waits for a coin. *)
Definition waiting_client : client.t :=
  client.mk my_wallet ∅ ∅ {[ replicate 32 x03 := my_coin 5 ]} [] [].

Lemma client_restart_restores_witness :
  ∃ c', client.init 10 (client.save waiting_client) = Ret c' ∧
    m_pending_inputs c' !! replicate 32 x03 = Some (my_coin 5) ∧
    m_balance (m_wallet c') = 20%Z.
Proof.
  destruct (client_restart_restores waiting_client 10) as (c' & Hi & _ & _ & Hp & _ & _ & Hb & _).
  - split.
    + split; cbn [waiting_client m_wallet].
      * apply my_wallet_inv.
      * rewrite my_wallet_queue. repeat constructor; vm_compute; congruence.
      * rewrite my_wallet_queue. reflexivity.
      * apply map_Forall_singleton. split; reflexivity.
      * reflexivity.
      * vm_compute. lia.
      * intros c pk Hc. destruct my_wallet_inv as [_ _ [Hk _ _] _].
        destruct (Hk c pk Hc) as (-> & sk & kp & Hsk & _). split; [reflexivity|]. by exists sk.
    + apply map_Forall_empty.
    + apply map_Forall_empty.
    + apply map_Forall_singleton. split; [reflexivity|].
      repeat split; vm_compute; congruence.
    + repeat constructor; vm_compute; congruence || lia.
  - exists c'. split; [exact Hi|]. rewrite Hp, Hb. split; reflexivity.
Defined.

End ClientExamples.
