(* ===== verification/BlockingQueue.v ===== *)
(** * The blocking queue

    Model of [src/util/common/blocking_queue.hpp], the queue between the
    threads of a node: a buffer and a flag under a mutex, and a condition
    variable on which consumers wait.  The theorems are about any number of
    producers and consumers: items leave in the order they came, and no
    consumer sleeps while there is something for it. *)

From Stdlib Require Import ZArith Lia.
From stdpp Require Import base tactics numbers gmap sets list.
From S2P Require Import Prelude.
Open Scope cbdc_scope.

Module blocking_queue.
Section Queue.
Context {A : Type}.

(** [m_buffer] and [m_wake]. *)
Record t := mk { m_buffer : list A; m_wake : bool }.

Definition init : t := mk [] false.

(** The critical section of [push]; [notify_one] follows outside of it. *)
Definition push (q : t) (item : A) : t := mk (m_buffer q ++ [item]) true.

(** Whether [pop], which holds the mutex, waits: only with an empty buffer,
    and only while the predicate of [m_cv.wait] is false. *)
Definition blocks (q : t) : bool :=
  bool_decide (m_buffer q = []) && negb (m_wake q).

(** The rest of the critical section of [pop]. *)
Definition take_front (q : t) : t * option A :=
  match m_buffer q with
  | [] => (q, None)
  | item :: rest => (mk rest (negb (bool_decide (rest = []))), Some item)
  end.

(** The critical section of [clear]; [notify_all] follows outside of it. *)
Definition clear (q : t) : t := mk [] true.

(** [pop] by a thread that is alone: [None] when it blocks. *)
Definition pop (q : t) : option (t * option A) :=
  if blocks q then None else Some (take_front q).

(** ** Threads

    A thread is idle, waits on the condition variable, was woken and must
    acquire the mutex again, or is about to notify.  The history records what
    was pushed, and what left the queue, popped ([true]) or dropped by
    [clear] ([false]). *)
Record sys := mk_sys {
  s_queue : t;
  s_waiting : gset nat;
  s_woken : gset nat;
  s_notifying : gset nat;
  s_clearing : gset nat;
  s_pushed : list A;
  s_left : list (A * bool)
}.

Definition start : sys := mk_sys init ∅ ∅ ∅ ∅ [] [].

Definition idle (s : sys) (i : nat) : Prop :=
  i ∉ s_waiting s ∧ i ∉ s_woken s ∧ i ∉ s_notifying s ∧ i ∉ s_clearing s.

(** What a [pop] that does not wait does to the history. *)
Definition leave (r : option A) : list (A * bool) :=
  match r with Some x => [(x, true)] | None => [] end.

Inductive step (s : sys) : sys → Prop :=
(** [push]: the critical section, then [notify_one]. *)
| push_locked i x :
    idle s i →
    step s (mk_sys (push (s_queue s) x) (s_waiting s) (s_woken s)
              ({[ i ]} ∪ s_notifying s) (s_clearing s) (s_pushed s ++ [x]) (s_left s))
| notify_one i j :
    i ∈ s_notifying s → j ∈ s_waiting s →
    step s (mk_sys (s_queue s) (s_waiting s ∖ {[ j ]}) ({[ j ]} ∪ s_woken s)
              (s_notifying s ∖ {[ i ]}) (s_clearing s) (s_pushed s) (s_left s))
| notify_nobody i :
    i ∈ s_notifying s → s_waiting s = ∅ →
    step s (mk_sys (s_queue s) (s_waiting s) (s_woken s) (s_notifying s ∖ {[ i ]})
              (s_clearing s) (s_pushed s) (s_left s))
(** [pop] of an idle thread. *)
| pop_waits i :
    idle s i → blocks (s_queue s) = true →
    step s (mk_sys (s_queue s) ({[ i ]} ∪ s_waiting s) (s_woken s) (s_notifying s)
              (s_clearing s) (s_pushed s) (s_left s))
| pop_returns i q r :
    idle s i → blocks (s_queue s) = false → take_front (s_queue s) = (q, r) →
    step s (mk_sys q (s_waiting s) (s_woken s) (s_notifying s) (s_clearing s)
              (s_pushed s) (s_left s ++ leave r))
(** A waiting thread may wake up on its own, and a woken one looks at the
    predicate again. *)
| wake_spurious i :
    i ∈ s_waiting s →
    step s (mk_sys (s_queue s) (s_waiting s ∖ {[ i ]}) ({[ i ]} ∪ s_woken s)
              (s_notifying s) (s_clearing s) (s_pushed s) (s_left s))
| woken_waits i :
    i ∈ s_woken s → m_wake (s_queue s) = false →
    step s (mk_sys (s_queue s) ({[ i ]} ∪ s_waiting s) (s_woken s ∖ {[ i ]})
              (s_notifying s) (s_clearing s) (s_pushed s) (s_left s))
| woken_returns i q r :
    i ∈ s_woken s → m_wake (s_queue s) = true → take_front (s_queue s) = (q, r) →
    step s (mk_sys q (s_waiting s) (s_woken s ∖ {[ i ]}) (s_notifying s)
              (s_clearing s) (s_pushed s) (s_left s ++ leave r))
(** [clear]: the critical section, then [notify_all]. *)
| clear_locked i :
    idle s i →
    step s (mk_sys (clear (s_queue s)) (s_waiting s) (s_woken s) (s_notifying s)
              ({[ i ]} ∪ s_clearing s) (s_pushed s)
              (s_left s ++ ((λ x, (x, false)) <$> m_buffer (s_queue s))))
| notify_all i :
    i ∈ s_clearing s →
    step s (mk_sys (s_queue s) ∅ (s_waiting s ∪ s_woken s) (s_notifying s)
              (s_clearing s ∖ {[ i ]}) (s_pushed s) (s_left s)).

End Queue.
Arguments t : clear implicits.
Arguments sys : clear implicits.
End blocking_queue.

(** ** Invariants *)

Section QueueInvariants.
Context {A : Type}.
Import blocking_queue.

(** The flag covers the buffer; every item that a sleeping consumer could
    take has a thread under way for it, unless somebody is about to wake all;
    a queue that was cleared has no sleepers. *)
Record queue_inv (s : sys A) : Prop := {
  qi_order : s_pushed s = (s_left s).*1 ++ m_buffer (s_queue s);
  qi_wake : m_buffer (s_queue s) ≠ [] → m_wake (s_queue s) = true;
  qi_notified : s_clearing s = ∅ → s_waiting s ≠ ∅ →
    length (m_buffer (s_queue s)) ≤ size (s_woken s) + size (s_notifying s);
  qi_cleared : s_clearing s = ∅ → m_wake (s_queue s) = true →
    m_buffer (s_queue s) = [] → s_waiting s = ∅;
  qi_disjoint : s_waiting s ## s_woken s
}.

Lemma take_front_spec (q q' : t A) r :
  take_front q = (q', r) →
  (m_buffer q = [] ∧ r = None ∧ q' = q) ∨
  ∃ x, r = Some x ∧ m_buffer q = x :: m_buffer q' ∧
    m_wake q' = negb (bool_decide (m_buffer q' = [])).
Proof.
  unfold take_front. destruct q as [[|x l] w]; cbn; intros [= <- <-]; [by left|right].
  by exists x.
Qed.

(** Returning from [pop] keeps the order and the flag. *)
Lemma take_front_order (q q' : t A) r (pushed : list A) left :
  take_front q = (q', r) → pushed = left.*1 ++ m_buffer q →
  (m_buffer q ≠ [] → m_wake q = true) →
  pushed = (left ++ leave r).*1 ++ m_buffer q' ∧
  (m_buffer q' ≠ [] → m_wake q' = true).
Proof.
  intros [(Hb & -> & ->)|(x & -> & Hb & Hw)]%take_front_spec -> Hi; cbn [leave].
  - by rewrite (right_id_L [] (++)).
  - rewrite fmap_app, Hb, <- (assoc_L (++)). split; [done|]. intros Hne.
    rewrite Hw. by rewrite bool_decide_false.
Qed.

Lemma queue_start_inv : queue_inv (start (A := A)).
Proof. split; cbn; set_solver. Qed.

(** A returned [pop] leaves no more to take than before, and a queue that it
    emptied is not marked. *)
Lemma take_front_rest (q q' : t A) r :
  take_front q = (q', r) →
  (m_buffer q' = m_buffer q ∧ m_buffer q = [] ∧ m_wake q' = m_wake q) ∨
  (S (length (m_buffer q')) = length (m_buffer q) ∧
   (m_wake q' = true → m_buffer q' ≠ [])).
Proof.
  intros [(Hb & -> & ->)|(x & -> & Hb & Hw)]%take_front_spec; [by left|right].
  rewrite Hb. split; [done|]. rewrite Hw. by destruct (bool_decide_reflect (m_buffer q' = [])).
Qed.

Lemma blocks_true (q : t A) : blocks q = true → m_buffer q = [] ∧ m_wake q = false.
Proof. unfold blocks. intros H. bools. done. Qed.

Lemma size_add (X : gset nat) i : i ∉ X → size ({[ i ]} ∪ X) = S (size X).
Proof. intros H. rewrite size_union by set_solver. by rewrite size_singleton. Qed.

Lemma size_remove (X : gset nat) i : i ∈ X → S (size (X ∖ {[ i ]})) = size X.
Proof.
  intros H. rewrite <- (size_add (X ∖ {[ i ]}) i) by set_solver.
  f_equal. symmetry. by apply union_difference_singleton_L.
Qed.

(** Moving a thread between two disjoint sets. *)
Lemma moved_disjoint (X Y : gset nat) i : X ## Y → X ∖ {[ i ]} ## {[ i ]} ∪ Y.
Proof. set_solver. Qed.

Lemma wakes_one (s : sys A) j :
  s_waiting s ## s_woken s → j ∈ s_waiting s →
  size ({[ j ]} ∪ s_woken s) = S (size (s_woken s)).
Proof. intros Hd Hj. apply size_add. set_solver. Qed.

(** Only [clear] leaves an empty queue marked. *)
Lemma emptied (s : sys A) (q : t A) :
  (m_buffer q = m_buffer (s_queue s) ∧ m_buffer (s_queue s) = [] ∧
     m_wake q = m_wake (s_queue s)) ∨
  (S (length (m_buffer q)) = length (m_buffer (s_queue s)) ∧
     (m_wake q = true → m_buffer q ≠ [])) →
  (s_clearing s = ∅ → m_wake (s_queue s) = true → m_buffer (s_queue s) = [] →
     s_waiting s = ∅) →
  s_clearing s = ∅ → m_wake q = true → m_buffer q = [] → s_waiting s = ∅.
Proof.
  intros [(Hq & Hb & E)|[_ Hx]] Hc Hcl Hwk Hbf; [|by destruct (Hx Hwk)].
  apply Hc; congruence.
Qed.

Lemma queue_step_inv (s s' : sys A) : queue_inv s → step s s' → queue_inv s'.
Proof.
  intros [Ho Hw Hn Hc Hd] Hs.
  destruct Hs as [i x (_ & _ & Hi & _)|i j Hi Hj|i Hi Hj|i (_ & Hi & _) Hb|i q r _ Hb Ht
    |i Hi|i Hi Hf|i q r Hi Hf Ht|i Hi|i Hi];
    try (pose proof (take_front_order _ _ _ _ _ Ht Ho Hw) as [Ho' Hw'];
         apply take_front_rest in Ht);
    try (apply blocks_true in Hb as [Hb Hb']);
    split; cbn [s_queue s_waiting s_woken s_notifying s_clearing s_pushed s_left] in *;
    try done.
  - rewrite Ho. cbn. by rewrite (assoc_L (++)).
  - intros Hcl Hne. specialize (Hn Hcl Hne). rewrite (size_add _ _ Hi). cbn.
    rewrite length_app. cbn. lia.
  - intros _ _ Hx. cbn in Hx. by destruct (m_buffer (s_queue s)).
  - intros Hcl _. rewrite (wakes_one s j) by done.
    specialize (Hn Hcl (non_empty_inhabited_L _ _ Hj)). pose proof (size_remove _ _ Hi). lia.
  - intros Hcl Hwk Hbf. apply (subseteq_empty_difference_L (C := gset nat)). by rewrite (Hc Hcl Hwk Hbf).
  - by apply moved_disjoint.
  - intros _ _. rewrite Hb. cbn. lia.
  - congruence.
  - clear -Hi Hd. set_solver.
  - intros Hcl Hne. specialize (Hn Hcl Hne). destruct Ht as [(-> & -> & _)|[Ht _]]; cbn; lia.
  - intros Hcl Hwk Hbf. by eapply emptied.
  - intros Hcl _. rewrite (wakes_one s i) by done.
    specialize (Hn Hcl (non_empty_inhabited_L _ _ Hi)). lia.
  - intros Hcl Hwk Hbf. apply (subseteq_empty_difference_L (C := gset nat)). by rewrite (Hc Hcl Hwk Hbf).
  - by apply moved_disjoint.
  - intros _ _. destruct (m_buffer (s_queue s)) eqn:E; [cbn; lia|]. by rewrite Hw in Hf.
  - congruence.
  - symmetry. apply moved_disjoint. by symmetry.
  - intros Hcl Hne. specialize (Hn Hcl Hne). pose proof (size_remove _ _ Hi).
    destruct Ht as [(-> & -> & _)|[Ht _]]; cbn; lia.
  - intros Hcl Hwk Hbf. by eapply emptied.
  - clear -Hd. set_solver.
  - cbn [clear m_buffer]. rewrite Ho, fmap_app, (right_id_L [] (++)), <- list_fmap_compose. f_equal.
    by rewrite list_fmap_id.
  - intros Hx. exfalso. clear -Hx. set_solver.
  - intros Hx. exfalso. clear -Hx. set_solver.
Qed.

Lemma queue_reachable_inv (s : sys A) : rtc step start s → queue_inv s.
Proof.
  intros Hr. pose proof queue_start_inv as Hi. revert Hi.
  induction Hr; eauto using queue_step_inv.
Qed.

(** C33: the queue hands over everything once, in order, and nobody sleeps
    over it.  However pushes, pops, clears and spurious wake-ups of any number
    of threads interleave, the items that left the queue, popped or dropped by
    [clear], followed by those still in it are the pushed ones in their order.
    When no thread is on its way (woken or about to notify), then either no
    consumer waits or there is nothing to take and the queue was not cleared;
    and a consumer that was woken for a buffer with items does not go back to
    sleep. *)
Theorem queue_fifo_no_lost_wakeup (s : sys A) :
  rtc step start s →
  s_pushed s = (s_left s).*1 ++ m_buffer (s_queue s) ∧
  (s_woken s = ∅ → s_notifying s = ∅ → s_clearing s = ∅ →
     s_waiting s = ∅ ∨ m_buffer (s_queue s) = [] ∧ m_wake (s_queue s) = false) ∧
  (m_buffer (s_queue s) ≠ [] → blocks (s_queue s) = false ∧ m_wake (s_queue s) = true).
Proof.
  intros [Ho Hw Hn Hc _]%queue_reachable_inv. split; [done|]. split.
  - intros Ew En Ec. destruct (decide (s_waiting s = ∅)) as [|Hne]; [by left|right].
    specialize (Hn Ec Hne). rewrite Ew, En, size_empty in Hn.
    assert (m_buffer (s_queue s) = []) as Hb by (apply nil_length_inv; lia).
    split; [done|]. destruct (m_wake (s_queue s)) eqn:E; [|done]. by destruct Hne; apply Hc.
  - intros Hb. split; [|by apply Hw]. unfold blocks. by rewrite bool_decide_false.
Qed.

(** The documentation of [pop] says that it blocks while the queue is empty.
    Once the queue was cleared it does not: every [pop] returns at once,
    without an item and without a change, until something is pushed.  The
    sending thread of a peer, which calls [pop] in a loop, spins after a
    reconnection until the next packet. *)
Theorem cleared_queue_never_blocks (q : t A) n :
  Nat.iter n (λ r, match r with Some (q, _) => pop q | None => None end)
    (pop (clear q)) = Some (clear q, None).
Proof. induction n as [|n IH]; [done|]. rewrite Nat.iter_succ, IH. done. Qed.

End QueueInvariants.

(** ** Examples *)

Section QueueExamples.
Import blocking_queue.

Lemma idle_of (s : sys nat) i :
  bool_decide (i ∉ s_waiting s ∧ i ∉ s_woken s ∧ i ∉ s_notifying s ∧ i ∉ s_clearing s)
    = true → idle s i.
Proof. apply bool_decide_eq_true_1. Qed.

(** Thread 1 waits; thread 2 pushes and notifies it; thread 1 returns. *)
Definition handover : sys nat :=
  mk_sys (mk [] false) (({[ 1 ]} ∪ ∅) ∖ {[ 1 ]}) (({[ 1 ]} ∪ ∅) ∖ {[ 1 ]})
    (({[ 2 ]} ∪ ∅) ∖ {[ 2 ]}) ∅ [10] [(10, true)].

Lemma handover_reachable : rtc step start handover.
Proof.
  eapply rtc_l; [apply (pop_waits _ 1); [by apply idle_of|reflexivity]|].
  eapply rtc_l; [apply (push_locked _ 2 10); by apply idle_of|].
  eapply rtc_l; [apply (notify_one _ 2 1); cbn; set_solver|].
  eapply rtc_l; [eapply (woken_returns _ 1); [cbn; set_solver|reflexivity|reflexivity]|].
  apply rtc_refl.
Qed.

Lemma queue_fifo_no_lost_wakeup_witness :
  s_pushed handover = (s_left handover).*1 ++ m_buffer (s_queue handover).
Proof. exact (proj1 (queue_fifo_no_lost_wakeup handover handover_reachable)). Defined.

End QueueExamples.
