(* ===== verification/Network.v ===== *)
(** * The network

    Models of [src/util/network]: the framing of packets on a byte stream
    ([tcp_socket.cpp]), the connection to one peer with its queue and its
    reconnection ([peer.cpp]), and the peers of a node with the queues of
    received packets ([connection_manager.cpp]).  What the operating system
    does is an argument: how much each [write] and [read] transfers, and
    whether a connection attempt succeeds. *)

From Stdlib Require Import ZArith Lia.
From Stdlib.Strings Require Import Byte.
From stdpp Require Import base tactics numbers gmap sets list.
From S2P Require Import Prelude Text Config BlockingQueue.
Open Scope cbdc_scope.

(** ** Sockets *)

Module tcp_socket.

(** A packet is the contents of a [buffer]; no descriptor is -1. *)
Abbreviation packet := (list byte) (only parsing).

Record t := mk {
  m_addr : option (list byte);
  m_port : Z;
  m_connected : bool;
  m_sock_fd : Z
}.

Definition init : t := mk None 0 false (-1).

(** What becomes of one resolved address: [create_socket] fails, [::connect]
    fails, or the descriptor is connected. *)
Inductive candidate := no_socket | refused | reached (fd : Z).

(** The loop of [connect] over the resolved addresses. *)
Fixpoint try_candidates (fd : Z) (cs : list candidate) : Z :=
  match cs with
  | [] => fd
  | no_socket :: cs | refused :: cs => try_candidates (-1) cs
  | reached fd' :: _ => fd'
  end.

(** [connect]; [res0] is [None] when the address does not resolve. *)
Definition connect (s : t) (remote_address : list byte) (remote_port : Z)
    (res0 : option (list candidate)) : t * bool :=
  match res0 with
  | None => (mk (Some remote_address) remote_port (m_connected s) (m_sock_fd s), false)
  | Some cs =>
      let fd := try_candidates (m_sock_fd s) cs in
      let connected := negb (fd =? -1)%Z in
      (mk (Some remote_address) remote_port connected fd, connected)
  end.

Definition disconnect (s : t) : t :=
  if (m_sock_fd s =? -1)%Z then s else mk (m_addr s) (m_port s) false (-1).

Definition reconnect (s : t) (res0 : option (list candidate)) : t * bool :=
  let s := disconnect s in
  match m_addr s with
  | None => (s, false)
  | Some addr => connect s addr (m_port s) res0
  end.

Definition connected (s : t) : bool := m_connected s.

(** *** Sending

    The operating system's answers to [write]: the [i]-th call fails, or
    transfers as many bytes as it likes, at least one and at most what it is
    asked for. *)
Fixpoint write_all (os : nat → option nat) (i fuel : nat) (data : list byte)
    : nat * list byte * bool :=
  match fuel, data with
  | _, [] => (i, [], true)
  | O, _ => (i, [], false)
  | S fuel, _ =>
      match os i with
      | None => (S i, [], false)
      | Some k =>
          let n := S k `min` length data in
          let '(j, out, ok) := write_all os (S i) fuel (drop n data) in
          (j, take n data ++ out, ok)
      end
  end.

(** [send]: the size, then the data.  The result is what went out, and
    whether it was everything. *)
Definition send (os : nat → option nat) (pkt : packet) : list byte * bool :=
  let sz_arr := le_bytes 8 (Z.of_nat (length pkt)) in
  let '(i, out1, ok1) := write_all os 0 (length sz_arr) sz_arr in
  if negb ok1 then (out1, false) else
  let '(_, out2, ok2) := write_all os i (length pkt) pkt in
  (out1 ++ out2, ok2).

(** *** Receiving

    [stream] is what arrives until the connection ends; a [read] returns as
    much of it as the operating system likes, at least one byte, and zero at
    the end. *)
Fixpoint read_exact (os : nat → nat) (i n : nat) (fuel : nat) (stream : list byte)
    : option (nat * list byte * list byte) :=
  match n, fuel with
  | O, _ => Some (i, [], stream)
  | _, O => None
  | _, S fuel =>
      match stream with
      | [] => None
      | _ =>
          let k := S (os i) `min` n `min` length stream in
          '(j, data, rest) ← read_exact os (S i) (n - k) fuel (drop k stream);
          Some (j, take k stream ++ data, rest)
      end
  end.

(** [receive]: [None] when it returns false; the vector for a size no
    allocator serves throws. *)
Definition receive (os : nat → nat) (i : nat) (stream : list byte)
    : outcome (option (nat * packet * list byte)) :=
  match read_exact os i 8 8 stream with
  | None => Ret None
  | Some (i, sz_buf, stream) =>
      let pkt_sz := le_val sz_buf in
      let! _ := alloc 1 pkt_sz in
      Ret (read_exact os i (Z.to_nat pkt_sz) (Z.to_nat pkt_sz) stream)
  end.

(** The threads of a peer: sending packets until one fails, and receiving
    until a receive fails. *)
Fixpoint send_packets (os : nat → nat → option nat) (n : nat) (pkts : list packet)
    : list byte * bool :=
  match pkts with
  | [] => ([], true)
  | pkt :: pkts =>
      let (out, ok) := send (os n) pkt in
      if ok : bool then let (out', ok') := send_packets os (S n) pkts in (out ++ out', ok')
      else (out, false)
  end.

Fixpoint receive_packets (os : nat → nat) (i fuel : nat) (stream : list byte)
    : outcome (list packet) :=
  match fuel with
  | O => Ret []
  | S fuel =>
      let! res := receive os i stream in
      match res with
      | None => Ret []
      | Some (i, pkt, stream) =>
          let! pkts := receive_packets os i fuel stream in
          Ret (pkt :: pkts)
      end
  end.

End tcp_socket.

(** ** Listening *)

Module tcp_listener.

(** What becomes of one resolved address: no socket, or one that cannot be
    reused, bound or listened on (and is closed), or a listening one. *)
Inductive candidate := no_socket | no_sockopts | not_bound | not_listening | listening (fd : Z).

(** The loop of [listen]; a failure leaves -1 as the descriptor. *)
Fixpoint try_candidates (fd : Z) (cs : list candidate) : Z :=
  match cs with
  | [] => fd
  | listening fd' :: _ => fd'
  | _ :: cs => try_candidates (-1) cs
  end.

(** The state of a listener is its descriptor. *)
Definition listen (m_sock_fd : Z) (res0 : option (list candidate)) : Z * bool :=
  match res0 with
  | None => (m_sock_fd, false)
  | Some cs => let fd := try_candidates m_sock_fd cs in (fd, negb (fd =? -1)%Z)
  end.

(** [accept] sets the descriptor of the socket and nothing else. *)
Definition accept (sock : tcp_socket.t) (fd : Z) : tcp_socket.t * bool :=
  (tcp_socket.mk (tcp_socket.m_addr sock) (tcp_socket.m_port sock)
     (tcp_socket.m_connected sock) fd, negb (fd =? -1)%Z).

Definition close (m_sock_fd : Z) : Z := -1.

End tcp_listener.

Module socket_selector.

Record t := mk { m_fds : gset Z; m_fd_max : Z; m_unblock_fds : Z * Z }.

Definition fresh : t := mk ∅ (-1) (-1, -1)%Z.

(** The size of a set of descriptors. *)
Definition FD_SETSIZE : Z := 1024.

Definition add (s : t) (fd : Z) : t * bool :=
  if (FD_SETSIZE <=? fd)%Z then (s, false)
  else (mk ({[ fd ]} ∪ m_fds s) (Z.max (m_fd_max s) fd) (m_unblock_fds s), true).

(** [init]; [pipe] is the new pipe, if there is one. *)
Definition init (s : t) (pipe : option (Z * Z)) : t * bool :=
  match pipe with
  | None => (s, false)
  | Some p => add (mk (m_fds s) (m_fd_max s) p) p.1
  end.

(** [wait], given the descriptors the operating system found ready among the
    ones it looked at. *)
Definition wait (s : t) (ready : gset Z) : bool :=
  let m_ready_fds := filter (λ fd, fd ≤ m_fd_max s)%Z (ready ∩ m_fds s) in
  if decide ((m_unblock_fds s).1 ∈ m_ready_fds) then false
  else (0 <? Z.of_nat (size m_ready_fds))%Z.

End socket_selector.

(** ** One peer *)

Module peer.

Record t := mk {
  m_sock : tcp_socket.t;
  m_send_queue : blocking_queue.t (list byte);
  m_reconnect : bool;
  m_attempt_reconnect : bool;
  m_running : bool;
  m_shut_down : bool
}.

(** The constructor, which also starts the threads. *)
Definition init (sock : tcp_socket.t) (attempt_reconnect : bool) : t :=
  mk sock blocking_queue.init false attempt_reconnect true false.

Definition set_queue (p : t) (q : blocking_queue.t (list byte)) : t :=
  mk (m_sock p) q (m_reconnect p) (m_attempt_reconnect p) (m_running p) (m_shut_down p).

Definition send (p : t) (data : list byte) : t :=
  if m_shut_down p then p else set_queue p (blocking_queue.push (m_send_queue p) data).

(** [close]; the joined threads leave no state. *)
Definition close (p : t) : t :=
  mk (tcp_socket.disconnect (m_sock p)) (blocking_queue.clear (m_send_queue p))
    (m_reconnect p) (m_attempt_reconnect p) false (m_shut_down p).

Definition shutdown (p : t) : t :=
  close (mk (m_sock p) (m_send_queue p) (m_reconnect p) (m_attempt_reconnect p)
           (m_running p) true).

Definition connected (p : t) : bool :=
  negb (m_shut_down p) && m_running p && tcp_socket.connected (m_sock p).

Definition signal_reconnect (p : t) : t :=
  mk (m_sock p) (m_send_queue p) true (m_attempt_reconnect p) (m_running p) (m_shut_down p).

(** One pass of the loop of the sending thread: what it writes and whether
    the thread goes on; [None] when it waits for a packet. *)
Definition do_send (os : nat → option nat) (p : t) : option (t * list byte * bool) :=
  if negb (m_running p) then Some (p, [], false) else
  match blocking_queue.pop (m_send_queue p) with
  | None => None
  | Some (q, None) => Some (set_queue p q, [], true)
  | Some (q, Some pkt) =>
      let (out, ok) := tcp_socket.send os pkt in
      if ok : bool then Some (set_queue p q, out, true)
      else Some (signal_reconnect (set_queue p q), out, false)
  end.

(** One pass of the loop of the receiving thread: the packet for [m_recv_cb],
    or the end of the thread. *)
Definition do_recv (os : nat → nat) (i : nat) (p : t) (stream : list byte)
    : outcome (t * option (nat * list byte * list byte)) :=
  if negb (m_running p) then Ret (p, None) else
  let! res := tcp_socket.receive os i stream in
  match res with
  | None => Ret (signal_reconnect p, None)
  | Some r => Ret (p, Some r)
  end.

(** The attempts to reconnect; [None] when none has succeeded yet. *)
Fixpoint retry (s : tcp_socket.t) (answers : list (option (list tcp_socket.candidate)))
    : option tcp_socket.t :=
  match answers with
  | [] => None
  | res0 :: answers =>
      let (s', ok) := tcp_socket.reconnect s res0 in
      if ok : bool then Some s' else retry s' answers
  end.

(** One pass of the loop of the reconnecting thread, once it was signalled
    and while nobody shuts the peer down. *)
Definition do_reconnect (p : t) (answers : list (option (list tcp_socket.candidate)))
    : option t :=
  let p := mk (m_sock p) (m_send_queue p) false (m_attempt_reconnect p) (m_running p)
             (m_shut_down p) in
  if m_shut_down p then Some p
  else if m_attempt_reconnect p then
    let p := close p in
    s ← retry (m_sock p) answers;
    Some (mk s (m_send_queue p) (m_reconnect p) (m_attempt_reconnect p) true (m_shut_down p))
  else
    let p := close (mk (m_sock p) (m_send_queue p) (m_reconnect p) (m_attempt_reconnect p)
                      (m_running p) true) in
    Some (set_queue p (blocking_queue.clear (m_send_queue p))).

End peer.

(** ** All peers of a node *)

Module connection_manager.

Record message_t := { m_pkt : list byte; m_peer_id : Z }.

(** Receive queues are found by the index the callback of a peer captured. *)
Record t := mk {
  m_peers : list (Z * peer.t);
  m_next_peer_id : Z;
  m_running : bool;
  m_async_recv_queues : list (list message_t);
  m_async_recv_data : bool
}.

Definition init : t := mk [] 0 true [] false.

Definition set_peers (c : t) (peers : list (Z * peer.t)) : t :=
  mk peers (m_next_peer_id c) (m_running c) (m_async_recv_queues c) (m_async_recv_data c).

(** [add]: the new peer's id, and the index of its queue. *)
Definition add (c : t) (sock : tcp_socket.t) (attempt_reconnect : bool) : t * (Z * nat) :=
  let peer_id := m_next_peer_id c in
  let queues := m_async_recv_queues c ++ [[]] in
  let q_idx := length queues - 1 in
  let peers :=
    if m_running c then m_peers c ++ [(peer_id, peer.init sock attempt_reconnect)]
    else m_peers c in
  (mk peers (add64 (m_next_peer_id c) 1) (m_running c) queues (m_async_recv_data c),
   (peer_id, q_idx)).

(** The callback of a peer. *)
Definition recv_cb (c : t) (q_idx : nat) (peer_id : Z) (pkt : list byte) : outcome t :=
  let! q := at_index (m_async_recv_queues c) q_idx in
  Ret (mk (m_peers c) (m_next_peer_id c) (m_running c)
         (<[ q_idx := q ++ [{| m_pkt := pkt; m_peer_id := peer_id |}] ]>
            (m_async_recv_queues c)) true).

(** The loop of [handle_messages]: the first packet of every queue. *)
Definition heads (queues : list (list message_t)) : list message_t := omap head queues.

(** [handle_messages]; [None] while it waits. *)
Definition handle_messages (c : t) : option (t * list message_t) :=
  if m_running c && negb (m_async_recv_data c) then None else
  let queues := tail <$> m_async_recv_queues c in
  Some (mk (m_peers c) (m_next_peer_id c) (m_running c) queues
          (existsb (λ q, negb (bool_decide (q = []))) queues),
        heads (m_async_recv_queues c)).

Definition broadcast (c : t) (data : list byte) : t :=
  set_peers c ((λ p, (p.1, peer.send p.2 data)) <$> m_peers c).

(** [send]: the first peer with the id. *)
Fixpoint send_first (peers : list (Z * peer.t)) (data : list byte) (peer_id : Z)
    : list (Z * peer.t) :=
  match peers with
  | [] => []
  | p :: peers =>
      if (p.1 =? peer_id)%Z then (p.1, peer.send p.2 data) :: peers
      else p :: send_first peers data peer_id
  end.

Definition send (c : t) (data : list byte) (peer_id : Z) : t :=
  set_peers c (send_first (m_peers c) data peer_id).

(** [send_to_one]: peers are tried from a random place on. *)
Fixpoint choose_peer (peers : list (Z * peer.t)) (offset i fuel : nat) : option nat :=
  match fuel with
  | O => None
  | S fuel =>
      let idx := (i + offset) `mod` length peers in
      match peers !! idx with
      | Some p => if peer.connected p.2 then Some idx
                  else choose_peer peers offset (S i) fuel
      | None => choose_peer peers offset (S i) fuel
      end
  end.

Definition send_to_one (c : t) (offset : nat) (data : list byte) : t * bool :=
  match choose_peer (m_peers c) offset 0 (length (m_peers c)) with
  | Some idx =>
      (set_peers c (alter (λ p, (p.1, peer.send p.2 data)) idx (m_peers c)), true)
  | None => (c, false)
  end.

Definition peer_count (c : t) : nat := length (m_peers c).

Definition connected (c : t) (peer_id : Z) : bool :=
  match list_find (λ p, p.1 = peer_id) (m_peers c) with
  | Some (_, p) => peer.connected p.2
  | None => false
  end.

Definition connected_to_one (c : t) : bool := existsb (λ p, peer.connected p.2) (m_peers c).

Definition close (c : t) : t :=
  mk [] (m_next_peer_id c) false (m_async_recv_queues c) (m_async_recv_data c).

Definition reset (c : t) : t := mk (m_peers (close c)) 0 true [] false.

(** [cluster_connect]; the answers of the operating system per endpoint. *)
Fixpoint cluster_connect (c : t)
    (endpoints : list (config.endpoint_t * option (list tcp_socket.candidate)))
    (error_fatal : bool) : t * bool :=
  match endpoints with
  | [] => (c, true)
  | (ep, res0) :: endpoints =>
      let (sock, ok) := tcp_socket.connect tcp_socket.init ep.1 ep.2 res0 in
      if negb ok && error_fatal then (c, false)
      else cluster_connect (add c sock true).1 endpoints error_fatal
  end.

(** [listen], on the listener and the selector of the manager. *)
Definition listen (m_listener : Z) (m_listen_selector : socket_selector.t)
    (res0 : option (list tcp_listener.candidate)) (pipe : option (Z * Z))
    : Z * socket_selector.t * bool :=
  let (m_listener, ok) := tcp_listener.listen m_listener res0 in
  if negb ok then (m_listener, m_listen_selector, false) else
  let (sel, ok) := socket_selector.init m_listen_selector pipe in
  if negb ok then (m_listener, sel, false) else
  let (sel, ok) := socket_selector.add sel m_listener in
  (m_listener, sel, ok).

(** One pass of the loop of [pump]: nothing when the selector was unblocked,
    otherwise the accepted socket becomes a peer; the second result is
    whether the loop goes on. *)
Definition pump (c : t) (sel : socket_selector.t) (ready : gset Z) (fd : Z) : t * bool :=
  if negb (socket_selector.wait sel ready) then (c, true) else
  let (sock, ok) := tcp_listener.accept tcp_socket.init fd in
  if ok : bool then ((add c sock false).1, true) else (c, false).

(** One pass of the loop of [start_handler]: a batch of packets is handled in
    order, and answers go to the peers the packets came from. *)
Section Handler.
Context {S : Type}.
Variable handler : S → message_t → S * option (list byte).

Fixpoint handle_batch (c : t) (s : S) (pkts : list message_t) : t * S :=
  match pkts with
  | [] => (c, s)
  | pkt :: pkts =>
      let (s', res) := handler s pkt in
      let c := match res with Some r => send c r (m_peer_id pkt) | None => c end in
      handle_batch c s' pkts
  end.

Definition start_handler (c : t) (s : S) : option (t * S) :=
  if negb (m_running c) then Some (c, s) else
  '(c, pkts) ← handle_messages c;
  Some (handle_batch c s pkts).
End Handler.

End connection_manager.

(** ** Framing *)

Section Framing.
Import tcp_socket.

(** What [send] is meant to put on the stream. *)
Definition frame (pkt : list byte) : list byte :=
  le_bytes 8 (Z.of_nat (length pkt)) ++ pkt.

Lemma write_all_spec os fuel : ∀ i data j out ok,
  length data ≤ fuel → write_all os i fuel data = (j, out, ok) →
  if ok : bool then out = data else ∃ rest, data = out ++ rest ∧ rest ≠ [].
Proof.
  induction fuel as [|fuel IH]; intros i data j out ok Hf E.
  - destruct data; [|cbn in Hf; lia]. by injection E as <- <- <-.
  - destruct data as [|b data]; [by injection E as <- <- <-|]. cbn [write_all] in E.
    destruct (os i) as [k|].
    + set (l := b :: data) in *. set (n := S k `min` length l) in *.
      destruct (write_all os (S i) fuel (drop n l)) as [[j' out'] ok'] eqn:E'.
      assert (out = take n l ++ out' ∧ ok = ok') as [-> ->] by (split; congruence). clear E.
      apply IH in E'; [|rewrite length_drop; subst n l; cbn in *; lia].
      destruct ok'.
      * rewrite E'. apply take_drop.
      * destruct E' as (rest & Hr & Hne). exists rest. split; [|done].
        rewrite <- (assoc_L (++)), <- Hr. symmetry. apply take_drop.
    + injection E as <- <- <-. by eexists.
Qed.

Lemma send_spec os pkt out ok :
  send os pkt = (out, ok) →
  if ok : bool then out = frame pkt else ∃ rest, frame pkt = out ++ rest ∧ rest ≠ [].
Proof.
  unfold send. destruct (write_all os 0 _ _) as [[i out1] ok1] eqn:E1.
  apply write_all_spec in E1; [|done]. destruct ok1; cbn [negb].
  - destruct (write_all os i _ _) as [[j out2] ok2] eqn:E2. intros [= <- <-].
    apply write_all_spec in E2; [|done]. unfold frame. rewrite <- E1. destruct ok2.
    + by rewrite E2.
    + destruct E2 as (rest & Hr & Hne). exists rest. by rewrite <- (assoc_L (++)), <- Hr.
  - intros [= <- <-]. destruct E1 as (rest & Hr & Hne). unfold frame. rewrite Hr.
    exists (rest ++ pkt). rewrite (assoc_L (++)). split; [done|]. by destruct rest.
Qed.

(** The stream is always the beginning of the frames. *)
Lemma send_packets_spec os pkts : ∀ n out ok,
  send_packets os n pkts = (out, ok) →
  if ok : bool then out = concat (frame <$> pkts)
  else ∃ rest, concat (frame <$> pkts) = out ++ rest.
Proof.
  induction pkts as [|pkt pkts IH]; intros n out ok E; cbn in E; [by injection E as <- <-|].
  destruct (send (os n) pkt) as [o1 ok1] eqn:E1. apply send_spec in E1.
  destruct ok1.
  - destruct (send_packets os (S n) pkts) as [o2 ok2] eqn:E2. injection E as <- <-.
    apply IH in E2. subst o1. destruct ok2; [by rewrite E2|].
    destruct E2 as (rest & Hr). exists rest. rewrite fmap_cons. cbn [concat].
    by rewrite Hr, (assoc_L (++)).
  - injection E as <- <-. destruct E1 as (rest & Hr & _). rewrite fmap_cons. cbn [concat].
    rewrite Hr. exists (rest ++ concat (frame <$> pkts)). by rewrite (assoc_L (++)).
Qed.

Lemma read_exact_ok os fuel : ∀ i n stream,
  n ≤ length stream → n ≤ fuel →
  ∃ j, read_exact os i n fuel stream = Some (j, take n stream, drop n stream).
Proof.
  induction fuel as [|fuel IH]; intros i n stream Hn Hf.
  - replace n with 0 by lia. exists i. by rewrite take_0.
  - destruct n as [|n]; [exists i; by rewrite take_0|]. destruct stream as [|b stream]; [cbn in Hn; lia|].
    cbn [read_exact]. set (l := b :: stream) in *. set (k := S (os i) `min` S n `min` length l).
    assert (1 ≤ k ≤ S n ∧ k ≤ length l) as [Hk Hl] by (subst k l; cbn in *; lia).
    destruct (IH (S i) (S n - k) (drop k l)) as [j E]; [rewrite length_drop; lia|lia|].
    rewrite E. exists j. cbn [mbind option_bind]. rewrite drop_drop.
    replace (k + (S n - k)) with (S n) by lia. do 2 f_equal. f_equal.
    rewrite take_take_drop. by replace (k + (S n - k)) with (S n) by lia.
Qed.

Lemma read_exact_short os fuel : ∀ i n stream,
  length stream < n → read_exact os i n fuel stream = None.
Proof.
  induction fuel as [|fuel IH]; intros i n stream Hn; (destruct n as [|n]; [lia|]); [done|].
  destruct stream as [|b stream]; [done|]. cbn [read_exact].
  rewrite IH; [done|]. rewrite length_drop. cbn in *. lia.
Qed.

Definition sendable (pkt : list byte) : Prop := (Z.of_nat (length pkt) < 2 ^ 63)%Z.

Lemma receive_frame os i pkt rest :
  sendable pkt → ∃ j, receive os i (frame pkt ++ rest) = Ret (Some (j, pkt, rest)).
Proof.
  intros Hs. unfold receive, frame. rewrite <- (assoc_L (++)).
  destruct (read_exact_ok os 8 i 8 (le_bytes 8 (Z.of_nat (length pkt)) ++ pkt ++ rest))
    as [j ->]; [rewrite length_app, length_le_bytes; lia|lia|].
  rewrite take_app_length', drop_app_length' by (by rewrite length_le_bytes).
  rewrite le_val_bytes_u64 by (unfold is_u64, sendable in *; lia).
  unfold alloc. rewrite Z.div_1_r, (proj2 (Z.ltb_ge _ _)) by (unfold sendable in Hs; lia).
  cbn [obind]. rewrite Nat2Z.id.
  destruct (read_exact_ok os (length pkt) j (length pkt) (pkt ++ rest))
    as [j' ->]; [rewrite length_app; lia|lia|].
  rewrite take_app_length, drop_app_length. by exists j'.
Qed.

Lemma receive_cut os i pkt s rest :
  sendable pkt → frame pkt = s ++ rest → rest ≠ [] → receive os i s = Ret None.
Proof.
  intros Hs E Hne. unfold receive.
  assert (length (frame pkt) = length s + length rest) as Hl by (by rewrite E, length_app).
  unfold frame in Hl. rewrite length_app, length_le_bytes in Hl.
  assert (0 < length rest) by (destruct rest; [done|cbn; lia]).
  destruct (decide (length s < 8)) as [Hlt|Hge]; [by rewrite read_exact_short|].
  destruct (read_exact_ok os 8 i 8 s) as [j ->]; [lia|lia|].
  assert (take 8 s = le_bytes 8 (Z.of_nat (length pkt))) as ->.
  { apply (f_equal (take 8)) in E. unfold frame in E.
    rewrite take_app_length' in E by (by rewrite length_le_bytes).
    by rewrite E, take_app_le by lia. }
  rewrite le_val_bytes_u64 by (unfold is_u64, sendable in *; lia).
  unfold alloc. rewrite Z.div_1_r, (proj2 (Z.ltb_ge _ _)) by (unfold sendable in Hs; lia).
  cbn [obind]. rewrite Nat2Z.id, read_exact_short; [done|]. rewrite length_drop. lia.
Qed.

Lemma receive_nothing os i : receive os i [] = Ret None.
Proof. done. Qed.

Lemma receive_packets_spec os pkts : ∀ i fuel s rest,
  Forall sendable pkts → concat (frame <$> pkts) = s ++ rest → length s < fuel →
  ∃ qs, receive_packets os i fuel s = Ret qs ∧ qs `prefix_of` pkts ∧
    (rest = [] → qs = pkts).
Proof.
  induction pkts as [|pkt pkts IH]; intros i fuel s rest Hs E Hf.
  - symmetry in E. apply app_nil in E as [-> ->]. exists []. split; [by destruct fuel|done].
  - apply Forall_cons in Hs as [Hp Hs]. rewrite fmap_cons in E. cbn [concat] in E.
    destruct fuel as [|fuel]; [lia|].
    assert (∀ k, s = frame pkt ++ k → concat (frame <$> pkts) = k ++ rest →
      ∃ qs, receive_packets os i (S fuel) s = Ret qs ∧ qs `prefix_of` pkt :: pkts ∧
        (rest = [] → qs = pkt :: pkts)) as Hstep.
    { intros k -> E'. destruct (receive_frame os i pkt k Hp) as [j Hj].
      destruct (IH j fuel k rest Hs E') as (qs & Hq & Hpre & Hfull).
      { rewrite length_app in Hf. unfold frame in Hf.
        rewrite length_app, length_le_bytes in Hf. lia. }
      exists (pkt :: qs). cbn [receive_packets]. rewrite Hj. cbn [obind]. rewrite Hq.
      split; [done|]. split; [by apply prefix_cons|]. intros Hr. by rewrite Hfull. }
    apply app_eq_app in E as [k [[E1 E2]|[-> E2]]]; [|by apply (Hstep k)].
    destruct k as [|b k].
    + rewrite (right_id_L [] (++)) in E1. apply (Hstep []); [|done].
      by rewrite E1, (right_id_L [] (++)).
    + exists []. cbn [receive_packets]. rewrite (receive_cut os i pkt s (b :: k)) by done.
      split; [done|]. split; [apply prefix_nil|]. by rewrite E2.
Qed.


(** C32: packets survive the byte stream.  Whatever the operating system
    transfers with each call, and wherever the stream breaks, the receiver
    gets the first packets of those that were sent, whole and in order; it
    gets all of them when sending succeeded and the stream did not break. *)
Theorem packets_framed os_w n pkts out ok cut os_r i :
  Forall sendable pkts → send_packets os_w n pkts = (out, ok) →
  ∃ qs, receive_packets os_r i (S (length out)) (take cut out) = Ret qs ∧
    qs `prefix_of` pkts ∧ (ok = true → length out ≤ cut → qs = pkts).
Proof.
  intros Hs E. apply send_packets_spec in E.
  assert (∃ rest, concat (frame <$> pkts) = out ++ rest ∧ (ok = true → rest = []))
    as (rest & Ec & Hok).
  { destruct ok; [exists []; by rewrite (right_id_L [] (++))|].
    destruct E as [rest E]. by exists rest. }
  destruct (receive_packets_spec os_r pkts i (S (length out)) (take cut out)
    (drop cut out ++ rest) Hs) as (qs & Hq & Hp & Hf).
  - by rewrite (assoc_L (++)), take_drop.
  - rewrite length_take. lia.
  - exists qs. split; [done|]. split; [done|]. intros Ht Hc. apply Hf.
    rewrite drop_ge by done. by apply Hok.
Qed.

Lemma packets_framed_witness :
  ∃ qs, receive_packets (λ _, 2) 0 (S 19) (take 15 (frame [x01] ++ frame [x02; x03])) = Ret qs ∧
    qs `prefix_of` [[x01]; [x02; x03]].
Proof.
  destruct (packets_framed (λ _ _, Some 0) 0 [[x01]; [x02; x03]]
    (frame [x01] ++ frame [x02; x03]) true 15 (λ _, 2) 0) as (qs & Hq & Hp & _).
  - repeat constructor; unfold sendable; cbn; lia.
  - vm_compute. reflexivity.
  - exists qs. split; [exact Hq|exact Hp].
Defined.

(** A size that no vector can have ends the process of the receiver: the
    exception leaves the receiving thread.  Any peer can send it. *)
Theorem oversized_frame_aborts os i sz rest :
  (2 ^ 63 ≤ sz < 2 ^ 64)%Z → receive os i (le_bytes 8 sz ++ rest) = Fatal.
Proof.
  intros Hsz. unfold receive.
  destruct (read_exact_ok os 8 i 8 (le_bytes 8 sz ++ rest))
    as [j ->]; [rewrite length_app, length_le_bytes; lia|lia|].
  rewrite take_app_length' by (by rewrite length_le_bytes).
  rewrite le_val_bytes_u64 by (unfold is_u64; lia).
  unfold alloc. by rewrite Z.div_1_r, (proj2 (Z.ltb_lt _ _)) by lia.
Qed.

End Framing.

(** ** Peers *)

Section Peers.

(** What waited to be sent when a connection broke is dropped, and the
    sending thread of the new connection runs without pause, changing
    nothing, until the next packet. *)
Theorem reconnected_peer_spins p answers p' os :
  peer.m_shut_down p = false → peer.m_attempt_reconnect p = true →
  peer.do_reconnect p answers = Some p' →
  blocking_queue.m_buffer (peer.m_send_queue p') = [] ∧
  peer.do_send os p' = Some (p', [], true).
Proof.
  intros Hs Ha. unfold peer.do_reconnect. cbn. rewrite Hs, Ha. cbn.
  destruct (peer.retry _ _) as [s|]; [|done]. cbn. by intros [= <-].
Qed.

(** A peer that was shut down takes no packets and stays unconnected. *)
Lemma shutdown_peer_rejects p data :
  peer.send (peer.shutdown p) data = peer.shutdown p ∧
  peer.connected (peer.shutdown p) = false.
Proof. done. Qed.

(** A connection that was accepted is a peer, but reports not to be
    connected. *)
Theorem accepted_peer_not_connected (c : connection_manager.t) sel ready fd :
  connection_manager.m_running c = true → fd ≠ (-1)%Z →
  socket_selector.wait sel ready = true →
  ∃ c' p, connection_manager.pump c sel ready fd = (c', true) ∧
    connection_manager.m_peers c' =
      connection_manager.m_peers c ++ [(connection_manager.m_next_peer_id c, p)] ∧
    peer.connected p = false.
Proof.
  intros Hr Hfd Hw. unfold connection_manager.pump. rewrite Hw.
  cbn [negb tcp_listener.accept]. rewrite (proj2 (Z.eqb_neq _ _)) by done.
  cbn. rewrite Hr. by do 2 eexists.
Qed.

(** A manager that listens watches its listener: a connection alone wakes
    [pump], and a byte in the pipe does not. *)
Lemma listening_manager_watches lst sel res0 pipe lst' sel' ready :
  connection_manager.listen lst sel res0 pipe = (lst', sel', true) →
  lst' ≠ (socket_selector.m_unblock_fds sel').1 →
  lst' ≠ (-1)%Z ∧ socket_selector.wait sel' {[ lst' ]} = true ∧
  ((socket_selector.m_unblock_fds sel').1 ∈ ready → socket_selector.wait sel' ready = false).
Proof.
  unfold connection_manager.listen, tcp_listener.listen.
  destruct res0 as [cs|]; [|done]. set (fd := tcp_listener.try_candidates _ _).
  destruct (fd =? -1)%Z eqn:Hfd; [done|]. apply Z.eqb_neq in Hfd. cbn [negb].
  unfold socket_selector.init. destruct pipe as [p|]; [|done]. unfold socket_selector.add at 1.
  destruct (_ <=? p.1)%Z; [done|]. unfold socket_selector.add.
  destruct (_ <=? fd)%Z; [done|]. intros [= <- <-]. cbn. intros Hne. split; [done|].
  unfold socket_selector.wait. cbn. split.
  - rewrite decide_False by set_solver. apply Z.ltb_lt.
    assert (size (filter (λ x, (x ≤ (socket_selector.m_fd_max sel `max` p.1) `max` fd)%Z)
      (({[fd]} : gset Z) ∩ ({[fd]} ∪ ({[p.1]} ∪ socket_selector.m_fds sel)))) ≠ 0); [|lia].
    apply size_non_empty_iff. assert (fd ≤ (socket_selector.m_fd_max sel `max` p.1) `max` fd)%Z by lia.
    set_solver.
  - intros Hr. rewrite decide_True; [done|].
    assert (p.1 ≤ (socket_selector.m_fd_max sel `max` p.1) `max` fd)%Z by lia. set_solver.
Qed.

(** [send_to_one] looks at every peer, from any starting point on. *)
Lemma choose_peer_spec peers offset fuel : ∀ i,
  match connection_manager.choose_peer peers offset i fuel with
  | Some idx => ∃ p, peers !! idx = Some p ∧ peer.connected p.2 = true
  | None => ∀ k p, k < fuel → peers !! ((i + k + offset) `mod` length peers) = Some p →
      peer.connected p.2 = false
  end.
Proof.
  induction fuel as [|fuel IH]; intros i; cbn; [lia|].
  destruct (peers !! _) as [p|] eqn:Hp.
  - destruct (peer.connected p.2) eqn:Hc; [by exists p|]. specialize (IH (S i)).
    destruct (connection_manager.choose_peer peers offset (S i) fuel); [done|].
    intros [|k] p' Hk; [rewrite Nat.add_0_r, Hp; by intros [= <-]|].
    intros Hp'. apply (IH k); [lia|]. by replace (S i + k + offset) with (i + S k + offset) by lia.
  - specialize (IH (S i)). destruct (connection_manager.choose_peer peers offset (S i) fuel); [done|].
    intros [|k] p' Hk; [by rewrite Nat.add_0_r, Hp|].
    intros Hp'. apply (IH k); [lia|]. by replace (S i + k + offset) with (i + S k + offset) by lia.
Qed.

(** [send_to_one] succeeds exactly when some peer is connected, and then
    queues the packet at one connected peer. *)
Lemma send_to_one_spec (c : connection_manager.t) offset data :
  let (c', ok) := connection_manager.send_to_one c offset data in
  ok = connection_manager.connected_to_one c ∧
  (ok = true → ∃ idx id p, connection_manager.m_peers c !! idx = Some (id, p) ∧
     peer.connected p = true ∧
     connection_manager.m_peers c' =
       <[ idx := (id, peer.send p data) ]> (connection_manager.m_peers c)).
Proof.
  unfold connection_manager.send_to_one. set (l := connection_manager.m_peers c).
  pose proof (choose_peer_spec l offset (length l) 0) as Hc.
  destruct (connection_manager.choose_peer l offset 0 (length l)) as [idx|].
  - destruct Hc as ([id p] & Hl & Hp). split.
    + symmetry. apply existsb_exists. exists (id, p).
      split; [apply list_elem_of_In; by eapply list_elem_of_lookup_2|done].
    + intros _. exists idx, id, p. split; [done|]. split; [done|]. cbn.
      fold l. apply list_eq. intros k. destruct (decide (k = idx)) as [->|Hne].
      * rewrite list_lookup_alter_eq, list_lookup_insert_eq by by eapply lookup_lt_Some.
        by rewrite Hl.
      * by rewrite list_lookup_alter_ne, list_lookup_insert_ne by done.
  - split; [|done]. symmetry. unfold connection_manager.connected_to_one. fold l.
    destruct (existsb _ l) eqn:He; [|done]. apply existsb_exists in He as (p & Hin & Hp).
    apply list_elem_of_In, list_elem_of_lookup in Hin as [j Hj].
    apply lookup_lt_Some in Hj as Hlt. set (n := length l) in *.
    pose proof (Nat.mod_upper_bound offset n ltac:(lia)) as Hm.
    specialize (Hc ((j + (n - offset `mod` n)) `mod` n) p
      ltac:(apply Nat.mod_upper_bound; lia)).
    enough (peer.connected p.2 = false) by congruence. apply Hc. rewrite <- Hj. f_equal.
    cbn [Nat.add]. rewrite <- Nat.Div0.add_mod_idemp_r, Nat.Div0.add_mod_idemp_l.
    replace (j + (n - offset `mod` n) + offset `mod` n) with (j + 1 * n) by lia.
    rewrite Nat.Div0.mod_add. by apply Nat.mod_small.
Qed.

End Peers.

(** ** Delivery of received packets *)

Section Delivery.
Import connection_manager.

(** The peer ids of the receive queues, every packet the peers received and
    every packet given to the handler. *)
Record net_sys := {
  n_cm : connection_manager.t;
  n_ids : list Z;
  n_received : list message_t;
  n_delivered : list message_t
}.

Definition net_start : net_sys :=
  {| n_cm := init; n_ids := []; n_received := []; n_delivered := [] |}.

(** A step and the number of batches it hands out.  Peers are added and
    receive packets, the handler asks for a batch, and other methods leave the
    queues, the flag and the counter of ids alone; ids do not run out. *)
Inductive net_step (s : net_sys) : nat → net_sys → Prop :=
| net_add sock attempt_reconnect c id q_idx :
    add (n_cm s) sock attempt_reconnect = (c, (id, q_idx)) →
    (Z.of_nat (length (n_ids s)) < 2 ^ 64 - 1)%Z →
    net_step s 0 {| n_cm := c; n_ids := n_ids s ++ [id]; n_received := n_received s;
                    n_delivered := n_delivered s |}
| net_recv i id pkt c :
    n_ids s !! i = Some id → recv_cb (n_cm s) i id pkt = Ret c →
    net_step s 0 {| n_cm := c; n_ids := n_ids s;
                    n_received := n_received s ++ [{| m_pkt := pkt; m_peer_id := id |}];
                    n_delivered := n_delivered s |}
| net_other c :
    m_async_recv_queues c = m_async_recv_queues (n_cm s) →
    m_async_recv_data c = m_async_recv_data (n_cm s) →
    m_next_peer_id c = m_next_peer_id (n_cm s) →
    net_step s 0 {| n_cm := c; n_ids := n_ids s; n_received := n_received s;
                    n_delivered := n_delivered s |}
| net_handle c batch :
    handle_messages (n_cm s) = Some (c, batch) →
    net_step s 1 {| n_cm := c; n_ids := n_ids s; n_received := n_received s;
                    n_delivered := n_delivered s ++ batch |}.

Inductive net_run (s : net_sys) : nat → net_sys → Prop :=
| net_refl : net_run s 0 s
| net_trans n k s' s'' : net_run s n s' → net_step s' k s'' → net_run s (n + k) s''.

(** The packets of one peer, in order. *)
Definition from_peer (id : Z) (l : list message_t) : list message_t :=
  filter (λ m, m_peer_id m = id) l.

Record net_inv (s : net_sys) : Prop := {
  ni_ids : n_ids s = Z.of_nat <$> seq 0 (length (n_ids s));
  ni_next : m_next_peer_id (n_cm s) = Z.of_nat (length (n_ids s));
  ni_bound : (Z.of_nat (length (n_ids s)) < 2 ^ 64)%Z;
  ni_queues : length (m_async_recv_queues (n_cm s)) = length (n_ids s);
  ni_order i q : m_async_recv_queues (n_cm s) !! i = Some q →
    Forall (λ m, m_peer_id m = Z.of_nat i) q ∧
    from_peer (Z.of_nat i) (n_received s) = from_peer (Z.of_nat i) (n_delivered s) ++ q;
  ni_fresh i : length (n_ids s) ≤ i →
    from_peer (Z.of_nat i) (n_received s) = [] ∧ from_peer (Z.of_nat i) (n_delivered s) = [];
  ni_data i q : m_async_recv_queues (n_cm s) !! i = Some q → q ≠ [] →
    m_async_recv_data (n_cm s) = true
}.

Lemma net_start_inv : net_inv net_start.
Proof. split; cbn; try done; intros; simplify_eq. Qed.

Lemma from_peer_app id a b : from_peer id (a ++ b) = from_peer id a ++ from_peer id b.
Proof. apply filter_app. Qed.

Lemma from_peer_one id m :
  from_peer id [m] = if decide (m_peer_id m = id) then [m] else [].
Proof. unfold from_peer. rewrite filter_cons, filter_nil. by case_decide. Qed.

Lemma from_peer_all id l : Forall (λ m, m_peer_id m = id) l → from_peer id l = l.
Proof.
  unfold from_peer. induction 1 as [|m l Hm _ IH]; [done|].
  rewrite filter_cons. by rewrite decide_True, IH.
Qed.

Lemma from_peer_none id l : Forall (λ m, m_peer_id m ≠ id) l → from_peer id l = [].
Proof.
  unfold from_peer. induction 1 as [|m l Hm _ IH]; [done|].
  rewrite filter_cons. by rewrite decide_False, IH.
Qed.

(** Queue [i] holds packets of peer [k + i] only. *)
Definition sorted_queues (k : nat) (queues : list (list message_t)) : Prop :=
  ∀ j q, queues !! j = Some q → Forall (λ m, m_peer_id m = Z.of_nat (k + j)) q.

Lemma sorted_queues_cons k q queues :
  sorted_queues k (q :: queues) →
  Forall (λ m, m_peer_id m = Z.of_nat k) q ∧ sorted_queues (S k) queues.
Proof.
  intros Hs. split.
  - specialize (Hs 0 q eq_refl). by rewrite Nat.add_0_r in Hs.
  - intros j q' Hj. specialize (Hs (S j) q' Hj). by rewrite Nat.add_succ_r in Hs.
Qed.

Lemma heads_cons q queues : heads (q :: queues) = option_list (head q) ++ heads queues.
Proof. unfold heads. cbn. by destruct (head q). Qed.

Lemma heads_later queues : ∀ k id,
  sorted_queues k queues → (id < Z.of_nat k)%Z → from_peer id (heads queues) = [].
Proof.
  induction queues as [|q queues IH]; intros k id Hs Hid; [done|].
  apply sorted_queues_cons in Hs as [Hq Hs]. rewrite heads_cons, from_peer_app.
  rewrite (IH (S k)) by (done || lia). rewrite from_peer_none; [done|].
  destruct q as [|m q]; constructor; [|constructor]. apply Forall_cons in Hq as [-> _]. lia.
Qed.

(** The batch holds the first packet of every queue, for the peer of the
    queue. *)
Lemma from_peer_heads queues : ∀ k i,
  sorted_queues k queues →
  from_peer (Z.of_nat (k + i)) (heads queues) = from_option (take 1) [] (queues !! i).
Proof.
  induction queues as [|q queues IH]; intros k i Hs; [done|].
  apply sorted_queues_cons in Hs as [Hq Hs]. rewrite heads_cons, from_peer_app.
  destruct i as [|i].
  - rewrite (heads_later queues (S k)) by (done || lia). rewrite (right_id_L [] (++)).
    rewrite Nat.add_0_r. destruct q as [|m q]; [done|]. cbn. rewrite take_0.
    apply Forall_cons in Hq as [Hm _]. by rewrite decide_True.
  - replace (k + S i) with (S k + i) by lia. rewrite IH by done.
    rewrite from_peer_none; [done|]. destruct q as [|m q]; constructor; [|constructor].
    apply Forall_cons in Hq as [-> _]. lia.
Qed.

Lemma take_tail {A} (q : list A) : take 1 q ++ tail q = q.
Proof. by destruct q. Qed.

Lemma insert_queue i (queues : list (list message_t)) q0 j q x :
  queues !! i = Some q0 → <[ i := q0 ++ [x] ]> queues !! j = Some q →
  (j = i ∧ q = q0 ++ [x]) ∨ (j ≠ i ∧ queues !! j = Some q).
Proof.
  intros Hi Hj. destruct (decide (j = i)) as [->|Hne].
  - rewrite list_lookup_insert_eq in Hj by by eapply lookup_lt_Some. left. by simplify_eq.
  - right. by rewrite list_lookup_insert_ne in Hj.
Qed.

Lemma ids_snoc n : Z.of_nat <$> seq 0 (S n) = (Z.of_nat <$> seq 0 n) ++ [Z.of_nat n].
Proof. by rewrite seq_S, fmap_app. Qed.

Lemma net_add_inv s sock b c id q_idx :
  net_inv s → add (n_cm s) sock b = (c, (id, q_idx)) →
  (Z.of_nat (length (n_ids s)) < 2 ^ 64 - 1)%Z →
  net_inv {| n_cm := c; n_ids := n_ids s ++ [id]; n_received := n_received s;
             n_delivered := n_delivered s |}.
Proof.
  intros [Hi Hn Hb Hq Ho Hf Hd] E Hlt. unfold add in E. injection E as <- <- <-.
  split; cbn [n_cm n_ids n_received n_delivered m_async_recv_queues m_next_peer_id
    m_async_recv_data]; rewrite ?length_app; cbn [length].
  - rewrite Nat.add_1_r, ids_snoc, <- Hi. by rewrite Hn.
  - rewrite Hn, add64_exact by (unfold is_u64; lia). lia.
  - lia.
  - by rewrite Hq.
  - intros i q Hl. apply lookup_app_Some in Hl as [Hl|[Hge Hl]]; [by apply Ho|].
    apply list_lookup_singleton_Some in Hl as [Hz <-].
    destruct (Hf i) as [-> ->]; [lia|]. done.
  - intros i Hge. apply Hf. lia.
  - intros i q Hl Hne. apply lookup_app_Some in Hl as [Hl|[_ Hl]]; [by eapply Hd|].
    by apply list_lookup_singleton_Some in Hl as [_ <-].
Qed.

Lemma net_recv_inv s i id pkt c :
  net_inv s → n_ids s !! i = Some id → recv_cb (n_cm s) i id pkt = Ret c →
  net_inv {| n_cm := c; n_ids := n_ids s;
             n_received := n_received s ++ [{| m_pkt := pkt; m_peer_id := id |}];
             n_delivered := n_delivered s |}.
Proof.
  intros [Hi Hn Hb Hq Ho Hf Hd] Hid E. unfold recv_cb, at_index in E.
  destruct (m_async_recv_queues (n_cm s) !! i) as [q0|] eqn:Hl; [|done].
  cbn [obind] in E. injection E as <-.
  assert (id = Z.of_nat i) as ->.
  { rewrite Hi, list_lookup_fmap in Hid. apply fmap_Some in Hid as (k & Hk & ->).
    by apply lookup_seq in Hk as [-> _]. }
  apply lookup_lt_Some in Hid as Hlt.
  split; cbn [n_cm n_ids n_received n_delivered m_async_recv_queues m_next_peer_id
    m_async_recv_data]; try done.
  - by rewrite length_insert.
  - intros j q Hj. apply (insert_queue _ _ _ _ _ _ Hl) in Hj as [[-> ->]|[Hne Hj]];
      rewrite from_peer_app, from_peer_one; cbn [m_peer_id].
    + destruct (Ho i q0 Hl) as [Ha ->]. rewrite decide_True by done.
      rewrite (assoc_L (++)). split; [|done]. apply Forall_app. by repeat constructor.
    + rewrite decide_False by lia. rewrite (right_id_L [] (++)). by apply Ho.
  - intros j Hj. rewrite from_peer_app, from_peer_one. cbn [m_peer_id].
    rewrite decide_False by lia. rewrite (right_id_L [] (++)). by apply Hf.
Qed.

Lemma net_handle_inv s c batch :
  net_inv s → handle_messages (n_cm s) = Some (c, batch) →
  net_inv {| n_cm := c; n_ids := n_ids s; n_received := n_received s;
             n_delivered := n_delivered s ++ batch |}.
Proof.
  intros [Hi Hn Hb Hq Ho Hf Hd] E. unfold handle_messages in E.
  case_match; [done|]. injection E as <- <-.
  assert (sorted_queues 0 (m_async_recv_queues (n_cm s))) as Hs.
  { intros j q Hj. by apply (Ho j q). }
  split; cbn [n_cm n_ids n_received n_delivered m_async_recv_queues m_next_peer_id
    m_async_recv_data]; try done.
  - by rewrite length_fmap.
  - intros i q Hl. rewrite list_lookup_fmap in Hl. apply fmap_Some in Hl as (q0 & Hl & ->).
    destruct (Ho i q0 Hl) as [Ha ->]. rewrite from_peer_app, (from_peer_heads _ 0 i Hs : from_peer (Z.of_nat i) _ = _).
    rewrite Hl. cbn [from_option]. rewrite <- (assoc_L (++)), take_tail. split; [|done].
    by apply Forall_tail.
  - intros i Hge. destruct (Hf i Hge) as [-> Hf']. split; [done|].
    rewrite from_peer_app, Hf', (from_peer_heads _ 0 i Hs : from_peer (Z.of_nat i) _ = _).
    by rewrite lookup_ge_None_2 by (rewrite Hq; lia).
  - intros i q Hl Hne. apply existsb_exists. exists q.
    split; [apply list_elem_of_In; by eapply list_elem_of_lookup_2|].
    by rewrite bool_decide_false.
Qed.

Lemma net_step_inv s k s' : net_inv s → net_step s k s' → net_inv s'.
Proof.
  intros Hi Hs. destruct Hs as [? ? ? ? ? E Hlt|? ? ? ? Hid E|c E1 E2 E3|? ? E].
  - by eapply net_add_inv.
  - by eapply net_recv_inv.
  - destruct Hi. split; cbn; rewrite ?E1, ?E2, ?E3; done.
  - by eapply net_handle_inv.
Qed.

Lemma net_run_inv s n s' : net_run s n s' → net_inv s → net_inv s'.
Proof. induction 1; eauto using net_step_inv. Qed.

Lemma net_delivered_grows s n s' m :
  net_run s n s' → m ∈ n_delivered s → m ∈ n_delivered s'.
Proof.
  induction 1 as [|n k s' s'' _ IH Hs]; [done|]. intros Hm. specialize (IH Hm).
  destruct Hs; cbn; rewrite ?elem_of_app; auto.
Qed.

(** A packet moves one place forward with every batch, and with nothing
    else. *)
Lemma net_step_queue s n s' i q k m :
  net_step s n s' → m_async_recv_queues (n_cm s) !! i = Some q → q !! k = Some m →
  (∃ q', m_async_recv_queues (n_cm s') !! i = Some q' ∧ n ≤ k ∧ q' !! (k - n) = Some m) ∨
  (k < n ∧ m ∈ n_delivered s').
Proof.
  intros Hs Hq Hk. destruct Hs as [? ? ? ? ? E ?|j id pkt c Hid E|c E1 E2 E3|c batch E];
    cbn [n_cm n_delivered].
  - unfold add in E. injection E as <- <- <-. left. exists q. cbn.
    rewrite Nat.sub_0_r. split; [by apply lookup_app_l_Some|]. split; [lia|done].
  - unfold recv_cb, at_index in E. destruct (m_async_recv_queues (n_cm s) !! j) as [q0|] eqn:Hj; [|done].
    injection E as <-. left. cbn. rewrite Nat.sub_0_r.
    destruct (decide (i = j)) as [->|Hne].
    + rewrite Hj in Hq. injection Hq as ->. exists (q ++ [{| m_pkt := pkt; m_peer_id := id |}]).
      rewrite list_lookup_insert_eq by by eapply lookup_lt_Some.
      split; [done|]. split; [lia|]. by apply lookup_app_l_Some.
    + exists q. rewrite list_lookup_insert_ne by done. split; [done|]. split; [lia|done].
  - left. exists q. rewrite E1, Nat.sub_0_r. split; [done|]. split; [lia|done].
  - unfold handle_messages in E. case_match; [done|]. injection E as <- <-.
    destruct k as [|k].
    + right. split; [lia|]. apply elem_of_app. right. apply list_elem_of_omap.
      exists q. split; [by eapply list_elem_of_lookup_2|]. by destruct q.
    + left. exists (tail q). cbn. rewrite list_lookup_fmap, Hq. split; [done|]. split; [lia|].
      rewrite Nat.sub_0_r. by destruct q.
Qed.

Lemma net_run_queue s n s' i q k m :
  net_run s n s' → m_async_recv_queues (n_cm s) !! i = Some q → q !! k = Some m →
  (∃ q', m_async_recv_queues (n_cm s') !! i = Some q' ∧ n ≤ k ∧ q' !! (k - n) = Some m) ∨
  m ∈ n_delivered s'.
Proof.
  intros Hr Hq Hk. induction Hr as [|n j s' s'' Hr IH Hs].
  - left. exists q. rewrite Nat.sub_0_r. split; [done|]. split; [lia|done].
  - destruct IH as [(q' & Hq' & Hn & Hm)|IH].
    + destruct (net_step_queue _ _ _ _ _ _ _ Hs Hq' Hm) as [(q'' & Hq'' & Hj & Hm')|[_ ?]];
        [|by right]. left. exists q''. split; [done|]. split; [lia|]. rewrite <- Hm'. f_equal. lia.
    + right. eapply (net_delivered_grows s' (0 + j)); [|done]. eapply net_trans; [apply net_refl|done].
Qed.

(** C31: every received packet reaches the handler, in order and in turn.
    However peers are added, receive packets, are sent to and are closed while
    the handler takes batches, the packets of a peer that were delivered,
    followed by those in its queue, are the ones it received in their order;
    while the node runs, the handler does not wait as long as any queue has a
    packet; and a packet with [k] packets of the same peer before it is
    delivered with one of the next [k + 1] batches, whatever the other peers
    send. *)
Theorem packets_delivered_in_turn k0 s i q :
  net_run net_start k0 s → m_async_recv_queues (n_cm s) !! i = Some q →
  from_peer (Z.of_nat i) (n_received s) = from_peer (Z.of_nat i) (n_delivered s) ++ q ∧
  (q ≠ [] → handle_messages (n_cm s) ≠ None) ∧
  (∀ k m n s', q !! k = Some m → net_run s n s' → k < n → m ∈ n_delivered s').
Proof.
  intros Hr Hq. pose proof (net_run_inv _ _ _ Hr net_start_inv) as Hi. split; [|split].
  - by apply (ni_order _ Hi).
  - intros Hne. unfold handle_messages. rewrite (ni_data _ Hi i q Hq Hne).
    by rewrite andb_false_r.
  - intros k m n s' Hm Hrun Hk.
    destruct (net_run_queue _ _ _ _ _ _ _ Hrun Hq Hm) as [(q' & _ & Hle & _)|]; [lia|done].
Qed.

End Delivery.

(** One peer that received one packet. *)
Definition one_packet : net_sys :=
  {| n_cm := connection_manager.mk [(0%Z, peer.init tcp_socket.init true)] 1 true
       [[{| connection_manager.m_pkt := [x01]; connection_manager.m_peer_id := 0 |}]] true;
     n_ids := [0%Z];
     n_received := [{| connection_manager.m_pkt := [x01]; connection_manager.m_peer_id := 0 |}];
     n_delivered := [] |}.

Definition one_peer : net_sys :=
  {| n_cm := connection_manager.mk [(0%Z, peer.init tcp_socket.init true)] 1 true [[]] false;
     n_ids := [0%Z]; n_received := []; n_delivered := [] |}.

Lemma one_packet_reachable : net_run net_start 0 one_packet.
Proof.
  apply (net_trans _ 0 0 one_peer one_packet); [apply (net_trans _ 0 0 net_start one_peer)|].
  - apply net_refl.
  - exact (net_add net_start tcp_socket.init true _ _ _ eq_refl ltac:(cbn; lia)).
  - exact (net_recv one_peer 0 0%Z [x01] _ eq_refl eq_refl).
Qed.

Lemma packets_delivered_in_turn_witness :
  ∃ s', net_run one_packet 1 s' ∧
    {| connection_manager.m_pkt := [x01]; connection_manager.m_peer_id := 0 |} ∈
      n_delivered s'.
Proof.
  destruct (packets_delivered_in_turn 0 one_packet 0 _ one_packet_reachable eq_refl)
    as (_ & _ & Ht).
  eexists. split; [eapply (net_trans _ 0 1); [apply net_refl|]; eapply net_handle; reflexivity|].
  eapply (Ht 0 _ 1); [reflexivity| |lia].
  eapply (net_trans _ 0 1); [apply net_refl|]. eapply net_handle. reflexivity.
Defined.
