(* ===== verification/Rpc.v ===== *)
(** * Remote procedure calls

    Models of [src/util/rpc]: the client, which numbers its requests and
    keeps what to do with their responses ([client.hpp], [tcp_client.hpp]),
    and the servers ([server.hpp], [blocking_server.hpp],
    [async_server.hpp]), with the server in front of a Raft node
    ([src/util/raft/rpc_server.hpp]).  The payload types are parameters with
    their readers and writers.  The theorems are about a client and a server
    over a network that delays, reorders, repeats and loses packets. *)

From Stdlib Require Import ZArith Lia.
From Stdlib.Strings Require Import Byte.
From stdpp Require Import base tactics numbers gmap sets list.
From S2P Require Import Prelude Serialization Crypto Transaction Validation.
From S2P Require Import LockingShard Coordinator Atomizer Watchtower Messages.
Open Scope cbdc_scope.

(** What a payload needs: its writer, a default value, and a reader. *)
Class Payload (T : Type) := {
  put_payload : T → writes;
  payload_dflt : T;
  get_payload : getter (aborting.t buffer_serializer.t) T
}.

Class PayloadLaws (T : Type) `{Payload T} := {
  payload_wf : T → Prop;
  payload_roundtrip : roundtrips payload_wf put_payload payload_dflt get_payload
}.

Definition encode_request `{Payload Q} (r : Z * Q) : list byte :=
  make_buffer (put_rpc_request put_payload r).
Definition decode_request `{Payload Q} (buf : list byte) : outcome (option (Z * Q)) :=
  from_buffer_v (0%Z, payload_dflt) (get_rpc_request get_payload) buf.
Definition encode_response `{Payload R} (r : Z * option R) : list byte :=
  make_buffer (put_rpc_response put_payload r).
Definition decode_response `{Payload R} (buf : list byte) : outcome (option (Z * option R)) :=
  from_buffer_v (0%Z, None) (get_rpc_response payload_dflt get_payload) buf.

Lemma decode_encode_request `{PayloadLaws Q} id (p : Q) :
  is_u64 id → payload_wf p → decode_request (encode_request (id, p)) = Ret (Some (id, p)).
Proof.
  intros Hid Hp. unfold decode_request, encode_request.
  eapply from_make_buffer_v; [apply get_rpc_request_roundtrip, payload_roundtrip|done].
Qed.

Lemma decode_encode_response `{PayloadLaws R} id (r : option R) :
  is_u64 id → (∀ x, r = Some x → payload_wf x) →
  decode_response (encode_response (id, r)) = Ret (Some (id, r)).
Proof.
  intros Hid Hp. unfold decode_response, encode_response.
  eapply from_make_buffer_v; [apply get_rpc_response_roundtrip, payload_roundtrip|done].
Qed.

(** ** The client *)

Module rpc_client.
Section Client.
Context {Q R : Type} `{Payload Q} `{Payload R}.

(** [response_action_type]: a promise or a callback. *)
Inductive response_action := promise | raw_callback.

Record t := mk {
  m_current_request_id : Z;
  m_responses : gmap Z response_action
}.

Definition init : t := mk 0 ∅.

Definition make_request (c : t) (request_payload : Q) : t * (list byte * Z) :=
  let request_id := m_current_request_id c in
  (mk (add64 request_id 1) (m_responses c),
   (encode_request (request_id, request_payload), request_id)).

(** [send_request] up to the call of [send_to_one]. *)
Definition send_request (c : t) (request_id : Z) (action : response_action) : outcome t :=
  match m_responses c !! request_id with
  | Some _ => Fatal
  | None => Ret (mk (m_current_request_id c) (<[ request_id := action ]> (m_responses c)))
  end.

(** [set_response]: what becomes of the waiting action, if there still is
    one. *)
Definition set_response (c : t) (request_id : Z) : t * option response_action :=
  match m_responses c !! request_id with
  | Some action => (mk (m_current_request_id c) (delete request_id (m_responses c)), Some action)
  | None => (c, None)
  end.

(** [call]: the action is registered and the request is sent; when the
    network refuses it, the action is taken back.  The result is the new
    client, the request if it was sent, and the id. *)
Definition call (c : t) (request_payload : Q) (action : response_action) (sent : bool)
    : outcome (t * option (list byte) * Z) :=
  let '(c1, (request_buf, request_id)) := make_request c request_payload in
  let! c2 := send_request c1 request_id action in
  if sent then Ret (c2, Some request_buf, request_id)
  else Ret ((set_response c2 request_id).1, None, request_id).

(** [response_handler]: the id and the value for the action that waits for
    it. *)
Definition response_handler (c : t) (msg : list byte)
    : outcome (t * option (Z * option R)) :=
  let! resp := decode_response msg in
  match resp with
  | None => Ret (c, None)
  | Some (request_id, payload) =>
      let (c', action) := set_response c request_id in
      Ret (c', match action with Some _ => Some (request_id, payload) | None => None end)
  end.

(** The destructor gives every waiting action an empty value. *)
Definition destroy (c : t) : list Z := (map_to_list (m_responses c)).*1.

End Client.
End rpc_client.

(** ** The servers *)

Section Servers.
Context {Q R : Type} `{Payload Q} `{Payload R}.
Context {S : Type}.

Definition serialize_response (request_id : Z) (response_payload : option R) : list byte :=
  encode_response (request_id, response_payload).

(** [blocking_call]: the callback may be missing. *)
Definition blocking_call (m_callback : option (S → Q → outcome (S * option R))) (s : S)
    (request_buf : list byte) : outcome (S * option (list byte)) :=
  let! req := decode_request request_buf in
  match req with
  | None => Ret (s, None)
  | Some (request_id, payload) =>
      match m_callback with
      | None => Ret (s, Some (serialize_response request_id None))
      | Some cb =>
          let! '(s', resp) := cb s payload in
          Ret (s', Some (serialize_response request_id resp))
      end
  end.

(** [async_call]: a request the callback accepts is answered later, with the
    header the closure kept; the result is the answer that is due at once and
    the request that waits. *)
Definition async_call (m_callback : S → Q → outcome (S * bool)) (s : S)
    (request_buf : list byte) : outcome (S * option (list byte) * option (Z * Q)) :=
  let! req := decode_request request_buf in
  match req with
  | None => Ret (s, None, None)
  | Some (request_id, payload) =>
      let! '(s', success) := m_callback s payload in
      if success : bool then Ret (s', None, Some (request_id, payload))
      else Ret (s', Some (serialize_response request_id None), None)
  end.

(** [make_failure_response] reads the header only and writes a response
    without a payload. *)
Definition make_failure_response (request_buf : list byte) : option (list byte) :=
  hdr ← from_buffer 0%Z get_u64 request_buf;
  Some (make_buffer (put_u64 hdr ++ put_u8 0)).

(** [async_call] in raw mode, over the handler of the Raft server
    ([request_handler]): only a leader replicates a request.  The result of
    the replication is [None] for an exception or an empty buffer. *)
Definition raft_request_handler (is_leader accepted : bool) : bool := is_leader && accepted.

Definition raw_async_call (is_leader accepted : bool) (request_buf : list byte)
    : option (list byte) * option (list byte) :=
  match make_failure_response request_buf with
  | None => (None, None)
  | Some failure =>
      if raft_request_handler is_leader accepted then (None, Some failure)
      else (Some failure, None)
  end.

Definition raw_response (fail_buf : list byte) (result : option (list byte)) : list byte :=
  default fail_buf result.

End Servers.

(** A failure response is the response without a payload, for every type of
    payload. *)
Lemma failure_response_spec `{PayloadLaws Q} `{Payload R} id (p : Q) :
  is_u64 id → payload_wf p →
  make_failure_response (encode_request (id, p)) =
    Some (encode_response (id, None : option R)).
Proof.
  intros Hid Hp. unfold make_failure_response.
  assert (from_buffer 0%Z get_u64 (encode_request (id, p)) = Some id) as ->; [|done].
  unfold from_buffer, from_serializer.
  destruct (get_u64_roundtrip 0%Z id (buffer_serializer.init (encode_request (id, p)))
    (bytes_of (put_payload p)) Hid) as (s & E & Hs).
  { split_and!; [cbn; lia|done|].
    change (drop 0 (encode_request (id, p)) = bytes_of (put_u64 id) ++ bytes_of (put_payload p)).
    unfold encode_request. rewrite drop_0, make_buffer_spec. apply bytes_of_app. }
  by rewrite E, (at_bytes_valid _ _ Hs).
Qed.

(** ** A client and a server *)

Section RpcSystem.
Context {Q R S : Type} `{PayloadLaws Q} `{PayloadLaws R}.

(** The server has a blocking and an asynchronous side; [produces] is what it
    may answer to a request. *)
Variable produces : Q → R → Prop.
Variable blocking_cb : S → Q → outcome (S * option R).
Variable async_cb : S → Q → outcome (S * bool).
Hypothesis blocking_produces : ∀ s p s' r,
  blocking_cb s p = Ret (s', Some r) → produces p r.
Hypothesis produces_wf : ∀ p r, produces p r → payload_wf r.

(** Packets on their way are never used up: they may be lost, repeated and
    reordered.  [y_calls] records the payload of every call, [y_done] the
    values the actions got, in order. *)
Record rpc_sys := mk_sys {
  y_client : rpc_client.t;
  y_server : S;
  y_requests : list (list byte);
  y_responses : list (list byte);
  y_waiting : list (Z * Q);
  y_calls : gmap Z Q;
  y_done : list (Z * option (option R))
}.

Definition rpc_start (s : S) : rpc_sys := mk_sys rpc_client.init s [] [] [] ∅ [].

Inductive rpc_step (y : rpc_sys) : rpc_sys → Prop :=
| rpc_call p action c buf id :
    payload_wf p → (Z.of_nat (size (y_calls y)) < 2 ^ 64 - 1)%Z →
    rpc_client.call (y_client y) p action true = Ret (c, Some buf, id) →
    rpc_step y (mk_sys c (y_server y) (buf :: y_requests y) (y_responses y) (y_waiting y)
                  (<[ id := p ]> (y_calls y)) (y_done y))
| rpc_unsent p action c id :
    payload_wf p → (Z.of_nat (size (y_calls y)) < 2 ^ 64 - 1)%Z →
    rpc_client.call (y_client y) p action false = Ret (c, None, id) →
    rpc_step y (mk_sys c (y_server y) (y_requests y) (y_responses y) (y_waiting y)
                  (<[ id := p ]> (y_calls y)) (y_done y ++ [(id, None)]))
| rpc_serve_blocking buf s out :
    buf ∈ y_requests y → blocking_call (Some blocking_cb) (y_server y) buf = Ret (s, Some out) →
    rpc_step y (mk_sys (y_client y) s (y_requests y) (out :: y_responses y) (y_waiting y)
                  (y_calls y) (y_done y))
| rpc_serve_async buf s out req :
    buf ∈ y_requests y → async_call (R := R) async_cb (y_server y) buf = Ret (s, out, req) →
    rpc_step y (mk_sys (y_client y) s (y_requests y) (option_list out ++ y_responses y)
                  (option_list req ++ y_waiting y) (y_calls y) (y_done y))
| rpc_answer id p r s :
    (id, p) ∈ y_waiting y → (∀ x, r = Some x → produces p x) →
    rpc_step y (mk_sys (y_client y) s (y_requests y)
                  (serialize_response id r :: y_responses y) (y_waiting y) (y_calls y) (y_done y))
| rpc_deliver buf c res :
    buf ∈ y_responses y → rpc_client.response_handler (R := R) (y_client y) buf = Ret (c, res) →
    rpc_step y (mk_sys c (y_server y) (y_requests y) (y_responses y) (y_waiting y) (y_calls y)
                  (y_done y ++ option_list ((λ r, (r.1, Some r.2)) <$> res)))
| rpc_timeout id c action :
    rpc_client.set_response (y_client y) id = (c, action) →
    rpc_step y (mk_sys c (y_server y) (y_requests y) (y_responses y) (y_waiting y) (y_calls y)
                  (y_done y ++ match action with Some _ => [(id, None)] | None => [] end)).

(** Ids count the calls; every packet belongs to a call; a call either waits
    or was answered. *)
Record rpc_inv (y : rpc_sys) : Prop := {
  ri_next : rpc_client.m_current_request_id (y_client y) = Z.of_nat (size (y_calls y));
  ri_ids id : is_Some (y_calls y !! id) ↔ (0 ≤ id < Z.of_nat (size (y_calls y)))%Z;
  ri_bound : (Z.of_nat (size (y_calls y)) < 2 ^ 64)%Z;
  ri_wf id p : y_calls y !! id = Some p → payload_wf p;
  ri_requests buf : buf ∈ y_requests y →
    ∃ id p, y_calls y !! id = Some p ∧ buf = encode_request (id, p);
  ri_waiting id p : (id, p) ∈ y_waiting y → y_calls y !! id = Some p;
  ri_responses buf : buf ∈ y_responses y →
    ∃ id p r, y_calls y !! id = Some p ∧ buf = encode_response (id, r) ∧
      ∀ x, r = Some x → produces p x;
  ri_done_nodup : NoDup (y_done y).*1;
  ri_pending id : is_Some (rpc_client.m_responses (y_client y) !! id) ↔
    is_Some (y_calls y !! id) ∧ id ∉ (y_done y).*1;
  ri_done id : id ∈ (y_done y).*1 → is_Some (y_calls y !! id);
  ri_value id x : (id, Some (Some x)) ∈ y_done y →
    ∃ p, y_calls y !! id = Some p ∧ produces p x
}.

Lemma rpc_start_inv s : rpc_inv (rpc_start s).
Proof.
  split; cbn; rewrite ?map_size_empty; try done.
  - intros id. rewrite lookup_empty. split; [by intros []|lia].
  - by intros ? []%elem_of_nil.
  - by intros ? ? []%elem_of_nil.
  - by intros ? []%elem_of_nil.
  - constructor.
  - intros id. rewrite !lookup_empty. split; [by intros []|by intros [[] _]].
  - by intros ? []%elem_of_nil.
  - by intros ? ? []%elem_of_nil.
Qed.

Lemma call_sent c (p : Q) action :
  rpc_client.m_responses c !! rpc_client.m_current_request_id c = None →
  rpc_client.call c p action true =
    Ret (rpc_client.mk (add64 (rpc_client.m_current_request_id c) 1)
           (<[ rpc_client.m_current_request_id c := action ]> (rpc_client.m_responses c)),
         Some (encode_request (rpc_client.m_current_request_id c, p)),
         rpc_client.m_current_request_id c).
Proof. intros Hn. unfold rpc_client.call, rpc_client.send_request. cbn. by rewrite Hn. Qed.

Lemma call_unsent c (p : Q) action :
  rpc_client.m_responses c !! rpc_client.m_current_request_id c = None →
  rpc_client.call c p action false =
    Ret (rpc_client.mk (add64 (rpc_client.m_current_request_id c) 1) (rpc_client.m_responses c),
         None, rpc_client.m_current_request_id c).
Proof.
  intros Hn. unfold rpc_client.call, rpc_client.send_request. cbn. rewrite Hn. cbn.
  unfold rpc_client.set_response. cbn. rewrite lookup_insert_eq. cbn.
  by rewrite delete_insert_id.
Qed.

(** The id of the next call is new everywhere. *)
Lemma next_id_fresh y :
  rpc_inv y → let id := rpc_client.m_current_request_id (y_client y) in
  y_calls y !! id = None ∧ rpc_client.m_responses (y_client y) !! id = None ∧
  id ∉ (y_done y).*1.
Proof.
  intros Hi id. assert (y_calls y !! id = None) as Hn.
  { apply eq_None_not_Some. intros [_ Hlt]%(ri_ids _ Hi). subst id. rewrite (ri_next _ Hi) in Hlt. lia. }
  split; [done|]. split.
  - apply eq_None_not_Some. intros [Hs _]%(ri_pending _ Hi). by destruct (is_Some_None (A := Q)); rewrite <- Hn.
  - intros Hd%(ri_done _ Hi). by destruct (is_Some_None (A := Q)); rewrite <- Hn.
Qed.

(** Recording a call keeps what is known about the packets and the answers
    of the others; the action either waits or was given up. *)
Lemma record_call_inv y p responses requests done :
  rpc_inv y → payload_wf p → (Z.of_nat (size (y_calls y)) < 2 ^ 64 - 1)%Z →
  let id := rpc_client.m_current_request_id (y_client y) in
  (∀ buf, buf ∈ requests → buf ∈ y_requests y ∨ buf = encode_request (id, p)) →
  (∀ k, is_Some (responses !! k) ↔
     is_Some (rpc_client.m_responses (y_client y) !! k) ∨ k = id ∧ done = []) →
  done = [] ∨ done = [(id, None)] →
  rpc_inv (mk_sys (rpc_client.mk (add64 id 1) responses) (y_server y) requests
             (y_responses y) (y_waiting y) (<[ id := p ]> (y_calls y)) (y_done y ++ done)).
Proof.
  intros Hi Hp Hb id Hreq Hres Hdone. destruct (next_id_fresh y Hi) as (Hc & Hr & Hd).
  fold id in Hc, Hr, Hd.
  assert (∀ k x, y_calls y !! k = Some x → <[ id := p ]> (y_calls y) !! k = Some x) as Hmono.
  { intros k x Hk. rewrite lookup_insert_ne; [done|]. intros <-. by rewrite Hk in Hc. }
  assert (∀ k, is_Some (y_calls y !! k) → is_Some (<[ id := p ]> (y_calls y) !! k)) as Hmono'.
  { intros k [x Hk]. eauto. }
  assert (size (<[ id := p ]> (y_calls y)) = Datatypes.S (size (y_calls y))) as Hsz
    by by apply map_size_insert_None.
  assert (id = Z.of_nat (size (y_calls y))) as Hid by apply (ri_next _ Hi).
  split; cbn [y_client y_server y_requests y_responses y_waiting y_calls y_done
    rpc_client.m_current_request_id rpc_client.m_responses].
  - rewrite Hsz, Hid, add64_exact by (unfold is_u64; lia). lia.
  - intros k. rewrite Hsz. destruct (decide (k = id)) as [->|Hne].
    + rewrite lookup_insert_eq. split; [lia|eauto].
    + rewrite lookup_insert_ne, (ri_ids _ Hi) by done. lia.
  - lia.
  - intros k x. destruct (decide (k = id)) as [->|Hne].
    + rewrite lookup_insert_eq. by intros [= <-].
    + rewrite lookup_insert_ne by done. apply (ri_wf _ Hi).
  - intros buf [Hin| ->]%Hreq.
    + destruct (ri_requests _ Hi buf Hin) as (k & x & Hk & ->). eauto.
    + exists id, p. by rewrite lookup_insert_eq.
  - intros k x Hin%(ri_waiting _ Hi). eauto.
  - intros buf Hin. destruct (ri_responses _ Hi buf Hin) as (k & x & r & Hk & -> & Hx).
    exists k, x, r. eauto.
  - rewrite fmap_app. destruct Hdone as [->| ->]; cbn; [rewrite (right_id_L [] (++)); apply Hi|].
    apply NoDup_app. split; [apply Hi|]. split; [|apply NoDup_singleton].
    by intros k Hk ->%list_elem_of_singleton.
  - intros k. rewrite Hres, (ri_pending _ Hi), fmap_app, elem_of_app.
    destruct (decide (k = id)) as [->|Hne].
    + rewrite lookup_insert_eq. destruct Hdone as [->| ->]; cbn;
        rewrite ?elem_of_nil, ?list_elem_of_singleton; rewrite Hc; naive_solver.
    + rewrite lookup_insert_ne by done. destruct Hdone as [->| ->]; cbn;
        rewrite ?elem_of_nil, ?list_elem_of_singleton; naive_solver.
  - intros k. rewrite fmap_app, elem_of_app. intros [Hk|Hk]; [by apply Hmono', (ri_done _ Hi)|].
    destruct Hdone as [->| ->]; [by apply elem_of_nil in Hk|].
    apply list_elem_of_singleton in Hk as ->. rewrite lookup_insert_eq. eauto.
  - intros k x. rewrite elem_of_app. intros [Hk|Hk].
    + destruct (ri_value _ Hi k x Hk) as (p' & Hp' & Hx). eauto.
    + destruct Hdone as [->| ->]; [by apply elem_of_nil in Hk|].
      by apply list_elem_of_singleton in Hk.
Qed.

(** Giving an answer to a waiting action. *)
Lemma complete_inv y id v c action :
  rpc_inv y → rpc_client.set_response (y_client y) id = (c, action) →
  (∀ x, v = Some (Some x) → ∃ p, y_calls y !! id = Some p ∧ produces p x) →
  rpc_inv (mk_sys c (y_server y) (y_requests y) (y_responses y) (y_waiting y) (y_calls y)
             (y_done y ++ match action with Some _ => [(id, v)] | None => [] end)).
Proof.
  intros Hi E Hv. unfold rpc_client.set_response in E.
  destruct (rpc_client.m_responses (y_client y) !! id) as [a|] eqn:Ha; injection E as <- <-.
  2:{ rewrite (right_id_L [] (++)). by destruct y. }
  assert (is_Some (y_calls y !! id) ∧ id ∉ (y_done y).*1) as [Hc Hd].
  { apply (ri_pending _ Hi). eauto. }
  destruct Hi as [Hn Hids Hb Hwf Hreq Hw Hresp Hnd Hp Hdc Hval].
  split; cbn [y_client y_server y_requests y_responses y_waiting y_calls y_done
    rpc_client.m_current_request_id rpc_client.m_responses]; try done; rewrite ?fmap_app.
  - apply NoDup_app. split; [done|]. split; [|apply NoDup_singleton].
    by intros k Hk ->%list_elem_of_singleton.
  - intros k. rewrite elem_of_app. cbn. rewrite list_elem_of_singleton.
    destruct (decide (k = id)) as [->|Hne].
    + rewrite lookup_delete_eq. split; [by intros []|]. intros [_ []]. by right.
    + rewrite lookup_delete_ne, Hp by done. naive_solver.
  - intros k. rewrite elem_of_app. cbn. rewrite list_elem_of_singleton. intros [Hk| ->]; auto.
  - intros k x. rewrite elem_of_app, list_elem_of_singleton. intros [Hk|[= -> <-]]; auto.
Qed.

(** Packets and waiting requests a server adds. *)
Lemma serve_inv y s responses waiting :
  rpc_inv y →
  (∀ buf, buf ∈ responses → ∃ id p r, y_calls y !! id = Some p ∧
     buf = encode_response (id, r) ∧ ∀ x, r = Some x → produces p x) →
  (∀ id p, (id, p) ∈ waiting → y_calls y !! id = Some p) →
  rpc_inv (mk_sys (y_client y) s (y_requests y) (responses ++ y_responses y)
             (waiting ++ y_waiting y) (y_calls y) (y_done y)).
Proof.
  intros [Hn Hids Hb Hwf Hreq Hw Hresp Hnd Hp Hdc Hval] Hr Hq.
  split; cbn [y_client y_server y_requests y_responses y_waiting y_calls y_done]; try done.
  - intros id p [Hin|Hin]%elem_of_app; auto.
  - intros buf [Hin|Hin]%elem_of_app; auto.
Qed.

Lemma decode_known_request y buf :
  rpc_inv y → buf ∈ y_requests y →
  ∃ id p, decode_request buf = Ret (Some (id, p)) ∧ y_calls y !! id = Some p.
Proof.
  intros Hi Hin. destruct (ri_requests _ Hi buf Hin) as (id & p & Hc & ->).
  exists id, p. split; [|done]. apply decode_encode_request; [|by eapply (ri_wf _ Hi)].
  assert (is_Some (y_calls y !! id)) as Hs%(ri_ids _ Hi) by eauto.
  pose proof (ri_bound _ Hi). unfold is_u64. lia.
Qed.

Lemma decode_known_response y buf :
  rpc_inv y → buf ∈ y_responses y →
  ∃ id p r, decode_response buf = Ret (Some (id, r)) ∧ y_calls y !! id = Some p ∧
    ∀ x, r = Some x → produces p x.
Proof.
  intros Hi Hin. destruct (ri_responses _ Hi buf Hin) as (id & p & r & Hc & -> & Hx).
  exists id, p, r. split; [|done]. apply decode_encode_response; [|by eauto].
  assert (is_Some (y_calls y !! id)) as Hs%(ri_ids _ Hi) by eauto.
  pose proof (ri_bound _ Hi). unfold is_u64. lia.
Qed.

Lemma rpc_step_inv y y' : rpc_inv y → rpc_step y y' → rpc_inv y'.
Proof.
  intros Hi Hs. destruct (next_id_fresh y Hi) as (_ & Hf & _).
  destruct Hs as [p a c buf id Hp Hb E|p a c id Hp Hb E|buf s out Hin E|buf s out req Hin E
    |id p r s Hin Hr|buf c res Hin E|id c a E].
  - rewrite (call_sent _ _ _ Hf) in E. injection E as <- <- <-.
    rewrite <- (right_id_L [] (++) (y_done y)). apply record_call_inv; try done.
    + intros buf [->|?]%elem_of_cons; auto.
    + intros k. destruct (decide (k = rpc_client.m_current_request_id (y_client y))) as [->|Hne].
      * rewrite lookup_insert_eq. naive_solver.
      * rewrite lookup_insert_ne by done. naive_solver.
    + by left.
  - rewrite (call_unsent _ _ _ Hf) in E. injection E as <- <-. apply record_call_inv; try done.
    + by left.
    + naive_solver.
    + by right.
  - destruct (decode_known_request y buf Hi Hin) as (id & p & Ed & Hc).
    unfold blocking_call in E. rewrite Ed in E. cbn [obind] in E.
    destruct (blocking_cb (y_server y) p) as [[s' r]|] eqn:Ecb; [|done]. injection E as <- <-.
    apply (serve_inv y s' [_] []); [done| |by intros ? ? []%elem_of_nil].
    intros b ->%list_elem_of_singleton. exists id, p, r. split; [done|]. split; [done|].
    intros x ->. by eapply blocking_produces.
  - destruct (decode_known_request y buf Hi Hin) as (id & p & Ed & Hc).
    unfold async_call in E. rewrite Ed in E. cbn [obind] in E.
    destruct (async_cb (y_server y) p) as [[s' [|]]|] eqn:Ecb; [..|done]; injection E as <- <- <-.
    + apply (serve_inv y s' [] [(id, p)]); [done|by intros ? []%elem_of_nil|].
      by intros ? ? [= -> ->]%list_elem_of_singleton.
    + apply (serve_inv y s' [_] []); [done| |by intros ? ? []%elem_of_nil].
      intros b ->%list_elem_of_singleton. by exists id, p, None.
  - apply (serve_inv y s [_] []); [done| |by intros ? ? []%elem_of_nil].
    intros b ->%list_elem_of_singleton. exists id, p, r. by split; [apply (ri_waiting _ Hi)|].
  - destruct (decode_known_response y buf Hi Hin) as (id & p & r & Ed & Hc & Hx).
    unfold rpc_client.response_handler in E. rewrite Ed in E. cbn [obind] in E.
    destruct (rpc_client.set_response (y_client y) id) as [c' a] eqn:Es. injection E as <- <-.
    pose proof (complete_inv y id (Some r) c' a Hi Es) as Hdone. destruct a; apply Hdone;
      intros x [= ->]; eauto.
  - by apply complete_inv.
Qed.

(** C11: a call gets its own answer, once.  Whatever calls are made and
    whatever the network and timeouts do to the packets, every call is waiting
    or was answered, none is answered twice, and the answer to a call with a
    payload is one the server produced for the payload of that very call.  No
    assertion of the client fails and every packet is understood: the next
    call and the next delivery are defined. *)
Theorem rpc_answers_own_call s y :
  rtc rpc_step (rpc_start s) y →
  NoDup (y_done y).*1 ∧
  (∀ id, is_Some (y_calls y !! id) ↔
     is_Some (rpc_client.m_responses (y_client y) !! id) ∨ id ∈ (y_done y).*1) ∧
  (∀ id, ¬ (is_Some (rpc_client.m_responses (y_client y) !! id) ∧ id ∈ (y_done y).*1)) ∧
  (∀ id x, (id, Some (Some x)) ∈ y_done y →
     ∃ p, y_calls y !! id = Some p ∧ produces p x) ∧
  (∀ (p : Q) action sent, is_ret (rpc_client.call (y_client y) p action sent)) ∧
  (∀ buf, buf ∈ y_responses y → is_ret (rpc_client.response_handler (R := R) (y_client y) buf)).
Proof.
  intros Hr. assert (rpc_inv y) as Hi.
  { pose proof (rpc_start_inv s) as Hi. revert Hi. induction Hr; eauto using rpc_step_inv. }
  destruct (next_id_fresh y Hi) as (_ & Hf & _). split; [apply Hi|]. split_and!.
  - intros id. rewrite (ri_pending _ Hi). pose proof (ri_done _ Hi id).
    destruct (decide (id ∈ (y_done y).*1)); naive_solver.
  - intros id [[_ Hn]%(ri_pending _ Hi) Hd]. done.
  - apply (ri_value _ Hi).
  - intros p a [|]; eexists; [by apply call_sent|by apply call_unsent].
  - intros buf Hin. destruct (decode_known_response y buf Hi Hin) as (id & p & r & Ed & _).
    unfold rpc_client.response_handler. rewrite Ed. cbn [obind].
    destruct (rpc_client.set_response (y_client y) id). by eexists.
Qed.

End RpcSystem.

(** ** One call of a server that negates a truth value *)

Module rpc_example.

#[local] Instance bool_payload : Payload bool :=
  {| put_payload := put_bool; payload_dflt := false; get_payload := get_bool |}.

#[local] Program Instance bool_laws : PayloadLaws bool := {| payload_wf := λ _, True |}.
Next Obligation. apply get_bool_roundtrip. Qed.

Definition negate (s : nat) (p : bool) : outcome (nat * option bool) := Ret (S s, Some (negb p)).
Definition refuse (s : nat) (_ : bool) : outcome (nat * bool) := Ret (s, false).

Definition negated (p r : bool) : Prop := r = negb p.

Definition request : list byte := encode_request (0%Z, true).
Definition response : list byte := encode_response (0%Z, Some false).

(** The call of [true], its execution, and two deliveries of the answer. *)
Definition called : rpc_sys (Q := bool) (R := bool) (S := nat) :=
  mk_sys (rpc_client.mk 1 {[ 0%Z := rpc_client.promise ]}) 0 [request] [] []
    {[ 0%Z := true ]} [].
Definition answered : rpc_sys (Q := bool) (R := bool) (S := nat) :=
  mk_sys (rpc_client.mk 1 ∅) 1 [request] [response] [] {[ 0%Z := true ]} [(0%Z, Some (Some false))].

Lemma called_answered :
  rtc (rpc_step negated negate refuse) (rpc_start 0) answered.
Proof.
  apply rtc_l with called.
  { apply (rpc_call _ _ _ (rpc_start 0) true rpc_client.promise _ _ 0%Z); [done|by vm_compute|].
    vm_compute. reflexivity. }
  apply rtc_l with (mk_sys (y_client called) 1 [request] [response] [] (y_calls called) []).
  { apply (rpc_serve_blocking _ _ _ called request); [apply list_elem_of_singleton; reflexivity|].
    vm_compute. reflexivity. }
  apply rtc_l with answered.
  { apply (rpc_deliver _ _ _ (mk_sys (y_client called) 1 [request] [response] [] (y_calls called) [])
      response _ (Some (0%Z, Some false))); [apply list_elem_of_singleton; reflexivity|].
    vm_compute. reflexivity. }
  apply rtc_l with answered; [|apply rtc_refl].
  apply (rpc_deliver _ _ _ answered response _ None); [apply list_elem_of_singleton; reflexivity|].
  vm_compute. reflexivity.
Qed.

Lemma rpc_answers_own_call_witness :
  ∃ p, y_calls answered !! 0%Z = Some p ∧ negated p false.
Proof.
  pose proof (rpc_answers_own_call negated negate refuse
    ltac:(intros s p s' r [= _ <-]; reflexivity) ltac:(intros; exact I)
    0 answered called_answered) as (_ & _ & _ & H & _).
  apply H. apply list_elem_of_singleton. reflexivity.
Defined.

End rpc_example.
