(* ===== verification/RemoteShard.v ===== *)
(** * Remote shards

    Models of the stubs between the coordinators, the locking shards and the
    clients: [src/uhs/twophase/locking_shard/client.cpp], which repeats a
    request until the replicated shard has answered it,
    [status_client.hpp], which asks the shard that is responsible for a hash,
    and the commit of [state_machine.cpp] on the bytes of a log entry.  A
    remote shard honours the contract of a shard, so that what DistributedTx
    shows of batches holds across the network. *)

From Stdlib Require Import ZArith Lia.
From Stdlib.Strings Require Import Byte.
From stdpp Require Import base tactics numbers gmap sets list.
From S2P Require Import Prelude Serialization Crypto Transaction Validation.
From S2P Require Import CacheSet UhsSpec LockingShard DistributedTx Coordinator.
From S2P Require Import Atomizer Watchtower Messages Rpc.
Open Scope cbdc_scope.

(** ** The messages of a shard on the wire *)

Section ShardPayloads.
Variable reads : nat.

Definition shard_request_payload : Payload (hash_t * shard_params) := {|
  put_payload := put_shard_request;
  payload_dflt := ([], discard_params);
  get_payload := get_shard_request reads
|}.

Definition shard_response_payload : Payload shard_response := {|
  put_payload := put_shard_response;
  payload_dflt := lock_response [];
  get_payload := get_shard_response
|}.

#[local] Existing Instances shard_request_payload shard_response_payload.

#[local] Program Instance shard_request_laws : PayloadLaws (hash_t * shard_params) := {|
  payload_wf := shard_request_wf reads
|}.
Next Obligation. apply get_shard_request_roundtrip. Qed.

#[local] Program Instance shard_response_laws : PayloadLaws shard_response := {|
  payload_wf := shard_response_wf
|}.
Next Obligation. apply get_shard_response_roundtrip. Qed.

Context `{Hasher} `{Secp256k1}.

(** [commit] of the state machine on a log entry: the callback of the blocking
    server is [process_request]. *)
Definition commit_entry (s : shard_state_machine.t) (log_idx : Z) (data : list byte)
    : outcome (shard_state_machine.t * option (list byte)) :=
  if (log_idx =? add64 (shard_state_machine.m_last_committed_idx s) 1)%Z then
    let! '(shard, resp) :=
      blocking_call (Some (λ sh (req : hash_t * shard_params),
          let! '(sh', resp) := shard_state_machine.process_request sh req.1 req.2 in
          Ret (sh', Some resp)))
        (shard_state_machine.m_shard s) data in
    Ret (shard_state_machine.mk shard log_idx, resp)
  else Fatal.

(** On the bytes of a request it is [commit] on the request. *)
Lemma commit_entry_spec s log_idx id dtx_id params :
  is_u64 id → shard_request_wf reads (dtx_id, params) →
  commit_entry s log_idx (encode_request (id, (dtx_id, params))) =
    let! '(s', resp) := shard_state_machine.commit s log_idx (Some (dtx_id, params)) in
    Ret (s', (λ r, encode_response (id, Some r)) <$> resp).
Proof.
  intros Hid Hwf. unfold commit_entry, shard_state_machine.commit.
  case_match; [|done]. unfold blocking_call. rewrite decode_encode_request by done. cbn [obind fst snd].
  by destruct (shard_state_machine.process_request _ dtx_id params) as [[]|].
Qed.

End ShardPayloads.

(** ** The client of a shard *)

(** What becomes of one call with a timeout: the request or the answer of a
    node that is not the leader was lost, the request was committed but its
    answer was lost, or it was committed and answered.  Nodes commit what one
    client sends in the order in which it was sent. *)
Inductive attempt := lost | unanswered | answered.

#[export] Instance attempt_eq_dec : EqDecision attempt.
Proof. solve_decision. Defined.

Module shard_client.
Section Client.
Context `{Hasher} `{Secp256k1}.

(** The stub, with the replicated shard behind it; [m_net n] is what happens
    to the calls of request [n]. *)
Record t := mk {
  m_output_range : Z * Z;
  m_running : bool;
  m_sm : shard_state_machine.t;
  m_requests : nat;
  m_net : nat → list attempt
}.

Definition commit_next (sm : shard_state_machine.t) (req : hash_t * shard_params)
    : outcome (shard_state_machine.t * option shard_response) :=
  shard_state_machine.commit sm (add64 (shard_state_machine.m_last_committed_idx sm) 1)
    (Some req).

(** The loop of [send_request]; when the calls end without an answer, the
    client was stopped. *)
Fixpoint send_loop (sm : shard_state_machine.t) (req : hash_t * shard_params)
    (attempts : list attempt) : outcome (shard_state_machine.t * option shard_response) :=
  match attempts with
  | [] => Ret (sm, None)
  | lost :: attempts => send_loop sm req attempts
  | unanswered :: attempts =>
      let! '(sm', _) := commit_next sm req in send_loop sm' req attempts
  | answered :: _ => commit_next sm req
  end.

Definition send_request (c : t) (req : hash_t * shard_params)
    : outcome (t * option shard_response) :=
  if m_running c then
    let! '(sm, res) := send_loop (m_sm c) req (m_net c (m_requests c)) in
    Ret (mk (m_output_range c) (m_running c) sm (S (m_requests c)) (m_net c), res)
  else Ret (c, None).

(** [std::get] of another alternative throws. *)
Definition lock_outputs (c : t) (txs : list compact_tx.t) (dtx_id : hash_t)
    : outcome (t * option (list bool)) :=
  let! '(c', resp) := send_request c (dtx_id, lock_params txs) in
  match resp with
  | None => Ret (c', None)
  | Some (lock_response r) => Ret (c', Some r)
  | Some _ => Fatal
  end.

Definition apply_outputs (c : t) (complete_txs : list bool) (dtx_id : hash_t)
    : outcome (t * bool) :=
  let! '(c', res) := send_request c (dtx_id, apply_params complete_txs) in
  Ret (c', bool_decide (is_Some res)).

Definition discard_dtx (c : t) (dtx_id : hash_t) : outcome (t * bool) :=
  let! '(c', res) := send_request c (dtx_id, discard_params) in
  Ret (c', bool_decide (is_Some res)).

Definition stop (c : t) : t :=
  mk (m_output_range c) false (m_sm c) (m_requests c) (m_net c).

#[export] Instance shard_interface : ShardInterface t := {|
  DistributedTx.lock_outputs := lock_outputs;
  DistributedTx.apply_outputs := apply_outputs;
  DistributedTx.discard_dtx := discard_dtx;
  in_shard_range c := hash_in_shard_range (m_output_range c)
|}.

Definition shard_of (c : t) : locking_shard.t := shard_state_machine.m_shard (m_sm c).

(** Every request is answered at some point. *)
Definition served (c : t) : Prop := ∀ n, answered ∈ m_net c n.

Definition client_ok (c : t) : Prop :=
  m_running c = true ∧ served c ∧
  locking_shard.in_range (shard_of c) = hash_in_shard_range (m_output_range c).

(** Repeating a request that has the same effect the second time. *)
Lemma send_loop_spec req sh' resp attempts : ∀ sm,
  answered ∈ attempts →
  shard_state_machine.process_request (shard_state_machine.m_shard sm) req.1 req.2 =
    Ret (sh', resp) →
  shard_state_machine.process_request sh' req.1 req.2 = Ret (sh', resp) →
  ∃ sm', send_loop sm req attempts = Ret (sm', Some resp) ∧
    shard_state_machine.m_shard sm' = sh'.
Proof.
  induction attempts as [|a attempts IH]; intros sm Hin E1 E2; [by apply elem_of_nil in Hin|].
  destruct req as [d params]. cbn [fst snd] in *.
  assert (commit_next sm (d, params) = Ret (shard_state_machine.mk sh'
    (add64 (shard_state_machine.m_last_committed_idx sm) 1), Some resp)) as Ec.
  { unfold commit_next, shard_state_machine.commit. by rewrite Z.eqb_refl, E1. }
  destruct a; cbn [send_loop].
  - apply IH; [|done..]. by apply elem_of_cons in Hin as [].
  - rewrite Ec. cbn [obind]. apply IH; [|done..]. by apply elem_of_cons in Hin as [].
  - rewrite Ec. by eexists.
Qed.

Lemma send_request_spec c req sh' resp :
  client_ok c →
  shard_state_machine.process_request (shard_of c) req.1 req.2 = Ret (sh', resp) →
  shard_state_machine.process_request sh' req.1 req.2 = Ret (sh', resp) →
  locking_shard.in_range sh' = locking_shard.in_range (shard_of c) →
  ∃ c', send_request c req = Ret (c', Some resp) ∧ shard_of c' = sh' ∧ client_ok c' ∧
    m_output_range c' = m_output_range c.
Proof.
  intros (Hr & Hs & Ho) E1 E2 Hrange. unfold send_request. rewrite Hr.
  destruct (send_loop_spec req sh' resp (m_net c (m_requests c)) (m_sm c))
    as (sm & -> & Hsh); [apply Hs|done|done|].
  cbn [obind]. eexists. split; [done|]. unfold client_ok, shard_of, served. cbn.
  by rewrite Hsh, Hrange.
Qed.

End Client.
End shard_client.

(** ** The contract *)

Section RemoteLaws.
Context `{Hasher} `{Secp256k1}.
Import shard_client.

Abbreviation process := shard_state_machine.process_request.

Lemma process_lock sh txs d sh' r :
  locking_shard.lock_outputs sh txs d = Ret (sh', Some r) →
  process sh d (lock_params txs) = Ret (sh', lock_response r).
Proof. intros E. cbn. by rewrite E. Qed.

Lemma process_apply sh c d sh' :
  locking_shard.apply_outputs sh c d = Ret (sh', true) →
  process sh d (apply_params c) = Ret (sh', apply_response).
Proof. intros E. cbn. by rewrite E. Qed.

(** Discarding twice is discarding once. *)
Lemma process_discard sh d :
  locking_shard.m_running sh = true →
  ∃ sh', locking_shard.discard_dtx sh d = (sh', true) ∧
    process sh d discard_params = Ret (sh', discard_response) ∧
    process sh' d discard_params = Ret (sh', discard_response).
Proof.
  intros Hr. unfold process. unfold locking_shard.discard_dtx. rewrite Hr.
  eexists. split; [done|]. split; [done|]. cbn. rewrite Hr. do 2 f_equal.
  unfold locking_shard.set_dtxs. cbn. f_equal. set_solver.
Qed.

(** Ranges of a shard and its client agree. *)
Lemma range_eq (c c' : shard_client.t) :
  m_output_range c' = m_output_range c → in_shard_range c' = in_shard_range c.
Proof. intros E. cbn. by rewrite E. Qed.

(** Repeating a lock or an apply leaves the shard as it is. *)
Lemma relock (sh : locking_shard.t) txs d p :
  shard_ok sh → shard_prepared sh d = Some p →
  locking_shard.lock_outputs sh txs d = Ret (sh, Some p.2).
Proof.
  intros [Hi Hr] (q & Hq & ->)%fmap_Some. by apply shard_lemmas.lock_outputs_prepared.
Qed.

Lemma reapply (sh : locking_shard.t) fl d :
  shard_ok sh → shard_prepared sh d = None → shard_applied sh d →
  locking_shard.apply_outputs sh fl d = Ret (sh, true).
Proof.
  intros [Hi Hr] Hp Ha. apply fmap_None in Hp. by apply shard_lemmas.apply_outputs_applied.
Qed.

Lemma request_ok c req sh resp :
  client_ok c → process (shard_of c) req.1 req.2 = Ret (sh, resp) →
  process sh req.1 req.2 = Ret (sh, resp) →
  locking_shard.in_range sh = locking_shard.in_range (shard_of c) →
  ∃ c', send_request c req = Ret (c', Some resp) ∧ shard_of c' = sh ∧ client_ok c' ∧
    in_shard_range c' = in_shard_range c.
Proof.
  intros Hc E1 E2 Hr. destruct (send_request_spec c req sh resp Hc E1 E2 Hr)
    as (c' & ? & ? & ? & ?). exists c'. auto using range_eq.
Qed.

Lemma sent_lock c txs d c' r :
  send_request c (d, lock_params txs) = Ret (c', Some (lock_response r)) →
  DistributedTx.lock_outputs c txs d = Ret (c', Some r).
Proof. intros E. cbn. unfold lock_outputs. by rewrite E. Qed.

Lemma sent_apply c fl d c' r :
  send_request c (d, apply_params fl) = Ret (c', Some r) →
  DistributedTx.apply_outputs c fl d = Ret (c', true).
Proof. intros E. cbn. unfold apply_outputs. by rewrite E. Qed.

Lemma sent_discard c d c' r :
  send_request c (d, discard_params) = Ret (c', Some r) →
  DistributedTx.discard_dtx c d = Ret (c', true).
Proof. intros E. cbn. unfold discard_dtx. by rewrite E. Qed.

(** A remote shard is what the shard behind it is. *)
#[export] Program Instance remote_shard_laws : ShardLaws shard_client.t := {|
  shard_ok c := client_ok c ∧ shard_ok (shard_of c);
  shard_unspent c := shard_unspent (shard_of c);
  shard_prepared c := shard_prepared (shard_of c);
  shard_applied c := shard_applied (shard_of c);
  shard_vote c := shard_vote (shard_of c);
  shard_admissible c := shard_admissible (shard_of c)
|}.
Next Obligation.
  intros c h [(_ & _ & Ho) Hok] Hh. cbn [in_shard_range shard_interface]. rewrite <- Ho.
  exact (law_owned (shard_of c) h Hok Hh).
Qed.
Next Obligation.
  intros c txs d [Hc Hok] Hp Ha.
  destruct (law_lock (shard_of c) txs d Hok Hp Ha) as (sh & E & Hok' & Hr & Hu & Hp').
  destruct (request_ok c (d, lock_params txs) sh (lock_response (shard_vote (shard_of c) <$> txs)))
    as (c' & Es & Hsh & Hc' & Hrange); try done.
  { by apply process_lock. }
  { apply process_lock. exact (relock sh txs d _ Hok' Hp'). }
  exists c'. split; [by apply (sent_lock c)|]. rewrite Hsh. by split_and!.
Qed.
Next Obligation.
  intros c txs d p [Hc Hok] Hp. pose proof (relock (shard_of c) txs d p Hok Hp) as E.
  destruct (request_ok c (d, lock_params txs) (shard_of c) (lock_response p.2))
    as (c' & Es & Hsh & Hc' & Hrange); try done; [by apply process_lock..|].
  exists c'. split; [by apply (sent_lock c)|]. rewrite Hsh. by split_and!.
Qed.
Next Obligation.
  intros c fl d p [Hc Hok] Hp Hfl Hf.
  assert (in_shard_range c = locking_shard.in_range (shard_of c)) as Hin by (symmetry; apply Hc).
  rewrite Hin in *.
  destruct (law_apply (shard_of c) fl d p Hok Hp Hfl Hf) as (sh & E & Hok' & Hr & Hrun & Hp' & Ha).
  destruct (request_ok c (d, apply_params fl) sh apply_response)
    as (c' & Es & Hsh & Hc' & Hrange); try done.
  { by apply process_apply. }
  { apply process_apply. by apply reapply. }
  exists c'. split; [by apply (sent_apply c fl d c' apply_response)|]. rewrite Hsh.
  split_and!; try done. by rewrite <- Hin.
Qed.
Next Obligation.
  intros c fl d [Hc Hok] Hp Ha. pose proof (reapply (shard_of c) fl d Hok Hp Ha) as E.
  destruct (request_ok c (d, apply_params fl) (shard_of c) apply_response)
    as (c' & Es & Hsh & Hc' & Hrange); try done; [by apply process_apply..|].
  exists c'. split; [by apply (sent_apply c fl d c' apply_response)|]. rewrite Hsh. by split_and!.
Qed.
Next Obligation.
  intros c d [Hc Hok].
  destruct (law_discard (shard_of c) d Hok) as (sh & E & Hok' & Hr & Hu).
  destruct (process_discard (shard_of c) d (proj2 Hok)) as (sh1 & E1 & P1 & P2).
  assert (sh1 = sh) as ->.
  { cbn in E. rewrite E1 in E. by injection E. }
  destruct (request_ok c (d, discard_params) sh discard_response)
    as (c' & Es & Hsh & Hc' & Hrange); try done.
  exists c'. split; [by apply (sent_discard c d c' discard_response)|]. rewrite Hsh. by split_and!.
Qed.

End RemoteLaws.

(** ** Batches over remote shards *)

Section RemoteBatches.
Context `{Hasher} `{Secp256k1} {W : Type}.
Import shard_client distributed_tx dtx_lemmas shard_lemmas.

(** What the shards behind the stubs hold. *)
Definition remote_unspent (clients : list shard_client.t) : gset hash_t :=
  ⋃ (unspent ∘ shard_of <$> clients).

(** C10: a batch that competes for nothing is atomic across the network.  Assume
    of the batch what [execute_refines_uhs] assumes: no input is named twice or
    by a batch still prepared, its id and the hashes it creates are new, and
    the callbacks succeed.  Assume further that every request to a shard is
    answered at some point, after any number of calls that were lost or
    committed without an answer, and that a shard commits the requests of the
    stub in the order of the calls, so that no repetition of a request is
    committed after a later one.  Then executing the batch through the stubs
    over shards that partition the hash space succeeds with the verdicts of
    the shards, and changes the union of the unspent sets of the replicated
    shards by exactly the accepted transactions. *)
Theorem remote_batch_atomic cbs w dtx_id clients d full :
  cbs_succeed cbs → covers in_shard_range clients →
  Forall (ready full dtx_id) clients →
  fresh_history everything (remote_unspent clients)
    (committed full (verdict clients <$> full)) →
  create dtx_id clients = Ret d →
  ∃ (w' : W) d', execute cbs w (add_txs d full) =
      Ret (w', d', Some (verdict clients <$> full)) ∧
    m_state d' = done ∧ Forall client_ok (m_shards d') ∧
    uhs_run everything (remote_unspent clients)
      (committed full (verdict clients <$> full)) (remote_unspent (m_shards d')).
Proof.
  intros Hcb Hcov Hr Hf Hd.
  destruct (create_ok _ _ _ Hd) as (Hb & Hfull & Hs & Hid & Hst).
  destruct (add_txs_ok d full Hb) as (Hb' & Hfull' & Hs' & Hid' & Hst').
  destruct (execute_from_prepare cbs full dtx_id clients Hcb Hr Hf w
    (add_txs d full)) as (w' & d' & E & S & F).
  - right. congruence.
  - congruence.
  - done.
  - by rewrite Hfull', Hfull.
  - rewrite Hs', Hs. apply Forall_Forall2_diag, Forall_forall. auto.
  - exists w', d'. split_and!; [done|done| |
      change (uhs_run everything (⋃ (shard_unspent <$> clients))
        (committed full (verdict clients <$> full)) (⋃ (shard_unspent <$> m_shards d')));
      by eapply settled_global; try done].
    apply Forall_forall. intros c Hin. apply list_elem_of_lookup in Hin as [i Hi].
    destruct (Forall2_lookup_r _ _ _ _ _ F Hi) as (c0 & _ & [[Hc _] _]). exact Hc.
Qed.

End RemoteBatches.

Section RemoteWitness.
Import Toy shard_client distributed_tx dtx_lemmas shard_lemmas shard_example dtx_example.

(** Each request is lost once, then committed without an answer, then
    answered. *)
Definition stub (sh : locking_shard.t) : shard_client.t :=
  shard_client.mk (locking_shard.m_output_range sh) true (shard_state_machine.mk sh 0) 0
    (λ _, [lost; unanswered; answered]).

Lemma stub_ok sh : client_ok (stub sh).
Proof. split_and!; [done| |done]. intros n. do 2 right. left. Qed.

Lemma stub_ready sh : ready batch dtx sh → ready batch dtx (stub sh).
Proof.
  intros (Hok & Hp & Ha). split; [split; [apply stub_ok|exact Hok]|]. split; [exact Hp|].
  exact Ha.
Qed.

Definition stubs : list shard_client.t := stub <$> [shardA; shardB].

Lemma stubs_cover : covers in_shard_range stubs.
Proof.
  intros h. destruct (two_shards_cover h) as (i & sh & Hi & Ho & Hu).
  exists i, (stub sh). split; [unfold stubs; by rewrite list_lookup_fmap, Hi|].
  split; [exact Ho|]. intros j c Hj Hc. unfold stubs in Hj. rewrite list_lookup_fmap in Hj.
  apply fmap_Some in Hj as (sh' & Hj & ->). by apply (Hu j sh').
Qed.

Lemma remote_batch_atomic_witness :
  ∃ w' d', execute (no_callbacks unit) ()
      (add_txs (mk dtx stubs [[]; []] [] [[]; []] start []) batch) =
      Ret (w', d', Some (verdict stubs <$> batch)) ∧
    m_state d' = done ∧ Forall client_ok (m_shards d') ∧
    uhs_run everything (remote_unspent stubs)
      (committed batch (verdict stubs <$> batch)) (remote_unspent (m_shards d')).
Proof.
  apply (remote_batch_atomic (no_callbacks unit) () dtx stubs);
    [apply no_callbacks_succeed|exact stubs_cover| | |reflexivity].
  - pose proof two_shards_ready as Hr. inversion_clear Hr as [|?? HA Hr'].
    inversion_clear Hr' as [|?? HB _].
    constructor; [by apply stub_ready|]. constructor; [by apply stub_ready|constructor].
  - compute_decide.
Defined.

End RemoteWitness.

(** ** Asking for the status of a hash *)

Module status_client.
Section StatusClient.

(** The result of a call is what the server of a shard answers, or nothing. *)
Variable call : nat → status_request → option bool.

(** [make_request]: the first shard whose range has the hash. *)
Fixpoint make_request (shard_ranges : list (Z * Z)) (i : nat) (mk_req : hash_t → status_request)
    (val : hash_t) : option bool :=
  match shard_ranges with
  | [] => None
  | range :: shard_ranges =>
      if hash_in_shard_range range val then call i (mk_req val)
      else make_request shard_ranges (S i) mk_req val
  end.

Definition check_tx_id (shard_ranges : list (Z * Z)) (tx_id : hash_t) : option bool :=
  make_request shard_ranges 0 tx_status_request tx_id.

Definition check_unspent (shard_ranges : list (Z * Z)) (uhs_id : hash_t) : option bool :=
  make_request shard_ranges 0 uhs_status_request uhs_id.

End StatusClient.
End status_client.

Section StatusClientTheorems.
Import status_client.

(** The shards behind the read-only endpoints; each call may fail. *)
Variable shards : list locking_shard.t.
Variable reachable_shard : nat → bool.

Definition status_call (i : nat) (req : status_request) : option bool :=
  if reachable_shard i then sh ← shards !! i; status_request_handler sh req else None.

Lemma make_request_spec ranges mk_req val : ∀ k,
  match list_find (λ r, hash_in_shard_range r val = true) ranges with
  | Some (i, _) => make_request status_call ranges k mk_req val =
      status_call (k + i) (mk_req val)
  | None => make_request status_call ranges k mk_req val = None
  end.
Proof.
  induction ranges as [|r ranges IH]; intros k; [done|]. cbn [list_find make_request].
  destruct (hash_in_shard_range r val) eqn:E.
  - rewrite decide_True by done. by rewrite Nat.add_0_r.
  - rewrite decide_False by done. specialize (IH (S k)).
    destruct (list_find _ ranges) as [[i r']|]; [|done]. cbn. rewrite IH. by rewrite Nat.add_succ_r.
Qed.

(** The status client tells the truth.  Over shards that partition the
    hash space an answer about a hash is that of the shard that owns it: the
    hash is reported unspent exactly when some shard holds it, and there is no
    answer only when that shard cannot be reached. *)
Theorem status_client_unspent uhs_id i sh :
  covers locking_shard.in_range shards → Forall shard_lemmas.shard_inv shards →
  shards !! i = Some sh → locking_shard.in_range sh uhs_id = true →
  check_unspent status_call (locking_shard.m_output_range <$> shards) uhs_id =
    if reachable_shard i
    then Some (bool_decide (uhs_id ∈ ⋃ (shard_lemmas.unspent <$> shards))) else None.
Proof.
  intros Hcov Hinv Hi Ho. unfold check_unspent.
  pose proof (make_request_spec (locking_shard.m_output_range <$> shards)
    uhs_status_request uhs_id 0) as Hm.
  destruct (Hcov uhs_id) as (j & shj & Hj & Hoj & Hu).
  pose proof (Hu i sh Hi Ho) as E. subst j. rewrite Hi in Hj. injection Hj as <-.
  destruct (list_find _ _) as [[k r]|] eqn:Hf.
  - apply list_find_Some in Hf as (Hk & Hr & _). rewrite list_lookup_fmap in Hk.
    apply fmap_Some in Hk as (shk & Hk & ->). pose proof (Hu k shk Hk Hr) as E. subst k.
    cbn [Nat.add] in Hm. rewrite Hm. unfold status_call. destruct (reachable_shard i); [|done].
    rewrite Hi. cbn. unfold locking_shard.check_unspent. f_equal. clear Hk.
    apply Bool.eq_iff_eq_true. rewrite orb_true_iff, !bool_decide_eq_true.
    rewrite elem_of_union_fmap. split.
    + intros Hin. exists i, sh. split; [done|]. unfold shard_lemmas.unspent. set_solver.
    + intros (j & sh' & Hj & Hin).
      assert (locking_shard.in_range sh' uhs_id = true) as Ho'.
      { apply (shard_lemmas.inv_owned sh'); [by apply (Forall_lookup_1 _ _ _ _ Hinv Hj)|done]. }
      pose proof (Hu j sh' Hj Ho') as E. subst j. rewrite Hi in Hj. injection Hj as <-.
      unfold shard_lemmas.unspent in Hin. set_solver.
  - exfalso. apply list_find_None in Hf. apply (Forall_lookup_1 _ _ i (locking_shard.m_output_range sh)) in Hf.
    + by apply Hf.
    + by rewrite list_lookup_fmap, Hi.
Qed.

End StatusClientTheorems.

Section StatusWitness.
Import shard_example dtx_example.

Lemma status_client_unspent_witness :
  status_client.check_unspent (status_call [shardA; shardB] (λ _, true))
    (locking_shard.m_output_range <$> [shardA; shardB]) (hid x81) = Some true.
Proof.
  rewrite (status_client_unspent [shardA; shardB] (λ _, true) (hid x81) 1 shardB);
    [vm_compute; reflexivity|exact two_shards_cover| |reflexivity|reflexivity].
  constructor; [|constructor; [|constructor]]; apply shard_lemmas.init_inv; compute_decide.
Defined.

End StatusWitness.
