(* ===== verification/Snapshot.v ===== *)
(** * Snapshots of the atomizer's replicas

    Model of the snapshot half of
    [src/uhs/atomizer/atomizer/state_machine.cpp]: the format of a snapshot
    ([format.cpp], [atomizer::serialize]), the files of the snapshot
    directory, [create_snapshot], [read_snapshot], [apply_snapshot], the
    transfer of a snapshot to another replica, and the constructor, which
    restarts from the last one.  The theorems are about replicas that may be
    stopped between any two operations on files. *)

From Stdlib Require Import ZArith Lia.
From Stdlib.Strings Require Import Byte.
From stdpp Require Import base tactics numbers gmap sets list.
From S2P Require Import Prelude Text FileSystem Serialization Crypto Transaction Validation.
From S2P Require Import LockingShard Coordinator Atomizer Watchtower Messages.
Open Scope cbdc_scope.

(** ** The metadata of a snapshot

    [nuraft::snapshot] belongs to the Raft library: what the state machine
    uses of it is a class.  Reading metadata from a buffer that holds none
    raises an exception. *)

Class NuraftSnapshot (Snp : Type) := {
  get_last_log_idx : Snp → Z;
  snp_serialize : Snp → list byte;
  snp_deserialize : list byte → outcome Snp;
  set_size : Snp → Z → Snp
}.

Class NuraftSnapshotLaws (Snp : Type) `{NuraftSnapshot Snp} := {
  snp_log_idx (s : Snp) : is_u64 (get_last_log_idx s);
  snp_roundtrip (s : Snp) : snp_deserialize (snp_serialize s) = Ret s;
  snp_small (s : Snp) : small (snp_serialize s);
  set_size_idx (s : Snp) n : get_last_log_idx (set_size s n) = get_last_log_idx s
}.

(** ** Format *)

Definition sizeof_unordered : Z := 56.

(** The transactions that wait for attestations: the keys of the map are the
    transactions, which compare by id. *)
Definition put_pending (m : gmap hash_t (compact_tx.t * gset Z)) : writes :=
  put_unordered_map_in put_compact_tx (put_unordered_set put_u32) (map_to_list m).*2.

Definition put_atomizer (a : atomizer.t) : writes :=
  put_u64 (Z.of_nat (atomizer.m_spent_cache_depth a)) ++
  put_u64 (atomizer.m_best_height a) ++
  put_vector put_compact_tx (atomizer.m_complete_txs a) ++
  put_vector (put_unordered_set put_array) (atomizer.m_spent a) ++
  put_vector put_pending (atomizer.m_txs a).

(** [atomizer::serialize] writes to a new buffer. *)
Definition atomizer_serialize (a : atomizer.t) : list byte :=
  buffer_serializer.m_pkt (run_writes (buffer_serializer.init []) (put_atomizer a)).

Section AtomizerGetter.
Context {St : Type} `{Serializer St}.
Variable reads : nat.

Definition get_pending : getter St (gmap hash_t (compact_tx.t * gset Z)) :=
  get_keyed_map compact_tx.m_id pair compact_tx.dflt ∅ (get_compact_tx reads)
    (get_unordered_set 4 0%Z get_u32 reads) (sizeof_compact_tx + sizeof_unordered) reads.

(** [atomizer::deserialize]: the containers are cleared first. *)
Definition get_atomizer : getter St atomizer.t := λ s a,
  let (s1, depth) := get_idx s (atomizer.m_spent_cache_depth a) in
  let (s2, best) := get_u64 s1 (atomizer.m_best_height a) in
  let (s3, complete) :=
    get_vector sizeof_compact_tx compact_tx.dflt (get_compact_tx reads) s2 [] in
  let (s4, spent) :=
    get_vector sizeof_unordered ∅
      (get_unordered_set 32 (zeros hash_size) (get_array hash_size) reads) s3 [] in
  let (s5, txs) := get_vector sizeof_unordered ∅ get_pending s4 [] in
  (s5, atomizer.mk txs complete spent best depth).

End AtomizerGetter.

Abbreviation blockstore := (gmap Z block).

(** [state_machine::snapshot]; the metadata is a null pointer before it is
    read. *)
Record snapshot (Snp : Type) := mk_snapshot {
  s_atomizer : atomizer.t;
  s_snp : option Snp;
  s_blocks : blockstore
}.
Arguments mk_snapshot {Snp}.
Arguments s_atomizer {Snp}.
Arguments s_snp {Snp}.
Arguments s_blocks {Snp}.

Section SnapshotFormat.
Context {Snp : Type} `{NuraftSnapshot Snp}.
Variable reads : nat.
(** The bytes of a buffer of a given size before anything is written to it. *)
Variable alloc : nat → list byte.

Definition put_snapshot (atm : atomizer.t) (snp : Snp) (blocks : blockstore) : writes :=
  let atomizer_buf := atomizer_serialize atm in
  let snp_buf := snp_serialize snp in
  put_u64 (Z.of_nat (length snp_buf)) ++ [snp_buf] ++ [atomizer_buf] ++
  put_unordered_map put_u64 put_block blocks.

Definition get_snapshot {St} `{Serializer St} : getter (aborting.t St) (snapshot Snp) := λ s snp,
  let (s1, snp_sz) := get_u64 s 0%Z in
  let (s2, bytes) := read s1 (Z.to_nat snp_sz) in
  match snp_deserialize (default (alloc (Z.to_nat snp_sz)) bytes) with
  | Fatal => (aborting.abort s2, snp)
  | Ret nuraft_snp =>
      let (s3, atm) := get_atomizer reads s2 (s_atomizer snp) in
      let (s4, blocks) :=
        get_unordered_map 40 0%Z block_dflt get_u64 (get_block_msg reads) reads s3 ∅ in
      (s4, mk_snapshot atm (Some nuraft_snp) blocks)
  end.

End SnapshotFormat.

(** *** Round trip *)

Definition pending_wf (reads : nat) (m : gmap hash_t (compact_tx.t * gset Z)) : Prop :=
  map_Forall (λ k e, compact_tx.m_id e.1 = k ∧ compact_tx.wf reads e.1 ∧
    set_wf is_u32 reads e.2) m ∧ (Z.of_nat (size m) < 2 ^ 63)%Z ∧ size m ≤ reads.

(** What the types of the source say of an atomizer, with the bound on the
    reads of a container. *)
Definition atomizer_wf (reads : nat) (a : atomizer.t) : Prop :=
  is_u64 (Z.of_nat (atomizer.m_spent_cache_depth a)) ∧
  is_u64 (atomizer.m_best_height a) ∧
  vec_wf (compact_tx.wf reads) (atomizer.m_complete_txs a) ∧
  vec_wf (set_wf hash_wf reads) (atomizer.m_spent a) ∧
  vec_wf (pending_wf reads) (atomizer.m_txs a).

Definition blocks_wf (reads : nat) (b : blockstore) : Prop :=
  map_Forall (λ h blk, is_u64 h ∧ block_wf reads blk) b ∧
  (Z.of_nat (size b) < 2 ^ 63)%Z ∧ size b ≤ reads.

Section AtomizerRoundtrip.
Context {St : Type} `{ReaderLaws St}.
Variable reads : nat.

Lemma get_pending_roundtrip : roundtrips (pending_wf reads) put_pending ∅ (get_pending reads).
Proof.
  intros m s rest (Hwf & Hsz & Hr) Hs. unfold get_pending.
  assert (entries compact_tx.m_id pair (map_to_list m).*2 = map_to_list m) as El.
  { unfold entries. rewrite <- list_fmap_compose. trans (id <$> map_to_list m); [|apply list_fmap_id].
    apply list_fmap_ext. intros i [k [tx atts]] Hi. cbn in *.
    apply list_elem_of_lookup_2, elem_of_map_to_list in Hi.
    destruct (Hwf _ _ Hi) as [Hk _]. cbn in Hk. by rewrite Hk. }
  enough (∃ s', get_keyed_map compact_tx.m_id pair compact_tx.dflt ∅ (get_compact_tx reads)
    (get_unordered_set 4 0%Z get_u32 reads) (sizeof_compact_tx + sizeof_unordered) reads s ∅ =
    (s', list_to_map (entries compact_tx.m_id pair (map_to_list m).*2)) ∧ at_bytes s' rest) as HH
    by by rewrite El, list_to_map_to_list in HH.
  eapply (get_keyed_map_in _ _ (compact_tx.wf reads) (set_wf is_u32 reads) put_compact_tx
    (put_unordered_set put_u32)); rewrite ?El, ?length_fmap, ?length_map_to_list; try done.
  - apply get_compact_tx_roundtrip.
  - apply get_unordered_set_roundtrip; [lia|apply get_u32_roundtrip].
  - apply Forall_fmap, Forall_forall. intros [k e] Hin%elem_of_map_to_list.
    cbn. apply (Hwf _ _ Hin).
  - apply NoDup_fst_map_to_list.
Qed.

Lemma get_spent_roundtrip :
  roundtrips (vec_wf (set_wf hash_wf reads)) (put_vector (put_unordered_set put_array)) []
    (get_vector sizeof_unordered ∅
       (get_unordered_set 32 (zeros hash_size) (get_array hash_size) reads)).
Proof.
  apply get_vector_roundtrip; [unfold sizeof_unordered; lia|].
  apply get_unordered_set_roundtrip; [lia|apply get_hash_roundtrip].
Qed.

Lemma get_waiting_roundtrip :
  roundtrips (vec_wf (pending_wf reads)) (put_vector put_pending) []
    (get_vector sizeof_unordered ∅ (get_pending reads)).
Proof.
  apply get_vector_roundtrip; [unfold sizeof_unordered; lia|apply get_pending_roundtrip].
Qed.

Lemma get_atomizer_roundtrip d :
  roundtrips (atomizer_wf reads) put_atomizer d (get_atomizer reads).
Proof.
  intros [txs complete spent best depth] s rest (Hd & Hb & Hc & Hs' & Ht) Hs.
  unfold put_atomizer in Hs. rewrite 4!bytes_of_app, <- !(assoc_L (++)) in Hs.
  cbn [atomizer.m_txs atomizer.m_complete_txs atomizer.m_spent atomizer.m_best_height
    atomizer.m_spent_cache_depth] in *. unfold get_atomizer.
  step get_idx_roundtrip; [done|]. step (get_u64_roundtrip (atomizer.m_best_height d)); [done|].
  step (get_txs_roundtrip reads); [done|].
  step get_spent_roundtrip; [done|]. step get_waiting_roundtrip; [done|].
  eauto.
Qed.

End AtomizerRoundtrip.

Section SnapshotRoundtrip.
Context {Snp : Type} `{NuraftSnapshotLaws Snp}.
Context {St : Type} `{ReaderLaws St}.
Variables (reads : nat) (alloc : nat → list byte).
Abbreviation ASt := (aborting.t St).

Lemma get_snapshot_roundtrip atm snp blocks d (s : aborting.t St) rest :
  atomizer_wf reads atm → blocks_wf reads blocks →
  at_bytes s (bytes_of (put_snapshot atm snp blocks) ++ rest) →
  ∃ s', get_snapshot reads alloc s d = (s', mk_snapshot atm (Some snp) blocks) ∧ at_bytes s' rest.
Proof.
  intros Ha Hb Hs. unfold put_snapshot, atomizer_serialize in Hs. rewrite new_buffer in Hs.
  rewrite 3!bytes_of_app, <- !(assoc_L (++)) in Hs. unfold get_snapshot.
  step (get_u64_roundtrip (St := ASt) 0%Z); [pose proof (snp_small snp); unfold small, is_u64 in *; lia|].
  rewrite Nat2Z.id. unfold bytes_of at 1 2 in Hs0. cbn [concat] in Hs0. rewrite !app_nil_r in Hs0.
  destruct (at_bytes_read _ _ _ _ Hs0 eq_refl) as (s2 & E2 & Hs2). simpl in E2. rewrite E2. cbn [from_option id].
  rewrite snp_roundtrip. clear Hs0. step (get_atomizer_roundtrip (St := ASt) reads); [done|].
  step (get_unordered_map_roundtrip (St := ASt) is_u64 (block_wf reads) put_u64 put_block 0%Z block_dflt get_u64
    (get_block_msg reads) 40 reads ltac:(lia) (get_u64_roundtrip 0%Z) (get_block_msg_roundtrip reads));
    [done|]. eauto.
Qed.

End SnapshotRoundtrip.

(** ** The operations of the state machine *)

Module snapshot_sm.
Section StateMachine.
Context {Snp : Type} `{NuraftSnapshot Snp}.
Variables (reads : nat) (alloc : nat → list byte).
(** The order in which a directory is listed. *)
Variable directory_iterator : directory → list (list byte).
Variable m_stxo_cache_depth : nat.

Definition m_tmp_file : list byte := [x74; x6d; x70].

(** Paths below the snapshot directory. *)
Definition get_snapshot_path (idx : Z) : list byte := to_string idx.
Definition get_tmp_path : list byte := m_tmp_file.

(** The loop over the directory that finds the last snapshot. *)
Fixpoint max_index (max_idx : Z) (names : list (list byte)) : outcome Z :=
  match names with
  | [] => Ret max_idx
  | name :: names =>
      if decide (name = m_tmp_file) then max_index max_idx names else
      let! f_idx := stoull name in
      max_index (if (max_idx <? f_idx)%Z then f_idx else max_idx) names
  end.

Definition open_snapshot (d : directory) (idx : Z) (open_fail_fatal : bool)
    : outcome (option (snapshot Snp)) :=
  match d !! get_snapshot_path idx with
  | None => if open_fail_fatal then Fatal else Ret None
  | Some content =>
      let sz := Z.of_nat (length content) in
      let (deser, snp) :=
        get_snapshot reads alloc (aborting.mk (istream_serializer.init content) false)
          (mk_snapshot (atomizer.init 0 m_stxo_cache_depth) None ∅) in
      if aborting.aborted deser || negb (operator_bool deser) then Fatal
      else Ret (Some (mk_snapshot (s_atomizer snp) ((λ s, set_size s sz) <$> s_snp snp)
                        (s_blocks snp)))
  end.

Definition read_snapshot (d : directory) (idx : Z) : outcome (option (snapshot Snp)) :=
  if (idx =? 0)%Z then
    let! max_idx := max_index 0 (directory_iterator d) in
    if (max_idx =? 0)%Z then Ret None else open_snapshot d max_idx true
  else open_snapshot d idx false.

Definition apply_snapshot (sm : atomizer_sm.t) (d : directory) (s : Snp)
    : outcome (atomizer_sm.t * bool) :=
  let! snp := read_snapshot d (get_last_log_idx s) in
  match snp with
  | Some snp =>
      Ret (atomizer_sm.mk (s_atomizer snp) (s_blocks snp) (get_last_log_idx s)
             (atomizer_sm.m_tx_notify_count sm), true)
  | None => Ret (sm, false)
  end.

Definition last_snapshot (d : directory) : outcome (option Snp) :=
  let! snp := read_snapshot d 0 in
  Ret (snp ← snp; s_snp snp).

(** The constructor. *)
Definition construct (d : directory) : outcome atomizer_sm.t :=
  let sm := atomizer_sm.init m_stxo_cache_depth in
  let! snp := last_snapshot d in
  match snp with
  | None => Ret sm
  | Some s =>
      let! '(sm', success) := apply_snapshot sm d s in
      if success : bool then Ret sm' else Fatal
  end.

(** The snapshots the loop at the end of [create_snapshot] removes. *)
Fixpoint obsolete (idx : Z) (names : list (list byte)) : outcome (list (list byte)) :=
  match names with
  | [] => Ret []
  | name :: names =>
      if decide (name = m_tmp_file) then
        let! rest := obsolete idx names in Ret (name :: rest)
      else
        let! f_idx := stoull name in
        let! rest := obsolete idx names in
        Ret (if (f_idx <? idx)%Z then name :: rest else rest)
  end.

Definition snapshot_content (sm : atomizer_sm.t) (snp : Snp) : list byte :=
  let ser := run_writes (ostream_serializer.init [])
    (put_snapshot (atomizer_sm.m_atomizer sm) snp (atomizer_sm.m_blocks sm)) in
  stream_serializer.m_content (ostream_serializer.m_str ser).

(** [create_snapshot]: what it does to the directory. *)
Definition create_snapshot (sm : atomizer_sm.t) (d : directory) (s : Snp)
    : outcome (list fs_op) :=
  let idx := get_last_log_idx s in
  if negb (idx =? atomizer_sm.m_last_committed_idx sm)%Z then Fatal else
  let! snp := snp_deserialize (snp_serialize s) in
  let saved := write_file get_tmp_path (snapshot_content sm snp) ++
    [fs_rename get_tmp_path (get_snapshot_path idx)] in
  let! removed := obsolete idx (directory_iterator (run_ops saved d)) in
  Ret (saved ++ (fs_remove <$> removed)).

(** The whole file is one object; [None] stands for the result -1. *)
Definition read_logical_snp_obj (d : directory) (s : Snp) : option (list byte) :=
  d !! get_snapshot_path (get_last_log_idx s).

Definition save_logical_snp_obj (s : Snp) (obj_id : Z) (data : list byte)
    : outcome (list fs_op * Z) :=
  if negb (obj_id =? 0)%Z then Fatal else
  Ret (write_file get_tmp_path data ++
         [fs_rename get_tmp_path (get_snapshot_path (get_last_log_idx s))],
       add64 obj_id 1).

End StateMachine.
End snapshot_sm.

(** ** The replicated log

    Two states of the machine are equivalent when they differ in the count of
    notifications at most, which is a statistic and not part of a snapshot. *)

#[export] Instance sm_equiv : Equiv atomizer_sm.t := λ s1 s2,
  atomizer_sm.m_atomizer s1 = atomizer_sm.m_atomizer s2 ∧
  atomizer_sm.m_blocks s1 = atomizer_sm.m_blocks s2 ∧
  atomizer_sm.m_last_committed_idx s1 = atomizer_sm.m_last_committed_idx s2.

#[export] Instance sm_equivalence : Equivalence (≡@{atomizer_sm.t}).
Proof. split; unfold equiv, sm_equiv; intros ?; naive_solver congruence. Qed.

Inductive log_entry :=
| app_log (req : atomizer_request)
| conf_log.

(** Commit one entry at the next index. *)
Definition commit_entry (s : atomizer_sm.t) (e : log_entry)
    : outcome (atomizer_sm.t * option atomizer_response) :=
  let idx := add64 (atomizer_sm.m_last_committed_idx s) 1 in
  match e with
  | app_log req => atomizer_sm.commit s idx req
  | conf_log => let! s' := atomizer_sm.commit_config s idx in Ret (s', None)
  end.

(** Results that agree on the answer and up to equivalence on the state. *)
Definition same_result (o1 o2 : outcome (atomizer_sm.t * option atomizer_response)) : Prop :=
  match o1, o2 with
  | Ret (s1, r1), Ret (s2, r2) => s1 ≡ s2 ∧ r1 = r2
  | Fatal, Fatal => True
  | _, _ => False
  end.

#[export] Instance commit_entry_proper :
  Proper ((≡) ==> (=) ==> same_result) commit_entry.
Proof.
  intros [a1 b1 i1 c1] [a2 b2 i2 c2] (Ha & Hb & Hi) e _ <-. cbn in *. subst a2 b2 i2.
  unfold commit_entry, atomizer_sm.commit, atomizer_sm.commit_config. cbn.
  rewrite Z.eqb_refl. cbn. destruct e as [[msgs| |h|h]|]; cbn; try done.
  - destruct (atomizer_sm.insert_all a1 msgs) as [[a errs]|]; done.
  - destruct (atomizer.make_block a1) as [[[a blk] errs]|]; done.
Qed.

Fixpoint replay (s : atomizer_sm.t) (log : list log_entry) : outcome atomizer_sm.t :=
  match log with
  | [] => Ret s
  | e :: log => let! '(s', _) := commit_entry s e in replay s' log
  end.

Lemma replay_app s l1 l2 : replay s (l1 ++ l2) = (let! s' := replay s l1 in replay s' l2).
Proof.
  revert s. induction l1 as [|e l1 IH]; intros s; [done|]. cbn.
  destruct (commit_entry s e) as [[s' r]|]; [apply IH|done].
Qed.

Lemma commit_entry_idx s e s' r :
  commit_entry s e = Ret (s', r) →
  atomizer_sm.m_last_committed_idx s' = add64 (atomizer_sm.m_last_committed_idx s) 1.
Proof.
  unfold commit_entry, atomizer_sm.commit, atomizer_sm.commit_config. cbn.
  rewrite Z.eqb_refl. cbn. destruct e as [[msgs| |h|h]|]; cbn; intros E.
  - destruct (atomizer_sm.insert_all _ _) as [[a errs]|]; [|done]. by simplify_eq/=.
  - destruct (atomizer.make_block _) as [[[a blk] errs]|]; [|done]. by simplify_eq/=.
  - by simplify_eq/=.
  - by simplify_eq/=.
  - by simplify_eq/=.
Qed.

Lemma replay_idx depth log s :
  (Z.of_nat (length log) < 2 ^ 63)%Z → replay (atomizer_sm.init depth) log = Ret s →
  atomizer_sm.m_last_committed_idx s = Z.of_nat (length log).
Proof.
  revert s. induction log as [|e log IH] using rev_ind; intros s Hb; cbn.
  { by intros [= <-]. }
  rewrite replay_app. rewrite length_app in *. cbn in *.
  destruct (replay _ log) as [s1|]; [|done]. cbn.
  destruct (commit_entry s1 e) as [[s2 r]|] eqn:E; [|done]. cbn. intros [= <-].
  rewrite (commit_entry_idx _ _ _ _ E), (IH s1), add64_exact by (done || unfold is_u64; lia). lia.
Qed.

(** ** Replicas *)

Module replicas.
Import snapshot_sm.
Section Replicas.
Context {Snp : Type} `{NuraftSnapshotLaws Snp}.
Variables (reads : nat) (alloc : nat → list byte).
Variable directory_iterator : directory → list (list byte).
Hypothesis iterates : ∀ d, directory_iterator d ≡ₚ elements (dom d).
Variable depth : nat.

(** The committed log, as far as it ever gets. *)
Variable log : list log_entry.
Hypothesis log_small : (Z.of_nat (length log) < 2 ^ 63)%Z.

Abbreviation construct := (construct (Snp := Snp) reads alloc directory_iterator depth).
Abbreviation create_snapshot := (create_snapshot (Snp := Snp) directory_iterator).
Abbreviation apply_snapshot := (apply_snapshot (Snp := Snp) reads alloc directory_iterator depth).

(** A replica that is stopped has only its files. *)
Record replica := mk { r_up : option atomizer_sm.t; r_dir : directory }.

Definition started : replica := mk (Some (atomizer_sm.init depth)) ∅.

Abbreviation idx sm := (atomizer_sm.m_last_committed_idx sm).

(** What the types of the source and the model's bound on reads say of a
    state that is written to a file; Raft takes no snapshot of an empty log. *)
Definition fits (sm : atomizer_sm.t) : Prop :=
  atomizer_wf reads (atomizer_sm.m_atomizer sm) ∧
  blocks_wf reads (atomizer_sm.m_blocks sm) ∧ (0 < idx sm)%Z.

(** A replica commits the next entry, takes a snapshot, installs the snapshot
    of another replica, or is stopped: between two of these, or after any of
    the operations on files that a snapshot or an install consists of.  A
    stopped replica starts again if the constructor returns. *)
Inductive replica_step (peers : list replica) (r : replica) : replica → Prop :=
| rs_commit sm e sm' resp :
    r_up r = Some sm → log !! Z.to_nat (idx sm) = Some e →
    commit_entry sm e = Ret (sm', resp) → replica_step peers r (mk (Some sm') (r_dir r))
| rs_snapshot sm s ops :
    r_up r = Some sm → fits sm → create_snapshot sm (r_dir r) s = Ret ops →
    replica_step peers r (mk (Some sm) (run_ops ops (r_dir r)))
| rs_stop_in_snapshot sm s ops k :
    r_up r = Some sm → fits sm → create_snapshot sm (r_dir r) s = Ret ops →
    replica_step peers r (mk None (run_ops (take k ops) (r_dir r)))
| rs_install sm peer s data ops obj_id sm' :
    r_up r = Some sm → peer ∈ peers → read_logical_snp_obj (r_dir peer) s = Some data →
    save_logical_snp_obj s 0 data = Ret (ops, obj_id) →
    apply_snapshot sm (run_ops ops (r_dir r)) s = Ret (sm', true) →
    replica_step peers r (mk (Some sm') (run_ops ops (r_dir r)))
| rs_stop_in_install sm peer s data ops obj_id k :
    r_up r = Some sm → peer ∈ peers → read_logical_snp_obj (r_dir peer) s = Some data →
    save_logical_snp_obj s 0 data = Ret (ops, obj_id) →
    replica_step peers r (mk None (run_ops (take k ops) (r_dir r)))
| rs_stop : replica_step peers r (mk None (r_dir r))
| rs_start sm :
    r_up r = None → construct (r_dir r) = Ret sm →
    replica_step peers r (mk (Some sm) (r_dir r)).

Inductive cluster_step : list replica → list replica → Prop :=
| cluster_one peers i r r' :
    peers !! i = Some r → replica_step peers r r' → cluster_step peers (<[ i := r' ]> peers).

(** The state after a part of the log. *)
Definition log_state (i : Z) (sm : atomizer_sm.t) : Prop :=
  (0 ≤ i ≤ Z.of_nat (length log))%Z ∧
  ∃ s, replay (atomizer_sm.init depth) (take (Z.to_nat i) log) = Ret s ∧ s ≡ sm.

(** The file of a snapshot: the state after as many entries as its name
    says. *)
Definition file_ok (name content : list byte) : Prop :=
  ∃ sm snp, let i := get_last_log_idx snp in
    name = to_string i ∧ (0 < i)%Z ∧ log_state i sm ∧
    atomizer_wf reads (atomizer_sm.m_atomizer sm) ∧
    blocks_wf reads (atomizer_sm.m_blocks sm) ∧
    content = bytes_of (put_snapshot (atomizer_sm.m_atomizer sm) snp (atomizer_sm.m_blocks sm)).

Definition dir_ok (d : directory) : Prop :=
  map_Forall (λ name content, name = m_tmp_file ∨ file_ok name content) d.

Definition replica_ok (r : replica) : Prop :=
  (∀ sm, r_up r = Some sm → log_state (idx sm) sm) ∧ dir_ok (r_dir r).

Lemma log_state_idx i sm : log_state i sm → atomizer_sm.m_last_committed_idx sm = i.
Proof.
  intros (Hi & s & Hr & _ & _ & <-). apply replay_idx in Hr; rewrite length_take in *; lia.
Qed.

Lemma path_not_tmp i : is_u64 i → get_snapshot_path i ≠ m_tmp_file.
Proof. intros Hi. apply to_string_not_word; [apply Hi|done]. Qed.

Lemma log_idx_bound i sm : log_state i sm → is_u64 i.
Proof. intros [Hi _]. unfold is_u64. lia. Qed.

(** *** Reading *)

Lemma open_snapshot_ok d (i : Z) fatal :
  dir_ok d → is_u64 i →
  match d !! get_snapshot_path i with
  | Some _ => ∃ snp sm,
      open_snapshot (Snp := Snp) reads alloc depth d i fatal =
        Ret (Some (mk_snapshot (atomizer_sm.m_atomizer sm) (Some snp) (atomizer_sm.m_blocks sm))) ∧
      get_last_log_idx snp = i ∧ log_state i sm
  | None => open_snapshot (Snp := Snp) reads alloc depth d i fatal = if fatal then Fatal else Ret None
  end.
Proof.
  intros Hd Hi. unfold open_snapshot. destruct (d !! get_snapshot_path i) as [content|] eqn:E; [|done].
  destruct (Hd _ _ E) as [Ht|(sm & snp & Hn & Hpos & Hs & Ha & Hb & ->)].
  { by destruct (path_not_tmp i Hi). }
  apply to_string_inj in Hn as ->; [|done|apply snp_log_idx].
  match goal with |- context [get_snapshot reads alloc ?s0 ?d0] =>
    destruct (get_snapshot_roundtrip reads alloc _ snp _ d0 s0 [] Ha Hb)
      as (s' & -> & ([_ Hok] & Hv & _)) end.
  { split; [split; [split; [done|cbn; lia]|done]|]. split; [done|]. cbn. by rewrite drop_0, app_nil_r. }
  rewrite Hok, Hv. cbn. eexists _, sm. split; [done|]. by rewrite set_size_idx.
Qed.

(** The names of a sound directory are the temporary file and numbers. *)
Definition named (names : list (list byte)) : Prop :=
  Forall (λ n, n = m_tmp_file ∨ ∃ i, n = to_string i ∧ is_u64 i ∧ (0 < i)%Z) names.

Lemma dir_named d : dir_ok d → named (directory_iterator d).
Proof.
  intros Hd. unfold named. rewrite iterates. apply Forall_forall.
  intros n [c Hc]%elem_of_elements%elem_of_dom.
  destruct (Hd _ _ Hc) as [->|(sm & snp & -> & Hpos & _)]; [by left|]. right.
  eexists. split; [done|]. split; [apply snp_log_idx|done].
Qed.

Lemma max_index_spec names : ∀ m,
  named names → (0 ≤ m)%Z →
  ∃ m', max_index m names = Ret m' ∧ (m ≤ m')%Z ∧
    (m' = m ∨ is_u64 m' ∧ to_string m' ∈ names) ∧
    (∀ i, is_u64 i → to_string i ∈ names → (i ≤ m')%Z).
Proof.
  induction names as [|n names IH]; intros m Hn Hm.
  { exists m. split_and!; [done|lia|by left|]. by intros i _ []%elem_of_nil. }
  inversion_clear Hn as [|?? Hc Hn']. cbn [max_index]. destruct Hc as [->|(i & -> & Hi & Hpos)].
  - rewrite decide_True by done. destruct (IH m Hn' Hm) as (m' & E & Hle & Hin & Hmax).
    exists m'. split; [done|]. split; [done|]. split.
    { destruct Hin as [?|[? ?]]; [by left|right]. split; [done|by right]. }
    intros i Hi [Ht|Hl]%elem_of_cons; [by destruct (path_not_tmp i Hi)|auto].
  - rewrite decide_False by by apply path_not_tmp. rewrite stoull_to_string by done. cbn [obind].
    set (m1 := if (m <? i)%Z then i else m).
    assert (m ≤ m1 ∧ i ≤ m1)%Z as [Hm1 Hi1] by (unfold m1; destruct (Z.ltb_spec m i); lia).
    assert (m1 = m ∨ m1 = i) as Hc by (unfold m1; destruct (m <? i)%Z; auto).
    clearbody m1. destruct (IH m1 Hn') as (m' & E & Hle & Hin & Hmax); [lia|].
    exists m'. split; [done|]. split; [lia|]. split.
    { destruct Hin as [->|[? ?]]; [destruct Hc as [-> | ->]|].
      - by left.
      - right. split; [done|by left].
      - right. split; [done|by right]. }
    intros j Hj [Ht|Hl]%elem_of_cons; [|auto]. apply to_string_inj in Ht as ->; [lia|done|done].
Qed.

Lemma obsolete_spec i names :
  named names → ∃ removed, obsolete i names = Ret removed ∧
    ∀ n, n ∈ removed → n ∈ names ∧ (n = m_tmp_file ∨ ∃ j, n = to_string j ∧ is_u64 j ∧ (j < i)%Z).
Proof.
  induction 1 as [|n names [->|(j & -> & Hj & Hpos)] Hn (removed & E & Hr)]; cbn [obsolete].
  - exists []. split; [done|]. by intros n []%elem_of_nil.
  - rewrite decide_True, E by done. cbn. eexists. split; [done|].
    intros n [->|Hin]%elem_of_cons; [split; [left|by left]|]. destruct (Hr n Hin). split; [by right|done].
  - rewrite decide_False by by apply path_not_tmp. rewrite stoull_to_string by done. rewrite E. cbn.
    eexists. split; [done|]. intros n. destruct (Z.ltb_spec j i).
    + intros [->|Hin]%elem_of_cons; [split; [left|right; eauto]|].
      destruct (Hr n Hin). split; [by right|done].
    + intros Hin. destruct (Hr n Hin). split; [by right|done].
Qed.

(** A replica that starts from a sound directory is in the state of its last
    snapshot. *)
Lemma construct_ok d :
  dir_ok d → ∃ sm, construct d = Ret sm ∧ log_state (atomizer_sm.m_last_committed_idx sm) sm ∧
    ∀ i, is_u64 i → is_Some (d !! to_string i) → (i ≤ atomizer_sm.m_last_committed_idx sm)%Z.
Proof.
  intros Hd. unfold snapshot_sm.construct, last_snapshot, read_snapshot. cbn [Z.eqb].
  destruct (max_index_spec _ 0%Z (dir_named d Hd)) as (m & -> & Hm & Hin & Hmax); [lia|]. cbn [obind].
  assert (∀ n, n ∈ directory_iterator d ↔ is_Some (d !! n)) as Hdom.
  { intros n. by rewrite iterates, elem_of_elements, elem_of_dom. }
  destruct (Z.eqb_spec m 0) as [->|Hne].
  { eexists. split; [done|]. cbn. split; [|intros i Hi Hs; by apply Hmax, Hdom].
    split; [lia|]. by exists (atomizer_sm.init depth). }
  destruct Hin as [?|[Hu Hin]]; [done|]. apply Hdom in Hin as [c Hc].
  pose proof (open_snapshot_ok d m true Hd Hu) as Ho. unfold get_snapshot_path in Ho. rewrite Hc in Ho.
  destruct Ho as (snp & sm & -> & Hidx & Hs). cbn [obind mbind option_bind s_snp].
  unfold snapshot_sm.apply_snapshot, read_snapshot. rewrite Hidx.
  destruct (Z.eqb_spec m 0); [done|].
  pose proof (open_snapshot_ok d m false Hd Hu) as Ho. unfold get_snapshot_path in Ho. rewrite Hc in Ho.
  destruct Ho as (snp' & sm' & -> & _ & Hs'). cbn. eexists. split; [done|]. cbn. split.
  - destruct Hs' as (Hb & s & Hr & E1 & E2 & E3). split; [done|]. exists s. split; [done|].
    pose proof Hr as E. apply replay_idx in E; rewrite length_take in *; [|lia].
    split; [done|]. split; [done|]. cbn. rewrite E. lia.
  - intros i Hi Hs0. by apply Hmax, Hdom.
Qed.

(** *** Writing *)

Lemma dir_insert d name content :
  dir_ok d → name = m_tmp_file ∨ file_ok name content → dir_ok (<[ name := content ]> d).
Proof. intros Hd Hn. apply map_Forall_insert_2; [done|exact Hd]. Qed.

Lemma dir_delete d name : dir_ok d → dir_ok (delete name d).
Proof. apply map_Forall_delete. Qed.

(** Writing a sound file under the temporary name and renaming it. *)
Definition saved (name content : list byte) : list fs_op :=
  write_file get_tmp_path content ++ [fs_rename get_tmp_path name].

Lemma run_saved name content d :
  run_ops (saved name content) d = <[ name := content ]> (delete get_tmp_path d).
Proof.
  unfold saved. rewrite run_ops_app, run_write_file. cbn. rewrite lookup_insert_eq.
  by rewrite delete_insert_eq.
Qed.

Lemma saved_always name content d :
  dir_ok d → file_ok name content → always dir_ok (saved name content) d.
Proof.
  intros Hd Hf. apply always_app.
  - apply always_write; [done|]. intros c. apply dir_insert; [done|by left].
  - rewrite run_write_file. apply always_cons; [by apply dir_insert; [|left]|].
    apply always_nil. cbn [run_op]. rewrite lookup_insert_eq, delete_insert_eq.
    apply dir_insert; [by apply dir_delete|by right].
Qed.

Lemma removes_always names d : dir_ok d → always dir_ok (fs_remove <$> names) d.
Proof.
  revert d. induction names as [|n names IH]; intros d Hd; [by apply always_nil|].
  apply always_cons; [done|]. by apply IH, dir_delete.
Qed.

Lemma run_removes names n d :
  n ∉ names → run_ops (fs_remove <$> names) d !! n = d !! n.
Proof.
  revert d. induction names as [|n' names IH]; intros d Hn; [done|]. cbn.
  apply not_elem_of_cons in Hn as [Hne Hn]. etrans; [by apply IH|]. by apply lookup_delete_ne.
Qed.

Lemma create_snapshot_ok sm d s ops :
  log_state (idx sm) sm → dir_ok d → fits sm → create_snapshot sm d s = Ret ops →
  always dir_ok ops d ∧ is_Some (run_ops ops d !! to_string (idx sm)).
Proof.
  intros Hs Hd (Ha & Hb & Hpos) E. unfold snapshot_sm.create_snapshot in E.
  destruct (Z.eqb_spec (get_last_log_idx s) (idx sm)) as [Hi|]; [cbn [negb] in E|done].
  rewrite snp_roundtrip in E. cbn [obind] in E.
  set (content := snapshot_content sm s) in E. fold (saved (get_snapshot_path (get_last_log_idx s)) content) in E.
  assert (file_ok (get_snapshot_path (get_last_log_idx s)) content) as Hf.
  { exists sm, s. split_and!; [done|by rewrite Hi|by rewrite Hi|done|done|].
    unfold content, snapshot_content. by rewrite new_file. }
  pose proof (saved_always _ _ _ Hd Hf) as Hsv. pose proof (always_all _ _ _ Hsv) as Hd'.
  destruct (obsolete_spec (get_last_log_idx s) _ (dir_named _ Hd')) as (removed & Er & Hr).
  rewrite Er in E. cbn [obind] in E.
  assert (ops = saved (get_snapshot_path (get_last_log_idx s)) content ++ (fs_remove <$> removed))
    as -> by congruence. clear E. split.
  - apply always_app; [done|by apply removes_always].
  - rewrite run_ops_app, run_removes.
    + rewrite run_saved, Hi. rewrite lookup_insert_eq. eauto.
    + rewrite <- Hi. intros [_ [Ht|(j & Hj & Hju & Hlt)]]%Hr.
      * by apply (path_not_tmp (get_last_log_idx s)); [apply snp_log_idx|].
      * apply to_string_inj in Hj; [lia|apply snp_log_idx|done].
Qed.

Lemma install_ok pd s data ops obj_id d :
  dir_ok pd → dir_ok d → read_logical_snp_obj pd s = Some data →
  save_logical_snp_obj s 0 data = Ret (ops, obj_id) →
  always dir_ok ops d ∧ (0 < get_last_log_idx s)%Z ∧
  is_Some (run_ops ops d !! get_snapshot_path (get_last_log_idx s)).
Proof.
  intros Hp Hd Hr E. unfold save_logical_snp_obj in E. cbn [negb Z.eqb] in E.
  assert (ops = saved (get_snapshot_path (get_last_log_idx s)) data) as -> by (unfold saved; congruence).
  destruct (Hp _ _ Hr) as [Ht|Hf].
  { by destruct (path_not_tmp (get_last_log_idx s)); [apply snp_log_idx|]. }
  split; [by apply saved_always|]. split.
  - destruct Hf as (sm1 & snp & Hn & Hpos & _).
    apply to_string_inj in Hn as ->; [done|apply snp_log_idx..].
  - rewrite run_saved, lookup_insert_eq. eauto.
Qed.

Lemma apply_snapshot_ok sm d s :
  dir_ok d → (0 < get_last_log_idx s)%Z →
  is_Some (d !! get_snapshot_path (get_last_log_idx s)) →
  ∃ sm', apply_snapshot sm d s = Ret (sm', true) ∧ log_state (idx sm') sm' ∧
    idx sm' = get_last_log_idx s.
Proof.
  intros Hd Hpos [c Hc]. unfold snapshot_sm.apply_snapshot, read_snapshot.
  destruct (Z.eqb_spec (get_last_log_idx s) 0); [lia|].
  pose proof (open_snapshot_ok d (get_last_log_idx s) false Hd (snp_log_idx s)) as Ho.
  rewrite Hc in Ho. destruct Ho as (snp & sm1 & -> & _ & Hs). cbn. eexists. split; [done|].
  split; [|done]. cbn.
  pose proof (log_state_idx _ _ Hs) as Hi. destruct Hs as (Hb & s1 & Hr & E1 & E2 & E3).
  split; [done|]. exists s1. split; [done|]. split; [done|]. split; [done|]. cbn. congruence.
Qed.

Lemma commit_ok sm e sm' resp :
  log_state (idx sm) sm → log !! Z.to_nat (idx sm) = Some e →
  commit_entry sm e = Ret (sm', resp) → log_state (idx sm') sm'.
Proof.
  intros (Hb & s & Hrep & Heq) He E.
  pose proof (commit_entry_proper _ _ Heq e e eq_refl) as Hsame. rewrite E in Hsame.
  destruct (commit_entry s e) as [[s' resp']|] eqn:Es; [|done]. destruct Hsame as [Heq' _].
  apply lookup_lt_Some in He as Hlt. rewrite (commit_entry_idx _ _ _ _ E).
  rewrite add64_exact by (unfold is_u64; lia). split; [lia|]. exists s'. split; [|done].
  replace (Z.to_nat (idx sm + 1)) with (S (Z.to_nat (idx sm))) by lia.
  rewrite (take_S_r _ _ _ He), replay_app, Hrep. cbn. by rewrite Es.
Qed.

Lemma replica_step_ok peers r r' :
  Forall replica_ok peers → replica_ok r → replica_step peers r r' → replica_ok r'.
Proof.
  intros Hp [Hs Hd] Hst. rewrite Forall_forall in Hp.
  assert (∀ sm d, log_state (idx sm) sm → dir_ok d → replica_ok (mk (Some sm) d)) as Hup.
  { intros sm d ? ?. split; [by intros ? [= <-]|done]. }
  assert (∀ d, dir_ok d → replica_ok (mk None d)) as Hdown by (intros d ?; by split).
  destruct Hst as [sm e sm' resp Er He E|sm s ops Er Hf E|sm s ops k Er Hf E
    |sm peer s data ops o sm' Er Hin Hrd E E'|sm peer s data ops o k Er Hin Hrd E| |sm _ E].
  - apply Hup; [|done]. by eapply commit_ok; [apply Hs|..].
  - apply Hup; [by apply Hs|]. apply always_all. by apply (create_snapshot_ok sm _ s); [apply Hs|..].
  - apply Hdown. by apply (create_snapshot_ok sm _ s ops); [apply Hs|..].
  - destruct (install_ok _ _ _ _ _ _ (proj2 (Hp peer Hin)) Hd Hrd E) as (Ha & Hpos & Hf).
    apply always_all in Ha.
    destruct (apply_snapshot_ok sm _ s Ha Hpos Hf) as (sm1 & E1 & Hl & _).
    rewrite E' in E1. simplify_eq. by apply Hup.
  - apply Hdown. by apply (install_ok _ _ _ _ _ _ (proj2 (Hp peer Hin)) Hd Hrd E).
  - by apply Hdown.
  - destruct (construct_ok _ Hd) as (sm' & E' & Hs' & _). rewrite E in E'. simplify_eq.
    by apply Hup.
Qed.

Lemma cluster_ok n c :
  rtc cluster_step (replicate n started) c → Forall replica_ok c.
Proof.
  intros Hr. assert (Forall replica_ok (replicate n started)) as Hstart.
  { apply Forall_replicate. split; [|apply map_Forall_empty]. intros sm [= <-].
    split; [cbn; lia|]. by exists (atomizer_sm.init depth). }
  revert Hstart. induction Hr as [c|c1 c2 c3 Hst _ IH]; [done|]. intros Hc. apply IH.
  destruct Hst as [peers i r r' Hi Hst]. apply Forall_insert; [done|].
  eapply replica_step_ok; [done| |done]. by eapply Forall_lookup_1.
Qed.

(** C8: replicas survive.  Let the replicas of a cluster commit a log, take
    snapshots of states that fit the machine types, install those of each
    other, and be stopped at any moment: also after any of the operations on
    files that a snapshot or an install is made of.  Every replica that is up
    is in the state that follows from the part of the log it has applied, so
    two replicas that have applied the same number of entries agree.  Every
    replica, however it was stopped, can start again from its files; a snapshot
    that was finished is not lost; and a snapshot another replica holds can be
    installed: if the install is interrupted the replica can start again, and
    otherwise it arrives at the state of the snapshot. *)
Theorem replicas_survive n c :
  rtc cluster_step (replicate n started) c →
  (∀ r sm, r ∈ c → r_up r = Some sm →
     ∃ s, replay (atomizer_sm.init depth) (take (Z.to_nat (idx sm)) log) = Ret s ∧ s ≡ sm) ∧
  (∀ r1 r2 sm1 sm2, r1 ∈ c → r2 ∈ c → r_up r1 = Some sm1 → r_up r2 = Some sm2 →
     idx sm1 = idx sm2 → sm1 ≡ sm2) ∧
  (∀ r, r ∈ c → is_ret (construct (r_dir r))) ∧
  (∀ r sm s ops k, r ∈ c → r_up r = Some sm → fits sm →
     create_snapshot sm (r_dir r) s = Ret ops →
     is_ret (construct (run_ops (take k ops) (r_dir r))) ∧
     ∃ sm', construct (run_ops ops (r_dir r)) = Ret sm' ∧ (idx sm ≤ idx sm')%Z) ∧
  (∀ r sm peer s data, r ∈ c → r_up r = Some sm → peer ∈ c →
     read_logical_snp_obj (r_dir peer) s = Some data →
     ∃ ops obj_id, save_logical_snp_obj s 0 data = Ret (ops, obj_id) ∧
       (∀ k, is_ret (construct (run_ops (take k ops) (r_dir r)))) ∧
       ∃ sm', apply_snapshot sm (run_ops ops (r_dir r)) s = Ret (sm', true) ∧
         idx sm' = get_last_log_idx s).
Proof.
  intros Hr%cluster_ok. rewrite Forall_forall in Hr.
  assert (∀ d, dir_ok d → is_ret (construct d)) as Hret.
  { intros d Hd. destruct (construct_ok d Hd) as (sm & E & _). by exists sm. }
  split_and!.
  - intros r sm Hin Hu. by apply (proj1 (Hr r Hin)).
  - intros r1 r2 sm1 sm2 H1 H2 U1 U2 E. destruct (proj1 (Hr r1 H1) _ U1) as (_ & s1 & E1 & Hs1).
    destruct (proj1 (Hr r2 H2) _ U2) as (_ & s2 & E2 & Hs2). rewrite E in E1.
    assert (s1 = s2) as -> by congruence. by rewrite <- Hs1, Hs2.
  - intros r Hin. apply Hret, (Hr r Hin).
  - intros r sm s ops k Hin Hu Hf E. destruct (Hr r Hin) as [Hs Hd].
    destruct (create_snapshot_ok sm _ s ops (Hs _ Hu) Hd Hf E) as [Ha Hsome].
    split; [apply Hret, Ha|]. destruct (construct_ok _ (always_all _ _ _ Ha)) as (sm' & E' & _ & Hmax).
    exists sm'. split; [done|]. apply Hmax; [|done]. eapply log_idx_bound. by apply Hs.
  - intros r sm peer s data Hin Hu Hp Hrd. destruct (Hr r Hin) as [_ Hd].
    do 2 eexists. split; [reflexivity|].
    destruct (install_ok _ s data _ _ (r_dir r) (proj2 (Hr peer Hp)) Hd Hrd eq_refl)
      as (Ha & Hpos & Hf).
    split; [intros k; apply Hret, Ha|].
    destruct (apply_snapshot_ok sm _ s (always_all _ _ _ Ha) Hpos Hf) as (sm' & E & _ & Hi).
    eauto.
Qed.

End Replicas.
End replicas.

(** ** An example

    Metadata of one byte, a cluster of two replicas that commit a log with a
    block. *)

Module snapshot_example.
Import snapshot_sm replicas.

#[local] Instance byte_snapshot : NuraftSnapshot byte := {|
  get_last_log_idx := Z_of_byte;
  snp_serialize b := [b];
  snp_deserialize bs := match bs with [b] => Ret b | _ => Fatal end;
  set_size s _ := s
|}.

#[local] Program Instance byte_snapshot_laws : NuraftSnapshotLaws byte.
Next Obligation. intros b. unfold is_u64. pose proof (Z_of_byte_range b). cbn. lia. Qed.
Next Obligation. done. Qed.
Next Obligation. done. Qed.
Next Obligation. done. Qed.

Definition listing (d : directory) : list (list byte) := elements (dom d).

Definition example_log : list log_entry := [app_log make_block_request; conf_log].

Definition committed : atomizer_sm.t :=
  atomizer_sm.mk (atomizer.mk [∅; ∅] [] [∅; ∅] 1 1)
    {[ 1%Z := {| m_height := 1; m_transactions := [] |} ]} 1 0.

Abbreviation step := (replica_step (Snp := byte) 4 (λ n, replicate n x00) listing 1 example_log).
Abbreviation cluster := (cluster_step (Snp := byte) 4 (λ n, replicate n x00) listing 1 example_log).

Definition ops_of (o : outcome (list fs_op)) : list fs_op :=
  match o with Ret ops => ops | Fatal => [] end.
Definition sm_of (o : outcome atomizer_sm.t) : atomizer_sm.t :=
  match o with Ret sm => sm | Fatal => atomizer_sm.init 1 end.

Definition snapshot_ops : list fs_op :=
  ops_of (create_snapshot (Snp := byte) listing committed ∅ x01).
Definition stored : directory := run_ops (take (length snapshot_ops) snapshot_ops) ∅.
Definition restarted : atomizer_sm.t :=
  sm_of (construct (Snp := byte) 4 (λ n, replicate n x00) listing 1 stored).
Definition transferred : list byte := default [] (stored !! to_string 1).
Definition install_ops : list fs_op :=
  write_file get_tmp_path transferred ++ [fs_rename get_tmp_path (to_string 1)].
Lemma committed_fits : fits 4 committed.
Proof.
  split; [|split; [|done]].
  - split; [done|]. split; [done|]. split; [split; [constructor|done]|]. split; (split; [|done]).
    + apply (Forall_replicate _ 2 (∅ : gset hash_t)). split; [by intros ? []%not_elem_of_empty|].
      split; [done|]. vm_compute. lia.
    + apply (Forall_replicate _ 2 (∅ : gmap hash_t (compact_tx.t * gset Z))).
      split; [apply map_Forall_empty|]. split; [done|]. vm_compute. lia.
  - split; [|split; [done|vm_compute; lia]]. apply map_Forall_singleton. split; [done|].
    split; [done|]. split; [constructor|done].
Qed.

(** The first replica is stopped right after its snapshot and starts again;
    the second one is stopped in the middle of the install, starts, and
    installs the snapshot. *)
Definition half_installed : directory := run_ops (take 1 install_ops) ∅.
Definition back : atomizer_sm.t :=
  sm_of (construct (Snp := byte) 4 (λ n, replicate n x00) listing 1 half_installed).
Definition installed_dir : directory := run_ops install_ops half_installed.
Definition installed : outcome (atomizer_sm.t * bool) :=
  apply_snapshot (Snp := byte) 4 (λ n, replicate n x00) listing 1 back installed_dir x01.
Definition installed_sm : atomizer_sm.t :=
  match installed with Ret (sm, _) => sm | Fatal => atomizer_sm.init 1 end.

Lemma example_cluster :
  rtc cluster (replicate 2 (started 1))
    [mk (Some restarted) stored; mk (Some installed_sm) installed_dir].
Proof.
  apply rtc_l with [mk (Some committed) ∅; started 1].
  { apply (cluster_one _ _ _ _ _ [started 1; started 1] 0 (started 1)); [reflexivity|].
    eapply rs_commit; [reflexivity|reflexivity|]. vm_compute. reflexivity. }
  apply rtc_l with [mk None stored; started 1].
  { apply (cluster_one _ _ _ _ _ [mk (Some committed) ∅; started 1] 0 (mk (Some committed) ∅));
      [reflexivity|].
    apply (rs_stop_in_snapshot _ _ _ _ _ _ (mk (Some committed) ∅) committed x01 snapshot_ops);
      [reflexivity|apply committed_fits|vm_compute; reflexivity]. }
  apply rtc_l with [mk (Some restarted) stored; started 1].
  { apply (cluster_one _ _ _ _ _ [mk None stored; started 1] 0 (mk None stored)); [reflexivity|].
    apply rs_start; [reflexivity|]. vm_compute. reflexivity. }
  apply rtc_l with [mk (Some restarted) stored; mk None half_installed].
  { apply (cluster_one _ _ _ _ _ [mk (Some restarted) stored; started 1] 1 (started 1)); [reflexivity|].
    apply (rs_stop_in_install _ _ _ _ _ _ (started 1) (atomizer_sm.init 1) (mk (Some restarted) stored)
      x01 transferred install_ops 1%Z);
      [reflexivity|left|vm_compute; reflexivity|reflexivity]. }
  apply rtc_l with [mk (Some restarted) stored; mk (Some back) half_installed].
  { apply (cluster_one _ _ _ _ _ [mk (Some restarted) stored; mk None half_installed] 1
      (mk None half_installed)); [reflexivity|].
    apply rs_start; [reflexivity|]. vm_compute. reflexivity. }
  apply rtc_once.
  apply (cluster_one _ _ _ _ _ [mk (Some restarted) stored; mk (Some back) half_installed] 1
    (mk (Some back) half_installed)); [reflexivity|].
  apply (rs_install _ _ _ _ _ _ (mk (Some back) half_installed) back (mk (Some restarted) stored)
    x01 transferred install_ops 1%Z);
    [reflexivity|left|vm_compute; reflexivity|reflexivity|vm_compute; reflexivity].
Qed.

Lemma replicas_survive_witness :
  atomizer_sm.m_last_committed_idx restarted = 1%Z ∧
  atomizer.m_best_height (atomizer_sm.m_atomizer installed_sm) = 1%Z ∧ restarted ≡ installed_sm.
Proof.
  split; [vm_compute; reflexivity|]. split; [vm_compute; reflexivity|].
  destruct (replicas_survive (Snp := byte) 4 (λ n, replicate n x00) listing (λ d, reflexivity _) 1
    example_log eq_refl 2 _ example_cluster) as (_ & Hagree & _).
  apply (Hagree (mk (Some restarted) stored) (mk (Some installed_sm) installed_dir));
    [left|right; left|reflexivity|reflexivity|vm_compute; reflexivity].
Defined.

End snapshot_example.
