(* ===== verification/RaftNode.v ===== *)
(** * The Raft node

    Models of [src/util/raft/state_manager.cpp], which keeps the vote and the
    configuration of a node in files, and of the parts of [node.cpp] that are
    not calls of the Raft library: building the cluster and replicating an
    entry.  The objects that are stored and the answers of the library are
    parameters. *)

From Stdlib Require Import ZArith Lia.
From Stdlib.Strings Require Import Byte String.
From stdpp Require Import base tactics numbers gmap sets list.
From S2P Require Import Prelude Text FileSystem.
Open Scope cbdc_scope.

(** An object of the Raft library with its bytes; reading bytes that are not
    those of an object raises an exception. *)
Class RaftObject (T : Type) := {
  obj_serialize : T → list byte;
  obj_deserialize : list byte → outcome T
}.

Class RaftObjectLaws (T : Type) `{RaftObject T} :=
  obj_roundtrip (x : T) : obj_deserialize (obj_serialize x) = Ret x.

(** ** The state manager *)

Module state_manager.

Record t := mk {
  m_id : Z;
  m_endpoint : list byte;
  m_config_file : list byte;
  m_state_file : list byte;
  m_log_dir : list byte
}.

Section Objects.
Context {T : Type} `{RaftObject T}.

(** [save_object]: the device takes [room] bytes; the result of the write is
    not looked at. *)
Definition save_object (room : nat) (obj : T) (filename : list byte) : list fs_op :=
  let buf := obj_serialize obj in
  let tmp_file := filename ++ lit ".tmp" in
  write_file tmp_file (take room buf) ++ [fs_rename tmp_file filename].

Definition load_object (d : directory) (filename : list byte) : outcome (option T) :=
  match d !! filename with
  | None => Ret None
  | Some buf => let! obj := obj_deserialize buf in Ret (Some obj)
  end.

End Objects.

Section StateManager.
(** [nuraft::cluster_config] and [nuraft::srv_state]; a new configuration has
    this server only. *)
Context {Config State : Type} `{RaftObject Config} `{RaftObject State}.
Variable one_server : Z → list byte → Config.
Variable room : nat.

Definition load_config (m : t) (d : directory) : outcome Config :=
  let! config := load_object d (m_config_file m) in
  match config with
  | None => Ret (one_server (m_id m) (m_endpoint m))
  | Some config => Ret config
  end.

Definition save_config (m : t) (config : Config) : list fs_op :=
  save_object room config (m_config_file m).

Definition save_state (m : t) (state : State) : list fs_op :=
  save_object room state (m_state_file m).

Definition read_state (m : t) (d : directory) : outcome (option State) :=
  load_object d (m_state_file m).

Definition server_id (m : t) : Z := m_id m.

End StateManager.
End state_manager.

(** ** The node *)

Module raft_node.

Definition endpoint_t : Type := list byte * Z.

Record t := mk {
  m_node_id : Z;
  m_blocking : bool;
  m_port : Z;
  m_smgr : state_manager.t;
  m_wait_for_followers : bool;
  skip_initial_election_timeout : bool
}.

Definition endpoint_string (ep : endpoint_t) : list byte := ep.1 ++ lit ":" ++ to_string ep.2.

Definition config_file (node_type : list byte) (id : Z) : list byte :=
  node_type ++ lit "_raft_config_" ++ to_string id ++ lit ".dat".
Definition state_file (node_type : list byte) (id : Z) : list byte :=
  node_type ++ lit "_raft_state_" ++ to_string id ++ lit ".dat".

Definition node (node_id : Z) (raft_endpoint : endpoint_t) (node_type : list byte)
    (blocking wait_for_followers : bool) : t :=
  mk node_id blocking raft_endpoint.2
    (state_manager.mk ((node_id + 1) `mod` 2 ^ 32)%Z (endpoint_string raft_endpoint)
       (config_file node_type node_id) (state_file node_type node_id)
       (node_type ++ lit "_raft_log_" ++ to_string node_id))
    wait_for_followers (negb (node_id =? 0)%Z).

(** The servers to add: every endpoint but our own, numbered from one. *)
Definition other_servers (n : t) (raft_servers : list endpoint_t) : list (Z * list byte) :=
  omap (λ p, if (p.1 =? m_node_id n)%Z then None
             else Some (p.1 + 1, endpoint_string p.2)%Z)
    (imap (λ i ep, (Z.of_nat i, ep)) raft_servers).

(** One call of [add_srv], whether it was accepted or the server is joining
    already, and what [get_srv_config] answers from then on. *)
Record round := {
  add_accepted : bool;
  add_joining : bool;
  srv_config_known : nat → bool
}.

Definition max_retries : nat := 50.

(** The loop that polls for the configuration, [n] attempts. *)
Fixpoint poll (known : nat → bool) (n attempts : nat) : bool :=
  match n with
  | O => false
  | S n => known attempts || poll known n (S attempts)
  end.

(** The endless loop over [add_srv] for one server; [None] when it is still
    running after the given rounds. *)
Fixpoint add_server (n : t) (rounds : list round) : option bool :=
  match rounds with
  | [] => None
  | r :: rounds =>
      if negb (add_accepted r) && negb (add_joining r) then Some false
      else if poll (srv_config_known r) max_retries 0 then Some true
      else if negb (m_wait_for_followers n) then Some false
      else add_server n rounds
  end.

(** The servers added before the first failure, and whether there was none. *)
Fixpoint add_servers (n : t) (answers : Z → list round) (srvs : list (Z * list byte))
    : option (list (Z * list byte) * bool) :=
  match srvs with
  | [] => Some ([], true)
  | srv :: srvs =>
      r ← add_server n (answers srv.1);
      if r : bool then
        '(added, success) ← add_servers n answers srvs; Some (srv :: added, success)
      else Some ([], false)
  end.

Definition add_cluster_nodes (n : t) (answers : Z → list round) (raft_servers : list endpoint_t)
    : option (list (Z * list byte) * bool) :=
  add_servers n answers (other_servers n raft_servers).

(** [build_cluster]: [n_configs] is how many servers the library knows, call
    by call. *)
Fixpoint wait_for_cluster (n_configs : list nat) (size : nat) : option () :=
  match n_configs with
  | [] => None
  | c :: n_configs => if decide (c < size) then wait_for_cluster n_configs size else Some ()
  end.

Definition build_cluster (n : t) (answers : Z → list round) (n_configs : list nat)
    (raft_servers : list endpoint_t) : option (list (Z * list byte) * bool) :=
  match n_configs with
  | [] => None
  | c :: n_configs =>
      if decide (c < length raft_servers) then
        if negb (m_node_id n =? 0)%Z then
          _ ← wait_for_cluster n_configs (length raft_servers); Some ([], true)
        else add_cluster_nodes n answers raft_servers
      else Some ([], true)
  end.

(** [replicate]: an entry that was accepted is handed to the callback later,
    with the result or an exception; [replicate_sync] waits for it. *)
Definition replicate {A} (accepted : bool) (log : list A) (new_log : A) : list A * bool :=
  if accepted then (log ++ [new_log], true) else (log, false).

Definition replicate_sync {A} (accepted result_ok : bool) (result : A) : option A :=
  if negb accepted || negb result_ok then None else Some result.

End raft_node.

(** ** The cluster is complete *)

Module raft_node_lemmas.
Import raft_node.

Lemma other_servers_spec n servers srv :
  srv ∈ other_servers n servers ↔
    ∃ i ep, servers !! i = Some ep ∧ Z.of_nat i ≠ m_node_id n ∧
      srv = ((Z.of_nat i + 1)%Z, endpoint_string ep).
Proof.
  unfold other_servers. rewrite list_elem_of_omap. split.
  - intros ([j ep] & (i & Hi)%list_elem_of_lookup & E).
    rewrite list_lookup_imap in Hi. destruct (servers !! i) as [ep'|] eqn:He; [|done].
    cbn in Hi, E. injection Hi as <- <-. destruct (Z.eqb_spec (Z.of_nat i) (m_node_id n)); [done|].
    injection E as <-. eauto.
  - intros (i & ep & Hi & Hne & ->). exists (Z.of_nat i, ep). split.
    + apply list_elem_of_lookup. exists i. by rewrite list_lookup_imap, Hi.
    + cbn. destruct (Z.eqb_spec (Z.of_nat i) (m_node_id n)); done.
Qed.

Lemma poll_spec known n : ∀ i,
  poll known n i = true ↔ ∃ j, i ≤ j < i + n ∧ known j = true.
Proof.
  induction n as [|n IH]; intros i; cbn.
  { split; [done|]. intros (j & ? & _). lia. }
  rewrite orb_true_iff, IH. split.
  - intros [Hk|(j & ? & Hk)]; [exists i|exists j]; (split; [lia|done]).
  - intros (j & ? & Hk). destruct (decide (j = i)) as [->|]; [by left|].
    right. exists j. split; [lia|done].
Qed.

(** A server joins in the first round in which the library takes it up in
    time; before that it must not be refused. *)
Lemma add_server_joins n rounds :
  add_server n rounds = Some true ↔
    ∃ before r after, rounds = before ++ r :: after ∧
      (add_accepted r || add_joining r) = true ∧
      poll (srv_config_known r) max_retries 0 = true ∧
      (before = [] ∨ m_wait_for_followers n = true) ∧
      Forall (λ r, (add_accepted r || add_joining r) = true ∧
                   poll (srv_config_known r) max_retries 0 = false) before.
Proof.
  induction rounds as [|r rounds IH]; cbn [add_server].
  { split; [done|]. by intros ([|] & ? & ? & ? & _). }
  destruct (negb (add_accepted r) && negb (add_joining r)) eqn:Ea; rewrite <- negb_orb in Ea;
    [apply negb_true_iff in Ea|apply negb_false_iff in Ea].
  { split; [done|]. intros ([|r' b] & r0 & a & [= <- ->] & Hr & _ & _ & Hb); [congruence|].
    inversion Hb as [|?? [? _] _]; congruence. }
  destruct (poll (srv_config_known r) max_retries 0) eqn:Ep.
  { split; [|done]. intros _. exists [], r, rounds. split_and!; auto. }
  destruct (m_wait_for_followers n) eqn:Ew; cbn [negb].
  - rewrite IH. split.
    + intros (b & r0 & a & -> & Hr & Hp & _ & Hb). exists (r :: b), r0, a.
      split_and!; auto.
    + intros ([|r' b] & r0 & a & [= <- ->] & Hr & Hp & _ & Hb); [congruence|].
      inversion_clear Hb. exists b, r0, a. split_and!; auto.
  - split; [done|]. intros ([|r' b] & r0 & a & [= <- ->] & Hr & Hp & Hw & Hb); [congruence|].
    by destruct Hw.
Qed.

Lemma add_servers_all n answers srvs :
  Forall (λ srv, add_server n (answers srv.1) = Some true) srvs →
  add_servers n answers srvs = Some (srvs, true).
Proof. induction 1 as [|srv srvs E _ IH]; [done|]. cbn [add_servers]. by rewrite E; cbn; rewrite IH. Qed.

Lemma add_servers_sound n answers srvs added :
  add_servers n answers srvs = Some (added, true) →
  added = srvs ∧ Forall (λ srv, add_server n (answers srv.1) = Some true) srvs.
Proof.
  revert added. induction srvs as [|srv srvs IH]; intros added; cbn [add_servers].
  { intros [= <-]. done. }
  destruct (add_server n (answers srv.1)) as [[|]|] eqn:Es; cbn; [|done|done].
  destruct (add_servers n answers srvs) as [[added' b]|]; [|done]. cbn. intros [= <- ->].
  destruct (IH added' eq_refl) as [-> Hall]. split; [done|]. by constructor.
Qed.

(** Without waiting for followers one round for each server decides. *)
Lemma add_servers_decided n answers srvs :
  m_wait_for_followers n = false → (∀ id, answers id ≠ []) →
  is_Some (add_servers n answers srvs).
Proof.
  intros Hw Ha. induction srvs as [|srv srvs [[added b] IH]]; cbn [add_servers]; [by eexists|].
  pose proof (Ha srv.1) as Hne. destruct (answers srv.1) as [|r rounds]; [done|].
  cbn [add_server]. rewrite Hw. destruct (negb _ && _); [by eexists|].
  destruct (poll (srv_config_known r) max_retries 0); [|by eexists]. cbn [mbind option_bind].
  rewrite IH. by eexists.
Qed.

End raft_node_lemmas.

(** Node 0 builds the whole cluster.  It reports success exactly when the
    library took up every other endpoint, each under the number of its
    position plus one, and then it has added just those. *)
Theorem cluster_is_complete n answers servers c configs added :
  raft_node.m_node_id n = 0%Z → c < length servers →
  raft_node.build_cluster n answers (c :: configs) servers = Some (added, true) ↔
  added = raft_node.other_servers n servers ∧
  ∀ i ep, servers !! i = Some ep → i ≠ 0 →
    raft_node.add_server n (answers (Z.of_nat i + 1)%Z) = Some true.
Proof.
  intros Hid Hc. unfold raft_node.build_cluster. rewrite decide_True, Hid by done. cbn [negb Z.eqb].
  unfold raft_node.add_cluster_nodes. split.
  - intros [-> Hall]%raft_node_lemmas.add_servers_sound. split; [done|]. intros i ep Hi Hne.
    rewrite Forall_forall in Hall. apply (Hall ((Z.of_nat i + 1)%Z, raft_node.endpoint_string ep)).
    apply raft_node_lemmas.other_servers_spec. exists i, ep. split_and!; [done|lia|done].
  - intros [-> Hall]. apply raft_node_lemmas.add_servers_all, Forall_forall.
    intros srv (i & ep & Hi & Hne & ->)%raft_node_lemmas.other_servers_spec. apply (Hall i ep Hi). lia.
Qed.

(** ** The files survive *)

Module state_files.
Import state_manager raft_node.

Lemma tmp_differs (f : list byte) : f ++ lit ".tmp" ≠ f.
Proof. intros E. apply (f_equal length) in E. rewrite length_app in E. cbn in E. lia. Qed.

(** The names start to differ after the type of the node. *)
Lemma files_differ node_type id s1 s2 :
  config_file node_type id ++ s1 ≠ state_file node_type id ++ s2.
Proof.
  unfold config_file, state_file. rewrite <- !(assoc_L (++)). intros E.
  apply app_inv_head in E. cbn in E. congruence.
Qed.

Lemma save_object_prefix {T} `{RaftObject T} room (obj : T) f d k g :
  length (obj_serialize obj) ≤ room → g ≠ f ++ lit ".tmp" →
  run_ops (take k (save_object room obj f)) d !! g = d !! g ∨
  g = f ∧ run_ops (take k (save_object room obj f)) d !! g = Some (obj_serialize obj).
Proof.
  intros Hr Hg. revert k. unfold save_object. rewrite take_ge by lia.
  change (always (λ d', d' !! g = d !! g ∨ g = f ∧ d' !! g = Some (obj_serialize obj))
    (write_file (f ++ lit ".tmp") (obj_serialize obj) ++ [fs_rename (f ++ lit ".tmp") f]) d).
  assert (∀ c, (<[ f ++ lit ".tmp" := c ]> d) !! g = d !! g) as Hw
    by (intros c; by apply lookup_insert_ne).
  apply always_app; [apply always_write; [by left|]; intros c; by left|].
  rewrite run_write_file. apply always_cons; [by left|]. apply always_nil. cbn [run_op].
  rewrite lookup_insert_eq, delete_insert_eq.
  destruct (decide (g = f)) as [->|Hne]; [right; by rewrite lookup_insert_eq|].
  left. rewrite lookup_insert_ne, lookup_delete_ne; done.
Qed.

Lemma save_object_done {T} `{RaftObject T} room (obj : T) f d :
  length (obj_serialize obj) ≤ room →
  run_ops (save_object room obj f) d !! f = Some (obj_serialize obj).
Proof.
  intros Hr. unfold save_object. rewrite take_ge by lia. rewrite run_ops_app, run_write_file. cbn.
  rewrite lookup_insert_eq. apply lookup_insert_eq.
Qed.

End state_files.

Section StateFiles.
Context {Config State : Type} `{RaftObjectLaws Config} `{RaftObjectLaws State}.
Variable one_server : Z → list byte → Config.
Import state_manager raft_node state_files.

(** C30: the vote and the configuration of a node survive a stop, provided the
    device has room for the temporary file; on a full one the code replaces the
    old file by a truncated one, see [full_device_loses_state].  Whenever the
    process ends while it saves its state, it later reads the state it had
    before or the new one, and never anything else; after the save it reads
    the new one, and the configuration is not touched.  The same holds with
    the two exchanged. *)
Theorem raft_files_survive room node_id ep node_type blocking wait d (s : State) (c : Config) :
  length (obj_serialize s) ≤ room → length (obj_serialize c) ≤ room →
  let m := m_smgr (node node_id ep node_type blocking wait) in
  (∀ k, let d' := run_ops (take k (save_state room m s)) d in
     (read_state (State := State) m d' = read_state m d ∨ read_state m d' = Ret (Some s)) ∧
     load_config one_server m d' = load_config one_server m d) ∧
  read_state m (run_ops (save_state room m s) d) = Ret (Some s) ∧
  (∀ k, let d' := run_ops (take k (save_config room m c)) d in
     (load_config one_server m d' = load_config one_server m d ∨
      load_config one_server m d' = Ret c) ∧
     read_state (State := State) m d' = read_state m d) ∧
  load_config one_server m (run_ops (save_config room m c) d) = Ret c.
Proof.
  intros Hs Hc m. unfold read_state, load_config, load_object, save_state, save_config. cbn [m_smgr m node
    m_config_file m_state_file].
  set (cf := config_file node_type node_id). set (sf := state_file node_type node_id).
  assert (cf ≠ sf) as Hne.
  { intros E. apply (files_differ node_type node_id [] []). by rewrite !app_nil_r. }
  assert (cf ≠ sf ++ lit ".tmp") as Hcs.
  { intros E. apply (files_differ node_type node_id [] (lit ".tmp")). by rewrite app_nil_r. }
  assert (sf ≠ cf ++ lit ".tmp") as Hsc.
  { intros E. apply (files_differ node_type node_id (lit ".tmp") []). by rewrite app_nil_r. }
  split_and!.
  - intros k. split.
    + destruct (save_object_prefix room s sf d k sf Hs) as [->|[_ ->]];
        [apply not_eq_sym, tmp_differs|by left|right; by rewrite obj_roundtrip].
    + destruct (save_object_prefix room s sf d k cf Hs Hcs) as [->|[? _]]; done.
  - rewrite save_object_done by done. by rewrite obj_roundtrip.
  - intros k. split.
    + destruct (save_object_prefix room c cf d k cf Hc) as [->|[_ ->]];
        [apply not_eq_sym, tmp_differs|by left|right; by rewrite obj_roundtrip].
    + destruct (save_object_prefix room c cf d k sf Hc Hsc) as [->|[? _]]; done.
  - rewrite save_object_done by done. by rewrite obj_roundtrip.
Qed.

(** A device without room for the object replaces the state by a part of the
    new one: the result of the write is not checked before the rename. *)
Theorem full_device_loses_state room m d (s : State) :
  run_ops (save_state room m s) d !! m_state_file m = Some (take room (obj_serialize s)).
Proof.
  unfold save_state, save_object. rewrite run_ops_app, run_write_file. cbn.
  rewrite lookup_insert_eq. apply lookup_insert_eq.
Qed.

End StateFiles.

(** ** An example: objects of one byte *)

Module raft_node_example.
Import state_manager raft_node.

#[local] Instance byte_object : RaftObject byte := {|
  obj_serialize b := [b];
  obj_deserialize bs := match bs with [b] => Ret b | _ => Fatal end
|}.

#[local] Instance byte_object_laws : RaftObjectLaws byte.
Proof. done. Qed.

Definition m : state_manager.t := m_smgr (node 0 (lit "localhost", 5000%Z) (lit "atomizer") false true).

Lemma raft_files_survive_witness :
  Forall (λ k, let d' := run_ops (take k (save_state 4 m x02)) (run_ops (save_state 4 m x01) ∅) in
    read_state (State := byte) m d' = Ret (Some x01) ∨ read_state m d' = Ret (Some x02))
    (seq 0 10).
Proof.
  apply Forall_forall. intros k _.
  destruct (raft_files_survive (Config := byte) (State := byte) (λ _ _, x00) 4 0
    (lit "localhost", 5000%Z) (lit "atomizer") false true (run_ops (save_state 4 m x01) ∅) x02 x00)
    as (Hk & _); [cbn; lia|cbn; lia|].
  destruct (Hk k) as [[E|E] _]; [left|right; exact E]. etrans; [exact E|]. vm_compute. reflexivity.
Defined.

End raft_node_example.
