(* ===== verification/AtomizerController.v ===== *)
(** * The atomizer's controller

    Model of [src/uhs/atomizer/atomizer/controller.cpp] and of
    [atomizer_raft::make_request]: the handlers of packets, timers and
    leadership changes, the callbacks that read the results of the replicated
    state machine, and the bytes that pass between them.  The theorem is about
    a controller together with the state machine it replicates requests to. *)

From Stdlib Require Import ZArith Lia.
From Stdlib.Strings Require Import Byte.
From stdpp Require Import base tactics numbers gmap sets list.
From S2P Require Import Prelude Serialization Crypto Transaction Validation Config.
From S2P Require Import LockingShard Coordinator Atomizer Watchtower Messages.
From S2P Require Import BlockingQueue Network RaftNode.
Open Scope cbdc_scope.

(** ** The state machine on bytes *)

Section Bytes.
Variable reads : nat.

Definition encode_atomizer_request (r : atomizer_request) : list byte :=
  nuraft_serializer.m_buf (make_nuraft_buffer (put_atomizer_request r)).

Definition decode_atomizer_request (buf : list byte) : outcome (option atomizer_request) :=
  from_buffer_v (aggregate_tx_notify_request []) (get_atomizer_request reads) buf.

Definition encode_atomizer_response (r : atomizer_response) : list byte :=
  nuraft_serializer.m_buf (make_nuraft_buffer (put_atomizer_response r)).

Definition decode_atomizer_response (buf : list byte) : outcome (option atomizer_response) :=
  from_buffer_v (make_block_response block_dflt []) (get_atomizer_response reads) buf.

Definition decode_rpc_request (buf : list byte) : outcome (option atomizer_rpc_request) :=
  from_buffer_v (rpc_tx_notify tx_notify_dflt) (get_atomizer_rpc_request reads) buf.

Definition block_packet (blk : block) : list byte := make_buffer (put_block blk).
Definition errors_packet (errs : list wt_error) : list byte :=
  make_buffer (put_vector put_tx_error errs).

(** [state_machine::commit]; a request that cannot be read fails an
    assertion. *)
Definition commit_data (sm : atomizer_sm.t) (log_idx : Z) (data : list byte)
    : outcome (atomizer_sm.t * option (list byte)) :=
  let! req := decode_atomizer_request data in
  match req with
  | None => Fatal
  | Some req =>
      let! '(sm', resp) := atomizer_sm.commit sm log_idx req in
      Ret (sm', encode_atomizer_response <$> resp)
  end.

End Bytes.

(** ** The controller *)

Module atomizer_controller.

(** What is to be done with the result of an entry. *)
Inductive callback :=
| no_callback
| raft_result_callback
| err_return_callback
| get_block_callback (peer_id : Z).

Record t := mk {
  m_raft_node : atomizer_raft.t;
  m_entries : list (list byte * callback);
  m_watchtower_network : connection_manager.t;
  m_atomizer_network : connection_manager.t;
  m_listening : bool;
  m_notification_queue : blocking_queue.t tx_notify_request;
  m_running : bool
}.

Definition set_raft_node (c : t) (r : atomizer_raft.t) : t :=
  mk r (m_entries c) (m_watchtower_network c) (m_atomizer_network c) (m_listening c)
    (m_notification_queue c) (m_running c).
Definition set_entries (c : t) (es : list (list byte * callback)) : t :=
  mk (m_raft_node c) es (m_watchtower_network c) (m_atomizer_network c) (m_listening c)
    (m_notification_queue c) (m_running c).
Definition set_queue (c : t) (q : blocking_queue.t tx_notify_request) : t :=
  mk (m_raft_node c) (m_entries c) (m_watchtower_network c) (m_atomizer_network c)
    (m_listening c) q (m_running c).
Definition set_networks (c : t) (watchtowers clients : connection_manager.t) : t :=
  mk (m_raft_node c) (m_entries c) watchtowers clients (m_listening c)
    (m_notification_queue c) (m_running c).

(** Packets a handler sends: to everyone connected to the atomizer, to one
    peer, to the watchtowers. *)
Inductive output :=
| to_clients (pkt : list byte)
| to_peer (pkt : list byte) (peer_id : Z)
| to_watchtowers (pkt : list byte).

Definition send_output (c : t) (o : output) : t :=
  match o with
  | to_clients pkt =>
      set_networks c (m_watchtower_network c) (connection_manager.broadcast (m_atomizer_network c) pkt)
  | to_peer pkt peer_id =>
      set_networks c (m_watchtower_network c)
        (connection_manager.send (m_atomizer_network c) pkt peer_id)
  | to_watchtowers pkt =>
      set_networks c (connection_manager.broadcast (m_watchtower_network c) pkt)
        (m_atomizer_network c)
  end.

(** [atomizer_raft::make_request]: the entry is queued in the Raft log when
    the library accepts it. *)
Definition make_request (accepted : bool) (c : t) (r : atomizer_request) (result_fn : callback)
    : t * bool :=
  let new_log := encode_atomizer_request r in
  let (es, res) := raft_node.replicate accepted (m_entries c) (new_log, result_fn) in
  (set_entries c es, res).

Section Handlers.
Variable reads : nat.

Definition server_handler (is_leader accepted : bool) (c : t) (pkt : connection_manager.message_t)
    : outcome t :=
  if negb is_leader then Ret c else
  let! maybe_req := decode_rpc_request reads (connection_manager.m_pkt pkt) in
  match maybe_req with
  | None => Ret c
  | Some (rpc_tx_notify notif) =>
      Ret (set_queue c (blocking_queue.push (m_notification_queue c) notif))
  | Some (rpc_prune h) => Ret (make_request accepted c (prune_request h) no_callback).1
  | Some (rpc_get_block h) =>
      Ret (make_request accepted c (get_block_request h)
             (get_block_callback (connection_manager.m_peer_id pkt))).1
  end.

(** One round of [tx_notify_handler]; [false] is followed by a pause. *)
Definition tx_notify_handler (accepted : bool) (c : t) : t * bool :=
  match atomizer_raft.send_complete_txs (m_raft_node c) with
  | (_, None) => (c, false)
  | (r, Some atns) => make_request accepted (set_raft_node c r) atns err_return_callback
  end.

(** One round of [main_handler] after the interval. *)
Definition main_handler (is_leader accepted : bool) (c : t) : t :=
  if is_leader then (make_request accepted c make_block_request raft_result_callback).1 else c.

(** What a callback gets: an exception, or the result, which may be a null
    pointer. *)
Inductive raft_result := exception | result (res : option (list byte)).

Definition raft_result_handler (r : raft_result) : outcome (list output) :=
  match r with
  | exception => Ret []
  | result None => Fatal
  | result (Some res) =>
      let! maybe_resp := decode_atomizer_response reads res in
      match maybe_resp with
      | Some (make_block_response blk errs) =>
          Ret (to_clients (block_packet blk) ::
               match errs with [] => [] | _ => [to_watchtowers (errors_packet errs)] end)
      | _ => Fatal
      end
  end.

Definition err_return_handler (r : raft_result) : outcome (list output) :=
  match r with
  | exception | result None => Ret []
  | result (Some res) =>
      let! maybe_resp := decode_atomizer_response reads res in
      match maybe_resp with
      | Some (errors_response errs) => Ret [to_watchtowers (errors_packet errs)]
      | _ => Fatal
      end
  end.

Definition get_block_handler (peer_id : Z) (r : raft_result) : outcome (list output) :=
  match r with
  | exception | result None => Ret []
  | result (Some res) =>
      let! maybe_resp := decode_atomizer_response reads res in
      match maybe_resp with
      | Some (get_block_response blk) => Ret [to_peer (block_packet blk) peer_id]
      | _ => Fatal
      end
  end.

Definition run_callback (cb : callback) (r : raft_result) : outcome (list output) :=
  match cb with
  | no_callback => Ret []
  | raft_result_callback => raft_result_handler r
  | err_return_callback => err_return_handler r
  | get_block_callback peer_id => get_block_handler peer_id r
  end.

End Handlers.

(** [raft_callback]: whether listening on the client endpoint succeeds is an
    argument; if it does not, the process ends. *)
Inductive raft_event := BecomeLeader | BecomeFollower | other_event.

Definition set_listening (c : t) (net : connection_manager.t) (b : bool) : t :=
  mk (m_raft_node c) (m_entries c) (m_watchtower_network c) net b (m_notification_queue c)
    (m_running c).

Definition raft_callback (listens : bool) (c : t) (e : raft_event) : outcome t :=
  match e with
  | BecomeFollower => Ret (set_listening c (connection_manager.close (m_atomizer_network c)) false)
  | BecomeLeader =>
      if listens then
        Ret (set_listening c
               (connection_manager.reset (connection_manager.close (m_atomizer_network c))) true)
      else Fatal
  | other_event => Ret c
  end.

Section Consumer.
Context `{Hasher} `{Secp256k1}.

(** One round of [notification_consumer]: [None] while the queue blocks, and
    [false] when the thread ends. *)
Definition notification_consumer (c : t) : option (t * bool) :=
  if negb (m_running c) then Some (c, false) else
  '(q, notif) ← blocking_queue.pop (m_notification_queue c);
  match notif with
  | None => Some (set_queue c q, false)
  | Some notif =>
      Some (set_raft_node (set_queue c q) (atomizer_raft.tx_notify (m_raft_node c) notif), true)
  end.

End Consumer.

(** The destructor, up to joining the threads. *)
Definition destroy (c : t) : t :=
  mk (m_raft_node c) (m_entries c) (m_watchtower_network c)
    (connection_manager.close (m_atomizer_network c)) (m_listening c)
    (blocking_queue.clear (m_notification_queue c)) false.

(** [init]: the watchtowers must be reachable, the Raft node must start and
    the cluster must be built. *)
Definition init (c : t) (endpoints : list (config.endpoint_t * option (list tcp_socket.candidate)))
    (raft_init build_cluster : bool) : t * bool :=
  let (net, connected) := connection_manager.cluster_connect (m_watchtower_network c) endpoints true in
  (set_networks c net (m_atomizer_network c), connected && raft_init && build_cluster).

End atomizer_controller.

(** ** Bytes that were written are read *)

Section ByteLemmas.
Variable reads : nat.

Lemma nuraft_bytes ws : nuraft_serializer.m_buf (make_nuraft_buffer ws) = make_buffer ws.
Proof. by rewrite make_nuraft_buffer_spec, make_buffer_spec. Qed.

Lemma decode_encode_atomizer_request r :
  atomizer_request_wf reads r →
  decode_atomizer_request reads (encode_atomizer_request r) = Ret (Some r).
Proof.
  intros Hwf. unfold encode_atomizer_request. rewrite nuraft_bytes.
  eapply from_make_buffer_v; [apply get_atomizer_request_roundtrip|done].
Qed.

Lemma decode_encode_atomizer_response r :
  atomizer_response_wf reads r →
  decode_atomizer_response reads (encode_atomizer_response r) = Ret (Some r).
Proof.
  intros Hwf. unfold encode_atomizer_response. rewrite nuraft_bytes.
  eapply from_make_buffer_v; [apply get_atomizer_response_roundtrip|done].
Qed.

End ByteLemmas.

(** ** The state machine never fails

    The two caches always have a slot for every height offset that passes the
    check of a notification. *)

Module atm_shape.
Import atomizer.

Definition shaped (a : t) : Prop :=
  length (m_txs a) = S (m_spent_cache_depth a) ∧ length (m_spent a) = S (m_spent_cache_depth a).

Lemma spent_inputs_ret a tx n : ∀ k,
  k + n ≤ length (m_spent a) → is_ret (spent_inputs_from a tx k n).
Proof.
  induction n as [|n IH]; intros k Hk; cbn [spent_inputs_from]; [by eexists|].
  destruct (lookup_lt_is_Some_2 (m_spent a) k) as [slot Hs]; [lia|].
  rewrite (at_index_some _ _ _ Hs). cbn [obind].
  destruct (IH (S k)) as [rest ->]; [lia|]. by eexists.
Qed.

Lemma insert_complete_ret a oldest tx :
  shaped a → ∃ a' r, insert_complete a oldest tx = Ret (a', r) ∧ shaped a'.
Proof.
  intros [Ht Hs]. unfold insert_complete.
  destruct (check_notification_offset a _ tx) as [e|] eqn:Ec; [by exists a, (Some e)|].
  assert (is_ret (check_stxo_cache a tx (get_notification_offset a oldest))) as ([e|] & ->).
  { unfold check_stxo_cache. destruct (compact_tx.m_inputs tx) as [|inp inps] eqn:Ei; [by eexists|].
    unfold check_notification_offset in Ec. rewrite Ei, bool_decide_false, andb_true_r in Ec by done.
    destruct (Z.ltb_spec (Z.of_nat (m_spent_cache_depth a)) (get_notification_offset a oldest)); [done|].
    assert (0 ≤ get_notification_offset a oldest)%Z by (unfold get_notification_offset; apply Z.mod_pos_bound; lia).
    destruct (spent_inputs_ret a tx (S (Z.to_nat (get_notification_offset a oldest))) 0) as [es ->]; [lia|].
    by eexists. }
  { by exists a, (Some e). }
  cbn [obind]. unfold add_tx_to_stxo_cache. destruct (m_spent a) as [|s0 rest] eqn:Em; [done|].
  eexists _, None. split; [done|]. by split.
Qed.

Lemma insert_all_ret msgs : ∀ a,
  shaped a → ∃ a' errs, atomizer_sm.insert_all a msgs = Ret (a', errs) ∧ shaped a'.
Proof.
  induction msgs as [|msg msgs IH]; intros a Ha; cbn [atomizer_sm.insert_all]; [by exists a, []|].
  destruct (insert_complete_ret a (m_oldest_attestation msg) (m_tx msg) Ha) as (a1 & r & -> & Ha1).
  cbn [obind]. destruct (IH a1 Ha1) as (a2 & errs & -> & Ha2). cbn [obind]. by eexists _, _.
Qed.

Lemma make_block_ret a :
  shaped a → ∃ a' blk errs, make_block a = Ret (a', blk, errs) ∧ shaped a'.
Proof.
  intros [Ht Hs]. unfold make_block.
  destruct (lookup_lt_is_Some_2 (m_txs a) (m_spent_cache_depth a)) as [o Ho]; [lia|].
  rewrite (at_index_some _ _ _ Ho). eexists _, _, _. split; [done|].
  split; cbn; rewrite length_take; lia.
Qed.

Lemma commit_ret sm req :
  shaped (atomizer_sm.m_atomizer sm) →
  ∃ sm' r, atomizer_sm.commit sm (add64 (atomizer_sm.m_last_committed_idx sm) 1) req = Ret (sm', r) ∧
    shaped (atomizer_sm.m_atomizer sm') ∧
    match req with
    | make_block_request => ∃ blk errs, r = Some (make_block_response blk errs)
    | aggregate_tx_notify_request _ => r = None ∨ ∃ errs, r = Some (errors_response errs)
    | get_block_request _ => r = None ∨ ∃ blk, r = Some (get_block_response blk)
    | prune_request _ => r = None
    end.
Proof.
  intros Ha. unfold atomizer_sm.commit. rewrite Z.eqb_refl. cbn [negb]. destruct req as [msgs| |h|h].
  - destruct (insert_all_ret msgs _ Ha) as (a & errs & -> & Ha'). cbn [obind]. eexists _, _.
    split; [done|]. split; [done|]. destruct errs; eauto.
  - destruct (make_block_ret _ Ha) as (a & blk & errs & -> & Ha'). cbn [obind]. eexists _, _.
    split; [done|]. split; [done|]. eauto.
  - eexists _, _. split; [done|]. split; [done|]. destruct (_ !! h); cbn; eauto.
  - eexists _, _. split; [done|]. by split.
Qed.

End atm_shape.

(** ** The controller and its state machine *)

Module controller_system.
Import atomizer_controller.

Section System.
Context `{Hasher} `{Secp256k1}.
Variable reads : nat.

(** [y_made] records the blocks the state machine made, [y_sent] what the
    callbacks sent. *)
Record sys := mk_sys {
  y_ctl : atomizer_controller.t;
  y_sm : atomizer_sm.t;
  y_made : list block;
  y_sent : list output
}.

Definition next_idx (sm : atomizer_sm.t) : Z := add64 (atomizer_sm.m_last_committed_idx sm) 1.

(** The requests in the log are values of their C++ types, with the model's
    bound on the sizes of sets. *)
Definition requests_fit (c : atomizer_controller.t) : Prop :=
  ∀ data cb req, (data, cb) ∈ m_entries c → data = encode_atomizer_request req →
    atomizer_request_wf reads req.

Definition response_fits (r : option atomizer_response) : Prop :=
  ∀ resp, r = Some resp → atomizer_response_wf reads resp.

(** The handlers run in any order; the answers of the Raft library are
    arbitrary.  The next entry is executed and its callback gets the result,
    or an exception, in which case another leader may still execute it. *)
Inductive step (y : sys) : sys → Prop :=
| s_packet leader accepted pkt c :
    server_handler reads leader accepted (y_ctl y) pkt = Ret c → requests_fit c →
    step y (mk_sys c (y_sm y) (y_made y) (y_sent y))
| s_consume c b :
    notification_consumer (y_ctl y) = Some (c, b) →
    step y (mk_sys c (y_sm y) (y_made y) (y_sent y))
| s_notify accepted c b :
    tx_notify_handler accepted (y_ctl y) = (c, b) → requests_fit c →
    step y (mk_sys c (y_sm y) (y_made y) (y_sent y))
| s_tick leader accepted c :
    main_handler leader accepted (y_ctl y) = c → requests_fit c →
    step y (mk_sys c (y_sm y) (y_made y) (y_sent y))
| s_raft listens e c :
    raft_callback listens (y_ctl y) e = Ret c →
    step y (mk_sys c (y_sm y) (y_made y) (y_sent y))
| s_execute data cb rest req sm resp outs :
    m_entries (y_ctl y) = (data, cb) :: rest → decode_atomizer_request reads data = Ret (Some req) →
    atomizer_sm.commit (y_sm y) (next_idx (y_sm y)) req = Ret (sm, resp) → response_fits resp →
    (Z.of_nat (length (y_made y)) < 2 ^ 64 - 1)%Z →
    run_callback reads cb (result (encode_atomizer_response <$> resp)) = Ret outs →
    step y (mk_sys (foldl send_output (set_entries (y_ctl y) rest) outs) sm
              (y_made y ++ atm_sm_lemmas.made [resp]) (y_sent y ++ outs))
| s_exception data cb rest outs :
    m_entries (y_ctl y) = (data, cb) :: rest → run_callback reads cb exception = Ret outs →
    step y (mk_sys (foldl send_output (set_entries (y_ctl y) rest) outs) (y_sm y) (y_made y)
              (y_sent y ++ outs))
| s_other_leader req sm resp :
    atomizer_sm.commit (y_sm y) (next_idx (y_sm y)) req = Ret (sm, resp) →
    (Z.of_nat (length (y_made y)) < 2 ^ 64 - 1)%Z →
    step y (mk_sys (y_ctl y) sm (y_made y ++ atm_sm_lemmas.made [resp]) (y_sent y)).

Definition start (keys : gset pubkey_t) (threshold depth : nat) : sys :=
  mk_sys (atomizer_controller.mk (atomizer_raft.mk ∅ [] keys threshold) [] connection_manager.init
            connection_manager.init false blocking_queue.init true)
    (atomizer_sm.init depth) [] [].

(** Every entry of the log is a request with the callback for its results. *)
Definition entry_ok (e : list byte * callback) : Prop :=
  ∃ req, e.1 = encode_atomizer_request req ∧ atomizer_request_wf reads req ∧
    match req with
    | aggregate_tx_notify_request _ => e.2 = err_return_callback
    | make_block_request => e.2 = raft_result_callback
    | get_block_request _ => ∃ id, e.2 = get_block_callback id
    | prune_request _ => e.2 = no_callback
    end.

(** The packets broadcast to the clients, and those for one peer. *)
Definition broadcasts (outs : list output) : list (list byte) :=
  omap (λ o, match o with to_clients pkt => Some pkt | _ => None end) outs.

Record sys_inv (y : sys) : Prop := {
  yi_entries : Forall entry_ok (m_entries (y_ctl y));
  yi_shape : atm_shape.shaped (atomizer_sm.m_atomizer (y_sm y));
  yi_store : atm_sm_lemmas.store_inv (y_made y) (y_sm y);
  yi_chain : ∃ bs, sublist bs (y_made y) ∧ broadcasts (y_sent y) = block_packet <$> bs;
  yi_answers pkt id : to_peer pkt id ∈ y_sent y → ∃ b, b ∈ y_made y ∧ pkt = block_packet b;
  yi_errors pkt : to_watchtowers pkt ∈ y_sent y → ∃ errs, errs ≠ [] ∧ pkt = errors_packet errs
}.

Lemma controller_start_inv keys threshold depth : sys_inv (start keys threshold depth).
Proof.
  split; cbn.
  - constructor.
  - split; cbn; by rewrite length_replicate.
  - constructor; cbn; [done|done|]. intros h b Hl. by rewrite lookup_empty in Hl.
  - by exists [].
  - by intros ? ? []%elem_of_nil.
  - by intros ? []%elem_of_nil.
Qed.

Lemma send_outputs_entries outs c : m_entries (foldl send_output c outs) = m_entries c.
Proof. revert c. induction outs as [|[] outs IH]; intros c; cbn; [done|..]; by rewrite IH. Qed.

Lemma make_request_entries accepted c r cb :
  m_entries (make_request accepted c r cb).1 =
    m_entries c ++ (if accepted then [(encode_atomizer_request r, cb)] else []).
Proof. destruct accepted; cbn; [done|by rewrite app_nil_r]. Qed.

(** A handler that adds at most one entry with the right callback. *)
Lemma entries_ok c es es' r cb :
  Forall entry_ok es → es' = es ∨ es' = es ++ [(encode_atomizer_request r, cb)] →
  m_entries c = es' → requests_fit c →
  match r with
  | aggregate_tx_notify_request _ => cb = err_return_callback
  | make_block_request => cb = raft_result_callback
  | get_block_request _ => ∃ id, cb = get_block_callback id
  | prune_request _ => cb = no_callback
  end → Forall entry_ok (m_entries c).
Proof.
  intros Hes [->| ->] E Hfit Hcb; rewrite E; [done|]. apply Forall_app. split; [done|].
  constructor; [|constructor]. exists r. split; [done|]. split; [|by destruct r].
  eapply Hfit; [|done]. rewrite E. apply elem_of_app. right. left.
Qed.

Lemma made_entries_ok accepted c c' r cb :
  Forall entry_ok (m_entries c) → c' = (make_request accepted c r cb).1 → requests_fit c' →
  match r with
  | aggregate_tx_notify_request _ => cb = err_return_callback
  | make_block_request => cb = raft_result_callback
  | get_block_request _ => ∃ id, cb = get_block_callback id
  | prune_request _ => cb = no_callback
  end → Forall entry_ok (m_entries c').
Proof.
  intros Hes -> Hfit Hcb. eapply entries_ok; [exact Hes| |apply make_request_entries|done|exact Hcb].
  destruct accepted; [by right|left; by rewrite app_nil_r].
Qed.

(** What a callback does with the result of its own entry. *)
Lemma callback_spec sm data cb :
  atm_shape.shaped (atomizer_sm.m_atomizer sm) → entry_ok (data, cb) →
  ∃ req sm' resp, decode_atomizer_request reads data = Ret (Some req) ∧
    atomizer_sm.commit sm (next_idx sm) req = Ret (sm', resp) ∧
    atm_shape.shaped (atomizer_sm.m_atomizer sm') ∧
    (response_fits resp → ∃ outs,
       run_callback reads cb (result (encode_atomizer_response <$> resp)) = Ret outs ∧
       broadcasts outs = block_packet <$> atm_sm_lemmas.made [resp] ∧
       (∀ pkt id, to_peer pkt id ∈ outs →
          ∃ h blk, req = get_block_request h ∧ resp = Some (get_block_response blk) ∧
            pkt = block_packet blk) ∧
       (∀ pkt, to_watchtowers pkt ∈ outs → ∃ errs, errs ≠ [] ∧ pkt = errors_packet errs)).
Proof.
  intros Hsh (req & Hd & Hwf & Hcb). cbn in Hd, Hcb. subst data.
  destruct (atm_shape.commit_ret sm req Hsh) as (sm' & resp & Ec & Hsh' & Hk).
  exists req, sm', resp. split; [by apply decode_encode_atomizer_request|]. split; [exact Ec|].
  split; [done|]. intros Hfit.
  assert (∀ r, resp = Some r → decode_atomizer_response reads (encode_atomizer_response r) = Ret (Some r))
    as Hdec by (intros r Hr; apply decode_encode_atomizer_response; by apply Hfit).
  destruct req as [msgs| |h|h].
  - subst cb. destruct Hk as [->|[errs ->]].
    { exists []. split_and!; [done|done|by intros ? ? []%elem_of_nil|by intros ? []%elem_of_nil]. }
    exists [to_watchtowers (errors_packet errs)]. cbn. rewrite (Hdec _ eq_refl). cbn.
    split_and!; [done|done| |].
    + by intros pkt id ?%list_elem_of_singleton.
    + intros pkt [= ->]%list_elem_of_singleton. exists errs. split; [|done].
      intros ->. unfold atomizer_sm.commit in Ec. rewrite Z.eqb_refl in Ec. cbn in Ec.
      destruct (atomizer_sm.insert_all _ _) as [[a [|]]|]; by cbn in Ec.
  - subst cb. destruct Hk as (blk & errs & ->). cbn. rewrite (Hdec _ eq_refl). cbn.
    eexists. split; [done|]. split; [by destruct errs|]. split.
    + intros pkt id [?|Hin]%elem_of_cons; [done|]. destruct errs; [by apply elem_of_nil in Hin|].
      by apply list_elem_of_singleton in Hin.
    + intros pkt [?|Hin]%elem_of_cons; [done|]. destruct errs as [|e errs]; [by apply elem_of_nil in Hin|].
      apply list_elem_of_singleton in Hin. exists (e :: errs). split; [done|congruence].
  - destruct Hcb as [id ->]. destruct Hk as [->|[blk ->]]; cbn.
    { exists []. split_and!; [done|done|by intros ? ? []%elem_of_nil|by intros ? []%elem_of_nil]. }
    rewrite (Hdec _ eq_refl). cbn. eexists. split; [done|]. split; [done|]. split.
    + intros pkt id' [= -> ->]%list_elem_of_singleton. eauto.
    + by intros pkt ?%list_elem_of_singleton.
  - subst cb resp. exists []. split_and!; [done|done|by intros ? ? []%elem_of_nil|by intros ? []%elem_of_nil].
Qed.

(** A block that is answered was made before. *)
Lemma answered_block_made made sm idx h sm' blk :
  atm_sm_lemmas.store_inv made sm →
  atomizer_sm.commit sm idx (get_block_request h) = Ret (sm', Some (get_block_response blk)) →
  blk ∈ made.
Proof.
  intros [_ _ Hs] E. unfold atomizer_sm.commit in E. destruct (negb _); [done|].
  destruct (atomizer_sm.m_blocks sm !! h) as [b|] eqn:Eb; [|done]. cbn in E.
  assert (b = blk) as -> by congruence. destruct (Hs _ _ Eb) as (_ & Hl & _).
  by eapply list_elem_of_lookup_2.
Qed.

Lemma broadcasts_app o1 o2 : broadcasts (o1 ++ o2) = broadcasts o1 ++ broadcasts o2.
Proof. apply omap_app. Qed.

Lemma exception_no_output cb outs : run_callback reads cb exception = Ret outs → outs = [].
Proof. destruct cb; cbn; congruence. Qed.

(** Steps that touch the log of the controller only. *)
Lemma ctl_inv y c :
  sys_inv y → Forall entry_ok (m_entries c) → sys_inv (mk_sys c (y_sm y) (y_made y) (y_sent y)).
Proof. by intros [] ?. Qed.

Lemma execute_inv y data cb rest req sm resp outs :
  sys_inv y → m_entries (y_ctl y) = (data, cb) :: rest →
  decode_atomizer_request reads data = Ret (Some req) →
  atomizer_sm.commit (y_sm y) (next_idx (y_sm y)) req = Ret (sm, resp) → response_fits resp →
  (Z.of_nat (length (y_made y)) < 2 ^ 64 - 1)%Z →
  run_callback reads cb (result (encode_atomizer_response <$> resp)) = Ret outs →
  sys_inv (mk_sys (foldl send_output (set_entries (y_ctl y) rest) outs) sm
             (y_made y ++ atm_sm_lemmas.made [resp]) (y_sent y ++ outs)).
Proof.
  intros [He Hsh Hst (bs & Hbs & Hb) Ha Hw] Hd Hdec Hc Hfit Hlt Hcb.
  rewrite Hd in He. inversion_clear He as [|?? Hok Hrest].
  destruct (callback_spec (y_sm y) data cb Hsh Hok) as (req' & sm' & resp' & Hdec' & Hc' & Hsh' & Hout).
  assert (req' = req) as -> by congruence.
  assert (sm' = sm ∧ resp' = resp) as [-> ->] by (split; congruence).
  destruct (Hout Hfit) as (outs' & Hcb' & Hbr & Hans & Herr).
  assert (outs' = outs) as -> by congruence. split; cbn [y_ctl y_sm y_made y_sent].
  - by rewrite send_outputs_entries.
  - done.
  - by eapply atm_sm_lemmas.commit_store.
  - exists (bs ++ atm_sm_lemmas.made [resp]). rewrite broadcasts_app, Hb, Hbr, fmap_app.
    split; [|done]. by apply sublist_app.
  - intros pkt id [Hin|Hin]%elem_of_app.
    + destruct (Ha _ _ Hin) as (b & Hinb & ->). exists b. split; [|done]. apply elem_of_app. by left.
    + destruct (Hans _ _ Hin) as (h & blk & -> & -> & ->). exists blk. split; [|done].
      apply elem_of_app. left. by eapply answered_block_made.
  - intros pkt [Hin|Hin]%elem_of_app; auto.
Qed.

Lemma controller_step_inv y y' : sys_inv y → step y y' → sys_inv y'.
Proof.
  intros Hi Hs. pose proof (yi_entries _ Hi) as He.
  destruct Hs as [leader accepted pkt c E Hf|c b E|accepted c b E Hf|leader accepted c E Hf|listens e c E
    |data cb rest req sm resp outs Hd Hdec Hc Hfit Hlt Hcb|data cb rest outs Hd Hcb|req sm resp Hc Hlt].
  - apply ctl_inv; [done|]. unfold server_handler in E. destruct (negb leader); [by simplify_eq|].
    destruct (decode_rpc_request reads _) as [[[n|h|h]|]|]; cbn [obind] in E; [| | | |done];
      injection E as <-; [exact He| | |exact He].
    + by eapply made_entries_ok.
    + eapply made_entries_ok; [done..|by eexists].
  - apply ctl_inv; [done|]. unfold notification_consumer in E. destruct (negb _); [by simplify_eq|].
    destruct (blocking_queue.pop _) as [[q [n|]]|]; [..|done]; injection E as <- _; exact He.
  - apply ctl_inv; [done|]. unfold tx_notify_handler, atomizer_raft.send_complete_txs in E.
    destruct (atomizer_raft.m_complete_txs _) as [|tx txs]; [by simplify_eq|].
    apply (f_equal fst), symmetry in E. by eapply made_entries_ok; [|exact E|exact Hf|].
  - apply ctl_inv; [done|]. unfold main_handler in E. destruct leader; [|by subst c].
    by eapply made_entries_ok.
  - apply ctl_inv; [done|]. unfold raft_callback in E. destruct e; [destruct listens|..]; by simplify_eq/=.
  - by eapply execute_inv.
  - apply exception_no_output in Hcb as ->. rewrite app_nil_r. apply ctl_inv; [done|]. cbn.
    rewrite Hd in He. by inversion_clear He.
  - destruct Hi as [_ Hsh Hst (bs & Hbs & Hb) Ha Hw].
    destruct (atm_shape.commit_ret (y_sm y) req Hsh) as (sm' & resp' & Ec & Hsh' & _).
    unfold next_idx in Hc. rewrite Ec in Hc. assert (sm' = sm ∧ resp' = resp) as [-> ->] by (split; congruence).
    split; cbn [y_ctl y_sm y_made y_sent]; [done|done|by eapply atm_sm_lemmas.commit_store| |
      |exact Hw].
    + exists bs. split; [|done]. by apply sublist_inserts_r.
    + intros pkt id Hin. destruct (Ha _ _ Hin) as (b & ? & ->). exists b. rewrite elem_of_app. auto.
Qed.

(** C9: the controller reports the chain.  However the handlers, the Raft
    library, changes of leadership and other leaders interleave, the blocks
    are numbered 1, 2, 3 and so on, the packets broadcast to shards, archivers
    and watchtowers are blocks of that chain in order and without repetition,
    a peer that asked for a block gets one of that chain, and the watchtowers
    get lists of errors that are not empty.  No assertion on a result fails:
    the next entry is read, executed and its callback returns. *)
Theorem controller_reports_chain keys threshold depth y :
  rtc step (start keys threshold depth) y →
  (∀ i b, y_made y !! i = Some b → m_height b = Z.of_nat (S i)) ∧
  (∃ bs, sublist bs (y_made y) ∧ broadcasts (y_sent y) = block_packet <$> bs) ∧
  (∀ pkt id, to_peer pkt id ∈ y_sent y → ∃ b, b ∈ y_made y ∧ pkt = block_packet b) ∧
  (∀ pkt, to_watchtowers pkt ∈ y_sent y → ∃ errs, errs ≠ [] ∧ pkt = errors_packet errs) ∧
  (∀ data cb rest, m_entries (y_ctl y) = (data, cb) :: rest →
     ∃ sm res, commit_data reads (y_sm y) (next_idx (y_sm y)) data = Ret (sm, res) ∧
       ((∀ resp, res = Some (encode_atomizer_response resp) → atomizer_response_wf reads resp) →
        is_ret (run_callback reads cb (result res)))).
Proof.
  intros Hr. assert (sys_inv y) as [He Hsh Hst Hch Ha Hw].
  { pose proof (controller_start_inv keys threshold depth) as Hi. revert Hi. induction Hr; eauto using controller_step_inv. }
  split_and!; [apply Hst|done|done|done|]. intros data cb rest Hd. rewrite Hd in He.
  inversion_clear He as [|?? Hok _].
  destruct (callback_spec (y_sm y) data cb Hsh Hok) as (req & sm & resp & Hdec & Hc & _ & Hout).
  exists sm, (encode_atomizer_response <$> resp). unfold commit_data. rewrite Hdec. cbn [obind].
  rewrite Hc. cbn [obind]. split; [done|]. intros Hfit.
  destruct Hout as (outs & E & _); [|by exists outs]. intros r ->. by apply Hfit.
Qed.

End System.
End controller_system.

(** A batch of complete transactions that the library does not accept, as by
    a node that is no longer the leader, is dropped: it is neither in the log
    nor kept for the next round. *)
Theorem rejected_batch_dropped c :
  let c' := (atomizer_controller.tx_notify_handler false c).1 in
  atomizer_raft.m_complete_txs (atomizer_controller.m_raft_node c') = [] ∧
  atomizer_raft.m_txs (atomizer_controller.m_raft_node c') =
    atomizer_raft.m_txs (atomizer_controller.m_raft_node c) ∧
  atomizer_controller.m_entries c' = atomizer_controller.m_entries c.
Proof.
  unfold atomizer_controller.tx_notify_handler, atomizer_raft.send_complete_txs.
  destruct (atomizer_raft.m_complete_txs (atomizer_controller.m_raft_node c)) eqn:E; cbn; auto.
Qed.

(** ** The first block of a leader *)

Section ControllerWitness.
Import Toy atomizer_controller controller_system.

Definition ticked : sys :=
  mk_sys (main_handler true true (y_ctl (start ∅ 0 2))) (atomizer_sm.init 2) [] [].

Lemma first_entry_fits : requests_fit 4 (y_ctl ticked).
Proof.
  intros data cb req Hin Hd. apply list_elem_of_singleton in Hin as [= -> _].
  revert Hd. unfold encode_atomizer_request. rewrite !nuraft_bytes, !make_buffer_spec.
  destruct req as [msgs| |h|h]; [|done|..]; intros [= E].
Qed.

Lemma first_block_sent :
  ∃ y, rtc (step 4) (start ∅ 0 2) y ∧
    y_sent y = [to_clients (block_packet {| m_height := 1; m_transactions := [] |})].
Proof.
  eexists. split.
  - eapply rtc_l with ticked.
    { apply (s_tick 4 (start ∅ 0 2) true true); [reflexivity|exact first_entry_fits]. }
    eapply rtc_l; [|apply rtc_refl].
    eapply (s_execute 4 ticked); [reflexivity|vm_compute; reflexivity|vm_compute; reflexivity| |cbn; lia|].
    + intros resp [= <-]. split; [split; [done|split; [constructor|done]]|split; [constructor|done]].
    + vm_compute. reflexivity.
  - reflexivity.
Qed.

Lemma controller_reports_chain_witness :
  ∃ y bs, sublist bs (y_made y) ∧
    [block_packet {| m_height := 1; m_transactions := [] |}] = block_packet <$> bs.
Proof.
  destruct first_block_sent as (y & Hr & Hs).
  destruct (controller_reports_chain 4 ∅ 0 2 y Hr) as (_ & (bs & Hb & E) & _).
  exists y, bs. split; [exact Hb|]. rewrite <- E, Hs. reflexivity.
Defined.

End ControllerWitness.
