(* ===== verification/CoordinatorNode.v ===== *)
(** * The coordinator's threads

    Models of the parts of [src/uhs/twophase/coordinator/controller.cpp] that
    are about threads: the hand-over of batches between the request handler
    and the batch executor through [m_batch_mut] and [m_batch_cv], the pool of
    executor threads ([schedule_exec], [join_execs]), and starting and stopping
    ([start], [stop], [connect_shards]).  Waking up without a notification is
    left out: it would only help. *)

From Stdlib Require Import ZArith Lia.
From stdpp Require Import base tactics numbers gmap sets list.
From S2P Require Import Prelude Serialization Crypto Transaction Validation.
From S2P Require Import LockingShard Coordinator.
Open Scope cbdc_scope.

(** ** Handing over a batch *)

Module batch_sync.

(** The handler thread: between requests, about to take the mutex in
    [execute_transaction], waiting on the condition variable, about to notify
    after it has added a transaction, joined. *)
Inductive handler_pc := h_idle | h_check | h_wait | h_notify | h_joined.

(** The executor thread in [batch_executor_func]: at the loop condition, about
    to take the mutex, waiting, after the wait, after the swap, busy with
    [schedule_exec], returned. *)
Inductive executor_pc := e_top | e_check | e_wait | e_after | e_notify | e_sched | e_exit.

(** The thread that runs [stop]. *)
Inductive stopper_pc := s_none | s_reset | s_notify | s_join | s_done.

#[global] Instance handler_pc_dec : EqDecision handler_pc.
Proof. solve_decision. Defined.
#[global] Instance executor_pc_dec : EqDecision executor_pc.
Proof. solve_decision. Defined.

(** [m_current_txs] counts only, and so does [busy], the threads of the pool
    that execute a batch. *)
Record t := mk {
  m_running : bool;
  m_current_txs : nat;
  handler : handler_pc;
  executor : executor_pc;
  stopper : stopper_pc;
  busy : nat
}.

Section Sync.
Variable m_batch_size : nat.
(** The size of [m_exec_threads]. *)
Variable pool : nat.

(** A waiting thread that is notified takes the mutex and looks again. *)
Definition wake_handler (h : handler_pc) : handler_pc :=
  match h with h_wait => h_check | h => h end.

(** [execute_transaction] with the mutex: wait, give up, find a duplicate, or
    add the transaction. *)
Definition try_add (s : t) (duplicate : bool) : t :=
  if negb (bool_decide (m_current_txs s < m_batch_size) || negb (m_running s))
  then mk (m_running s) (m_current_txs s) h_wait (executor s) (stopper s) (busy s)
  else if negb (m_running s) || duplicate
  then mk (m_running s) (m_current_txs s) h_idle (executor s) (stopper s) (busy s)
  else mk (m_running s) (S (m_current_txs s)) h_notify (executor s) (stopper s) (busy s).

(** The next step of the executor; [None] when it is blocked or has ended.
    [schedule_exec] returns only when it has found a thread of the pool that is
    not in use. *)
Definition exec_step (s : t) : option t :=
  let goto e := Some (mk (m_running s) (m_current_txs s) (handler s) e (stopper s) (busy s)) in
  match executor s with
  | e_top => goto (if m_running s then e_check else e_exit)
  | e_check =>
      goto (if negb (bool_decide (m_current_txs s = 0)) || negb (m_running s) then e_after else e_wait)
  | e_wait => None
  | e_after =>
      if negb (m_running s) then goto e_exit
      else Some (mk (m_running s) 0 (handler s) e_notify (stopper s) (busy s))
  | e_notify =>
      Some (mk (m_running s) (m_current_txs s) (wake_handler (handler s)) e_sched (stopper s)
        (busy s))
  | e_sched =>
      if bool_decide (busy s < pool)
      then Some (mk (m_running s) (m_current_txs s) (handler s) e_top (stopper s) (S (busy s)))
      else None
  | e_exit => None
  end.

(** A thread of the pool comes to the end of its batch. *)
Definition batch_done (s : t) : option t :=
  match busy s with
  | 0 => None
  | S n => Some (mk (m_running s) (m_current_txs s) (handler s) (executor s) (stopper s) n)
  end.

(** [notify_one] wakes one of the two threads if one waits. *)
Inductive notify_one (h : handler_pc) (e : executor_pc) : handler_pc → executor_pc → Prop :=
| notify_handler : h = h_wait → notify_one h e h_check e
| notify_executor : e = e_wait → notify_one h e h e_check
| notify_nobody : h ≠ h_wait → e ≠ e_wait → notify_one h e h e.

Inductive step (s : t) : t → Prop :=
| step_request :
    handler s = h_idle →
    step s (mk (m_running s) (m_current_txs s) h_check (executor s) (stopper s) (busy s))
| step_add duplicate :
    handler s = h_check → step s (try_add s duplicate)
| step_handler_notify h e :
    handler s = h_notify → notify_one h_idle (executor s) h e →
    step s (mk (m_running s) (m_current_txs s) h e (stopper s) (busy s))
| step_executor s' : exec_step s = Some s' → step s s'
| step_batch_done s' : batch_done s = Some s' → step s s'
| step_stop :
    stopper s = s_none →
    step s (mk false (m_current_txs s) (handler s) (executor s) s_reset (busy s))
| step_reset :
    (** [m_rpc_server.reset] joins the handler thread. *)
    stopper s = s_reset → handler s = h_idle →
    step s (mk (m_running s) (m_current_txs s) h_joined (executor s) s_notify (busy s))
| step_stop_notify h e :
    stopper s = s_notify → notify_one (handler s) (executor s) h e →
    step s (mk (m_running s) (m_current_txs s) h e s_join (busy s))
| step_join :
    stopper s = s_join → executor s = e_exit →
    step s (mk (m_running s) (m_current_txs s) (handler s) (executor s) s_done (busy s)).

(** After [start]: an empty batch and both threads. *)
Definition started : t := mk true 0 h_idle e_top s_none 0.

(** While nobody stops the coordinator: a batch never has too many
    transactions, the executor is never asleep over a batch without someone
    about to wake it, and the handler is never asleep over a batch that the
    executor has taken. *)
Record sync_inv (s : t) : Prop := {
  sy_running : m_running s = true;
  sy_full : m_current_txs s ≤ m_batch_size;
  sy_executor : executor s = e_wait → m_current_txs s = 0 ∨ handler s = h_notify;
  sy_handler : handler s = h_wait → m_current_txs s = m_batch_size ∨ executor s = e_notify;
  sy_alive : executor s ≠ e_exit;
  sy_not_joined : handler s ≠ h_joined;
  sy_after : executor s = e_after → m_current_txs s ≠ 0;
  sy_busy : busy s ≤ pool
}.

Hypothesis batch_not_empty : m_batch_size ≠ 0.
Hypothesis pool_not_empty : pool ≠ 0.

Lemma exec_step_inv s s' :
  sync_inv s → stopper s = s_none → exec_step s = Some s' → sync_inv s' ∧ stopper s' = s_none.
Proof.
  intros [Hr Hf He Hh Ha Hj Hz Hbu] Hn E. unfold exec_step in E. rewrite Hr in E. cbn in E.
  destruct (executor s) eqn:Ee; try done.
  - injection E as <-. split; [|done]. split; cbn; try done. intros Hw. left. by destruct (Hh Hw).
  - rewrite orb_false_r in E. case_bool_decide; injection E as <-; (split; [|done]); split; cbn; try done.
    + auto.
    + intros Hw. by destruct (Hh Hw); [left|].
    + intros Hw. by destruct (Hh Hw); [left|].
  - injection E as <-. split; [|done]. split; cbn; try done; [lia|auto].
  - injection E as <-. split; [|done]. split; cbn; try done; destruct (handler s); done.
  - case_bool_decide; [|done]. injection E as <-. split; [|done]. split; cbn; try done. intros Hw. left. by destruct (Hh Hw).
Qed.

Lemma started_inv : sync_inv started.
Proof. split; cbn; try done; lia. Qed.

Lemma batch_done_inv s s' :
  sync_inv s → batch_done s = Some s' → sync_inv s' ∧ stopper s' = stopper s.
Proof.
  intros [Hr Hf He Hh Ha Hj Hz Hbu] E. unfold batch_done in E.
  destruct (busy s) eqn:Eb; [done|]. injection E as <-. split; [|done]. split; cbn; try done; lia.
Qed.

Lemma try_add_inv s duplicate :
  sync_inv s → handler s = h_check → sync_inv (try_add s duplicate).
Proof.
  intros [Hr Hf He Hh Ha Hj Hz Hbu] Hc. unfold try_add. rewrite Hr. cbn. rewrite orb_false_r.
  case_bool_decide; cbn; [destruct duplicate|]; split; cbn; try done; try lia; auto.
  - intros Hw. destruct (He Hw) as [|Hh']; [by left|congruence].
  - intros Hw. destruct (He Hw) as [|Hh']; [by left|congruence].
Qed.

Lemma sync_step_inv s s' :
  (stopper s = s_none → sync_inv s) → step s s' → stopper s' = s_none → sync_inv s'.
Proof.
  intros Hi Hs Hn. destruct Hs as [Hh|dup Hh|h e Hh Hno|s' E|s' E|Hst|Hst Hh|h e Hst Hno|Hst He];
    cbn in Hn; try done.
  - destruct (Hi Hn) as [Hr Hf He Hw Ha Hj Hz Hbu]. split; cbn; try done.
    intros Hx. destruct (He Hx); [by left|congruence].
  - apply try_add_inv; [|done]. apply Hi. unfold try_add in Hn. by repeat case_match.
  - destruct (Hi Hn) as [Hr Hf He Hw Ha Hj Hz Hbu]. destruct Hno as [?|Hx|Hx1 Hx2]; [done|..]; split; cbn; done.
  - assert (stopper s = s_none) as Hn'.
    { revert E Hn. unfold exec_step. destruct (executor s), (m_running s); cbn; try case_bool_decide; intros [= <-]; done. }
    by apply (exec_step_inv s s' (Hi Hn') Hn' E).
  - assert (stopper s = s_none) as Hn'.
    { revert E Hn. unfold batch_done. destruct (busy s); cbn; intros [= <-]; done. }
    by apply (batch_done_inv s s' (Hi Hn') E).
Qed.

Lemma sync_reachable_inv s : rtc step started s → stopper s = s_none → sync_inv s.
Proof.
  intros Hr. assert (stopper started = s_none → sync_inv started) as Hi by (intros; apply started_inv).
  revert Hi. induction Hr as [s|s1 s2 s3 Hs _ IH]; intros Hi; [done|].
  apply IH. intros Hn. by apply (sync_step_inv s1).
Qed.

(** A step of the executor or of a thread of the pool. *)
Definition works (a b : t) : Prop := exec_step a = Some b ∨ batch_done a = Some b.

(** The executor and the pool wake a waiting handler. *)
Lemma executor_wakes s :
  sync_inv s → stopper s = s_none → handler s = h_wait →
  ∃ s', rtc works s s' ∧ handler s' = h_check.
Proof.
  intros [Hr Hf He Hh Ha Hj Hz Hbu] Hn Hw. destruct s as [r n h e st b]. cbn in *. subst r h st.
  set (woken s := ∃ s', rtc works s s' ∧ handler s' = h_check).
  assert (∀ a s', works a s' → woken s' → woken a) as Hstep.
  { intros a s' Hs (s'' & ? & ?). exists s''. split; [by eapply rtc_l|done]. }
  assert (∀ n b, woken (mk true n h_wait e_notify s_none b)) as Hnotify.
  { intros n' b'. eexists. split; [apply rtc_once; by left|]. done. }
  destruct (decide (e = e_notify)) as [->|Hne]; [apply Hnotify|].
  destruct (Hh eq_refl) as [->|]; [|done].
  assert (∀ b, woken (mk true m_batch_size h_wait e_after s_none b)) as Hafter.
  { intros b'. eapply Hstep; [by left|]. apply Hnotify. }
  assert (∀ b, woken (mk true m_batch_size h_wait e_check s_none b)) as Hcheck.
  { intros b'. eapply Hstep; [|apply (Hafter b')]. left. unfold exec_step. cbn.
    by rewrite bool_decide_false. }
  assert (∀ b, woken (mk true m_batch_size h_wait e_top s_none b)) as Htop.
  { intros b'. eapply Hstep; [by left|]. apply Hcheck. }
  assert (∀ b, b < pool → woken (mk true m_batch_size h_wait e_sched s_none b)) as Hfree.
  { intros b' Hb. eapply Hstep; [|apply (Htop (S b'))]. left. unfold exec_step. cbn.
    by rewrite bool_decide_true. }
  change (woken (mk true m_batch_size h_wait e s_none b)).
  destruct e; auto; try done.
  - by destruct (He eq_refl).
  - destruct (decide (b < pool)); [auto|]. destruct b as [|b]; [lia|].
    eapply Hstep; [by right|]. apply Hfree. lia.
Qed.


End Sync.
End batch_sync.

(** Stopping can hang.  A handler that waits for room when [stop] clears
    [m_running] is not notified before its thread is joined, and the executor
    ends without notifying it: nobody can go on. *)
Theorem stop_hangs_on_full_batch :
  ∃ s, rtc (batch_sync.step 1 1) batch_sync.started s ∧
    batch_sync.stopper s = batch_sync.s_reset ∧ ∀ s', ¬ batch_sync.step 1 1 s s'.
Proof.
  exists (batch_sync.mk false 1 batch_sync.h_wait batch_sync.e_exit batch_sync.s_reset 0).
  split; [|split; [done|]].
  - (* a first batch is handed to the executor, a second one fills up *)
    eapply rtc_l; [apply batch_sync.step_request; reflexivity|].
    eapply rtc_l; [apply (batch_sync.step_add _ _ _ false); reflexivity|]; cbn.
    eapply rtc_l; [eapply batch_sync.step_executor; reflexivity|].
    eapply rtc_l; [eapply batch_sync.step_executor; reflexivity|].
    eapply rtc_l; [eapply batch_sync.step_handler_notify; [reflexivity|]; apply batch_sync.notify_nobody; discriminate|].
    eapply rtc_l; [eapply batch_sync.step_executor; reflexivity|].
    eapply rtc_l; [eapply batch_sync.step_executor; reflexivity|].
    eapply rtc_l; [apply batch_sync.step_request; reflexivity|].
    eapply rtc_l; [apply (batch_sync.step_add _ _ _ false); reflexivity|]; cbn.
    eapply rtc_l; [eapply batch_sync.step_handler_notify; [reflexivity|]; apply batch_sync.notify_nobody; discriminate|].
    eapply rtc_l; [apply batch_sync.step_request; reflexivity|].
    eapply rtc_l; [apply (batch_sync.step_add _ _ _ false); reflexivity|]; cbn.
    eapply rtc_l; [apply batch_sync.step_stop; reflexivity|].
    eapply rtc_l; [eapply batch_sync.step_executor; reflexivity|].
    eapply rtc_l; [eapply batch_sync.step_executor; reflexivity|].
    eapply rtc_l; [eapply batch_sync.step_batch_done; reflexivity|]. apply rtc_refl.
  - intros s' Hs. inversion Hs; simplify_eq/=; done.
Qed.


(** ** The pool of executor threads *)

Module exec_pool.
Section Pool.
Context {J : Type}.

(** A thread of the pool: it runs its job, has marked itself as done and is
    about to return, or was joined. *)
Inductive thread := running (j : J) | ending | joined.

(** An element of [m_exec_threads]: the thread, if there is one, and the flag
    that it is in use. *)
Record slot := mk_slot { s_thread : option thread; s_in_use : bool }.

(** A pool with the jobs that were scheduled and those that were executed. *)
Record t := mk { slots : list slot; scheduled : list J; executed : list J }.

Definition init (max_threads : nat) : t := mk (replicate max_threads (mk_slot None false)) [] [].

Definition join_thread (th : option thread) : option thread :=
  match th with Some ending => Some joined | th => th end.

(** One pass of [schedule_exec] over the threads: the first one that is not
    in use is joined and replaced; [None] when there is none.  Replacing a
    thread that runs would end the process. *)
Fixpoint find_thread (l : list slot) (f : J) : option (outcome (list slot)) :=
  match l with
  | [] => None
  | s :: l =>
      if s_in_use s then
        o ← find_thread l f;
        Some (let! l' := o in Ret (s :: l'))
      else
        match join_thread (s_thread s) with
        | Some (running _) => Some Fatal
        | _ => Some (Ret (mk_slot (Some (running f)) true :: l))
        end
  end.

Definition schedule_exec (p : t) (f : J) : option (outcome t) :=
  o ← find_thread (slots p) f;
  Some (let! l := o in Ret (mk l (scheduled p ++ [f]) (executed p))).

(** The end of a job: the thread clears its flag. *)
Definition finish (p : t) (i : nat) (j : J) : t :=
  mk (<[ i := mk_slot (Some ending) false ]> (slots p)) (scheduled p) (executed p ++ [j]).

(** [join_execs]: [None] while a thread still runs. *)
Definition join_execs (p : t) : option t :=
  if forallb (λ s, match s_thread s with Some (running _) => false | _ => true end) (slots p)
  then Some (mk ((λ s, mk_slot (join_thread (s_thread s)) (s_in_use s)) <$> slots p)
               (scheduled p) (executed p))
  else None.

Inductive step (p : t) : t → Prop :=
| step_schedule f p' : schedule_exec p f = Some (Ret p') → step p p'
| step_finish i j : slots p !! i = Some (mk_slot (Some (running j)) true) → step p (finish p i j)
| step_join p' : join_execs p = Some p' → step p p'.

(** The jobs that run. *)
Definition running_jobs (l : list slot) : list J :=
  omap (λ s, match s_thread s with Some (running j) => Some j | _ => None end) l.

(** A thread runs exactly when its flag says so. *)
Definition slot_ok (s : slot) : Prop :=
  s_in_use s = true ↔ ∃ j, s_thread s = Some (running j).

Record pool_inv (n : nat) (p : t) : Prop := {
  po_size : length (slots p) = n;
  po_slots : Forall slot_ok (slots p);
  po_jobs : scheduled p ≡ₚ executed p ++ running_jobs (slots p)
}.

Lemma pool_init_inv n : pool_inv n (init n).
Proof.
  split; cbn; [by rewrite length_replicate| |].
  - apply Forall_replicate. split; [done|by intros []].
  - by induction n.
Qed.

(** A pass over sound threads never fails; it starts the job or finds all of
    them busy. *)
Lemma find_thread_spec l f :
  Forall slot_ok l →
  match find_thread l f with
  | Some o => ∃ l', o = Ret l' ∧ length l' = length l ∧ Forall slot_ok l' ∧
      running_jobs l' ≡ₚ f :: running_jobs l
  | None => length (running_jobs l) = length l
  end.
Proof.
  induction 1 as [|[th u] l Hs Hl IH]; [done|]. cbn [find_thread s_in_use s_thread].
  destruct u.
  - destruct (proj1 Hs eq_refl) as [j Hj]. cbn in Hj. subst th.
    destruct (find_thread l f) as [o|]; cbn in *; [|f_equal; exact IH].
    destruct IH as (l' & -> & Hlen & Hok & Hp). cbn. eexists. split; [done|]. cbn.
    split; [by rewrite Hlen|]. split; [by constructor|].
    etrans; [apply Permutation_skip, Hp|apply Permutation_swap].
  - assert (∀ j, th ≠ Some (running j)) as Hn.
    { intros j ->. assert (false = true) as ?; [|done]. apply (proj2 Hs). by exists j. }
    assert (∃ l', match join_thread th with
                  | Some (running _) => Some Fatal
                  | _ => Some (Ret (mk_slot (Some (running f)) true :: l))
                  end = Some (Ret l') ∧ l' = mk_slot (Some (running f)) true :: l) as (l' & -> & ->).
    { destruct th as [[j| |]|]; cbn; eauto. by destruct (Hn j). }
    eexists. split; [done|]. split; [done|]. split.
    + constructor; [|done]. split; [by eexists|done].
    + cbn. destruct th as [[j| |]|]; try done. by destruct (Hn j).
Qed.

Lemma finish_jobs l : ∀ i j,
  l !! i = Some (mk_slot (Some (running j)) true) →
  running_jobs l ≡ₚ j :: running_jobs (<[ i := mk_slot (Some ending) false ]> l).
Proof.
  induction l as [|s l IH]; intros [|i] j Hi; [done..| |]; cbn in Hi.
  - injection Hi as ->. done.
  - unfold running_jobs. cbn. destruct (s_thread s) as [[j'| |]|]; [|by apply IH..].
    etrans; [apply Permutation_skip, (IH i j Hi)|apply Permutation_swap].
Qed.

Lemma join_jobs l : running_jobs ((λ s, mk_slot (join_thread (s_thread s)) (s_in_use s)) <$> l) = running_jobs l.
Proof.
  unfold running_jobs. induction l as [|[[[j| |]|] u] l IH]; cbn; [done|..]; by rewrite ?IH.
Qed.

Lemma pool_step_inv n p p' : pool_inv n p → step p p' → pool_inv n p'.
Proof.
  intros [Hn Hok Hj] Hs. destruct Hs as [f p' E|i j Hi|p' E].
  - unfold schedule_exec in E. pose proof (find_thread_spec (slots p) f Hok) as Hf.
    destruct (find_thread (slots p) f) as [o|]; [|done]. destruct Hf as (l & -> & Hlen & Hok' & Hp).
    cbn in E. injection E as <-. split; cbn; [lia|done|]. rewrite Hp, Hj.
    rewrite <- (assoc_L (++)). apply Permutation_app_head. by rewrite Permutation_app_comm.
  - split; cbn; [by rewrite length_insert| |].
    + apply Forall_insert; [done|]. split; [done|]. by intros [].
    + rewrite Hj, (finish_jobs _ _ _ Hi), <- (assoc_L (++)). done.
  - unfold join_execs in E. case_match; [|done]. injection E as <-.
    split; cbn; [by rewrite length_fmap| |by rewrite join_jobs].
    apply Forall_fmap. eapply Forall_impl; [exact Hok|]. intros [th u] Hs. unfold slot_ok in *. cbn in *.
    rewrite Hs. destruct th as [[| |]|]; cbn; naive_solver.
Qed.

Lemma reachable_pool n p : rtc step (init n) p → pool_inv n p.
Proof.
  intros Hr. pose proof (pool_init_inv n) as Hi. revert Hi.
  induction Hr; [done|]. intros Hi. eauto using pool_step_inv.
Qed.

Lemma running_bound l : length (running_jobs l) ≤ length l.
Proof. unfold running_jobs. induction l as [|s l IH]; cbn; [lia|]. case_match; cbn; lia. Qed.

(** The executor pool runs every job once.  In any order of scheduling,
    finishing and joining, at most as many jobs run as there are threads, what
    was scheduled is what was executed and what still runs, a thread is never
    replaced while it runs, a job waits for a thread only when all of them are
    busy, and when [join_execs] returns, as at the end of a recovery, all jobs
    have been executed. *)
Theorem exec_pool_complete n p f :
  rtc step (init n) p →
  length (running_jobs (slots p)) ≤ n ∧
  scheduled p ≡ₚ executed p ++ running_jobs (slots p) ∧
  schedule_exec p f ≠ Some Fatal ∧
  (schedule_exec p f = None ↔ length (running_jobs (slots p)) = n) ∧
  (∀ p', join_execs p = Some p' → scheduled p' ≡ₚ executed p').
Proof.
  intros Hr. destruct (reachable_pool n p Hr) as [Hn Hok Hj].
  pose proof (running_bound (slots p)) as Hb. rewrite Hn in Hb.
  pose proof (find_thread_spec (slots p) f Hok) as Hf. unfold schedule_exec.
  split; [done|]. split; [done|]. split; [|split].
  - destruct (find_thread (slots p) f) as [o|]; [|done]. by destruct Hf as (l & -> & _).
  - destruct (find_thread (slots p) f) as [o|] eqn:Ef; [|by rewrite Hf].
    destruct Hf as (l & -> & Hlen & _ & Hp). split; [done|]. intros E.
    pose proof (running_bound l) as Hb'. apply Permutation_length in Hp. rewrite Hp in Hb'. cbn in Hb'. lia.
  - intros p' E. unfold join_execs in E. destruct (forallb _ _) eqn:Ea; [|done]. injection E as <-. cbn.
    rewrite Hj. replace (running_jobs (slots p)) with (@nil J); [by rewrite app_nil_r|].
    clear -Ea. unfold running_jobs. induction (slots p) as [|[[[j| |]|] u] l IH]; cbn in *; auto. done.
Qed.

End Pool.
End exec_pool.

Lemma exec_pool_complete_witness :
  let p := exec_pool.mk [exec_pool.mk_slot (Some (exec_pool.running 7)) true] [7] [] in
  exec_pool.schedule_exec p 8 = None ∧
  ∀ p', exec_pool.join_execs (exec_pool.finish p 0 7) = Some p' →
    exec_pool.scheduled p' ≡ₚ exec_pool.executed p'.
Proof.
  assert (rtc exec_pool.step (exec_pool.init 1)
    (exec_pool.mk [exec_pool.mk_slot (Some (exec_pool.running 7)) true] [7] [])) as Hr.
  { apply rtc_once, (exec_pool.step_schedule _ 7). reflexivity. }
  split.
  - apply (exec_pool.exec_pool_complete 1 _ 8 Hr). reflexivity.
  - apply (exec_pool.exec_pool_complete 1 _ 8). eapply rtc_r; [exact Hr|].
    apply exec_pool.step_finish. reflexivity.
Defined.

(** ** Starting and stopping *)

Module coordinator_life.
Section Life.
(** The endpoints of a shard cluster. *)
Context {EP : Type}.
Variables (m_shard_endpoints : list EP) (m_shard_ranges : list (Z * Z)).

(** What [start] sets up: clients of the shards, the executor thread, the
    server, and whether the unfinished batches were recovered. *)
Record t := mk {
  m_running : bool;
  m_shards : list (EP * (Z * Z));
  m_batch_exec_thread : bool;
  m_rpc_server : bool;
  recovered : bool
}.

Definition init : t := mk false [] false false false.

(** [stop]: the server, the executor threads and the shard clients go. *)
Definition stop (c : t) : t := mk false [] false false false.

(** [connect_shards] from index [i] on; a client that cannot be started ends
    the process, and so does a missing range. *)
Fixpoint connect_shards (client_init : nat → bool) (i : nat) (endpoints : list EP)
    (shards : list (EP * (Z * Z))) : outcome (list (EP * (Z * Z))) :=
  match endpoints with
  | [] => Ret shards
  | ep :: endpoints =>
      let! range := at_index m_shard_ranges i in
      if client_init i then connect_shards client_init (S i) endpoints (shards ++ [(ep, range)])
      else Fatal
  end.

(** The recovery loop of [start]: the result of each attempt and whether the
    node was still the leader after it.  The result says whether a recovery
    succeeded; [None] when the loop still runs. *)
Fixpoint recover (attempts : list (bool * bool)) : option bool :=
  match attempts with
  | [] => None
  | (res, leader) :: attempts =>
      if res : bool then Some true else if leader : bool then recover attempts else Some false
  end.

Definition start (c : t) (client_init : nat → bool) (attempts : list (bool * bool))
    (is_leader server_init : bool) : option (outcome t) :=
  match connect_shards client_init 0 m_shard_endpoints (m_shards c) with
  | Fatal => Some Fatal
  | Ret shards =>
      rec ← recover attempts;
      Some (if negb is_leader then Ret (mk true shards (m_batch_exec_thread c) false rec)
            else if server_init then Ret (mk true shards true true rec) else Fatal)
  end.

(** A round of [start_stop_func]: the coordinator is stopped before it is
    started. *)
Inductive round (c : t) : t → Prop :=
| round_stop : round c (stop c)
| round_start client_init attempts is_leader server_init c' :
    start (stop c) client_init attempts is_leader server_init = Some (Ret c') → round c c'.

Lemma connect_shards_spec client_init eps : ∀ i shards shards',
  connect_shards client_init i eps shards = Ret shards' →
  shards' = shards ++ zip eps (drop i m_shard_ranges).
Proof.
  induction eps as [|ep eps IH]; intros i shards shards'; cbn.
  { intros [= <-]. by rewrite app_nil_r. }
  destruct (m_shard_ranges !! i) as [range|] eqn:Er; unfold at_index; rewrite Er; [|done]. cbn.
  destruct (client_init i); [|done]. intros ->%IH.
  rewrite (drop_S _ _ _ Er), <- (assoc_L (++)). done.
Qed.

(** A coordinator that serves runs its executor and is connected to every
    shard exactly once, however often it was started and stopped. *)
Theorem serving_is_connected c :
  rtc round init c → m_rpc_server c = true →
  m_running c = true ∧ m_batch_exec_thread c = true ∧
  m_shards c = zip m_shard_endpoints m_shard_ranges.
Proof.
  set (P c := m_rpc_server c = true → m_running c = true ∧ m_batch_exec_thread c = true ∧
    m_shards c = zip m_shard_endpoints m_shard_ranges).
  intros Hr. enough (P c) by done. assert (P init) as Hi by done. revert Hi.
  induction Hr as [c|c0 c1 c2 Hs _ IH]; [done|]. intros _. apply IH. clear IH.
  destruct Hs as [|client_init attempts leader ok c' E]; [done|]. unfold start in E.
  destruct (connect_shards _ _ _ _) as [shards|] eqn:Ec; [|done].
  apply connect_shards_spec in Ec. rewrite drop_0 in Ec. cbn in Ec.
  destruct (recover attempts) as [rec|]; [|done]. cbn in E. destruct leader; cbn in E.
  - destruct ok; [|done]. injection E as <-. done.
  - injection E as <-. done.
Qed.

(** After the recovery loop only the leadership is looked at again: a node
    that lost it in recovery and has it back goes on to serve with batches
    that were not recovered. *)
Theorem unrecovered_leader_serves shards :
  connect_shards (λ _, true) 0 m_shard_endpoints [] = Ret shards →
  ∃ c, rtc round init c ∧ m_rpc_server c = true ∧ recovered c = false.
Proof.
  intros E. exists (mk true shards true true false). split; [|done].
  apply rtc_once, (round_start _ (λ _, true) [(false, false)] true true).
  unfold start. cbn [m_shards stop]. by rewrite E.
Qed.

End Life.
End coordinator_life.
