(* ===== verification/ClientCli.v ===== *)
(** * The command line client

    Model of [src/uhs/client/client-cli.cpp]: the commands with their
    arguments, addresses in Bech32, and what is printed for the recipient of
    a payment.  An argument that is not there and an element past the end of
    a vector are out-of-range accesses; numbers that cannot be read raise an
    exception. *)

From Stdlib Require Import ZArith Lia.
From Stdlib.Strings Require Import Byte String.
From stdpp Require Import base tactics numbers gmap sets list.
From S2P Require Import Prelude Text Bech32 Serialization Crypto Transaction Validation.
From S2P Require Import Wallet Sentinel Watchtower Client.
Open Scope cbdc_scope.

Module client_cli.
Import convert_bits.

Definition bits_per_byte : nat := 8.
Definition bech32_bits_per_symbol : nat := 5.
Definition bech32_hrp : list byte := lit "usd".
(** [address_type::public_key] *)
Definition public_key_type : Z := 0.

Definition to_uint32 (z : Z) : Z := (z `mod` 2 ^ 32)%Z.

(** What a command prints, and the answer of the sentinel as a whole. *)
Inductive line := out_text (s : list byte) | out_response (r : execute_response).

Section Commands.
Context `{Hasher} `{Secp256k1}.

(** *** Addresses *)

Definition decode_address (addr_str : list byte) : outcome (option hash_t) :=
  let (hrp, enc_data) := bech32.Decode addr_str in
  if negb (bool_decide (hrp = bech32_hrp)) then Ret None else
  let data := (ConvertBits bech32_bits_per_symbol bits_per_byte false enc_data).1 in
  let! first := at_index data 0 in
  if negb (first =? public_key_type)%Z || negb (bool_decide (length data = hash_size + 1))
  then Ret None
  else Ret (Some (byte_of_Z <$> drop 1 data)).

(** The text [newaddress_command] prints for a key. *)
Definition encode_address (addr : pubkey_t) : outcome (list byte) :=
  let addr_vec := public_key_type :: (Z_of_byte <$> addr) in
  let data := (ConvertBits bits_per_byte bech32_bits_per_symbol true addr_vec).1 in
  bech32.Encode bech32_hrp data.

(** *** Commands

    The randomness of the wallet, the answer of the back end, and the text of
    an amount, which goes through a floating-point number, are arguments. *)
Context (rnd : randomness) (rnds : Z → list randomness) (response : option execute_response).
Context (send_mint_tx : client.t → full_tx.t → outcome (client.t * bool)).
Context (sync : client.t → outcome (client.t * bool)) (print_amount : Z → list byte).
Context (uninit : list byte).

Definition mint_command (c : client.t) (args : list (list byte))
    : outcome (client.t * bool * list line) :=
  if bool_decide (length args < 7) then Ret (c, false, []) else
  let! a5 := at_index args 5 in
  let! n_outputs := stoull a5 in
  let! a6 := at_index args 6 in
  let! output_val := stoull a6 in
  let! '(c, mint_tx) := client.mint c (rnds n_outputs) (to_uint32 output_val) send_mint_tx in
  Ret (c, true, [out_text (to_hex (tx_id mint_tx))]).

Definition print_tx_result (tx : full_tx.t) (resp : option execute_response) (pubkey : hash_t)
    : list line :=
  [out_text (lit "tx_id:"); out_text (to_hex (tx_id tx))] ++
  (wallet.export_send_inputs tx pubkey ≫= λ inp,
     [out_text (lit "Data for recipient importinput:"); out_text (to_hex (make_buffer (put_input inp)))]) ++
  match resp with Some r => [out_response r] | None => [] end.

(** The common end of [send_command] and [fan_command]. *)
Definition report (pubkey : hash_t)
    (res : outcome (client.t * (option full_tx.t * option execute_response)))
    : outcome (client.t * bool * list line) :=
  let! '(c, (tx, resp)) := res in
  match tx with
  | None => Ret (c, false, [out_text (lit "Could not generate valid send tx.")])
  | Some tx => Ret (c, true, print_tx_result tx resp pubkey)
  end.

Definition send_command (c : client.t) (args : list (list byte))
    : outcome (client.t * bool * list line) :=
  if bool_decide (length args < 7) then Ret (c, false, []) else
  let! a5 := at_index args 5 in
  let! value := stoull a5 in
  let! a6 := at_index args 6 in
  let! pubkey := decode_address a6 in
  match pubkey with
  | None => Ret (c, false, [out_text (lit "Could not decode address")])
  | Some pubkey => report pubkey (client.send c (to_uint32 value) pubkey rnd response)
  end.

Definition fan_command (c : client.t) (args : list (list byte))
    : outcome (client.t * bool * list line) :=
  if bool_decide (length args < 8) then Ret (c, false, []) else
  let! a6 := at_index args 6 in
  let! value := stoull a6 in
  let! a5 := at_index args 5 in
  let! count := stoull a5 in
  let! a7 := at_index args 7 in
  let! pubkey := decode_address a7 in
  match pubkey with
  | None => Ret (c, false, [out_text (lit "Could not decode address")])
  | Some pubkey =>
      report pubkey
        (client.fan c (Z.to_nat (to_uint32 count)) (to_uint32 value) pubkey rnd response)
  end.

Definition newaddress_command (c : client.t) : outcome (client.t * list line) :=
  let! '(c, addr) := client.new_address c rnd in
  let! text := encode_address addr in
  Ret (c, [out_text text]).

Definition importinput_command (c : client.t) (args : list (list byte))
    : outcome (client.t * bool * list line) :=
  let! a5 := at_index args 5 in
  match from_hex a5 with
  | None => Ret (c, false, [out_text (lit "Invalid input encoding.")])
  | Some buffer =>
      match from_buffer input.dflt get_input buffer with
      | None => Ret (c, false, [out_text (lit "Invalid input")])
      | Some inp => Ret (client.import_send_input c inp, true, [])
      end
  end.

Definition confirmtx_command (c : client.t) (args : list (list byte))
    : outcome (client.t * bool * list line) :=
  let! a5 := at_index args 5 in
  let! id := hash_from_hex uninit a5 in
  let! '(c, success) := client.confirm_transaction c id in
  if success : bool
  then Ret (c, true, [out_text (lit "Confirmed. Balance: " ++ print_amount (client.balance c) ++
                        lit " UTXOs: " ++ to_string (client.utxo_count c))])
  else Ret (c, false, [out_text (lit "Unknown TXID")]).

Definition info_command (c : client.t) : list line :=
  [out_text (lit "Balance: " ++ print_amount (client.balance c) ++ lit ", UTXOs: " ++
     to_string (client.utxo_count c) ++ lit ", pending TXs: " ++
     to_string (client.pending_tx_count c))].

Definition exit_with (r : client.t * bool * list line) : outcome (client.t * Z * list line) :=
  let '(c, ok, out) := r in Ret (c, if ok : bool then 0%Z else (-1)%Z, out).

(** [main] from the command on; the result is the exit code. *)
Definition run_command (c : client.t) (args : list (list byte)) : outcome (client.t * Z * list line) :=
  let! command := at_index args 4 in
  if decide (command = lit "mint") then let! r := mint_command c args in exit_with r
  else if decide (command = lit "send") then let! r := send_command c args in exit_with r
  else if decide (command = lit "fan") then let! r := fan_command c args in exit_with r
  else if decide (command = lit "sync") then let! '(c, _) := sync c in Ret (c, 0%Z, [])
  else if decide (command = lit "newaddress") then
    let! '(c, out) := newaddress_command c in Ret (c, 0%Z, out)
  else if decide (command = lit "info") then Ret (c, 0%Z, info_command c)
  else if decide (command = lit "importinput") then
    let! r := importinput_command c args in exit_with r
  else if decide (command = lit "confirmtx") then
    let! r := confirmtx_command c args in exit_with r
  else Ret (c, 0%Z, [out_text (lit "Unknown command")]).

(** [main]: [load] is the result of reading the configuration, creating the
    client and connecting it. *)
Definition main (load : option client.t) (args : list (list byte))
    : outcome (option client.t * Z * list line) :=
  if bool_decide (length args < 5) then Ret (load, 0%Z, []) else
  match load with
  | None => Ret (None, (-1)%Z, [])
  | Some c => let! '(c, code, out) := run_command c args in Ret (Some c, code, out)
  end.

End Commands.
End client_cli.

(** ** Addresses *)

Section CliTheorems.
Context `{Hasher} `{Secp256k1}.
Import client_cli.

(** C35: an address names its key.  Every key of 32 bytes is printed as an
    address, and the address is read as that key: the change to groups of five
    bits, the checksum, the characters and the way back lose nothing. *)
Theorem address_roundtrip (pubkey : pubkey_t) :
  length pubkey = hash_size →
  ∃ str, encode_address pubkey = Ret str ∧ decode_address str = Ret (Some pubkey).
Proof.
  intros Hlen. unfold encode_address.
  set (vec := public_key_type :: (Z_of_byte <$> pubkey)).
  assert (Forall (convert_lemmas.fits 8) vec) as Hvec.
  { constructor; [done|]. apply Forall_fmap, Forall_forall. intros b _. apply Z_of_byte_range. }
  destruct (convert_lemmas.convert_roundtrip 5 vec ltac:(lia) Hvec) as [Hback Hfit].
  destruct (convert_lemmas.convert_padded 8 5 ltac:(lia) vec Hvec) as (k & Hk & Hbits & _).
  assert (length (convert_bits.ConvertBits 8 5 true vec).1 ≤ 53) as Hl.
  { apply (f_equal length) in Hbits.
    rewrite length_app, !convert_lemmas.length_all_bits, length_replicate in Hbits. cbn in Hbits.
    rewrite length_fmap, Hlen in Hbits. unfold hash_size in Hbits. lia. }
  destruct (bech32_lemmas.decode_encode bech32_hrp (convert_bits.ConvertBits 8 5 true vec).1)
    as (str & He & Hd); [done|done|exact Hfit|change (length bech32_hrp) with 3; lia|].
  exists str. split; [exact He|]. unfold decode_address. rewrite Hd.
  unfold bech32_bits_per_symbol, bits_per_byte. rewrite bool_decide_true by done. cbn [negb].
  rewrite Hback. unfold vec. cbn [at_index lookup list_lookup option_map obind length].
  rewrite length_fmap, Hlen. cbn [Z.eqb public_key_type negb orb drop].
  rewrite (bool_decide_true (S hash_size = hash_size + 1)) by lia. cbn [negb].
  rewrite drop_0, <- list_fmap_compose. do 2 f_equal.
  rewrite <- (list_fmap_id pubkey) at 2. apply list_fmap_ext. intros i b _. apply byte_of_Z_of_byte.
Qed.

(** An input that was printed is imported. *)
Lemma printed_input_imported c inp args :
  input.wf inp → args !! 5 = Some (to_hex (make_buffer (put_input inp))) →
  importinput_command c args = Ret (client.import_send_input c inp, true, []).
Proof.
  intros Hwf Ha. unfold importinput_command. rewrite (at_index_some _ _ _ Ha). cbn [obind].
  assert (length (make_buffer (put_input inp)) = 80) as Hl.
  { rewrite make_buffer_spec. destruct inp as [[id idx] [wc v]], Hwf as [[Hid _] [Hwc _]].
    cbn in Hid, Hwc. unfold put_input, put_out_point, put_output, put_array, put_u64, bytes_of.
    cbn [input.m_prevout input.m_prevout_data out_point.m_tx_id out_point.m_index
      output.m_witness_program_commitment output.m_value app concat].
    rewrite !length_app, !length_le_bytes, Hid, Hwc. done. }
  rewrite buffer_hex_roundtrip; [|by destruct (make_buffer _)|rewrite Hl; done].
  by rewrite (from_make_buffer input.wf put_input _ _ _ get_input_roundtrip Hwf).
Qed.

(** C34: a payment goes from one command line to the other.  When [send]
    succeeds, the client has sent the amount of the argument, as an unsigned
    number of 32 bits, to the key of the address, and for every output of the
    transaction that belongs to that key a line is printed which the payee's
    [importinput] takes as exactly that input. *)
Theorem cli_payment_handed_over rnd response c args c' out payee :
  send_command rnd response c args = Ret (c', true, out) →
  ∃ amount address value pubkey tx r,
    args !! 5 = Some amount ∧ stoull amount = Ret value ∧
    args !! 6 = Some address ∧ decode_address address = Ret (Some pubkey) ∧
    client.send c (to_uint32 value) pubkey rnd response = Ret (c', (Some tx, r)) ∧
    ∀ inp, inp ∈ wallet.export_send_inputs tx pubkey → input.wf inp →
      ∃ text, out_text text ∈ out ∧
        ∀ args', args' !! 5 = Some text →
          importinput_command payee args' = Ret (client.import_send_input payee inp, true, []).
Proof.
  unfold send_command. case_bool_decide; [done|].
  unfold at_index. destruct (args !! 5) as [a5|] eqn:E5; [|done]. cbn [obind].
  destruct (stoull a5) as [value|] eqn:Ev; [|done]. cbn [obind].
  destruct (args !! 6) as [a6|] eqn:E6; [|done]. cbn [obind].
  destruct (decode_address a6) as [[pubkey|]|] eqn:Ed; [|done|done]. cbn [obind]. unfold report.
  destruct (client.send c _ pubkey rnd response) as [[c1 [[tx|] r]]|] eqn:Es; [|done|done].
  cbn [obind]. intros E. injection E as <- <-.
  exists a5, a6, value, pubkey, tx, r. split_and!; [done..|]. intros inp Hin Hwf.
  exists (to_hex (make_buffer (put_input inp))). split.
  - unfold print_tx_result. apply elem_of_app. right. apply elem_of_app. left.
    apply list_elem_of_bind. exists inp. split; [right; left|done].
  - intros args' Ha. by apply printed_input_imported.
Qed.

(** The amount is cut to 32 bits without a warning. *)
Theorem send_amount_truncated rnd response c cmd address v :
  (0 ≤ v < 2 ^ 32)%Z →
  let args a := cmd ++ [to_string a; address] in
  length cmd = 5 →
  send_command rnd response c (args (v + 2 ^ 32)%Z) = send_command rnd response c (args v).
Proof.
  intros Hv args Hc. unfold send_command.
  assert (∀ a, length (args a) = 7) as Hl by (intros a; unfold args; rewrite length_app, Hc; done).
  rewrite !Hl. assert (∀ a, args a !! 5 = Some (to_string a)) as H5.
  { intros a. unfold args. rewrite lookup_app_r by lia. by rewrite Hc. }
  assert (∀ a, args a !! 6 = Some address) as H6.
  { intros a. unfold args. rewrite lookup_app_r by lia. by rewrite Hc. }
  unfold at_index. rewrite !H5, !H6. cbn [obind].
  rewrite !stoull_to_string by (unfold is_u64; lia). cbn [obind].
  destruct (decode_address address) as [[pubkey|]|]; [|done|done]. cbn [obind].
  unfold to_uint32. by rewrite Z.add_mod, Z.mod_same, Z.add_0_r, Z.mod_mod by lia.
Qed.

(** A valid address without data is read past the end of an empty vector. *)
Theorem empty_address_crashes :
  ∃ str, bech32.Encode bech32_hrp [] = Ret str ∧ decode_address str = Fatal.
Proof. eexists. split; [vm_compute; reflexivity|]. vm_compute. reflexivity. Qed.

(** The last argument of [importinput] and of [confirmtx] is not checked to
    be there. *)
Theorem missing_argument_crashes c uninit print_amount args :
  length args = 5 →
  importinput_command c args = Fatal ∧ confirmtx_command print_amount uninit c args = Fatal.
Proof.
  intros Hl. unfold importinput_command, confirmtx_command, at_index.
  by rewrite (lookup_ge_None_2 args 5) by lia.
Qed.

End CliTheorems.

(** ** A payment *)

Section CliWitnesses.
Import Toy wallet wallet_lemmas client client_cli.

Lemma address_roundtrip_witness :
  ∃ str, encode_address their_key = Ret str ∧ decode_address str = Ret (Some their_key).
Proof. apply (address_roundtrip their_key). reflexivity. Defined.

Definition their_address : list byte :=
  match encode_address their_key with Ret str => str | Fatal => [] end.

Definition pay_args : list (list byte) :=
  [lit "client-cli"; lit "2pc.cfg"; lit "client.dat"; lit "wallet.dat"; lit "send"; lit "15"; their_address].

Definition confirmed_response : option execute_response :=
  Some {| m_tx_status := pending; m_tx_error := None |}.

Lemma cli_payment_handed_over_witness :
  ∃ c' out amount address value pubkey tx r,
    send_command my_rnd confirmed_response my_client pay_args = Ret (c', true, out) ∧
    pay_args !! 5 = Some amount ∧ stoull amount = Ret value ∧
    pay_args !! 6 = Some address ∧ decode_address address = Ret (Some pubkey) ∧
    client.send my_client (to_uint32 value) pubkey my_rnd confirmed_response = Ret (c', (Some tx, r)).
Proof.
  assert (match send_command my_rnd confirmed_response my_client pay_args with
    | Ret (_, ok, _) => ok
    | Fatal => false
    end = true) as Hok by (vm_compute; reflexivity).
  destruct (send_command my_rnd confirmed_response my_client pay_args) as [[[c' ok] out]|] eqn:E; [|discriminate Hok].
  cbn in Hok. subst ok.
  destruct (cli_payment_handed_over my_rnd confirmed_response my_client pay_args c' out my_client E)
    as (amount & address & value & pubkey & tx & r & H1 & H2 & H3 & H4 & H5 & _).
  exists c', out, amount, address, value, pubkey, tx, r. repeat split; assumption.
Defined.

End CliWitnesses.
