(* ===== verification/TwoPhase.v ===== *)
(** * Payments through the two-phase architecture

    The components of the two-phase architecture put together: clients give
    transactions to sentinels ([sentinel_2pc/controller.cpp]), which forward
    them to the coordinator ([coordinator/client.cpp] and [server.cpp]), which
    collects them in batches and executes these over the locking shards
    ([coordinator/controller.cpp]), and answers travel back.  The theorem is
    proved for any shards that honour the contract of [DistributedTx], and
    instantiated with remote shards whose calls are lost and repeated.
    Leadership can be lost at any command and between batches, a coordinator
    can stop between two calls to shards, and later leaders recover what was
    left, in several attempts if need be.  Batches are executed one after the
    other, which is what the coordinator does when it is configured with one
    thread, and compete for no input; that they must not compete is shown at
    the end. *)

From Stdlib Require Import ZArith Lia.
From Stdlib.Strings Require Import Byte.
From stdpp Require Import base tactics numbers gmap sets list.
From S2P Require Import Prelude Serialization Crypto Transaction Validation.
From S2P Require Import CacheSet UhsSpec LockingShard DistributedTx Coordinator Failover.
From S2P Require Import Sentinel Atomizer Watchtower Messages Rpc RemoteShard.
Open Scope cbdc_scope.

Module payments.
Section System.
Context {Sh : Type} `{ShardLaws Sh} `{Hasher} `{Secp256k1} `{!Secp256k1Laws}.
Import distributed_tx dtx_lemmas shard_lemmas failover.

(** The sentinels, by their keys, and what coordinators ask of attestations. *)
Variables (sentinels : list privkey_t) (keys : gset pubkey_t) (threshold : nat).
Hypothesis sentinels_accepted : Forall (sentinel_lemmas.accepted keys) sentinels.

(** A batch whose execution was cut short: its id, its transactions and the
    callbacks of their clients. *)
Record open_batch := mk_open {
  o_id : hash_t;
  o_full : list compact_tx.t;
  o_txs : gmap hash_t (nat * nat)
}.

(** A request is known by the number of the callback of its client.
    [y_ctl] is the coordinator that leads or, when its [m_is_leader] is not
    set, the one that is going to.  [y_inflight] are the calls between
    sentinels and the coordinator, [y_open] the batch left by a leader. *)
Record sys := mk {
  y_ctl : controller.t Sh;
  y_shards : list Sh;
  y_log : list sm_command;
  y_requests : gmap nat full_tx.t;
  y_inflight : list (nat * compact_tx.t);
  y_answers : list (nat * option execute_response);
  y_settled : list (nat * compact_tx.t);
  y_open : option open_batch
}.

Definition start (shards : list Sh) (batch_size : nat) (batch : distributed_tx.t Sh) : sys :=
  mk (controller.mk true true batch_size batch ∅ keys threshold) shards [] ∅ [] [] [] None.

(** A client has called [execute_transaction] of a sentinel. *)
Definition submit (y : sys) (cb : nat) (tx : full_tx.t) (ex : sentinel.execution) : sys :=
  let requests := <[ cb := tx ]> (y_requests y) in
  match ex with
  | sentinel.responded r =>
      mk (y_ctl y) (y_shards y) (y_log y) requests (y_inflight y)
        (y_answers y ++ [(cb, Some r)]) (y_settled y) (y_open y)
  | sentinel.gathered (forwarded ctx) =>
      mk (y_ctl y) (y_shards y) (y_log y) requests (y_inflight y ++ [(cb, ctx)])
        (y_answers y) (y_settled y) (y_open y)
  | sentinel.gathered remote_rejected =>
      mk (y_ctl y) (y_shards y) (y_log y) requests (y_inflight y)
        (y_answers y ++ [(cb, None)]) (y_settled y) (y_open y)
  | sentinel.gathered still_waiting =>
      mk (y_ctl y) (y_shards y) (y_log y) requests (y_inflight y) (y_answers y) (y_settled y)
        (y_open y)
  end.

(** The answers of a batch on their way through the sentinels, and the
    transactions it completed with the callbacks that asked for them. *)
Definition told (rs : gmap hash_t (nat * option bool)) : list (nat * option execute_response) :=
  (λ r, (r.2.1, sentinel.result_handler r.2.2)) <$> map_to_list rs.

Definition settled_by (full : list compact_tx.t) (txs : gmap hash_t (nat * nat))
    (res : option (list bool)) : list (nat * compact_tx.t) :=
  match res with
  | None => []
  | Some flags =>
      (λ tx, (default 0 (fst <$> txs !! compact_tx.m_id tx), tx)) <$> committed full flags
  end.

Definition all_unspent (shards : list Sh) : gset hash_t := ⋃ (shard_unspent <$> shards).

(** What a batch must satisfy when it is executed: its id is new, its
    transactions compete for inputs neither with each other nor with batches
    that are still prepared, and hashes are created once. *)
Definition uncontended (log : list sm_command) (shards : list Sh) (id : hash_t)
    (full : list compact_tx.t) : Prop :=
  coordinator_lemmas.kinds id log = [] ∧
  Forall (λ sh, shard_prepared sh id = None ∧ shard_admissible sh (sel sh full).*2) shards ∧
  fresh_history everything (all_unspent shards) (committed full (verdict shards <$> full)).

(** The coordinator that will lead next: nothing is collected for it yet. *)
Definition deposed (ctl : controller.t Sh) (batch : distributed_tx.t Sh) : controller.t Sh :=
  controller.mk false (controller.m_running ctl) (controller.m_batch_size ctl) batch ∅
    (controller.m_sentinel_public_keys ctl) (controller.m_attestation_threshold ctl).

(** [start] after a recovery that succeeded: a fresh batch. *)
Definition elected (ctl : controller.t Sh) (batch : distributed_tx.t Sh) : controller.t Sh :=
  controller.mk true (controller.m_running ctl) (controller.m_batch_size ctl) batch ∅
    (controller.m_sentinel_public_keys ctl) (controller.m_attestation_threshold ctl).

(** The transactions a recovery has completed, by what the log records. *)
Definition settled_open (open : option open_batch) (log : list sm_command)
    : list (nat * compact_tx.t) :=
  match open with
  | None => []
  | Some o => settled_by (o_full o) (o_txs o) (recorded (o_id o) log)
  end.

Inductive step (y : sys) : sys → Prop :=
| step_submit cb tx sk peers draws ex :
    y_requests y !! cb = None → sk ∈ sentinels → Forall (λ p, p ∈ sentinels) peers →
    sentinel.execute_transaction sk peers threshold tx draws = Ret ex →
    step y (submit y cb tx ex)
| step_deliver cb ctx before after ctl ok :
    y_inflight y = before ++ (cb, ctx) :: after →
    controller.execute_transaction (y_ctl y) ctx cb = (ctl, controller.returned ok) →
    step y (mk ctl (y_shards y) (y_log y) (y_requests y) (before ++ after)
      (y_answers y ++ if ok : bool then [] else [(cb, sentinel.result_handler None)])
      (y_settled y) (y_open y))
| step_lose cb ctx before after :
    y_inflight y = before ++ (cb, ctx) :: after →
    step y (mk (y_ctl y) (y_shards y) (y_log y) (y_requests y) (before ++ after)
      (y_answers y) (y_settled y) (y_open y))
  (** A batch is executed to its end, or leadership is lost on the way. *)
| step_batch leader random_hash ctl batch txs log d res rs :
    controller.swap_batch (y_ctl y) random_hash (y_shards y) = Ret (ctl, Some (batch, txs)) →
    uncontended (y_log y) (y_shards y) (m_dtx_id batch) (m_full_txs batch) →
    execute (batch_set_cbs leader (m_state batch)) (y_log y)
      (set_shards batch (y_shards y)) = Ret (log, d, res) →
    controller.responses txs res = Ret rs →
    step y (mk (if res then ctl else deposed ctl (controller.m_current_batch ctl))
      (m_shards d) log (y_requests y) (y_inflight y)
      (y_answers y ++ told rs) (y_settled y ++ settled_by (m_full_txs batch) txs res)
      (if res then None else Some (mk_open (m_dtx_id batch) (m_full_txs batch) txs)))
  (** The leader is lost between batches: nobody answers what it had collected. *)
| step_depose random_hash batch :
    y_open y = None → create random_hash (y_shards y) = Ret batch →
    step y (mk (deposed (y_ctl y) batch) (y_shards y) (y_log y) (y_requests y) (y_inflight y)
      (y_answers y) (y_settled y) None)
  (** A coordinator that stopped in the middle of a phase, or has not noticed
      that it is deposed, has asked one more shard. *)
| step_reach_lock o st i sh sh' r :
    y_open y = Some o → coordinator_sm.run coordinator_sm.empty (y_log y) = Ret st →
    coordinator_sm.m_prepare_txs st !! o_id o = Some (o_full o) →
    y_shards y !! i = Some sh → sel sh (o_full o) ≠ [] →
    lock_outputs sh (sel sh (o_full o)).*2 (o_id o) = Ret (sh', r) →
    step y (mk (y_ctl y) (<[ i := sh' ]> (y_shards y)) (y_log y) (y_requests y) (y_inflight y)
      (y_answers y) (y_settled y) (y_open y))
| step_reach_apply o st i sh sh' complete idxs ix c r :
    y_open y = Some o → coordinator_sm.run coordinator_sm.empty (y_log y) = Ret st →
    coordinator_sm.m_commit_txs st !! o_id o = Some (complete, idxs) →
    y_shards y !! i = Some sh → idxs !! i = Some ix → ix ≠ [] → select complete ix = Ret c →
    apply_outputs sh c (o_id o) = Ret (sh', r) →
    step y (mk (y_ctl y) (<[ i := sh' ]> (y_shards y)) (y_log y) (y_requests y) (y_inflight y)
      (y_answers y) (y_settled y) (y_open y))
  (** A node that has become the leader recovers, and fails or takes over. *)
| step_recovery_failed leader log shards :
    controller.m_is_leader (y_ctl y) = false →
    controller.recovery_func leader (y_log y) (y_shards y) = Ret (log, shards, false) →
    step y (mk (y_ctl y) shards log (y_requests y) (y_inflight y) (y_answers y) (y_settled y)
      (y_open y))
| step_recovered leader log shards random_hash batch :
    controller.m_is_leader (y_ctl y) = false →
    controller.recovery_func leader (y_log y) (y_shards y) = Ret (log, shards, true) →
    create random_hash shards = Ret batch →
    step y (mk (elected (y_ctl y) batch) shards log (y_requests y) (y_inflight y) (y_answers y)
      (y_settled y ++ settled_open (y_open y) log) None).

(** ** Execution of a batch *)

(** What depends on the ranges only. *)
Lemma fmap_ranges {B} (f : Sh → B) (l1 l2 : list Sh) :
  (∀ a b, in_shard_range a = in_shard_range b → f a = f b) →
  in_shard_range <$> l1 = in_shard_range <$> l2 → f <$> l1 = f <$> l2.
Proof.
  intros Hf. revert l2. induction l1 as [|a l1 IH]; intros [|b l2] E; try done.
  csimpl in *. injection E as Ea El. f_equal; auto.
Qed.

Lemma batch_ok_shards (d : distributed_tx.t Sh) shards :
  batch_ok d → in_shard_range <$> m_shards d = in_shard_range <$> shards →
  batch_ok (set_shards d shards).
Proof.
  intros [Ht Hi] E. split; cbn; [rewrite Ht|rewrite Hi];
    apply fmap_ranges; try done; intros a b Hab; by apply (f_equal (fmap _)), sel_ext.
Qed.

(** What holds of the coordinator that collects a batch, for shards with the
    given ranges. *)
Record ready_inv (ctl : controller.t Sh) (shards : list Sh) : Prop := {
  r_ctl : controller_inv ctl;
  r_running : controller.m_running ctl = true;
  r_keys : controller.m_sentinel_public_keys ctl = keys;
  r_threshold : controller.m_attestation_threshold ctl = threshold;
  r_state : m_state (controller.m_current_batch ctl) = DistributedTx.start;
  r_ranges : in_shard_range <$> m_shards (controller.m_current_batch ctl) =
    in_shard_range <$> shards;
  r_ids : NoDup (compact_tx.m_id <$> m_full_txs (controller.m_current_batch ctl))
}.

Lemma ready_inv_ranges ctl shards shards' :
  in_shard_range <$> shards = in_shard_range <$> shards' →
  ready_inv ctl shards → ready_inv ctl shards'.
Proof. intros E []. constructor; try done. congruence. Qed.

(** A coordinator with a batch that was just created. *)
Lemma fresh_ready_inv ctl shards rnd batch b :
  ready_inv ctl shards → create rnd shards = Ret batch →
  ready_inv (controller.mk b (controller.m_running ctl) (controller.m_batch_size ctl) batch ∅
    (controller.m_sentinel_public_keys ctl) (controller.m_attestation_threshold ctl)) shards.
Proof.
  intros [Hc Hr Hk Ht Hs Hrg Hid] E. destruct (create_ok _ _ _ E) as (Hb & Hf & Hsh & _ & Hst).
  constructor; cbn; rewrite ?Hf, ?Hsh; try done; [|constructor].
  constructor; cbn; rewrite ?Hf; [done|..].
  - intros ??? Hl. by rewrite lookup_empty in Hl.
  - by intros ? ?%elem_of_nil.
  - by rewrite map_size_empty.
  - rewrite map_size_empty. lia.
  - constructor.
Qed.

Lemma covers_ranges (shards shards' : list Sh) :
  in_shard_range <$> shards = in_shard_range <$> shards' →
  covers in_shard_range shards → covers in_shard_range shards'.
Proof.
  intros E Hc h. destruct (Hc h) as (i & sh & Hi & Ho & Hu).
  assert (∀ j sh', shards' !! j = Some sh' →
    ∃ sh0, shards !! j = Some sh0 ∧ in_shard_range sh0 = in_shard_range sh') as Hback.
  { intros j sh' Hj. apply (f_equal (lookup j)) in E. rewrite !list_lookup_fmap, Hj in E.
    apply fmap_Some in E as (sh0 & ? & ?). eauto. }
  apply (f_equal (lookup i)) in E as Ei. rewrite !list_lookup_fmap, Hi in Ei.
  symmetry in Ei. apply fmap_Some in Ei as (sh' & Hi' & Er). exists i, sh'.
  split; [done|]. split; [congruence|]. intros j sh'' Hj Ho'.
  destruct (Hback j sh'' Hj) as (sh0 & Hj0 & Er0). apply (Hu j sh0); congruence.
Qed.

Lemma settled_ranges full (shards0 l l' : list Sh) :
  Forall2 (settled full shards0) l l' → in_shard_range <$> l = in_shard_range <$> l'.
Proof. induction 1 as [|sh0 sh l l' (_ & Hr & _) _ IH]; csimpl; congruence. Qed.

Lemma settled_ok full (shards0 l l' : list Sh) :
  Forall2 (settled full shards0) l l' → Forall shard_ok l'.
Proof. induction 1 as [|sh0 sh l l' (? & _) _ IH]; constructor; auto. Qed.

Lemma phase_ranges id full (shards0 : list Sh) k shards :
  phase_shards id full shards0 k shards →
  in_shard_range <$> shards0 = in_shard_range <$> shards.
Proof.
  assert (∀ l l' (R : Sh → Sh → Prop), (∀ a b, R a b → in_shard_range a = in_shard_range b) →
    Forall2 R l l' → in_shard_range <$> l = in_shard_range <$> l') as Hg.
  { intros l l' R HR. induction 1; csimpl; [done|]. f_equal; auto. }
  destruct k as [|[|[|]]]; cbn; [by intros ->|..]; apply Hg.
  - by intros a b [->|[[_ ->]|(_ & _ & ? & _)]].
  - by intros a b [[[_ ->]|(_ & _ & ? & _)]|[[_ ->]|(_ & (_ & ? & _) & _)]].
  - by intros a b (_ & ? & _).
Qed.

(** What the log and the shards are when no batch is under way, and while
    one is. *)
Record quiet (U0 : gset hash_t) (settled : list compact_tx.t) (log : list sm_command)
    (shards : list Sh) : Prop := {
  q_ok : Forall shard_ok shards;
  q_covers : covers in_shard_range shards;
  q_log : coordinator_sm.run coordinator_sm.empty log = Ret coordinator_sm.empty;
  q_uhs : uhs_run everything U0 settled (all_unspent shards)
}.

Definition cut_short (U0 : gset hash_t) (settled : list compact_tx.t) (id : hash_t)
    (full : list compact_tx.t) (log : list sm_command) (shards : list Sh) : Prop :=
  ∃ shards0, covers in_shard_range shards0 ∧ Forall (ready full id) shards0 ∧
    fresh_history everything (all_unspent shards0) (committed full (verdict shards0 <$> full)) ∧
    uhs_run everything U0 settled (all_unspent shards0) ∧
    under_way id full shards0 log shards.

Lemma covers_nonempty (shards : list Sh) : covers in_shard_range shards → shards ≠ [].
Proof. intros Hc ->. destruct (Hc []) as (i & ? & Hi & _). by rewrite lookup_nil in Hi. Qed.

(** The batch came to its end. *)
Lemma finished_quiet U0 settled full id log shards shards0 :
  covers in_shard_range shards0 → Forall (ready full id) shards0 →
  uhs_run everything U0 settled (all_unspent shards0) →
  logged id full shards0 4 log → phase_shards id full shards0 4 shards →
  quiet U0 (settled ++ committed full (verdict shards0 <$> full)) log shards.
Proof.
  intros Hcov Hr Hu Hl F. cbn in F. constructor.
  - by eapply settled_ok.
  - eapply covers_ranges; [|exact Hcov]. by eapply settled_ranges.
  - apply Hl.
  - eapply uhs_run_app; [exact Hu|]. by apply (settled_global full id).
Qed.

(** The batch that was swapped out is executed, whatever Raft does: either to
    its end, with the verdicts of the shards, or it is left for recovery. *)
Lemma batch_runs U0 settled ctl shards log rnd ctl' batch txs leader :
  ready_inv ctl shards → quiet U0 settled log shards →
  controller.swap_batch ctl rnd shards = Ret (ctl', Some (batch, txs)) →
  uncontended log shards (m_dtx_id batch) (m_full_txs batch) →
  let flags := verdict shards <$> m_full_txs batch in
  batch = controller.m_current_batch ctl ∧ txs = controller.m_current_txs ctl ∧
  controller.m_current_txs ctl' = ∅ ∧ ready_inv ctl' shards ∧
  ∃ log' d res,
    execute (batch_set_cbs leader (m_state batch)) log (set_shards batch shards) =
      Ret (log', d, res) ∧
    in_shard_range <$> shards = in_shard_range <$> m_shards d ∧
    (res = Some flags ∧
       quiet U0 (settled ++ committed (m_full_txs batch) flags) log' (m_shards d) ∨
     res = None ∧
       cut_short U0 settled (m_dtx_id batch) (m_full_txs batch) log' (m_shards d)) ∧
    ((∀ l, leader l = replicated) → is_Some res).
Proof.
  intros Hi Hq Es (Hnew & Hu & Hf) flags. unfold controller.swap_batch in Es.
  destruct (_ || _); [done|].
  destruct (create rnd shards) as [nb|] eqn:Ec; [|done]. injection Es as <- <- <-.
  split; [done|]. split; [done|]. split; [done|].
  split; [by apply (fresh_ready_inv _ _ rnd)|].
  destruct Hi as [Hctl Hrun Hk Ht Hst Hrg Hids]. destruct Hq as [Hok Hcov Hlog Huhs].
  set (batch := controller.m_current_batch ctl) in *.
  assert (Forall (ready (m_full_txs batch) (m_dtx_id batch)) shards) as Hready.
  { apply Forall_forall. intros sh Hin. rewrite Forall_forall in Hu, Hok.
    destruct (Hu sh Hin). split; [by apply Hok|done]. }
  assert (logged (m_dtx_id batch) (m_full_txs batch) shards 0 log) as Hl0.
  { constructor; [lia|done|by apply recorded_new]. }
  destruct (execute_any (m_dtx_id batch) (m_full_txs batch) shards Hready Hf leader log
    (set_shards batch shards)) as (log' & d & res & E & Huw & Hres & Hlead); [|done|].
  { left. cbn. split; [by left|]. split; [|done].
    apply batch_ok_shards; [apply Hctl|exact Hrg]. }
  exists log', d, res. split; [exact E|].
  split; [destruct Huw as (k & _ & ?); by eapply phase_ranges|]. split; [|done].
  destruct res as [fl|].
  - left. destruct (Hres fl eq_refl) as (-> & Hl4 & H4). split; [done|].
    by eapply finished_quiet.
  - right. split; [done|]. by exists shards.
Qed.

(** A request that reaches the batch, or is turned down. *)
Lemma request_received ctl shards ctx cb ctl' ok :
  ready_inv ctl shards →
  controller.execute_transaction ctl ctx cb = (ctl', controller.returned ok) →
  ready_inv ctl' shards ∧
  if ok then
    controller.m_is_leader ctl = true ∧
    controller.m_current_txs ctl !! compact_tx.m_id ctx = None ∧
    ∃ i, m_full_txs (controller.m_current_batch ctl') =
        m_full_txs (controller.m_current_batch ctl) ++ [ctx] ∧
      i = length (m_full_txs (controller.m_current_batch ctl)) ∧
      controller.m_current_txs ctl' =
        <[ compact_tx.m_id ctx := (cb, i) ]> (controller.m_current_txs ctl)
  else ctl' = ctl.
Proof.
  intros Hi E. pose proof (execute_transaction_inv _ _ _ _ _ (r_ctl _ _ Hi) E) as Hci.
  unfold controller.execute_transaction in E. destruct Hi as [Hctl Hr Hk Ht Hs Hrg Hids].
  assert (ready_inv ctl shards) as Hi by by constructor.
  destruct (controller.m_is_leader ctl) eqn:Hl; cbn [negb] in E; [|by simplify_eq].
  rewrite Hr in E. cbn [negb orb] in E.
  destruct (check_attestations _ _ _); cbn [negb] in E; [|by simplify_eq].
  rewrite orb_false_r in E. case_bool_decide as Hsz; cbn [negb] in E; [|done].
  destruct (controller.m_current_txs ctl !! _) eqn:Hn; [by simplify_eq|].
  destruct (add_tx_ok (controller.m_current_batch ctl) ctx (ci_batch _ Hctl))
    as (_ & Hf & Hsh & _ & Hst).
  destruct (add_tx (controller.m_current_batch ctl) ctx) as [batch idx] eqn:Ea. cbn in *.
  assert (idx = length (m_full_txs (controller.m_current_batch ctl))) as ->.
  { unfold add_tx in Ea. destruct (add_to_shards _ _ _ _ _). by simplify_eq. }
  injection E as <- <-. split.
  - constructor; cbn in *; try done; [congruence..|].
    rewrite Hf, fmap_app. apply NoDup_app. split_and!; [done| |apply NoDup_singleton].
    intros id (tx & -> & Hin)%list_elem_of_fmap Hid. csimpl in Hid.
    apply list_elem_of_singleton in Hid.
    destruct (ci_all _ Hctl tx Hin) as [? Hx]. congruence.
  - split; [done|]. split; [done|]. eauto.
Qed.

(** ** Who gets which answer *)

Lemma elem_of_committed txs flags tx :
  tx ∈ committed txs flags ↔ ∃ i, txs !! i = Some tx ∧ flags !! i = Some true.
Proof.
  revert flags. induction txs as [|tx0 txs IH]; intros flags; cbn [committed].
  { split; [by intros ?%elem_of_nil|by intros (i & ? & _)]. }
  destruct flags as [|f flags]; [split; [by intros ?%elem_of_nil|by intros (i & _ & ?)]|].
  rewrite elem_of_app, IH. split.
  - intros [Hin|(i & ? & ?)]; [|by exists (S i)]. destruct f; [|by apply elem_of_nil in Hin].
    apply list_elem_of_singleton in Hin as ->. by exists 0.
  - intros ([|i] & Hx & Hf); [|right; by exists i]. left. cbn in *. simplify_eq.
    by apply list_elem_of_singleton.
Qed.

Definition pending (ctl : controller.t Sh) : list nat :=
  (λ p, p.2.1) <$> map_to_list (controller.m_current_txs ctl).

(** The transaction a callback asked for, as it left a sentinel. *)
Definition origin (requests : gmap nat full_tx.t) (cb : nat) (ctx : compact_tx.t) : Prop :=
  ∃ tx m, requests !! cb = Some tx ∧ check_tx tx = Ret None ∧
    ctx = compact_tx.with_attestations (compact tx) m ∧
    check_attestations ctx keys threshold = true.

Lemma responses_eq txs flags rs :
  controller.responses txs (Some flags) = Ret rs →
  rs = (λ m, (m.1, flags !! m.2)) <$> txs.
Proof. unfold controller.responses. case_decide; [|done]. by intros [= <-]. Qed.

(** A callback is told once, and told that its transaction is confirmed
    exactly when the batch completed it. *)
Lemma told_pending ctl res rs :
  controller.responses (controller.m_current_txs ctl) res = Ret rs →
  (told rs).*1 ≡ₚ pending ctl.
Proof.
  destruct res as [flags|]; [intros ->%responses_eq|intros [= <-]]; unfold told, pending;
    rewrite map_to_list_fmap, <- !list_fmap_compose;
    (erewrite list_fmap_ext; [done|]); by intros i [id [cb j]] _.
Qed.

(** Everyone in a batch that was cut short is told nothing definite. *)
Lemma told_nothing txs rs cb a :
  controller.responses txs None = Ret rs →
  (cb, a) ∈ told rs ↔ a = None ∧ ∃ id i, txs !! id = Some (cb, i).
Proof.
  intros [= <-]. unfold told. rewrite list_elem_of_fmap. split.
  - intros ([id [cb' b]] & E & Hl). cbn in E. apply elem_of_map_to_list in Hl.
    rewrite lookup_fmap in Hl. apply fmap_Some in Hl as ([cb'' i] & Hl & [= -> ->]).
    simplify_eq/=. eauto.
  - intros (-> & id & i & Hl). exists (id, (cb, None)). split; [done|].
    apply elem_of_map_to_list. by rewrite lookup_fmap, Hl.
Qed.

(** Every transaction of a batch has a callback with its position. *)
Definition indexed (full : list compact_tx.t) (txs : gmap hash_t (nat * nat)) : Prop :=
  ∀ i tx, full !! i = Some tx → ∃ cb, txs !! compact_tx.m_id tx = Some (cb, i).

Lemma in_batch ctl shards :
  ready_inv ctl shards →
  indexed (m_full_txs (controller.m_current_batch ctl)) (controller.m_current_txs ctl).
Proof.
  intros Hi i tx Hx. destruct (ci_all _ (r_ctl _ _ Hi) tx) as [[cb j] Hl];
    [by eapply list_elem_of_lookup_2|]. exists cb.
  destruct (ci_index _ (r_ctl _ _ Hi) _ _ _ Hl) as (tx' & Hx' & Hid).
  rewrite Hl. do 2 f_equal. eapply (NoDup_lookup _ j i (compact_tx.m_id tx) (r_ids _ _ Hi));
    rewrite list_lookup_fmap; [by rewrite Hx', <- Hid|by rewrite Hx].
Qed.

Lemma settled_by_spec full txs flags cb ctx :
  indexed full txs →
  (cb, ctx) ∈ settled_by full txs (Some flags) ↔
  ∃ i, full !! i = Some ctx ∧ flags !! i = Some true ∧
    txs !! compact_tx.m_id ctx = Some (cb, i).
Proof.
  intros Hi. unfold settled_by. rewrite list_elem_of_fmap. split.
  - intros (tx & [= -> ->] & (i & Hx & Hf)%elem_of_committed).
    destruct (Hi i tx Hx) as [cb' Hl]. exists i. by rewrite Hl.
  - intros (i & Hx & Hf & Hl). exists ctx. rewrite Hl. split; [done|].
    apply elem_of_committed. eauto.
Qed.

Lemma settled_by_txs full txs flags :
  (settled_by full txs (Some flags)).*2 = committed full flags.
Proof. unfold settled_by. rewrite <- list_fmap_compose. apply list_fmap_id. Qed.

Lemma told_confirmed ctl shards flags rs cb :
  ready_inv ctl shards →
  controller.responses (controller.m_current_txs ctl) (Some flags) = Ret rs →
  cb ∈ (settled_by (m_full_txs (controller.m_current_batch ctl))
    (controller.m_current_txs ctl) (Some flags)).*1 ↔
  ∃ r, (cb, Some r) ∈ told rs ∧ m_tx_status r = confirmed.
Proof.
  intros Hi ->%responses_eq. rewrite list_elem_of_fmap. split.
  - intros ([cb' ctx] & -> & (i & Hx & Hf & Hl)%settled_by_spec); [|by eapply in_batch]. cbn.
    eexists. split; [|shelve]. apply list_elem_of_fmap. exists (compact_tx.m_id ctx, (cb', Some true)).
    split; [reflexivity|]. apply elem_of_map_to_list. rewrite lookup_fmap, Hl. cbn. by rewrite Hf.
    Unshelve. done.
  - intros (r & ([id [cb' b]] & E & Hl)%list_elem_of_fmap & Hc). cbn in E.
    apply elem_of_map_to_list in Hl. rewrite lookup_fmap in Hl.
    apply fmap_Some in Hl as ([cb'' j] & Hl & [= -> ->]). cbn in E.
    destruct (ci_index _ (r_ctl _ _ Hi) _ _ _ Hl) as (tx & Hx & <-).
    destruct (flags !! j) as [[]|] eqn:Hf; cbn in E; simplify_eq.
    exists (cb'', tx). split; [done|]. apply settled_by_spec; [by eapply in_batch|eauto].
Qed.

Lemma told_status rs cb r :
  (cb, Some r) ∈ told rs → m_tx_status r ≠ static_invalid.
Proof.
  intros ([id [cb' b]] & E & _)%list_elem_of_fmap. by destruct b as [[]|]; cbn in E; simplify_eq.
Qed.

(** ** The invariant *)

Definition owners (y : sys) : list nat :=
  (y_answers y).*1 ++ (y_inflight y).*1 ++ pending (y_ctl y).

(** The part of the state that batches and recoveries act on. *)
Definition sound (U0 : gset hash_t) (settled : list compact_tx.t) (open : option open_batch)
    (log : list sm_command) (shards : list Sh) : Prop :=
  match open with
  | None => quiet U0 settled log shards
  | Some o => cut_short U0 settled (o_id o) (o_full o) log shards
  end.

(** Who waits for a batch that was cut short, and has been told nothing. *)
Definition open_ok (y : sys) (o : open_batch) : Prop :=
  indexed (o_full o) (o_txs o) ∧ controller.m_current_txs (y_ctl y) = ∅ ∧
  controller.m_is_leader (y_ctl y) = false ∧
  ∀ id cb i, o_txs o !! id = Some (cb, i) →
    (cb, None) ∈ y_answers y ∧
    ∃ ctx, o_full o !! i = Some ctx ∧ origin (y_requests y) cb ctx.

Record sys_inv (U0 : gset hash_t) (y : sys) : Prop := {
  i_ready : ready_inv (y_ctl y) (y_shards y);
  i_sound : sound U0 (y_settled y).*2 (y_open y) (y_log y) (y_shards y);
  i_open o : y_open y = Some o → open_ok y o;
  i_owners : NoDup (owners y);
  i_known cb : cb ∈ owners y → is_Some (y_requests y !! cb);
  i_inflight cb ctx : (cb, ctx) ∈ y_inflight y → origin (y_requests y) cb ctx;
  i_batch id cb i :
    controller.m_current_txs (y_ctl y) !! id = Some (cb, i) →
    ∃ ctx, m_full_txs (controller.m_current_batch (y_ctl y)) !! i = Some ctx ∧
      origin (y_requests y) cb ctx;
  i_settled cb ctx : (cb, ctx) ∈ y_settled y → origin (y_requests y) cb ctx;
  i_confirmed cb r :
    (cb, Some r) ∈ y_answers y → m_tx_status r = confirmed → cb ∈ (y_settled y).*1;
  i_answered cb :
    cb ∈ (y_settled y).*1 →
    (cb, None) ∈ y_answers y ∨ ∃ r, (cb, Some r) ∈ y_answers y ∧ m_tx_status r = confirmed;
  i_static cb r :
    (cb, Some r) ∈ y_answers y → m_tx_status r = static_invalid →
    ∃ tx e, y_requests y !! cb = Some tx ∧ check_tx tx = Ret (Some e) ∧ m_tx_error r = Some e
}.

(** The steps are made of these changes: a request becomes known, an answer
    is given, a call starts, ends, or its transaction enters the batch. *)
Lemma inv_request U0 y cb tx :
  sys_inv U0 y → y_requests y !! cb = None →
  sys_inv U0 (mk (y_ctl y) (y_shards y) (y_log y) (<[ cb := tx ]> (y_requests y))
    (y_inflight y) (y_answers y) (y_settled y) (y_open y)) ∧ cb ∉ owners y.
Proof.
  intros [Hr Hso Hop Ho Hk Hin Hb Hse Hc Han Hst] Hn. split; [|by intros [? ?]%Hk; congruence].
  assert (∀ cb' tx', y_requests y !! cb' = Some tx' →
    <[ cb := tx ]> (y_requests y) !! cb' = Some tx') as Hkeep
    by (intros; rewrite lookup_insert_ne by congruence; done).
  assert (∀ cb' ctx, origin (y_requests y) cb' ctx →
    origin (<[ cb := tx ]> (y_requests y)) cb' ctx) as Hor
    by (intros cb' ctx (tx' & m & ? & ?); exists tx', m; auto).
  constructor; cbn; auto.
  - intros o Ho'. destruct (Hop o Ho') as (? & ? & ? & Hx). split_and!; try done.
    intros id cb' i Hl. destruct (Hx id cb' i Hl) as (? & ctx & ? & ?). eauto.
  - intros cb' [? ?]%Hk. eauto.
  - intros id cb' i (ctx & ? & ?)%Hb. eauto.
  - intros cb' r Hx Hs. destruct (Hst cb' r Hx Hs) as (tx' & e & ? & ?). eauto.
Qed.

Lemma open_ok_answers y o answers :
  (∀ x, x ∈ y_answers y → x ∈ answers) → open_ok y o →
  open_ok (mk (y_ctl y) (y_shards y) (y_log y) (y_requests y) (y_inflight y) answers
    (y_settled y) (y_open y)) o.
Proof.
  intros Hs (? & ? & ? & Hx). split_and!; try done. intros id cb i Hl.
  destruct (Hx id cb i Hl) as [? ?]. auto.
Qed.

Lemma inv_answer U0 y cb a :
  sys_inv U0 y → cb ∉ owners y → is_Some (y_requests y !! cb) →
  (∀ r, a = Some r → m_tx_status r = static_invalid ∧
     ∃ tx e, y_requests y !! cb = Some tx ∧ check_tx tx = Ret (Some e) ∧ m_tx_error r = Some e) →
  sys_inv U0 (mk (y_ctl y) (y_shards y) (y_log y) (y_requests y) (y_inflight y)
    (y_answers y ++ [(cb, a)]) (y_settled y) (y_open y)).
Proof.
  intros [Hr Hso Hop Ho Hk Hin Hb Hse Hc Han Hst] Hnew Hcb Ha.
  set (y' := mk _ _ _ _ _ _ _ _). assert (owners y' ≡ₚ cb :: owners y) as Hperm.
  { unfold owners, y'. cbn. rewrite fmap_app. cbn. by rewrite <- Permutation_middle, (right_id_L [] (++)). }
  assert (NoDup (owners y')) as Ho' by (rewrite Hperm; by constructor).
  assert (∀ cb', cb' ∈ owners y' → is_Some (y_requests y !! cb')) as Hk'
    by (intros cb'; rewrite Hperm, elem_of_cons; intros [->|?]; auto).
  constructor; cbn; auto.
  - intros o Hopen. apply open_ok_answers; [|auto]. intros x Hx. apply elem_of_app. by left.
  - intros cb' r [?|Hx]%elem_of_app Hs; [eauto|]. apply list_elem_of_singleton in Hx as [= -> <-].
    destruct (Ha r eq_refl) as [? _]. congruence.
  - intros cb' [?|(r & ? & ?)]%Han; [left|right; exists r; split; [|done]];
      apply elem_of_app; by left.
  - intros cb' r [?|Hx]%elem_of_app Hs; [eauto|]. apply list_elem_of_singleton in Hx as [= -> <-].
    by apply (Ha r).
Qed.

Lemma inv_send U0 y cb ctx :
  sys_inv U0 y → cb ∉ owners y → origin (y_requests y) cb ctx →
  sys_inv U0 (mk (y_ctl y) (y_shards y) (y_log y) (y_requests y) (y_inflight y ++ [(cb, ctx)])
    (y_answers y) (y_settled y) (y_open y)).
Proof.
  intros [Hr Hso Hop Ho Hk Hin Hb Hse Hc Han Hst] Hnew Hor.
  set (y' := mk _ _ _ _ _ _ _ _). assert (owners y' ≡ₚ cb :: owners y) as Hperm.
  { unfold owners, y'. cbn. rewrite fmap_app, <- (assoc_L (++) _ _ (pending _)). cbn.
    by rewrite <- !Permutation_middle. }
  assert (is_Some (y_requests y !! cb)) as Hcb by (destruct Hor as (? & ? & ? & _); eauto).
  assert (NoDup (owners y')) as Ho' by (rewrite Hperm; by constructor).
  assert (∀ cb', cb' ∈ owners y' → is_Some (y_requests y !! cb')) as Hk'
    by (intros cb'; rewrite Hperm, elem_of_cons; intros [->|?]; auto).
  constructor; cbn; auto.
  - intros cb' ctx' [?|Hx]%elem_of_app; [auto|]. by apply list_elem_of_singleton in Hx as [= -> ->].
Qed.

Lemma inv_lose U0 y cb ctx before after :
  sys_inv U0 y → y_inflight y = before ++ (cb, ctx) :: after →
  let y' := mk (y_ctl y) (y_shards y) (y_log y) (y_requests y) (before ++ after)
    (y_answers y) (y_settled y) (y_open y) in
  sys_inv U0 y' ∧ cb ∉ owners y' ∧ origin (y_requests y) cb ctx.
Proof.
  intros [Hr Hso Hop Ho Hk Hin Hb Hse Hc Han Hst] E y'.
  assert (owners y ≡ₚ cb :: owners y') as Hperm.
  { unfold owners, y'. cbn. rewrite E, !fmap_app, fmap_cons. cbn.
    rewrite <- (Permutation_middle before.*1). cbn. by rewrite <- Permutation_middle. }
  rewrite Hperm in Ho. inversion_clear Ho as [|?? Hnew Hnd].
  split; [|split; [done|apply Hin; rewrite E; set_solver]].
  assert (∀ cb', cb' ∈ owners y' → is_Some (y_requests y !! cb')) as Hk'
    by (intros cb' Hx; apply Hk; rewrite Hperm; by right).
  constructor; cbn; auto.
  - intros cb' ctx' Hx. apply Hin. rewrite E. set_solver.
Qed.

Lemma inv_accept U0 y cb ctx ctl ok :
  sys_inv U0 y → cb ∉ owners y → origin (y_requests y) cb ctx →
  controller.execute_transaction (y_ctl y) ctx cb = (ctl, controller.returned ok) →
  (ok = true → sys_inv U0 (mk ctl (y_shards y) (y_log y) (y_requests y) (y_inflight y)
    (y_answers y) (y_settled y) (y_open y))) ∧ (ok = false → ctl = y_ctl y).
Proof.
  intros [Hr Hso Hop Ho Hk Hin Hb Hse Hc Han Hst] Hnew Hor E.
  destruct (request_received _ _ _ _ _ _ Hr E) as [Hr' Hok]. destruct ok; [|by split].
  split; [intros _|done]. destruct Hok as (Hlead & Hn & i & Hf & Hi & Hx).
  set (y' := mk _ _ _ _ _ _ _ _). assert (owners y' ≡ₚ cb :: owners y) as Hperm.
  { unfold owners, y', pending. cbn. rewrite Hx, map_to_list_insert by done. cbn.
    by rewrite <- !Permutation_middle. }
  assert (is_Some (y_requests y !! cb)) as Hcb by (destruct Hor as (? & ? & ? & _); eauto).
  assert (NoDup (owners y')) as Ho' by (rewrite Hperm; by constructor).
  assert (∀ cb', cb' ∈ owners y' → is_Some (y_requests y !! cb')) as Hk'
    by (intros cb'; rewrite Hperm, elem_of_cons; intros [->|?]; auto).
  constructor; cbn; auto.
  - intros o Hopen. destruct (Hop o Hopen) as (_ & _ & ? & _). congruence.
  - intros id cb' j. rewrite Hx, Hf.
    intros [[<- [= <- <-]]|[_ Hl]]%lookup_insert_Some.
    + exists ctx. split; [|done]. subst i. by apply list_lookup_middle.
    + destruct (Hb _ _ _ Hl) as (ctx' & Hj & ?). exists ctx'. split; [|done].
      by apply lookup_app_l_Some.
Qed.

(** A batch. *)
Lemma inv_batch U0 y leader rnd ctl batch txs log d res rs :
  sys_inv U0 y →
  controller.swap_batch (y_ctl y) rnd (y_shards y) = Ret (ctl, Some (batch, txs)) →
  uncontended (y_log y) (y_shards y) (m_dtx_id batch) (m_full_txs batch) →
  execute (batch_set_cbs leader (m_state batch)) (y_log y)
    (set_shards batch (y_shards y)) = Ret (log, d, res) →
  controller.responses txs res = Ret rs →
  sys_inv U0 (mk (if res then ctl else deposed ctl (controller.m_current_batch ctl))
    (m_shards d) log (y_requests y) (y_inflight y)
    (y_answers y ++ told rs) (y_settled y ++ settled_by (m_full_txs batch) txs res)
    (if res then None else Some (mk_open (m_dtx_id batch) (m_full_txs batch) txs))).
Proof.
  intros [Hr Hso Hop Ho Hk Hin Hb Hse Hc Han Hst] Es Hunc Ee Ers.
  destruct (y_open y) as [o|] eqn:Eo.
  { exfalso. destruct (Hop o eq_refl) as (_ & He & _). unfold controller.swap_batch in Es.
    rewrite He, bool_decide_true, orb_true_r in Es by done. done. }
  cbn in Hso.
  destruct (batch_runs _ _ _ _ (y_log y) _ _ _ _ leader Hr Hso Es Hunc)
    as (-> & -> & Hempty & Hr1 & log' & d' & res' & Ee' & Hrg & Hcase & _).
  rewrite Ee' in Ee. injection Ee as <- <- <-.
  set (flags := verdict _ <$> _) in *. set (full := m_full_txs _) in *.
  set (y' := mk _ _ _ _ _ _ _ _).
  assert (controller.m_current_txs (y_ctl y') = ∅) as Hempty'.
  { unfold y'. cbn. by destruct res'. }
  assert (ready_inv (y_ctl y') (y_shards y')) as Hr'.
  { apply (ready_inv_ranges _ (y_shards y)); [exact Hrg|]. unfold y'. cbn.
    destruct res'; [done|]. destruct Hr1 as [[] ??????]. constructor; [|done..].
    constructor; cbn; try done. all: rewrite <- ?Hempty; done. }
  assert (owners y' ≡ₚ owners y) as Hperm.
  { unfold owners, pending at 1. rewrite Hempty', map_to_list_empty. unfold y'. cbn.
    rewrite fmap_app, (told_pending _ _ _ Ers).
    rewrite (right_id_L [] (++)), <- (assoc_L (++)). f_equiv. apply Permutation_app_comm. }
  assert (NoDup (owners y')) as Ho' by by rewrite Hperm.
  assert (∀ cb', cb' ∈ owners y' → is_Some (y_requests y !! cb')) as Hk'
    by (intros cb'; rewrite Hperm; auto).
  pose proof (in_batch _ _ Hr) as Hix. fold full in Hix.
  constructor; auto.
  - unfold y', sound. cbn. destruct Hcase as [[-> Hq]|[-> Hcut]].
    + by rewrite fmap_app, settled_by_txs.
    + cbn. by rewrite (right_id_L [] (++)).
  - intros o. unfold y'. cbn. destruct res'; [done|]. intros [= <-]. cbn.
    split_and!; [done|done|done|]. cbn. intros id cb i Hl. split.
    + apply elem_of_app. right. apply (told_nothing _ _ _ _ Ers). eauto.
    + by apply (Hb id).
  - rewrite Hempty'. intros id cb i Hl. by rewrite lookup_empty in Hl.
  - unfold y'. cbn. intros cb ctx [?|Hx]%elem_of_app; [auto|].
    destruct res'; [|by apply elem_of_nil in Hx].
    apply (settled_by_spec _ _ _ _ _ Hix) in Hx as (i & Hx & Hf & Hl).
    destruct (Hb _ _ _ Hl) as (ctx' & Hx' & ?). fold full in Hx', Hx. congruence.
  - unfold y'. cbn. intros cb r Hx Hs. rewrite fmap_app, elem_of_app.
    apply elem_of_app in Hx as [?|Hx]; [eauto|]. right. destruct res' as [fl|].
    + apply (told_confirmed _ _ _ _ _ Hr Ers). eauto.
    + by apply (told_nothing _ _ _ _ Ers) in Hx as [? _].
  - unfold y'. cbn. intros cb. rewrite fmap_app, elem_of_app. intros [Hx|Hx].
    + destruct (Han cb Hx) as [?|(r & ? & ?)]; [left|right; exists r; split; [|done]];
        apply elem_of_app; by left.
    + destruct res' as [fl|]; [|by apply elem_of_nil in Hx].
      apply (told_confirmed _ _ _ _ _ Hr Ers) in Hx as (r & ? & ?). right.
      exists r. split; [|done]. apply elem_of_app. by right.
  - unfold y'. cbn. intros cb r [?|Hx]%elem_of_app Hs; [eauto|]. by apply told_status in Hx.
Qed.

(** The log and the shards change while no leader is up. *)
Lemma inv_backend U0 y log shards :
  sys_inv U0 y → sound U0 (y_settled y).*2 (y_open y) log shards →
  in_shard_range <$> y_shards y = in_shard_range <$> shards →
  sys_inv U0 (mk (y_ctl y) shards log (y_requests y) (y_inflight y) (y_answers y) (y_settled y)
    (y_open y)).
Proof.
  intros [Hr Hso Hop Ho Hk Hin Hb Hse Hc Han Hst] Hso' Hrg. constructor; cbn; auto.
  by eapply ready_inv_ranges.
Qed.

(** Recovery, from between batches or from a batch that was cut short. *)
Lemma recovery_sound U0 settled open log shards leader :
  sound U0 settled open log shards → (∀ o, open = Some o → indexed (o_full o) (o_txs o)) →
  ∃ log' shards' ok,
    controller.recovery_func leader log shards = Ret (log', shards', ok) ∧
    in_shard_range <$> shards = in_shard_range <$> shards' ∧
    sound U0 settled open log' shards' ∧
    (ok = true → quiet U0 (settled ++ (settled_open open log').*2) log' shards') ∧
    ((∀ l, leader l = replicated) → ok = true).
Proof.
  intros Hs Hop. destruct open as [o|]; cbn in Hs.
  - destruct Hs as (shards0 & Hcov & Hr & Hf & Hu & Huw).
    destruct (recovery_any (o_id o) (o_full o) shards0 Hr Hf leader log shards)
      as (log' & shards' & ok & E & Huw' & Hok & Hlead); [by apply covers_nonempty|done|].
    exists log', shards', ok. split; [done|].
    split. { destruct Huw as (k & _ & Hk), Huw' as (k' & _ & Hk').
      apply phase_ranges in Hk, Hk'. congruence. }
    split; [by exists shards0|]. split; [|done]. intros Ht.
    destruct (Hok Ht) as [[Hl ->]|[Hl H4]]; cbn [settled_open]; rewrite (lg_recorded _ _ _ _ _ Hl).
    + rewrite decide_True by lia. cbn. rewrite (right_id_L [] (++)). constructor; [|done|by apply Hl|done].
      eapply Forall_impl; [exact Hr|]. by intros sh [? _].
    + rewrite decide_False by lia. rewrite settled_by_txs. by eapply finished_quiet.
  - destruct Hs as [Hok Hcov Hlog Hu]. unfold controller.recovery_func, replicate_sm_command.
    assert (coordinator_sm.run coordinator_sm.empty (log ++ [sm_get]) =
      Ret coordinator_sm.empty) as Hlog' by by rewrite coordinator_lemmas.run_snoc, Hlog.
    destruct (leader log) eqn:El; cbn [negb].
    2,3: do 3 eexists; (split; [done|]); (split; [done|]); (split; [by constructor|]);
      (split; [done|]); intros Hlead; rewrite Hlead in El; congruence.
    rewrite Hlog'. cbn [obind]. unfold controller.recover_dtxs. cbn.
    rewrite !map_to_list_empty, elements_empty. cbn.
    do 3 eexists. split; [done|]. split; [done|]. split; [by constructor|].
    split; [|done]. intros _. rewrite (right_id_L [] (++)). by constructor.
Qed.

Lemma inv_recovered U0 y leader log shards rnd batch :
  sys_inv U0 y → controller.m_is_leader (y_ctl y) = false →
  controller.recovery_func leader (y_log y) (y_shards y) = Ret (log, shards, true) →
  create rnd shards = Ret batch →
  sys_inv U0 (mk (elected (y_ctl y) batch) shards log (y_requests y) (y_inflight y) (y_answers y)
    (y_settled y ++ settled_open (y_open y) log) None).
Proof.
  intros [Hr Hso Hop Ho Hk Hin Hb Hse Hc Han Hst] Hlead Er Ec.
  destruct (recovery_sound _ _ _ _ _ leader Hso) as (log' & shards' & ok & E & Hrg & _ & Hq & _).
  { intros o Hopen. by apply Hop. }
  rewrite Er in E. injection E as <- <- <-. specialize (Hq eq_refl).
  set (y' := mk _ _ _ _ _ _ _ _).
  assert (owners y' `sublist_of` owners y) as Hsub.
  { unfold owners, pending. unfold y' at 3. cbn. rewrite map_to_list_empty. cbn.
    apply sublist_app; [done|]. rewrite (right_id_L [] (++)). by apply sublist_inserts_r. }
  assert (∀ o, y_open y = Some o → ∀ cb ctx,
    (cb, ctx) ∈ settled_by (o_full o) (o_txs o) (recorded (o_id o) log) →
    (cb, None) ∈ y_answers y ∧ origin (y_requests y) cb ctx) as Hset.
  { intros o Hopen cb ctx Hx. destruct (Hop o Hopen) as (Hix & _ & _ & Htxs).
    destruct (recorded (o_id o) log) as [fl|]; [|by apply elem_of_nil in Hx].
    apply (settled_by_spec _ _ _ _ _ Hix) in Hx as (i & Hx & _ & Hl).
    destruct (Htxs _ _ _ Hl) as (? & ctx' & Hx' & ?). split; [done|]. congruence. }
  assert (∀ cb, cb ∈ owners y' → is_Some (y_requests y !! cb)) as Hk'.
  { intros cb Hx. apply Hk. by eapply elem_of_sublist. }
  assert (NoDup (owners y')) as Ho' by by eapply sublist_NoDup.
  assert (ready_inv (y_ctl y') shards) as Hr'.
  { apply (fresh_ready_inv _ _ rnd); [|done]. by eapply ready_inv_ranges. }
  constructor; auto; unfold y'; cbn.
  - by rewrite fmap_app.
  - done.
  - intros id cb i Hl. by rewrite lookup_empty in Hl.
  - intros cb ctx [?|Hx]%elem_of_app; [auto|]. unfold settled_open in Hx.
    destruct (y_open y) as [o|]; [|by apply elem_of_nil in Hx]. by eapply Hset.
  - intros cb r Hx Hs. rewrite fmap_app, elem_of_app. eauto.
  - intros cb. rewrite fmap_app, elem_of_app. intros [?|Hx]; [auto|]. left.
    apply list_elem_of_fmap in Hx as ([cb' ctx] & -> & Hx). unfold settled_open in Hx.
    destruct (y_open y) as [o|]; [|by apply elem_of_nil in Hx]. by eapply Hset.
Qed.

Lemma inv_depose U0 y rnd batch :
  sys_inv U0 y → y_open y = None → create rnd (y_shards y) = Ret batch →
  sys_inv U0 (mk (deposed (y_ctl y) batch) (y_shards y) (y_log y) (y_requests y) (y_inflight y)
    (y_answers y) (y_settled y) None).
Proof.
  intros [Hr Hso Hop Ho Hk Hin Hb Hse Hc Han Hst] Eo Ec. rewrite Eo in Hso.
  set (y' := mk _ _ _ _ _ _ _ _).
  assert (owners y' `sublist_of` owners y) as Hsub.
  { unfold owners, pending. unfold y' at 3. cbn. rewrite map_to_list_empty. cbn.
    apply sublist_app; [done|]. rewrite (right_id_L [] (++)). by apply sublist_inserts_r. }
  assert (∀ cb, cb ∈ owners y' → is_Some (y_requests y !! cb)) as Hk'.
  { intros cb Hx. apply Hk. by eapply elem_of_sublist. }
  assert (NoDup (owners y')) as Ho' by by eapply sublist_NoDup.
  assert (ready_inv (y_ctl y') (y_shards y)) as Hr' by by apply (fresh_ready_inv _ _ rnd).
  constructor; auto; unfold y'; cbn; auto; [done|].
  intros id cb i Hl. by rewrite lookup_empty in Hl.
Qed.

(** One more shard is asked on behalf of a batch that was cut short. *)
Lemma cut_short_lock U0 settled o log shards st i sh sh' r :
  cut_short U0 settled (o_id o) (o_full o) log shards →
  coordinator_sm.run coordinator_sm.empty log = Ret st →
  coordinator_sm.m_prepare_txs st !! o_id o = Some (o_full o) →
  shards !! i = Some sh → sel sh (o_full o) ≠ [] →
  lock_outputs sh (sel sh (o_full o)).*2 (o_id o) = Ret (sh', r) →
  cut_short U0 settled (o_id o) (o_full o) log (<[ i := sh' ]> shards) ∧
  in_shard_range <$> shards = in_shard_range <$> <[ i := sh' ]> shards.
Proof.
  intros (shards0 & Hcov & Hr & Hf & Hu & k & Hl & Hk) Hrun Hp Hi Hn E.
  rewrite (lg_run _ _ _ _ _ Hl) in Hrun. injection Hrun as <-.
  destruct k as [|[|[|[|k]]]]; cbn in Hp; try (by rewrite lookup_empty in Hp).
  pose proof (reach_lock _ _ _ Hr _ _ _ _ _ Hk Hi Hn E) as Hk'. split.
  - exists shards0. split_and!; try done. by exists 1.
  - apply phase_ranges in Hk, Hk'. congruence.
Qed.

Lemma cut_short_apply U0 settled o log shards st i sh sh' complete idxs ix c r :
  cut_short U0 settled (o_id o) (o_full o) log shards →
  coordinator_sm.run coordinator_sm.empty log = Ret st →
  coordinator_sm.m_commit_txs st !! o_id o = Some (complete, idxs) →
  shards !! i = Some sh → idxs !! i = Some ix → ix ≠ [] → select complete ix = Ret c →
  apply_outputs sh c (o_id o) = Ret (sh', r) →
  cut_short U0 settled (o_id o) (o_full o) log (<[ i := sh' ]> shards) ∧
  in_shard_range <$> shards = in_shard_range <$> <[ i := sh' ]> shards.
Proof.
  intros (shards0 & Hcov & Hr & Hf & Hu & k & Hl & Hk) Hrun Hp Hi Hix Hn Es E.
  rewrite (lg_run _ _ _ _ _ Hl) in Hrun. injection Hrun as <-.
  destruct k as [|[|[|[|k]]]]; cbn in Hp; try (by rewrite lookup_empty in Hp).
  rewrite lookup_singleton_eq in Hp. injection Hp as <- <-.
  pose proof (phase_ranges _ _ _ _ _ Hk) as Hrg.
  assert (ix = (sel sh (o_full o)).*1) as ->.
  { rewrite list_lookup_fmap in Hix. apply fmap_Some in Hix as (sh0 & Hi0 & ->).
    apply (f_equal (lookup i)) in Hrg. rewrite !list_lookup_fmap, Hi0, Hi in Hrg.
    injection Hrg as Hrg. by rewrite (sel_ext (o_full o) _ _ Hrg). }
  assert (sel sh (o_full o) ≠ []) as Hn' by (by intros En; rewrite En in Hn).
  pose proof (reach_apply _ _ _ Hf _ _ _ _ _ _ Hk Hi Hn' Es E) as Hk'. split.
  - exists shards0. split_and!; try done. by exists 2.
  - apply phase_ranges in Hk'. congruence.
Qed.

Lemma payments_step_inv U0 y y' : sys_inv U0 y → step y y' → sys_inv U0 y'.
Proof.
  intros Hi Hs. destruct Hs as [cb tx sk peers draws ex Hn Hsk Hp E
    |cb ctx before after ctl ok E Ex|cb ctx before after E
    |leader rnd ctl batch txs log d res rs Es Hunc Ee Ers
    |rnd batch Eo Ec|o st i sh sh' r Eo Hrun Hp Hsh Hn E
    |o st i sh sh' complete idxs ix c r Eo Hrun Hp Hsh Hix Hn Es E
    |leader log shards Hlead E|leader log shards rnd batch Hlead E Ec].
  - pose proof (execution_spec keys sk peers threshold tx draws ex) as Hex.
    rewrite Forall_cons in Hex. rewrite !Forall_forall in Hex. setoid_rewrite Forall_forall in Hp.
    rewrite Forall_forall in sentinels_accepted. specialize (Hex ltac:(auto) E).
    destruct (inv_request U0 y cb tx Hi Hn) as [Hi' Hnew]. unfold submit.
    destruct ex as [r|[| |ctx]]; [|done|done|].
    + destruct Hex as (e & Hc & ->). apply (inv_answer U0 _ cb _ Hi' Hnew); cbn.
      { rewrite lookup_insert_eq. eauto. }
      intros r [= <-]. split; [done|]. exists tx, e. by rewrite lookup_insert_eq.
    + destruct Hex as (Hc & Ha & m & ->). apply (inv_send U0 _ cb _ Hi' Hnew).
      exists tx, m. cbn. by rewrite lookup_insert_eq.
  - destruct (inv_lose U0 y cb ctx before after Hi E) as (Hi' & Hnew & Hor).
    destruct (inv_accept U0 _ cb ctx ctl ok Hi' Hnew Hor Ex) as [Ht Hf]. destruct ok.
    + rewrite (right_id_L [] (++)). by apply Ht.
    + rewrite (Hf eq_refl). apply (inv_answer U0 _ cb _ Hi' Hnew); [|done].
      destruct Hor as (? & ? & ? & _). eauto.
  - by eapply inv_lose.
  - by eapply inv_batch.
  - by eapply inv_depose.
  - pose proof (i_sound _ _ Hi) as Hso. rewrite Eo in Hso.
    destruct (cut_short_lock _ _ _ _ _ _ _ _ _ _ Hso Hrun Hp Hsh Hn E).
    apply inv_backend; [done|by rewrite Eo|done].
  - pose proof (i_sound _ _ Hi) as Hso. rewrite Eo in Hso.
    destruct (cut_short_apply _ _ _ _ _ _ _ _ _ _ _ _ _ _ Hso Hrun Hp Hsh Hix Hn Es E).
    apply inv_backend; [done|by rewrite Eo|done].
  - destruct (recovery_sound _ _ _ _ _ leader (i_sound _ _ Hi))
      as (log' & shards' & ok & E' & Hrg & Hso & _).
    { intros o Hopen. by apply (i_open _ _ Hi). }
    rewrite E in E'. injection E' as <- <- _. by apply inv_backend.
  - by eapply inv_recovered.
Qed.

Lemma payments_start_inv shards batch_size id batch :
  Forall shard_ok shards → covers in_shard_range shards → create id shards = Ret batch →
  sys_inv (all_unspent shards) (start shards batch_size batch).
Proof.
  intros Hok Hcov Hc. destruct (create_ok _ _ _ Hc) as (Hb & Hf & Hs & Hid & Hst).
  constructor; cbn.
  - constructor; cbn; rewrite ?Hf, ?Hs; try done; [|constructor].
    constructor; cbn; rewrite ?Hf; [done|..].
    + intros ??? Hl. by rewrite lookup_empty in Hl.
    + by intros ? ?%elem_of_nil.
    + by rewrite map_size_empty.
    + rewrite map_size_empty. lia.
    + constructor.
  - constructor; [done|done|done|constructor].
  - done.
  - unfold owners, pending. cbn. rewrite map_to_list_empty. constructor.
  - unfold owners, pending. cbn. rewrite map_to_list_empty. by intros cb ?%elem_of_nil.
  - by intros ?? ?%elem_of_nil.
  - intros ??? Hl. by rewrite lookup_empty in Hl.
  - by intros ?? ?%elem_of_nil.
  - by intros ?? ?%elem_of_nil.
  - by intros ? ?%elem_of_nil.
  - by intros ?? ?%elem_of_nil.
Qed.

(** Everyone in a batch that a leader executes gets an answer. *)
Lemma batch_answers U0 y rnd ctl b txs :
  sys_inv U0 y →
  controller.swap_batch (y_ctl y) rnd (y_shards y) = Ret (ctl, Some (b, txs)) →
  uncontended (y_log y) (y_shards y) (m_dtx_id b) (m_full_txs b) →
  ∃ y', step y y' ∧
    ∀ tx, tx ∈ m_full_txs b → ∃ cb, origin (y_requests y) cb tx ∧
      (cb, sentinel.result_handler (Some (verdict (y_shards y) tx))) ∈ y_answers y'.
Proof.
  intros Hi Es Hunc. destruct (y_open y) as [o|] eqn:Eo.
  { exfalso. destruct (i_open _ _ Hi o Eo) as (_ & He & _). unfold controller.swap_batch in Es.
    rewrite He, bool_decide_true, orb_true_r in Es by done. done. }
  pose proof (i_sound _ _ Hi) as Hso. rewrite Eo in Hso.
  destruct (batch_runs _ _ _ _ (y_log y) _ _ _ _ leading (i_ready _ _ Hi) Hso Es Hunc)
    as (Eb & Et & _ & _ & log' & d' & res & Ee & _ & Hcase & Hlead).
  destruct Hcase as [[-> _]|[-> _]]; [|by destruct Hlead].
  pose proof (i_ready _ _ Hi) as Hr.
  assert (∃ rs, controller.responses txs (Some (verdict (y_shards y) <$> m_full_txs b)) = Ret rs)
    as [rs Ers].
  { subst b txs. unfold controller.responses. rewrite decide_True; [eauto|].
    intros id [cb idx] Hl. destruct (ci_index _ (r_ctl _ _ Hr) _ _ _ Hl) as (tx & Hx & _).
    rewrite length_fmap. by eapply lookup_lt_Some. }
  eexists. split; [by eapply step_batch|]. cbn. subst b txs.
  intros tx (i & Hx)%list_elem_of_lookup.
  destruct (in_batch _ _ Hr _ _ Hx) as [cb Hl].
  destruct (i_batch _ _ Hi _ _ _ Hl) as (ctx & Hx' & Hor).
  rewrite Hx in Hx'. injection Hx' as <-.
  exists cb. split; [done|]. apply elem_of_app. right. apply list_elem_of_fmap.
  exists (compact_tx.m_id tx, (cb, Some (verdict (y_shards y) tx))). split; [done|].
  apply elem_of_map_to_list. rewrite (responses_eq _ _ _ Ers), lookup_fmap, Hl. cbn.
  by rewrite list_lookup_fmap, Hx.
Qed.

(** A node that becomes the leader and stays it can always take over. *)
Lemma leader_takes_over U0 y (rnd : hash_t) :
  sys_inv U0 y → controller.m_is_leader (y_ctl y) = false →
  ∃ y', step y y' ∧ controller.m_is_leader (y_ctl y') = true ∧ y_open y' = None.
Proof.
  intros Hi Hlead.
  destruct (recovery_sound _ _ _ _ _ leading (i_sound _ _ Hi))
    as (log' & shards' & ok & E & _ & _ & Hq & Hok).
  { intros o Hopen. by apply (i_open _ _ Hi). }
  rewrite (Hok (λ _, eq_refl)) in *. destruct (Hq eq_refl) as [_ Hcov _ _].
  apply covers_nonempty in Hcov.
  assert (∃ b, create rnd shards' = Ret b) as [b Hb] by (destruct shards'; [done|by eexists]).
  eexists. split; [by eapply step_recovered|]. done.
Qed.

(** C2: payments settle as clients are told, across losses of leadership.
    The system starts from shards that cover the hash space.  Clients,
    sentinels, lost calls, batches, losses of leadership at any replicated
    command or between batches, coordinators that stop in the middle of a
    phase, and recoveries that fail or succeed may interleave in any way,
    provided that a node serves only after a recovery that succeeded, that
    batches are executed one after the other, and that each, when it starts,
    has a new id, creates new hashes, and competes for inputs neither within
    itself nor with a batch that is still prepared.  Then: whenever no
    batch is left open, the completed transactions form a run of the abstract
    unspent set that ends in what the shards hold; every client gets at most
    one answer; a client that gets a definite answer is told that its
    transaction is confirmed exactly when that transaction was completed;
    nothing is completed for a client that gets no answer at all, and what is
    completed is the compact form, with accepted attestations, of the valid
    transaction the client submitted; it is told that the transaction is
    invalid only with an error that the validation reports; a batch executed
    by a node that keeps leadership answers everyone in it with the verdict of
    the shards; and after a loss of leadership the next node that keeps it
    recovers the open batch and takes over. *)
Theorem payments_settle shards batch_size id batch y :
  Forall shard_ok shards → covers in_shard_range shards → create id shards = Ret batch →
  rtc step (start shards batch_size batch) y →
  (y_open y = None →
     uhs_run everything (all_unspent shards) (y_settled y).*2 (all_unspent (y_shards y))) ∧
  NoDup (y_answers y).*1 ∧
  (∀ cb r, (cb, Some r) ∈ y_answers y →
     cb ∈ (y_settled y).*1 ↔ m_tx_status r = confirmed) ∧
  (∀ cb ctx, (cb, ctx) ∈ y_settled y →
     origin (y_requests y) cb ctx ∧ ∃ a, (cb, a) ∈ y_answers y) ∧
  (∀ cb r, (cb, Some r) ∈ y_answers y → m_tx_status r = static_invalid →
     ∃ tx e, y_requests y !! cb = Some tx ∧ check_tx tx = Ret (Some e) ∧
       m_tx_error r = Some e) ∧
  (∀ rnd ctl b txs,
     controller.swap_batch (y_ctl y) rnd (y_shards y) = Ret (ctl, Some (b, txs)) →
     uncontended (y_log y) (y_shards y) (m_dtx_id b) (m_full_txs b) →
     ∃ y', step y y' ∧
       ∀ tx, tx ∈ m_full_txs b → ∃ cb, origin (y_requests y) cb tx ∧
         (cb, sentinel.result_handler (Some (verdict (y_shards y) tx))) ∈ y_answers y') ∧
  (controller.m_is_leader (y_ctl y) = false →
     ∃ y', step y y' ∧ controller.m_is_leader (y_ctl y') = true ∧ y_open y' = None).
Proof.
  intros Hok Hcov Hc Hr.
  assert (sys_inv (all_unspent shards) (start shards batch_size batch)) as Hi.
  { by apply payments_start_inv with id. }
  assert (sys_inv (all_unspent shards) y) as Hy.
  { clear Hc. induction Hr; eauto using payments_step_inv. }
  assert (NoDup (y_answers y).*1) as Hnd by exact (proj1 (proj1 (NoDup_app _ _) (i_owners _ _ Hy))).
  split_and!; [|done| | |apply Hy| |].
  - intros Eo. pose proof (i_sound _ _ Hy) as Hso. rewrite Eo in Hso. apply Hso.
  - intros cb r Hx. split; [|by apply (i_confirmed _ _ Hy)].
    assert (∀ a, (cb, a) ∈ y_answers y → a = Some r) as Hone.
    { intros a Ha. apply list_elem_of_lookup in Hx as [i Hi1], Ha as [j Hj].
      assert (i = j) as <- by (eapply (NoDup_lookup _ i j cb Hnd);
        rewrite list_lookup_fmap; [by rewrite Hi1|by rewrite Hj]).
      congruence. }
    intros [Hn|(r' & Hr' & ?)]%(i_answered _ _ Hy); [by apply Hone in Hn|].
    apply Hone in Hr'. by injection Hr' as ->.
  - intros cb ctx Hx. split; [by apply (i_settled _ _ Hy)|].
    assert (cb ∈ (y_settled y).*1) as Hin by (apply list_elem_of_fmap; by exists (cb, ctx)).
    apply (i_answered _ _ Hy) in Hin as [?|(r & ? & _)]; eauto.
  - intros rnd ctl b txs Es Hunc. by eapply batch_answers.
  - by apply (leader_takes_over (all_unspent shards) y id).
Qed.

End System.
End payments.

(** ** A payment *)

Module payments_example.
Import Toy shard_client payments distributed_tx dtx_lemmas shard_lemmas shard_example dtx_example.

Definition keys_of_sentinels : list privkey_t := [zeros 32; replicate 32 x01].

(** The inputs of the signed example transaction, as values. *)
Definition coins : list hash_t :=
  Eval vm_compute in compact_tx.m_inputs (compact signed_tx).

(** Two remote shards that hold the inputs of the signed example
    transaction. *)
Definition half (range : Z * Z) : locking_shard.t :=
  locking_shard.init range 4
    (list_to_set (filter (λ h, hash_in_shard_range range h = true)
       coins)) toy_keys 2.

Definition shards : list shard_client.t := stub <$> [half (0, 127); half (128, 255)]%Z.

Definition first_batch : distributed_tx.t shard_client.t :=
  mk dtx shards [[]; []] [] [[]; []] DistributedTx.start [].

(** The compact transaction that leaves the sentinel, and the coordinator
    that has received it, as values. *)
Definition ctx : compact_tx.t :=
  Eval vm_compute in
  match sentinel.execute_transaction (zeros 32) [replicate 32 x01] 2 signed_tx [(0, true)] with
  | Ret (sentinel.gathered (forwarded c)) => c
  | _ => compact signed_tx
  end.

Lemma ctx_forwarded :
  sentinel.execute_transaction (zeros 32) [replicate 32 x01] 2 signed_tx [(0, true)] =
    Ret (sentinel.gathered (forwarded ctx)).
Proof. vm_compute. reflexivity. Qed.

Definition begun : sys := start toy_keys 2 shards 10 first_batch.
Definition submitted : sys := submit begun 7 signed_tx (sentinel.gathered (forwarded ctx)).
Definition received : controller.t shard_client.t :=
  Eval vm_compute in (controller.execute_transaction (y_ctl submitted) ctx 7).1.
Definition batched : sys :=
  payments.mk received shards [] {[ 7 := signed_tx ]} [] ([] ++ []) [] None.

Lemma accepted_ctx :
  controller.execute_transaction (y_ctl submitted) ctx 7 = (received, controller.returned true).
Proof.
  vm_compute. reflexivity.
Qed.

Lemma batched_reachable :
  rtc (step keys_of_sentinels 2) begun batched.
Proof.
  apply (rtc_l _ _ submitted).
  - apply (step_submit _ _ begun 7 signed_tx (zeros 32) [replicate 32 x01] [(0, true)]);
      [done|left|repeat constructor|apply ctx_forwarded].
  - apply rtc_once, (step_deliver _ _ submitted 7 ctx [] [] received true); [done|].
    apply accepted_ctx.
Qed.

Lemma shards_ok : Forall shard_ok shards.
Proof.
  assert (∀ r, shard_ok (half r)) as Hh.
  { intros r. split; [|done]. apply init_inv. intros h.
    by rewrite elem_of_list_to_set, list_elem_of_filter; intros [? _]. }
  constructor; [split; [apply stub_ok|apply Hh]|].
  constructor; [split; [apply stub_ok|apply Hh]|constructor].
Qed.

Lemma shards_cover : covers in_shard_range shards.
Proof. apply (covers_ranges stubs); [reflexivity|exact stubs_cover]. Qed.

Lemma swapped :
  ∃ c, controller.swap_batch (y_ctl batched) (hid xfe) shards =
    Ret (c, Some (controller.m_current_batch received, controller.m_current_txs received)).
Proof.
  unfold controller.swap_batch. change (y_ctl batched) with received.
  assert (negb (controller.m_running received) ||
    bool_decide (controller.m_current_txs received = ∅) = false) as ->
    by (vm_compute; reflexivity).
  assert (∃ d, create (hid xfe) shards = Ret d) as [d ->] by (eexists; reflexivity).
  by eexists.
Qed.

#[local] Typeclasses Opaque ctx received.
#[local] Opaque ctx received.

Lemma batched_fresh :
  bool_decide (fresh_history everything (all_unspent shards)
    (committed (m_full_txs (controller.m_current_batch received))
       (verdict shards <$> m_full_txs (controller.m_current_batch received)))) = true.
Proof. vm_compute. reflexivity. Qed.

Lemma idle_admissible (s : locking_shard.t) txs :
  locking_shard.m_prepared_dtxs s = ∅ →
  bool_decide (Forall (nodup_ins s) txs) = true →
  bool_decide (disjoint_txs (range_of s) txs) = true → admissible s txs.
Proof.
  intros Hp Hn%bool_decide_eq_true Hd%bool_decide_eq_true. constructor; [done..|].
  intros d p. by rewrite Hp, lookup_empty.
Qed.

Lemma batched_uncontended :
  uncontended [] shards (m_dtx_id (controller.m_current_batch received))
    (m_full_txs (controller.m_current_batch received)).
Proof.
  split; [reflexivity|]. refine (conj _ (bool_decide_eq_true_1 _ batched_fresh)).
  constructor; [|constructor; [|constructor]]; (split; [vm_compute; reflexivity|]);
    (apply idle_admissible; [reflexivity|vm_compute; reflexivity..]).
Qed.

(** The batch of the payment, cut short when its first command gets no answer. *)
Lemma batched_cut :
  ∃ y, step keys_of_sentinels 2 batched y ∧ is_Some (y_open y) ∧
    controller.m_is_leader (y_ctl y) = false.
Proof.
  destruct swapped as [c Hc].
  assert (∃ log d, execute (batch_set_cbs (λ _, Coordinator.unanswered)
    (m_state (controller.m_current_batch received))) []
    (set_shards (controller.m_current_batch received) shards) = Ret (log, d, None))
    as (log & d & E) by (do 2 eexists; vm_compute; reflexivity).
  eexists. split.
  { eapply (step_batch _ _ batched (λ _, Coordinator.unanswered) (hid xfe) c _ _ log d None);
      [exact Hc|exact batched_uncontended|exact E|reflexivity]. }
  split; [by eexists|reflexivity].
Qed.

(** The payment is confirmed, and the shards have changed by it; a leader that
    is lost on the way is replaced. *)
Lemma payments_settle_witness :
  (∃ y cb r, rtc (step keys_of_sentinels 2) begun y ∧
    (cb, Some r) ∈ y_answers y ∧ m_tx_status r = confirmed ∧ cb ∈ (y_settled y).*1) ∧
  (∃ y y', rtc (step keys_of_sentinels 2) begun y ∧ is_Some (y_open y) ∧
    step keys_of_sentinels 2 y y' ∧ y_open y' = None ∧
    uhs_run everything (all_unspent shards) (y_settled y').*2 (all_unspent (y_shards y'))).
Proof.
  pose proof (payments_settle keys_of_sentinels toy_keys 2 toy_accepted shards 10 dtx
    first_batch) as Hthm. split.
  - destruct (Hthm batched shards_ok shards_cover eq_refl batched_reachable)
      as (_ & _ & _ & _ & _ & Hnext & _).
    destruct swapped as [c Hc]. destruct (Hnext (hid xfe) c _ _ Hc batched_uncontended)
      as (y & Hy & Htold). clear c Hc.
    destruct (Htold ctx) as (cb & _ & Ha); [vm_compute; left|].
    assert (verdict shards ctx = true) as Hv by (vm_compute; reflexivity).
    change (y_shards batched) with shards in Ha. rewrite Hv in Ha.
    assert (rtc (step keys_of_sentinels 2) begun y) as Hr
      by (eapply rtc_r; [exact batched_reachable|exact Hy]).
    destruct (Hthm y shards_ok shards_cover eq_refl Hr) as (_ & _ & Hc & _).
    exists y, cb. eexists. split; [exact Hr|]. split; [exact Ha|]. split; [reflexivity|].
    apply (Hc cb _ Ha). reflexivity.
  - destruct batched_cut as (y & Hy & Ho & Hlead).
    assert (rtc (step keys_of_sentinels 2) begun y) as Hr
      by (eapply rtc_r; [exact batched_reachable|exact Hy]).
    destruct (Hthm y shards_ok shards_cover eq_refl Hr) as (_ & _ & _ & _ & _ & _ & Hup).
    destruct (Hup Hlead) as (y' & Hs & _ & Hn). exists y, y'.
    split; [exact Hr|]. split; [exact Ho|]. split; [exact Hs|]. split; [exact Hn|].
    assert (rtc (step keys_of_sentinels 2) begun y') as Hr'
      by (eapply rtc_r; [exact Hr|exact Hs]).
    exact (proj1 (Hthm y' shards_ok shards_cover eq_refl Hr') Hn).
Defined.

End payments_example.

(** ** Batches that compete

    Locks have no owner, so a batch that lost the competition for an input
    releases it all the same.  Here [first] has locked the input, [second]
    tries, fails and is completed, and [third] takes the input that is free
    again; all three coordinators act on the answers of the shard, and both
    the first and the third transaction are completed with the same input. *)
Section Competition.
Import locking_shard shard_lemmas shard_example.
Context `{Hasher} `{Secp256k1}.

Definition spend_a (id out : byte) : compact_tx.t :=
  compact_tx.mk (hid id) [hid x01] [hid out] ∅.

Theorem concurrent_batches_double_spend :
  (let! '(s1, first) := lock_outputs shard0 [spend_a x11 x05] (hid xf1) in
   let! '(s2, second) := lock_outputs s1 [spend_a x12 x06] (hid xf2) in
   let! '(s3, _) := apply_outputs s2 (default [] second) (hid xf2) in
   let! '(s4, third) := lock_outputs s3 [spend_a x13 x07] (hid xf3) in
   let! '(s5, _) := apply_outputs s4 (default [] third) (hid xf3) in
   let! '(s6, _) := apply_outputs s5 (default [] first) (hid xf1) in
   Ret (first, second, third,
        bool_decide (hid x05 ∈ m_uhs s6), bool_decide (hid x07 ∈ m_uhs s6))) =
  Ret (Some [true], Some [false], Some [true], true, true).
Proof. vm_compute. reflexivity. Qed.

End Competition.
