(* ===== verification/Services.v ===== *)
(** * Sentinels, watchtowers and archivers as remote services

    Models of what clients and other nodes see of a sentinel, a watchtower
    and an archiver: the messages of a sentinel
    ([src/uhs/sentinel/format.cpp] and the validation errors of
    [src/uhs/transaction/messages.cpp]), its stub ([sentinel/client.cpp]) and
    its two servers ([twophase/sentinel_2pc/server.cpp],
    [atomizer/sentinel/server.cpp]), the clients of a watchtower
    ([watchtower/client.cpp]) and of an archiver ([archiver/client.cpp]), and
    the callback that starts and stops the server of a locking shard with its
    leadership ([locking_shard/controller.cpp]).  The theorems show that a
    stub gives its caller what the service computed for this very call. *)

From Stdlib Require Import ZArith Lia.
From Stdlib.Strings Require Import Byte.
From stdpp Require Import base tactics numbers gmap sets list.
From S2P Require Import Prelude LevelDB Serialization Crypto Transaction Validation.
From S2P Require Import LockingShard Coordinator Sentinel Atomizer Watchtower.
From S2P Require Import Messages Archiver BlockingQueue Rpc.
Open Scope cbdc_scope.

(** ** Enumerations on the wire

    An enumeration is written as its number.  The cast back keeps a number
    without a name; here it becomes the first name. *)

Class WireEnum (E : Type) := {
  enum_names : list E;
  enum_val : E → nat;
  enum_val_name e : enum_names !! enum_val e = Some e;
  enum_few : length enum_names ≤ 256
}.

#[export] Program Instance input_error_code_enum : WireEnum input_error_code := {|
  enum_names := [duplicate; data_error];
  enum_val e := match e with duplicate => 0 | data_error => 1 end
|}.
Next Obligation. by intros []. Qed.
Next Obligation. cbn. lia. Qed.

#[export] Program Instance output_error_code_enum : WireEnum output_error_code := {|
  enum_names := [zero_value];
  enum_val e := 0
|}.
Next Obligation. by intros []. Qed.
Next Obligation. cbn. lia. Qed.

#[export] Program Instance witness_error_code_enum : WireEnum witness_error_code := {|
  enum_names := [missing_witness_program_type; unknown_witness_program_type; malformed;
                 program_mismatch; invalid_public_key; invalid_signature];
  enum_val e :=
    match e with
    | missing_witness_program_type => 0 | unknown_witness_program_type => 1
    | malformed => 2 | program_mismatch => 3 | invalid_public_key => 4
    | invalid_signature => 5
    end
|}.
Next Obligation. by intros []. Qed.
Next Obligation. cbn. lia. Qed.

#[export] Program Instance tx_error_code_enum : WireEnum tx_error_code := {|
  enum_names := [no_inputs; no_outputs; missing_witness; asymmetric_values; value_overflow];
  enum_val e :=
    match e with
    | no_inputs => 0 | no_outputs => 1 | missing_witness => 2
    | asymmetric_values => 3 | value_overflow => 4
    end
|}.
Next Obligation. by intros []. Qed.
Next Obligation. cbn. lia. Qed.

#[export] Program Instance tx_status_enum : WireEnum tx_status := {|
  enum_names := [pending; static_invalid; state_invalid; confirmed];
  enum_val e :=
    match e with
    | pending => 0 | static_invalid => 1 | state_invalid => 2 | confirmed => 3
    end
|}.
Next Obligation. by intros []. Qed.
Next Obligation. cbn. lia. Qed.

(** With an underlying type of one byte, or of four. *)
Definition put_enum `{WireEnum E} (e : E) : writes := put_u8 (Z.of_nat (enum_val e)).
Definition put_enum32 `{WireEnum E} (e : E) : writes := put_u32 (Z.of_nat (enum_val e)).

Section EnumGetters.
Context {St : Type} `{Serializer St}.

Definition enum_cast `{WireEnum E} (d : E) (val : Z) : E :=
  default d (enum_names !! Z.to_nat val).

Definition get_enum `{WireEnum E} : getter St E := λ s e,
  let (s', val) := get_u8 s 0%Z in
  if operator_bool s' then (s', enum_cast e val) else (s', e).

Definition get_enum32 `{WireEnum E} : getter St E := λ s e,
  let (s', val) := get_u32 s 0%Z in
  if operator_bool s' then (s', enum_cast e val) else (s', e).

Lemma enum_val_small `{WireEnum E} (e : E) : (Z.of_nat (enum_val e) < 256)%Z.
Proof.
  pose proof (enum_val_name e) as Hl%lookup_lt_Some. pose proof (enum_few (E := E)). lia.
Qed.

Lemma enum_cast_val `{WireEnum E} (d e : E) : enum_cast d (Z.of_nat (enum_val e)) = e.
Proof. unfold enum_cast. by rewrite Nat2Z.id, enum_val_name. Qed.

Lemma get_enum_roundtrip `{!ReaderLaws St} `{WireEnum E} (d : E) :
  roundtrips (λ _, True) put_enum d get_enum.
Proof.
  intros e s rest _ Hs. unfold get_enum, get_u8. pose proof (enum_val_small e).
  destruct (get_int_roundtrip 1 0%Z (Z.of_nat (enum_val e)) s rest) as (s' & E1 & Hs');
    [simpl; lia|exact Hs|].
  exists s'. by rewrite E1, (at_bytes_valid _ _ Hs'), enum_cast_val.
Qed.

Lemma get_enum32_roundtrip `{!ReaderLaws St} `{WireEnum E} (d : E) :
  roundtrips (λ _, True) put_enum32 d get_enum32.
Proof.
  intros e s rest _ Hs. unfold get_enum32. pose proof (enum_val_small e).
  destruct (get_u32_roundtrip 0%Z (Z.of_nat (enum_val e)) s rest) as (s' & E1 & Hs');
    [unfold is_u32; lia|exact Hs|].
  exists s'. by rewrite E1, (at_bytes_valid _ _ Hs'), enum_cast_val.
Qed.

End EnumGetters.

(** ** The messages of a sentinel *)

(** The variant [validation::tx_error]. *)
Definition put_validation_error (e : tx_error) : writes :=
  match e with
  | input_error m_code m_data_err m_idx =>
      put_variant 0 (put_enum m_code ++ put_optional put_enum m_data_err ++
        put_u64 (Z.of_nat m_idx))
  | output_error m_code m_idx => put_variant 1 (put_enum m_code ++ put_u64 (Z.of_nat m_idx))
  | witness_error m_code m_idx => put_variant 2 (put_enum m_code ++ put_u64 (Z.of_nat m_idx))
  | tx_err e => put_variant 3 (put_enum e)
  end.

Definition put_execute_response (r : execute_response) : writes :=
  put_enum32 (m_tx_status r) ++ put_optional put_validation_error (m_tx_error r).

(** [sentinel::request] and [sentinel::response]. *)
Inductive sentinel_request :=
| execute_request (tx : full_tx.t)
| validate_request (tx : full_tx.t).

Inductive sentinel_response :=
| executed (r : execute_response)
| validated (att : pubkey_t * signature_t).

Definition put_sentinel_request (r : sentinel_request) : writes :=
  match r with
  | execute_request tx => put_variant 0 (put_full_tx tx)
  | validate_request tx => put_variant 1 (put_full_tx tx)
  end.

Definition put_sentinel_response (r : sentinel_response) : writes :=
  match r with
  | executed r => put_variant 0 (put_execute_response r)
  | validated att => put_variant 1 (put_pair put_array put_array att)
  end.

Section SentinelGetters.
Context {St : Type} `{Serializer St}.
Abbreviation ASt := (aborting.t St).

Definition get_input_error (s : ASt) : ASt * tx_error :=
  let (s1, m_code) := get_enum s duplicate in
  let (s2, m_data_err) := get_optional zero_value get_enum s1 None in
  let (s3, m_idx) := get_u64 s2 0%Z in
  (s3, input_error m_code m_data_err (Z.to_nat m_idx)).

Definition get_output_error (s : ASt) : ASt * tx_error :=
  let (s1, m_code) := get_enum s zero_value in
  let (s2, m_idx) := get_u64 s1 0%Z in
  (s2, output_error m_code (Z.to_nat m_idx)).

Definition get_witness_error (s : ASt) : ASt * tx_error :=
  let (s1, m_code) := get_enum s missing_witness_program_type in
  let (s2, m_idx) := get_u64 s1 0%Z in
  (s2, witness_error m_code (Z.to_nat m_idx)).

Definition get_validation_error : getter ASt tx_error :=
  get_variant [get_input_error; get_output_error; get_witness_error; alt no_inputs get_enum tx_err].

Definition execute_response_dflt : execute_response :=
  {| m_tx_status := pending; m_tx_error := None |}.

Definition get_execute_response : getter ASt execute_response := λ s r,
  let (s1, status) := get_enum32 s (m_tx_status r) in
  let (s2, err) :=
    get_optional (input_error duplicate None 0) get_validation_error s1 (m_tx_error r) in
  (s2, {| m_tx_status := status; m_tx_error := err |}).

Definition get_sentinel_request : getter ASt sentinel_request :=
  get_variant
    [alt full_tx.dflt get_full_tx execute_request;
     alt full_tx.dflt get_full_tx validate_request].

Definition attestation_dflt : pubkey_t * signature_t := (zeros pubkey_len, zeros sig_len).

Definition get_sentinel_response : getter ASt sentinel_response :=
  get_variant
    [alt execute_response_dflt get_execute_response executed;
     alt attestation_dflt
       (get_pair (zeros pubkey_len) (zeros sig_len) (get_array pubkey_len) (get_array sig_len))
       validated].

End SentinelGetters.

(** *** Round trips *)

Definition error_idx (e : tx_error) : nat :=
  match e with
  | input_error _ _ i | output_error _ i | witness_error _ i => i
  | tx_err _ => 0
  end.

Definition error_wf (e : tx_error) : Prop := is_u64 (Z.of_nat (error_idx e)).

Definition sentinel_request_wf (r : sentinel_request) : Prop :=
  match r with execute_request tx | validate_request tx => full_tx.wf tx end.

Definition sentinel_response_wf (r : sentinel_response) : Prop :=
  match r with
  | executed r => ∀ e, m_tx_error r = Some e → error_wf e
  | validated att => length att.1 = pubkey_len ∧ length att.2 = sig_len
  end.

Section SentinelRoundtrips.
Context {St : Type} `{ReaderLaws St}.
Abbreviation ASt := (aborting.t St).

Ltac variant_at i :=
  match goal with
  | Hs : at_bytes ?s _ |- _ =>
      eapply (get_variant_at _ _ i _ _ _ s); [reflexivity|simpl; lia|exact Hs|];
      clear Hs; intros ? Hs; cbv beta
  end.

Lemma get_idx64_roundtrip {T} (C : nat → T) (i : nat) (s : ASt) rest :
  is_u64 (Z.of_nat i) → at_bytes s (bytes_of (put_u64 (Z.of_nat i)) ++ rest) →
  ∃ s', (let (s1, z) := get_u64 s 0%Z in (s1, C (Z.to_nat z))) = (s', C i) ∧ at_bytes s' rest.
Proof.
  intros Hi Hs. destruct (get_u64_roundtrip 0%Z (Z.of_nat i) s rest Hi Hs) as (s' & -> & Hs').
  exists s'. by rewrite Nat2Z.id.
Qed.

Lemma get_validation_error_roundtrip d :
  roundtrips error_wf put_validation_error d (get_validation_error (St := St)).
Proof.
  intros [c de i|c i|c i|c] s rest Hwf Hs; cbn [put_validation_error] in Hs;
    unfold get_validation_error.
  - variant_at 0. rewrite 2!bytes_of_app, <- 2!(assoc_L (++)) in Hs.
    unfold get_input_error. step (get_enum_roundtrip (St := ASt) duplicate); [done|].
    step (get_optional_roundtrip (St := ASt) (λ _, True) put_enum zero_value get_enum None
      (get_enum_roundtrip zero_value)); [done|].
    by eapply get_idx64_roundtrip.
  - variant_at 1. rewrite bytes_of_app, <- (assoc_L (++)) in Hs.
    unfold get_output_error. step (get_enum_roundtrip (St := ASt) zero_value); [done|].
    by eapply get_idx64_roundtrip.
  - variant_at 2. rewrite bytes_of_app, <- (assoc_L (++)) in Hs.
    unfold get_witness_error.
    step (get_enum_roundtrip (St := ASt) missing_witness_program_type); [done|].
    by eapply get_idx64_roundtrip.
  - variant_at 3. eapply alt_at; [apply get_enum_roundtrip|done..].
Qed.

Lemma get_execute_response_roundtrip d :
  roundtrips (λ r, ∀ e, m_tx_error r = Some e → error_wf e) put_execute_response d
    (get_execute_response (St := St)).
Proof.
  intros [st e] s rest Hwf Hs. unfold put_execute_response in Hs.
  rewrite bytes_of_app, <- (assoc_L (++)) in Hs. unfold get_execute_response.
  step (get_enum32_roundtrip (St := ASt) (m_tx_status d)); [done|].
  step (get_optional_roundtrip (St := ASt) error_wf put_validation_error
    (input_error duplicate None 0) get_validation_error (m_tx_error d)
    (get_validation_error_roundtrip _)); [done|]. eauto.
Qed.

Lemma get_sentinel_request_roundtrip d :
  roundtrips sentinel_request_wf put_sentinel_request d (get_sentinel_request (St := St)).
Proof.
  intros [tx|tx] s rest Hwf Hs; cbn [put_sentinel_request] in Hs; unfold get_sentinel_request.
  - variant_at 0. eapply alt_at; [apply get_full_tx_roundtrip|done..].
  - variant_at 1. eapply alt_at; [apply get_full_tx_roundtrip|done..].
Qed.

Lemma get_sentinel_response_roundtrip d :
  roundtrips sentinel_response_wf put_sentinel_response d (get_sentinel_response (St := St)).
Proof.
  intros [r|att] s rest Hwf Hs; cbn [put_sentinel_response] in Hs; unfold get_sentinel_response.
  - variant_at 0. eapply alt_at; [apply get_execute_response_roundtrip|done..].
  - variant_at 1. eapply (alt_at (λ p, length p.1 = pubkey_len ∧ length p.2 = sig_len));
      [|exact Hwf|done].
    apply (get_pair_roundtrip (λ l, length l = pubkey_len) (λ l, length l = sig_len));
      apply get_array_roundtrip.
Qed.

End SentinelRoundtrips.

#[export] Instance sentinel_request_payload : Payload sentinel_request := {|
  put_payload := put_sentinel_request;
  payload_dflt := execute_request full_tx.dflt;
  get_payload := get_sentinel_request
|}.

#[export] Instance sentinel_response_payload : Payload sentinel_response := {|
  put_payload := put_sentinel_response;
  payload_dflt := executed execute_response_dflt;
  get_payload := get_sentinel_response
|}.

#[export] Program Instance sentinel_request_laws : PayloadLaws sentinel_request := {|
  payload_wf := sentinel_request_wf
|}.
Next Obligation. apply get_sentinel_request_roundtrip. Qed.

#[export] Program Instance sentinel_response_laws : PayloadLaws sentinel_response := {|
  payload_wf := sentinel_response_wf
|}.
Next Obligation. apply get_sentinel_response_roundtrip. Qed.

(** ** The stub of a sentinel *)

Module sentinel_client.

(** [execute_transaction] and [validate_transaction] with an action: the
    request is numbered and sent. *)
Definition execute_transaction (c : rpc_client.t) (tx : full_tx.t)
    (action : rpc_client.response_action) (sent : bool) :=
  rpc_client.call c (execute_request tx) action sent.

Definition validate_transaction (c : rpc_client.t) (tx : full_tx.t)
    (action : rpc_client.response_action) (sent : bool) :=
  rpc_client.call c (validate_request tx) action sent.

(** What the caller or its callback gets; [std::get] of another alternative
    throws. *)
Definition execute_result (res : option sentinel_response) : outcome (option execute_response) :=
  match res with
  | None => Ret None
  | Some (executed r) => Ret (Some r)
  | Some (validated _) => Fatal
  end.

Definition validate_result (res : option sentinel_response)
    : outcome (option (pubkey_t * signature_t)) :=
  match res with
  | None => Ret None
  | Some (validated att) => Ret (Some att)
  | Some (executed _) => Fatal
  end.

End sentinel_client.

(** ** The servers *)

Module sentinel_server.

(** [m_queue] of the atomizer sentinel's server. *)
Abbreviation queue := (@blocking_queue.t (Z * sentinel_request)).
Section Servers.
Context `{Hasher} `{Secp256k1}.
Variables (privkey : privkey_t) (peers : list privkey_t) (threshold : nat).

(** What a two-phase sentinel gives the callback of a request, [None] if it
    has not called it; [settle] is the answer of the coordinators, if there
    was one. *)
Definition execute_answer (settle : compact_tx.t → option (option bool))
    (ex : sentinel.execution) : option (option execute_response) :=
  match ex with
  | sentinel.responded r => Some (Some r)
  | sentinel.gathered still_waiting => None
  | sentinel.gathered remote_rejected => Some None
  | sentinel.gathered (forwarded ctx) => option_map sentinel.result_handler (settle ctx)
  end.

(** The handler of [rpc::async_server] for the two-phase sentinel. *)
Definition handler_2pc (draws : list (nat * bool))
    (settle : compact_tx.t → option (option bool)) (req : sentinel_request)
    : outcome (option (option sentinel_response)) :=
  match req with
  | execute_request tx =>
      let! ex := sentinel.execute_transaction privkey peers threshold tx draws in
      Ret (option_map (option_map executed) (execute_answer settle ex))
  | validate_request tx =>
      let! att := sentinel.validate_transaction privkey tx in
      Ret (Some (option_map validated att))
  end.

(** The server of the atomizer sentinel queues requests; [handle_request] is
    what its threads repeat.  [None] is a thread that waits; the result is the
    queue, the answer to the callback, and where the transaction went. *)
Definition enqueue (q : queue) (req : Z * sentinel_request) : queue * bool :=
  (blocking_queue.push q req, true).

Definition dispatch (draws : list (nat * bool)) (req : sentinel_request)
    : outcome (option sentinel_response * option gather_result) :=
  match req with
  | execute_request tx =>
      let! '(r, g) := sentinel.execute_transaction_atomizer privkey peers threshold tx draws in
      Ret (Some (executed r), g)
  | validate_request tx =>
      let! att := sentinel.validate_transaction privkey tx in
      Ret (option_map validated att, None)
  end.

Definition handle_request (draws : list (nat * bool)) (q : queue)
    : outcome (option (queue * option (Z * option sentinel_response * option gather_result))) :=
  match blocking_queue.pop q with
  | None => Ret None
  | Some (q', None) => Ret (Some (q', None))
  | Some (q', Some (id, req)) =>
      let! '(res, g) := dispatch draws req in
      Ret (Some (q', Some (id, res, g)))
  end.

End Servers.
End sentinel_server.

(** ** What a caller learns *)

Section RemoteSentinel.
Context `{Hasher} `{Secp256k1} `{!Secp256k1Laws}.
Import sentinel_server.
Variables (privkey : privkey_t) (peers : list privkey_t) (threshold : nat).
Variable keys : gset pubkey_t.
Hypothesis sentinels_accepted :
  Forall (sentinel_lemmas.accepted keys) (privkey :: peers).

(** [settles ctx ok]: the coordinators may answer [ok] for [ctx]. *)
Variable settles : compact_tx.t → bool → Prop.

(** An attestation of this sentinel for a transaction it accepts. *)
Definition attests (tx : full_tx.t) (att : pubkey_t * signature_t) : Prop :=
  check_tx tx = Ret None ∧ compact_sign (compact tx) privkey = Ret att ∧
  pubkey_from_privkey privkey = Ret att.1 ∧ compact_verify (compact tx) att = true.

Definition rejects (tx : full_tx.t) (r : execute_response) : Prop :=
  ∃ e, check_tx tx = Ret (Some e) ∧ r = {| m_tx_status := static_invalid; m_tx_error := Some e |}.

(** The coordinators were given the transaction, attested, and answered. *)
Definition settled (tx : full_tx.t) (r : execute_response) : Prop :=
  check_tx tx = Ret None ∧ ∃ m ok,
    check_attestations (compact_tx.with_attestations (compact tx) m) keys threshold = true ∧
    settles (compact_tx.with_attestations (compact tx) m) ok ∧
    r = {| m_tx_status := if (ok : bool) then confirmed else state_invalid; m_tx_error := None |}.

Definition accepted_pending (tx : full_tx.t) (r : execute_response) : Prop :=
  check_tx tx = Ret None ∧ r = {| m_tx_status := pending; m_tx_error := None |}.

(** What the servers of both architectures may answer. *)
Definition produces_2pc (req : sentinel_request) (x : sentinel_response) : Prop :=
  sentinel_request_wf req ∧ ∃ draws settle,
    (∀ ctx ok, settle ctx = Some (Some ok) → settles ctx ok) ∧
    handler_2pc privkey peers threshold draws settle req = Ret (Some (Some x)).

Definition produces_atomizer (req : sentinel_request) (x : sentinel_response) : Prop :=
  sentinel_request_wf req ∧ ∃ draws g,
    dispatch privkey peers threshold draws req = Ret (Some x, g).

(** The alternative of the answer is that of the request. *)
Definition says (outcomes : full_tx.t → execute_response → Prop)
    (req : sentinel_request) (x : sentinel_response) : Prop :=
  match req, x with
  | execute_request tx, executed r => outcomes tx r
  | validate_request tx, validated att => attests tx att
  | _, _ => False
  end.

Lemma validate_says tx att :
  sentinel.validate_transaction privkey tx = Ret (Some att) → attests tx att.
Proof.
  unfold sentinel.validate_transaction. destruct (check_tx tx) as [[e|]|] eqn:Ec; try done. cbn.
  destruct (compact_sign (compact tx) privkey) as [att'|] eqn:Es; [|done]. cbn. intros [= <-].
  split; [done|]. split; [done|]. by apply (sentinel_lemmas.signature_verifies tx).
Qed.

Lemma produces_2pc_says req x :
  produces_2pc req x → says (λ tx r, rejects tx r ∨ settled tx r) req x.
Proof.
  intros (_ & draws & settle & Hs & E). destruct req as [tx|tx]; cbn in E.
  - destruct (sentinel.execute_transaction privkey peers threshold tx draws) as [ex|] eqn:Ex;
      [|done]. cbn in E.
    pose proof (execution_spec keys _ _ _ _ _ _ sentinels_accepted Ex) as Hx.
    destruct ex as [r|[| |ctx]]; cbn in E; try done.
    + injection E as <-. by left.
    + destruct (settle ctx) as [[ok|]|] eqn:Eo; try done. injection E as <-.
      destruct Hx as (Hc & Ha & m & ->). right. split; [done|]. exists m, ok. eauto.
  - destruct (sentinel.validate_transaction privkey tx) as [[att|]|] eqn:Ev; try done.
    injection E as <-. by apply validate_says.
Qed.

Lemma produces_atomizer_says req x :
  produces_atomizer req x → says (λ tx r, rejects tx r ∨ accepted_pending tx r) req x.
Proof.
  intros (_ & draws & g & E). destruct req as [tx|tx]; cbn in E.
  - unfold sentinel.execute_transaction_atomizer in E.
    destruct (check_tx tx) as [[e|]|] eqn:Ec; try done; cbn in E.
    + injection E as <- _. left. by exists e.
    + destruct (compact_sign _ _); [|done]. cbn in E.
      destruct (sentinel.gather_attestations _ _ _ _ _ _); [|done]. cbn in E.
      injection E as <- _. by right.
  - destruct (sentinel.validate_transaction privkey tx) as [[att|]|] eqn:Ev; try done.
    injection E as <- _. by apply validate_says.
Qed.

(** Indices in a reported error fit their 64 bits. *)
Lemma rejects_wf tx r : full_tx.wf tx → rejects tx r → sentinel_response_wf (executed r).
Proof.
  intros ((Hi & Hli) & (Ho & Hlo) & _) (e & Ec & ->) e' [= <-]. unfold full_tx.small in *.
  destruct (check_tx_spec tx) as (r & Er & Hr).
  { split; unfold input_values, output_values; apply Forall_fmap; (eapply Forall_impl; [eassumption|]).
    - by intros [] [_ [_ ?]].
    - by intros [] [_ ?]. }
  rewrite Ec in Er. injection Er as <-. unfold error_wf, is_u64.
  assert (error_idx e < length (full_tx.m_inputs tx) ∨ error_idx e < length (full_tx.m_outputs tx)
    ∨ error_idx e = 0) as Hlt; [|lia].
  destruct e as [[] d i|[] i|c i|c]; cbn in *.
  - destruct Hr as (_ & p & Hl%lookup_lt_Some & _). unfold prevouts in Hl. rewrite length_fmap in Hl. auto.
  - destruct Hr as (_ & Hl%lookup_lt_Some & _). unfold input_values in Hl. rewrite length_fmap in Hl. auto.
  - destruct Hr as (Hl%lookup_lt_Some & _). unfold output_values in Hl. rewrite length_fmap in Hl. auto.
  - destruct Hr as [(inp & wit & Hl%lookup_lt_Some & _) _]. auto.
  - auto.
Qed.

Lemma attests_wf tx att : attests tx att → sentinel_response_wf (validated att).
Proof.
  intros (_ & Es & _). unfold compact_sign in Es.
  destruct (keypair_create privkey); simplify_eq. cbn.
  by rewrite length_xonly_serialize, length_schnorrsig.
Qed.

Lemma says_wf outcomes req x :
  sentinel_request_wf req → (∀ tx r, outcomes tx r → rejects tx r ∨ m_tx_error r = None) →
  says outcomes req x → sentinel_response_wf x.
Proof.
  intros Hwf Ho Hs. destruct req as [tx|tx], x as [r|att]; try done.
  - destruct (Ho _ _ Hs) as [Hr|Hn]; [by apply (rejects_wf tx)|]. intros e. by rewrite Hn.
  - by apply (attests_wf tx).
Qed.

(** A system of a caller and a server that answers as it [says]. *)
Section Calls.
Context {S : Type}.
Variable produces : sentinel_request → sentinel_response → Prop.
Variable outcomes : full_tx.t → execute_response → Prop.
Variable accept : S → sentinel_request → outcome (S * bool).
Hypothesis produces_says : ∀ req x, produces req x → says outcomes req x.
Hypothesis produces_ok : ∀ req x, produces req x → sentinel_response_wf x.

Definition no_blocking (_ : S) (_ : sentinel_request)
    : outcome (S * option sentinel_response) := Fatal.

Definition told_caller (req : sentinel_request) (res : option sentinel_response) : Prop :=
  match req with
  | execute_request tx => ∃ r, sentinel_client.execute_result res = Ret r ∧
      ∀ resp, r = Some resp → outcomes tx resp
  | validate_request tx => ∃ r, sentinel_client.validate_result res = Ret r ∧
      ∀ att, r = Some att → attests tx att
  end.

Lemma caller_told s (y : rpc_sys) id res :
  rtc (rpc_step produces no_blocking accept) (rpc_start s) y →
  (id, Some res) ∈ y_done y → ∃ req, y_calls y !! id = Some req ∧ told_caller req res.
Proof.
  intros Hr Hin. assert (rpc_inv produces y) as Hi.
  { pose proof (rpc_start_inv produces s) as Hi. revert Hi.
    clear Hin. induction Hr as [|y1 y2 y3 Hs _ IH]; intros Hi; [done|]. apply IH.
    by apply (rpc_step_inv produces no_blocking accept ltac:(done) produces_ok y1). }
  destruct res as [x|].
  - destruct (ri_value _ _ Hi id x Hin) as (req & Hc & Hp%produces_says). exists req.
    split; [done|]. destruct req as [tx|tx], x as [r|att]; try done; cbn; eexists;
      (split; [done|]); by intros ? [= <-].
  - destruct (ri_done _ _ Hi id) as [req Hc]; [by apply (list_elem_of_fmap_2' fst _ (id, Some None))|].
    exists req. split; [done|]. destruct req; by exists None.
Qed.

End Calls.

(** A call of a two-phase sentinel gets the answer to that call.  Whatever
    the network does, a caller of [validate_transaction] that gets a value has
    an attestation of this sentinel that verifies for its own transaction, and
    a caller of [execute_transaction] is told the error of its own
    transaction, or the coordinators' decision on it; [std::get] never
    throws. *)
Theorem remote_sentinel_2pc_answers {S} (accept : S → sentinel_request → outcome (S * bool))
    s (y : rpc_sys) id res :
  rtc (rpc_step produces_2pc no_blocking accept) (rpc_start s) y →
  (id, Some res) ∈ y_done y →
  ∃ req, y_calls y !! id = Some req ∧
    told_caller (λ tx r, rejects tx r ∨ settled tx r) req res.
Proof.
  apply caller_told; [apply produces_2pc_says|].
  intros req x Hp. eapply says_wf; [apply Hp| |by apply produces_2pc_says].
  intros tx r [Hr|(_ & m & ok & _ & _ & ->)]; auto.
Qed.

(** The same for the atomizer sentinel, which answers before a transaction is
    settled. *)
Theorem remote_sentinel_answers s (y : rpc_sys) id res :
  rtc (rpc_step produces_atomizer no_blocking
         (λ (q : queue) req, Ret (enqueue q (0%Z, req)))) (rpc_start s) y →
  (id, Some res) ∈ y_done y →
  ∃ req, y_calls y !! id = Some req ∧
    told_caller (λ tx r, rejects tx r ∨ accepted_pending tx r) req res.
Proof.
  apply caller_told; [apply produces_atomizer_says|].
  intros req x Hp. eapply says_wf; [apply Hp| |by apply produces_atomizer_says].
  intros tx r [Hr|[_ ->]]; auto.
Qed.

(** A thread of the atomizer sentinel answers the oldest request, with what
    was asked of it. *)
Lemma handle_request_fifo draws id req (q : queue) rest :
  blocking_queue.m_buffer q = (id, req) :: rest →
  handle_request privkey peers threshold draws q =
    let! '(res, g) := dispatch privkey peers threshold draws req in
    Ret (Some (blocking_queue.mk rest (negb (bool_decide (rest = []))), Some (id, res, g))).
Proof.
  intros Eq. unfold handle_request, blocking_queue.pop, blocking_queue.blocks,
    blocking_queue.take_front. rewrite Eq. cbn. done.
Qed.

End RemoteSentinel.

(** ** The clients of a watchtower *)

(** Readers that look at nothing but the assertion on the index: a message
    that is too short still has a value. *)
Definition read_unchecked {T} (d : T) (get : getter (aborting.t buffer_serializer.t) T)
    (buf : list byte) : outcome T :=
  let (s', ret) := get (aborting.mk (buffer_serializer.init buf) false) d in
  if aborting.aborted s' then Fatal else Ret ret.

Lemma read_unchecked_checked {T} (d x : T) get buf :
  from_buffer_v d get buf = Ret (Some x) → read_unchecked d get buf = Ret x.
Proof.
  unfold from_buffer_v, read_unchecked. destruct (get _ d) as [s' ret].
  destruct (aborting.aborted s'); [done|]. destruct (operator_bool s'); [|done]. by intros [= <-].
Qed.

Module watchtower_client.
Section Client.
Variable reads : nat.

(** [m_res_q] *)
Abbreviation responses := (@blocking_queue.t wt_response).

(** The packet of a request. *)
Definition request_packet (req : wt_request) : list byte := make_buffer (put_wt_request req).

(** The handler of [init], for both kinds of clients. *)
Definition receive (q : responses) (pkt : list byte) : outcome responses :=
  let! res := read_unchecked (best_block_height_response 0) (get_wt_response reads) pkt in
  Ret (blocking_queue.push q res).

(** The rest of [request_best_block_height] and of [request_status_update] of
    the blocking client, after the broadcast.  [None] is a caller that waits;
    a queue that was cleared gives a null pointer, and [std::get] throws on
    the other alternative. *)
Definition await_height (q : responses) : outcome (option (responses * option Z)) :=
  match blocking_queue.pop q with
  | None => Ret None
  | Some (q', None) => Ret (Some (q', None))
  | Some (q', Some (best_block_height_response h)) => Ret (Some (q', Some h))
  | Some (_, Some (status_request_check_success _)) => Fatal
  end.

Definition await_status (q : responses)
    : outcome (option (responses * option (gmap hash_t (list status_update_state)))) :=
  match blocking_queue.pop q with
  | None => Ret None
  | Some (q', None) => Ret (Some (q', None))
  | Some (q', Some (status_request_check_success states)) => Ret (Some (q', Some states))
  | Some (_, Some (best_block_height_response _)) => Fatal
  end.

(** One round of the handler thread of the asynchronous client: the response
    goes to [m_su_handler] or to [m_bbh_handler]; the inner [None] ends the
    thread. *)
Inductive handler_call :=
| su_handler (states : gmap hash_t (list status_update_state))
| bbh_handler (height : Z).

Definition dispatch (res : wt_response) : handler_call :=
  match res with
  | status_request_check_success states => su_handler states
  | best_block_height_response h => bbh_handler h
  end.

Definition handler_round (m_handler_running : bool) (q : responses)
    : option (responses * option handler_call) :=
  if m_handler_running then
    match blocking_queue.pop q with
    | None => None
    | Some (q', res) => Some (q', option_map dispatch res)
    end
  else Some (q, None).

(** The watchtower's side, on packets. *)
Definition serve (c : wt_controller.t) (pkt : list byte) : outcome (list byte) :=
  let! req := read_unchecked best_block_height_request (get_wt_request reads) pkt in
  Ret (make_buffer (put_wt_response (wt_controller.external_server_handler c req))).

Lemma serve_request c req :
  wt_request_wf reads req →
  serve c (request_packet req) =
    Ret (make_buffer (put_wt_response (wt_controller.external_server_handler c req))).
Proof.
  intros Hwf. unfold serve. rewrite (read_unchecked_checked _ req); [done|].
  eapply from_make_buffer_v; [apply get_wt_request_roundtrip|done].
Qed.

Lemma receive_response q res :
  wt_response_wf reads res →
  receive q (make_buffer (put_wt_response res)) = Ret (blocking_queue.push q res).
Proof.
  intros Hwf. unfold receive. rewrite (read_unchecked_checked _ res); [done|].
  eapply from_make_buffer_v; [apply get_wt_response_roundtrip|done].
Qed.

(** A request of the blocking client, its transport and its answer. *)
Definition ask_height (c : wt_controller.t) (q : responses)
    : outcome (option (responses * option Z)) :=
  let! pkt := serve c (request_packet best_block_height_request) in
  let! q := receive q pkt in await_height q.

Definition ask_status (c : wt_controller.t) (q : responses) (ids : gmap hash_t (list hash_t))
    : outcome (option (responses * option (gmap hash_t (list status_update_state)))) :=
  let! pkt := serve c (request_packet (status_update_request ids)) in
  let! q := receive q pkt in await_status q.

Lemma pop_pushed (res : wt_response) :
  blocking_queue.pop (blocking_queue.push blocking_queue.init res) =
    Some (blocking_queue.init, Some res).
Proof. done. Qed.

(** A client that asks one thing after the other is told what the watchtower
    knows when it serves the request, and never waits or throws: its queue is
    empty again after each answer. *)
Theorem watchtower_client_in_step c ids :
  wt_request_wf reads (status_update_request ids) →
  wt_response_wf reads (wt_controller.external_server_handler c best_block_height_request) →
  wt_response_wf reads (wt_controller.external_server_handler c (status_update_request ids)) →
  ask_height c blocking_queue.init =
    Ret (Some (blocking_queue.init,
      Some (block_cache.best_block_height (watchtower.m_bc (wt_controller.m_watchtower c))))) ∧
  ∃ states,
    watchtower.handle_status_update_request (wt_controller.m_watchtower c) ids =
      status_request_check_success states ∧
    ask_status c blocking_queue.init ids = Ret (Some (blocking_queue.init, Some states)).
Proof.
  intros Hq Hh Hs. unfold ask_height, ask_status. rewrite !serve_request by done. cbn [obind].
  rewrite !receive_response by done. cbn [obind]. unfold await_height, await_status.
  rewrite !pop_pushed. cbn. split; [done|]. eauto.
Qed.

End Client.
End watchtower_client.

(** ** The client of an archiver *)

Module archiver_client.
Section Client.
Context {db : Type} `{LevelDB db}.
Variable reads : nat.

Definition request_packet (height : Z) : list byte := make_buffer (put_u64 height).

(** [get_block]: whether the request was sent, and the packet that was
    received. *)
Definition get_block (sent : bool) (received : option (list byte)) : option block :=
  if sent then
    resp_pkt ← received;
    resp ← from_buffer None (get_optional block_dflt (get_block_msg reads)) resp_pkt;
    resp
  else None.

(** The archiver's side, on packets. *)
Definition serve (s : archiver.t db) (pkt : list byte) : outcome (option (list byte)) :=
  let! res := archiver.server_handler reads s (from_buffer 0%Z get_u64 pkt) in
  Ret (option_map (λ r, make_buffer (put_optional put_block r)) res).

(** The client gets the block the archiver has, and nothing when the archiver
    does not have it. *)
Theorem archiver_client_get_block s height res :
  is_u64 height → archiver.get_block reads s height = Ret res →
  (∀ blk, res = Some blk → block_wf reads blk) →
  ∃ pkt, serve s (request_packet height) = Ret (Some pkt) ∧ get_block true (Some pkt) = res.
Proof.
  intros Hh Eb Hwf. unfold serve.
  assert (from_buffer 0%Z get_u64 (request_packet height) = Some height) as ->
    by (eapply from_make_buffer; [apply get_u64_roundtrip|done]).
  cbn. rewrite Eb. cbn. eexists. split; [done|]. unfold get_block. cbn.
  erewrite (from_make_buffer _ (put_optional put_block));
    [|apply (get_optional_roundtrip (block_wf reads)), get_block_msg_roundtrip|exact Hwf]. done.
Qed.

End Client.
End archiver_client.

(** ** The node of a locking shard *)

Module shard_controller.
Section Controller.
Context {EP : Type}.
Import start_stop.

(** [m_opts.m_locking_shard_endpoints[m_shard_id][m_node_id]] *)
Variable endpoint : EP.

(** [m_server] with its endpoint, and [m_status_server]. *)
Record t := mk { m_server : option EP; m_status_server : bool }.

Definition created : t := mk None false.

(** [raft_callback]: a new server replaces the one that was there; one that
    cannot listen ends the process. *)
Definition raft_callback (server_init : bool) (c : t) (e : raft_event) : outcome t :=
  match e with
  | BecomeFollower => Ret (mk None (m_status_server c))
  | BecomeLeader => if server_init then Ret (mk (Some endpoint) (m_status_server c)) else Fatal
  | other_event => Ret c
  end.

(** [init]: the Raft server, the cluster and the server for status requests;
    callbacks happen while the cluster is built. *)
Definition init (c : t) (raft_init build_cluster status_init : bool) : t * bool :=
  if negb raft_init then (c, false)
  else if negb build_cluster then (c, false)
  else if negb status_init then (c, false)
  else (mk (m_server c) true, true).

Inductive step : t * bool → t * bool → Prop :=
| step_raft server_init c leader e c' :
    raft_callback server_init c e = Ret c' →
    step (c, leader)
      (c', match e with BecomeLeader => true | BecomeFollower => false | other_event => leader end)
| step_init c leader r b st c' ok :
    init c r b st = (c', ok) → step (c, leader) (c', leader).

(** A shard answers coordinators on its endpoint exactly while it is the
    leader, whatever the order of initialisation and elections. *)
Theorem shard_serves_iff_leader c leader :
  rtc step (created, false) (c, leader) →
  m_server c = if leader : bool then Some endpoint else None.
Proof.
  intros Hr. change (m_server (c, leader).1 = if (c, leader).2 then Some endpoint else None).
  assert (m_server (created, false).1 = if (created, false).2 then Some endpoint else None)
    as Hi by done.
  revert Hi. induction Hr as [|x y z Hs _ IH]; intros Hi; [done|]. apply IH.
  destruct Hs as [si c0 l e c' E|c0 l r b st c' ok E]; cbn in *.
  - destruct e; [destruct si|..]; cbn in E; by simplify_eq/=.
  - unfold init in E. destruct r, b, st; cbn in E; by simplify_eq/=.
Qed.

End Controller.
End shard_controller.

(** ** An attestation fetched over the network *)

Module service_example.
Import Toy sentinel_server.

Definition accept (n : nat) (_ : sentinel_request) : outcome (nat * bool) := Ret (n, true).

Definition sentinel_key : privkey_t := replicate 32 x01.

Definition attestation : pubkey_t * signature_t :=
  Eval vm_compute in
  match sentinel.validate_transaction sentinel_key signed_tx with
  | Ret (Some att) => att
  | _ => attestation_dflt
  end.

Lemma attestation_made :
  sentinel.validate_transaction sentinel_key signed_tx = Ret (Some attestation).
Proof. vm_compute. reflexivity. Qed.

(** The first call of a client, for any transaction the sentinel attests. *)
Section Fetch.
Variables (tx : full_tx.t) (att : pubkey_t * signature_t).
Hypothesis tx_wf : full_tx.wf tx.
Hypothesis att_wf : sentinel_response_wf (validated att).
Hypothesis att_made : sentinel.validate_transaction sentinel_key tx = Ret (Some att).

Definition undecided (_ : compact_tx.t) (_ : bool) : Prop := False.

Abbreviation fetch_step :=
  (rpc_step (produces_2pc sentinel_key [zeros 32] 2 undecided) no_blocking accept).

Definition request_buf : list byte := encode_request (0%Z, validate_request tx).
Definition response_buf : list byte := encode_response (0%Z, Some (validated att)).

Abbreviation fetch_sys := (rpc_sys (Q := sentinel_request) (R := sentinel_response) (S := nat)).

Definition asked : fetch_sys :=
  mk_sys (rpc_client.mk 1 {[ 0%Z := rpc_client.promise ]}) 0 [request_buf] [] []
    {[ 0%Z := validate_request tx ]} [].
Definition waiting : fetch_sys :=
  mk_sys (y_client asked) 0 [request_buf] [] [(0%Z, validate_request tx)] (y_calls asked) [].
Definition replied : fetch_sys :=
  mk_sys (y_client asked) 0 [request_buf] [response_buf] [(0%Z, validate_request tx)]
    (y_calls asked) [].
Definition fetched : fetch_sys :=
  mk_sys (rpc_client.mk 1 ∅) 0 [request_buf] [response_buf] [(0%Z, validate_request tx)]
    (y_calls asked) [(0%Z, Some (Some (validated att)))].

Lemma fetched_reachable : rtc fetch_step (rpc_start 0) fetched.
Proof.
  apply rtc_l with asked.
  { apply (rpc_call _ _ _ (rpc_start 0) (validate_request tx) rpc_client.promise _ _ 0%Z);
      [done|by vm_compute|by apply call_sent]. }
  apply rtc_l with waiting.
  { apply (rpc_serve_async _ _ _ asked request_buf 0 None (Some (0%Z, validate_request tx)));
      [by apply list_elem_of_singleton|]. unfold async_call, request_buf.
    by rewrite decode_encode_request. }
  apply rtc_l with replied.
  { apply (rpc_answer _ _ _ waiting 0%Z (validate_request tx) (Some (validated att)) 0);
      [by apply list_elem_of_singleton|].
    intros x [= <-]. split; [done|]. exists [], (λ _, None). split; [done|].
    unfold handler_2pc. by rewrite att_made. }
  apply rtc_once.
  apply (rpc_deliver _ _ _ replied response_buf _ (Some (0%Z, Some (validated att))));
    [by apply list_elem_of_singleton|]. unfold rpc_client.response_handler, response_buf.
  rewrite decode_encode_response; [done|done|]. by intros x [= <-].
Qed.

End Fetch.

Lemma signed_tx_wf : full_tx.wf signed_tx.
Proof.
  unfold full_tx.wf, full_tx.small, input.wf, output.wf, out_point.wf, is_u64. compute_decide.
Qed.

Lemma attestation_wf : sentinel_response_wf (validated attestation).
Proof. by vm_compute. Qed.

(** A caller of the stub that was answered has an attestation that verifies. *)
Lemma fetched_attestation_verifies :
  ∃ r, sentinel_client.validate_result (Some (validated attestation)) = Ret r ∧
    ∀ att, r = Some att → attests sentinel_key signed_tx att.
Proof.
  assert (Forall (sentinel_lemmas.accepted toy_keys) [sentinel_key; zeros 32]) as Hk.
  { eapply Permutation_Forall; [apply Permutation_swap|exact toy_accepted]. }
  destruct (remote_sentinel_2pc_answers sentinel_key [zeros 32] 2 toy_keys Hk undecided accept 0
    (fetched signed_tx attestation) 0%Z (Some (validated attestation))) as (req & Hc & Ht).
  - apply fetched_reachable; [exact signed_tx_wf|exact attestation_wf|exact attestation_made].
  - by apply list_elem_of_singleton.
  - cbn in Hc. rewrite lookup_singleton_eq in Hc. injection Hc as <-. exact Ht.
Qed.

End service_example.
